(* ===== verification/_CoqProject ===== *)
-Q . S2P
Prelude.v
Utf8.v
GoStrings.v
GoCodec.v
GoNum.v
SampleLib.v
RedactDecode.v
RedactText.v
RedactSecrets.v
RedactHeaders.v
RedactError.v
Attribute.v
MongoAddress.v
MongoPool.v
PromLabel.v
MetricViews.v
ResourceKeys.v
MetricCap.v
MetricRewrite.v
MetricGather.v
Repeat.v
SemconvReserved.v
Baggage.v
MetricRules.v
Shutdown.v
Lifecycle.v
Options.v
Resource.v
InitConfig.v
Endpoint.v
EnvChecks.v
Diagnostics.v
Logr.v
SlogAttr.v
LogHandlers.v
ExportStats.v
GoFields.v
Utf8Valid.v
Semconv.v
GoUrl.v
CassandraCql.v
Cassandra.v
RedisHook.v
RedisWrap.v
RestyErrors.v
RestyHook.v
NatsBatch.v
NatsConn.v
NatsJetStream.v
GinErrors.v
Minio.v
MinioList.v
Views.v
Instruments.v
Elasticsearch.v
Profiling.v
ProfilerSlot.v
RestyWrap.v
MongoClient.v
ViewLabels.v
Providers.v
Obsctx.v
HttpServer.v
InitSdk.v
TargetInfo.v
UserAttributes.v
CassandraSession.v
