(* ===== verification/Prelude.v ===== *)
(** * o11y: a verification development

    o11y is a Go library that sets up OpenTelemetry for a service. [o11y.Init]
    reads options and the environment, builds a tracer, a meter and a logger
    provider over one Resource, and hands back one Shutdown; a set of packages
    wraps clients and servers (databases, caches, HTTP, messaging) so that they
    emit spans and measurements. Three concerns run through all of it: nothing
    that is written may hold a credential, no metric may have an unbounded number
    of series, and a failure of telemetry may not become a failure of the service.
    This library models the code that carries these concerns and proves what it
    promises.

    ** Layers

    - Go. [Prelude] (byte strings, the scanner every text rewriting is an instance
      of, sorting), [Utf8], [Utf8Valid], [GoStrings], [GoFields], [GoCodec] and
      [GoNum] are the parts of Go's library the code uses, written out and
      executable. What cannot be written out is an interface, a class of
      operations with a second class of the documented laws: [GoUnicode] and
      [GoUpper] (the Unicode tables), [GoPrint], [GoLib] (net/url's parser, the
      HTML entities). [SampleLib] is one instance, used to evaluate the model; no
      theorem depends on it.
    - Redaction, internal/redact/redact.go. [RedactDecode] (the decoders and their
      bounded fixed point), [RedactText] (InText, URLs), [RedactSecrets] (Secrets
      and the credentials it can recognise), [RedactHeaders] (the forms of headers
      and cookies on the wire), [RedactError] (Error and the walk over a chain of
      errors in a store, where links may be shared or lead back).
    - Metrics. [PromLabel], [MetricViews], [ResourceKeys], [TargetInfo]
      (internal/metrics: label names, reserved keys, views, exemplars, resource and
      scope attributes, target_info); [Views] (internal/views, the views of every
      integration, and defaultViews), [Instruments] (each newInstruments and
      newPoolMetrics), [ViewLabels] (both against the labels the integrations
      record); [MetricCap], [MetricRewrite], [MetricGather]
      (internal/metricscap: one budget, the OTLP export and the Prometheus
      scrape); [MetricRules] (the rules internal/metrics/metrics.go builds for
      both).
    - Baggage. [SemconvReserved] (the generated tables), [Baggage]
      (internal/baggageattrs) and [UserAttributes] (attributes.go).
    - Logs. [Logr] (the sink of OpenTelemetry's own diagnostics), [SlogAttr] and
      [LogHandlers] (internal/log/handler.go, errattrs.go, multi.go and the chain
      Init builds of them), [Repeat] (internal/repeat), [ExportStats]
      (internal/exportstats).
    - Providers. [Providers] (internal/trace/trace.go, internal/log/provider.go, and
      InitMeter with its two paths, scrapelog.go and resourceexporter.go of
      internal/metrics), [Profiling] and [ProfilerSlot] (internal/profiling: tags and
      logger, Start and its closer).
    - The root package. [Options] and [InitConfig] (options.go, the checks of
      Init), [Resource] (buildResource), [Endpoint] (endpoint.go), [EnvChecks] and
      [Diagnostics] (diagnostics.go), [Shutdown] and [Lifecycle] (o11y.go:
      Shutdown, ForceFlush and the unwinding of Init), [InitSdk] (Init as a whole,
      composed of the above).
    - Integrations. [MongoAddress], [MongoPool] and [MongoClient] (mongo/connid.go,
      pool_metrics.go, client.go), [CassandraCql], [Cassandra] and [CassandraSession]
      (cassandra/), [RedisHook] and [RedisWrap] (redis/), [RestyErrors], [RestyHook]
      and [RestyWrap] (resty/), [Elasticsearch] (elasticsearch/), [Minio] and
      [MinioList] (minio/, the latter the goroutine of ListObjects), [NatsConn],
      [NatsJetStream] and [NatsBatch] (nats/, the last one a batch's goroutine and
      Stop), [GinErrors] (gin/), [HttpServer] (http/), [Obsctx] (obsctx/). [GoUrl] is
      what the integrations use of net/url and errors.Is and As. [Attribute] and [Semconv] are what they
      share: key and value pairs, the keys, and the value a span ends with when a
      key is written twice.

    An operation has the name it has in the code; where two packages use one name,
    the file tells them apart. A handler is the whole function, its early returns
    as branches; a loop is a recursion over the list it ranges over, or over fuel
    that is shown to be enough.

    ** What the theorems show

    - What is written. [RedactText] and [RedactSecrets]: the text InText and
      Secrets return holds no userinfo, no credential and no listed secret in any
      reading the decoders reach, or is the placeholder for the whole text; a secret
      is one of six bytes and more without a square bracket that is no part of the
      placeholder, and nothing is shown of shorter ones. [RedactError]: so for the
      rendering of an error, which never panics and still unwraps. [Diagnostics],
      [Logr], [EnvChecks], [Endpoint]: so for what the SDK logs about itself, and Init's errors do not tell the value of a variable; [InitSdk], [Profiling]: so for
      the startup records and the profiler's lines. [RestyHook], [NatsConn]: no
      credential of a request or of a server's URL in a span or an error. [RedisHook],
      [Cassandra], [Minio]: statement text, addresses and object keys only as
      configured, filtered commands never.
    - What is counted. [MetricRewrite], [MetricGather]: at both export boundaries a
      capped attribute has an admitted value or the overflow value, and capping
      keeps the totals. [MetricRules]: so with the rules built from any
      configuration, and [Views]: they cover every open key the views let through.
      [Views], [ViewLabels]: every instrument has one stream, and its view lets through
      exactly the labels its package records. [Providers]: the composed exporter sends
      every batch once, capped and counted. [MongoPool]: the deltas of a
      server's pools add up to the state kept for it, the idle ones if every checkout
      is of a connection seen ready.
      [PromLabel], [Resource]: no attribute takes a reserved label, and no two one.
    - What is kept. [Lifecycle], [Shutdown]: components are closed once, in order,
      in every interleaving, within the deadline if there is one, and then under no
      flush unless the wait for it ran out; a failing Init closes what it built. [InitSdk]: what Init leaves open is what its pillars need and what its
      Shutdown closes. [RedisWrap], [RestyWrap], [Cassandra], [CassandraSession]: a
      client or session has its own wrapper or observer, through collection and reuse
      of addresses, and nothing else stays. [ProfilerSlot]: one profiler at a time.
      [NatsBatch], [MinioList]: a goroutine hands everything on in order, closes its
      channel once and ends. [Obsctx]: detached work keeps its request's values and
      outlives its cancellation.
      [Baggage]: an error leaves the context as it was.
    - What is recorded. [Elasticsearch], [Minio], [MinioList], [GinErrors],
      [MongoClient], [RestyHook], [RedisHook], [Cassandra]: one span and one duration
      for an operation, whatever callbacks come and however it fails, with labels of a
      fixed set; the application's own hooks and observers are called first and see
      what they would have seen.
    - What is the same. [LogHandlers]: the chain of handlers writes the record the
      specification qualifies, to each output. [Repeat]: the bounded suppressor
      answers as an unbounded one. [CassandraCql]: a statement is read back through
      white space and comments, block comments that start with a slash excepted. [EnvChecks], [InitConfig]: what Init accepts is
      exactly what is well formed.

    ** Interfaces between components

    [GoUnicode]/[GoUnicodeLaws], [GoUpper], [GoPrint], [GoLib] for the Go library;
    [GoFiles] for files and certificates; [ResourceApi] for the detectors of the
    SDK's resource package; [MetricSdk] and [AttributeSets] for how the metric SDK
    applies views and identifies points; [Float] and [SortBuckets] for floating
    point and sort.Slice in the Prometheus path; [BaggageApi]/[BaggageLaws] for the
    W3C baggage; [TraceApi] for span contexts; [ViewApi]/[ViewApiLaws] for how the SDK makes
    a view; [PromApi]/[PromLaws] for client_golang; [NatsHeader]/[NatsHeaderLaws] and
    [GinTypes] for the headers of nats and the error types of gin; [UrlApi] for the resolution of a reference; [SlogHandler]/[SlogLaws] for slog
    handlers, which every handler of internal/log implements over the one it
    wraps; [ComponentTypes] for the names exporters report under. Each has an
    instance that satisfies its laws, with which the witnesses evaluate.

    ** Bounds and fuel

    The code's own bounds are kept: [maxDecodePasses] (8 passes of the decoders),
    [renderingDepth] (2), [maxErrorChainVisits] (1024 links, across a whole walk),
    [maxResolveDepth] (32 levels of a logged value), [maxCommandTextLen] (1024
    bytes), [MaxBaggageValueBytes], 1024 bytes for a profiling tag, a window of five
    minutes and 32 entries for scrape errors. Where the model needs fuel of its own it is
    the length of the text, the number of names held (each blocks one candidate of
    [RedisWrap.acquire]), or a bound that a theorem shows to be reached:
    [Lifecycle.lifecycle_terminates], [RedisWrap.Wrap_returns],
    [RestyWrap.resty_wrap_returns], [NatsBatch.batch_terminates],
    [MinioList.listing_terminates], [RedactError.errorURLs_walk]. The walk of
    errors.Is and As over a chain has the chain's depth as its fuel, a parameter of the
    theorems that use it.

    ** Modelling choices

    - A Go string is a list of bytes. An int has 64 bits; where it can overflow its
      wrap-around is written out. float64 is the Standard Library's specification
      of doubles in [Options] and [InitConfig], an interface in [MetricGather].
    - Times are nanoseconds on one clock; time.Time.Sub saturates. The time a
      component takes is part of what it answers. Durations are recorded in
      nanoseconds; the conversion to seconds is the library's.
    - Slices, points and metrics are values, so the clones the code makes are the
      identity. Where sharing matters there is a store: the chain of errors, logged
      values, the entries of [RedisWrap].
    - os.Getenv is a function of the name. An error is its text, with what
      errors.Is and errors.As answer where the code asks.
    - Concurrency is a step relation at the granularity of the locks and atomics:
      [Lifecycle], [ExportStats], [RedisWrap], [RestyWrap], [ProfilerSlot],
      [NatsBatch], [MinioList], the registry of [Cassandra]. A channel is its buffer,
      and a select takes any branch that is ready. A
      component whose every call holds one mutex is a function of its state.
    - An integer attribute is not a string, so the caps leave it alone, as the
      code does.

    ** Not modelled

    - The libraries the code calls: the OpenTelemetry SDK and its exporters, the
      drivers, otelhttp, otelgin, otelmongo, otel-nats and the Pyroscope agent. Each is
      a parameter where its answer matters.
    - Methods that only return a field or pass their arguments on: SDK.Tracer and
      SDK.Meter, the publishing, deletion and Info methods of nats/jetstream.go, the
      views.go of the integrations, rpcviews.go.
    - The generator of the reserved keys (internal/baggageattrs/cmd), examples, test
      helpers and the repository's linters (src/scripts, src/.semgrep): not part of the
      library. *)
From Stdlib Require Export Ascii String ZifyBool ZifyN Lia.
From stdpp Require Export base option list gmap strings numbers sorting.

(** * Byte strings

    A Go string is a sequence of bytes; it is modelled as [list ascii]. A Go
    string literal is written [#"..."]. *)
Abbreviation bytes := (list ascii).
Declare Scope go_scope.
Delimit Scope go_scope with go.
Notation "# s" := (list_ascii_of_string s%string) (at level 1, format "# s") : go_scope.
Open Scope go_scope.
Open Scope list_scope.
Open Scope nat_scope.

(** The value of a byte. *)
Definition byte_val (c : ascii) : N := N_of_ascii c.
Definition byte_of (n : N) : ascii := ascii_of_N (n mod 256).

Lemma byte_of_val c : byte_of (byte_val c) = c.
Proof.
  unfold byte_of, byte_val. rewrite N.mod_small by apply N_ascii_bounded.
  apply ascii_N_embedding.
Qed.

Lemma byte_val_bound c : (byte_val c < 256)%N.
Proof. apply N_ascii_bounded. Qed.

Lemma byte_val_of n : (n < 256)%N → byte_val (byte_of n) = n.
Proof.
  intros H. unfold byte_of, byte_val.
  rewrite N.mod_small by done. by apply N_ascii_embedding.
Qed.

Lemma byte_val_inj c d : byte_val c = byte_val d → c = d.
Proof. intros H. by rewrite <- (byte_of_val c), H, byte_of_val. Qed.

(** * Tactics *)

(** Case analysis on a byte, for facts that hold of each of the 256. *)
Ltac byte_cases c := destruct c as [[] [] [] [] [] [] [] []].

(** Linear arithmetic with division and remainder by constants. *)
Ltac div_lia := zify; Z.to_euclidean_division_equations; lia.

(** Splits conjunctions and boolean conjunctions in the hypotheses. *)
Ltac split_and_hyps :=
  repeat match goal with
  | H : _ ∧ _ |- _ => destruct H
  | H : andb _ _ = true |- _ => apply andb_true_iff in H; destruct H
  | H : orb _ _ = false |- _ => apply orb_false_iff in H; destruct H
  end.

(** * Prefixes and infixes *)

(** [prefixb p s] decides whether [s] starts with [p] (strings.HasPrefix). *)
Fixpoint prefixb (p s : bytes) : bool :=
  match p, s with
  | [], _ => true
  | a :: p', b :: s' => bool_decide (a = b) && prefixb p' s'
  | _ :: _, [] => false
  end.

Lemma prefixb_spec p s : prefixb p s = true ↔ p `prefix_of` s.
Proof.
  revert s. induction p as [|a p IH]; intros [|b s]; simpl.
  - split; [intros _; apply prefix_nil | done].
  - split; [intros _; apply prefix_nil | done].
  - split; [done | intros H; by apply prefix_nil_not in H].
  - rewrite andb_true_iff, bool_decide_eq_true, IH. split.
    + intros [-> H]. by apply prefix_cons.
    + intros H. split; [by apply prefix_cons_inv_1 in H | by apply prefix_cons_inv_2 in H].
Qed.

Lemma prefixb_false p s : prefixb p s = false ↔ ¬ p `prefix_of` s.
Proof. rewrite <- prefixb_spec. destruct (prefixb p s); naive_solver. Qed.

Lemma prefixb_app p s : prefixb p (p ++ s) = true.
Proof. apply prefixb_spec. by exists s. Qed.

Lemma prefix_take_drop (p s : bytes) :
  p `prefix_of` s → take (length p) s = p ∧ s = p ++ drop (length p) s.
Proof.
  intros [k ->]. rewrite take_app_length, drop_app_length. done.
Qed.

(** [infix p s]: [p] occurs in [s] as a contiguous run of bytes. *)
Definition infix (p s : bytes) : Prop := ∃ l r, s = l ++ p ++ r.

Fixpoint infixb (p s : bytes) : bool :=
  prefixb p s || match s with [] => false | _ :: s' => infixb p s' end.

Lemma infix_nil_inv p : infix p [] → p = [].
Proof. intros (l & r & H). by destruct l, p. Qed.

Lemma infix_cons p c s : infix p (c :: s) ↔ p `prefix_of` c :: s ∨ infix p s.
Proof.
  split.
  - intros ([|a l] & r & H); simpl in H.
    + left. by exists r.
    + right. injection H as -> ->. by exists l, r.
  - intros [[r H] | (l & r & ->)]; [by exists [], r | by exists (c :: l), r].
Qed.

Lemma infixb_spec p s : infixb p s = true ↔ infix p s.
Proof.
  induction s as [|c s IH]; simpl.
  - rewrite orb_false_r, prefixb_spec. split.
    + intros [r Hr]. by exists [], r.
    + intros H. apply infix_nil_inv in H as ->. apply prefix_nil.
  - rewrite orb_true_iff, prefixb_spec, IH, infix_cons. done.
Qed.

#[export] Instance infix_dec p s : Decision (infix p s).
Proof.
  destruct (infixb p s) eqn:E.
  - left. by apply infixb_spec.
  - right. intros H. apply infixb_spec in H. congruence.
Defined.

Lemma prefix_infix p s : p `prefix_of` s → infix p s.
Proof. intros [r ->]. by exists [], r. Qed.

Lemma infix_refl s : infix s s.
Proof. exists [], []. by rewrite app_nil_r. Qed.

Lemma infix_app_l p s t : infix p t → infix p (s ++ t).
Proof. intros (l & r & ->). exists (s ++ l), r. by rewrite (assoc_L (++)). Qed.

Lemma infix_app_r p s t : infix p s → infix p (s ++ t).
Proof. intros (l & r & ->). exists l, (r ++ t). by rewrite <- !(assoc_L (++)). Qed.

Lemma infix_drop p n s : infix p (drop n s) → infix p s.
Proof. intros H. rewrite <- (take_drop n s). by apply infix_app_l. Qed.

Lemma infix_elem_of p s x : infix p s → x ∈ p → x ∈ s.
Proof. intros (l & r & ->) Hx. set_solver. Qed.

Lemma infix_trans p q s : infix p q → infix q s → infix p s.
Proof.
  intros (l & r & ->) (l' & r' & ->). exists (l' ++ l), (r ++ r').
  by rewrite <- !(assoc_L (++)).
Qed.

Lemma prefix_app_cases (p a b : bytes) :
  p `prefix_of` a ++ b → p `prefix_of` a ∨ ∃ q, p = a ++ q ∧ q `prefix_of` b.
Proof.
  intros [k E]. apply app_eq_inv in E as [(k' & -> & _) | (k' & -> & ->)].
  - left. by exists k'.
  - right. exists k'. split; [done|by exists k].
Qed.

Lemma infix_app_cases (p a b : bytes) :
  infix p (a ++ b) → infix p b ∨ ∃ j, j < length a ∧ p `prefix_of` drop j a ++ b.
Proof.
  intros (l & r & E). apply app_eq_inv in E as [(k & -> & E) | (k & -> & ->)].
  - destruct k as [|c k]; simpl in E.
    + left. rewrite <- E. apply prefix_infix. by exists r.
    + right. exists (length l). rewrite drop_app_length, length_app. simpl.
      split; [lia|]. exists r. done.
  - left. by exists k, r.
Qed.

Lemma prefix_before_char (p a b : bytes) x : x ∉ p → p `prefix_of` a ++ x :: b → p `prefix_of` a.
Proof.
  intros Hx [k E]. apply app_eq_inv in E as [(k' & -> & E) | (k' & -> & E)].
  - by exists k'.
  - destruct k' as [|d k']; simplify_eq/=; [by rewrite app_nil_r|set_solver].
Qed.

(** * The scanner

    Most of the text processing in the program is one loop: walk the text from
    left to right; where something is recognised, consume it and write
    something for it, otherwise consume one byte and copy it (a replacement)
    or write nothing for it (a search). [scan_gen] is that loop. The step sees
    the bytes already consumed, nearest first, and the bytes still to come; it
    answers how many bytes it consumes (never zero) and what it writes. *)
Section scan.
Context {A : Type} (copy : ascii → list A).
Context (step : bytes → bytes → option (nat * list A)).

Definition step_hit (before s : bytes) : option (nat * list A) :=
  match step before s with
  | Some (S k, out) => Some (S k, out)
  | _ => None
  end.

Fixpoint scan_gen (before : bytes) (skip : nat) (s : bytes) : list A :=
  match s with
  | [] => []
  | c :: s' =>
    match skip with
    | S k => scan_gen (c :: before) k s'
    | O =>
      match step before s with
      | Some (S k, out) => out ++ scan_gen (c :: before) k s'
      | _ => copy c ++ scan_gen (c :: before) 0 s'
      end
    end
  end.

Lemma scan_gen_skip k before s :
  scan_gen before k s = scan_gen (reverse (take k s) ++ before) 0 (drop k s).
Proof.
  revert k before. induction s as [|c s IH]; intros k before.
  { by rewrite take_nil, drop_nil. }
  destruct k as [|k]; [by rewrite drop_0, take_0|].
  simpl. rewrite IH, reverse_cons, <- (assoc_L (++)). done.
Qed.

Lemma scan_gen_hit before s n out :
  s ≠ [] → step_hit before s = Some (n, out) →
  scan_gen before 0 s = out ++ scan_gen (reverse (take n s) ++ before) 0 (drop n s).
Proof.
  intros Hs Hhit. destruct s as [|c s]; [done|]. unfold step_hit in Hhit.
  simpl. destruct (step before (c :: s)) as [[[|k] out']|]; simplify_eq.
  rewrite scan_gen_skip. simpl. by rewrite reverse_cons, <- (assoc_L (++)).
Qed.

Lemma scan_gen_miss before c s :
  step_hit before (c :: s) = None →
  scan_gen before 0 (c :: s) = copy c ++ scan_gen (c :: before) 0 s.
Proof.
  unfold step_hit. simpl. intros H.
  by destruct (step before (c :: s)) as [[[|k] out']|].
Qed.

Lemma step_hit_pos before s n out : step_hit before s = Some (n, out) → 0 < n.
Proof.
  unfold step_hit. destruct (step before s) as [[[|k] o]|]; intros; simplify_eq; lia.
Qed.

(** Induction along the scan. *)
Lemma scan_ind (P : bytes → bytes → Prop) :
  (∀ before, P before []) →
  (∀ before c s, step_hit before (c :: s) = None →
     P (c :: before) s → P before (c :: s)) →
  (∀ before s n out, s ≠ [] → 0 < n → step_hit before s = Some (n, out) →
     P (reverse (take n s) ++ before) (drop n s) → P before s) →
  ∀ before s, P before s.
Proof.
  intros Hnil Hmiss Hhit before s. remember (length s) as len eqn:Hlen.
  revert before s Hlen. induction (lt_wf len) as [len _ IH]. intros before s ->.
  destruct s as [|c s]; [apply Hnil|].
  destruct (step_hit before (c :: s)) as [[n out]|] eqn:E.
  - pose proof (step_hit_pos _ _ _ _ E). eapply Hhit; [done|done|done|].
    eapply IH; [|done]. rewrite length_drop. simpl. lia.
  - apply Hmiss; [done|]. eapply IH; [|done]. simpl. lia.
Qed.

(** A text nothing is recognised in is copied byte by byte. *)
Lemma scan_gen_none before s :
  (∀ b s', s' `suffix_of` s → step_hit b s' = None) →
  scan_gen before 0 s = s ≫= copy.
Proof.
  revert before. induction s as [|c s IH]; intros before H; [done|].
  rewrite scan_gen_miss by (apply H; done). simpl. f_equal.
  apply IH. intros b s' Hs'. apply H. by apply suffix_cons_r.
Qed.
End scan.

(** Rewriting: what is not recognised is copied. *)
Abbreviation copy_byte := (λ c : ascii, [c]).
Abbreviation scan step := (scan_gen copy_byte step).
Definition rewrite_all (step : bytes → bytes → option (nat * bytes)) (s : bytes) : bytes :=
  scan step [] 0 s.

(** Searching: every match is reported as the text from its start on and its
    length, leftmost first and without overlap (regexp's FindAll). *)
Definition report (m : bytes → bytes → option nat) (before s : bytes) :
    option (nat * list (bytes * nat)) :=
  n ← m before s; Some (n, [(s, n)]).
Abbreviation search m := (scan_gen (λ _ : ascii, []) (report m)).
Definition find_all (m : bytes → bytes → option nat) (s : bytes) : list (bytes * nat) :=
  search m [] 0 s.

(** Replacing every match by a function of the matched text. *)
Definition replacing (m : bytes → bytes → option nat) (f : bytes → bytes)
    (before s : bytes) : option (nat * bytes) :=
  n ← m before s; Some (n, f (take n s)).

Lemma bind_singleton (s : bytes) : s ≫= copy_byte = s.
Proof. induction s as [|c s IH]; [done|]. by rewrite bind_cons, IH. Qed.

Lemma rewrite_all_none step s :
  (∀ b s', s' `suffix_of` s → step b s' = None) → rewrite_all step s = s.
Proof.
  intros H. unfold rewrite_all. rewrite scan_gen_none; [apply bind_singleton|].
  intros b s' Hs'. unfold step_hit. by rewrite H.
Qed.

Lemma step_hit_some {A} (step : bytes → bytes → option (nat * list A)) before s n out :
  step before s = Some (n, out) → 0 < n → step_hit step before s = Some (n, out).
Proof. unfold step_hit. intros -> Hn. destruct n; [lia|done]. Qed.

Lemma step_hit_none {A} (step : bytes → bytes → option (nat * list A)) before s :
  step before s = None → step_hit step before s = None.
Proof. unfold step_hit. by intros ->. Qed.

(** A step that recognises [p] wherever it stands. *)
Lemma scan_prefix (step : bytes → bytes → option (nat * bytes)) before p out t :
  p ≠ [] → (∀ b, step b (p ++ t) = Some (length p, out)) →
  scan step before 0 (p ++ t) = out ++ scan step (reverse p ++ before) 0 t.
Proof.
  intros Hp Hstep. rewrite (scan_gen_hit _ _ _ _ (length p) out).
  - by rewrite take_app_length, drop_app_length.
  - by destruct p.
  - apply step_hit_some; [apply Hstep|]. destruct p; [done|simpl; lia].
Qed.

(** Bytes no step begins at are copied. *)
Lemma scan_copy (step : bytes → bytes → option (nat * bytes)) before p t :
  (∀ b c s, c ∈ p → step b (c :: s) = None) →
  scan step before 0 (p ++ t) = p ++ scan step (reverse p ++ before) 0 t.
Proof.
  revert before. induction p as [|c p IH]; intros before Hp; [done|].
  simpl app at 1. rewrite scan_gen_miss by (apply step_hit_none, Hp; set_solver).
  rewrite IH by (intros; apply Hp; set_solver).
  by rewrite reverse_cons, <- (assoc_L (++)).
Qed.

Lemma scan_blind {A} (copy : ascii → list A) step before before' s :
  (∀ b b' t, step b t = step b' t) →
  scan_gen copy step before 0 s = scan_gen copy step before' 0 s.
Proof.
  intros Hb. revert before'. revert before s.
  apply (scan_ind copy step (λ before s, ∀ before',
    scan_gen copy step before 0 s = scan_gen copy step before' 0 s)).
  - done.
  - intros before c s Hm IH before'.
    rewrite (scan_gen_miss _ _ before c s Hm), (scan_gen_miss _ _ before' c s).
    { by rewrite (IH (c :: before')). }
    unfold step_hit in *. by rewrite (Hb before' before (c :: s)).
  - intros before s n out Hs Hn Hh IH before'.
    rewrite (scan_gen_hit _ _ _ _ _ _ Hs Hh).
    rewrite (scan_gen_hit copy step before' s n out Hs); [by rewrite (IH (reverse (take n s) ++ before'))|].
    unfold step_hit in *. by rewrite (Hb before' before s).
Qed.

(** A search reports every place its pattern matches at, when no match can
    start inside another one. *)
Definition no_overlap (m : bytes → bytes → option nat) : Prop :=
  (∀ b b' s, m b s = m b' s)
  ∧ ∀ b s n, m b s = Some n → 0 < n ∧ ∀ j, 0 < j < n → m b (drop j s) = None.

Lemma report_hit m before s n :
  m before s = Some n → 0 < n → step_hit (report m) before s = Some (n, [(s, n)]).
Proof. intros H Hn. unfold step_hit, report. rewrite H. simpl. destruct n; [lia|done]. Qed.

Lemma suffix_cases (s' s : bytes) n :
  s' `suffix_of` s → s' `suffix_of` drop n s ∨ ∃ j, j < n ∧ s' = drop j s.
Proof.
  intros [l ->]. destruct (decide (n ≤ length l)) as [H|H].
  - left. rewrite drop_app_le by done. apply suffix_app_r. done.
  - right. exists (length l). split; [lia|]. by rewrite drop_app_length.
Qed.

Lemma search_complete m before s s' n :
  no_overlap m →
  (s', n) ∈ search m before 0 s ↔ s' `suffix_of` s ∧ s' ≠ [] ∧ m before s' = Some n.
Proof.
  intros [Hblind Hno]. revert before s.
  apply (scan_ind (λ _ : ascii, []) (report m) (λ before s,
    (s', n) ∈ search m before 0 s ↔ s' `suffix_of` s ∧ s' ≠ [] ∧ m before s' = Some n)).
  - intros before. simpl. split; [intros H; by apply not_elem_of_nil in H|].
    intros (Hs & Hne & _). apply suffix_nil_inv in Hs. done.
  - intros before c s Hm IH. rewrite scan_gen_miss by done. simpl. rewrite IH.
    rewrite (Hblind (c :: before) before). split.
    + intros (? & ? & ?). split_and!; [by apply suffix_cons_r|done|done].
    + intros (Hs & ? & Hms). split_and!; [|done|done].
      destruct s' as [|d s']; [done|].
      apply suffix_cons_inv in Hs as [[= -> ->] | ?]; [|done].
      destruct (Hno _ _ _ Hms) as [Hpos _].
      by rewrite (report_hit _ _ _ _ Hms Hpos) in Hm.
  - intros before s k out Hs Hk Hh IH. rewrite (scan_gen_hit _ _ _ _ _ _ Hs Hh).
    unfold step_hit, report in Hh. destruct (m before s) as [k'|] eqn:Hms; [|done].
    simpl in Hh. destruct k' as [|k']; simplify_eq.
    rewrite elem_of_app, list_elem_of_singleton, IH.
    rewrite (Hblind (reverse _ ++ before) before). split.
    + intros [? | (? & ? & ?)]; simplify_eq; [done|]. split_and!; [|done|done].
      rewrite <- (take_drop (S k') s). by apply suffix_app_r.
    + intros (Hsuf & ? & Hms'). destruct (suffix_cases _ _ (S k') Hsuf) as [? | (j & Hj & ->)].
      * by right.
      * left. destruct j as [|j]; [rewrite drop_0 in *; congruence|].
        destruct (Hno _ _ _ Hms) as [_ Hin]. rewrite Hin in Hms' by lia. done.
Qed.

Lemma find_all_complete m s s' n :
  no_overlap m →
  (s', n) ∈ find_all m s ↔ s' `suffix_of` s ∧ s' ≠ [] ∧ m [] s' = Some n.
Proof. apply search_complete. Qed.

(** Occurrences of a byte. *)
Definition count_byte (c : ascii) (s : bytes) : nat :=
  length (filter (λ d, d = c) s).

Lemma count_byte_cons c d s :
  count_byte c (d :: s) = (if decide (d = c) then 1 else 0) + count_byte c s.
Proof. unfold count_byte. rewrite filter_cons. by case_decide. Qed.

Lemma count_byte_app c s t : count_byte c (s ++ t) = count_byte c s + count_byte c t.
Proof. unfold count_byte. by rewrite filter_app, length_app. Qed.

Lemma count_byte_zero c s : count_byte c s = 0 ↔ c ∉ s.
Proof.
  unfold count_byte. rewrite length_zero_iff_nil. split.
  - intros H Hc. assert (c ∈ filter (λ d, d = c) s) as Hf.
    { by apply list_elem_of_filter. }
    rewrite H in Hf. set_solver.
  - intros Hc. destruct (filter (λ d, d = c) s) as [|d l] eqn:E; [done|].
    assert (d ∈ filter (λ d, d = c) s) as Hd by (rewrite E; set_solver).
    apply list_elem_of_filter in Hd as [-> ?]. done.
Qed.

(** * The order of sort.Strings *)
Fixpoint bytes_leb (s t : bytes) : bool :=
  match s, t with
  | [], _ => true
  | _ :: _, [] => false
  | c :: s', d :: t' =>
    (byte_val c <? byte_val d)%N || (byte_val c =? byte_val d)%N && bytes_leb s' t'
  end.
Definition bytes_le (s t : bytes) : Prop := bytes_leb s t = true.
#[export] Instance bytes_le_dec : RelDecision bytes_le.
Proof. intros s t. unfold bytes_le. apply _. Defined.

#[export] Instance bytes_le_trans : Transitive bytes_le.
Proof.
  unfold bytes_le. intros s. induction s as [|c s IH]; intros [|d t] [|e u]; simpl; try done.
  rewrite !orb_true_iff, !andb_true_iff. intros H1 H2.
  assert (Hlt : ∀ x y, (byte_val x <? byte_val y)%N = true ↔ (byte_val x < byte_val y)%N) by lia.
  destruct H1 as [H1|[H1 H1']], H2 as [H2|[H2 H2']]; [left; lia..|right].
  split; [lia|]. by apply (IH t).
Qed.

#[export] Instance bytes_le_total : Total bytes_le.
Proof.
  unfold bytes_le. intros s. induction s as [|c s IH]; intros [|d t]; simpl; auto.
  rewrite !orb_true_iff, !andb_true_iff.
  destruct (N.lt_trichotomy (byte_val c) (byte_val d)) as [?|[?|?]]; [left; left; lia| |right; left; lia].
  destruct (IH t); [left|right]; right; (split; [lia|done]).
Qed.

#[export] Instance bytes_le_antisymm : AntiSymm (=) bytes_le.
Proof.
  unfold bytes_le. intros s. induction s as [|c s IH]; intros [|d t]; simpl; try done.
  rewrite !orb_true_iff, !andb_true_iff. intros [?|[? Hs]] [?|[? Ht]]; [lia..|].
  f_equal; [by apply byte_val_inj; lia|by apply IH].
Qed.

(** sort.Strings *)
Definition sort_strings (l : list bytes) : list bytes := merge_sort bytes_le l.

Lemma sort_strings_perm l : sort_strings l ≡ₚ l.
Proof. apply merge_sort_Permutation. Qed.
Lemma sort_strings_sorted l : StronglySorted bytes_le (sort_strings l).
Proof. apply (StronglySorted_merge_sort _). Qed.

(** Sorting a list of distinct strings depends on their set only. *)
Lemma sort_strings_set l k :
  NoDup l → NoDup k → (∀ x, x ∈ l ↔ x ∈ k) → sort_strings l = sort_strings k.
Proof.
  intros Hl Hk Hx. apply (StronglySorted_unique bytes_le); try apply sort_strings_sorted.
  rewrite !sort_strings_perm. by apply NoDup_Permutation.
Qed.
