(* ===== verification/Utf8.v ===== *)
(** Go's unicode/utf8 package: decoding, encoding and the [for range] loop over
    a string, on byte strings, with the law that encoding a decoded rune gives
    back the bytes it was decoded from. *)
From S2P Require Import Prelude.

(** * Byte classes *)
Definition in_range (lo hi : ascii) (c : ascii) : bool :=
  ((byte_val lo <=? byte_val c) && (byte_val c <=? byte_val hi))%N.
Definition is_lower (c : ascii) : bool := in_range "a" "z" c.
Definition is_upper (c : ascii) : bool := in_range "A" "Z" c.
Definition is_alpha (c : ascii) : bool := is_lower c || is_upper c.
Definition is_digit (c : ascii) : bool := in_range "0" "9" c.
Definition is_alnum (c : ascii) : bool := is_alpha c || is_digit c.
Definition byte_in (set : bytes) (c : ascii) : bool := existsb (Ascii.eqb c) set.

Lemma byte_in_spec set c : byte_in set c = true ↔ c ∈ set.
Proof.
  unfold byte_in. rewrite existsb_exists. split.
  - intros (d & Hd & ->%Ascii.eqb_eq). by apply list_elem_of_In.
  - intros Hc. exists c. rewrite <- list_elem_of_In, Ascii.eqb_eq. done.
Qed.

Lemma byte_in_false set c : byte_in set c = false ↔ c ∉ set.
Proof. rewrite <- byte_in_spec. destruct (byte_in set c); naive_solver. Qed.

(** * unicode/utf8 *)
Definition RuneError : N := 0xFFFD.

Definition is_cont (lo hi : N) (c : ascii) : bool := ((lo <=? byte_val c) && (byte_val c <=? hi))%N.

(** The bounds of the second byte, by the first (utf8's acceptRanges). *)
Definition second_lo (c0 : N) : N :=
  if (c0 =? 0xE0)%N then 0xA0 else if (c0 =? 0xF0)%N then 0x90 else 0x80.
Definition second_hi (c0 : N) : N :=
  if (c0 =? 0xED)%N then 0x9F else if (c0 =? 0xF4)%N then 0x8F else 0xBF.

Definition utf8_width (c0 : N) : nat :=
  if (c0 <? 0x80)%N then 1
  else if (c0 <? 0xC2)%N then 0
  else if (c0 <? 0xE0)%N then 2
  else if (c0 <? 0xF0)%N then 3
  else if (c0 <=? 0xF4)%N then 4
  else 0.

(** utf8.DecodeRuneInString: the first rune of a non-empty string and its
    width; an invalid encoding is [RuneError] with width 1, and the flag is
    whether the encoding was valid. *)
Definition decode_rune (s : bytes) : N * nat * bool :=
  match s with
  | [] => (RuneError, 0, false)
  | c0 :: t =>
    let v0 := byte_val c0 in
    let bad := (RuneError, 1, false) in
    match utf8_width v0, t with
    | 1, _ => (v0, 1, true)
    | 2, c1 :: _ =>
      if is_cont (second_lo v0) (second_hi v0) c1
      then (((v0 - 0xC0) * 64 + (byte_val c1 - 0x80))%N, 2, true)
      else bad
    | 3, c1 :: c2 :: _ =>
      if is_cont (second_lo v0) (second_hi v0) c1 && is_cont 0x80 0xBF c2
      then ((((v0 - 0xE0) * 64 + (byte_val c1 - 0x80)) * 64 + (byte_val c2 - 0x80))%N, 3, true)
      else bad
    | 4, c1 :: c2 :: c3 :: _ =>
      if is_cont (second_lo v0) (second_hi v0) c1 && is_cont 0x80 0xBF c2 && is_cont 0x80 0xBF c3
      then (((((v0 - 0xF0) * 64 + (byte_val c1 - 0x80)) * 64 + (byte_val c2 - 0x80)) * 64
            + (byte_val c3 - 0x80))%N, 4, true)
      else bad
    | _, _ => bad
    end
  end.
Definition rune_of (s : bytes) : N := (decode_rune s).1.1.
Definition rune_width (s : bytes) : nat := (decode_rune s).1.2.
Definition rune_ok (s : bytes) : bool := (decode_rune s).2.

(** utf8.AppendRune; an invalid rune is written as [RuneError]. *)
Definition valid_rune (r : N) : bool := ((r <? 0xD800) || (0xDFFF <? r) && (r <=? 0x10FFFF))%N.
Definition encode_rune (r0 : N) : bytes :=
  let r := if valid_rune r0 then r0 else RuneError in
  if (r <? 0x80)%N then [byte_of r]
  else if (r <? 0x800)%N then [byte_of (0xC0 + r / 64); byte_of (0x80 + r mod 64)]%N
  else if (r <? 0x10000)%N then
    [byte_of (0xE0 + r / 4096); byte_of (0x80 + (r / 64) mod 64); byte_of (0x80 + r mod 64)]%N
  else [byte_of (0xF0 + r / 262144); byte_of (0x80 + (r / 4096) mod 64);
        byte_of (0x80 + (r / 64) mod 64); byte_of (0x80 + r mod 64)]%N.

(** The runes a [for range] loop over a string visits, each with the bytes it
    stands for. *)
Definition rune_step (_ s : bytes) : option (nat * list (N * bytes)) :=
  Some (rune_width s, [(rune_of s, take (rune_width s) s)]).
Definition runes (s : bytes) : list (N * bytes) := scan_gen (λ _, []) rune_step [] 0 s.

(** utf8.DecodeLastRuneInString on the bytes before a position, given nearest
    first. It looks back over at most three continuation bytes. *)
Definition rune_start (c : ascii) : bool := negb (is_cont 0x80 0xBF c).
Fixpoint back_to_start (fuel : nat) (seen before : bytes) : bytes :=
  match before with
  | [] => seen
  | c :: before' =>
    if rune_start c then c :: seen
    else match fuel with
         | O => c :: seen
         | S fuel' => match before' with
                      | [] => c :: seen
                      | _ => back_to_start fuel' (c :: seen) before'
                      end
         end
  end.
Definition decode_last_rune (before : bytes) : N :=
  match before with
  | [] => RuneError
  | c :: _ =>
    if (byte_val c <? 0x80)%N then byte_val c
    else let tail := back_to_start 3 [] before in
         if bool_decide (rune_width tail = length tail) then rune_of tail else RuneError
  end.

Lemma decode_rune_width s : s ≠ [] → 0 < rune_width s ≤ length s.
Proof.
  destruct s as [|c0 t]; [done|]. intros _. unfold rune_width, decode_rune.
  destruct (utf8_width (byte_val c0)) as [|[|[|[|[|w]]]]];
    destruct t as [|c1 [|c2 [|c3 t]]]; simpl; try lia;
    repeat case_match; simpl; lia.
Qed.

(** A rune decoded from a valid encoding is encoded back to the same bytes. *)
Lemma encode_decode_rune s :
  rune_ok s = true → encode_rune (rune_of s) = take (rune_width s) s.
Proof.
  destruct s as [|c0 t]; [done|].
  unfold rune_ok, rune_of, rune_width, decode_rune, utf8_width.
  pose proof (byte_val_bound c0) as B0.
  destruct (byte_val c0 <? 128)%N eqn:E1.
  { intros _. simpl. unfold encode_rune, valid_rune.
    assert ((byte_val c0 <? 55296)%N = true) as -> by lia. simpl. rewrite E1.
    by rewrite byte_of_val. }
  destruct (byte_val c0 <? 194)%N eqn:E2; [by destruct t|].
  assert (Hb : ∀ c v, v = byte_val c → byte_of v = c) by (intros c v ->; apply byte_of_val).
  destruct (byte_val c0 <? 224)%N eqn:E3.
  { destruct t as [|c1 t]; [done|]. unfold is_cont.
    destruct ((second_lo _ <=? _) && _)%N eqn:C1; [|done]. intros _. simpl.
    pose proof (byte_val_bound c1). unfold second_lo, second_hi in C1.
    unfold encode_rune, valid_rune. cbv zeta.
    repeat case_match; try lia; repeat (f_equal; try (apply Hb; div_lia)). }
  destruct (byte_val c0 <? 240)%N eqn:E4.
  { destruct t as [|c1 [|c2 t]]; [done|done|]. unfold is_cont.
    destruct (((second_lo _ <=? _) && _) && _)%N eqn:C1; [|done]. intros _. simpl.
    pose proof (byte_val_bound c1). pose proof (byte_val_bound c2).
    unfold second_lo, second_hi in C1. split_and_hyps.
    unfold encode_rune, valid_rune. cbv zeta.
    repeat case_match; try lia; repeat (f_equal; try (apply Hb; div_lia)). }
  destruct (byte_val c0 <=? 244)%N eqn:E5; [|by destruct t].
  destruct t as [|c1 [|c2 [|c3 t]]]; [done|done|done|]. unfold is_cont.
  destruct (((second_lo _ <=? _) && _) && _ && _)%N eqn:C1; [|done]. intros _. simpl.
  pose proof (byte_val_bound c1). pose proof (byte_val_bound c2). pose proof (byte_val_bound c3).
  unfold second_lo, second_hi in C1. split_and_hyps.
  unfold encode_rune, valid_rune. cbv zeta.
  repeat case_match; try lia; repeat (f_equal; try (apply Hb; div_lia)).
Qed.
