(* ===== verification/GoStrings.v ===== *)
(** Go's strings package: the functions the SDK calls, on byte strings.
    Everything here is executable. The Unicode tables are the one thing not
    written out: they are the operations of [GoUnicode], with the ASCII part of
    what Go documents about them as its laws. *)
From S2P Require Import Prelude Utf8.

Definition lower_byte (c : ascii) : ascii := if is_upper c then byte_of (byte_val c + 32) else c.

(** * The Unicode tables *)
Class GoUnicode := {
  unicode_ToLower : N → N;
  unicode_IsLetter : N → bool;
  unicode_IsDigit : N → bool;
  (** one rune for each orbit of unicode.SimpleFold *)
  unicode_Fold : N → N;
}.

(** What Go documents about the tables on ASCII. *)
Class GoUnicodeLaws (U : GoUnicode) := {
  unicode_ToLower_ascii c : (byte_val c < 128)%N →
    unicode_ToLower (byte_val c) = if is_upper c then (byte_val c + 32)%N else byte_val c;
  unicode_IsLetter_ascii c : (byte_val c < 128)%N → unicode_IsLetter (byte_val c) = is_alpha c;
  unicode_IsDigit_ascii c : (byte_val c < 128)%N → unicode_IsDigit (byte_val c) = is_digit c;
  unicode_Fold_ascii c d : (byte_val c < 128)%N → (byte_val d < 128)%N →
    unicode_Fold (byte_val c) = unicode_Fold (byte_val d) ↔ lower_byte c = lower_byte d;
}.

(** The ASCII tables, which satisfy the laws; used to evaluate the model. *)
Definition ascii_unicode : GoUnicode := {|
  unicode_ToLower r := if ((65 <=? r) && (r <=? 90))%N then (r + 32)%N else r;
  unicode_IsLetter r := ((65 <=? r) && (r <=? 90) || (97 <=? r) && (r <=? 122))%N;
  unicode_IsDigit r := ((48 <=? r) && (r <=? 57))%N;
  unicode_Fold r := if ((65 <=? r) && (r <=? 90))%N then (r + 32)%N else r;
|}.

#[export] Instance ascii_unicode_laws : GoUnicodeLaws ascii_unicode.
Proof.
  split; try (intros c Hc; byte_cases c; first [reflexivity | done]).
  assert (∀ c, unicode_Fold (GoUnicode := ascii_unicode) (byte_val c) = byte_val (lower_byte c)) as Hf.
  { intros c. by byte_cases c. }
  intros c d _ _. rewrite !Hf. split; [apply byte_val_inj|by intros ->].
Qed.

(** * strings *)
Definition HasPrefix (s p : bytes) : bool := prefixb p s.
Definition Contains (s sub : bytes) : bool := infixb sub s.

(** strings.Index *)
Fixpoint Index (s sub : bytes) : option nat :=
  if prefixb sub s then Some 0
  else match s with
       | [] => None
       | _ :: s' => S <$> Index s' sub
       end.

(** strings.ReplaceAll with a non-empty pattern: the leftmost occurrence is
    replaced and the search goes on behind it. *)
Definition literal (sub : bytes) (_ s : bytes) : option nat :=
  if prefixb sub s then Some (length sub) else None.
Definition ReplaceAll (s old new : bytes) : bytes :=
  rewrite_all (replacing (literal old) (λ _, new)) s.

(** strings.Split on a one-byte separator. *)
Fixpoint Split (s : bytes) (sep : ascii) : list bytes :=
  match s with
  | [] => [[]]
  | c :: s' =>
    if bool_decide (c = sep) then [] :: Split s' sep
    else match Split s' sep with
         | [] => [[c]]
         | w :: ws => (c :: w) :: ws
         end
  end.

(** strings.Join *)
Fixpoint Join (ws : list bytes) (sep : bytes) : bytes :=
  match ws with
  | [] => []
  | [w] => w
  | w :: ws' => w ++ sep ++ Join ws' sep
  end.

(** strings.Cut on a one-byte separator: the part before the first separator,
    the part behind it, and whether there was one. *)
Fixpoint Cut (s : bytes) (sep : ascii) : bytes * bytes * bool :=
  match s with
  | [] => ([], [], false)
  | c :: s' =>
    if bool_decide (c = sep) then ([], s', true)
    else let '(l, r, ok) := Cut s' sep in (c :: l, r, ok)
  end.

(** strings.IndexAny and strings.ContainsAny with an ASCII set. *)
Definition ContainsAny (s set : bytes) : bool := existsb (byte_in set) s.
Fixpoint take_until (set : bytes) (s : bytes) : bytes :=
  match s with
  | [] => []
  | c :: s' => if byte_in set c then [] else c :: take_until set s'
  end.

(** strings.TrimLeft, TrimRight and Trim with an ASCII set. *)
Fixpoint TrimLeft (s set : bytes) : bytes :=
  match s with
  | [] => []
  | c :: s' => if byte_in set c then TrimLeft s' set else s
  end.
Definition TrimRight (s set : bytes) : bytes := reverse (TrimLeft (reverse s) set).
Definition Trim (s set : bytes) : bytes := TrimRight (TrimLeft s set) set.
Definition TrimPrefix (s p : bytes) : bytes :=
  if prefixb p s then drop (length p) s else s.

(** strings.EqualFold *)
Definition EqualFold `{GoUnicode} (s t : bytes) : bool :=
  bool_decide ((unicode_Fold ∘ fst <$> runes s) = (unicode_Fold ∘ fst <$> runes t)).

(** unicode.IsSpace, and strings.TrimSpace through it. *)
Definition is_space_rune (r : N) : bool :=
  existsb (N.eqb r) [0x09; 0x0A; 0x0B; 0x0C; 0x0D; 0x20; 0x85; 0xA0; 0x1680;
                     0x2028; 0x2029; 0x202F; 0x205F; 0x3000]%N
  || ((0x2000 <=? r) && (r <=? 0x200A))%N.
Fixpoint trim_space_left (fuel : nat) (s : bytes) : bytes :=
  match fuel, s with
  | S fuel', _ :: _ =>
    if is_space_rune (rune_of s) then trim_space_left fuel' (drop (rune_width s) s) else s
  | _, _ => s
  end.
Fixpoint trim_space_right (before : bytes) (fuel : nat) : bytes :=
  match fuel, before with
  | S fuel', _ :: _ =>
    if is_space_rune (decode_last_rune before)
    then trim_space_right (drop (length (encode_rune (decode_last_rune before))) before) fuel'
    else before
  | _, _ => before
  end.
Definition TrimSpace (s : bytes) : bytes :=
  let l := trim_space_left (length s) s in
  reverse (trim_space_right (reverse l) (length l)).

(** strings.ToLower: ASCII letters by table, other runes by the Unicode one;
    an invalid byte becomes the replacement character, as strings.Map does. *)
Definition is_ascii (s : bytes) : bool := forallb (λ c, byte_val c <? 128)%N s.
Definition ToLower `{GoUnicode} (s : bytes) : bytes :=
  if is_ascii s then map lower_byte s
  else runes s ≫= λ '(r, _), encode_rune (unicode_ToLower r).

(** * Facts about the string functions *)
Lemma Split_nonempty s sep : Split s sep ≠ [].
Proof. destruct s as [|c s]; simpl; [done|]. repeat case_match; done. Qed.

Lemma Join_Split s sep : Join (Split s sep) [sep] = s.
Proof.
  induction s as [|c s IH]; [done|]. simpl.
  pose proof (Split_nonempty s sep) as Hne. case_bool_decide as Hc.
  - subst. destruct (Split s sep) as [|w ws]; [done|]. simpl in *. by f_equal.
  - destruct (Split s sep) as [|w ws]; [done|]. simpl in *.
    destruct ws; simpl in *; by rewrite IH.
Qed.

Lemma Split_app_sep w s sep : sep ∉ w → Split (w ++ sep :: s) sep = w :: Split s sep.
Proof.
  induction w as [|c w IH]; intros Hw; cbn [app Split]; [by rewrite bool_decide_true|].
  rewrite bool_decide_false by set_solver. rewrite IH by set_solver. done.
Qed.
Lemma Split_word w sep : sep ∉ w → Split w sep = [w].
Proof.
  induction w as [|c w IH]; intros Hw; [done|]. cbn [Split].
  rewrite bool_decide_false by set_solver. by rewrite IH by set_solver.
Qed.
Lemma Split_Join ws sep : ws ≠ [] → Forall (λ w, sep ∉ w) ws → Split (Join ws [sep]) sep = ws.
Proof.
  intros Hne Hws. induction Hws as [|w ws Hw Hws IH]; [done|]. destruct ws as [|w' ws].
  - by apply Split_word.
  - change (Join (w :: w' :: ws) [sep]) with (w ++ sep :: Join (w' :: ws) [sep]).
    by rewrite Split_app_sep, IH.
Qed.

Lemma Split_no_sep s sep w : w ∈ Split s sep → sep ∉ w.
Proof.
  revert w. induction s as [|c s IH]; simpl; intros w.
  - rewrite list_elem_of_singleton. intros ->. set_solver.
  - case_bool_decide as Hc.
    + rewrite elem_of_cons. intros [-> | ?]; [set_solver | auto].
    + destruct (Split s sep) as [|w0 ws] eqn:E.
      * by apply Split_nonempty in E.
      * rewrite elem_of_cons. intros [-> | Hw].
        -- specialize (IH w0). set_solver.
        -- apply IH. set_solver.
Qed.

Lemma Cut_spec s sep l r :
  Cut s sep = (l, r, true) → s = l ++ sep :: r ∧ sep ∉ l.
Proof.
  revert l r. induction s as [|c s IH]; simpl; intros l r H; [done|].
  case_bool_decide as Hc; simplify_eq; [set_solver|].
  destruct (Cut s sep) as [[l' r'] ok] eqn:E. simplify_eq.
  destruct (IH l' r eq_refl) as [-> ?]. set_solver.
Qed.

Lemma Cut_None s sep l r : Cut s sep = (l, r, false) → l = s ∧ sep ∉ s.
Proof.
  revert l r. induction s as [|c s IH]; simpl; intros l r H; [set_solver|].
  case_bool_decide as Hc; simplify_eq.
  destruct (Cut s sep) as [[l' r'] ok] eqn:E. simplify_eq.
  destruct (IH l' r eq_refl) as [-> ?]. set_solver.
Qed.

Lemma TrimPrefix_app p s : TrimPrefix (p ++ s) p = s.
Proof. unfold TrimPrefix. by rewrite prefixb_app, drop_app_length. Qed.
Lemma Cut_app l r sep : sep ∉ l → Cut (l ++ sep :: r) sep = (l, r, true).
Proof.
  induction l as [|c l IH]; intros Hl; simpl.
  - by rewrite bool_decide_true.
  - rewrite bool_decide_false by set_solver. rewrite IH by set_solver. done.
Qed.

Lemma take_until_spec set s :
  ∃ r, s = take_until set s ++ r ∧ (∀ c, c ∈ take_until set s → c ∉ set)
       ∧ match r with [] => True | c :: _ => c ∈ set end.
Proof.
  induction s as [|c s IH]; simpl.
  - exists []. set_solver.
  - destruct (byte_in set c) eqn:E.
    + exists (c :: s). apply byte_in_spec in E. set_solver.
    + apply byte_in_false in E. destruct IH as (r & Hs & Hin & Hr).
      exists r. split; [simpl; by rewrite <- Hs|]. set_solver.
Qed.

(** An ASCII byte of a string is one of the runes a loop over it visits. *)
Lemma utf8_width_high v : 1 < utf8_width v → (128 ≤ v)%N.
Proof. unfold utf8_width. repeat case_match; lia. Qed.

Lemma cont_high v c : is_cont (second_lo v) (second_hi v) c = true → (128 ≤ byte_val c)%N.
Proof. unfold is_cont, second_lo. repeat case_match; lia. Qed.

Lemma tail_high c : is_cont 128 191 c = true → (128 ≤ byte_val c)%N.
Proof. unfold is_cont. lia. Qed.

Lemma multibyte_high s c :
  1 < rune_width s → c ∈ take (rune_width s) s → (128 ≤ byte_val c)%N.
Proof.
  destruct s as [|c0 t]; [cbn; lia|]. unfold rune_width, decode_rune.
  pose proof (utf8_width_high (byte_val c0)) as Hw.
  destruct (utf8_width (byte_val c0)) as [|[|[|[|[|w]]]]];
    destruct t as [|c1 [|c2 [|c3 t]]]; cbn [fst snd]; try lia;
    match goal with |- context [if ?b then _ else _] => destruct b eqn:Hb | _ => idtac end;
    cbn [fst snd]; try lia; intros _; cbn [take]; split_and_hyps;
    rewrite ?elem_of_cons, elem_of_nil; intros Hin; destruct_or?; subst; try done;
    solve [apply Hw; lia | by eapply cont_high | by apply tail_high].
Qed.

Lemma decode_rune_low c s : (byte_val c < 128)%N → rune_of (c :: s) = byte_val c ∧ rune_width (c :: s) = 1.
Proof.
  intros Hc. unfold rune_of, rune_width, decode_rune, utf8_width.
  assert ((byte_val c <? 128)%N = true) as -> by lia. done.
Qed.

Lemma rune_step_hit before c s :
  step_hit rune_step before (c :: s)
  = Some (rune_width (c :: s), [(rune_of (c :: s), take (rune_width (c :: s)) (c :: s))]).
Proof.
  apply step_hit_some; [done|]. apply decode_rune_width. done.
Qed.

Lemma runes_ascii c s : c ∈ s → (byte_val c < 128)%N → (byte_val c, [c]) ∈ runes s.
Proof.
  intros Hin Hc. unfold runes. revert Hin.
  cut (∀ before s, c ∈ s → (byte_val c, [c]) ∈ scan_gen (λ _, []) rune_step before 0 s); [auto|].
  apply (scan_ind (λ _, []) rune_step (λ before s,
    c ∈ s → (byte_val c, [c]) ∈ scan_gen (λ _, []) rune_step before 0 s)).
  - intros b H. by apply not_elem_of_nil in H.
  - intros before d s' Hm. by rewrite rune_step_hit in Hm.
  - clear s. intros before s n out Hs Hn Hh IH Hin. rewrite (scan_gen_hit _ _ _ _ _ _ Hs Hh).
    destruct s as [|d s]; [done|]. rewrite rune_step_hit in Hh. simplify_eq.
    rewrite <- (take_drop (rune_width (d :: s)) (d :: s)) in Hin.
    apply elem_of_app in Hin as [Hin|Hin]; [|set_solver].
    destruct (decide (1 < rune_width (d :: s))) as [H1|H1].
    { apply multibyte_high in Hin; [lia|done]. }
    assert (rune_width (d :: s) = 1) as Hw by lia. rewrite Hw in Hin |- *.
    simpl in Hin. apply list_elem_of_singleton in Hin as <-.
    destruct (decode_rune_low c s Hc) as [-> _]. set_solver.
Qed.

Lemma encode_rune_low n : (n < 128)%N → encode_rune n = [byte_of n].
Proof.
  intros Hn. unfold encode_rune, valid_rune. assert ((n <? 55296)%N = true) as -> by lia.
  simpl. by assert ((n <? 128)%N = true) as -> by lia.
Qed.

(** An ASCII byte that is not a capital is still there in lower case. *)
Lemma ToLower_keeps `{U : GoUnicode, !GoUnicodeLaws U} c s :
  c ∈ s → (byte_val c < 128)%N → is_upper c = false → c ∈ ToLower s.
Proof.
  intros Hin Hc Hup. unfold ToLower. destruct (is_ascii s).
  - apply list_elem_of_In, in_map_iff. exists c. split; [|by apply list_elem_of_In].
    unfold lower_byte. by rewrite Hup.
  - apply list_elem_of_bind. exists (byte_val c, [c]). split; [|by apply runes_ascii].
    rewrite unicode_ToLower_ascii, Hup, encode_rune_low, byte_of_val by done. set_solver.
Qed.

(** A text that begins and ends with printable ASCII is its own trimming. *)
Definition ascii_visible (c : ascii) : bool := (0x21 <=? byte_val c)%N && (byte_val c <? 0x7f)%N.

Lemma visible_not_space c : ascii_visible c = true → is_space_rune (byte_val c) = false.
Proof. byte_cases c; done. Qed.

Lemma TrimSpace_visible c d s :
  ascii_visible c = true → ascii_visible d = true → last (c :: s) = Some d → TrimSpace (c :: s) = c :: s.
Proof.
  intros Hc Hd Hl.
  assert (Hlow : ∀ e, ascii_visible e = true → (byte_val e < 128)%N) by (unfold ascii_visible; lia).
  assert (trim_space_left (length (c :: s)) (c :: s) = c :: s) as E.
  { cbn [length trim_space_left]. destruct (decode_rune_low c s (Hlow _ Hc)) as [-> _].
    by rewrite visible_not_space. }
  unfold TrimSpace. cbv zeta. rewrite E.
  destruct (reverse (c :: s)) as [|e r] eqn:Hr.
  { apply (f_equal reverse) in Hr. by rewrite reverse_involutive in Hr. }
  assert (e = d) as ->.
  { apply (f_equal reverse) in Hr. rewrite reverse_involutive, reverse_cons in Hr.
    rewrite Hr, last_snoc in Hl. by simplify_eq. }
  cbn [length trim_space_right]. unfold decode_last_rune.
  assert ((byte_val d <? 0x80)%N = true) as -> by (specialize (Hlow _ Hd); lia).
  rewrite visible_not_space by done. rewrite <- Hr. by rewrite reverse_involutive.
Qed.

(** How a [for range] loop over a string starts. *)
Lemma runes_cons c s :
  runes (c :: s) = (rune_of (c :: s), take (rune_width (c :: s)) (c :: s)) :: runes (drop (rune_width (c :: s)) (c :: s)).
Proof.
  unfold runes. rewrite (scan_gen_hit _ rune_step [] (c :: s) _ _ ltac:(discriminate) (rune_step_hit [] c s)).
  cbn [app]. f_equal. by apply scan_blind.
Qed.

Lemma runes_cons_low c s : (byte_val c < 128)%N → runes (c :: s) = (byte_val c, [c]) :: runes s.
Proof. intros H. rewrite runes_cons. destruct (decode_rune_low c s H) as [-> ->]. done. Qed.

Lemma rune_of_high c s : (128 ≤ byte_val c)%N → (128 ≤ rune_of (c :: s))%N.
Proof.
  intros H. unfold rune_of, decode_rune, utf8_width, RuneError.
  assert ((byte_val c <? 128)%N = false) as -> by lia.
  repeat case_match; cbn; try lia; unfold is_cont, second_lo in *; split_and_hyps;
    repeat case_match; lia.
Qed.

Lemma runes_nil s : runes s = [] → s = [].
Proof. destruct s as [|c s]; [done|]. by rewrite runes_cons. Qed.
