(* ===== verification/GoCodec.v ===== *)
(** Go's encodings: the hexadecimal part of strconv, strconv.Quote,
    html.EscapeString, encoding/json's string encoder, net/url's escapes,
    encoding/base64 and textproto's header names, on byte strings, with their
    round trips. net/url's parser and html's entity table are not written out:
    they are the operations of [GoLib], with what the SDK relies on as laws. *)
From S2P Require Import Prelude Utf8 GoStrings.

(** * Hexadecimal *)
Definition unhex (c : ascii) : option N :=
  if is_digit c then Some (byte_val c - 48)%N
  else if in_range "a" "f" c then Some (byte_val c - 87)%N
  else if in_range "A" "F" c then Some (byte_val c - 55)%N
  else None.

(** strconv.ParseUint(s, 16, _) on a string short enough not to overflow: no
    sign, no prefix, no underscore. *)
Fixpoint parse_hex_from (acc : N) (s : bytes) : option N :=
  match s with
  | [] => Some acc
  | c :: s' => v ← unhex c; parse_hex_from (acc * 16 + v)%N s'
  end.
Definition ParseHex (s : bytes) : option N :=
  match s with [] => None | _ => parse_hex_from 0 s end.

Definition hex_digit (table : bytes) (n : N) : ascii := default zero (table !! N.to_nat (n mod 16)).
Definition lowerhex : bytes := #"0123456789abcdef".
Definition upperhex : bytes := #"0123456789ABCDEF".

(** The low [k] hexadecimal digits of [n]. *)
Fixpoint hex_digits (table : bytes) (k : nat) (n : N) : bytes :=
  match k with
  | O => []
  | S k' => hex_digits table k' (n / 16)%N ++ [hex_digit table n]
  end.

Definition hex_table (table : bytes) : Prop :=
  length table = 16 ∧ ∀ i, i < 16 → (c ← table !! i; unhex c) = Some (N.of_nat i).

Lemma hex_tables : hex_table lowerhex ∧ hex_table upperhex.
Proof.
  split; (split; [done|]); intros i Hi;
    do 16 (destruct i as [|i]; [done|]); lia.
Qed.

Lemma unhex_hex_digit table n : hex_table table → unhex (hex_digit table n) = Some (n mod 16)%N.
Proof.
  intros [Hlen Ht]. unfold hex_digit.
  assert (N.to_nat (n mod 16) < 16) as Hn by div_lia.
  specialize (Ht _ Hn). destruct (table !! N.to_nat (n mod 16)) as [c|]; [|done].
  simpl in *. rewrite Ht. f_equal. lia.
Qed.

Lemma parse_hex_from_app acc s t :
  parse_hex_from acc (s ++ t) = v ← parse_hex_from acc s; parse_hex_from v t.
Proof.
  revert acc. induction s as [|c s IH]; intros acc; [done|]. simpl.
  destruct (unhex c); simpl; [apply IH | done].
Qed.

Lemma parse_hex_digits table k n acc :
  hex_table table →
  parse_hex_from acc (hex_digits table k n) = Some (acc * 16 ^ N.of_nat k + n mod 16 ^ N.of_nat k)%N.
Proof.
  intros Ht. revert n acc. induction k as [|k IH]; intros n acc.
  { simpl. f_equal. rewrite N.mod_1_r. lia. }
  cbn [hex_digits]. rewrite parse_hex_from_app, IH. cbn [mbind option_bind parse_hex_from].
  rewrite unhex_hex_digit by done. cbn [mbind option_bind]. f_equal.
  rewrite Nnat.Nat2N.inj_succ, N.pow_succ_r'.
  rewrite (N.Div0.mod_mul_r n 16 (16 ^ N.of_nat k)). lia.
Qed.

Lemma length_hex_digits table k n : length (hex_digits table k n) = k.
Proof. revert n. induction k as [|k IH]; intros n; [done|]. simpl. rewrite length_app, IH. simpl. lia. Qed.

Lemma ParseHex_digits table k n :
  hex_table table → 0 < k → (n < 16 ^ N.of_nat k)%N → ParseHex (hex_digits table k n) = Some n.
Proof.
  intros Ht Hk Hn. unfold ParseHex.
  destruct (hex_digits table k n) as [|c l] eqn:E.
  { pose proof (length_hex_digits table k n) as Hl. rewrite E in Hl. simpl in Hl. lia. }
  rewrite <- E, parse_hex_digits by done. f_equal. rewrite N.mod_small by done. lia.
Qed.

(** * strconv.Quote, without the surrounding quotes *)
Class GoPrint := strconv_IsPrint : N → bool.

Definition simple_escape (c : ascii) : option ascii :=
  if bool_decide (c = byte_of 7) then Some "a"%char
  else if bool_decide (c = byte_of 8) then Some "b"%char
  else if bool_decide (c = byte_of 12) then Some "f"%char
  else if bool_decide (c = byte_of 10) then Some "n"%char
  else if bool_decide (c = byte_of 13) then Some "r"%char
  else if bool_decide (c = byte_of 9) then Some "t"%char
  else if bool_decide (c = byte_of 11) then Some "v"%char
  else None.

Definition quote_rune `{GoPrint} (s : bytes) : bytes :=
  let r := rune_of s in
  let w := take (rune_width s) s in
  if negb (rune_ok s) then #"\x" ++ hex_digits lowerhex 2 (byte_val (hd zero s))
  else if ((r =? 34) || (r =? 92))%N then "\"%char :: w
  else if strconv_IsPrint r then w
  else if (r <? 128)%N then
    match simple_escape (hd zero s) with
    | Some e => ["\"%char; e]
    | None => if ((r <? 32) || (r =? 127))%N then #"\x" ++ hex_digits lowerhex 2 r
              else #"\u" ++ hex_digits lowerhex 4 r
    end
  else if (r <? 0x10000)%N then #"\u" ++ hex_digits lowerhex 4 r
  else #"\U" ++ hex_digits lowerhex 8 r.
Definition QuoteBody `{GoPrint} (v : bytes) : bytes :=
  rewrite_all (λ _ s, Some (rune_width s, quote_rune s)) v.
(** %q *)
Definition quoted `{GoPrint} (s : bytes) : bytes := "034"%char :: QuoteBody s ++ ["034"%char].

(** * html.EscapeString *)
Definition html_escape_byte (c : ascii) : bytes :=
  match c with
  | "&"%char => #"&amp;"
  | "'"%char => #"&#39;"
  | "<"%char => #"&lt;"
  | ">"%char => #"&gt;"
  | "034"%char => #"&#34;"
  | _ => [c]
  end.
Definition html_EscapeString (v : bytes) : bytes := v ≫= html_escape_byte.

(** * encoding/json: the body of an encoded string (SetEscapeHTML is on) *)
Definition json_escape_byte (c : ascii) : bytes :=
  if bool_decide (c = "\"%char) || bool_decide (c = "034"%char) then ["\"%char; c]
  else if bool_decide (c = byte_of 8) then #"\b"
  else if bool_decide (c = byte_of 12) then #"\f"
  else if bool_decide (c = byte_of 10) then #"\n"
  else if bool_decide (c = byte_of 13) then #"\r"
  else if bool_decide (c = byte_of 9) then #"\t"
  else if (byte_val c <? 32)%N || byte_in #"<>&" c then #"\u00" ++ hex_digits lowerhex 2 (byte_val c)
  else [c].
Definition json_rune (s : bytes) : bytes :=
  let r := rune_of s in
  if negb (rune_ok s) then #"\ufffd"
  else if (r <? 128)%N then json_escape_byte (hd zero s)
  else if ((r =? 0x2028) || (r =? 0x2029))%N then #"\u202" ++ [hex_digit lowerhex r]
  else take (rune_width s) s.
Definition JSONBody (v : bytes) : bytes :=
  rewrite_all (λ _ s, Some (rune_width s, json_rune s)) v.

(** * net/url escapes *)

(** url.QueryUnescape and url.PathUnescape: a "%" must be followed by two
    hexadecimal digits; "+" is a space in a query only. *)
Fixpoint url_unescape (plus : bool) (s : bytes) : option bytes :=
  match s with
  | [] => Some []
  | c :: t =>
    if bool_decide (c = "%"%char) then
      match t with
      | a :: b :: t' => x ← unhex a; y ← unhex b; cons (byte_of (x * 16 + y)) <$> url_unescape plus t'
      | _ => None
      end
    else cons (if plus && bool_decide (c = "+"%char) then " "%char else c) <$> url_unescape plus t
  end.
Definition QueryUnescape : bytes → option bytes := url_unescape true.
Definition PathUnescape : bytes → option bytes := url_unescape false.

(** url.QueryEscape *)
Definition query_escape_byte (c : ascii) : bytes :=
  if is_alnum c || byte_in #"-_.~" c then [c]
  else if bool_decide (c = " "%char) then #"+"
  else "%"%char :: hex_digits upperhex 2 (byte_val c).
Definition QueryEscape (s : bytes) : bytes := s ≫= query_escape_byte.

Lemma url_unescape_percent plus n t :
  (n < 256)%N →
  url_unescape plus ("%"%char :: hex_digits upperhex 2 n ++ t) = cons (byte_of n) <$> url_unescape plus t.
Proof.
  intros Hn. cbn [hex_digits app]. cbn [url_unescape].
  rewrite bool_decide_true, !(unhex_hex_digit upperhex) by (done || apply hex_tables).
  cbn [mbind option_bind].
  by replace (n / 16 mod 16 * 16 + n mod 16)%N with n by div_lia.
Qed.

Lemma url_unescape_plain plus c t :
  c ≠ "%"%char → (plus = true → c ≠ "+"%char) →
  url_unescape plus (c :: t) = cons c <$> url_unescape plus t.
Proof.
  intros Hc Hp. cbn [url_unescape]. rewrite bool_decide_false by done.
  destruct plus; simpl; [rewrite bool_decide_false by auto|]; done.
Qed.

Lemma url_unescape_escape_byte c t :
  url_unescape true (query_escape_byte c ++ t) = cons c <$> url_unescape true t.
Proof.
  unfold query_escape_byte. destruct (is_alnum c || byte_in #"-_.~" c) eqn:E.
  - apply url_unescape_plain; [|intros _]; intros ->; by vm_compute in E.
  - case_bool_decide as Hsp; [by subst|].
    rewrite <- app_comm_cons, url_unescape_percent by apply byte_val_bound.
    by rewrite byte_of_val.
Qed.

Lemma QueryUnescape_QueryEscape s : QueryUnescape (QueryEscape s) = Some s.
Proof.
  unfold QueryUnescape, QueryEscape. induction s as [|c s IH]; [done|].
  rewrite bind_cons, url_unescape_escape_byte, IH. done.
Qed.

(** Unescaping never lengthens, and changes nothing when there is no escape. *)
Lemma url_unescape_id s : "%"%char ∉ s → url_unescape false s = Some s.
Proof.
  induction s as [|c s IH]; intros H; [done|].
  rewrite url_unescape_plain, IH; set_solver.
Qed.

(** * encoding/base64, StdEncoding *)
Definition b64_alphabet : bytes :=
  #"ABCDEFGHIJKLMNOPQRSTUVWXYZabcdefghijklmnopqrstuvwxyz0123456789+/".
Definition b64_char (n : N) : ascii := default zero (b64_alphabet !! N.to_nat n).
Definition b64_val (c : ascii) : option N :=
  if is_upper c then Some (byte_val c - 65)%N
  else if is_lower c then Some (byte_val c - 71)%N
  else if is_digit c then Some (byte_val c + 4)%N
  else if bool_decide (c = "+"%char) then Some 62%N
  else if bool_decide (c = "/"%char) then Some 63%N
  else None.

Fixpoint EncodeBase64 (s : bytes) : bytes :=
  match s with
  | [] => []
  | [a] => let x := byte_val a in
    [b64_char (x / 4); b64_char (x mod 4 * 16); "="%char; "="%char]%N
  | [a; b] => let x := byte_val a in let y := byte_val b in
    [b64_char (x / 4); b64_char (x mod 4 * 16 + y / 16); b64_char (y mod 16 * 4); "="%char]%N
  | a :: b :: c :: s' => let x := byte_val a in let y := byte_val b in let z := byte_val c in
    b64_char (x / 4)%N :: b64_char (x mod 4 * 16 + y / 16)%N
    :: b64_char (y mod 16 * 4 + z / 64)%N :: b64_char (z mod 64)%N :: EncodeBase64 s'
  end.

(** The decoder after it has skipped the carriage returns and line feeds it
    ignores wherever they stand. It is not strict: the bits a padded quantum
    leaves over are not looked at. *)
Fixpoint decode_quanta (s : bytes) : option bytes :=
  match s with
  | [] => Some []
  | a :: b :: c :: d :: s' =>
    x ← b64_val a; y ← b64_val b;
    if bool_decide (d = "="%char) then
      match s' with
      | [] =>
        if bool_decide (c = "="%char) then Some [byte_of (x * 4 + y / 16)]%N
        else z ← b64_val c; Some [byte_of (x * 4 + y / 16); byte_of (y mod 16 * 16 + z / 4)]%N
      | _ => None
      end
    else
      z ← b64_val c; w ← b64_val d; rest ← decode_quanta s';
      Some (byte_of (x * 4 + y / 16)%N :: byte_of (y mod 16 * 16 + z / 4)%N
            :: byte_of (z mod 4 * 64 + w)%N :: rest)
  | _ => None
  end.
Definition DecodeBase64 (s : bytes) : option bytes :=
  decode_quanta (filter (λ c, c ≠ "013"%char ∧ c ≠ "010"%char) s).

(** * net/textproto: CanonicalMIMEHeaderKey *)
Definition is_token_byte (c : ascii) : bool :=
  is_alnum c || byte_in #"!#$%&'*+-.^_`|~" c.
Definition upper_byte (c : ascii) : ascii := if is_lower c then byte_of (byte_val c - 32) else c.
Fixpoint canonical_from (upper : bool) (s : bytes) : bytes :=
  match s with
  | [] => []
  | c :: s' => (if upper then upper_byte c else lower_byte c) :: canonical_from (bool_decide (c = "-"%char)) s'
  end.
Definition CanonicalMIMEHeaderKey (s : bytes) : bytes :=
  if forallb is_token_byte s then canonical_from true s else s.

(** * net/url: the parsed URL *)
Record Userinfo := { user_name : bytes; user_password : bytes; password_set : bool }.
Record URL := {
  Scheme : bytes; Opaque : bytes; User : option Userinfo; Host : bytes;
  Path : bytes; RawPath : bytes; OmitHost : bool; ForceQuery : bool;
  RawQuery : bytes; Fragment : bytes; RawFragment : bytes;
}.

(** url.User *)
Definition url_User (name : bytes) : Userinfo :=
  {| user_name := name; user_password := []; password_set := false |}.

(** The parts of Go's library that are tables or parsers the development does
    not write out. *)
Class GoLib := {
  golib_unicode :: GoUnicode;
  golib_print :: GoPrint;
  html_UnescapeString : bytes → bytes;
  url_Parse : bytes → option URL;
  url_String : URL → bytes;
}.

(** What Go documents of them that the SDK relies on: a text without an
    ampersand holds no entity. *)
Class GoLibLaws (L : GoLib) := {
  golib_unicode_laws :: GoUnicodeLaws golib_unicode;
  html_Unescape_no_amp s : "&"%char ∉ s → html_UnescapeString s = s;
}.

(** * Facts about base64 *)
Definition b64_check (n : N) : bool :=
  let c := b64_char n in
  bool_decide (b64_val c = Some n)
  && negb (byte_in [ "="%char; "013"%char; "010"%char ] c).

Lemma b64_char_ok n : (n < 64)%N →
  b64_val (b64_char n) = Some n ∧ b64_char n ≠ "="%char
  ∧ b64_char n ≠ "013"%char ∧ b64_char n ≠ "010"%char.
Proof.
  intros Hn. assert (b64_check n = true) as H.
  { rewrite <- (N2Nat.id n). assert (N.to_nat n < 64) as Hn' by lia.
    revert Hn'. generalize (N.to_nat n). clear. intros n Hn.
    do 64 (destruct n as [|n]; [vm_compute; done|]). lia. }
  unfold b64_check in H. apply andb_true_iff in H as [H1 H2].
  apply bool_decide_eq_true in H1. apply negb_true_iff, byte_in_false in H2. set_solver.
Qed.

Lemma list_ind3 {A} (P : list A → Prop) :
  P [] → (∀ a, P [a]) → (∀ a b, P [a; b]) →
  (∀ a b c l, P l → P (a :: b :: c :: l)) → ∀ l, P l.
Proof.
  intros H0 H1 H2 H3. fix IH 1. intros [|a [|b [|c l]]]; [done|done|done|].
  apply H3, IH.
Qed.

Definition not_newline (c : ascii) : Prop := c ≠ "013"%char ∧ c ≠ "010"%char.

Lemma b64_char_not_newline n : (n < 64)%N → not_newline (b64_char n).
Proof. intros Hn. by destruct (b64_char_ok n Hn) as (_ & _ & ? & ?). Qed.

Lemma EncodeBase64_clean s : Forall not_newline (EncodeBase64 s).
Proof.
  induction s as [|a|a b|a b c s IH] using list_ind3; cbn [EncodeBase64];
    repeat constructor; try done; try (apply b64_char_not_newline; 
      pose proof (byte_val_bound a); try pose proof (byte_val_bound b);
      try pose proof (byte_val_bound c); div_lia).
Qed.

Lemma filter_all {A} (P : A → Prop) `{∀ x, Decision (P x)} l : Forall P l → filter P l = l.
Proof. induction 1 as [|x l Hx _ IH]; [done|]. by rewrite filter_cons_True, IH. Qed.

Ltac b64_chars :=
  repeat match goal with
  | |- context [b64_val (b64_char ?n)] =>
    let H := fresh in
    assert (n < 64)%N as H by div_lia;
    rewrite (proj1 (b64_char_ok n H)); clear H
  | |- context [bool_decide (b64_char ?n = "="%char)] =>
    let H := fresh in
    assert (n < 64)%N as H by div_lia;
    rewrite (bool_decide_false _ (proj1 (proj2 (b64_char_ok n H)))); clear H
  end; cbn [mbind option_bind].

Lemma byte_of_eq n c : n = byte_val c → byte_of n = c.
Proof. intros ->. apply byte_of_val. Qed.

Lemma decode_quanta_encode s : decode_quanta (EncodeBase64 s) = Some s.
Proof.
  induction s as [|a|a b|a b c s IH] using list_ind3; [done| | | ];
    cbn [EncodeBase64 decode_quanta];
    pose proof (byte_val_bound a); try pose proof (byte_val_bound b);
    try pose proof (byte_val_bound c).
  - rewrite !bool_decide_true by done. b64_chars.
    do 2 f_equal. apply byte_of_eq. div_lia.
  - rewrite bool_decide_true by done. b64_chars.
    repeat (f_equal; try (apply byte_of_eq; div_lia)).
  - b64_chars. rewrite IH. cbn [mbind option_bind].
    repeat (f_equal; try (apply byte_of_eq; div_lia)).
Qed.

Lemma DecodeBase64_Encode s : DecodeBase64 (EncodeBase64 s) = Some s.
Proof.
  unfold DecodeBase64. rewrite (filter_all _ _ (EncodeBase64_clean s)).
  apply decode_quanta_encode.
Qed.
