(* ===== verification/GoNum.v ===== *)
(** Go's machine integers and what the SDK uses of strconv and net on them:
    int64 and uint64 with their wrap-around, decimal printing, strconv.Atoi and
    net.SplitHostPort. *)
From S2P Require Import Prelude Utf8 GoStrings.

(** * Machine integers *)
Definition wrap64 (z : Z) : Z := (z + 2 ^ 63) `mod` 2 ^ 64 - 2 ^ 63.
Definition int64_max : Z := 2 ^ 63 - 1.
Definition is_int64 (z : Z) : bool := (- 2 ^ 63 <=? z)%Z && (z <? 2 ^ 63)%Z.

Lemma wrap64_id z : (- 2 ^ 63 ≤ z < 2 ^ 63)%Z → wrap64 z = z.
Proof. intros H. unfold wrap64. rewrite Z.mod_small; lia. Qed.

Lemma wrap64_range z : (- 2 ^ 63 ≤ wrap64 z < 2 ^ 63)%Z.
Proof. unfold wrap64. pose proof (Z.mod_pos_bound (z + 2 ^ 63) (2 ^ 64)). lia. Qed.

(** time.Time.Sub on nanoseconds: a Duration saturates at the bounds of an int64. *)
Definition int64_min : Z := - 2 ^ 63.
Definition Sub (t u : Z) : Z := Z.max int64_min (Z.min int64_max (t - u)).

Lemma Sub_mono t t' u : (t ≤ t')%Z → (Sub t u ≤ Sub t' u)%Z.
Proof. unfold Sub. lia. Qed.

(** Two integers that wrap to the same value. *)
Definition eq64 (x y : Z) : Prop := ∃ k, x = (y + k * 2 ^ 64)%Z.

#[export] Instance eq64_equiv : Equivalence eq64.
Proof.
  split.
  - intros x. exists 0%Z. lia.
  - intros x y [k ->]. exists (- k)%Z. lia.
  - intros x y z [k ->] [l ->]. exists (k + l)%Z. lia.
Qed.

#[export] Instance add_eq64 : Proper (eq64 ==> eq64 ==> eq64) Z.add.
Proof. intros x x' [k ->] y y' [l ->]. exists (k + l)%Z. lia. Qed.
#[export] Instance opp_eq64 : Proper (eq64 ==> eq64) Z.opp.
Proof. intros x x' [k ->]. exists (- k)%Z. lia. Qed.
#[export] Instance sub_eq64 : Proper (eq64 ==> eq64 ==> eq64) Z.sub.
Proof. intros x x' [k ->] y y' [l ->]. exists (k - l)%Z. lia. Qed.

Lemma wrap64_eq64 z : eq64 (wrap64 z) z.
Proof.
  unfold wrap64. exists (- ((z + 2 ^ 63) / 2 ^ 64))%Z.
  pose proof (Z.div_mod (z + 2 ^ 63) (2 ^ 64)). lia.
Qed.

#[export] Instance wrap64_proper : Proper (eq64 ==> (=)) wrap64.
Proof.
  intros x y [k ->]. unfold wrap64.
  replace (y + k * 2 ^ 64 + 2 ^ 63)%Z with (y + 2 ^ 63 + k * 2 ^ 64)%Z by lia.
  by rewrite Z_mod_plus_full.
Qed.

Lemma wrap64_idem z : wrap64 (wrap64 z) = wrap64 z.
Proof. apply wrap64_proper, wrap64_eq64. Qed.

Lemma eq64_wrap x y : eq64 x y ↔ wrap64 x = wrap64 y.
Proof.
  split; [by intros ->|]. intros H. rewrite <- (wrap64_eq64 x), H. apply wrap64_eq64.
Qed.

(** * Decimal printing: %d and strconv.Itoa *)
Definition digit_char (n : N) : ascii := byte_of (48 + n).
Fixpoint dec_digits (fuel : nat) (n : N) : bytes :=
  match fuel with
  | O => []
  | S fuel' =>
    if (n <? 10)%N then [digit_char n]
    else dec_digits fuel' (n / 10)%N ++ [digit_char (n mod 10)]
  end.
(** One digit for each binary digit is more than enough. *)
Definition dec (n : N) : bytes := dec_digits (S (N.size_nat n)) n.
Definition dec_Z (z : Z) : bytes :=
  if (z <? 0)%Z then "-"%char :: dec (Z.to_N (- z)) else dec (Z.to_N z).

(** * strconv.Atoi *)
Fixpoint parse_dec (acc : N) (s : bytes) : option N :=
  match s with
  | [] => Some acc
  | c :: s' => if is_digit c then parse_dec (acc * 10 + (byte_val c - 48)) s' else None
  end.
Definition Atoi (s : bytes) : option Z :=
  let '(neg, body) :=
    match s with
    | "-"%char :: t => (true, t)
    | "+"%char :: t => (false, t)
    | _ => (false, s)
    end in
  match body with
  | [] => None
  | _ => n ← parse_dec 0 body;
         let z := if neg then (- Z.of_N n)%Z else Z.of_N n in
         if is_int64 z then Some z else None
  end.

Lemma digit_char_val n : (n < 10)%N → is_digit (digit_char n) = true ∧ byte_val (digit_char n) = (48 + n)%N.
Proof.
  intros H. unfold digit_char.
  assert (byte_val (byte_of (48 + n)) = 48 + n)%N as E by (apply byte_val_of; lia).
  split; [|done]. unfold is_digit, in_range. rewrite E.
  change (byte_val "0") with 48%N. change (byte_val "9") with 57%N. lia.
Qed.

Lemma dec_digits_all fuel n : Forall (λ c, is_digit c = true) (dec_digits fuel n).
Proof.
  revert n. induction fuel as [|fuel IH]; intros n; [constructor|]. cbn [dec_digits].
  destruct (n <? 10)%N eqn:E.
  - repeat constructor. apply digit_char_val. lia.
  - apply Forall_app. split; [apply IH|]. repeat constructor. apply digit_char_val.
    div_lia.
Qed.

Lemma parse_dec_app acc s t :
  parse_dec acc (s ++ t) = n ← parse_dec acc s; parse_dec n t.
Proof.
  revert acc. induction s as [|c s IH]; intros acc; [done|]. cbn [app parse_dec].
  destruct (is_digit c); [apply IH|done].
Qed.

Lemma parse_dec_digits fuel n : (n < 2 ^ N.of_nat fuel)%N → parse_dec 0 (dec_digits (S fuel) n) = Some n.
Proof.
  revert n. induction fuel as [|fuel IH]; intros n Hn.
  { simpl in Hn. assert (n = 0%N) as -> by lia. done. }
  cbn [dec_digits]. destruct (n <? 10)%N eqn:E.
  { cbn [parse_dec]. destruct (digit_char_val n) as [-> ->]; [lia|]. f_equal. lia. }
  rewrite parse_dec_app. change (if (n / 10 <? 10)%N then [digit_char (n / 10)]
    else dec_digits fuel (n / 10 / 10) ++ [digit_char ((n / 10) mod 10)]) with (dec_digits (S fuel) (n / 10)).
  rewrite IH.
  - cbn [mbind option_bind parse_dec]. destruct (digit_char_val (n mod 10)) as [-> ->]; [div_lia|].
    f_equal. pose proof (N.div_mod n 10). lia.
  - rewrite Nnat.Nat2N.inj_succ, N.pow_succ_r' in Hn.
    apply N.Div0.div_lt_upper_bound. lia.
Qed.

Lemma size_nat_bound n : (n < 2 ^ N.of_nat (N.size_nat n))%N.
Proof.
  assert (N.of_nat (N.size_nat n) = N.size n) as ->.
  { destruct n as [|p]; [done|]. induction p as [p IH|p IH|]; simpl in *; [|lia..]; lia. }
  apply N.size_gt.
Qed.

Lemma parse_dec_dec n : parse_dec 0 (dec n) = Some n.
Proof. apply parse_dec_digits, size_nat_bound. Qed.

Lemma dec_inj n m : dec n = dec m → n = m.
Proof. intros E. pose proof (parse_dec_dec n) as H. rewrite E, parse_dec_dec in H. by simplify_eq. Qed.

Lemma dec_all n : Forall (λ c, is_digit c = true) (dec n).
Proof. apply dec_digits_all. Qed.

Lemma dec_digit n c : c ∈ dec n → is_digit c = true.
Proof. intros H. pose proof (dec_all n) as Hd. rewrite Forall_forall in Hd. by apply Hd. Qed.

Lemma dec_cons n : ∃ c s, dec n = c :: s ∧ is_digit c = true.
Proof.
  destruct (dec n) as [|c s] eqn:E.
  - pose proof (parse_dec_dec n) as H. rewrite E in H. cbn in H. injection H as <-.
    by vm_compute in E.
  - exists c, s. split; [done|]. apply (dec_digit n). rewrite E. set_solver.
Qed.

Lemma Atoi_dec n : (Z.of_N n < 2 ^ 63)%Z → Atoi (dec n) = Some (Z.of_N n).
Proof.
  intros Hn. unfold Atoi. destruct (dec_cons n) as (c & s & E & Hc).
  pose proof (parse_dec_dec n) as Hp. rewrite E in *.
  assert ((match c :: s with "-"%char :: t => (true, t) | "+"%char :: t => (false, t)
           | _ => (false, c :: s) end) = (false, c :: s)) as ->.
  { revert Hc. clear. byte_cases c; done. }
  rewrite Hp. cbn [mbind option_bind]. unfold is_int64.
  assert (((- 2 ^ 63 <=? Z.of_N n)%Z && (Z.of_N n <? 2 ^ 63)%Z) = true) as -> by lia. done.
Qed.

(** * strings.LastIndexByte, as the text around the last occurrence *)
Fixpoint CutLast (s : bytes) (sep : ascii) : option (bytes * bytes) :=
  match s with
  | [] => None
  | c :: s' =>
    match CutLast s' sep with
    | Some (l, r) => Some (c :: l, r)
    | None => if bool_decide (c = sep) then Some ([], s') else None
    end
  end.

Lemma CutLast_None s sep : CutLast s sep = None ↔ sep ∉ s.
Proof.
  induction s as [|c s IH]; cbn [CutLast]; [split; [set_solver|done]|].
  destruct (CutLast s sep) as [[l r]|].
  - split; [done|]. intros H. assert (sep ∉ s) as [=]%IH by set_solver.
  - case_bool_decide; [set_solver|]. destruct IH as [IH _]. specialize (IH eq_refl). set_solver.
Qed.

Lemma CutLast_spec s sep l r : CutLast s sep = Some (l, r) ↔ s = l ++ sep :: r ∧ sep ∉ r.
Proof.
  revert l r. induction s as [|c s IH]; intros l r; cbn [CutLast].
  { split; [done|]. intros [H _]. by destruct l. }
  destruct (CutLast s sep) as [[l' r']|] eqn:E.
  - destruct (proj1 (IH l' r') eq_refl) as [-> Hr']. split.
    + intros [= <- <-]. done.
    + intros [H Hr]. destruct l as [|d l]; simplify_eq/=; [set_solver|].
      destruct (IH l r) as [_ IH2]. assert (Some (l', r') = Some (l, r)) by auto. by simplify_eq.
  - split.
    + case_bool_decide; intros; simplify_eq. split; [done|]. by apply CutLast_None.
    + intros [H Hr]. destruct l as [|d l]; simplify_eq/=; [by rewrite bool_decide_true|].
      apply CutLast_None in E. set_solver.
Qed.

Definition Count (s : bytes) (c : ascii) : nat := count_byte c s.

(** * net.SplitHostPort *)
Definition SplitHostPort (hostport : bytes) : option (bytes * bytes) :=
  '(before, port) ← CutLast hostport ":";
  match hostport with
  | "["%char :: inner =>
    let '(host, after, closed) := Cut inner "]" in
    if negb closed then None
    (* the colon before the port stands right behind the bracket *)
    else if negb (bool_decide (after = ":"%char :: port)) then None
    else if byte_in host "[" || byte_in after "[" || byte_in after "]" then None
    else Some (host, port)
  | _ =>
    if byte_in before ":" || byte_in hostport "[" || byte_in hostport "]" then None
    else Some (before, port)
  end.
