(* ===== verification/SampleLib.v ===== *)
(** A concrete instance of the library interface, on which the model is
    evaluated: the ASCII tables, the entities html.EscapeString writes together
    with &commat;, and a parser for URLs of the shapes the SDK is configured
    with. It is not a model of net/url; the theorems hold for any instance. *)
From S2P Require Import Prelude Utf8 GoStrings GoCodec.

Definition sample_entities : list (bytes * bytes) :=
  [( #"&amp;", #"&"); ( #"&lt;", #"<"); ( #"&gt;", #">"); ( #"&#39;", #"'");
   ( #"&#34;", ["034"%char]); ( #"&commat;", #"@")].
Definition entity_step (_ s : bytes) : option (nat * bytes) :=
  '(e, v) ← head (filter (λ p, prefixb p.1 s = true) sample_entities); Some (length e, v).
Definition sample_html_unescape (s : bytes) : bytes :=
  if byte_in s "&" then rewrite_all entity_step s else s.

Definition sample_scheme_byte (c : ascii) : bool := is_alnum c || byte_in #"+.-" c.

Definition sample_user (s : bytes) : option Userinfo * bytes :=
  match Cut s "@" with
  | (info, host, true) =>
    let '(name, password, set) := Cut info ":" in
    (Some {| user_name := name; user_password := password; password_set := set |}, host)
  | _ => (None, s)
  end.

Definition sample_parse (raw : bytes) : option URL :=
  let '(rest, fragment, _) := Cut raw "#" in
  let '(rest, query, has_query) := Cut rest "?" in
  let '(scheme, rest', has_scheme) := Cut rest ":" in
  let '(scheme, rest) := if has_scheme then (scheme, rest') else ([], rest) in
  let hierarchical := prefixb #"//" rest in
  let authority := take_until #"/" (drop 2 rest) in
  let '(user, host) := if hierarchical then sample_user authority else (None, []) in
  let tail := if hierarchical then drop (2 + length authority) rest else rest in
  let opaque := negb hierarchical && has_scheme && negb (prefixb #"/" tail) in
  if has_scheme && negb (forallb sample_scheme_byte scheme && existsb is_alpha (take 1 scheme)) then None
  else Some {|
    Scheme := scheme; Opaque := if opaque then tail else []; User := user; Host := host;
    Path := if opaque then [] else tail; RawPath := []; OmitHost := false;
    ForceQuery := has_query && bool_decide (query = []);
    RawQuery := query; Fragment := fragment; RawFragment := [];
  |}.

Definition sample_string (u : URL) : bytes :=
  (if decide (Scheme u = []) then [] else Scheme u ++ #":")
  ++ (if decide (Opaque u = []) then
        (if decide (User u = None ∧ Host u = []) then [] else
           #"//" ++ match User u with
                    | None => []
                    | Some i => user_name i
                                ++ (if password_set i then #":" ++ user_password i else []) ++ #"@"
                    end ++ Host u) ++ Path u
      else Opaque u)
  ++ (if decide (RawQuery u = []) then (if ForceQuery u then #"?" else []) else #"?" ++ RawQuery u)
  ++ (if decide (Fragment u = []) then [] else #"#" ++ Fragment u).

#[export] Instance sample_lib : GoLib := {|
  golib_unicode := ascii_unicode;
  golib_print := λ r, ((32 <=? r) && (r <? 127) || (0xA0 <=? r))%N;
  html_UnescapeString := sample_html_unescape;
  url_Parse := sample_parse;
  url_String := sample_string;
|}.

#[export] Instance sample_laws : GoLibLaws sample_lib.
Proof.
  split; [exact ascii_unicode_laws|].
  intros s Hs. simpl. unfold sample_html_unescape.
  by rewrite (proj2 (byte_in_false s "&") Hs).
Qed.
