(* ===== verification/RedactDecode.v ===== *)
(** internal/redact, the readings of a text: the decoders that undo the
    escapings a value meets on its way into an error message, the bounded
    fixed point over them, and the renderings a secret is listed in. *)
From S2P Require Import Prelude Utf8 GoStrings GoCodec SampleLib.

(** * The decoders *)

(** jsonUnescaped: a backslash, a "u" and four hexadecimal digits. *)
Definition json_step (_ s : bytes) : option (nat * bytes) :=
  if (6 <=? length s) && prefixb #"\u" s
  then r ← ParseHex (take 4 (drop 2 s)); Some (6, encode_rune r)
  else None.
Definition jsonUnescaped (text : bytes) : bytes :=
  if Contains text #"\u" then rewrite_all json_step text else text.

Definition goSimpleEscapes (c : ascii) : option ascii :=
  if bool_decide (c = "a"%char) then Some (byte_of 7)
  else if bool_decide (c = "b"%char) then Some (byte_of 8)
  else if bool_decide (c = "f"%char) then Some (byte_of 12)
  else if bool_decide (c = "n"%char) then Some (byte_of 10)
  else if bool_decide (c = "r"%char) then Some (byte_of 13)
  else if bool_decide (c = "t"%char) then Some (byte_of 9)
  else if bool_decide (c = "v"%char) then Some (byte_of 11)
  else if byte_in ["\"%char; "034"%char; "'"%char] c then Some c
  else None.

(** The digits an escape letter asks for. *)
Definition escape_digits (c : ascii) : nat :=
  if bool_decide (c = "x"%char) then 2
  else if bool_decide (c = "u"%char) then 4
  else if bool_decide (c = "U"%char) then 8
  else 0.

(** goUnescaped: one escape sequence of strconv.Quote. *)
Definition go_step (_ s : bytes) : option (nat * bytes) :=
  match s with
  | b :: c :: t =>
    if bool_decide (b = "\"%char) then
      match goSimpleEscapes c with
      | Some e => Some (2, [e])
      | None =>
        let digits := escape_digits c in
        if (0 <? digits) && (digits <=? length t)
        then r ← ParseHex (take digits t);
             Some (2 + digits, if bool_decide (c = "x"%char) then [byte_of r] else encode_rune r)
        else None
      end
    else None
  | _ => None
  end.
Definition goUnescaped (text : bytes) : bytes :=
  if Contains text #"\" then rewrite_all go_step text else text.

(** percentUnescaped: a percent sign and two hexadecimal digits. *)
Definition percent_step (_ s : bytes) : option (nat * bytes) :=
  match s with
  | p :: a :: b :: _ =>
    if bool_decide (p = "%"%char) then v ← ParseHex [a; b]; Some (3, [byte_of v]) else None
  | _ => None
  end.
Definition percentUnescaped (text : bytes) : bytes :=
  if Contains text #"%" then rewrite_all percent_step text else text.

Definition decodeOnce `{GoLib} (text : bytes) : bytes :=
  percentUnescaped (goUnescaped (jsonUnescaped (html_UnescapeString text))).

Definition maxDecodePasses : nat := 8.

(** decodedViews: the readings after the text itself, and whether the last one
    is a fixed point. *)
Fixpoint decode_passes `{GoLib} (budget : nat) (seen : bytes) : list bytes * bool :=
  match budget with
  | O => ([], bool_decide (decodeOnce seen = seen))
  | S budget' =>
    let next := decodeOnce seen in
    if decide (next = seen) then ([], true)
    else let '(views, converged) := decode_passes budget' next in (next :: views, converged)
  end.
Definition decodedViews `{GoLib} (text : bytes) : list bytes * bool :=
  decode_passes maxDecodePasses text.

(** * The renderings *)
Definition GoEscaped `{GoPrint} (v : bytes) : bytes := QuoteBody v.
Definition JSONEscaped (v : bytes) : bytes := JSONBody v.
Definition HTMLEscaped (v : bytes) : bytes := html_EscapeString v.

Definition renderers `{GoPrint} : list (bytes → bytes) := [GoEscaped; JSONEscaped; HTMLEscaped].
Definition renderingDepth : nat := 2.

(** The body of Renderings' innermost loop: [form] joins the forms and the
    next frontier unless it is listed already. *)
Definition add_form (st : list bytes * list bytes) (form : bytes) : list bytes * list bytes :=
  let '(forms, next) := st in
  if decide (form ∈ forms) then st else (forms ++ [form], next ++ [form]).
Definition rendering_round `{GoPrint} (forms frontier : list bytes) : list bytes * list bytes :=
  foldl add_form (forms, []) (base ← frontier; render ← renderers; [render base]).
Fixpoint rendering_rounds `{GoPrint} (depth : nat) (forms frontier : list bytes) : list bytes :=
  match depth with
  | O => forms
  | S depth' =>
    let '(forms', next) := rendering_round forms frontier in
    match next with
    | [] => forms'
    | _ => rendering_rounds depth' forms' next
    end
  end.
Definition Renderings `{GoPrint} (v : bytes) : list bytes :=
  rendering_rounds renderingDepth [v] [v].

(** * Facts about the decoders *)

(** Each pass of [decodeOnce] that could be taken from [text]. *)
Abbreviation reading k := (Nat.iter k decodeOnce).

Lemma reading_fixed `{GoLib} k text : decodeOnce text = text → reading k text = text.
Proof. intros H'. induction k as [|k IH]; [done|]. simpl. by rewrite IH. Qed.

Lemma decode_passes_complete `{GoLib} budget text views :
  decode_passes budget text = (views, true) → ∀ k, reading k text ∈ text :: views.
Proof.
  revert text views. induction budget as [|n IH]; intros text views Hd k; simpl in Hd.
  - injection Hd as <- Hfix. apply bool_decide_eq_true in Hfix.
    rewrite reading_fixed by done. set_solver.
  - destruct (decide (decodeOnce text = text)) as [E|E]; simplify_eq.
    { rewrite reading_fixed by done. set_solver. }
    destruct (decode_passes n (decodeOnce text)) as [vs c] eqn:Hp. simplify_eq.
    destruct k as [|k]; [set_solver|].
    rewrite Nat.iter_succ_r. specialize (IH _ _ Hp k). set_solver.
Qed.

Lemma decode_passes_views `{GoLib} budget text v :
  v ∈ (decode_passes budget text).1 → ∃ k, 0 < k ∧ v = reading k text.
Proof.
  revert text. induction budget as [|n IH]; intros text Hv; simpl in Hv; [set_solver|].
  destruct (decide (decodeOnce text = text)) as [E|E]; [set_solver|].
  destruct (decode_passes n (decodeOnce text)) as [vs c] eqn:Hp. simpl in Hv.
  apply elem_of_cons in Hv as [-> | Hv]; [by exists 1; split; [lia|]|].
  specialize (IH (decodeOnce text)). rewrite Hp in IH.
  destruct (IH Hv) as (k & ? & ->). exists (S k). split; [lia|]. by rewrite Nat.iter_succ_r.
Qed.

Lemma decode_passes_length `{GoLib} budget text :
  length (decode_passes budget text).1 ≤ budget.
Proof.
  revert text. induction budget as [|n IH]; intros text; simpl; [lia|].
  destruct (decide _); simpl; [lia|].
  specialize (IH (decodeOnce text)).
  destruct (decode_passes n (decodeOnce text)). simpl in *. lia.
Qed.

(** The trigger tests only skip work: without a trigger nothing is rewritten. *)
Lemma jsonUnescaped_rewrite text : jsonUnescaped text = rewrite_all json_step text.
Proof.
  unfold jsonUnescaped. destruct (Contains text #"\u") eqn:E; [done|].
  symmetry. apply rewrite_all_none. intros b s' Hs'. unfold json_step.
  destruct (prefixb #"\u" s') eqn:P; [|by rewrite andb_false_r].
  apply prefixb_spec, prefix_infix in P. destruct Hs' as [l ->].
  apply (infix_app_l _ l) in P. apply infixb_spec in P. unfold Contains in E. congruence.
Qed.

Lemma elem_of_suffix_infix (c : ascii) text s' : c :: s' `suffix_of` text → Contains text [c] = true.
Proof.
  intros [l ->]. apply infixb_spec. exists l, s'. done.
Qed.

Lemma goUnescaped_rewrite text : goUnescaped text = rewrite_all go_step text.
Proof.
  unfold goUnescaped. destruct (Contains text #"\") eqn:E; [done|].
  symmetry. apply rewrite_all_none. intros b [|c s'] Hs'; [done|].
  unfold go_step. destruct s' as [|d t]; [done|]. case_bool_decide; [|done]. subst.
  apply elem_of_suffix_infix in Hs'. change #"\" with ["\"%char] in E. congruence.
Qed.

Lemma percentUnescaped_rewrite text : percentUnescaped text = rewrite_all percent_step text.
Proof.
  unfold percentUnescaped. destruct (Contains text #"%") eqn:E; [done|].
  symmetry. apply rewrite_all_none. intros b [|c s'] Hs'; [done|].
  unfold percent_step. destruct s' as [|d [|e t]]; [done|done|]. case_bool_decide; [|done]. subst.
  apply elem_of_suffix_infix in Hs'. change #"%" with ["%"%char] in E. congruence.
Qed.

(** A text with no backslash, percent sign or ampersand is its own reading. *)
Lemma decodeOnce_plain `{L : GoLib, !GoLibLaws L} text :
  "\"%char ∉ text → "%"%char ∉ text → "&"%char ∉ text → decodeOnce text = text.
Proof.
  intros Hb Hp Ha. unfold decodeOnce. rewrite html_Unescape_no_amp by done.
  unfold jsonUnescaped, goUnescaped, percentUnescaped.
  assert (Hno : ∀ p c, c ∈ p → c ∉ text → Contains text p = false).
  { intros p c Hcp Hct. destruct (Contains text p) eqn:E; [|done].
    apply infixb_spec in E. by destruct Hct; eapply infix_elem_of. }
  rewrite (Hno #"\u" "\"%char) by (done || by apply byte_in_spec).
  rewrite (Hno #"\" "\"%char) by (done || by apply byte_in_spec).
  by rewrite (Hno #"%" "%"%char) by (done || by apply byte_in_spec).
Qed.

Lemma decodedViews_plain `{L : GoLib, !GoLibLaws L} text :
  "\"%char ∉ text → "%"%char ∉ text → "&"%char ∉ text → decodedViews text = ([], true).
Proof.
  intros. unfold decodedViews, maxDecodePasses. simpl.
  rewrite decide_True; [done|]. by apply decodeOnce_plain.
Qed.

(** * goUnescaped undoes GoEscaped *)
Lemma go_step_copy b c s : c ≠ "\"%char → go_step b (c :: s) = None.
Proof. intros Hc. unfold go_step. destruct s; [done|]. by rewrite bool_decide_false. Qed.

Lemma go_step_digits b c k n t out :
  goSimpleEscapes c = None → escape_digits c = k → 0 < k → (n < 16 ^ N.of_nat k)%N →
  out = (if bool_decide (c = "x"%char) then [byte_of n] else encode_rune n) →
  go_step b (("\"%char :: c :: hex_digits lowerhex k n) ++ t)
  = Some (length ("\"%char :: c :: hex_digits lowerhex k n), out).
Proof.
  intros Hs Hk Hpos Hn ->. unfold go_step. cbn [app length].
  rewrite bool_decide_true by done. rewrite Hs, Hk. cbv zeta.
  rewrite length_app, length_hex_digits.
  assert ((0 <? k) && (k <=? k + length t) = true) as -> by lia.
  rewrite take_app_le by (rewrite length_hex_digits; lia).
  rewrite take_ge by (rewrite length_hex_digits; lia).
  by rewrite ParseHex_digits by (done || apply hex_tables).
Qed.

Lemma backslash_encode r : "\"%char ∈ encode_rune r → r = 92%N.
Proof.
  assert (He : ∀ n, (n < 256)%N → "\"%char = byte_of n → n = 92%N).
  { intros n Hn E. apply (f_equal byte_val) in E. rewrite byte_val_of in E by done. done. }
  unfold encode_rune, valid_rune, RuneError. repeat case_match; intros Hin;
    repeat (apply elem_of_cons in Hin as [Hin|Hin]; [apply He in Hin; [lia || div_lia|div_lia]|]);
    by apply not_elem_of_nil in Hin.
Qed.

Lemma decode_rune_ascii s :
  rune_ok s = true → (rune_of s < 128)%N → take (rune_width s) s = [byte_of (rune_of s)].
Proof.
  intros Hok Hr. rewrite <- encode_decode_rune by done.
  unfold encode_rune, valid_rune. assert ((rune_of s <? 55296)%N = true) as -> by lia.
  simpl. by assert ((rune_of s <? 128)%N = true) as -> by lia.
Qed.

Lemma take_singleton_hd (s : bytes) n c : take n s = [c] → hd zero s = c ∧ n = 1 ∨ s = [c] ∧ hd zero s = c.
Proof. destruct s as [|d [|e s]], n as [|[|n]]; simpl; intros; simplify_eq; auto. Qed.

Lemma rune_bound s : (rune_of s < 16 ^ 8)%N.
Proof.
  change (16 ^ 8)%N with 4294967296%N.
  destruct s as [|c0 t]; [done|]. unfold rune_of, decode_rune.
  pose proof (byte_val_bound c0) as B0.
  destruct (utf8_width (byte_val c0)) as [|[|[|[|[|w]]]]];
    destruct t as [|c1 [|c2 [|c3 t]]]; cbn [fst snd]; unfold RuneError;
    try pose proof (byte_val_bound c1); try pose proof (byte_val_bound c2);
    try pose proof (byte_val_bound c3); repeat case_match; cbn [fst snd]; lia.
Qed.

Lemma hd_take (s : bytes) n c l : take n s = c :: l → hd zero s = c.
Proof. destruct s, n; simpl; intros; by simplify_eq. Qed.

Lemma simple_escape_inv c e : simple_escape c = Some e → goSimpleEscapes e = Some c.
Proof. unfold simple_escape. repeat case_bool_decide; intros; simplify_eq; done. Qed.

(** Reading one quoted rune writes the bytes it stood for. *)
Lemma go_scan_quote_rune `{GoPrint} before s t :
  s ≠ [] →
  scan go_step before 0 (quote_rune s ++ t)
  = take (rune_width s) s ++ scan go_step (reverse (quote_rune s) ++ before) 0 t.
Proof.
  intros Hs. unfold quote_rune. cbv zeta.
  destruct (rune_ok s) eqn:Hok; cbn [negb].
  2:{ assert (take (rune_width s) s = [hd zero s]) as ->.
      { destruct s as [|c0 s]; [done|]. revert Hok. unfold rune_ok, rune_width, decode_rune.
        repeat case_match; simpl; done. }
      rewrite (scan_prefix _ _ _ [hd zero s]); [done|done|]. intros b.
      apply (go_step_digits b "x" 2); [done|done|lia|apply byte_val_bound|].
      by rewrite byte_of_val. }
  pose proof (decode_rune_ascii s Hok) as Hascii.
  pose proof (encode_decode_rune s Hok) as Henc.
  destruct ((rune_of s =? 34) || (rune_of s =? 92))%N eqn:E1.
  { rewrite Hascii by lia.
    apply (scan_prefix _ _ ["\"%char; byte_of (rune_of s)]); [done|]. intros b.
    assert (rune_of s = 34 ∨ rune_of s = 92)%N as [-> | ->] by lia; done. }
  destruct (strconv_IsPrint (rune_of s)).
  { apply scan_copy. intros b c s' Hc. apply go_step_copy. intros ->.
    rewrite <- Henc in Hc. apply backslash_encode in Hc. lia. }
  destruct (rune_of s <? 128)%N eqn:E2.
  { specialize (Hascii ltac:(lia)). rewrite Hascii.
    pose proof (hd_take _ _ _ _ Hascii) as Hhd. rewrite Hhd.
    destruct (simple_escape (byte_of (rune_of s))) as [e|] eqn:Hse.
    { apply (scan_prefix _ _ ["\"%char; e]); [done|]. intros b.
      apply simple_escape_inv in Hse. simpl. by rewrite Hse. }
    destruct ((rune_of s <? 32) || (rune_of s =? 127))%N.
    - apply (scan_prefix _ _ ("\"%char :: "x"%char :: _)); [done|]. intros b.
      apply (go_step_digits b "x" 2); [done|done|lia|simpl; lia|done].
    - apply (scan_prefix _ _ ("\"%char :: "u"%char :: _)); [done|]. intros b.
      apply (go_step_digits b "u" 4); [done|done|lia|simpl; lia|].
      simpl. by rewrite Henc, Hascii. }
  rewrite <- Henc. destruct (rune_of s <? 65536)%N eqn:E3.
  - apply (scan_prefix _ _ ("\"%char :: "u"%char :: _)); [done|]. intros b.
    apply (go_step_digits b "u" 4); [done|done|lia|simpl; lia|done].
  - apply (scan_prefix _ _ ("\"%char :: "U"%char :: _)); [done|]. intros b.
    apply (go_step_digits b "U" 8); [done|done|lia|apply rune_bound|done].
Qed.

Lemma go_step_blind b b' t : go_step b t = go_step b' t.
Proof. done. Qed.

Lemma scan_go_QuoteBody `{GoPrint} before before' s :
  scan go_step before' 0 (scan (λ _ s, Some (rune_width s, quote_rune s)) before 0 s) = s.
Proof.
  revert before s before'.
  apply (scan_ind copy_byte (λ _ s, Some (rune_width s, quote_rune s))
    (λ before s, ∀ before', scan go_step before' 0 _ = s)).
  - done.
  - intros before c s Hm. pose proof (decode_rune_width (c :: s) ltac:(done)).
    unfold step_hit in Hm. destruct (rune_width (c :: s)); [lia|done].
  - intros before s n out Hs Hn Hh IH before'.
    rewrite (scan_gen_hit _ _ _ _ _ _ Hs Hh).
    unfold step_hit in Hh. destruct (rune_width s) as [|w] eqn:Hw; simplify_eq.
    rewrite go_scan_quote_rune by done. rewrite IH, Hw. apply take_drop.
Qed.

Lemma goUnescaped_inverts `{GoPrint} v : goUnescaped (GoEscaped v) = v.
Proof. rewrite goUnescaped_rewrite. apply scan_go_QuoteBody. Qed.

(** * Facts about the renderings *)
Lemma add_forms_spec forms next new :
  let '(forms', next') := foldl add_form (forms, next) new in
  (∀ x, x ∈ forms' ↔ x ∈ forms ∨ x ∈ new) ∧ (∀ x, x ∈ next' → x ∈ next ∨ x ∈ forms')
  ∧ (∀ x, x ∈ next → x ∈ next') ∧ (∀ x, x ∈ forms' → x ∈ forms ∨ x ∈ next')
  ∧ (NoDup forms → NoDup forms').
Proof.
  revert forms next. induction new as [|form new IH]; intros forms next; simpl.
  { set_solver. }
  case_decide as Hin.
  - specialize (IH forms next). destruct (foldl _ _ _) as [forms' next'].
    destruct IH as (H1 & H2 & H3 & H4 & H5). split_and!; try done. set_solver.
  - specialize (IH (forms ++ [form]) (next ++ [form])).
    destruct (foldl _ _ _) as [forms' next']. destruct IH as (H1 & H2 & H3 & H4 & H5).
    split_and!.
    + set_solver.
    + intros x Hx. destruct (H2 x Hx) as [?|?]; [|by right].
      assert (x ∈ next ∨ x = form) as [? | ->] by set_solver; [by left|right].
      apply H1. set_solver.
    + set_solver.
    + intros x Hx. destruct (H4 x Hx) as [?|?]; [|by right].
      assert (x ∈ forms ∨ x = form) as [? | ->] by set_solver; [by left|right].
      apply H3. set_solver.
    + intros Hnd. apply H5, NoDup_app. split; [done|]. split; [set_solver|apply NoDup_singleton].
Qed.

(** Every form is waiting in the frontier or has all its renderings listed. *)
Definition rendering_inv `{GoPrint} (forms frontier : list bytes) : Prop :=
  ∀ x, x ∈ forms → x ∈ frontier ∨ ∀ render, render ∈ renderers → render x ∈ forms.

Lemma rendering_round_spec `{GoPrint} forms frontier :
  rendering_inv forms frontier →
  let '(forms', next) := rendering_round forms frontier in
  rendering_inv forms' next ∧ (∀ x, x ∈ forms → x ∈ forms')
  ∧ (∀ x render, x ∈ forms → render ∈ renderers → render x ∈ forms')
  ∧ (NoDup forms → NoDup forms').
Proof.
  intros Hinv. unfold rendering_round.
  pose proof (add_forms_spec forms [] (base ← frontier; render ← renderers; [render base])) as Hs.
  destruct (foldl _ _ _) as [forms' next]. destruct Hs as (H1 & H2 & H3 & H4 & H5).
  assert (Hclosed : ∀ x render, x ∈ forms → render ∈ renderers → render x ∈ forms').
  { intros x render Hx Hr. apply H1. destruct (Hinv x Hx) as [Hf|Hf]; [right|by left; apply Hf].
    apply list_elem_of_bind. exists x. split; [|done].
    apply list_elem_of_bind. exists render. set_solver. }
  split_and!; [|set_solver|done|done].
  intros x Hx. destruct (H4 x Hx) as [?|?]; [right|by left]. auto.
Qed.

(** The compositions of at most [depth] renderers, applied to [v]. *)
Fixpoint composed `{GoPrint} (depth : nat) (v x : bytes) : Prop :=
  x = v ∨ match depth with
          | O => False
          | S d => ∃ render y, render ∈ renderers ∧ composed d v y ∧ x = render y
          end.

(** The composition seen from its innermost renderer. *)
Lemma composed_inner `{GoPrint} n v x :
  composed (S n) v x → x = v ∨ ∃ render, render ∈ renderers ∧ composed n (render v) x.
Proof.
  revert x. induction n as [|n IH]; intros x [-> | (render & y & Hr & Hy & ->)]; [by left| |by left|].
  - destruct Hy as [-> | []]. right. exists render. split; [done|by left].
  - destruct (IH y Hy) as [-> | (r & ? & Hc)]; right.
    + exists render. split; [done|by left].
    + exists r. split; [done|]. right. eauto.
Qed.

Lemma closed_composed `{GoPrint} (forms : list bytes) n v x :
  (∀ y render, y ∈ forms → render ∈ renderers → render y ∈ forms) →
  v ∈ forms → composed n v x → x ∈ forms.
Proof.
  intros Hcl Hv. revert x. induction n as [|n IH]; intros x [-> | Hc]; [done|done|done|].
  destruct Hc as (render & y & Hr & Hy & ->). auto.
Qed.

Lemma rendering_rounds_spec `{GoPrint} depth forms frontier :
  rendering_inv forms frontier →
  (∀ x, x ∈ forms → x ∈ rendering_rounds depth forms frontier)
  ∧ (NoDup forms → NoDup (rendering_rounds depth forms frontier))
  ∧ ∀ v x, v ∈ forms → composed depth v x → x ∈ rendering_rounds depth forms frontier.
Proof.
  revert forms frontier. induction depth as [|d IH]; intros forms frontier Hinv; simpl.
  { split_and!; [done|done|]. intros v x Hv [-> | []]. done. }
  pose proof (rendering_round_spec forms frontier Hinv) as Hs.
  destruct (rendering_round forms frontier) as [forms' next].
  destruct Hs as (Hinv' & Hsub & Hr & Hnd). destruct next as [|n0 next].
  - split_and!; [done|auto|]. intros v x Hv Hc.
    apply (closed_composed forms' (S d) v); [|auto|done].
    intros y render Hy Hren. destruct (Hinv' y Hy); [set_solver|auto].
  - destruct (IH forms' (n0 :: next) Hinv') as (IH1 & IH2 & IH3).
    split_and!; [auto|auto|]. intros v x Hv Hc.
    destruct (composed_inner d v x Hc) as [-> | (render & Hren & Hc')]; eauto.
Qed.

Lemma Renderings_inv `{GoPrint} v : rendering_inv [v] [v].
Proof. intros x Hx. by left. Qed.

(** The lists Renderings returns, as one fact its clients use. *)
Lemma Renderings_spec `{GoPrint} v :
  NoDup (Renderings v) ∧ v ∈ Renderings v
  ∧ ∀ x, composed renderingDepth v x → x ∈ Renderings v.
Proof.
  unfold Renderings.
  destruct (rendering_rounds_spec renderingDepth [v] [v] (Renderings_inv v)) as (H1 & H2 & H3).
  split_and!; [apply H2, NoDup_singleton|apply H1; set_solver|intros x; apply H3; set_solver].
Qed.

Lemma Renderings_self `{GoPrint} v : v ∈ Renderings v.
Proof. apply (proj1 (proj2 (Renderings_spec v))). Qed.

(** * Properties *)

(** The bounded decoder. It takes at most [maxDecodePasses] readings, each
    of them a reading of the text, and when it reports that it converged its
    list holds every reading there is, however often the text is decoded. *)
Theorem decodedViews_complete `{L : GoLib} (text : bytes) (views : list bytes) (converged : bool)
    (Hviews : decodedViews text = (views, converged)) :
  length views ≤ maxDecodePasses
  ∧ (∀ v, v ∈ views → ∃ k, 0 < k ∧ v = Nat.iter k decodeOnce text)
  ∧ (converged = true → ∀ k, Nat.iter k decodeOnce text ∈ text :: views).
Proof.
  unfold decodedViews in Hviews. split_and!.
  - pose proof (decode_passes_length maxDecodePasses text) as Hl. by rewrite Hviews in Hl.
  - intros v Hv. apply (decode_passes_views maxDecodePasses). by rewrite Hviews.
  - intros ->. by apply decode_passes_complete with maxDecodePasses.
Qed.

Lemma decodedViews_complete_witness :
  decodedViews #"a%2540b" = ([ #"a%40b"; #"a@b"], true)
  ∧ (Nat.iter 5 decodeOnce #"a%2540b" ∈ [ #"a%2540b"; #"a%40b"; #"a@b"]).
Proof.
  assert (H : decodedViews #"a%2540b" = ([ #"a%40b"; #"a@b"], true)) by (by vm_compute).
  split; [exact H|]. by apply (decodedViews_complete _ _ _ H).
Defined.

(** Reading a Go-quoted string gives back the string that was quoted,
    whatever its bytes are: invalid UTF-8, control characters and quotes
    included. *)
Theorem goUnescaped_GoEscaped `{GoPrint} (v : bytes) : goUnescaped (GoEscaped v) = v.
Proof. apply goUnescaped_inverts. Qed.

(** Renderings lists the value itself and every composition of at most
    [renderingDepth] of the three renderers, each once. *)
Theorem Renderings_complete `{GoPrint} (v : bytes) :
  NoDup (Renderings v) ∧ v ∈ Renderings v
  ∧ (∀ r, r ∈ [GoEscaped; JSONEscaped; HTMLEscaped] → r v ∈ Renderings v)
  ∧ ∀ r r', r ∈ [GoEscaped; JSONEscaped; HTMLEscaped] → r' ∈ [GoEscaped; JSONEscaped; HTMLEscaped] →
      r' (r v) ∈ Renderings v.
Proof.
  destruct (Renderings_spec v) as (H1 & H2 & H3). split_and!; [done|done| | ].
  - intros r Hr. apply H3. right. exists r, v. split_and!; [done|by left|done].
  - intros r r' Hr Hr'. apply H3. right. exists r', (r v). split_and!; [done| |done].
    right. exists r, v. split_and!; [done|by left|done].
Qed.
