(* ===== verification/RedactText.v ===== *)
(** internal/redact, the closed rules on text and URLs: InText, the credential
    query rules, redactQuery, URLAttribute and URL. *)
From S2P Require Import Prelude Utf8 GoStrings GoCodec SampleLib RedactDecode.

Definition placeholder : bytes := #"redacted".
Definition redactedWhole : bytes := #"[endpoint redacted]".
Definition opaquePlaceholder : bytes := #"[redacted]".

(** The class \s of Go's regexp package. *)
Definition re_space : bytes := ["009"; "010"; "012"; "013"; " "]%char.
Definition quotes : bytes := ["034"; "'"]%char.

Fixpoint take_while (p : ascii → bool) (s : bytes) : bytes :=
  match s with
  | c :: s' => if p c then c :: take_while p s' else []
  | [] => []
  end.

(** * Userinfo in text *)
Definition scheme_byte (c : ascii) : bool := is_alnum c || byte_in #"+.-" c.
Definition userinfo_stop : bytes := #"/@?#" ++ re_space ++ quotes.

(** urlUserinfo at the start of a text: the length of its first group, the
    scheme and "://", and of the whole match. Neither run of the pattern can
    hold the character that has to follow it, so the match is unique. *)
Definition urlUserinfo_at (s : bytes) : option (nat * nat) :=
  match s with
  | c :: t =>
    if is_alpha c then
      let run := take_while scheme_byte t in
      let after := drop (length run) t in
      if prefixb #"://" after then
        let group := 4 + length run in
        let user := take_until userinfo_stop (drop 3 after) in
        if (0 <? length user) && prefixb #"@" (drop (length user) (drop 3 after))
        then Some (group, group + length user + 1) else None
      else None
    else None
  | [] => None
  end.
Definition urlUserinfo (_ s : bytes) : option nat := snd <$> urlUserinfo_at s.

(** The substitution of InText's last line: "${1}redacted@". *)
Definition userinfo_step (_ s : bytes) : option (nat * bytes) :=
  '(group, n) ← urlUserinfo_at s; Some (n, take group s ++ placeholder ++ #"@").
Definition replaceUserinfo (text : bytes) : bytes := rewrite_all userinfo_step text.

(** * Credential query parameters *)
Definition credentialQueryKeys : list bytes :=
  [ #"awsaccesskeyid"; #"signature"; #"sig"; #"x-goog-signature"].
Definition key_stop : bytes := #"&=?#" ++ re_space ++ quotes.
Definition value_stop : bytes := #"&#" ++ quotes ++ [" "; "009"; "013"; "010"]%char.

(** queryParam: "?" or "&", the key, "=". *)
Definition query_key (s : bytes) : bytes := take_until key_stop (tail s).
Definition queryParam (_ s : bytes) : option nat :=
  match s with
  | q :: t =>
    if byte_in #"?&" q && prefixb #"=" (drop (length (query_key s)) t)
    then Some (2 + length (query_key s)) else None
  | [] => None
  end.

Definition isCredentialQueryKey `{GoUnicode} (rawKey : bytes) : bool :=
  let decoded := default rawKey (QueryUnescape rawKey) in
  bool_decide (ToLower decoded ∈ credentialQueryKeys).

Definition hasCredentialQuery `{GoUnicode} (text : bytes) : bool :=
  existsb (λ '(at_, _), isCredentialQueryKey (query_key at_)) (find_all queryParam text).

Definition escapedOpaquePlaceholder : bytes := QueryEscape opaquePlaceholder.

(** A value this package wrote itself. *)
Definition accounted_value (value : bytes) : bool :=
  bool_decide (value = escapedOpaquePlaceholder) || bool_decide (value = opaquePlaceholder).

Definition unaccountedCredentialQuery `{GoUnicode} (text : bytes) : bool :=
  existsb (λ '(at_, n), isCredentialQueryKey (query_key at_)
                        && negb (accounted_value (take_until value_stop (drop n at_))))
          (find_all queryParam text).

Definition redact_pair `{GoUnicode} (pair : bytes) : bytes * bool :=
  let '(key, _, hasValue) := Cut pair "=" in
  if negb hasValue || negb (isCredentialQueryKey key) then (pair, false)
  else (key ++ #"=" ++ QueryEscape opaquePlaceholder, true).
Definition redactQuery `{GoUnicode} (rawQuery : bytes) : bytes * bool :=
  let pairs := map redact_pair (Split rawQuery "&") in
  (Join (map fst pairs) #"&", existsb snd pairs).

(** * URLs *)
Fixpoint opaque_passes (budget : nat) (seen : bytes) : bool :=
  match budget with
  | O => true
  | S budget' =>
    match PathUnescape seen with
    | None => true
    | Some decoded =>
      if decide (decoded = seen) then false
      else if ContainsAny decoded #":@" then true
      else opaque_passes budget' decoded
    end
  end.
Definition opaqueMayHoldCredentials (opaque : bytes) : bool :=
  if decide (opaque = []) then false
  else if ContainsAny opaque #":@" then true
  else opaque_passes maxDecodePasses opaque.

(** The copy URLAttribute renders. *)
Definition redact_url `{GoUnicode} (u : URL) : URL := {|
  Scheme := Scheme u; Opaque := Opaque u;
  User := match User u with Some _ => Some (url_User placeholder) | None => None end;
  Host := Host u; Path := Path u; RawPath := RawPath u;
  OmitHost := OmitHost u; ForceQuery := ForceQuery u;
  RawQuery := (let query := RawQuery u in
               if decide (query = []) then query
               else let '(scrubbed, changed) := redactQuery query in
                    if changed then scrubbed else query);
  Fragment := Fragment u; RawFragment := RawFragment u;
|}.
Definition URLAttribute `{GoLib} (u : option URL) : bytes :=
  match u with
  | None => []
  | Some u =>
    if opaqueMayHoldCredentials (Opaque u) || Contains (Host u) #"@" then redactedWhole
    else url_String (redact_url u)
  end.
Definition RedactURL `{GoLib} (raw : bytes) : bytes :=
  if decide (raw = []) then raw
  else match url_Parse raw with
       | None => redactedWhole
       | Some u =>
         if bool_decide (User u = None) && bool_decide (Opaque u = []) && negb (hasCredentialQuery raw)
         then raw else URLAttribute (Some u)
       end.

(** * InText *)
Definition substitute_endpoint `{GoLib} (text endpoint : bytes) : bytes :=
  if bool_decide (endpoint = []) || negb (Contains text endpoint) then text
  else ReplaceAll text endpoint (RedactURL endpoint).

(** The decision on a text whose known endpoints are substituted. *)
Definition view_hides `{GoLib} (text decoded : bytes) : bool :=
  if decide (decoded = text) then false
  else negb (count_byte "@" decoded =? count_byte "@" text) || unaccountedCredentialQuery decoded.
Definition unaccounted_text `{GoLib} (text : bytes) : bool :=
  negb (count_byte "@" text =? length (find_all urlUserinfo text))
  || unaccountedCredentialQuery text
  || (let '(views, converged) := decodedViews text in
      negb converged || existsb (view_hides text) views).
Definition InText `{GoLib} (text : bytes) (knownEndpoints : list bytes) : bytes :=
  let text := foldl substitute_endpoint text knownEndpoints in
  if unaccounted_text text then redactedWhole else replaceUserinfo text.

(** * The userinfo pattern *)
Lemma take_while_forall p s : Forall (λ c, p c = true) (take_while p s).
Proof. induction s as [|c s IH]; simpl; [done|]. destruct (p c) eqn:E; by constructor. Qed.

Lemma take_while_prefix p s : take_while p s `prefix_of` s.
Proof.
  induction s as [|c s IH]; simpl; [done|]. destruct (p c); [by apply prefix_cons|apply prefix_nil].
Qed.

Lemma take_until_prefix set s : take_until set s `prefix_of` s.
Proof. destruct (take_until_spec set s) as (r & Hs & _). exists r. exact Hs. Qed.

Lemma take_until_not_in set s c : c ∈ take_until set s → c ∉ set.
Proof. destruct (take_until_spec set s) as (r & _ & H & _). apply H. Qed.

Lemma prefix_drop (p s : bytes) : p `prefix_of` s → s = p ++ drop (length p) s.
Proof. intros H. exact (proj2 (prefix_take_drop p s H)). Qed.

(** What a match of the pattern is made of. *)
Record userinfo_match (s scheme user rest : bytes) : Prop := {
  um_text : s = scheme ++ #"://" ++ user ++ #"@" ++ rest;
  um_alpha : ∃ c t, scheme = c :: t ∧ is_alpha c = true;
  um_scheme : Forall (λ c, scheme_byte c = true) scheme;
  um_user : user ≠ [] ∧ ∀ c, c ∈ user → c ∉ userinfo_stop;
  um_at : urlUserinfo_at s = Some (length scheme + 3, length scheme + 3 + length user + 1);
}.

Lemma alpha_scheme c : is_alpha c = true → scheme_byte c = true.
Proof. unfold scheme_byte, is_alnum. by intros ->. Qed.

Lemma urlUserinfo_at_match s r :
  urlUserinfo_at s = Some r → ∃ scheme user rest, userinfo_match s scheme user rest.
Proof.
  intros Hat. pose proof Hat as Hat'. destruct s as [|c t]; [done|].
  unfold urlUserinfo_at in Hat. cbv zeta in Hat.
  destruct (is_alpha c) eqn:Hc; [|done].
  set (run := take_while scheme_byte t) in *.
  assert (t = run ++ drop (length run) t) as Ht by (apply prefix_drop, take_while_prefix).
  destruct (prefixb #"://" _) eqn:Hsep; [|done]. apply prefixb_spec, prefix_drop in Hsep.
  change (length #"://") with 3 in Hsep.
  set (after := drop 3 (drop (length run) t)) in *.
  set (user := take_until userinfo_stop after) in *.
  assert (after = user ++ drop (length user) after) as Hafter by (apply prefix_drop, take_until_prefix).
  destruct (_ && _) eqn:Hu; [|done]. apply andb_true_iff in Hu as [Hu Hend].
  apply prefixb_spec, prefix_drop in Hend.
  exists (c :: run), user, (drop 1 (drop (length user) after)). split.
  - rewrite Ht at 1. rewrite Hsep, Hafter at 1. rewrite Hend at 1. done.
  - eauto.
  - constructor; [by apply alpha_scheme|apply take_while_forall].
  - split; [by intros E; rewrite E in Hu|]. intros c' Hc'. by apply take_until_not_in in Hc'.
  - rewrite Hat', <- Hat. simpl. do 2 f_equal; lia.
Qed.

Lemma userinfo_match_take s scheme user rest :
  userinfo_match s scheme user rest →
  take (length scheme + 3) s = scheme ++ #"://"
  ∧ drop (length scheme + 3 + length user + 1) s = rest.
Proof.
  intros [Hs _ _ _ _]. subst s. rewrite !(assoc_L (++)). split.
  - rewrite <- !(assoc_L (++)), (assoc_L (++) scheme).
    apply take_app_length'. by rewrite length_app.
  - apply drop_app_length'. by rewrite !length_app.
Qed.

(** Induction over a text along the matches of the pattern. *)
Lemma userinfo_ind (P : bytes → Prop) :
  P [] → (∀ c s, urlUserinfo_at (c :: s) = None → P s → P (c :: s)) →
  (∀ s scheme user rest, userinfo_match s scheme user rest → P rest → P s) → ∀ s, P s.
Proof.
  intros Hnil Hmiss Hhit s. remember (length s) as len eqn:Hlen.
  revert s Hlen. induction (lt_wf len) as [len _ IH]. intros s ->.
  destruct s as [|c s]; [done|]. destruct (urlUserinfo_at (c :: s)) as [r|] eqn:E.
  - apply urlUserinfo_at_match in E as (scheme & user & rest & Hm).
    eapply Hhit; [exact Hm|]. eapply IH; [|done].
    rewrite (um_text _ _ _ _ Hm), !length_app. simpl. lia.
  - apply Hmiss; [done|]. eapply IH; [|done]. simpl. lia.
Qed.

Definition userinfo_hits (s : bytes) : nat := length (find_all urlUserinfo s).

Lemma replace_miss c s :
  urlUserinfo_at (c :: s) = None → replaceUserinfo (c :: s) = c :: replaceUserinfo s.
Proof.
  intros H. unfold replaceUserinfo, rewrite_all.
  rewrite scan_gen_miss by (unfold step_hit, userinfo_step; by rewrite H).
  simpl. f_equal. by apply scan_blind.
Qed.

Lemma hits_miss c s : urlUserinfo_at (c :: s) = None → userinfo_hits (c :: s) = userinfo_hits s.
Proof.
  intros H. unfold userinfo_hits, find_all.
  rewrite scan_gen_miss by (unfold step_hit, report, urlUserinfo; by rewrite H).
  simpl. f_equal. by apply scan_blind.
Qed.

Lemma replace_hit s scheme user rest :
  userinfo_match s scheme user rest →
  replaceUserinfo s = scheme ++ #"://" ++ placeholder ++ #"@" ++ replaceUserinfo rest.
Proof.
  intros Hm. destruct (userinfo_match_take _ _ _ _ Hm) as [Ht Hd].
  unfold replaceUserinfo, rewrite_all. rewrite (scan_gen_hit _ _ _ _ (length scheme + 3 + length user + 1)
    (take (length scheme + 3) s ++ placeholder ++ #"@")).
  - rewrite Hd, Ht, <- !(assoc_L (++)). do 4 f_equal. by apply scan_blind.
  - intros ->. by pose proof (um_at _ _ _ _ Hm).
  - apply step_hit_some; [|]. { unfold userinfo_step. by rewrite (um_at _ _ _ _ Hm). } lia.
Qed.

Lemma hits_hit s scheme user rest :
  userinfo_match s scheme user rest → userinfo_hits s = S (userinfo_hits rest).
Proof.
  intros Hm. destruct (userinfo_match_take _ _ _ _ Hm) as [Ht Hd].
  unfold userinfo_hits, find_all. rewrite (scan_gen_hit _ _ _ _ (length scheme + 3 + length user + 1)
    [(s, length scheme + 3 + length user + 1)]).
  - rewrite Hd. simpl. do 2 f_equal. by apply scan_blind.
  - intros ->. by pose proof (um_at _ _ _ _ Hm).
  - apply report_hit; [|]. { unfold urlUserinfo. by rewrite (um_at _ _ _ _ Hm). } lia.
Qed.

Lemma userinfo_match_count s scheme user rest :
  userinfo_match s scheme user rest → count_byte "@" s = S (count_byte "@" rest).
Proof.
  intros [-> _ Hs [_ Hu] _]. rewrite !count_byte_app.
  assert (count_byte "@" scheme = 0) as ->.
  { apply count_byte_zero. intros Hin. rewrite Forall_forall in Hs. by apply Hs in Hin. }
  assert (count_byte "@" user = 0) as ->.
  { apply count_byte_zero. intros Hin. apply Hu in Hin. apply Hin. by apply byte_in_spec. }
  done.
Qed.

Lemma hits_le_count s : userinfo_hits s ≤ count_byte "@" s.
Proof.
  induction s as [|c s Hat IH|s scheme user rest Hm IH] using userinfo_ind; [done| |].
  - rewrite hits_miss, count_byte_cons by done. lia.
  - rewrite (hits_hit _ _ _ _ Hm), (userinfo_match_count _ _ _ _ Hm). lia.
Qed.

(** Every at-sign of a text stands behind a redacted userinfo. *)
Definition only_redacted_userinfo (t : bytes) : Prop :=
  ∀ l r, t = l ++ "@"%char :: r → #"://redacted" `suffix_of` l.

Lemma replace_masked s :
  count_byte "@" s = userinfo_hits s → only_redacted_userinfo (replaceUserinfo s).
Proof.
  induction s as [|c s Hat IH|s scheme user rest Hm IH] using userinfo_ind; intros Hc l r E.
  - by destruct l.
  - rewrite hits_miss, count_byte_cons in Hc by done. pose proof (hits_le_count s).
    case_decide as Hca; [lia|]. rewrite replace_miss in E by done.
    destruct l as [|d l]; simplify_eq/=. apply suffix_cons_r, (IH Hc l r). done.
  - rewrite (hits_hit _ _ _ _ Hm), (userinfo_match_count _ _ _ _ Hm) in Hc.
    rewrite (replace_hit _ _ _ _ Hm) in E. change (#"://" ++ placeholder ++ #"@" ++ replaceUserinfo rest)
      with (#"://redacted" ++ "@"%char :: replaceUserinfo rest) in E.
    rewrite (assoc_L (++)) in E.
    assert ("@"%char ∉ scheme ++ #"://redacted") as Hno.
    { pose proof (um_scheme _ _ _ _ Hm) as Hs. rewrite elem_of_app. intros [Hin|Hin].
      - rewrite Forall_forall in Hs. by apply Hs in Hin.
      - by apply byte_in_spec in Hin. }
    apply app_eq_inv in E as [(k & Hk & E) | (k & -> & E)].
    + destruct k as [|d k]; simplify_eq/=; [rewrite app_nil_r in Hk; rewrite <- Hk; by exists scheme|].
      rewrite Hk in Hno. set_solver.
    + destruct k as [|d k]; simplify_eq/=; [rewrite app_nil_r; by exists scheme|].
      change ("@"%char :: k) with (["@"%char] ++ k). rewrite (assoc_L (++)).
      apply suffix_app_r. apply (IH ltac:(lia) k r). done.
Qed.

(** * The credential query rule *)
Definition ok_key (key : bytes) : Prop := ∀ c, c ∈ key → c ∉ key_stop.

(** A query parameter: its opening byte, its key and what follows the "=". *)
Inductive param_at (s : bytes) (key rest : bytes) : Prop :=
  | Param q : s = q :: key ++ "="%char :: rest → q ∈ #"?&" → ok_key key → param_at s key rest.

Lemma take_until_app set p s :
  (∀ c, c ∈ p → c ∉ set) → take_until set (p ++ s) = p ++ take_until set s.
Proof.
  induction p as [|c p IH]; intros Hp; [done|]. simpl.
  rewrite (proj2 (byte_in_false set c)) by (apply Hp; set_solver). f_equal. apply IH. set_solver.
Qed.

Lemma take_until_stop set p d s :
  (∀ c, c ∈ p → c ∉ set) → d ∈ set → take_until set (p ++ d :: s) = p.
Proof.
  intros Hp Hd. rewrite take_until_app by done. simpl.
  rewrite (proj2 (byte_in_spec set d) Hd). by rewrite app_nil_r.
Qed.

Lemma equals_stops_key : "="%char ∈ key_stop.
Proof. by apply byte_in_spec. Qed.

Lemma param_query_key s key rest :
  param_at s key rest → query_key s = key ∧ queryParam [] s = Some (2 + length key)
  ∧ drop (2 + length key) s = rest.
Proof.
  intros [q -> Hq Hk]. assert (query_key (q :: key ++ "="%char :: rest) = key) as Hkey.
  { unfold query_key. simpl. apply take_until_stop; [done|apply equals_stops_key]. }
  unfold queryParam. rewrite Hkey, (proj2 (byte_in_spec _ _) Hq), drop_app_length.
  split_and!; [done|done|]. simpl.
  replace (S (length key)) with (length (key ++ ["="%char])) by (rewrite length_app; simpl; lia).
  change ("="%char :: rest) with (["="%char] ++ rest).
  rewrite (assoc_L (++)). apply drop_app_length.
Qed.

Lemma queryParam_param b s n : queryParam b s = Some n →
  ∃ rest, param_at s (query_key s) rest ∧ n = 2 + length (query_key s).
Proof.
  destruct s as [|q t]; [done|]. cbn [queryParam].
  destruct (_ && _) eqn:E; [|done]. intros [= <-].
  apply andb_true_iff in E as [Hq%byte_in_spec He%prefixb_spec].
  assert (t = query_key (q :: t) ++ drop (length (query_key (q :: t))) t) as Ht.
  { apply prefix_drop, take_until_prefix. }
  apply prefix_drop in He. simpl in He.
  eexists. split; [|done]. econstructor; [|exact Hq|].
  - f_equal. rewrite Ht at 1. rewrite He at 1. done.
  - intros c Hc. by apply take_until_not_in in Hc.
Qed.

Lemma opener_not_in_key key c : ok_key key → c ∈ key ++ ["="%char] → c ∉ #"?&".
Proof.
  intros Hk Hc Hq. apply elem_of_app in Hc as [Hc|Hc].
  - apply (Hk c Hc). apply byte_in_spec. apply byte_in_spec in Hq.
    unfold key_stop. revert Hq. byte_cases c; vm_compute; congruence.
  - apply list_elem_of_singleton in Hc as ->. by apply byte_in_spec in Hq.
Qed.

Lemma queryParam_no_overlap : no_overlap queryParam.
Proof.
  split; [done|]. intros b s n H. destruct (queryParam_param _ _ _ H) as (rest & Hp & ->).
  split; [lia|]. intros j Hj. destruct Hp as [q Hs Hq Hk].
  destruct (drop j s) as [|d t] eqn:Hd; [done|]. unfold queryParam.
  assert (d ∈ query_key s ++ ["="%char]) as Hin.
  { assert (s !! j = Some d) as Hl by (rewrite <- (Nat.add_0_r j), <- lookup_drop, Hd; done).
    destruct j as [|j]; [lia|]. rewrite Hs in Hl. simpl in Hl.
    change (query_key s ++ "="%char :: rest) with (query_key s ++ ["="%char] ++ rest) in Hl.
    rewrite (assoc_L (++)), lookup_app_l in Hl by (rewrite length_app; simpl; lia).
    by apply list_elem_of_lookup_2 in Hl. }
  apply opener_not_in_key in Hin; [|done].
  by rewrite (proj2 (byte_in_false _ _) Hin).
Qed.

Section query.
Context `{U : GoUnicode}.

(** A credential parameter whose value is not one this package wrote. *)
Definition bad_param (s : bytes) : Prop :=
  ∃ key rest, param_at s key rest ∧ isCredentialQueryKey key = true
              ∧ accounted_value (take_until value_stop rest) = false.

Lemma find_query_params text s' n :
  (s', n) ∈ find_all queryParam text ↔
  s' `suffix_of` text ∧ ∃ rest, param_at s' (query_key s') rest ∧ n = 2 + length (query_key s').
Proof.
  rewrite find_all_complete by apply queryParam_no_overlap. split.
  - intros (? & ? & Hq). eauto using queryParam_param.
  - intros (? & rest & Hp & ->). destruct (param_query_key _ _ _ Hp) as (_ & ? & _).
    split_and!; [done| |done]. destruct Hp as [q -> ? ?]. done.
Qed.

Lemma existsb_elem {A} (f : A → bool) (l : list A) :
  existsb f l = true ↔ ∃ x, x ∈ l ∧ f x = true.
Proof. rewrite existsb_exists. by setoid_rewrite list_elem_of_In. Qed.

Lemma unaccounted_spec text :
  unaccountedCredentialQuery text = true ↔ ∃ s', s' `suffix_of` text ∧ bad_param s'.
Proof.
  unfold unaccountedCredentialQuery. rewrite existsb_elem. split.
  - intros ([s' n] & (Hs & rest & Hp & ->)%find_query_params & [Hc Hv]%andb_true_iff).
    exists s'. split; [done|]. exists (query_key s'), rest. split_and!; [done|done|].
    apply negb_true_iff in Hv. destruct (param_query_key _ _ _ Hp) as (_ & _ & Hd). by rewrite Hd in Hv.
  - intros (s' & Hs & key & rest & Hp & Hc & Hv).
    destruct (param_query_key _ _ _ Hp) as (Hk & _ & Hd). subst key.
    exists (s', 2 + length (query_key s')). split; [apply find_query_params; eauto|].
    by rewrite Hc, Hd, Hv.
Qed.

Lemma hasCredentialQuery_spec text :
  hasCredentialQuery text = true ↔
  ∃ s' key rest, s' `suffix_of` text ∧ param_at s' key rest ∧ isCredentialQueryKey key = true.
Proof.
  unfold hasCredentialQuery. rewrite existsb_elem. split.
  - intros ([s' n] & (Hs & rest & Hp & ->)%find_query_params & Hc). eauto 6.
  - intros (s' & key & rest & Hs & Hp & Hc).
    destruct (param_query_key _ _ _ Hp) as (Hk & _ & Hd). subst key.
    exists (s', 2 + length (query_key s')). split; [apply find_query_params; eauto|done].
Qed.
End query.

(** * What the substitution does to query parameters *)

(** Text without a colon, up to a byte no scheme can hold, is copied. *)
Lemma userinfo_colon_first w tail :
  ":"%char ∉ w → match tail with [] => True | d :: _ => scheme_byte d = false ∧ d ≠ ":"%char end →
  w ≠ [] → urlUserinfo_at (w ++ tail) = None.
Proof.
  intros Hw Ht Hne. destruct (urlUserinfo_at (w ++ tail)) as [r|] eqn:E; [|done].
  apply urlUserinfo_at_match in E as (scheme & user & rest & [Hs _ Hsch _ _]).
  change (#"://" ++ user ++ #"@" ++ rest) with (":"%char :: (#"//" ++ user ++ #"@" ++ rest)) in Hs.
  apply app_eq_inv in Hs as [(k & -> & E) | (k & -> & E)].
  - destruct k as [|d k]; simplify_eq/=.
    + by destruct Ht.
    + set_solver.
  - destruct k as [|d k]; subst tail; simpl in Ht.
    + by destruct Ht.
    + apply Forall_app in Hsch as [_ [Hd _]%Forall_cons]. destruct Ht. congruence.
Qed.

Lemma replace_copy w tail :
  ":"%char ∉ w → match tail with [] => True | d :: _ => scheme_byte d = false ∧ d ≠ ":"%char end →
  replaceUserinfo (w ++ tail) = w ++ replaceUserinfo tail.
Proof.
  intros Hw Ht. induction w as [|c w IH]; [done|].
  rewrite <- app_comm_cons, replace_miss.
  - rewrite IH by set_solver. done.
  - rewrite app_comm_cons. by apply userinfo_colon_first.
Qed.

Lemma replace_prefix_inv p s :
  ":"%char ∉ p → p `prefix_of` replaceUserinfo s → p `prefix_of` s.
Proof.
  revert p. induction s as [|c s Hat IH|s scheme user rest Hm IH] using userinfo_ind; intros p Hp Hpre.
  - done.
  - rewrite replace_miss in Hpre by done. destruct p as [|d p]; [apply prefix_nil|].
    pose proof (prefix_cons_inv_1 _ _ _ _ Hpre). apply prefix_cons_inv_2 in Hpre. subst.
    apply prefix_cons, IH; set_solver.
  - rewrite (replace_hit _ _ _ _ Hm) in Hpre. apply (prefix_before_char _ _ _ ":"%char) in Hpre; [|done].
    rewrite (um_text _ _ _ _ Hm). by apply prefix_app_r.
Qed.

Lemma list_in_dec_false (x : bytes) (l : list bytes) : bool_decide (x ∈ l) = false → x ∉ l.
Proof. by rewrite bool_decide_eq_false. Qed.

Lemma url_unescape_keeps plus c s d :
  unhex c = None → c ≠ "%"%char → c ≠ "+"%char → c ∈ s → url_unescape plus s = Some d → c ∈ d.
Proof.
  intros Hc Hp Hplus. remember (length s) as n eqn:Hn. revert s d Hn.
  induction (lt_wf n) as [n _ IH]. intros s d -> Hin Hd.
  destruct s as [|x s]; [by apply not_elem_of_nil in Hin|]. cbn [url_unescape] in Hd.
  case_bool_decide as Hx.
  - subst x. destruct s as [|a [|b s]]; [done|done|].
    destruct (unhex a) eqn:Ha; [|done]. destruct (unhex b) eqn:Hb; [|done]. simpl in Hd.
    destruct (url_unescape plus s) as [d'|] eqn:E; [|done]. simplify_eq/=.
    assert (c ∈ s) by set_solver. apply elem_of_cons. right. eapply IH; [|done|done|done]. simpl. lia.
  - destruct (url_unescape plus s) as [d'|] eqn:E; [|done]. simplify_eq/=.
    apply elem_of_cons in Hin as [-> | Hin]; apply elem_of_cons.
    + left. rewrite (bool_decide_false (x = "+"%char)) by done. by rewrite andb_false_r.
    + right. eapply IH; [|done|done|done]. simpl. lia.
Qed.

Lemma credential_key_no_colon `{U : GoUnicode, !GoUnicodeLaws U} key :
  isCredentialQueryKey key = true → ":"%char ∉ key.
Proof.
  unfold isCredentialQueryKey. rewrite bool_decide_eq_true. intros Hk Hin.
  assert (":"%char ∈ default key (QueryUnescape key)) as Hd.
  { destruct (QueryUnescape key) as [d|] eqn:E; [|done]. by eapply url_unescape_keeps in E. }
  apply (ToLower_keeps ":"%char) in Hd; [|done|done].
  repeat (apply elem_of_cons in Hk as [Hk|Hk]; [rewrite Hk in Hd; by apply byte_in_spec in Hd|]).
  by apply not_elem_of_nil in Hk.
Qed.

Lemma accounted_value_spec v :
  accounted_value v = true ↔ v = escapedOpaquePlaceholder ∨ v = opaquePlaceholder.
Proof. unfold accounted_value. by rewrite orb_true_iff, !bool_decide_eq_true. Qed.

Lemma accounted_no_colon v : accounted_value v = true → ":"%char ∉ v.
Proof. intros [-> | ->]%accounted_value_spec; by apply byte_in_false. Qed.

Lemma value_stop_no_scheme d : d ∈ value_stop → scheme_byte d = false ∧ d ≠ ":"%char.
Proof.
  intros Hd%byte_in_spec. revert Hd. byte_cases d; vm_compute; intros H; try done.
Qed.

Lemma replace_stop_byte d s :
  scheme_byte d = false → replaceUserinfo (d :: s) = d :: replaceUserinfo s.
Proof.
  intros Hd. apply replace_miss. unfold urlUserinfo_at.
  destruct (is_alpha d) eqn:E; [|done]. apply alpha_scheme in E. congruence.
Qed.

(** A value this package wrote is still there after the substitution. *)
Lemma accounted_value_replaced p rest :
  ":"%char ∉ p → accounted_value (take_until value_stop rest) = true →
  ∃ rest', replaceUserinfo (p ++ rest) = p ++ rest'
           ∧ accounted_value (take_until value_stop rest') = true.
Proof.
  intros Hp Hv. destruct (take_until_spec value_stop rest) as (tl & Hrest & Hin & Hstop).
  set (v := take_until value_stop rest) in *.
  exists (v ++ replaceUserinfo tl). split.
  - rewrite Hrest, !(assoc_L (++)), replace_copy.
    + done.
    + rewrite elem_of_app. intros [?|?]; [done|by apply accounted_no_colon in Hv].
    + destruct tl; [done|by apply value_stop_no_scheme].
  - rewrite take_until_app by done. destruct tl as [|d tl].
    + simpl. by rewrite app_nil_r.
    + rewrite replace_stop_byte by (by apply value_stop_no_scheme). cbn [take_until].
      by rewrite (proj2 (byte_in_spec _ _) Hstop), app_nil_r.
Qed.

Section transfer.
Context `{U : GoUnicode, !GoUnicodeLaws U}.

Lemma bad_param_head s : bad_param (replaceUserinfo s) → bad_param s.
Proof.
  intros (key & rest & [q Hq Hop Hk] & Hcred & Hbad).
  assert (":"%char ∉ q :: key ++ ["="%char]) as Hno.
  { rewrite elem_of_cons, elem_of_app. intros [<- | [Hin | Hin]].
    - by apply byte_in_spec in Hop.
    - by apply credential_key_no_colon in Hcred.
    - by apply byte_in_spec in Hin. }
  change (key ++ "="%char :: rest) with (key ++ ["="%char] ++ rest) in Hq.
  rewrite (assoc_L (++)), app_comm_cons in Hq.
  assert (q :: key ++ ["="%char] `prefix_of` s) as Hpre.
  { apply replace_prefix_inv; [done|]. rewrite Hq. by exists rest. }
  apply prefix_drop in Hpre. set (rest_t := drop _ s) in Hpre.
  exists key, rest_t. split_and!; [|done|].
  - apply (Param _ _ _ q); [|done|done]. rewrite Hpre at 1. simpl.
    by rewrite <- (assoc_L (++)).
  - destruct (accounted_value (take_until value_stop rest_t)) eqn:Ha; [|done].
    destruct (accounted_value_replaced _ _ Hno Ha) as (rest' & Hr & Ha').
    rewrite <- Hpre, Hq in Hr. apply app_inv_head in Hr. congruence.
Qed.

Lemma bad_param_replaced s sr :
  sr `suffix_of` replaceUserinfo s → bad_param sr → ∃ st, st `suffix_of` s ∧ bad_param st.
Proof.
  revert sr. induction s as [|c s Hat IH|s scheme user rest Hm IH] using userinfo_ind; intros sr Hs Hb.
  - apply suffix_nil_inv in Hs as ->. by destruct Hb as (? & ? & [] & _).
  - destruct (decide (sr = replaceUserinfo (c :: s))) as [->|Hne].
    { exists (c :: s). split; [done|by apply bad_param_head]. }
    rewrite replace_miss in Hs, Hne by done. destruct sr as [|d sr].
    { by destruct Hb as (? & ? & [] & _). }
    apply suffix_cons_inv in Hs as [Heq | Hs]; [congruence|].
    destruct (IH _ Hs Hb) as (st & ? & ?). exists st. split; [by apply suffix_cons_r|done].
  - rewrite (replace_hit _ _ _ _ Hm), !(assoc_L (++)) in Hs.
    set (out := ((scheme ++ _) ++ _) ++ _) in Hs.
    destruct (suffix_cases _ _ (length out) Hs) as [Hr | (j & Hj & ->)].
    + rewrite drop_app_length in Hr. destruct (IH _ Hr Hb) as (st & [l ->] & ?).
      exists st. split; [|done]. rewrite (um_text _ _ _ _ Hm). exists (scheme ++ #"://" ++ user ++ #"@" ++ l).
      by rewrite <- !(assoc_L (++)).
    + exfalso. destruct Hb as (key & r & [q Hq Hop _] & _).
      assert (q ∈ out) as Hin.
      { apply (list_elem_of_lookup_2 _ j). rewrite <- (lookup_app_l out (replaceUserinfo rest)) by done.
        rewrite <- (Nat.add_0_r j), <- lookup_drop, Hq. done. }
      unfold out in Hin. rewrite !elem_of_app in Hin.
      pose proof (um_scheme _ _ _ _ Hm) as Hsch. rewrite Forall_forall in Hsch.
      apply byte_in_spec in Hop. destruct Hin as [[[Hin|Hin]|Hin]|Hin].
      * apply Hsch in Hin. revert Hin Hop. byte_cases q; vm_compute; congruence.
      * apply byte_in_spec in Hin. revert Hin Hop. byte_cases q; vm_compute; congruence.
      * apply byte_in_spec in Hin. revert Hin Hop. byte_cases q; vm_compute; congruence.
      * apply byte_in_spec in Hin. revert Hin Hop. byte_cases q; vm_compute; congruence.
Qed.
End transfer.

(** * redactQuery, pair by pair *)
Section redact_query.
Context `{U : GoUnicode}.

(** A pair that is not a credential, or whose value this package wrote. *)
Definition accounted_pair (pair : bytes) : Prop :=
  ∀ key value, Cut pair "=" = (key, value, true) → isCredentialQueryKey key = true →
  value = escapedOpaquePlaceholder.

Lemma redact_pair_spec pair :
  "&"%char ∉ pair →
  let pair' := (redact_pair pair).1 in
  "&"%char ∉ pair' ∧ accounted_pair pair' ∧ (redact_pair pair').1 = pair'
  ∧ ((redact_pair pair).2 = false → pair' = pair).
Proof.
  intros Hamp. unfold redact_pair. destruct (Cut pair "=") as [[key value] ok] eqn:Hcut.
  destruct ok; cbn [negb orb].
  - apply Cut_spec in Hcut as Hs. destruct Hs as [-> Hk].
    destruct (isCredentialQueryKey key) eqn:Hc; cbn [negb fst snd].
    + change (#"=" ++ QueryEscape opaquePlaceholder) with ("="%char :: escapedOpaquePlaceholder).
      rewrite Cut_app, Hc by done. cbn [negb orb fst]. split_and!; [|intros k v|done|done].
      * rewrite elem_of_app, elem_of_cons. intros [? | [? | Hin]]; [set_solver|done|].
        by apply byte_in_spec in Hin.
      * rewrite Cut_app by done. by intros [= <- <-].
    + rewrite Hcut, Hc. cbn [negb orb fst]. split_and!; [done|intros k v|done|done].
      rewrite Hcut. intros [= <- <-]. congruence.
  - cbn [fst snd]. rewrite Hcut. split_and!; [done|intros k v|done|done]. by rewrite Hcut.
Qed.

Lemma redactQuery_split q :
  Split (redactQuery q).1 "&" = map (λ p, (redact_pair p).1) (Split q "&").
Proof.
  unfold redactQuery. cbn [fst]. rewrite map_map. apply Split_Join.
  - pose proof (Split_nonempty q "&"). by destruct (Split q "&").
  - apply Forall_forall. intros w (p & <- & Hp)%list_elem_of_In%in_map_iff. apply list_elem_of_In in Hp.
    apply redact_pair_spec. by eapply Split_no_sep.
Qed.

Lemma redactQuery_unchanged q : (redactQuery q).2 = false → (redactQuery q).1 = q.
Proof.
  unfold redactQuery. cbn [fst snd]. intros Hf.
  rewrite <- (Join_Split q "&") at 2. f_equal. rewrite map_map.
  rewrite <- (map_id (Split q "&")) at 2. apply map_ext_in. intros p Hp.
  apply redact_pair_spec.
  - apply list_elem_of_In in Hp. by eapply Split_no_sep.
  - destruct (redact_pair p).2 eqn:E; [|done].
    assert (existsb snd (map redact_pair (Split q "&")) = true); [|congruence].
    apply existsb_exists. exists (redact_pair p). split; [by apply in_map|done].
Qed.

Lemma redactQuery_accounted q p : p ∈ Split (redactQuery q).1 "&" → accounted_pair p.
Proof.
  rewrite redactQuery_split. intros (p' & <- & Hp)%list_elem_of_In%in_map_iff.
  apply list_elem_of_In in Hp. apply redact_pair_spec. by eapply Split_no_sep.
Qed.

Lemma redactQuery_idem q : (redactQuery (redactQuery q).1).1 = (redactQuery q).1.
Proof.
  rewrite <- (Join_Split (redactQuery (redactQuery q).1).1 "&"), !redactQuery_split, map_map.
  transitivity (Join (map (λ p, (redact_pair p).1) (Split q "&")) #"&").
  - f_equal. apply map_ext_in. intros p Hp%list_elem_of_In. apply Split_no_sep in Hp.
    by destruct (redact_pair_spec p Hp) as (_ & _ & -> & _).
  - unfold redactQuery. cbn [fst]. by rewrite map_map.
Qed.

Lemma redact_url_query u p : p ∈ Split (RawQuery (redact_url u)) "&" → accounted_pair p.
Proof.
  cbn [RawQuery redact_url]. case_decide as Hq.
  - rewrite Hq. cbn [Split]. rewrite list_elem_of_singleton. intros -> k v. done.
  - pose proof (redactQuery_accounted (RawQuery u)) as Ha.
    pose proof (redactQuery_unchanged (RawQuery u)) as Hu.
    destruct (redactQuery (RawQuery u)) as [scrubbed changed]. cbn [fst snd] in *.
    destruct changed; [apply Ha|]. rewrite <- Hu at 1 by done. apply Ha.
Qed.
End redact_query.

(** * Opaque payloads *)
Fixpoint unescapings (k : nat) (s : bytes) : option bytes :=
  match k with
  | O => Some s
  | S k' => d ← PathUnescape s; unescapings k' d
  end.

Lemma ContainsAny_false s set c : ContainsAny s set = false → c ∈ set → c ∉ s.
Proof.
  unfold ContainsAny. intros H Hc Hs.
  assert (existsb (byte_in set) s = true); [|congruence].
  apply existsb_elem. exists c. split; [done|by apply byte_in_spec].
Qed.

Lemma opaque_passes_spec n s k :
  opaque_passes n s = false → ContainsAny s #":@" = false →
  ∃ d, unescapings k s = Some d ∧ ContainsAny d #":@" = false.
Proof.
  revert s k. induction n as [|n IH]; intros s k Hp Hs; cbn [opaque_passes] in Hp; [done|].
  destruct (PathUnescape s) as [d|] eqn:Hd; [|done]. destruct (decide (d = s)) as [->|].
  - exists s. split; [|done]. clear IH. induction k as [|k IH]; [done|].
    simpl. rewrite Hd. exact IH.
  - destruct (ContainsAny d #":@") eqn:Hc; [done|].
    destruct k as [|k]; [by exists s; split|]. simpl. rewrite Hd. by apply IH.
Qed.

(** * Properties *)

Lemma InText_cases `{GoLib} text eps :
  let text' := foldl substitute_endpoint text eps in
  InText text eps = redactedWhole
  ∨ unaccounted_text text' = false ∧ InText text eps = replaceUserinfo text'.
Proof. cbv zeta. unfold InText. destruct (unaccounted_text _); auto. Qed.

Lemma unaccounted_text_false `{GoLib} text :
  unaccounted_text text = false →
  count_byte "@" text = userinfo_hits text ∧ unaccountedCredentialQuery text = false
  ∧ ∃ views, decodedViews text = (views, true) ∧ ∀ v, v ∈ views → view_hides text v = false.
Proof.
  unfold unaccounted_text. destruct (decodedViews text) as [views converged].
  rewrite !orb_false_iff, !negb_false_iff, Nat.eqb_eq. intros [[Hc Hq] [Hconv Hv]].
  destruct converged; [|done]. split_and!; [done|done|]. exists views. split; [done|].
  intros v Hin. destruct (view_hides text v) eqn:E; [|done].
  assert (existsb (view_hides text) views = true); [|congruence]. apply existsb_elem. eauto.
Qed.

(** C1: the closed rule of InText. Whatever the text and the known endpoints,
    the result is the whole-line placeholder or a text in which every at-sign
    stands directly behind "://redacted": no userinfo survives. *)
Theorem InText_masks_userinfo `{GoLib} (text : bytes) (knownEndpoints : list bytes) :
  InText text knownEndpoints = redactedWhole
  ∨ only_redacted_userinfo (InText text knownEndpoints).
Proof.
  destruct (InText_cases text knownEndpoints) as [? | [Hu ->]]; [by left|right].
  apply replace_masked, unaccounted_text_false, Hu.
Qed.

(** The second closed rule. The result of InText never holds a credential
    query parameter with a value this package did not write. *)
Theorem InText_accounts_queries `{L : GoLib} (Hlaws : GoLibLaws L)
    (text : bytes) (knownEndpoints : list bytes) :
  unaccountedCredentialQuery (InText text knownEndpoints) = false.
Proof.
  destruct (InText_cases text knownEndpoints) as [-> | [Hu ->]].
  { destruct (unaccountedCredentialQuery redactedWhole) eqn:E; [|done].
    apply unaccounted_spec in E as (s' & Hs & key & rest & [q -> Hq _] & _).
    apply (elem_of_suffix _ _ q) in Hs; [|set_solver].
    apply byte_in_spec in Hs, Hq. revert Hs Hq. byte_cases q; vm_compute; congruence. }
  destruct (unaccountedCredentialQuery (replaceUserinfo _)) eqn:E; [|done].
  apply unaccounted_spec in E as (sr & Hs & Hb).
  destruct (bad_param_replaced _ _ Hs Hb) as (st & Hst & Hbad).
  apply unaccounted_text_false in Hu as (_ & <- & _). symmetry.
  apply unaccounted_spec. eauto.
Qed.

Lemma InText_accounts_queries_witness :
  GoLibLaws sample_lib
  ∧ unaccountedCredentialQuery (InText #"get https://bob:pw@h/x?Signature=%5Bredacted%5D&a=1 failed" []) = false
  ∧ InText #"get https://bob:pw@h/x?Signature=%5Bredacted%5D&a=1 failed" []
    = #"get https://redacted@h/x?Signature=%5Bredacted%5D&a=1 failed".
Proof.
  split; [exact sample_laws|]. split; [apply (InText_accounts_queries sample_laws)|by vm_compute].
Defined.

(** InText decides on every reading of the text, not on a prefix of them:
    when the text is not given up whole, each of the readings its escapings
    allow (any number of decoding steps) has no more and no fewer at-signs than
    the text, and no unaccounted credential query. *)
Theorem InText_readings_accounted `{GoLib} (text : bytes) (knownEndpoints : list bytes) (k : nat) :
  let text' := foldl substitute_endpoint text knownEndpoints in
  InText text knownEndpoints = redactedWhole
  ∨ count_byte "@" (Nat.iter k decodeOnce text') = count_byte "@" text'
    ∧ unaccountedCredentialQuery (Nat.iter k decodeOnce text') = false.
Proof.
  cbv zeta. destruct (InText_cases text knownEndpoints) as [? | [Hu _]]; [by left|right].
  apply unaccounted_text_false in Hu as (Hc & Hq & views & Hd & Hv).
  pose proof (decode_passes_complete _ _ _ Hd k) as Hin. apply elem_of_cons in Hin as [-> | Hin]; [done|].
  specialize (Hv _ Hin). unfold view_hides in Hv. case_decide as E; [by rewrite E|].
  apply orb_false_iff in Hv as [Hv ?]. apply negb_false_iff, Nat.eqb_eq in Hv. done.
Qed.

(** RedactQuery works pair by pair and in place: the pairs keep their order
    and their number, each credential pair of the result carries the
    placeholder, a query reported unchanged is unchanged, and redacting twice
    is redacting once. *)
Theorem redactQuery_in_place `{GoUnicode} (q : bytes) :
  let q' := (redactQuery q).1 in
  Split q' "&" = map (λ p, (redact_pair p).1) (Split q "&")
  ∧ Forall accounted_pair (Split q' "&")
  ∧ ((redactQuery q).2 = false → q' = q)
  ∧ (redactQuery q').1 = q'.
Proof.
  cbv zeta. split_and!.
  - apply redactQuery_split.
  - apply Forall_forall. intros p. apply redactQuery_accounted.
  - apply redactQuery_unchanged.
  - apply redactQuery_idem.
Qed.

Lemma URLAttribute_cases `{GoLib} (u : URL) :
  URLAttribute (Some u) = redactedWhole
  ∨ ∃ u', URLAttribute (Some u) = url_String u'
    ∧ (User u' = None ∨ User u' = Some (url_User placeholder))
    ∧ Forall accounted_pair (Split (RawQuery u') "&")
    ∧ "@"%char ∉ Host u'
    ∧ ∀ k, ∃ d, unescapings k (Opaque u') = Some d ∧ ":"%char ∉ d ∧ "@"%char ∉ d.
Proof.
  unfold URLAttribute. destruct (opaqueMayHoldCredentials (Opaque u)) eqn:Ho; [by left|].
  destruct (Contains (Host u) #"@") eqn:Hh; [by left|]. right. exists (redact_url u).
  split_and!; [done| | | |].
  - simpl. destruct (User u); auto.
  - apply Forall_forall. intros p. apply redact_url_query.
  - simpl. intros Hin. apply list_elem_of_split in Hin as (l & r & E).
    assert (Contains (Host u) #"@" = true); [|congruence].
    apply infixb_spec. by exists l, r.
  - intros k. unfold opaqueMayHoldCredentials in Ho. simpl.
    destruct (decide (Opaque u = [])) as [->|].
    { exists []. split_and!; [by induction k|set_solver|set_solver]. }
    destruct (ContainsAny (Opaque u) #":@") eqn:Hc; [done|].
    destruct (opaque_passes_spec _ _ k Ho Hc) as (d & Hd & Hdc). exists d.
    split_and!; [done| |]; (eapply ContainsAny_false; [done|by apply byte_in_spec]).
Qed.

(** What URLAttribute renders. The result is the whole-URL placeholder or
    the rendering of a URL whose userinfo is absent or the bare placeholder,
    whose credential query values are the placeholder, whose host holds no
    at-sign and whose opaque payload, unescaped any number of times, holds
    neither a colon nor an at-sign. *)
Theorem URLAttribute_safe `{GoLib} (u : URL) :
  URLAttribute (Some u) = redactedWhole
  ∨ ∃ u', URLAttribute (Some u) = url_String u'
    ∧ (User u' = None ∨ User u' = Some (url_User placeholder))
    ∧ Forall accounted_pair (Split (RawQuery u') "&")
    ∧ "@"%char ∉ Host u'
    ∧ ∀ k, ∃ d, unescapings k (Opaque u') = Some d ∧ ":"%char ∉ d ∧ "@"%char ∉ d.
Proof. apply URLAttribute_cases. Qed.
