(* ===== verification/RedactSecrets.v ===== *)
(** internal/redact, opaque secrets: Secrets, the whole-token replacement, the
    credential headers it recognises, and the base64 credentials behind them. *)
From S2P Require Import Prelude Utf8 GoStrings GoCodec SampleLib RedactDecode RedactText.

Definition redactedMessage : bytes := #"[message redacted]".
Definition shortSecretLen : nat := 6.

(** * Replacement *)
Section tokens.
Context `{GoUnicode}.

Definition isTokenRune (r : N) : bool := unicode_IsLetter r || unicode_IsDigit r.
Definition tokenBoundaryBefore (before : bytes) : bool :=
  bool_decide (before = []) || negb (isTokenRune (decode_last_rune before)).
Definition tokenBoundaryAfter (after : bytes) : bool :=
  bool_decide (after = []) || negb (isTokenRune (rune_of after)).

(** One round of replaceWholeToken's loop at an occurrence of [secret]: it is
    replaced where it is a whole token and copied where it is not; either way
    the search goes on behind it. *)
Definition whole_token_step (secret before s : bytes) : option (nat * bytes) :=
  if prefixb secret s then
    Some (length secret,
          if tokenBoundaryBefore before && tokenBoundaryAfter (drop (length secret) s)
          then opaquePlaceholder else secret)
  else None.
Definition replaceWholeToken (text secret : bytes) : bytes := rewrite_all (whole_token_step secret) text.

Definition replace_secret (text secret : bytes) : bytes :=
  if length secret <? shortSecretLen then replaceWholeToken text secret
  else ReplaceAll text secret opaquePlaceholder.
Definition replaceSecrets (text : bytes) (ordered : list bytes) : bytes :=
  foldl replace_secret text ordered.
End tokens.

(** * The credentials the package recognises *)

(** A case-insensitive literal of Go's regexp package: a letter also matches
    its other case, and by Unicode folding "s" matches U+017F and "k" U+212A. *)
Definition fold_alternatives (c : ascii) : list bytes :=
  [[lower_byte c]; [upper_byte c]]
  ++ (if bool_decide (c = "s"%char) then [encode_rune 0x17F] else [])
  ++ (if bool_decide (c = "k"%char) then [encode_rune 0x212A] else []).
Definition match_alternative (alts : list bytes) (s : bytes) : option nat :=
  length <$> head (filter (λ a, prefixb a s = true) alts).
Fixpoint match_ci (lit s : bytes) : option nat :=
  match lit with
  | [] => Some 0
  | c :: lit' => n ← match_alternative (fold_alternatives c) s;
                 m ← match_ci lit' (drop n s); Some (n + m)
  end.

(** \b is ASCII: a word byte on one side only. *)
Definition is_word (c : ascii) : bool := is_alnum c || bool_decide (c = "_"%char).
Definition at_word_start (before : bytes) : bool :=
  match before with [] => true | c :: _ => negb (is_word c) end.

(** A greedy run over a class that holds the letters, so under (?i) the two
    folded runes as well: the number of characters and of bytes. *)
Definition class_alternatives (c : ascii → bool) (s : bytes) : option nat :=
  match s with
  | [] => None
  | b :: _ => if c b then Some 1
              else match_alternative [encode_rune 0x17F; encode_rune 0x212A] s
  end.
Fixpoint class_run (fuel : nat) (c : ascii → bool) (s : bytes) : nat * nat :=
  match fuel with
  | O => (0, 0)
  | S fuel' => match class_alternatives c s with
               | None => (0, 0)
               | Some n => let '(k, m) := class_run fuel' c (drop n s) in (S k, n + m)
               end
  end.
Definition run_of (c : ascii → bool) (s : bytes) : nat * nat := class_run (length s) c s.
Definition base64_class (c : ascii) : bool := is_alnum c || byte_in #"+/" c.
Definition re_spaces (s : bytes) : nat := length (take_while (byte_in re_space) s).

(** basicCredential: the length of the match and where its group lies. *)
Definition basic_at (before s : bytes) : option (nat * bytes) :=
  if at_word_start before then
    n ← match_ci #"basic" s;
    let sp := re_spaces (drop n s) in
    let tok := drop (n + sp) s in
    let '(k, m) := run_of base64_class tok in
    let pad := length (take 2 (take_while (byte_in #"=") (drop m tok))) in
    if (0 <? sp) && (8 <=? k) then Some (n + sp + m + pad, take (m + pad) tok) else None
  else None.
Definition basicCredential (before s : bytes) : option nat := fst <$> basic_at before s.
Definition basicTokens (text : bytes) : list bytes :=
  scan_gen (λ _, []) (λ before s, '(n, tok) ← basic_at before s; Some (n, [tok])) [] 0 text.

(** digestCredential behind the scheme name and its spaces: [response], "=", at
    most two of backslash and quote, and a value of eight or more. *)
Definition digest_class (c : ascii) : bool := base64_class c || bool_decide (c = "="%char).
Definition response_at (before s : bytes) : bool :=
  at_word_start before &&
  match match_ci #"response" s with
  | None => false
  | Some n =>
    let t := drop (n + re_spaces (drop n s)) s in
    match t with
    | e :: t =>
      let v := drop (re_spaces t) t in
      let q := length (take 2 (take_while (byte_in ["\"; "034"]%char) v)) in
      bool_decide (e = "="%char) && (8 <=? (run_of digest_class (drop q v)).1)
    | [] => false
    end
  end.
(** Somewhere on the line the position is in: [^\r\n]*? before it. *)
Fixpoint response_on_line (before s : bytes) : bool :=
  response_at before s ||
  match s with
  | [] => false
  | c :: s' => if byte_in ["013"; "010"]%char c then false else response_on_line (c :: before) s'
  end.
(** \s+ may give back spaces, so each of them can end it. *)
Fixpoint after_spaces (before s : bytes) : bool :=
  match s with
  | c :: s' => byte_in re_space c
               && (response_on_line (c :: before) s' || after_spaces (c :: before) s')
  | [] => false
  end.
Definition digest_at (before s : bytes) : bool :=
  at_word_start before &&
  match match_ci #"digest" s with
  | Some n => after_spaces (reverse (take n s) ++ before) (drop n s)
  | None => false
  end.
Fixpoint digest_from (before s : bytes) : bool :=
  digest_at before s || match s with [] => false | c :: s' => digest_from (c :: before) s' end.
Definition digestCredential (text : bytes) : bool := digest_from [] text.

Definition basic_token_holds (tok : bytes) : bool :=
  match DecodeBase64 tok with
  | Some decoded => Contains decoded #":"
  | None => false
  end.
Definition reading_holds_credential (text : bytes) : bool :=
  existsb basic_token_holds (basicTokens text) || digestCredential text.

Section secrets.
Context `{GoLib}.

Definition holdsUnaccountedCredential (text : bytes) : bool :=
  let '(views, converged) := decodedViews text in
  if converged then existsb reading_holds_credential (text :: views) else true.

Definition holdsPlaceholder (text : bytes) : bool :=
  if Contains text opaquePlaceholder then true
  else let '(views, converged) := decodedViews text in
       if converged then existsb (λ v, Contains v opaquePlaceholder) views else true.

(** The list Secrets works from: empties and repeats dropped, longest first,
    the caller's order kept among equals (sort.SliceStable). *)
Definition dedup_step (acc : list bytes) (secret : bytes) : list bytes :=
  if bool_decide (secret = []) || bool_decide (secret ∈ acc) then acc else acc ++ [secret].
Definition distinct_secrets (secrets : list bytes) : list bytes := foldl dedup_step [] secrets.
Fixpoint insert_longest (secret : bytes) (l : list bytes) : list bytes :=
  match l with
  | [] => [secret]
  | x :: l' => if length x <? length secret then secret :: l else x :: insert_longest secret l'
  end.
Definition longest_first (l : list bytes) : list bytes := foldl (λ acc s, insert_longest s acc) [] l.

Definition Secrets (text : bytes) (secrets : list bytes) : bytes :=
  if bool_decide (secrets = []) || bool_decide (text = []) then text
  else
    let distinct := distinct_secrets secrets in
    if decide (distinct = []) then text
    else if bool_decide (opaquePlaceholder ∈ secrets) && holdsPlaceholder text then redactedMessage
    else
      let ordered := longest_first distinct in
      let text := replaceSecrets text ordered in
      let '(views, converged) := decodedViews text in
      if negb converged then redactedMessage
      else if existsb (λ view, negb (bool_decide (replaceSecrets view ordered = view))) views
      then redactedMessage
      else if holdsUnaccountedCredential text then redactedMessage
      else text.
End secrets.

(** * What a replacement leaves behind *)

(** A step that writes the placeholder or what it consumed. *)
Definition marking (step : bytes → bytes → option (nat * bytes)) : Prop :=
  ∀ b s n out, step b s = Some (n, out) → out = opaquePlaceholder ∨ out = take n s.

(** A secret that cannot be read into a placeholder or across its edges. *)
Definition unlike_placeholder (p : bytes) : Prop :=
  p ≠ [] ∧ "["%char ∉ p ∧ "]"%char ∉ p ∧ ¬ infix p placeholder.

Lemma placeholder_no_prefix p j R :
  unlike_placeholder p → j < length opaquePlaceholder →
  ¬ p `prefix_of` drop j opaquePlaceholder ++ R.
Proof.
  intros (Hne & Hl & Hr & Hin) Hj Hp.
  assert (drop j opaquePlaceholder ++ R = drop j #"[redacted" ++ "]"%char :: R) as E.
  { clear - Hj. do 10 (destruct j as [|j]; [done|]). simpl in Hj. lia. }
  rewrite E in Hp. apply prefix_before_char in Hp; [|done].
  destruct j as [|j].
  - destruct p as [|c p]; [done|]. apply prefix_cons_inv_1 in Hp. set_solver.
  - apply Hin. apply (infix_drop _ j). by apply prefix_infix.
Qed.

Section marked.
Context (step : bytes → bytes → option (nat * bytes)) (Hm : marking step).

Lemma step_hit_marking b s n out :
  step_hit step b s = Some (n, out) → out = opaquePlaceholder ∨ out = take n s.
Proof.
  unfold step_hit. destruct (step b s) as [[[|k] o]|] eqn:E; intros; simplify_eq. by eapply Hm.
Qed.

Lemma marked_prefix before s q :
  "["%char ∉ q → q `prefix_of` scan step before 0 s → q `prefix_of` s.
Proof.
  intros Hq. revert q Hq. revert before s.
  apply (scan_ind copy_byte step (λ before s, ∀ q, "["%char ∉ q →
    q `prefix_of` scan step before 0 s → q `prefix_of` s)).
  - done.
  - intros before c s Hh IH q Hq. rewrite scan_gen_miss by done. destruct q as [|d q].
    { intros _. apply prefix_nil. }
    intros Hp. pose proof (prefix_cons_inv_1 _ _ _ _ Hp) as ->. apply prefix_cons_inv_2 in Hp.
    apply prefix_cons, IH; [set_solver|done].
  - intros before s n out Hs Hn Hh IH q Hq. rewrite (scan_gen_hit _ _ _ _ _ _ Hs Hh).
    destruct (step_hit_marking _ _ _ _ Hh) as [-> | ->]; intros Hp.
    + destruct q as [|d q]; [apply prefix_nil|]. apply prefix_cons_inv_1 in Hp. set_solver.
    + apply prefix_app_cases in Hp as [Hp | (q' & -> & Hp)].
      * etrans; [exact Hp|apply prefix_take].
      * apply IH in Hp; [|set_solver]. rewrite <- (take_drop n s) at 2. by apply prefix_app.
Qed.

Lemma marked_infix before s p :
  unlike_placeholder p → infix p (scan step before 0 s) → infix p s.
Proof.
  intros Hu. revert before s. apply (scan_ind copy_byte step (λ before s,
    infix p (scan step before 0 s) → infix p s)).
  - done.
  - intros before c s Hh IH Hi. rewrite infix_cons. pose proof Hi as Hi'.
    rewrite scan_gen_miss in Hi' by done. apply infix_cons in Hi' as [Hp | Hi']; [left|by right; apply IH].
    apply (marked_prefix before); [apply Hu|]. by rewrite scan_gen_miss.
  - intros before s n out Hs Hn Hh IH. rewrite (scan_gen_hit _ _ _ _ _ _ Hs Hh). intros Hi.
    apply infix_app_cases in Hi as [Hi | (j & Hj & Hp)]; [by eapply infix_drop, IH|].
    destruct (step_hit_marking _ _ _ _ Hh) as [-> | ->].
    + by apply placeholder_no_prefix in Hp.
    + apply (infix_drop _ j), prefix_infix.
      rewrite <- (take_drop n s), drop_app_le by lia.
      apply prefix_app_cases in Hp as [Hp | (q & -> & Hp)]; [by apply prefix_app_r|].
      apply prefix_app. eapply marked_prefix; [|exact Hp].
      destruct Hu as (_ & Hl & _). set_solver.
Qed.
End marked.

Lemma replacing_marking p : marking (replacing (literal p) (λ _, opaquePlaceholder)).
Proof.
  intros b s n out. unfold replacing, literal. destruct (prefixb p s); [|done].
  simpl. intros. simplify_eq. by left.
Qed.

Lemma whole_token_marking `{GoUnicode} p : marking (whole_token_step p).
Proof.
  intros b s n out. unfold whole_token_step. destruct (prefixb p s) eqn:E; [|done].
  intros. simplify_eq. case_match; [by left|right].
  apply prefixb_spec, prefix_take_drop in E as [-> _]. done.
Qed.

Lemma replace_secret_infix `{GoUnicode} text t p :
  unlike_placeholder p → infix p (replace_secret text t) → infix p text.
Proof.
  intros Hu. unfold replace_secret, replaceWholeToken, ReplaceAll, rewrite_all.
  destruct (_ <? _); (apply marked_infix; [|done]).
  - apply whole_token_marking.
  - apply replacing_marking.
Qed.

(** A long secret does not survive its own replacement. *)
Lemma replace_secret_removes `{GoUnicode} text p :
  unlike_placeholder p → shortSecretLen ≤ length p → ¬ infix p (replace_secret text p).
Proof.
  intros Hu Hlen. unfold replace_secret. assert ((length p <? shortSecretLen) = false) as -> by lia.
  unfold ReplaceAll, rewrite_all.
  cut (∀ before s, ¬ infix p (scan (replacing (literal p) (λ _, opaquePlaceholder)) before 0 s)); [auto|].
  clear text. apply (scan_ind copy_byte (replacing (literal p) (λ _, opaquePlaceholder)) (λ before s,
    ¬ infix p (scan (replacing (literal p) (λ _, opaquePlaceholder)) before 0 s))).
  - intros b Hi. apply infix_nil_inv in Hi. by destruct Hu.
  - intros before c s Hh IH Hi. pose proof Hi as Hi'. rewrite scan_gen_miss in Hi' by done.
    apply infix_cons in Hi' as [Hp | Hi']; [|done].
    assert (p `prefix_of` c :: s) as Hpre%prefixb_spec.
    { apply (marked_prefix _ (replacing_marking p) before); [apply Hu|]. by rewrite scan_gen_miss. } unfold step_hit, replacing, literal in Hh. rewrite Hpre in Hh.
    simpl in Hh. unfold shortSecretLen in Hlen. destruct (length p); [lia|done].
  - intros before s n out Hs Hn Hh IH Hi. rewrite (scan_gen_hit _ _ _ _ _ _ Hs Hh) in Hi.
    apply infix_app_cases in Hi as [Hi | (j & Hj & Hp)]; [done|].
    unfold step_hit, replacing, literal in Hh. destruct (prefixb p s); [|done].
    simpl in Hh. destruct (length p); simplify_eq. by apply placeholder_no_prefix in Hp.
Qed.

Lemma replaceSecrets_infix `{GoUnicode} text l p :
  unlike_placeholder p → infix p (replaceSecrets text l) → infix p text.
Proof.
  intros Hu. revert text. induction l as [|t l IH]; intros text; [done|].
  intros Hi. apply IH in Hi. by eapply replace_secret_infix.
Qed.

Lemma replaceSecrets_removes `{GoUnicode} text l p :
  p ∈ l → unlike_placeholder p → shortSecretLen ≤ length p → ¬ infix p (replaceSecrets text l).
Proof.
  intros Hin Hu Hlen. revert text. induction l as [|t l IH]; intros text; [set_solver|].
  apply elem_of_cons in Hin as [<- | Hin].
  - intros Hi. unfold replaceSecrets in Hi. simpl in Hi. apply replaceSecrets_infix in Hi; [|done].
    by apply replace_secret_removes in Hi.
  - simpl. by apply IH.
Qed.

(** * The list Secrets works from *)
Lemma dedup_fold secrets acc x :
  x ∈ foldl dedup_step acc secrets ↔ x ∈ acc ∨ (x ∈ secrets ∧ x ≠ []).
Proof.
  revert acc. induction secrets as [|s l IH]; intros acc; simpl; [set_solver|].
  rewrite IH. unfold dedup_step. case_bool_decide as H1; [set_solver|].
  case_bool_decide as H2; simpl; set_solver.
Qed.

Lemma distinct_secrets_elem secrets x : x ∈ distinct_secrets secrets ↔ x ∈ secrets ∧ x ≠ [].
Proof. unfold distinct_secrets. rewrite dedup_fold. set_solver. Qed.

Lemma dedup_fold_NoDup secrets acc : NoDup acc → NoDup (foldl dedup_step acc secrets).
Proof.
  revert acc. induction secrets as [|s l IH]; intros acc H; [done|].
  simpl. apply IH. unfold dedup_step. case_bool_decide; [done|].
  case_bool_decide; simpl; [done|]. apply NoDup_app. split; [done|]. split; [set_solver|].
  apply NoDup_singleton.
Qed.

Lemma distinct_secrets_NoDup secrets : NoDup (distinct_secrets secrets).
Proof. apply dedup_fold_NoDup, NoDup_nil_2. Qed.

Lemma insert_longest_perm s l : insert_longest s l ≡ₚ s :: l.
Proof.
  induction l as [|x l IH]; simpl; [done|]. case_match; [done|].
  rewrite IH. by rewrite Permutation_swap.
Qed.

Lemma longest_first_perm l : longest_first l ≡ₚ l.
Proof.
  unfold longest_first. cut (∀ acc, foldl (λ acc s, insert_longest s acc) acc l ≡ₚ l ++ acc).
  { intros H. rewrite H. by rewrite app_nil_r. }
  induction l as [|s l IH]; intros acc; [done|]. simpl. rewrite IH, insert_longest_perm.
  by rewrite Permutation_middle.
Qed.

Definition longer_or_equal (x y : bytes) : Prop := length y ≤ length x.

Lemma insert_longest_sorted s l :
  StronglySorted longer_or_equal l → StronglySorted longer_or_equal (insert_longest s l).
Proof.
  induction 1 as [|x l Hl IH Hx]; simpl; [repeat constructor|].
  destruct (length x <? length s) eqn:E; constructor; try done.
  - by constructor.
  - unfold longer_or_equal in *. constructor; [lia|].
    eapply Forall_impl; [exact Hx|]. simpl. lia.
  - rewrite insert_longest_perm. constructor; [|done]. unfold longer_or_equal. lia.
Qed.

Lemma longest_first_sorted l : StronglySorted longer_or_equal (longest_first l).
Proof.
  unfold longest_first. cut (∀ acc, StronglySorted longer_or_equal acc →
    StronglySorted longer_or_equal (foldl (λ acc s, insert_longest s acc) acc l)).
  { intros H. apply H. constructor. }
  induction l as [|s l IH]; intros acc Hacc; [done|]. simpl. apply IH. by apply insert_longest_sorted.
Qed.

(** * What Secrets returns *)
Section secrets_spec.
Context `{L : GoLib}.

Lemma Secrets_cases text secrets s :
  s ∈ secrets → s ≠ [] → text ≠ [] →
  let ordered := longest_first (distinct_secrets secrets) in
  let text' := replaceSecrets text ordered in
  Secrets text secrets = redactedMessage
  ∨ Secrets text secrets = text'
    ∧ holdsUnaccountedCredential text' = false
    ∧ ∃ views, decodedViews text' = (views, true)
               ∧ ∀ v, v ∈ views → replaceSecrets v ordered = v.
Proof.
  intros Hs Hne Ht. cbv zeta. unfold Secrets.
  rewrite (bool_decide_false (secrets = [])) by (intros ->; set_solver).
  rewrite (bool_decide_false (text = [])) by done. cbn [orb].
  assert (distinct_secrets secrets ≠ []) as Hd.
  { intros E. assert (s ∈ distinct_secrets secrets) as Hin by (by apply distinct_secrets_elem).
    rewrite E in Hin. set_solver. }
  rewrite decide_False by done. destruct (_ && holdsPlaceholder text); [by left|].
  set (ordered := longest_first (distinct_secrets secrets)).
  set (text' := replaceSecrets text ordered).
  destruct (decodedViews text') as [views converged] eqn:Hv.
  destruct converged; [|by left]. cbn [negb].
  destruct (existsb _ views) eqn:He; [by left|].
  destruct (holdsUnaccountedCredential text') eqn:Hh; [by left|right].
  split_and!; [done|done|]. exists views. split; [done|]. intros v Hin.
  destruct (decide (replaceSecrets v ordered = v)) as [|Hne']; [done|].
  assert (existsb (λ view, negb (bool_decide (replaceSecrets view ordered = view))) views = true);
    [|congruence].
  apply existsb_elem. exists v. split; [done|]. by rewrite bool_decide_false.
Qed.

Context `{!GoLibLaws L}.

Lemma decodeOnce_nil : decodeOnce [] = [].
Proof. apply decodeOnce_plain; set_solver. Qed.

Lemma redactedMessage_views : decodedViews redactedMessage = ([], true).
Proof. apply decodedViews_plain; by apply byte_in_false. Qed.

Lemma redactedMessage_clean : holdsUnaccountedCredential redactedMessage = false.
Proof. unfold holdsUnaccountedCredential. rewrite redactedMessage_views. by vm_compute. Qed.

End secrets_spec.

(** A long secret is in no reading of the result. *)
Lemma Secrets_removes `{L : GoLib} (Hlaws : GoLibLaws L) text s secrets k :
  s ∈ secrets → shortSecretLen ≤ length s → unlike_placeholder s →
  Secrets text secrets = redactedMessage
  ∨ ¬ infix s (Nat.iter k decodeOnce (Secrets text secrets)).
Proof.
  intros Hin Hlen Hs.
  destruct (decide (text = [])) as [->|Ht].
  { right. assert (Secrets [] secrets = []) as ->.
    { unfold Secrets. by rewrite orb_true_r. }
    rewrite reading_fixed by apply decodeOnce_nil. intros Hi%infix_nil_inv. by destruct Hs. }
  destruct (Secrets_cases text secrets s) as [? | (-> & _ & views & Hv & Hall)];
    [done|apply Hs|done|by left|right].
  assert (s ∈ longest_first (distinct_secrets secrets)) as Ho.
  { rewrite longest_first_perm. apply distinct_secrets_elem. split; [done|apply Hs]. }
  pose proof (decode_passes_complete _ _ _ Hv k) as Hk.
  apply elem_of_cons in Hk as [-> | Hk]; [by apply replaceSecrets_removes|].
  rewrite <- (Hall _ Hk). by apply replaceSecrets_removes.
Qed.

(** * Properties *)

(** C2: what Secrets promises of a long secret. A configured secret of at least
    six bytes that is neither part of the placeholder nor able to overlap it is
    in the result in no form: not in the text, and not in any reading its
    escapings allow, however often it is decoded; otherwise the whole message
    is given up. *)
Theorem Secrets_removes_long `{L : GoLib} (Hlaws : GoLibLaws L)
    (text s : bytes) (secrets : list bytes) (k : nat)
    (Hin : s ∈ secrets) (Hlen : shortSecretLen ≤ length s) (Hs : unlike_placeholder s) :
  Secrets text secrets = redactedMessage
  ∨ ¬ infix s (Nat.iter k decodeOnce (Secrets text secrets)).
Proof. by apply Secrets_removes. Qed.

Lemma Secrets_removes_long_witness :
  #"tok&en12" ∈ [ #"1"; #"tok&en12"]
  ∧ shortSecretLen ≤ length #"tok&en12" ∧ unlike_placeholder #"tok&en12"
  ∧ Secrets #"sent tok&en12, attempt 12" [ #"1"; #"tok&en12"] = #"sent [redacted], attempt 12"
  ∧ Secrets #"sent tok&amp;amp;en12" [ #"1"; #"tok&en12"] = redactedMessage
  ∧ (Secrets #"sent tok&en12, attempt 12" [ #"1"; #"tok&en12"] = redactedMessage
     ∨ ¬ infix #"tok&en12"
         (Nat.iter 3 decodeOnce (Secrets #"sent tok&en12, attempt 12" [ #"1"; #"tok&en12"]))).
Proof.
  assert (H1 : #"tok&en12" ∈ [ #"1"; #"tok&en12"]) by (apply elem_of_cons; right; apply elem_of_cons; by left).
  assert (H2 : shortSecretLen ≤ length #"tok&en12") by (vm_compute; lia).
  assert (H3 : unlike_placeholder #"tok&en12").
  { split_and!; [done|by apply byte_in_false|by apply byte_in_false|].
    intros H%infixb_spec. by vm_compute in H. }
  split; [exact H1|]. split; [exact H2|]. split; [exact H3|].
  split; [by vm_compute|]. split; [by vm_compute|].
  exact (Secrets_removes_long sample_laws _ _ _ 3 H1 H2 H3).
Defined.

(** The post-condition of Secrets. Given at least one secret and a text, the
    result holds no HTTP credential the package can recognise, in any reading. *)
Theorem Secrets_no_recognised_credential `{L : GoLib} (Hlaws : GoLibLaws L)
    (text s : bytes) (secrets : list bytes)
    (Hin : s ∈ secrets) (Hs : s ≠ []) (Ht : text ≠ []) :
  holdsUnaccountedCredential (Secrets text secrets) = false.
Proof.
  destruct (Secrets_cases text secrets s Hin Hs Ht) as [-> | (-> & ? & _)]; [|done].
  apply redactedMessage_clean.
Qed.

Lemma Secrets_no_recognised_credential_witness :
  Secrets #"hdr Basic YWxpY2U6c2VjcmV0" [ #"x"] = redactedMessage
  ∧ holdsUnaccountedCredential (Secrets #"hdr Basic YWxpY2U6c2VjcmV0" [ #"x"]) = false.
Proof.
  split; [by vm_compute|].
  apply (Secrets_no_recognised_credential sample_laws _ #"x"); [by apply elem_of_cons; left|done|done].
Defined.

(** The list Secrets works from is the caller's, without empties and
    repeats, sorted longest first. *)
Theorem Secrets_order (secrets : list bytes) :
  let ordered := longest_first (distinct_secrets secrets) in
  NoDup ordered ∧ StronglySorted longer_or_equal ordered
  ∧ ∀ s, s ∈ ordered ↔ s ∈ secrets ∧ s ≠ [].
Proof.
  cbv zeta. split_and!.
  - rewrite longest_first_perm. apply distinct_secrets_NoDup.
  - apply longest_first_sorted.
  - intros s. rewrite longest_first_perm. apply distinct_secrets_elem.
Qed.

(** A credential the rule is meant to refuse and does not: the search for
    Basic credentials does not overlap, so a run of base64 bytes that ends in
    "/Basic" swallows the scheme name of the credential behind it. The same
    credential on its own is refused. *)
Theorem basic_credential_swallowed `{L : GoLib} (Hlaws : GoLibLaws L) :
  DecodeBase64 #"YWxpY2U6c2VjcmV0" = Some #"alice:secret"
  ∧ holdsUnaccountedCredential #"Basic YWxpY2U6c2VjcmV0" = true
  ∧ holdsUnaccountedCredential #"Basic AAAAAAA/Basic YWxpY2U6c2VjcmV0" = false.
Proof.
  split; [by vm_compute|].
  unfold holdsUnaccountedCredential.
  rewrite !decodedViews_plain by by apply byte_in_false. by vm_compute.
Qed.

Lemma basic_credential_swallowed_witness :
  holdsUnaccountedCredential #"Basic AAAAAAA/Basic YWxpY2U6c2VjcmV0" = false.
Proof. apply (basic_credential_swallowed sample_laws). Defined.
