(* ===== verification/Attribute.v ===== *)
(** OpenTelemetry attributes, as the SDK's own code reads them: a key and a
    value it compares and copies. *)
From S2P Require Import Prelude.

Inductive attr_value := StringValue (s : bytes) | IntValue (z : Z) | BoolValue (b : bool).
#[export] Instance attr_value_eq_dec : EqDecision attr_value.
Proof. solve_decision. Defined.
Abbreviation KeyValue := (bytes * attr_value)%type.
