(* ===== verification/MongoAddress.v ===== *)
(** mongo/connid.go and the address handling of mongo/pool_metrics.go: the
    connection identifier the driver hands out, the host and port of a server
    address, and the default pool name. *)
From S2P Require Import Prelude Utf8 GoStrings GoCodec SampleLib GoNum.

(** * Connection identifiers *)
Definition isConnectionCounter (s : bytes) : bool :=
  let s := TrimPrefix s #"-" in
  if bool_decide (s = []) then false else forallb is_digit s.

(** normalizeConnectionID: [open] is the position of the last bracket, so the
    part before it is empty exactly when open is not positive. *)
Definition normalizeConnectionID (id : bytes) : bytes :=
  match last id with
  | Some "]"%char =>
    match CutLast id "[" with
    | None => id
    | Some (address, suffix) =>
      if bool_decide (address = []) then id
      else if negb (isConnectionCounter (take (length suffix - 1) suffix)) then id
      else address
    end
  | _ => id
  end.

(** * Addresses *)
Record parsedAddress := { host : bytes; port : Z }.

Definition parsePort (portText : bytes) : Z :=
  match Atoi portText with
  | None => 0
  | Some p => if (p <=? 0)%Z then 0 else p
  end.

Definition parseAddress (address : bytes) : parsedAddress :=
  let address := TrimSpace address in
  if bool_decide (address = []) then {| host := []; port := 0 |}
  else
    match SplitHostPort address with
    | Some (h, portText) => {| host := Trim h #"[]"; port := parsePort portText |}
    | None =>
      let fallback := {| host := Trim address #"[]"; port := 0 |} in
      match CutLast address ":" with
      | Some (before, after) =>
        if negb (bool_decide (before = [])) && negb (bool_decide (after = []))
           && (Count address ":" =? 1)
        then {| host := before; port := parsePort after |}
        else fallback
      | None => fallback
      end
    end.

Definition poolKey (address : bytes) : bytes := TrimSpace address.

(** * The default pool name *)

(** [seq] is what defaultPoolNameSeq.Add(1) answers: the counter is advanced
    only when the caller gave no name. *)
Definition defaultPoolName (hosts : list bytes) (override : bytes) (seq : N) : bytes * N :=
  if negb (bool_decide (override = [])) then (override, seq)
  else
    let seq := (seq + 1)%N in
    let plain := #"mongo-" ++ dec seq in
    (match hosts with
     | h :: _ =>
       let parsed := host (parseAddress h) in
       if bool_decide (parsed = []) then plain else #"mongo-" ++ parsed ++ #"-" ++ dec seq
     | [] => plain
     end, seq).

(** * Facts *)
Lemma forallb_Forall (f : ascii → bool) s : forallb f s = true ↔ Forall (λ c, f c = true) s.
Proof.
  induction s as [|c s IH]; cbn [forallb]; [split; [constructor|done]|].
  rewrite andb_true_iff, IH. split; [intros []; by constructor|]. by intros H%Forall_cons_1.
Qed.

(** The suffix the driver appends: "[-%d]", or the same without the sign. *)
Definition connection_suffix (signed : bool) (n : N) : bytes :=
  #"[" ++ (if signed then #"-" else []) ++ dec n ++ #"]".

Lemma counter_dec signed n : isConnectionCounter ((if signed : bool then #"-" else []) ++ dec n) = true.
Proof.
  unfold isConnectionCounter, TrimPrefix. destruct (dec_cons n) as (c & s & E & Hc).
  assert (Hd : forallb is_digit (dec n) = true) by (apply forallb_Forall, dec_all).
  destruct signed.
  - change (prefixb #"-" ( #"-" ++ dec n)) with true. cbn [app list_ascii_of_string length drop].
    rewrite bool_decide_false; [done|]. by rewrite E.
  - cbn [app]. assert (prefixb #"-" (dec n) = false) as ->.
    { rewrite E. cbn. rewrite bool_decide_false; [done|]. intros <-. by vm_compute in Hc. }
    rewrite bool_decide_false; [done|]. by rewrite E.
Qed.

Lemma dec_no_byte n c : is_digit c = false → c ∉ dec n.
Proof. intros H Hin%dec_digit. congruence. Qed.

Lemma normalize_suffix address signed n :
  address ≠ [] → normalizeConnectionID (address ++ connection_suffix signed n) = address.
Proof.
  intros Hne. set (body := (if signed then #"-" else []) ++ dec n).
  assert (address ++ connection_suffix signed n = address ++ "["%char :: body ++ ["]"%char]) as ->.
  { unfold connection_suffix, body. destruct signed; by rewrite <- ?(assoc_L (++)). }
  unfold normalizeConnectionID.
  assert (last (address ++ "["%char :: body ++ ["]"%char]) = Some "]"%char) as ->.
  { rewrite app_comm_cons, (assoc_L (++)). apply last_snoc. }
  assert (CutLast (address ++ "["%char :: body ++ ["]"%char]) "[" = Some (address, body ++ ["]"%char])) as ->.
  { apply CutLast_spec. split; [done|]. unfold body.
    rewrite !elem_of_app. intros [[H|H]|H].
    - destruct signed; cbn in H; set_solver.
    - by apply (dec_no_byte n "["%char).
    - by apply list_elem_of_singleton in H. }
  rewrite bool_decide_false by done. rewrite length_app. cbn [length].
  rewrite Nat.add_sub, take_app_length. unfold body. by rewrite counter_dec.
Qed.

(** A host as it is written without brackets. *)
Definition plain_host (h : bytes) : Prop :=
  (∃ c t, h = c :: t ∧ ascii_visible c = true) ∧ ":"%char ∉ h ∧ "["%char ∉ h ∧ "]"%char ∉ h.

Lemma Trim_brackets h : "["%char ∉ h → "]"%char ∉ h → Trim h #"[]" = h.
Proof.
  intros H1 H2.
  assert (Hleft : ∀ s, "["%char ∉ s → "]"%char ∉ s → TrimLeft s #"[]" = s).
  { intros [|c s] Hl Hr; [done|]. cbn [TrimLeft].
    rewrite (proj2 (byte_in_false #"[]" c)); [done|].
    intros [->|[->|[]%elem_of_nil]%elem_of_cons]%elem_of_cons; set_solver. }
  unfold Trim, TrimRight. rewrite (Hleft h) by done.
  rewrite (Hleft (reverse h)) by (by rewrite elem_of_reverse).
  apply reverse_involutive.
Qed.

Lemma byte_in_absent (s : bytes) c : c ∉ s → byte_in s c = false.
Proof. apply byte_in_false. Qed.

Lemma dec_last n : ∃ d, last (dec n) = Some d ∧ is_digit d = true.
Proof.
  destruct (last (dec n)) as [d|] eqn:E.
  - exists d. split; [done|]. apply (dec_digit n). by apply last_Some_elem_of.
  - apply last_None in E. destruct (dec_cons n) as (c & s & E' & _). congruence.
Qed.

Lemma digit_visible d : is_digit d = true → ascii_visible d = true.
Proof. byte_cases d; done. Qed.

Lemma host_port_trim h n : plain_host h → TrimSpace (h ++ #":" ++ dec n) = h ++ #":" ++ dec n.
Proof.
  intros [(c & t & -> & Hc) _]. destruct (dec_last n) as (d & Hl & Hd).
  apply (TrimSpace_visible c d); [done|by apply digit_visible|].
  rewrite app_comm_cons. change ( #":" ++ dec n) with (":"%char :: dec n).
  rewrite last_app_cons. destruct (dec_cons n) as (e & s & E & _). rewrite E in *. exact Hl.
Qed.

Lemma parsePort_dec n : (0 < n)%N → (Z.of_N n < 2 ^ 63)%Z → parsePort (dec n) = Z.of_N n.
Proof.
  intros H0 H. unfold parsePort. rewrite Atoi_dec by done.
  by assert ((Z.of_N n <=? 0)%Z = false) as -> by lia.
Qed.

Lemma parseAddress_plain h n :
  plain_host h → (0 < n)%N → (Z.of_N n < 2 ^ 63)%Z →
  parseAddress (h ++ #":" ++ dec n) = {| host := h; port := Z.of_N n |}.
Proof.
  intros Hh H0 Hn. unfold parseAddress. rewrite host_port_trim by done.
  destruct Hh as [(c & t & -> & Hc) (Hcol & Hl & Hr)].
  rewrite bool_decide_false by done.
  assert (CutLast ((c :: t) ++ #":" ++ dec n) ":" = Some (c :: t, dec n)) as Hcut.
  { apply CutLast_spec. split; [done|]. by apply dec_no_byte. }
  assert (SplitHostPort ((c :: t) ++ #":" ++ dec n) = Some (c :: t, dec n)) as ->.
  { unfold SplitHostPort. rewrite Hcut. cbn [mbind option_bind].
    assert (c ≠ "["%char) as Hne by set_solver.
    assert (∀ e, e ∈ ["["; "]"]%char → byte_in ((c :: t) ++ #":" ++ dec n) e = false) as Hb.
    { intros e He. apply byte_in_absent. rewrite !elem_of_app.
      intros [H|[H%list_elem_of_singleton|H]].
      - set_solver.
      - set_solver.
      - revert H. apply dec_no_byte. set_solver. }
    rewrite (byte_in_absent _ ":") by done. rewrite !Hb by set_solver.
    cbn [orb]. cbn [app]. revert Hne. clear. byte_cases c; done. }
  by rewrite Trim_brackets, parsePort_dec.
Qed.

(** * Properties *)

(** The counter the driver appends to a connection identifier is taken off
    whatever the address is, and what is taken off is all there is: an
    identifier that does not end in a bracketed counter is left alone, bare
    IPv6 hosts and socket paths included. *)
Theorem normalizeConnectionID_spec (id : bytes) :
  (∀ address signed n, address ≠ [] → id = address ++ connection_suffix signed n →
     normalizeConnectionID id = address)
  ∧ (normalizeConnectionID id = id
     ∨ ∃ address counter, address ≠ [] ∧ isConnectionCounter counter = true
         ∧ id = address ++ #"[" ++ counter ++ #"]" ∧ normalizeConnectionID id = address).
Proof.
  split; [intros address signed n Hne ->; by apply normalize_suffix|].
  unfold normalizeConnectionID.
  destruct (last id) as [e|] eqn:Hlast; [|by left].
  destruct (decide (e = "]"%char)) as [->|Hne]; [|left; by repeat case_match].
  destruct (CutLast id "[") as [[address suffix]|] eqn:Hcut; [|by left].
  case_bool_decide as Ha; [by left|].
  destruct (isConnectionCounter (take (length suffix - 1) suffix)) eqn:Hc; [|by left].
  right. exists address, (take (length suffix - 1) suffix). split_and!; [done|done| |done].
  apply CutLast_spec in Hcut as [-> Hs]. rewrite last_app_cons in Hlast.
  apply last_Some in Hlast as [[|b s] E]; simplify_eq/=.
  by rewrite length_app, Nat.add_sub, take_app_length.
Qed.

(** The address labels of a server behind any number of connections. The
    identifier of a connection to host:port is read as that host and port, the
    counter the driver numbers it with gone, so the labels of a server do not
    depend on the connection. *)
Theorem connection_address_stable (h : bytes) (n counter : N) (signed : bool)
    (Hhost : plain_host h) (Hport : (0 < n)%N) (Hmax : (Z.of_N n < 2 ^ 63)%Z) :
  let address := h ++ #":" ++ dec n in
  parseAddress (normalizeConnectionID (address ++ connection_suffix signed counter))
  = {| host := h; port := Z.of_N n |}
  ∧ poolKey address = address.
Proof.
  cbv zeta. rewrite normalize_suffix.
  - split; [by apply parseAddress_plain|by apply host_port_trim].
  - destruct Hhost as [(c & t & -> & _) _]. done.
Qed.

Lemma connection_address_stable_witness :
  normalizeConnectionID #"db-1.internal:27018[-42]" = #"db-1.internal:27018"
  ∧ normalizeConnectionID #"[::1]" = #"[::1]"
  ∧ parseAddress #"[::1]:27017" = {| host := #"::1"; port := 27017 |}
  ∧ parseAddress (normalizeConnectionID (( #"db-1.internal" ++ #":" ++ dec 27018) ++ connection_suffix true 42))
    = {| host := #"db-1.internal"; port := 27018 |}.
Proof.
  split; [by vm_compute|]. split; [by vm_compute|]. split; [by vm_compute|].
  apply (connection_address_stable #"db-1.internal" 27018 42 true); [|lia|lia].
  split; [by eexists _, _|]. split_and!; by apply byte_in_false.
Defined.

Lemma digit_suffix_inj p q n m : "-"%char ∉ dec n → "-"%char ∉ dec m →
  p ++ "-"%char :: dec n = q ++ "-"%char :: dec m → p = q ∧ n = m.
Proof.
  intros Hn Hm E.
  assert (CutLast (p ++ "-"%char :: dec n) "-" = Some (p, dec n)) as H1 by by apply CutLast_spec.
  assert (CutLast (q ++ "-"%char :: dec m) "-" = Some (q, dec m)) as H2 by by apply CutLast_spec.
  rewrite E, H2 in H1. simplify_eq. split; [done|]. by apply dec_inj.
Qed.

Lemma defaultPoolName_shape hosts seq :
  ∃ p, (defaultPoolName hosts [] seq).1 = p ++ "-"%char :: dec (seq + 1).
Proof.
  unfold defaultPoolName. rewrite bool_decide_true by done. cbn [negb fst].
  destruct hosts as [|h hosts]; [by exists #"mongo"|].
  case_bool_decide; [by exists #"mongo"|].
  exists ( #"mongo-" ++ host (parseAddress h)). by rewrite <- !(assoc_L (++)).
Qed.

(** Two clients that leave the pool name to the package never share one,
    whatever hosts they are configured with; a name the caller gave is used as
    it is and takes no sequence number. *)
Theorem defaultPoolName_unique (hosts hosts' : list bytes) (seq seq' : N) (override : bytes) :
  (seq ≠ seq' → (defaultPoolName hosts [] seq).1 ≠ (defaultPoolName hosts' [] seq').1)
  ∧ (defaultPoolName hosts [] seq).2 = (seq + 1)%N
  ∧ (override ≠ [] → defaultPoolName hosts override seq = (override, seq)).
Proof.
  split_and!.
  - destruct (defaultPoolName_shape hosts seq) as [p ->].
    destruct (defaultPoolName_shape hosts' seq') as [q ->].
    intros Hne E. apply digit_suffix_inj in E as [_ E]; [lia|by apply dec_no_byte..].
  - done.
  - intros Ho. unfold defaultPoolName. by rewrite bool_decide_false.
Qed.
