(* ===== verification/MongoPool.v ===== *)
(** mongo/pool_metrics.go: the tracker that turns the driver's pool events into
    gauge deltas. The events reach [handle] one at a time, under the tracker's
    mutex; a run of the program is a list of them, and what it puts on a gauge
    is the sum of the deltas it emits. Counters of events and connections are
    unbounded integers; the pool sizes, which come from the configuration, keep
    their int64 wrap-around. *)
From S2P Require Import Prelude Utf8 GoStrings GoCodec SampleLib GoNum Attribute MongoAddress.

(** * What is emitted *)
Inductive instrument :=
  | ConnectionCount | IdleMin | ConnectionMax | PendingRequests | Timeouts | CreateTime.
#[export] Instance instrument_eq_dec : EqDecision instrument.
Proof. solve_decision. Defined.

Record emission := { on : instrument; delta : Z; labels : list KeyValue }.
Definition Add (i : instrument) (d : Z) (opts : list KeyValue) : list emission :=
  [{| on := i; delta := d; labels := opts |}].

Definition connection_state : bytes := #"db.client.connection.state".
Definition DBClientConnectionStateUsed : KeyValue := (connection_state, StringValue #"used").
Definition DBClientConnectionStateIdle : KeyValue := (connection_state, StringValue #"idle").

(** * liveConnections *)
Record liveConnections := { byID : gmap Z Z; total : Z }.
Definition newLiveConnections : liveConnections := {| byID := ∅; total := 0 |}.
Definition count_of (l : liveConnections) (id : Z) : Z := default 0%Z (byID l !! id).

Definition add (l : liveConnections) (id : Z) : liveConnections :=
  {| byID := <[id := (count_of l id + 1)%Z]> (byID l); total := (total l + 1)%Z |}.
Definition remove (l : liveConnections) (id : Z) : liveConnections * bool :=
  let n := count_of l id in
  if (n =? 0)%Z then (l, false)
  else ({| byID := if (n =? 1)%Z then delete id (byID l) else <[id := (n - 1)%Z]> (byID l);
           total := (total l - 1)%Z |}, true).

(** * poolState *)
Record poolState := {
  address : bytes; poolAddOpt : list KeyValue; usedAddOpt : list KeyValue; idleAddOpt : list KeyValue;
  ready : liveConnections; livePools : Z; pending : Z; emittedMin : Z; emittedMax : Z;
  checkedOut : liveConnections; seenCreated : bool; createdMin : Z; createdMax : Z;
}.
Definition set_connections (s : poolState) (r out : liveConnections) : poolState :=
  {| address := address s; poolAddOpt := poolAddOpt s; usedAddOpt := usedAddOpt s;
     idleAddOpt := idleAddOpt s; ready := r; livePools := livePools s; pending := pending s;
     emittedMin := emittedMin s; emittedMax := emittedMax s; checkedOut := out;
     seenCreated := seenCreated s; createdMin := createdMin s; createdMax := createdMax s |}.
Definition set_counters (s : poolState) (live pend : Z) : poolState :=
  {| address := address s; poolAddOpt := poolAddOpt s; usedAddOpt := usedAddOpt s;
     idleAddOpt := idleAddOpt s; ready := ready s; livePools := live; pending := pend;
     emittedMin := emittedMin s; emittedMax := emittedMax s; checkedOut := checkedOut s;
     seenCreated := seenCreated s; createdMin := createdMin s; createdMax := createdMax s |}.
Definition set_sizes (s : poolState) (min max cmin cmax : Z) : poolState :=
  {| address := address s; poolAddOpt := poolAddOpt s; usedAddOpt := usedAddOpt s;
     idleAddOpt := idleAddOpt s; ready := ready s; livePools := livePools s; pending := pending s;
     emittedMin := min; emittedMax := max; checkedOut := checkedOut s;
     seenCreated := true; createdMin := cmin; createdMax := cmax |}.

Definition addConnectionCount (d : Z) (opts : list KeyValue) : list emission :=
  if (d =? 0)%Z then [] else Add ConnectionCount d opts.

(** setOptions; the two sizes of event.MonitorPoolOptions are uint64. *)
Definition setOptions (s : poolState) (opts : option (Z * Z)) : poolState * list emission :=
  let sizes := match opts with
               | Some sizes => Some sizes
               | None => if seenCreated s then Some (createdMin s, createdMax s) else None
               end in
  match sizes with
  | None => (s, [])
  | Some (cmin, cmax) =>
    let minSize := wrap64 cmin in
    let dmin := wrap64 (minSize - emittedMin s) in
    let min_ems := if (dmin =? 0)%Z then [] else Add IdleMin dmin (poolAddOpt s) in
    let maxSize := wrap64 cmax in
    let dmax := wrap64 (maxSize - emittedMax s) in
    let max_ems :=
      if (maxSize =? 0)%Z
      then if (emittedMax s =? 0)%Z then []
           else Add ConnectionMax (wrap64 (- emittedMax s)) (poolAddOpt s)
      else if (dmax =? 0)%Z then [] else Add ConnectionMax dmax (poolAddOpt s) in
    (set_sizes s minSize maxSize cmin cmax, min_ems ++ max_ems)
  end.

Definition readyConnection (s : poolState) (id : Z) : poolState * list emission :=
  (set_connections s (add (ready s) id) (checkedOut s), addConnectionCount 1 (idleAddOpt s)).

Definition checkOutConnection (s : poolState) (id : Z) : poolState * list emission :=
  let wasIdle := (total (checkedOut s) <? total (ready s))%Z in
  (set_connections s (ready s) (add (checkedOut s) id),
   addConnectionCount 1 (usedAddOpt s)
   ++ if wasIdle then addConnectionCount (-1) (idleAddOpt s) else []).

Definition checkInConnection (s : poolState) (id : Z) : poolState * list emission :=
  let '(out, ok) := remove (checkedOut s) id in
  if negb ok then (s, [])
  else (set_connections s (ready s) out,
        addConnectionCount (-1) (usedAddOpt s) ++ addConnectionCount 1 (idleAddOpt s)).

Definition closeConnection (s : poolState) (id : Z) : poolState * list emission :=
  let '(r, ok) := remove (ready s) id in
  if negb ok then (s, [])
  else
    let '(out, was_out) := remove (checkedOut s) id in
    if was_out then (set_connections s r out, addConnectionCount (-1) (usedAddOpt s))
    else (set_connections s r out, addConnectionCount (-1) (idleAddOpt s)).

Definition decrementPending (s : poolState) : poolState * list emission :=
  if (pending s =? 0)%Z then (s, [])
  else (set_counters s (livePools s) (pending s - 1), Add PendingRequests (-1) (poolAddOpt s)).

Definition poolClosed (s : poolState) : poolState * bool :=
  let live := if (0 <? livePools s)%Z then (livePools s - 1)%Z else livePools s in
  (set_counters s live (pending s), (live =? 0)%Z).

Definition closePool (s : poolState) : list emission :=
  let used := total (checkedOut s) in
  let idle := (total (ready s) - used)%Z in
  (if (0 <? used)%Z then addConnectionCount (- used) (usedAddOpt s) else [])
  ++ (if (0 <? idle)%Z then addConnectionCount (- idle) (idleAddOpt s) else [])
  ++ (if (0 <? pending s)%Z then Add PendingRequests (- pending s) (poolAddOpt s) else [])
  ++ (if (emittedMin s =? 0)%Z then [] else Add IdleMin (wrap64 (- emittedMin s)) (poolAddOpt s))
  ++ (if (emittedMax s =? 0)%Z then [] else Add ConnectionMax (wrap64 (- emittedMax s)) (poolAddOpt s)).

(** * The tracker *)
Record poolTracker := { poolName : bytes; pools : gmap bytes poolState; disabled : bool }.
Definition newTracker (name : bytes) : poolTracker :=
  {| poolName := name; pools := ∅; disabled := false |}.

Definition appendAttribute (attrs : list KeyValue) (attr : KeyValue) : list KeyValue := attrs ++ [attr].
Definition tracker_attrs (t : poolTracker) (addr : bytes) : list KeyValue :=
  let parsed := parseAddress addr in
  [( #"db.system.name", StringValue #"mongodb");
   ( #"db.client.connection.pool.name", StringValue (poolName t))]
  ++ (if bool_decide (host parsed = []) then [] else [( #"server.address", StringValue (host parsed))])
  ++ (if (0 <? port parsed)%Z then [( #"server.port", IntValue (port parsed))] else []).

Definition fresh_state (t : poolTracker) (addr : bytes) : poolState :=
  let attrs := tracker_attrs t addr in
  {| address := addr; poolAddOpt := attrs;
     usedAddOpt := appendAttribute attrs DBClientConnectionStateUsed;
     idleAddOpt := appendAttribute attrs DBClientConnectionStateIdle;
     ready := newLiveConnections; livePools := 0; pending := 0; emittedMin := 0; emittedMax := 0;
     checkedOut := newLiveConnections; seenCreated := false; createdMin := 0; createdMax := 0 |}.
Definition state (t : poolTracker) (addr : bytes) : poolState :=
  default (fresh_state t addr) (pools t !! poolKey addr).

(** The driver's events; the ones handle has no case for are [OtherEvent]. *)
Inductive event_type :=
  | ConnectionPoolCreated | ConnectionPoolReady | ConnectionReady | ConnectionClosed
  | ConnectionCheckOutStarted | ConnectionCheckedOut | ConnectionCheckOutFailed
  | ConnectionCheckedIn | ConnectionPoolCleared | ConnectionPoolClosed | OtherEvent.
Record PoolEvent := {
  Type_ : event_type; Address : bytes; ConnectionID : Z; PoolOptions : option (Z * Z);
  Duration : Z; ReasonTimedOut : bool;
}.

(** The switch of handle, on the state of the event's pool: the new state, what
    is emitted, and whether the state is dropped. *)
Definition handle_event (s : poolState) (evt : PoolEvent) : poolState * list emission * bool :=
  match Type_ evt with
  | ConnectionPoolCreated =>
    (setOptions (set_counters s (livePools s + 1) (pending s)) (PoolOptions evt), false)
  | ConnectionPoolReady => (setOptions s (PoolOptions evt), false)
  | ConnectionReady => (readyConnection s (ConnectionID evt), false)
  | ConnectionClosed => (closeConnection s (ConnectionID evt), false)
  | ConnectionCheckOutStarted =>
    (set_counters s (livePools s) (pending s + 1), Add PendingRequests 1 (poolAddOpt s), false)
  | ConnectionCheckedOut =>
    let '(s1, ems1) := decrementPending s in
    let '(s2, ems2) := checkOutConnection s1 (ConnectionID evt) in (s2, ems1 ++ ems2, false)
  | ConnectionCheckOutFailed =>
    let '(s1, ems1) := decrementPending s in
    (s1, ems1 ++ (if ReasonTimedOut evt then Add Timeouts 1 (poolAddOpt s1) else []), false)
  | ConnectionCheckedIn => (checkInConnection s (ConnectionID evt), false)
  | ConnectionPoolCleared | OtherEvent => (s, [], false)
  | ConnectionPoolClosed =>
    let '(s1, last_pool) := poolClosed s in
    (s1, if last_pool then closePool s1 else [], last_pool)
  end.

(** handle; the creation time is recorded after the lock is released. *)
Definition handle (t : poolTracker) (evt : option PoolEvent) : poolTracker * list emission :=
  match evt with
  | None => (t, [])
  | Some e =>
    if disabled t then (t, [])
    else
      let key := poolKey (Address e) in
      let '(s, ems, drop) := handle_event (state t (Address e)) e in
      ({| poolName := poolName t; disabled := disabled t;
          pools := if drop : bool then delete key (pools t) else <[key := s]> (pools t) |},
       ems ++ match Type_ e with
              | ConnectionReady => Add CreateTime (Duration e) (poolAddOpt s)
              | _ => []
              end)
  end.
Definition cleanup (t : poolTracker) : poolTracker :=
  {| poolName := poolName t; pools := pools t; disabled := true |}.

(** A run over the events of all servers: the tracker it ends in, and what it
    emitted, each emission with the key of the pool it was emitted for. *)
Fixpoint run (t : poolTracker) (es : list PoolEvent) : poolTracker * list (bytes * emission) :=
  match es with
  | [] => (t, [])
  | e :: es' =>
    let '(t1, ems) := handle t (Some e) in
    let '(t2, trace) := run t1 es' in
    (t2, ((λ x, (poolKey (Address e), x)) <$> ems) ++ trace)
  end.
Definition emitted_at (key : bytes) (trace : list (bytes * emission)) : list emission :=
  snd <$> filter (λ p, p.1 = key) trace.

(** * Gauges *)
Definition gauge (p : emission → bool) (ems : list emission) : Z :=
  foldr (λ e acc, if p e then (delta e + acc)%Z else acc) 0%Z ems.
Definition on_state (attr : KeyValue) (e : emission) : bool :=
  bool_decide (on e = ConnectionCount) && bool_decide (last (labels e) = Some attr).
Definition used_gauge := gauge (on_state DBClientConnectionStateUsed).
Definition idle_gauge := gauge (on_state DBClientConnectionStateIdle).
Definition instrument_gauge (i : instrument) := gauge (λ e, bool_decide (on e = i)).

Lemma gauge_app p a b : gauge p (a ++ b) = (gauge p a + gauge p b)%Z.
Proof.
  unfold gauge. induction a as [|e a IH]; cbn [app foldr]; [lia|].
  destruct (p e); rewrite IH; lia.
Qed.

Lemma gauge_count p d opts :
  gauge p (addConnectionCount d opts)
  = if p {| on := ConnectionCount; delta := d; labels := opts |} then d else 0%Z.
Proof. unfold addConnectionCount. destruct (d =? 0)%Z eqn:E; cbn; destruct (p _); lia. Qed.

(** * liveConnections *)
Definition map_sum (m : gmap Z Z) : Z := map_fold (λ _ n acc, (n + acc)%Z) 0%Z m.

Lemma map_sum_empty : map_sum ∅ = 0%Z.
Proof. apply map_fold_empty. Qed.

Lemma map_sum_insert_None m i x : m !! i = None → map_sum (<[i:=x]> m) = (x + map_sum m)%Z.
Proof. intros H. unfold map_sum. rewrite map_fold_insert_L; [done| |done]. intros; lia. Qed.

Lemma map_sum_delete m i : map_sum m = (default 0 (m !! i) + map_sum (delete i m))%Z.
Proof.
  destruct (m !! i) as [x|] eqn:E; cbn.
  - rewrite <- (insert_delete_id m i x) at 1 by done. by rewrite map_sum_insert_None by apply lookup_delete_eq.
  - by rewrite delete_id.
Qed.

Lemma map_sum_insert m i x : map_sum (<[i:=x]> m) = (map_sum m - default 0 (m !! i) + x)%Z.
Proof.
  rewrite (map_sum_delete m i), <- insert_delete_eq, map_sum_insert_None by apply lookup_delete_eq. lia.
Qed.

(** The total is the number of entries counted, and no entry is zero or less. *)
Definition live_ok (l : liveConnections) : Prop :=
  total l = map_sum (byID l) ∧ ∀ i n, byID l !! i = Some n → (0 < n)%Z.

Lemma live_ok_new : live_ok newLiveConnections.
Proof. split; [symmetry; apply map_sum_empty|]. cbn. intros i n H. by rewrite lookup_empty in H. Qed.

Lemma count_nonneg l id : live_ok l → (0 ≤ count_of l id)%Z.
Proof.
  intros [_ H]. unfold count_of. destruct (byID l !! id) as [n|] eqn:E; cbn; [|lia].
  specialize (H _ _ E). lia.
Qed.

Lemma live_ok_add l id : live_ok l → live_ok (add l id).
Proof.
  intros Hl. pose proof (count_nonneg l id Hl). destruct Hl as [Ht Hp]. split.
  - cbn. rewrite map_sum_insert. unfold count_of. lia.
  - cbn. intros i n [[<- <-]|[_ Hi]]%lookup_insert_Some; [lia|by eapply Hp].
Qed.

Lemma count_of_add l id i : count_of (add l id) i = (count_of l i + if decide (i = id) then 1 else 0)%Z.
Proof.
  unfold count_of at 1. cbn. case_decide as E; [subst; by rewrite lookup_insert_eq|].
  rewrite lookup_insert_ne by done. unfold count_of. lia.
Qed.

Lemma remove_true l id : (remove l id).2 = true ↔ count_of l id ≠ 0%Z.
Proof. unfold remove. destruct (count_of l id =? 0)%Z eqn:E; cbn; lia || (split; [done|lia]). Qed.

Lemma remove_spec l id l' ok :
  live_ok l → remove l id = (l', ok) →
  live_ok l' ∧ total l' = (total l - if ok then 1 else 0)%Z
  ∧ (ok = true ↔ (0 < count_of l id)%Z)
  ∧ ∀ i, count_of l' i = (count_of l i - if ok && bool_decide (i = id) then 1 else 0)%Z.
Proof.
  intros Hl. pose proof (count_nonneg l id Hl) as Hn. unfold remove.
  destruct (count_of l id =? 0)%Z eqn:E0; intros [= <- <-].
  { split_and!; [done|lia|split; [done|lia]|intros; cbn; lia]. }
  destruct Hl as [Ht Hp]. split; [split|split_and!].
  - cbn. destruct (count_of l id =? 1)%Z eqn:E1.
    + pose proof (map_sum_delete (byID l) id) as Hd. unfold count_of in *. lia.
    + rewrite map_sum_insert. unfold count_of in *. lia.
  - cbn. destruct (count_of l id =? 1)%Z eqn:E1; intros i n.
    + intros [_ Hi]%lookup_delete_Some. by eapply Hp.
    + intros [[<- <-]|[_ Hi]]%lookup_insert_Some; [lia|by eapply Hp].
  - done.
  - split; [lia|done].
  - intros i. cbn. unfold count_of at 1. cbn.
    destruct (count_of l id =? 1)%Z eqn:E1; case_bool_decide as Hi.
    + subst. rewrite lookup_delete_eq. cbn. lia.
    + rewrite lookup_delete_ne by done. unfold count_of. lia.
    + subst. rewrite lookup_insert_eq. cbn. lia.
    + rewrite lookup_insert_ne by done. unfold count_of. lia.
Qed.

Lemma total_nonneg_map (m : gmap Z Z) : (∀ i n, m !! i = Some n → (0 < n)%Z) → (0 ≤ map_sum m)%Z.
Proof.
  induction m as [|i x m Hi IH] using map_ind; intros H; [by rewrite map_sum_empty|].
  rewrite map_sum_insert_None by done.
  assert (0 < x)%Z by (apply (H i); by rewrite lookup_insert_eq).
  assert (0 ≤ map_sum m)%Z; [|lia]. apply IH. intros j n Hj. apply (H j).
  rewrite lookup_insert_ne; [done|]. intros ->. congruence.
Qed.

Lemma total_nonneg l : live_ok l → (0 ≤ total l)%Z.
Proof. intros [-> H]. by apply total_nonneg_map. Qed.

Lemma map_sum_le (m1 m2 : gmap Z Z) :
  (∀ i n, m2 !! i = Some n → (0 < n)%Z) →
  (∀ i, default 0 (m1 !! i) ≤ default 0 (m2 !! i))%Z → (map_sum m1 ≤ map_sum m2)%Z.
Proof.
  revert m2. induction m1 as [|i x m1 Hi IH] using map_ind; intros m2 Hp Hle.
  { rewrite map_sum_empty. by apply total_nonneg_map. }
  rewrite map_sum_insert_None by done. rewrite (map_sum_delete m2 i).
  assert (map_sum m1 ≤ map_sum (delete i m2))%Z.
  { apply IH.
    - intros j n [_ Hj]%lookup_delete_Some. by eapply Hp.
    - intros j. destruct (decide (i = j)) as [<-|Hne].
      + by rewrite Hi, lookup_delete_eq.
      + specialize (Hle j). rewrite lookup_insert_ne in Hle by done. by rewrite lookup_delete_ne. }
  specialize (Hle i). rewrite lookup_insert_eq in Hle. cbn in *. lia.
Qed.

(** Every checked-out connection is a ready one. *)
Definition live_sub (out r : liveConnections) : Prop := ∀ id, (count_of out id ≤ count_of r id)%Z.

Lemma live_sub_total out r : live_ok out → live_ok r → live_sub out r → (total out ≤ total r)%Z.
Proof. intros [-> _] [-> Hp] H. by apply map_sum_le. Qed.

Lemma live_sub_strict out r id :
  live_ok out → live_ok r → live_sub out r → (count_of out id < count_of r id)%Z → (total out < total r)%Z.
Proof.
  intros Ho Hr Hsub Hlt.
  pose proof (live_sub_total (add out id) r (live_ok_add _ _ Ho) Hr) as H. cbn in H.
  assert (total out + 1 ≤ total r)%Z; [|lia]. apply H. intros i. rewrite count_of_add.
  specialize (Hsub i). case_decide; [subst; lia|lia].
Qed.

(** * The invariant of a pool state *)
Definition labels_ok (s : poolState) : Prop :=
  last (usedAddOpt s) = Some DBClientConnectionStateUsed
  ∧ last (idleAddOpt s) = Some DBClientConnectionStateIdle.
(** What the size gauges show is what was configured, at its width. *)
Definition sizes_ok (s : poolState) : Prop :=
  if seenCreated s then emittedMin s = wrap64 (createdMin s) ∧ emittedMax s = wrap64 (createdMax s)
  else emittedMin s = 0%Z ∧ emittedMax s = 0%Z.
Record pool_ok (s : poolState) : Prop := {
  pool_labels : labels_ok s;
  pool_ready : live_ok (ready s);
  pool_out : live_ok (checkedOut s);
  pool_pending : (0 ≤ pending s)%Z;
  pool_live : (0 ≤ livePools s)%Z;
  pool_sizes : sizes_ok s;
}.

(** What a state has on the gauges whose value it tracks, relative to another. *)
Record moves (s s' : poolState) (ems : list emission) : Prop := {
  moves_used : used_gauge ems = (total (checkedOut s') - total (checkedOut s))%Z;
  moves_pending : instrument_gauge PendingRequests ems = (pending s' - pending s)%Z;
  moves_min : eq64 (instrument_gauge IdleMin ems) (emittedMin s' - emittedMin s);
  moves_max : eq64 (instrument_gauge ConnectionMax ems) (emittedMax s' - emittedMax s);
}.

Lemma moves_refl s : moves s s [].
Proof. split; cbn; rewrite ?Z.sub_diag; done. Qed.

Lemma moves_trans s s1 s2 a b : moves s s1 a → moves s1 s2 b → moves s s2 (a ++ b).
Proof.
  intros [U1 P1 M1 X1] [U2 P2 M2 X2].
  split; unfold used_gauge, instrument_gauge in *; rewrite gauge_app.
  - rewrite U1, U2. lia.
  - rewrite P1, P2. lia.
  - rewrite M1, M2. apply eq_subrelation; [apply _|lia].
  - rewrite X1, X2. apply eq_subrelation; [apply _|lia].
Qed.

Section labelled.
Context (s : poolState) (Hs : labels_ok s).

Lemma used_gauge_used d : used_gauge (addConnectionCount d (usedAddOpt s)) = d.
Proof. unfold used_gauge. rewrite gauge_count. unfold on_state. cbn. by rewrite (proj1 Hs). Qed.
Lemma used_gauge_idle d : used_gauge (addConnectionCount d (idleAddOpt s)) = 0%Z.
Proof. unfold used_gauge. rewrite gauge_count. unfold on_state. cbn. by rewrite (proj2 Hs). Qed.
Lemma idle_gauge_used d : idle_gauge (addConnectionCount d (usedAddOpt s)) = 0%Z.
Proof. unfold idle_gauge. rewrite gauge_count. unfold on_state. cbn. by rewrite (proj1 Hs). Qed.
Lemma idle_gauge_idle d : idle_gauge (addConnectionCount d (idleAddOpt s)) = d.
Proof. unfold idle_gauge. rewrite gauge_count. unfold on_state. cbn. by rewrite (proj2 Hs). Qed.
End labelled.

Lemma instrument_gauge_count i d opts :
  i ≠ ConnectionCount → instrument_gauge i (addConnectionCount d opts) = 0%Z.
Proof. intros H. unfold instrument_gauge. rewrite gauge_count. cbn. by rewrite bool_decide_false by congruence. Qed.
Lemma used_gauge_Add i d l : i ≠ ConnectionCount → used_gauge (Add i d l) = 0%Z.
Proof. intros H. cbn. unfold on_state. cbn. by rewrite bool_decide_false by congruence. Qed.
Lemma idle_gauge_Add i d l : i ≠ ConnectionCount → idle_gauge (Add i d l) = 0%Z.
Proof. intros H. cbn. unfold on_state. cbn. by rewrite bool_decide_false by congruence. Qed.
Lemma instrument_gauge_same i d l : instrument_gauge i (Add i d l) = d.
Proof. cbn. rewrite bool_decide_true by done. lia. Qed.
Lemma instrument_gauge_other i j d l : i ≠ j → instrument_gauge i (Add j d l) = 0%Z.
Proof. intros H. cbn. by rewrite bool_decide_false by congruence. Qed.
Lemma used_gauge_app a b : used_gauge (a ++ b) = (used_gauge a + used_gauge b)%Z.
Proof. apply gauge_app. Qed.
Lemma idle_gauge_app a b : idle_gauge (a ++ b) = (idle_gauge a + idle_gauge b)%Z.
Proof. apply gauge_app. Qed.
Lemma instrument_gauge_app i a b :
  instrument_gauge i (a ++ b) = (instrument_gauge i a + instrument_gauge i b)%Z.
Proof. apply gauge_app. Qed.
Lemma used_gauge_nil : used_gauge [] = 0%Z.
Proof. done. Qed.
Lemma idle_gauge_nil : idle_gauge [] = 0%Z.
Proof. done. Qed.
Lemma instrument_gauge_nil i : instrument_gauge i [] = 0%Z.
Proof. done. Qed.

Create HintDb gauges.
#[export] Hint Rewrite used_gauge_app idle_gauge_app instrument_gauge_app used_gauge_nil idle_gauge_nil
  instrument_gauge_nil instrument_gauge_same : gauges.
#[export] Hint Rewrite used_gauge_used used_gauge_idle idle_gauge_used idle_gauge_idle
  instrument_gauge_count used_gauge_Add idle_gauge_Add instrument_gauge_other using done : gauges.

Lemma eq64_eq x y : x = y → eq64 x y.
Proof. by intros ->. Qed.

(** Closes the four goals of [moves] once the gauges are read. *)
Ltac solve_moves := split; autorewrite with gauges; cbn; try apply eq64_eq; lia.

(** * Each operation keeps the invariant and books what it moves *)
Definition books (s : poolState) (res : poolState * list emission) : Prop :=
  pool_ok s → pool_ok res.1 ∧ moves s res.1 res.2.

(** A size gauge moves by the difference, or not at all when there is none. *)
Definition size_delta (i : instrument) (d : Z) (l : list KeyValue) : list emission :=
  if (d =? 0)%Z then [] else Add i d l.

Lemma size_delta_gauge i d l : instrument_gauge i (size_delta i d l) = d.
Proof.
  unfold size_delta. destruct (d =? 0)%Z eqn:E; [cbn; lia|].
  apply instrument_gauge_same.
Qed.
Lemma size_delta_other i j d l : i ≠ j → instrument_gauge i (size_delta j d l) = 0%Z.
Proof.
  intros H. unfold size_delta. destruct (d =? 0)%Z; [done|].
  by apply instrument_gauge_other.
Qed.
Lemma size_delta_used i d l : i ≠ ConnectionCount → used_gauge (size_delta i d l) = 0%Z.
Proof. intros H. unfold size_delta. destruct (d =? 0)%Z; [done|by apply used_gauge_Add]. Qed.
Lemma size_delta_idle i d l : i ≠ ConnectionCount → idle_gauge (size_delta i d l) = 0%Z.
Proof. intros H. unfold size_delta. destruct (d =? 0)%Z; [done|by apply idle_gauge_Add]. Qed.
#[export] Hint Rewrite size_delta_gauge : gauges.
#[export] Hint Rewrite size_delta_other size_delta_used size_delta_idle using done : gauges.

(** Taking a size off the gauge is moving it by its opposite. *)
Lemma size_off_eq i e l : e = wrap64 e →
  (if (e =? 0)%Z then [] else Add i (wrap64 (- e)) l) = size_delta i (wrap64 (- e)) l.
Proof.
  intros He. unfold size_delta. destruct (e =? 0)%Z eqn:E.
  { assert (e = 0%Z) as -> by lia. done. }
  destruct (wrap64 (- e) =? 0)%Z eqn:E'; [|done].
  assert (eq64 (- e) 0) as H by (apply eq64_wrap; by apply Z.eqb_eq).
  assert (eq64 e 0) as H'%eq64_wrap by (destruct H as [k Hk]; exists (- k)%Z; lia).
  rewrite <- He in H'. change (wrap64 0) with 0%Z in H'. lia.
Qed.

Lemma sizes_wrapped s : sizes_ok s → emittedMin s = wrap64 (emittedMin s) ∧ emittedMax s = wrap64 (emittedMax s).
Proof.
  unfold sizes_ok. destruct (seenCreated s); intros [-> ->]; [|done].
  by rewrite !wrap64_idem.
Qed.

(** setOptions, once the sizes are known. *)
Lemma setOptions_sizes s opts cmin cmax :
  sizes_ok s →
  match opts with
  | Some sizes => Some sizes
  | None => if seenCreated s then Some (createdMin s, createdMax s) else None
  end = Some (cmin, cmax) →
  setOptions s opts
  = (set_sizes s (wrap64 cmin) (wrap64 cmax) cmin cmax,
     size_delta IdleMin (wrap64 (wrap64 cmin - emittedMin s)) (poolAddOpt s)
     ++ size_delta ConnectionMax (wrap64 (wrap64 cmax - emittedMax s)) (poolAddOpt s)).
Proof.
  intros Hs E. unfold setOptions. rewrite E. cbv zeta. do 2 f_equal.
  destruct (wrap64 cmax =? 0)%Z eqn:E0; [|done].
  assert (wrap64 cmax = 0%Z) as -> by lia.
  change (0 - emittedMax s)%Z with (- emittedMax s)%Z.
  by apply size_off_eq, sizes_wrapped.
Qed.

Lemma setOptions_books s opts : books s (setOptions s opts).
Proof.
  intros Hok. pose proof Hok as [Hl Hr Ho Hp Hlive Hs].
  destruct (match opts with Some sizes => Some sizes
            | None => if seenCreated s then Some (createdMin s, createdMax s) else None end)
    as [[cmin cmax]|] eqn:E.
  - rewrite (setOptions_sizes _ _ _ _ Hs E). split; [by split|].
    split; cbn [fst snd set_sizes checkedOut pending emittedMin emittedMax]; autorewrite with gauges; try lia.
    + rewrite wrap64_eq64. apply eq64_eq. lia.
    + rewrite wrap64_eq64. apply eq64_eq. lia.
  - unfold setOptions. rewrite E. split; [done|apply moves_refl].
Qed.

(** A state that differs in its connections only. *)
Lemma pool_ok_connections s r out :
  pool_ok s → live_ok r → live_ok out → pool_ok (set_connections s r out).
Proof. intros []. by split. Qed.

Lemma pool_ok_counters s live pend :
  pool_ok s → (0 ≤ live)%Z → (0 ≤ pend)%Z → pool_ok (set_counters s live pend).
Proof. intros []. by split. Qed.

Lemma readyConnection_books s id : books s (readyConnection s id).
Proof.
  intros H. pose proof (pool_labels _ H). split.
  - apply pool_ok_connections; [done|apply live_ok_add|]; apply H.
  - cbn [readyConnection fst snd]. solve_moves.
Qed.

Lemma checkOutConnection_books s id : books s (checkOutConnection s id).
Proof.
  intros H. pose proof (pool_labels _ H). split.
  - apply pool_ok_connections; [done| |apply live_ok_add]; apply H.
  - cbn [checkOutConnection fst snd]. destruct (_ <? _)%Z; solve_moves.
Qed.

Lemma checkInConnection_books s id : books s (checkInConnection s id).
Proof.
  intros H. pose proof (pool_labels _ H). unfold checkInConnection.
  destruct (remove (checkedOut s) id) as [out ok] eqn:Hr.
  apply remove_spec in Hr as (Hout & Ht & _ & _); [|apply H].
  destruct ok; cbn [negb]; [|split; [done|apply moves_refl]]. split.
  - apply pool_ok_connections; [done|apply H|done].
  - cbn [fst snd]. solve_moves.
Qed.

Lemma closeConnection_books s id : books s (closeConnection s id).
Proof.
  intros H. pose proof (pool_labels _ H). unfold closeConnection.
  destruct (remove (ready s) id) as [r ok] eqn:Hr.
  apply remove_spec in Hr as (Hrok & _ & _ & _); [|apply H].
  destruct ok; cbn [negb]; [|split; [done|apply moves_refl]].
  destruct (remove (checkedOut s) id) as [out was_out] eqn:Ho.
  apply remove_spec in Ho as (Hout & Ht & _ & _); [|apply H].
  destruct was_out; (split; [by apply pool_ok_connections|cbn [fst snd]; solve_moves]).
Qed.

Lemma decrementPending_books s : books s (decrementPending s).
Proof.
  intros H. unfold decrementPending. pose proof (pool_pending _ H) as Hp.
  destruct (pending s =? 0)%Z eqn:E; [split; [done|apply moves_refl]|]. split.
  - apply pool_ok_counters; [done|apply H|lia].
  - cbn [fst snd]. solve_moves.
Qed.

(** What closing the last pool leaves: the state's books are emptied. *)
Record emptied (s : poolState) (ems : list emission) : Prop := {
  emptied_used : used_gauge ems = (- total (checkedOut s))%Z;
  emptied_pending : instrument_gauge PendingRequests ems = (- pending s)%Z;
  emptied_min : eq64 (instrument_gauge IdleMin ems) (- emittedMin s);
  emptied_max : eq64 (instrument_gauge ConnectionMax ems) (- emittedMax s);
}.

Lemma closePool_empties s : pool_ok s → emptied s (closePool s).
Proof.
  intros H. pose proof (pool_labels _ H). pose proof (total_nonneg _ (pool_out _ H)).
  pose proof (pool_pending _ H). destruct (sizes_wrapped s (pool_sizes _ H)) as [Emin Emax].
  unfold closePool. cbv zeta. rewrite !size_off_eq by done.
  split; destruct (0 <? total (checkedOut s))%Z eqn:E1; destruct (0 <? _ - _)%Z;
    destruct (0 <? pending s)%Z eqn:E2; autorewrite with gauges; cbn;
    rewrite ?wrap64_eq64; try apply eq64_eq; lia.
Qed.

(** The idle side of closePool is unwound when it is not negative. *)
Lemma closePool_idle s :
  pool_ok s → (total (checkedOut s) ≤ total (ready s))%Z →
  idle_gauge (closePool s) = (total (checkedOut s) - total (ready s))%Z.
Proof.
  intros H Hle. pose proof (pool_labels _ H).
  destruct (sizes_wrapped s (pool_sizes _ H)) as [Emin Emax].
  unfold closePool. cbv zeta. rewrite !size_off_eq by done.
  destruct (0 <? total (checkedOut s))%Z eqn:E1; destruct (0 <? _ - _)%Z eqn:E3;
    destruct (0 <? pending s)%Z eqn:E2; autorewrite with gauges; lia.
Qed.

(** * The tracker *)

(** What a pool that may or may not have a state has on the gauges. *)
Definition booked (f : poolState → Z) (o : option poolState) : Z := match o with Some s => f s | None => 0 end.
Record moved (o o' : option poolState) (ems : list emission) : Prop := {
  moved_used : used_gauge ems = (booked (total ∘ checkedOut) o' - booked (total ∘ checkedOut) o)%Z;
  moved_pending : instrument_gauge PendingRequests ems = (booked pending o' - booked pending o)%Z;
  moved_min : eq64 (instrument_gauge IdleMin ems) (booked emittedMin o' - booked emittedMin o);
  moved_max : eq64 (instrument_gauge ConnectionMax ems) (booked emittedMax o' - booked emittedMax o);
}.

Lemma moved_refl o : moved o o [].
Proof. split; cbn; rewrite ?Z.sub_diag; done. Qed.

Lemma moved_trans o o1 o2 a b : moved o o1 a → moved o1 o2 b → moved o o2 (a ++ b).
Proof.
  intros [U1 P1 M1 X1] [U2 P2 M2 X2]. split; autorewrite with gauges.
  - rewrite U1, U2. lia.
  - rewrite P1, P2. lia.
  - rewrite M1, M2. apply eq64_eq. lia.
  - rewrite X1, X2. apply eq64_eq. lia.
Qed.

Definition tracker_ok (t : poolTracker) : Prop := ∀ k s, pools t !! k = Some s → pool_ok s.

Lemma fresh_ok t a : pool_ok (fresh_state t a).
Proof.
  split; try done; try apply live_ok_new. split; cbn [usedAddOpt idleAddOpt fresh_state];
    unfold appendAttribute; apply last_snoc.
Qed.

Lemma state_ok t a : tracker_ok t → pool_ok (state t a).
Proof.
  intros Ht. unfold state. destruct (pools t !! poolKey a) as [s|] eqn:E; [by eapply Ht|apply fresh_ok].
Qed.

Lemma state_booked t a (f : poolState → Z) :
  f (fresh_state t a) = 0%Z → f (state t a) = booked f (pools t !! poolKey a).
Proof. intros H. unfold state. by destruct (pools t !! poolKey a). Qed.

Lemma handle_event_books s e : pool_ok s →
  let '(s', ems, drop) := handle_event s e in
  pool_ok s' ∧ if drop : bool then emptied s ems else moves s s' ems.
Proof.
  intros H. pose proof (pool_pending _ H) as Hp0. pose proof (pool_live _ H) as Hl0.
  pose proof (pool_labels _ H) as Hlab. unfold handle_event.
  destruct (Type_ e); try (by split; [|apply moves_refl]).
  - pose proof (setOptions_books (set_counters s (livePools s + 1) (pending s)) (PoolOptions e)) as Hb.
    destruct (setOptions _ _) as [s' ems]. destruct Hb as [? Hm].
    { apply pool_ok_counters; [done|lia|done]. }
    split; [done|]. destruct Hm. by split.
  - pose proof (setOptions_books s (PoolOptions e) H) as Hb. by destruct (setOptions _ _).
  - exact (readyConnection_books s (ConnectionID e) H).
  - pose proof (closeConnection_books s (ConnectionID e) H) as Hb. by destruct (closeConnection _ _).
  - split; [apply pool_ok_counters; [done..|lia]|]. solve_moves.
  - pose proof (decrementPending_books s H) as Hb. destruct (decrementPending s) as [s1 ems1].
    destruct Hb as [H1 M1]. cbn [fst snd] in *.
    pose proof (checkOutConnection_books s1 (ConnectionID e) H1) as Hb2.
    destruct (checkOutConnection s1 _) as [s2 ems2]. destruct Hb2 as [H2 M2].
    split; [done|]. by eapply moves_trans.
  - pose proof (decrementPending_books s H) as Hb. destruct (decrementPending s) as [s1 ems1].
    destruct Hb as [H1 M1]. cbn [fst snd] in *. split; [done|].
    eapply moves_trans; [exact M1|]. destruct (ReasonTimedOut e); solve_moves.
  - pose proof (checkInConnection_books s (ConnectionID e) H) as Hb. by destruct (checkInConnection _ _).
  - unfold poolClosed. set (live := if (0 <? livePools s)%Z then _ else _).
    assert (pool_ok (set_counters s live (pending s))) as H'.
    { apply pool_ok_counters; [done| |done]. unfold live. destruct (0 <? livePools s)%Z eqn:E; lia. }
    destruct (live =? 0)%Z; split; try done.
    + destruct (closePool_empties _ H'). by split.
    + split; cbn; rewrite ?Z.sub_diag; done.
Qed.

Lemma create_time_gauges e (s : poolState) :
  let ems := match Type_ e with ConnectionReady => Add CreateTime (Duration e) (poolAddOpt s) | _ => [] end in
  used_gauge ems = 0%Z ∧ idle_gauge ems = 0%Z ∧ instrument_gauge PendingRequests ems = 0%Z
  ∧ instrument_gauge IdleMin ems = 0%Z ∧ instrument_gauge ConnectionMax ems = 0%Z.
Proof. cbv zeta. destruct (Type_ e); autorewrite with gauges; done. Qed.

Lemma handle_own t e : tracker_ok t →
  let '(t', ems) := handle t (Some e) in
  let key := poolKey (Address e) in
  tracker_ok t' ∧ moved (pools t !! key) (pools t' !! key) ems
  ∧ ∀ k, k ≠ key → pools t' !! k = pools t !! k.
Proof.
  intros Ht. cbn [handle]. destruct (disabled t); [split_and!; [done|apply moved_refl|done]|].
  pose proof (handle_event_books (state t (Address e)) e (state_ok _ _ Ht)) as Hb.
  destruct (handle_event _ _) as [[s ems] drop]. destruct Hb as [Hs Hm]. cbn [pools].
  destruct (create_time_gauges e s) as (Cu & _ & Cp & Cmin & Cmax).
  split_and!.
  - intros k s'. cbn [pools]. destruct drop.
    + intros [_ Hk]%lookup_delete_Some. by eapply Ht.
    + intros [[_ <-]|[_ Hk]]%lookup_insert_Some; [done|by eapply Ht].
  - destruct drop.
    + rewrite lookup_delete_eq. destruct Hm as [Hu Hp Hmin Hmax].
      split; autorewrite with gauges; cbn [booked].
      * rewrite Hu, Cu, <- (state_booked t (Address e) (total ∘ checkedOut)) by done. cbn. lia.
      * rewrite Hp, Cp, <- (state_booked t (Address e) pending) by done. lia.
      * rewrite Hmin, Cmin, <- (state_booked t (Address e) emittedMin) by done. apply eq64_eq. lia.
      * rewrite Hmax, Cmax, <- (state_booked t (Address e) emittedMax) by done. apply eq64_eq. lia.
    + rewrite lookup_insert_eq. destruct Hm as [Hu Hp Hmin Hmax].
      split; autorewrite with gauges.
      * rewrite Hu, Cu, <- (state_booked t (Address e) (total ∘ checkedOut)) by done. cbn. lia.
      * rewrite Hp, Cp, <- (state_booked t (Address e) pending) by done. cbn. lia.
      * rewrite Hmin, Cmin, <- (state_booked t (Address e) emittedMin) by done. apply eq64_eq. cbn. lia.
      * rewrite Hmax, Cmax, <- (state_booked t (Address e) emittedMax) by done. apply eq64_eq. cbn. lia.
  - intros k Hk. destruct drop; [by rewrite lookup_delete_ne|by rewrite lookup_insert_ne].
Qed.

Lemma emitted_at_own key ems trace :
  emitted_at key (((λ x, (key, x)) <$> ems) ++ trace) = ems ++ emitted_at key trace.
Proof.
  unfold emitted_at. rewrite filter_app, fmap_app. f_equal.
  induction ems as [|x ems IH]; [done|]. cbn [fmap list_fmap].
  rewrite filter_cons_True by done. cbn [fmap list_fmap]. by f_equal.
Qed.

Lemma emitted_at_other key key' (ems : list emission) trace :
  key ≠ key' → emitted_at key (((λ x, (key', x)) <$> ems) ++ trace) = emitted_at key trace.
Proof.
  intros H. unfold emitted_at. rewrite filter_app, fmap_app.
  assert (filter (λ p : bytes * emission, p.1 = key) ((λ x, (key', x)) <$> ems) = []) as ->; [|done].
  induction ems as [|x ems IH]; [done|]. cbn [fmap list_fmap]. by rewrite filter_cons_False by (cbn; congruence).
Qed.

Lemma run_moved t es key : tracker_ok t →
  let '(t', trace) := run t es in
  tracker_ok t' ∧ moved (pools t !! key) (pools t' !! key) (emitted_at key trace).
Proof.
  revert t. induction es as [|e es IH]; intros t Ht; cbn [run].
  { split; [done|]. apply moved_refl. }
  pose proof (handle_own t e Ht) as Hh. destruct (handle t (Some e)) as [t1 ems].
  destruct Hh as (Ht1 & Hm & Hother). specialize (IH t1 Ht1).
  destruct (run t1 es) as [t2 trace]. destruct IH as [Ht2 Hm2]. split; [done|].
  destruct (decide (key = poolKey (Address e))) as [->|Hne].
  - rewrite emitted_at_own. by eapply moved_trans.
  - rewrite emitted_at_other by done. by rewrite <- (Hother key Hne).
Qed.

(** * The idle gauge *)
Definition idle_of (s : poolState) : Z := (total (ready s) - total (checkedOut s))%Z.
Definition idle_ok (s : poolState) : Prop := live_sub (checkedOut s) (ready s).

(** A checkout is of a connection the state knows: one more of that number is
    ready than is checked out. *)
Definition event_known (s : poolState) (e : PoolEvent) : bool :=
  match Type_ e with
  | ConnectionCheckedOut => (count_of (checkedOut s) (ConnectionID e) <? count_of (ready s) (ConnectionID e))%Z
  | _ => true
  end.
Fixpoint well_paired (t : poolTracker) (es : list PoolEvent) : bool :=
  match es with
  | [] => true
  | e :: es' => event_known (state t (Address e)) e && well_paired (handle t (Some e)).1 es'
  end.

Definition idles (s : poolState) (res : poolState * list emission) : Prop :=
  idle_ok res.1 ∧ idle_gauge res.2 = (idle_of res.1 - idle_of s)%Z.

Lemma idles_same s s' ems :
  ready s' = ready s → checkedOut s' = checkedOut s → idle_ok s → idle_gauge ems = 0%Z → idles s (s', ems).
Proof. intros Hr Ho H E. unfold idles, idle_ok, idle_of. cbn [fst snd]. rewrite Hr, Ho, E. split; [done|lia]. Qed.

Lemma setOptions_idles s opts : pool_ok s → idle_ok s → idles s (setOptions s opts).
Proof.
  intros H Hi. destruct (match opts with Some sizes => Some sizes
            | None => if seenCreated s then Some (createdMin s, createdMax s) else None end)
    as [[cmin cmax]|] eqn:E.
  - rewrite (setOptions_sizes _ _ _ _ (pool_sizes _ H) E). apply idles_same; try done.
    autorewrite with gauges. lia.
  - unfold setOptions. rewrite E. by apply idles_same.
Qed.

Lemma readyConnection_idles s id : pool_ok s → idle_ok s → idles s (readyConnection s id).
Proof.
  intros H Hi. pose proof (pool_labels _ H). split; cbn [readyConnection fst snd].
  - intros i. specialize (Hi i). cbn [ready checkedOut set_connections].
    rewrite count_of_add. case_decide; lia.
  - autorewrite with gauges. unfold idle_of. cbn. lia.
Qed.

Lemma checkOutConnection_idles s id : pool_ok s → idle_ok s →
  (count_of (checkedOut s) id < count_of (ready s) id)%Z → idles s (checkOutConnection s id).
Proof.
  intros H Hi Hlt. pose proof (pool_labels _ H). split; cbn [checkOutConnection fst snd].
  - intros i. specialize (Hi i). cbn [ready checkedOut set_connections].
    rewrite count_of_add. case_decide; [subst; lia|lia].
  - pose proof (live_sub_strict _ _ id (pool_out _ H) (pool_ready _ H) Hi Hlt).
    assert ((total (checkedOut s) <? total (ready s))%Z = true) as -> by lia.
    autorewrite with gauges. unfold idle_of. cbn. lia.
Qed.

Lemma checkInConnection_idles s id : pool_ok s → idle_ok s → idles s (checkInConnection s id).
Proof.
  intros H Hi. pose proof (pool_labels _ H). unfold checkInConnection.
  destruct (remove (checkedOut s) id) as [out ok] eqn:Hr.
  apply remove_spec in Hr as (_ & Ht & _ & Hc); [|apply H].
  destruct ok; cbn [negb]; [|by apply idles_same]. split; cbn [fst snd].
  - intros i. specialize (Hi i). cbn [ready checkedOut set_connections]. rewrite Hc.
    destruct (_ && _); lia.
  - autorewrite with gauges. unfold idle_of. cbn. lia.
Qed.

Lemma closeConnection_idles s id : pool_ok s → idle_ok s → idles s (closeConnection s id).
Proof.
  intros H Hi. pose proof (pool_labels _ H). unfold closeConnection.
  destruct (remove (ready s) id) as [r ok] eqn:Hr.
  apply remove_spec in Hr as (_ & Htr & Hokr & Hcr); [|apply H].
  destruct ok; cbn [negb]; [|by apply idles_same].
  destruct (remove (checkedOut s) id) as [out was_out] eqn:Ho.
  apply remove_spec in Ho as (_ & Hto & Hoko & Hco); [|apply H].
  assert (0 < count_of (ready s) id)%Z by by apply Hokr.
  assert (live_sub out r) as Hsub.
  { intros i. rewrite Hcr, Hco. specialize (Hi i). cbn [andb].
    pose proof (count_nonneg _ i (pool_out _ H)).
    case_bool_decide; [subst|rewrite andb_false_r; lia].
    destruct was_out; cbn [andb]; [lia|].
    assert (¬ (0 < count_of (checkedOut s) id)%Z) by (rewrite <- Hoko; done). lia. }
  destruct was_out; (split; [done|]); cbn [fst snd]; autorewrite with gauges; unfold idle_of; cbn; lia.
Qed.

Lemma decrementPending_idles s : idle_ok s → idles s (decrementPending s).
Proof. intros Hi. unfold decrementPending. destruct (_ =? 0)%Z; by apply idles_same. Qed.

Lemma handle_event_idles s e : pool_ok s → idle_ok s → event_known s e = true →
  let '(s', ems, drop) := handle_event s e in
  if drop : bool then idle_gauge ems = (- idle_of s)%Z else idles s (s', ems).
Proof.
  intros H Hi Hk. pose proof (pool_pending _ H) as Hp. pose proof (pool_live _ H) as Hl.
  unfold handle_event. unfold event_known in Hk. destruct (Type_ e); try by apply idles_same.
  - pose proof (setOptions_idles (set_counters s (livePools s + 1) (pending s)) (PoolOptions e)) as Hb.
    destruct (setOptions _ _) as [s' ems]. apply Hb; [|done]. apply pool_ok_counters; [done|lia|done].
  - pose proof (setOptions_idles s (PoolOptions e) H Hi) as Hb. by destruct (setOptions _ _).
  - by apply readyConnection_idles.
  - pose proof (closeConnection_idles s (ConnectionID e) H Hi) as Hb. by destruct (closeConnection _ _).
  - pose proof (decrementPending_idles s Hi) as Hb. pose proof (decrementPending_books s H) as [H1 _].
    assert (ready (decrementPending s).1 = ready s ∧ checkedOut (decrementPending s).1 = checkedOut s)
      as [Er Eo] by (unfold decrementPending; by destruct (_ =? 0)%Z).
    destruct (decrementPending s) as [s1 ems1]. cbn [fst] in *. destruct Hb as [Hi1 E1].
    pose proof (checkOutConnection_idles s1 (ConnectionID e) H1 Hi1) as Hb2. rewrite Er, Eo in Hb2.
    destruct (checkOutConnection s1 _) as [s2 ems2]. destruct Hb2 as [Hi2 E2]; [lia|].
    split; [done|]. cbn [fst snd] in *. autorewrite with gauges. lia.
  - pose proof (decrementPending_idles s Hi) as Hb. destruct (decrementPending s) as [s1 ems1].
    destruct Hb as [Hi1 E1]. split; [done|]. cbn [fst snd] in *.
    destruct (ReasonTimedOut e); autorewrite with gauges; lia.
  - pose proof (checkInConnection_idles s (ConnectionID e) H Hi) as Hb. by destruct (checkInConnection _ _).
  - unfold poolClosed. set (live := if (0 <? livePools s)%Z then _ else _).
    destruct (live =? 0)%Z eqn:E; [|by apply idles_same].
    assert (pool_ok (set_counters s live (pending s))) as H' by (apply pool_ok_counters; [done|lia|done]).
    rewrite (closePool_idle _ H'); [unfold idle_of; cbn; lia|]. by apply live_sub_total; try apply H.
Qed.

Definition tracker_idle_ok (t : poolTracker) : Prop := ∀ k s, pools t !! k = Some s → idle_ok s.

Lemma run_idle t es key :
  tracker_ok t → tracker_idle_ok t → disabled t = false → well_paired t es = true →
  let '(t', trace) := run t es in
  tracker_idle_ok t'
  ∧ idle_gauge (emitted_at key trace) = (booked idle_of (pools t' !! key) - booked idle_of (pools t !! key))%Z.
Proof.
  revert t. induction es as [|e es IH]; intros t Ht Hti Hd; cbn [run well_paired].
  { intros _. split; [done|]. cbn. lia. }
  intros [Hk Hw]%andb_true_iff. pose proof (handle_own t e Ht) as Hh.
  assert (Hsi : idle_ok (state t (Address e))).
  { unfold state. destruct (pools t !! _) as [s|] eqn:E; [by eapply Hti|]. intros i. done. }
  pose proof (handle_event_idles (state t (Address e)) e (state_ok _ _ Ht) Hsi Hk) as Hev.
  cbn [handle] in *. rewrite Hd in *.
  destruct (handle_event _ _) as [[s ems] drop]. cbn [fst] in *.
  destruct Hh as (Ht1 & _ & Hother). set (t1 := Build_poolTracker _ _ _) in *.
  assert (Hi1 : tracker_idle_ok t1).
  { intros k s'. cbn [t1 pools]. destruct drop.
    - intros [_ Hk']%lookup_delete_Some. by eapply Hti.
    - intros [[_ <-]|[_ Hk']]%lookup_insert_Some; [apply Hev|by eapply Hti]. }
  specialize (IH t1 Ht1 Hi1 eq_refl Hw). destruct (run t1 es) as [t2 trace].
  destruct IH as [Hti2 Hg]. split; [done|].
  destruct (create_time_gauges e s) as (_ & Ci & _).
  destruct (decide (key = poolKey (Address e))) as [->|Hne].
  - rewrite emitted_at_own. autorewrite with gauges. rewrite Hg, Ci.
    rewrite <- (state_booked t (Address e) idle_of) by done. cbn [t1 pools]. destruct drop.
    + rewrite Hev, lookup_delete_eq. cbn. lia.
    + destruct Hev as [_ Hev]. cbn [fst snd] in Hev. rewrite Hev, lookup_insert_eq. cbn. lia.
  - rewrite emitted_at_other by done. by rewrite Hg, (Hother key Hne).
Qed.

(** * Runs over the events of one server *)
Lemma run_app t a b :
  run t (a ++ b) = let '(t1, tr1) := run t a in let '(t2, tr2) := run t1 b in (t2, tr1 ++ tr2).
Proof.
  revert t. induction a as [|e a IH]; intros t; cbn [app run].
  { destruct (run t b). done. }
  destruct (handle t (Some e)) as [t1 ems]. rewrite IH.
  destruct (run t1 a) as [t2 tr2]. destruct (run t2 b) as [t3 tr3]. by rewrite (assoc_L (++)).
Qed.

(** The state of one pool through its events, as long as it is not dropped. *)
Fixpoint run_pool (s : poolState) (es : list PoolEvent) : option (poolState * list emission) :=
  match es with
  | [] => Some (s, [])
  | e :: es' =>
    let '(s1, ems, drop) := handle_event s e in
    if drop : bool then None
    else '(s2, ems2) ← run_pool s1 es'; Some (s2, ems ++ ems2)
  end.

Lemma run_pool_app s s1 a b ems1 :
  run_pool s a = Some (s1, ems1) →
  run_pool s (a ++ b) = '(s2, ems2) ← run_pool s1 b; Some (s2, ems1 ++ ems2).
Proof.
  revert s ems1. induction a as [|e a IH]; intros s ems1 H; cbn [app run_pool] in *.
  { simplify_eq. by destruct (run_pool s1 b) as [[??]|]. }
  destruct (handle_event s e) as [[s2 ems] drop]. destruct drop; [done|].
  destruct (run_pool s2 a) as [[s3 ems3]|] eqn:E; [|done]. cbn [mbind option_bind] in H. simplify_eq.
  rewrite (IH _ _ E). destruct (run_pool s1 b) as [[??]|]; cbn [mbind option_bind]; [|done].
  by rewrite (assoc_L (++)).
Qed.

Lemma run_single t es a s s' ems :
  disabled t = false → Forall (λ e, Address e = a) es → state t a = s → run_pool s es = Some (s', ems) →
  let '(t', trace) := run t es in
  disabled t' = false ∧ state t' a = s' ∧ idle_gauge (emitted_at (poolKey a) trace) = idle_gauge ems.
Proof.
  intros Hd Ha. revert t Hd s ems. induction Ha as [|e es Hea Ha IH]; intros t Hd s ems Hs H;
    cbn [run run_pool] in *; [by simplify_eq|].
  subst a s. cbn [handle]. rewrite Hd.
  destruct (handle_event (state t (Address e)) e) as [[s1 ems1] drop]. destruct drop; [done|].
  destruct (run_pool s1 es) as [[s2 ems2]|] eqn:E; [|done]. cbn [mbind option_bind] in H. simplify_eq.
  set (t1 := Build_poolTracker _ _ _). specialize (IH t1 eq_refl s1 ems2).
  destruct (run t1 es) as [t2 trace]. destruct IH as (Hd2 & Hs2 & Hg); [|done|].
  { unfold state. cbn [t1 pools]. by rewrite lookup_insert_eq. }
  split_and!; [done|done|]. rewrite emitted_at_own. destruct (create_time_gauges e s1) as (_ & Ci & _).
  autorewrite with gauges. rewrite Ci, Hg. lia.
Qed.

(** * Properties *)

(** The idle gauge, as long as every checkout is of a connection the tracker
    saw become ready and not yet checked out. It is then the number of ready
    connections that are not checked out, never negative, and closing the last
    pool takes all of it off. *)
Theorem idle_gauge_exact (name key : bytes) (es : list PoolEvent)
    (Hpaired : well_paired (newTracker name) es = true) :
  let '(t, trace) := run (newTracker name) es in
  let ems := emitted_at key trace in
  match pools t !! key with
  | Some s => idle_gauge ems = (total (ready s) - total (checkedOut s))%Z ∧ (0 ≤ idle_gauge ems)%Z
  | None => idle_gauge ems = 0%Z
  end.
Proof.
  assert (Hti : tracker_idle_ok (newTracker name)).
  { intros k s H. cbn in H. by rewrite lookup_empty in H. }
  assert (Ht : tracker_ok (newTracker name)).
  { intros k s H. cbn in H. by rewrite lookup_empty in H. }
  pose proof (run_idle (newTracker name) es key Ht Hti eq_refl Hpaired) as H.
  pose proof (run_moved (newTracker name) es key Ht) as Hm.
  destruct (run _ _) as [t trace]. destruct H as [Hti' Hg]. destruct Hm as [Ht' _].
  cbn [newTracker pools] in Hg. rewrite lookup_empty in Hg. cbn [booked] in Hg. rewrite Z.sub_0_r in Hg.
  destruct (pools t !! key) as [s|] eqn:E; cbn [booked] in Hg; [|done].
  cbv zeta. rewrite Hg. split; [done|]. destruct (Ht' key s E) as [_ Hr Ho _ _ _].
  pose proof (live_sub_total _ _ Ho Hr (Hti' key s E)). unfold idle_of. lia.
Qed.

(** C15: what the tracker's gauges show. Whatever events the driver sends, of
    whatever servers and in whatever order, the deltas emitted for a server on the
    used, pending and size gauges add up to the state kept for it: the used gauge
    is the number of checked-out connections counted by number, the pending gauge
    the outstanding requests, neither ever negative, and the size gauges are the
    configured sizes at int64 width. A server without a state has nothing on these
    gauges, so closing its last pool leaves none of them stuck. The idle gauge is
    so too if every checkout is of a connection the tracker saw become ready and
    not yet checked out (well_paired): it is then the ready connections less the
    checked-out ones, never negative, and nothing once the last pool is closed.
    Without that condition it need not be: idle_gauge_drifts. *)
Theorem pool_gauges_exact (name key : bytes) (es : list PoolEvent) :
  let '(t, trace) := run (newTracker name) es in
  let ems := emitted_at key trace in
  match pools t !! key with
  | Some s =>
    used_gauge ems = map_sum (byID (checkedOut s)) ∧ (0 ≤ used_gauge ems)%Z
    ∧ instrument_gauge PendingRequests ems = pending s ∧ (0 ≤ pending s)%Z
    ∧ eq64 (instrument_gauge IdleMin ems) (if seenCreated s then createdMin s else 0%Z)
    ∧ eq64 (instrument_gauge ConnectionMax ems) (if seenCreated s then createdMax s else 0%Z)
    ∧ (well_paired (newTracker name) es = true →
         idle_gauge ems = (total (ready s) - total (checkedOut s))%Z ∧ (0 ≤ idle_gauge ems)%Z)
  | None =>
    used_gauge ems = 0%Z ∧ instrument_gauge PendingRequests ems = 0%Z
    ∧ eq64 (instrument_gauge IdleMin ems) 0 ∧ eq64 (instrument_gauge ConnectionMax ems) 0
    ∧ (well_paired (newTracker name) es = true → idle_gauge ems = 0%Z)
  end.
Proof.
  pose proof (idle_gauge_exact name key es) as Hidle.
  pose proof (run_moved (newTracker name) es key) as H.
  destruct (run _ _) as [t trace]. destruct H as [Ht [Hu Hp Hmin Hmax]]; [done|].
  cbn [newTracker pools] in *. rewrite lookup_empty in *. cbn [booked] in *. rewrite Z.sub_0_r in *.
  destruct (pools t !! key) as [s|] eqn:E; cbn [booked] in *; [|by split_and!].
  destruct (Ht key s E) as [_ _ Hout Hpend _ Hsz]. pose proof (total_nonneg _ Hout).
  rewrite Hmin, Hmax, Hu, Hp. cbn [compose]. split_and!; [apply Hout|done|done|done| | |done].
  all: unfold sizes_ok in Hsz; destruct (seenCreated s); destruct Hsz as [E1 E2];
    rewrite ?E1, ?E2, ?wrap64_eq64; done.
Qed.

(** An event of a pool, without options. *)
Definition pool_event (addr : bytes) (ty : event_type) (id : Z) : PoolEvent :=
  {| Type_ := ty; Address := addr; ConnectionID := id; PoolOptions := None; Duration := 0;
     ReasonTimedOut := false |}.

Lemma pool_gauges_exact_witness :
  let es := pool_event #"db:27017" ConnectionPoolCreated 0 :: pool_event #"db:27017" ConnectionReady 1
            :: pool_event #"db:27017" ConnectionReady 2 :: pool_event #"db:27017" ConnectionCheckOutStarted 0
            :: [pool_event #"db:27017" ConnectionCheckedOut 1] in
  well_paired (newTracker #"orders") es = true
  ∧ let '(t, trace) := run (newTracker #"orders") es in
    used_gauge (emitted_at #"db:27017" trace) = 1%Z ∧ idle_gauge (emitted_at #"db:27017" trace) = 1%Z.
Proof.
  cbv zeta. set (es := _ :: _). assert (Hw : well_paired (newTracker #"orders") es = true) by by vm_compute.
  split; [exact Hw|]. pose proof (pool_gauges_exact #"orders" #"db:27017" es) as H.
  assert (E : (λ s, (map_sum (byID (checkedOut s)), total (ready s) - total (checkedOut s))%Z)
      <$> pools (run (newTracker #"orders") es).1 !! #"db:27017" = Some (1, 1)%Z) by by vm_compute.
  destruct (run _ es) as [t trace]. cbn [fst] in E. destruct (pools t !! _) as [s|]; [|done].
  destruct H as (Hu & _ & _ & _ & _ & _ & Hi). destruct (Hi Hw) as [Hi' _]. injection E as E1 E2.
  by rewrite Hu, Hi'.
Defined.

(** Two pools behind one tracker: one readies connection 1, the other's
    connection 1 fails its handshake, and the first goes on using its own. *)
Definition misattributed_close (a : bytes) : list PoolEvent :=
  [pool_event a ConnectionPoolCreated 0; pool_event a ConnectionPoolCreated 0;
   pool_event a ConnectionReady 1; pool_event a ConnectionClosed 1].
Definition one_use (a : bytes) : list PoolEvent :=
  [pool_event a ConnectionCheckOutStarted 0; pool_event a ConnectionCheckedOut 1;
   pool_event a ConnectionCheckedIn 1].
Definition uses (a : bytes) (n : nat) : list PoolEvent := concat (repeat (one_use a) n).

Lemma uses_at a n : Forall (λ e, Address e = a) (uses a n).
Proof. induction n as [|n IH]; [constructor|]. apply (Forall_app_2 _ (one_use a)); [repeat constructor|done]. Qed.

Lemma uses_drift n t a :
  let s := set_counters (fresh_state t a) 2 0 in
  ∃ ems, run_pool s (uses a n) = Some (s, ems) ∧ idle_gauge ems = Z.of_nat n.
Proof.
  cbv zeta. set (s := set_counters (fresh_state t a) 2 0).
  assert (Hl : labels_ok s) by apply (fresh_ok t a).
  induction n as [|n (ems & IH & Hg)]; [by exists []|].
  assert (∃ e1, run_pool s (one_use a) = Some (s, e1) ∧ idle_gauge e1 = 1%Z) as (e1 & H1 & Hg1).
  { exists (Add PendingRequests 1 (poolAddOpt s) ++ (Add PendingRequests (-1) (poolAddOpt s)
      ++ addConnectionCount 1 (usedAddOpt s)) ++ addConnectionCount (-1) (usedAddOpt s)
      ++ addConnectionCount 1 (idleAddOpt s)).
    split; [|autorewrite with gauges; done]. unfold s, fresh_state. cbv zeta.
    generalize (tracker_attrs t a). intros l. by vm_compute. }
  exists (e1 ++ ems). change (uses a (S n)) with (one_use a ++ uses a n).
  rewrite (run_pool_app _ _ _ _ _ H1), IH. split; [done|]. autorewrite with gauges. lia.
Qed.

Lemma drift_run name a n :
  let t0 := newTracker name in
  ∃ ems, run_pool (state t0 a) (misattributed_close a ++ uses a n ++ [pool_event a ConnectionPoolClosed 0])
         = Some (set_counters (fresh_state t0 a) 1 0, ems) ∧ idle_gauge ems = Z.of_nat n.
Proof.
  cbv zeta. set (t0 := newTracker name). set (s := set_counters (fresh_state t0 a) 2 0).
  destruct (uses_drift n t0 a) as (ems & Hu & Hg). fold s in Hu.
  assert (∃ e0, run_pool (state t0 a) (misattributed_close a) = Some (s, e0) ∧ idle_gauge e0 = 0%Z)
    as (e0 & H0 & Hg0).
  { exists (addConnectionCount 1 (idleAddOpt s) ++ addConnectionCount (-1) (idleAddOpt s)).
    assert (labels_ok s) by apply (fresh_ok t0 a). split; [|autorewrite with gauges; done].
    unfold s, state, t0. cbn [newTracker pools]. rewrite lookup_empty. cbn [default].
    unfold fresh_state. cbv zeta.
    generalize (tracker_attrs (newTracker name) a). intros l. by vm_compute. }
  exists (e0 ++ ems ++ []). rewrite (run_pool_app _ _ _ _ _ H0), (run_pool_app _ _ _ _ _ Hu). split.
  - reflexivity.
  - autorewrite with gauges. lia.
Qed.

(** The idle gauge without that condition. Two pools share a tracker, each
    readies nothing but the one connection 1, and a failed handshake of the
    other's connection 1 is booked against it. Every use of the connection then
    adds one to the idle gauge, without bound, and closing both pools leaves
    the gauge there for good. *)
Theorem idle_gauge_drifts (name a : bytes) (n : nat) :
  let '(t, trace) := run (newTracker name)
    ((misattributed_close a ++ uses a n ++ [pool_event a ConnectionPoolClosed 0])
     ++ [pool_event a ConnectionPoolClosed 0]) in
  idle_gauge (emitted_at (poolKey a) trace) = Z.of_nat n ∧ pools t !! poolKey a = None.
Proof.
  destruct (drift_run name a n) as (ems & Hrun & Hg). cbv zeta in Hrun.
  assert (Hall : Forall (λ e, Address e = a)
    (misattributed_close a ++ uses a n ++ [pool_event a ConnectionPoolClosed 0])).
  { repeat apply Forall_app_2; [repeat constructor| |repeat constructor]. 
    apply uses_at. }
  pose proof (run_single (newTracker name) _ a _ _ ems eq_refl Hall eq_refl Hrun) as Hr.
  rewrite run_app. destruct (run (newTracker name) _) as [t1 tr1]. destruct Hr as (Hd1 & Hs1 & Hg1).
  cbn [run handle]. rewrite Hd1. change (Address (pool_event a ConnectionPoolClosed 0)) with a. rewrite Hs1.
  change (handle_event (set_counters (fresh_state (newTracker name) a) 1 0) (pool_event a ConnectionPoolClosed 0))
    with (set_counters (fresh_state (newTracker name) a) 0 0, @nil emission, true).
  cbn [pools]. rewrite lookup_delete_eq. split; [|done].
  unfold emitted_at in *. by rewrite app_nil_r, Hg1.
Qed.
