(* ===== verification/PromLabel.v ===== *)
(** internal/metrics/reserved.go, label names: the normalization the Prometheus
    exporter applies to an attribute key, reproduced by the SDK, and the test
    for the labels an attribute must not take, which walks the key without
    building the normalized name. *)
From S2P Require Import Prelude Utf8 GoStrings GoCodec SampleLib.

(** * Normalization *)

(** The runes that survive, and the loop that writes '_' for each run of the
    others; [prev] is prevUnderscore. *)
Definition label_rune (r : N) : bool :=
  (((97 <=? r) && (r <=? 122)) || ((65 <=? r) && (r <=? 90)) || ((48 <=? r) && (r <=? 57)))%N.
Fixpoint normalize_runes (prev : bool) (rs : list N) : bytes :=
  match rs with
  | [] => []
  | r :: rs' =>
    if label_rune r then byte_of r :: normalize_runes false rs'
    else if prev then normalize_runes true rs'
    else "_"%char :: normalize_runes true rs'
  end.
Definition key_runes (key : bytes) : list N := fst <$> runes key.

Definition isTranslatorReservedShape (k : bytes) : bool :=
  (4 <=? length k) && prefixb #"__" k && prefixb #"__" (reverse k).

Definition starts_with_digit (s : bytes) : bool :=
  match s with c :: _ => is_digit c | [] => false end.

(** The recursion strips four bytes, so the length is fuel enough. *)
Fixpoint normalize_from (fuel : nat) (key : bytes) : bytes :=
  if bool_decide (key = []) then []
  else if isTranslatorReservedShape key then
    match fuel with
    | O => []
    | S fuel' => #"__" ++ normalize_from fuel' (take (length key - 4) (drop 2 key)) ++ #"__"
    end
  else
    let out := normalize_runes false (key_runes key) in
    if bool_decide (out = []) then []
    else if starts_with_digit out then #"key_" ++ out else out.
Definition NormalizePrometheusLabelName (key : bytes) : bytes := normalize_from (length key) key.

Definition SameLabel (a b : bytes) : bool :=
  bool_decide (NormalizePrometheusLabelName a = NormalizePrometheusLabelName b).

(** * The comparison on the fly *)
Fixpoint match_runes (prev : bool) (rs : list N) (want : bytes) (i : nat) : nat * bool :=
  match rs with
  | [] => (i, true)
  | r :: rs' =>
    let step out prev :=
      match want with
      | c :: want' => if bool_decide (c = out) then match_runes prev rs' want' (S i) else (i, false)
      | [] => (i, false)
      end in
    if label_rune r then step (byte_of r) false
    else if prev then match_runes true rs' want i
    else step "_"%char true
  end.
Definition normalizedMatchLen (key want : bytes) : nat * bool :=
  match_runes false (key_runes key) want 0.
Definition normalizedEquals (key want : bytes) : bool :=
  let '(n, complete) := normalizedMatchLen key want in complete && (n =? length want).
Definition normalizedHasPrefix (key prefix : bytes) : bool :=
  (normalizedMatchLen key prefix).1 =? length prefix.

(** * The reserved labels *)
Definition resourceConstantLabelKeys : list bytes :=
  [ #"service.namespace"; #"service.name"; #"service.version"; #"deployment.environment.name"].
Definition exposedFormatLabels : list bytes := [ #"le"; #"quantile"].
Definition scopeLabelPrefix : bytes := #"otel_scope_".

(** buildReservedPromLabels: the labels, and the group of a first byte. *)
Definition reserved_labels : list bytes :=
  (NormalizePrometheusLabelName <$> resourceConstantLabelKeys) ++ exposedFormatLabels.
Definition reservedPromLabels (c : ascii) : list bytes :=
  filter (λ l, head l = Some c) reserved_labels.

Definition hasAlphanumeric (k : bytes) : bool := existsb is_alnum k.

Definition IsReservedAttributeKey (k : bytes) : bool :=
  match k with
  | [] => true
  | c :: _ =>
    if isTranslatorReservedShape k || negb (hasAlphanumeric k) then true
    else if bool_decide (head scopeLabelPrefix = Some c) && normalizedHasPrefix k scopeLabelPrefix then true
    else existsb (normalizedEquals k) (reservedPromLabels c)
  end.

(** The same test through the normalized name. *)
Definition reserved_label_ref (k : bytes) : bool :=
  bool_decide (k = []) || isTranslatorReservedShape k || negb (hasAlphanumeric k)
  || prefixb scopeLabelPrefix (NormalizePrometheusLabelName k)
  || bool_decide (NormalizePrometheusLabelName k ∈ reserved_labels).

(** * The loop *)
Lemma label_rune_byte c : label_rune (byte_val c) = is_alnum c.
Proof. by byte_cases c. Qed.

Lemma label_rune_low r : label_rune r = true → (r < 128)%N.
Proof. unfold label_rune. lia. Qed.

Lemma label_rune_of r : label_rune r = true → is_alnum (byte_of r) = true.
Proof.
  intros H. rewrite <- label_rune_byte, byte_val_of; [done|]. apply label_rune_low in H. lia.
Qed.

(** What the loop compares is the common prefix of the normalized name. *)
Fixpoint lcp (a b : bytes) : nat :=
  match a, b with
  | c :: a', d :: b' => if bool_decide (d = c) then S (lcp a' b') else 0
  | _, _ => 0
  end.

Lemma match_runes_spec prev rs want i :
  match_runes prev rs want i
  = (i + lcp (normalize_runes prev rs) want, prefixb (normalize_runes prev rs) want).
Proof.
  revert prev want i. induction rs as [|r rs IH]; intros prev want i; cbn [match_runes normalize_runes].
  { cbn. by rewrite Nat.add_0_r. }
  assert (Hstep : ∀ out p,
    match want with
    | c :: want' => if bool_decide (c = out) then match_runes p rs want' (S i) else (i, false)
    | [] => (i, false)
    end = (i + lcp (out :: normalize_runes p rs) want, prefixb (out :: normalize_runes p rs) want)).
  { intros out p. destruct want as [|c want]; cbn [lcp prefixb]; [by rewrite Nat.add_0_r|].
    case_bool_decide as E.
    - subst. rewrite IH, bool_decide_true by done. cbn [andb]. f_equal. lia.
    - rewrite bool_decide_false by congruence. cbn [andb]. by rewrite Nat.add_0_r. }
  destruct (label_rune r); [apply Hstep|]. destruct prev; [apply IH|apply Hstep].
Qed.

Lemma lcp_prefix_l a b : lcp a b = length b ↔ b `prefix_of` a.
Proof.
  revert b. induction a as [|c a IH]; intros [|d b]; cbn [lcp length].
  - split; [intros _; apply prefix_nil|done].
  - split; [done|]. intros H. by apply prefix_nil_not in H.
  - split; [intros _; apply prefix_nil|done].
  - case_bool_decide as E.
    + subst. specialize (IH b). split.
      * intros [= H]. apply prefix_cons, IH, H.
      * intros H%prefix_cons_inv_2. f_equal. by apply IH.
    + split; [done|]. intros H%prefix_cons_inv_1. congruence.
Qed.

Definition normalized_body (key : bytes) : bytes := normalize_runes false (key_runes key).

Lemma normalizedHasPrefix_body key p : normalizedHasPrefix key p = prefixb p (normalized_body key).
Proof.
  unfold normalizedHasPrefix, normalizedMatchLen. rewrite match_runes_spec. cbn [fst Nat.add].
  apply eq_true_iff_eq. by rewrite Nat.eqb_eq, prefixb_spec, lcp_prefix_l.
Qed.

Lemma normalizedEquals_body key want :
  normalizedEquals key want = bool_decide (normalized_body key = want).
Proof.
  unfold normalizedEquals, normalizedMatchLen. rewrite match_runes_spec. cbn [Nat.add].
  fold (normalized_body key). apply eq_true_iff_eq.
  rewrite andb_true_iff, Nat.eqb_eq, prefixb_spec, lcp_prefix_l, bool_decide_eq_true. split.
  - intros [[x ->] [y Hy]]. apply (f_equal length) in Hy. rewrite !length_app in Hy.
    destruct x; [by rewrite app_nil_r|simpl in Hy; lia].
  - by intros ->.
Qed.

(** * The normalized name *)
Lemma key_runes_cons_low c s : (byte_val c < 128)%N → key_runes (c :: s) = byte_val c :: key_runes s.
Proof. intros H. unfold key_runes. by rewrite runes_cons_low. Qed.

Lemma body_head c s :
  ∃ t, normalized_body (c :: s) = (if is_alnum c then c else "_"%char) :: t.
Proof.
  unfold normalized_body. destruct (byte_val c <? 128)%N eqn:E.
  - rewrite key_runes_cons_low by lia. cbn [normalize_runes]. rewrite label_rune_byte.
    destruct (is_alnum c); [rewrite byte_of_val|]; by eexists.
  - unfold key_runes. rewrite runes_cons. cbn [fmap list_fmap fst normalize_runes].
    pose proof (rune_of_high c s ltac:(lia)).
    destruct (label_rune (rune_of (c :: s))) eqn:Hr; [apply label_rune_low in Hr; lia|].
    assert (is_alnum c = false) as ->; [|by eexists].
    rewrite <- label_rune_byte. destruct (label_rune (byte_val c)) eqn:Hc; [|done].
    apply label_rune_low in Hc. lia.
Qed.

(** Outside the reserved shape, one pass decides. *)
Lemma Normalize_plain k : k ≠ [] → isTranslatorReservedShape k = false →
  NormalizePrometheusLabelName k
  = if starts_with_digit (normalized_body k) then #"key_" ++ normalized_body k else normalized_body k.
Proof.
  intros Hk Hs. destruct k as [|c s]; [done|]. destruct (body_head c s) as [t Ht].
  unfold NormalizePrometheusLabelName. cbn [length normalize_from].
  rewrite bool_decide_false, Hs by done. fold (normalized_body (c :: s)). rewrite Ht.
  by rewrite bool_decide_false by done.
Qed.

(** The reserved shape, and what it surrounds. *)
Lemma shape_wrap inner : isTranslatorReservedShape ( #"__" ++ inner ++ #"__") = true.
Proof.
  unfold isTranslatorReservedShape. rewrite !reverse_app, !length_app.
  change (reverse #"__") with #"__". rewrite <- (assoc_L (++)), !prefixb_app.
  cbn [length list_ascii_of_string]. by assert ((4 <=? 2 + (length inner + 2)) = true) as -> by lia.
Qed.

Lemma suffix_bytes (p s : bytes) : p `prefix_of` reverse s → s = take (length s - length p) s ++ reverse p.
Proof.
  intros [b Hb]. apply (f_equal reverse) in Hb. rewrite reverse_involutive, reverse_app in Hb.
  rewrite Hb at 3. rewrite Hb, length_app, (length_reverse p).
  replace (length (reverse b) + length p - length p) with (length (reverse b)) by lia.
  by rewrite take_app_length.
Qed.

Lemma shape_inner inner :
  take (length ( #"__" ++ inner ++ #"__") - 4) (drop 2 ( #"__" ++ inner ++ #"__")) = inner.
Proof.
  rewrite !length_app. cbn [length list_ascii_of_string app drop].
  replace (2 + (length inner + 2) - 4) with (length inner) by lia. apply take_app_length.
Qed.

Lemma shape_parts k : isTranslatorReservedShape k = true →
  k = #"__" ++ take (length k - 4) (drop 2 k) ++ #"__".
Proof.
  unfold isTranslatorReservedShape. rewrite !andb_true_iff, !prefixb_spec. intros [[Hl Ha] Hb].
  apply suffix_bytes in Hb. change (reverse #"__") with #"__" in Hb. change (length #"__") with 2 in Hb.
  set (m := take (length k - 2) k) in Hb.
  assert (m = #"__" ++ drop 2 m) as Hm.
  { rewrite <- (take_drop 2 m) at 1. f_equal. unfold m. rewrite take_take.
    replace (2 `min` (length k - 2)) with 2 by lia. by apply prefix_take_drop in Ha as [Ha _]. }
  rewrite Hm, <- (assoc_L (++)) in Hb. rewrite Hb at 2. rewrite Hb at 2. rewrite shape_inner. exact Hb.
Qed.

Lemma normalize_from_fuel f k : length k ≤ f → normalize_from f k = normalize_from (length k) k.
Proof.
  revert k. induction f as [f IH] using lt_wf_ind. intros k Hf.
  destruct k as [|c k]; [by destruct f|]. destruct f as [|f]; [simpl in Hf; lia|].
  cbn [length normalize_from]. case_bool_decide; [done|].
  destruct (isTranslatorReservedShape (c :: k)) eqn:Hs; [|done].
  set (inner := take (S (length k) - 4) (drop 2 (c :: k))).
  assert (length inner ≤ length k) as Hl.
  { unfold inner. rewrite length_take. lia. }
  assert (length inner + 4 = S (length k)) as Hl'.
  { pose proof (f_equal length (shape_parts _ Hs)) as E. rewrite !length_app in E. unfold inner.
    cbn [length list_ascii_of_string] in *. lia. }
  simpl in Hf. rewrite (IH f) by lia. rewrite (IH (length k)) by lia. done.
Qed.

Lemma normalize_from_shape f inner :
  normalize_from (S f) ( #"__" ++ inner ++ #"__") = #"__" ++ normalize_from f inner ++ #"__".
Proof.
  cbn [normalize_from]. rewrite bool_decide_false by done. by rewrite shape_wrap, shape_inner.
Qed.

Lemma Normalize_shape inner :
  NormalizePrometheusLabelName ( #"__" ++ inner ++ #"__")
  = #"__" ++ NormalizePrometheusLabelName inner ++ #"__".
Proof.
  unfold NormalizePrometheusLabelName at 1.
  assert (length ( #"__" ++ inner ++ #"__") = S (3 + length inner)) as ->.
  { rewrite !length_app. cbn. lia. }
  rewrite normalize_from_shape. do 2 f_equal. apply normalize_from_fuel. lia.
Qed.

Lemma Normalize_nil : NormalizePrometheusLabelName [] = [].
Proof. done. Qed.

(** Induction along the recursion of the normalization. *)
Lemma normalize_ind (P : bytes → Prop) :
  P [] → (∀ inner, P inner → P ( #"__" ++ inner ++ #"__")) →
  (∀ k, k ≠ [] → isTranslatorReservedShape k = false → P k) → ∀ k, P k.
Proof.
  intros H0 Hs Hp k. remember (length k) as n eqn:Hn. revert k Hn.
  induction n as [n IH] using lt_wf_ind. intros k ->.
  destruct (decide (k = [])) as [->|Hk]; [done|].
  destruct (isTranslatorReservedShape k) eqn:E; [|by apply Hp].
  rewrite (shape_parts k E). apply Hs. eapply IH; [|done].
  pose proof (f_equal length (shape_parts k E)) as Hl. rewrite !length_app in Hl.
  cbn [length list_ascii_of_string] in Hl. lia.
Qed.

(** * What a normalized name looks like *)
Definition label_byte (c : ascii) : bool := is_alnum c || bool_decide (c = "_"%char).
(** A label name of the Prometheus data model. *)
Definition valid_label (s : bytes) : Prop :=
  s ≠ [] ∧ Forall (λ c, label_byte c = true) s ∧ starts_with_digit s = false.

Fixpoint no_double (prev : bool) (s : bytes) : bool :=
  match s with
  | [] => true
  | c :: s' =>
    if bool_decide (c = "_"%char) then negb prev && no_double true s' else no_double false s'
  end.

Lemma alnum_not_underscore c : is_alnum c = true → c ≠ "_"%char.
Proof. by intros H ->. Qed.

Lemma normalize_runes_shape prev rs :
  Forall (λ c, label_byte c = true) (normalize_runes prev rs) ∧ no_double prev (normalize_runes prev rs) = true.
Proof.
  revert prev. induction rs as [|r rs IH]; intros prev; cbn [normalize_runes]; [done|].
  destruct (label_rune r) eqn:Hr.
  - apply label_rune_of in Hr. destruct (IH false) as [IH1 IH2]. split.
    + constructor; [|done]. unfold label_byte. by rewrite Hr.
    + cbn [no_double]. by rewrite bool_decide_false by by apply alnum_not_underscore.
  - destruct prev; [apply IH|]. destruct (IH true) as [IH1 IH2]. split; [by constructor|done].
Qed.

(** Normalizing such a text changes nothing. *)
Lemma label_byte_low c : label_byte c = true → (byte_val c < 128)%N.
Proof. byte_cases c; done. Qed.

Lemma normalize_fixed prev s :
  Forall (λ c, label_byte c = true) s → no_double prev s = true → normalize_runes prev (key_runes s) = s.
Proof.
  intros Hs. revert prev. induction Hs as [|c s Hc Hs IH]; intros prev; [done|].
  rewrite key_runes_cons_low by by apply label_byte_low. cbn [normalize_runes no_double].
  rewrite label_rune_byte. unfold label_byte in Hc. case_bool_decide as E.
  - subst. destruct prev; [done|]. cbn. intros H. f_equal. by apply IH.
  - rewrite orb_false_r in Hc. rewrite Hc, byte_of_val. intros H. f_equal. by apply IH.
Qed.

Lemma no_double_weaken p s : no_double true s = true → no_double p s = true.
Proof. destruct s as [|c s]; [done|]. cbn. case_bool_decide; [by destruct p|done]. Qed.

Lemma no_double_shape p s : no_double p s = true → isTranslatorReservedShape s = false.
Proof.
  intros H. unfold isTranslatorReservedShape. destruct s as [|c [|d s]]; [done|done|].
  assert (prefixb #"__" (c :: d :: s) = false) as ->; [|by rewrite andb_false_r].
  destruct (decide (c = "_"%char ∧ d = "_"%char)) as [[-> ->]|Hne].
  - exfalso. revert H. cbn. destruct p; done.
  - apply prefixb_false. intros [x Hx]. cbn in Hx. naive_solver.
Qed.

Lemma body_ok k : no_double false (normalized_body k) = true ∧ Forall (λ c, label_byte c = true) (normalized_body k).
Proof. destruct (normalize_runes_shape false (key_runes k)). done. Qed.

(** The plain case, as a fixed point. *)
Lemma plain_fixed s :
  s ≠ [] → Forall (λ c, label_byte c = true) s → no_double false s = true → starts_with_digit s = false →
  NormalizePrometheusLabelName s = s.
Proof.
  intros Hne Hs Hd Hh. rewrite Normalize_plain by (done || by eapply no_double_shape).
  unfold normalized_body. rewrite normalize_fixed by done. by rewrite Hh.
Qed.

Lemma key_prefix_ok s : starts_with_digit s = true → Forall (λ c, label_byte c = true) s →
  no_double false s = true → no_double false ( #"key_" ++ s) = true.
Proof.
  destruct s as [|c s]; [done|]. cbn [starts_with_digit]. intros Hc _ H.
  change (no_double true (c :: s) = true). revert H. cbn [no_double].
  by rewrite bool_decide_false by by intros ->.
Qed.

Lemma Normalize_plain_ok k : k ≠ [] → isTranslatorReservedShape k = false →
  let l := NormalizePrometheusLabelName k in
  l ≠ [] ∧ Forall (λ c, label_byte c = true) l ∧ no_double false l = true ∧ starts_with_digit l = false.
Proof.
  intros Hk Hs. cbv zeta. rewrite Normalize_plain by done. destruct (body_ok k) as [Hd Hb].
  destruct k as [|c k]; [done|]. destruct (body_head c k) as [t Ht].
  destruct (starts_with_digit (normalized_body (c :: k))) eqn:E; split_and!; try done.
  - apply Forall_app. split; [|done]. by repeat constructor.
  - by apply key_prefix_ok.
  - by rewrite Ht.
Qed.

Lemma Normalize_label k : k ≠ [] → valid_label (NormalizePrometheusLabelName k).
Proof.
  revert k. apply (normalize_ind (λ k, k ≠ [] → valid_label (NormalizePrometheusLabelName k))).
  - done.
  - intros inner IH _. rewrite Normalize_shape. split_and!; [done| |done].
    destruct (decide (inner = [])) as [->|Hi]; [by repeat constructor|].
    repeat apply Forall_app_2; [by repeat constructor|apply IH, Hi|by repeat constructor].
  - intros k Hk Hs _. by destruct (Normalize_plain_ok k Hk Hs) as (? & ? & _ & ?).
Qed.

Lemma Normalize_idemp k :
  NormalizePrometheusLabelName (NormalizePrometheusLabelName k) = NormalizePrometheusLabelName k.
Proof.
  revert k. apply (normalize_ind (λ k, NormalizePrometheusLabelName (NormalizePrometheusLabelName k)
    = NormalizePrometheusLabelName k)).
  - done.
  - intros inner IH. by rewrite !Normalize_shape, IH.
  - intros k Hk Hs. destruct (Normalize_plain_ok k Hk Hs) as (? & ? & ? & ?). by apply plain_fixed.
Qed.

(** * The reserved labels *)
Lemma reserved_labels_heads l : l ∈ reserved_labels →
  ∃ c t, l = c :: t ∧ is_alpha c = true ∧ prefixb #"key_" l = false.
Proof.
  intros Hl. assert (reserved_labels = [ #"service_namespace"; #"service_name"; #"service_version";
    #"deployment_environment_name"; #"le"; #"quantile"]) as E by by vm_compute.
  rewrite E in Hl. clear E. repeat (apply elem_of_cons in Hl as [->|Hl]; [by eexists _, _|]).
  by apply elem_of_nil in Hl.
Qed.

Lemma reserved_group l c : l ∈ reservedPromLabels c ↔ l ∈ reserved_labels ∧ head l = Some c.
Proof. unfold reservedPromLabels. rewrite list_elem_of_filter. naive_solver. Qed.

Lemma existsb_equals k ls :
  existsb (normalizedEquals k) ls = bool_decide (normalized_body k ∈ ls).
Proof.
  induction ls as [|l ls IH]; cbn [existsb]; [done|]. rewrite IH, normalizedEquals_body.
  apply eq_true_iff_eq. rewrite orb_true_iff, !bool_decide_eq_true, elem_of_cons. done.
Qed.

Lemma prefix_key_digit (p s t : bytes) : p `prefix_of` #"key_" ++ s → head p ≠ Some "k"%char → p = [].
Proof. destruct p as [|c p]; [done|]. intros H%prefix_cons_inv_1 Hh. subst. done. Qed.

(** * Properties *)

(** The normalized name of a non-empty key is a label name of the Prometheus
    data model: letters, digits and underscores, not beginning with a digit;
    and normalizing it again changes nothing, so two keys that normalize to the
    same name normalize to it for good. *)
Theorem Normalize_valid_idempotent (key : bytes) :
  (key ≠ [] → valid_label (NormalizePrometheusLabelName key))
  ∧ NormalizePrometheusLabelName (NormalizePrometheusLabelName key) = NormalizePrometheusLabelName key
  ∧ SameLabel (NormalizePrometheusLabelName key) key = true.
Proof.
  split_and!; [apply Normalize_label|apply Normalize_idemp|].
  unfold SameLabel. apply bool_decide_eq_true, Normalize_idemp.
Qed.

(** C40: the test the SDK runs on every attribute of every measurement, which
    walks the key and compares as it goes, answers exactly what building the
    normalized name and looking it up would: a key is reserved when it is empty,
    has the "__x__" shape or no alphanumeric byte, or normalizes to a scope
    label or to one of the exporter's own. *)
Theorem IsReservedAttributeKey_ref (k : bytes) : IsReservedAttributeKey k = reserved_label_ref k.
Proof.
  destruct k as [|c s]; [done|]. unfold IsReservedAttributeKey, reserved_label_ref.
  rewrite (bool_decide_false (c :: s = [])) by done. cbn [orb].
  destruct (isTranslatorReservedShape (c :: s)) eqn:Hs; [done|].
  destruct (hasAlphanumeric (c :: s)); [|done]. cbn [negb orb].
  rewrite Normalize_plain, normalizedHasPrefix_body, existsb_equals by done.
  destruct (body_head c s) as [t Ht]. rewrite Ht. cbn [starts_with_digit].
  apply eq_true_iff_eq. rewrite orb_true_iff.
  destruct (is_alnum c) eqn:Ha.
  - destruct (is_digit c) eqn:Hd.
    + assert (head scopeLabelPrefix ≠ Some c) by (intros [= <-]; done).
      rewrite (bool_decide_false (head scopeLabelPrefix = Some c)) by done. cbn [andb].
      rewrite !bool_decide_eq_true, reserved_group. split.
      * intros [(d & t' & E & Hal & _)%reserved_labels_heads _]. simplify_eq. revert Hd Hal. byte_cases d; done.
      * intros [H'|(d & t' & E & _ & Hk)%reserved_labels_heads]; [by vm_compute in H'|].
        by rewrite prefixb_app in Hk.
    + destruct (bool_decide (head scopeLabelPrefix = Some c)) eqn:Ho; cbn [andb].
      * destruct (prefixb scopeLabelPrefix (c :: t)); [by split; auto|].
        rewrite !bool_decide_eq_true, reserved_group. naive_solver.
      * assert (prefixb scopeLabelPrefix (c :: t) = false) as ->.
        { apply prefixb_false. intros H%prefix_cons_inv_1. apply bool_decide_eq_false in Ho. by subst. }
        rewrite !bool_decide_eq_true, reserved_group. naive_solver.
  - assert (head scopeLabelPrefix ≠ Some c) by (intros [= <-]; done).
    rewrite (bool_decide_false (head scopeLabelPrefix = Some c)) by done. cbn [andb].
    change (is_digit "_") with false. cbn iota.
    rewrite !bool_decide_eq_true, reserved_group. split.
    + intros [(d & t' & E & Hal & _)%reserved_labels_heads _]. simplify_eq; by vm_compute in Hal.
    + intros [H'|(d & t' & E & Hal & _)%reserved_labels_heads]; [by vm_compute in H'|simplify_eq].
Qed.

(** What normalizedEquals says it decides, it does not decide for a name
    that begins with "key_": a key that begins with a digit is normalized with
    that prefix, which the walk does not add. No reserved label begins with it,
    so the callers are not affected. *)
Theorem normalizedEquals_key_prefix :
  isTranslatorReservedShape #"1a" = false ∧ starts_with_digit #"key_1a" = false
  ∧ NormalizePrometheusLabelName #"key_1a" = #"key_1a"
  ∧ NormalizePrometheusLabelName #"1a" = #"key_1a" ∧ normalizedEquals #"1a" #"key_1a" = false.
Proof. by vm_compute. Qed.
