(* ===== verification/MetricViews.v ===== *)
(** internal/metrics, views: the reserved-key guard of reserved.go, the exemplar
    guard of exemplar.go and the bucket overrides of bucketoverride.go. The
    metric SDK that runs the views is an interface: what it does with them is
    what its documentation says, every matching view applied and an implicit
    default stream where none matches. *)
From S2P Require Import Prelude Utf8 GoStrings Attribute PromLabel.

(** * The SDK's data *)
Inductive InstrumentKind :=
  | InstrumentKindCounter | InstrumentKindUpDownCounter | InstrumentKindHistogram | InstrumentKindGauge
  | InstrumentKindObservable.
#[export] Instance InstrumentKind_eq_dec : EqDecision InstrumentKind.
Proof. solve_decision. Defined.

Section views.

(** A bucket boundary, a recorded value, and what a reservoir keeps of an offer. *)
Context {boundary value kept : Type}.

Inductive Aggregation :=
  | AggregationDefault
  | AggregationDrop
  | AggregationExplicitBucketHistogram (Boundaries : list boundary) (NoMinMax : bool)
  | OtherAggregation (name : bytes).

Record Instrument := {
  Name : bytes; Description : bytes; Unit_ : bytes; Kind : InstrumentKind; Scope : bytes;
}.

(** exemplar.Reservoir, by what an offer of a value with its filtered
    attributes leaves in it. *)
Record Reservoir := { Offer : value → list KeyValue → kept }.
Definition ReservoirProvider := list KeyValue → Reservoir.
Definition ExemplarReservoirProviderSelector := option Aggregation → ReservoirProvider.

Definition Filter := KeyValue → bool.
Record Stream := {
  StreamName : bytes; StreamDescription : bytes; StreamUnit : bytes;
  StreamAggregation : option Aggregation; AttributeFilter : option Filter;
  ExemplarSelector : option ExemplarReservoirProviderSelector;
}.
Definition View := Instrument → option Stream.

Definition default_stream (inst : Instrument) : Stream := {|
  StreamName := Name inst; StreamDescription := Description inst; StreamUnit := Unit_ inst;
  StreamAggregation := None; AttributeFilter := None; ExemplarSelector := None;
|}.

(** What the SDK is documented to do with its views. *)
Class MetricSdk := {
  sdk_streams : list View → Instrument → list Stream;
  DefaultExemplarReservoirProviderSelector : ExemplarReservoirProviderSelector;
}.
Class MetricSdkLaws (S : MetricSdk) := {
  sdk_every_match views inst :
    omap (λ v : View, v inst) views ≠ [] → sdk_streams views inst = omap (λ v : View, v inst) views;
  sdk_default views inst :
    omap (λ v : View, v inst) views = [] → sdk_streams views inst = [default_stream inst];
}.

Context `{S : MetricSdk}.

(** * exemplar.go *)
Definition droppedAttrReservoir (r : Reservoir) : Reservoir := {| Offer := λ v _, Offer r v [] |}.
Definition dropFilteredAttrs (sel : option ExemplarReservoirProviderSelector) :
    ExemplarReservoirProviderSelector :=
  let sel := default DefaultExemplarReservoirProviderSelector sel in
  λ agg attrs, droppedAttrReservoir (sel agg attrs).
Definition dropFilteredAttrsExemplarSelector : ExemplarReservoirProviderSelector :=
  λ agg, dropFilteredAttrs None agg.

(** * reserved.go *)
Definition notReserved : Filter := λ kv, negb (IsReservedAttributeKey kv.1).
Definition composeFilters (inner : option Filter) (outer : Filter) : Filter :=
  match inner with
  | None => outer
  | Some f => λ kv, f kv && outer kv
  end.

(** What withReservedKeyFilter changes in a stream. *)
Definition guard_stream (s : Stream) : Stream := {|
  StreamName := StreamName s; StreamDescription := StreamDescription s; StreamUnit := StreamUnit s;
  StreamAggregation := StreamAggregation s;
  AttributeFilter := Some (composeFilters (AttributeFilter s) notReserved);
  ExemplarSelector := Some (dropFilteredAttrs (ExemplarSelector s));
|}.
Definition withReservedKeyFilter (v : View) : View :=
  λ inst, match v inst with None => None | Some stream => Some (guard_stream stream) end.

(** Whether a configured view claims the instrument. *)
Definition claimed (configured : list View) (inst : Instrument) : bool :=
  existsb (λ v : View, match v inst with Some _ => true | None => false end) configured.
Definition catchAllReservedKeyFilter (configured : list View) : View :=
  λ inst,
    if claimed configured inst then None
    else Some {|
      StreamName := Name inst; StreamDescription := Description inst; StreamUnit := Unit_ inst;
      StreamAggregation := None; AttributeFilter := Some notReserved;
      ExemplarSelector := Some dropFilteredAttrsExemplarSelector;
    |}.
Definition guardReservedKeys (configured : list View) : list View :=
  (withReservedKeyFilter <$> configured) ++ [catchAllReservedKeyFilter configured].

(** * bucketoverride.go *)
Definition override_aggregation (agg : option Aggregation) (buckets : list boundary) : option Aggregation :=
  match agg with
  | Some (AggregationExplicitBucketHistogram _ no_min_max) =>
    Some (AggregationExplicitBucketHistogram buckets no_min_max)
  | None | Some AggregationDefault => Some (AggregationExplicitBucketHistogram buckets false)
  | Some other => Some other
  end.
Definition override_buckets (overrides : gmap bytes (list boundary)) (inst : Instrument) :
    option (list boundary) :=
  match overrides !! Name inst with
  | Some buckets => if bool_decide (Kind inst = InstrumentKindHistogram) then Some buckets else None
  | None => None
  end.
Definition override_stream (overrides : gmap bytes (list boundary)) (inst : Instrument) (s : Stream) : Stream :=
  match override_buckets overrides inst with
  | None => s
  | Some buckets => {|
      StreamName := StreamName s; StreamDescription := StreamDescription s; StreamUnit := StreamUnit s;
      StreamAggregation := override_aggregation (StreamAggregation s) buckets;
      AttributeFilter := AttributeFilter s; ExemplarSelector := ExemplarSelector s |}
  end.
Definition withBucketOverride (v : View) (overrides : gmap bytes (list boundary)) : View :=
  λ inst, match v inst with None => None | Some stream => Some (override_stream overrides inst stream) end.
Definition unclaimedBucketOverride (configured : list View) (overrides : gmap bytes (list boundary)) : View :=
  λ inst,
    match override_buckets overrides inst with
    | None => None
    | Some buckets =>
      if claimed configured inst then None
      else Some {|
        StreamName := Name inst; StreamDescription := Description inst; StreamUnit := Unit_ inst;
        StreamAggregation := Some (AggregationExplicitBucketHistogram buckets false);
        AttributeFilter := None; ExemplarSelector := None |}
    end.
Definition applyHistogramBucketOverrides (configured : list View) (overrides : gmap bytes (list boundary)) :
    list View :=
  if bool_decide (overrides = ∅) then configured
  else ((λ v, withBucketOverride v overrides) <$> configured) ++ [unclaimedBucketOverride configured overrides].

(** * What the SDK makes of the views *)
Definition matched (views : list View) (inst : Instrument) : list Stream := omap (λ v : View, v inst) views.

Lemma claimed_matched configured inst : claimed configured inst = true ↔ matched configured inst ≠ [].
Proof.
  unfold claimed, matched. induction configured as [|v vs IH]; cbn; [done|].
  destruct (v inst); cbn; [done|exact IH].
Qed.

(** Views that change the streams of others by [f], with a last one for the
    instruments nobody claims. *)
Lemma matched_wrapped (wrap : View → View) (f : Instrument → Stream → Stream) configured (last : View) inst :
  (∀ v, wrap v inst = f inst <$> v inst) →
  matched ((wrap <$> configured) ++ [last]) inst
  = (f inst <$> matched configured inst) ++ match last inst with Some s => [s] | None => [] end.
Proof.
  intros Hw. unfold matched. rewrite omap_app. f_equal.
  induction configured as [|v vs IH]; [done|]. cbn [fmap list_fmap omap list_omap].
  rewrite Hw. destruct (v inst); cbn [fmap option_fmap option_map list_fmap]; [|exact IH].
  f_equal. exact IH.
Qed.

Lemma matched_last configured (last : View) inst :
  (claimed configured inst = true → last inst = None) →
  matched configured inst ≠ [] → last inst = None.
Proof. intros H Hm. by apply H, claimed_matched. Qed.

Context (Hsdk : MetricSdkLaws S).

(** The SDK's streams, once the last view stands in for the default stream. *)
Lemma sdk_wrapped (wrap : View → View) (f : Instrument → Stream → Stream) configured (last : View) inst :
  (∀ v, wrap v inst = f inst <$> v inst) →
  (claimed configured inst = true → last inst = None) →
  (claimed configured inst = false →
     match last inst with Some s => s = f inst (default_stream inst)
                     | None => f inst (default_stream inst) = default_stream inst end) →
  sdk_streams ((wrap <$> configured) ++ [last]) inst = f inst <$> sdk_streams configured inst.
Proof.
  intros Hw Hc Hd. pose proof (matched_wrapped wrap f configured last inst Hw) as Hm.
  unfold matched in Hm.
  destruct (decide (matched configured inst = [])) as [He|Hne].
  - rewrite (sdk_default configured) by done. unfold matched in He.
    assert (claimed configured inst = false) as Hcl.
    { destruct (claimed configured inst) eqn:E; [|done]. by apply claimed_matched in E. }
    specialize (Hd Hcl). rewrite He in Hm. cbn in Hm. destruct (last inst) as [s|].
    + rewrite sdk_every_match by (by rewrite Hm). by rewrite Hm, Hd.
    + rewrite sdk_default by done. cbn. by rewrite Hd.
  - rewrite (sdk_every_match configured) by done.
    rewrite (Hc (proj2 (claimed_matched _ _) Hne)), app_nil_r in Hm.
    rewrite sdk_every_match; [done|]. rewrite Hm. unfold matched in Hne.
    by destruct (omap (λ v : View, v inst) configured).
Qed.
End views.

(** * Properties *)

(** The reserved-key guard. For every instrument, the guarded views give the
    streams the configured ones would have given, in the same number and order
    and with the same names, units and aggregations, each with its filter
    narrowed to the attributes that are not reserved and with an exemplar
    reservoir that is never offered a filtered attribute. *)
Theorem guardReservedKeys_exact {boundary value kept : Type}
    (S : @MetricSdk boundary value kept) (Hsdk : MetricSdkLaws S)
    (configured : list (@View boundary value kept)) (inst : Instrument) :
  let streams := sdk_streams (guardReservedKeys configured) inst in
  streams = guard_stream <$> sdk_streams configured inst
  ∧ (∀ s f kv, s ∈ streams → AttributeFilter s = Some f → f kv = true → IsReservedAttributeKey kv.1 = false)
  ∧ (∀ s, s ∈ streams → ∃ f sel, AttributeFilter s = Some f ∧ ExemplarSelector s = Some sel
       ∧ ∀ agg attrs, ∃ inner, ∀ v filtered, Offer (sel agg attrs) v filtered = Offer inner v []).
Proof.
  cbv zeta.
  assert (sdk_streams (guardReservedKeys configured) inst
          = guard_stream <$> sdk_streams configured inst) as E.
  { apply (sdk_wrapped Hsdk withReservedKeyFilter (λ _, guard_stream)).
    - intros v. unfold withReservedKeyFilter. by destruct (v inst).
    - intros Hc. unfold catchAllReservedKeyFilter. by rewrite Hc.
    - intros Hc. unfold catchAllReservedKeyFilter. by rewrite Hc. }
  rewrite E. split_and!; [done| | ].
  - intros s f kv (s0 & -> & _)%list_elem_of_fmap [= <-]. unfold composeFilters, notReserved.
    destruct (AttributeFilter s0); rewrite ?andb_true_iff, ?negb_true_iff; naive_solver.
  - intros s (s0 & -> & _)%list_elem_of_fmap. do 2 eexists. split_and!; [done|done|].
    intros agg attrs. by eexists.
Qed.

(** The bucket overrides. For every instrument the streams are the
    configured ones, and only a histogram named in the overrides has its
    boundaries replaced, on a stream that has explicit buckets or none chosen;
    dropped and otherwise aggregated streams, instruments of another kind, and
    every other instrument keep what they had. *)
Theorem bucket_overrides_exact {boundary value kept : Type}
    (S : @MetricSdk boundary value kept) (Hsdk : MetricSdkLaws S)
    (configured : list (@View boundary value kept)) (overrides : gmap bytes (list boundary))
    (inst : Instrument) :
  let streams := sdk_streams (applyHistogramBucketOverrides configured overrides) inst in
  streams = override_stream overrides inst <$> sdk_streams configured inst
  ∧ (Kind inst ≠ InstrumentKindHistogram ∨ overrides !! Name inst = None →
       streams = sdk_streams configured inst)
  ∧ (∀ s, s ∈ streams → ∃ s0, s0 ∈ sdk_streams configured inst
       ∧ AttributeFilter s = AttributeFilter s0 ∧ ExemplarSelector s = ExemplarSelector s0
       ∧ (StreamAggregation s0 = Some AggregationDrop → StreamAggregation s = Some AggregationDrop)).
Proof.
  cbv zeta.
  assert (Hsame : override_buckets overrides inst = None →
    override_stream overrides inst <$> sdk_streams configured inst = sdk_streams configured inst).
  { intros Hn. rewrite <- (list_fmap_id (sdk_streams configured inst)) at 2.
    apply list_fmap_ext. intros i s _. unfold override_stream. by rewrite Hn. }
  assert (sdk_streams (applyHistogramBucketOverrides configured overrides) inst
          = override_stream overrides inst <$> sdk_streams configured inst) as E.
  { unfold applyHistogramBucketOverrides. case_bool_decide as Ho.
    { symmetry. apply Hsame. unfold override_buckets. by rewrite Ho, lookup_empty. }
    apply (sdk_wrapped Hsdk (λ v, withBucketOverride v overrides) (override_stream overrides)).
    - intros v. unfold withBucketOverride. by destruct (v inst).
    - intros Hc. unfold unclaimedBucketOverride. rewrite Hc. by destruct (override_buckets _ _).
    - intros Hc. unfold unclaimedBucketOverride, override_stream. rewrite Hc.
      by destruct (override_buckets _ _). }
  rewrite E. split_and!; [done| | ].
  - intros Hno. apply Hsame. unfold override_buckets. destruct (overrides !! Name inst); [|done].
    rewrite bool_decide_false; [done|]. naive_solver.
  - intros s (s0 & -> & Hin)%list_elem_of_fmap. exists s0. split; [done|].
    unfold override_stream. destruct (override_buckets _ _); cbn; split_and!; try done. by intros ->.
Qed.

(** A concrete SDK, and a view that claims one histogram, for the witnesses. *)
#[export] Instance sample_sdk : @MetricSdk Z Z unit := {|
  sdk_streams views inst :=
    match omap (λ v : View, v inst) views with [] => [default_stream inst] | streams => streams end;
  DefaultExemplarReservoirProviderSelector _ _ := {| Offer _ _ := tt |};
|}.
#[export] Instance sample_sdk_laws : MetricSdkLaws sample_sdk.
Proof. split; intros views inst H; cbn; [by destruct (omap _ views)|by rewrite H]. Qed.

Definition duration_histogram (name : bytes) : Instrument :=
  {| Name := name; Description := []; Unit_ := #"s"; Kind := InstrumentKindHistogram; Scope := [] |}.
Definition drop_view : @View Z Z unit := λ inst,
  if bool_decide (Name inst = #"noisy") then
    Some {| StreamName := Name inst; StreamDescription := []; StreamUnit := #"s";
            StreamAggregation := Some AggregationDrop; AttributeFilter := None; ExemplarSelector := None |}
  else None.

Lemma guardReservedKeys_exact_witness :
  ((AttributeFilter <$> sdk_streams (guardReservedKeys [drop_view]) (duration_histogram #"d"))
     = [Some notReserved] ∧ notReserved ( #"le", StringValue #"1") = false)
  ∧ sdk_streams (guardReservedKeys [drop_view]) (duration_histogram #"d")
    = guard_stream <$> sdk_streams [drop_view] (duration_histogram #"d").
Proof.
  split; [split; [reflexivity|by vm_compute]|].
  apply (guardReservedKeys_exact sample_sdk sample_sdk_laws [drop_view] (duration_histogram #"d")).
Defined.

Lemma bucket_overrides_exact_witness :
  let overrides := <[ #"d" := [1; 5]%Z ]> (<[ #"noisy" := [2]%Z ]> ∅) in
  (StreamAggregation <$> sdk_streams (applyHistogramBucketOverrides [drop_view] overrides) (duration_histogram #"d"))
  = [Some (AggregationExplicitBucketHistogram [1; 5]%Z false)]
  ∧ (StreamAggregation <$> sdk_streams (applyHistogramBucketOverrides [drop_view] overrides)
       (duration_histogram #"noisy")) = [Some AggregationDrop]
  ∧ sdk_streams (applyHistogramBucketOverrides [drop_view] overrides) (duration_histogram #"d")
    = override_stream overrides (duration_histogram #"d") <$> sdk_streams [drop_view] (duration_histogram #"d").
Proof.
  cbv zeta. split; [by vm_compute|]. split; [by vm_compute|].
  apply (bucket_overrides_exact sample_sdk sample_sdk_laws [drop_view]).
Defined.
