(* ===== verification/ResourceKeys.v ===== *)
(** internal/metrics, resource and scope attributes: resourcekeys.go,
    scopeguard.go and targetinfo.go. Each walks a list of attributes and keeps
    those whose Prometheus labels cannot collide. *)
From S2P Require Import Prelude Utf8 GoStrings GoCodec SampleLib Attribute PromLabel.

Abbreviation label kv := (NormalizePrometheusLabelName (fst kv)).

(** * resourcekeys.go: who owns a key *)
Definition identityResourceKeys : list bytes :=
  [ #"service.name"; #"service.version"; #"service.namespace"; #"deployment.environment.name"].
Definition detectedResourceKeys : list bytes :=
  [ #"telemetry.sdk.name"; #"telemetry.sdk.language"; #"telemetry.sdk.version"; #"process.pid";
    #"process.executable.name"; #"process.runtime.name"; #"process.runtime.version"; #"host.name"].
Definition telemetrySDKLabelPrefix : bytes := #"telemetry_sdk_".
Definition processLabelPrefix : bytes := #"process_".

(** The empty key stands for no owner. *)
Definition ResourceKeyOwner (key : bytes) : bytes * bool :=
  match head (filter (λ k, SameLabel key k = true) identityResourceKeys) with
  | Some k => (k, true)
  | None =>
    match head (filter (λ k, SameLabel key k = true) detectedResourceKeys) with
    | Some k => (k, false)
    | None => ([], false)
    end
  end.
Definition IsTelemetrySDKKey (key : bytes) : bool :=
  HasPrefix (NormalizePrometheusLabelName key) telemetrySDKLabelPrefix.
Definition IsProcessKey (key : bytes) : bool :=
  HasPrefix (NormalizePrometheusLabelName key) processLabelPrefix.

Definition aliasOf (key : bytes) (attrs : list KeyValue) : bytes :=
  match head (filter (λ kv : KeyValue, kv.1 ≠ key ∧ SameLabel kv.1 key = true) attrs) with
  | Some kv => kv.1
  | None => []
  end.

(** * EnvResourceAttributes *)

(** What resource.New makes of the environment: it fails, it is nil, or it has
    attributes, sorted by key. *)
Inductive env_resource :=
  | EnvFailed (err : bytes)
  | EnvNil
  | EnvAttributes (attrs : list KeyValue).

Section env.
Context `{GoPrint}.

Definition ignoring (key : bytes) (why : bytes) : bytes :=
  #"OTEL_RESOURCE_ATTRIBUTES: ignoring " ++ quoted key ++ #"; " ++ why.
Definition same_label_as (key : bytes) (what : bytes) : bytes :=
  #"it would render as the same Prometheus label as " ++ quoted key ++ #", " ++ what.

Record env_state := {
  seen : gmap bytes bytes; kept : list KeyValue; dropped : list bytes; warnings : list bytes;
}.
Definition keep (st : env_state) (kv : KeyValue) : env_state :=
  {| seen := <[label kv := kv.1]> (seen st); kept := kept st ++ [kv];
     dropped := dropped st; warnings := warnings st |}.
Definition drop_with (st : env_state) (kv : KeyValue) (why : bytes) : env_state :=
  {| seen := seen st; kept := kept st; dropped := dropped st ++ [kv.1];
     warnings := warnings st ++ [ignoring kv.1 why] |}.

(** One iteration of the loop over the environment's attributes. *)
Definition env_step (callerAttrs : list KeyValue) (st : env_state) (kv : KeyValue) : env_state :=
  let owner := (ResourceKeyOwner kv.1).1 in
  if bool_decide (owner = kv.1) then keep st kv
  else if negb (bool_decide (owner = [])) then
    drop_with st kv (same_label_as owner #"which the SDK sets itself")
  else if IsTelemetrySDKKey kv.1 then
    drop_with st kv #"telemetry.sdk.* identifies the OpenTelemetry SDK, not the service"
  else if IsProcessKey kv.1 then
    drop_with st kv ( #"process.* is collected by the SDK itself, and process.command_args / "
      ++ #"process.owner are deliberately not exported")
  else if IsReservedAttributeKey kv.1 then
    drop_with st kv ( #"as the Prometheus label " ++ quoted (label kv)
      ++ #" it is reserved by the exporter or not a valid label name, and otelprom would disable "
      ++ #"target_info for the whole process")
  else if negb (bool_decide (aliasOf kv.1 callerAttrs = [])) then
    drop_with st kv (same_label_as (aliasOf kv.1 callerAttrs) #"which WithResourceAttributes already sets")
  else
    match seen st !! label kv with
    | Some prev => drop_with st kv (same_label_as prev #"given earlier in OTEL_RESOURCE_ATTRIBUTES")
    | None => keep st kv
    end.
Definition env_start : env_state := {| seen := ∅; kept := []; dropped := []; warnings := [] |}.
Definition EnvResourceAttributes (env : env_resource) (callerAttrs : list KeyValue) :
    list KeyValue * list bytes * list bytes :=
  match env with
  | EnvFailed err => ([], [], [ #"OTEL_RESOURCE_ATTRIBUTES: ignored: " ++ err])
  | EnvNil => ([], [], [])
  | EnvAttributes attrs =>
    let st := foldl (env_step callerAttrs) env_start attrs in (kept st, dropped st, warnings st)
  end.
End env.

Definition NeutralizeEnvKeys (dropped : list bytes) : list KeyValue :=
  (λ k, (k, StringValue [])) <$> dropped.

(** * scopeguard.go *)
Definition scopeBuiltinLabels : list bytes := [ #"name"; #"version"; #"schema_url"].
Definition scope_step (st : list bytes * list KeyValue * list KeyValue) (kv : KeyValue) :
    list bytes * list KeyValue * list KeyValue :=
  let '(seen, kept, dropped) := st in
  let l := label kv in
  if bool_decide (l = []) || bool_decide (l = #"_") then (seen, kept, dropped ++ [kv])
  else if bool_decide (l ∈ scopeBuiltinLabels) then (seen, kept, dropped ++ [kv])
  else if bool_decide (l ∈ seen) then (seen, kept, dropped ++ [kv])
  else (l :: seen, kept ++ [kv], dropped).
Definition sanitizeScopeAttributes (attrs : list KeyValue) : list KeyValue * list KeyValue :=
  let '(_, kept, dropped) := foldl scope_step ([], [], []) attrs in (kept, dropped).

(** Meter of the guarded provider: the attributes the inner provider's meter is
    created with, and the labels it warns about. *)
Definition scope_guarded_Meter (attrs : list KeyValue) : list KeyValue * list bytes :=
  if bool_decide (attrs = []) then (attrs, [])
  else
    let '(kept, dropped) := sanitizeScopeAttributes attrs in
    if bool_decide (dropped = []) then (attrs, [])
    else (kept, (λ kv, scopeLabelPrefix ++ label kv) <$> dropped).

(** * targetinfo.go *)
Section target_info.
Context (value_String : attr_value → bytes).

Definition target_step (st : list bytes * list bytes) (kv : KeyValue) : list bytes * list bytes :=
  let '(keys, values) := st in
  let l := label kv in
  if bool_decide (l = []) || HasPrefix l #"__" || negb (hasAlphanumeric kv.1) then st
  else if bool_decide (l ∈ keys) then st
  else (keys ++ [l], values ++ [value_String kv.2]).
Definition targetInfoLabels (res : option (list KeyValue)) : list bytes * list bytes :=
  match res with
  | None => ([], [])
  | Some attrs => foldl target_step ([], []) attrs
  end.
End target_info.

(** * Facts *)
Lemma SameLabel_spec a b : SameLabel a b = true ↔ NormalizePrometheusLabelName a = NormalizePrometheusLabelName b.
Proof. unfold SameLabel. apply bool_decide_eq_true. Qed.

Lemma head_filter_some {A} (P : A → Prop) `{∀ x, Decision (P x)} l x :
  head (filter P l) = Some x → P x ∧ x ∈ l.
Proof. intros Hh%head_Some_elem_of. by apply list_elem_of_filter in Hh. Qed.

Lemma head_filter_none {A} (P : A → Prop) `{∀ x, Decision (P x)} l :
  head (filter P l) = None → ∀ x, x ∈ l → ¬ P x.
Proof.
  intros Hh x Hx Hp. apply head_None in Hh. assert (x ∈ filter P l) as Hin by by apply list_elem_of_filter.
  rewrite Hh in Hin. by apply elem_of_nil in Hin.
Qed.

Lemma ResourceKeyOwner_label a b : SameLabel a b = true → ResourceKeyOwner a = ResourceKeyOwner b.
Proof. rewrite SameLabel_spec. intros E. unfold ResourceKeyOwner, SameLabel. by rewrite E. Qed.

(** The owner, when there is one, is an SDK key of the same label. *)
Lemma ResourceKeyOwner_spec key :
  let owner := (ResourceKeyOwner key).1 in
  (owner ≠ [] → owner ∈ identityResourceKeys ++ detectedResourceKeys ∧ SameLabel key owner = true)
  ∧ (owner = [] → ∀ k, k ∈ identityResourceKeys ++ detectedResourceKeys → SameLabel key k = false).
Proof.
  cbv zeta. unfold ResourceKeyOwner.
  destruct (head (filter _ identityResourceKeys)) as [k|] eqn:E1.
  { apply head_filter_some in E1 as [? Hin]. cbn [fst]. split.
    - intros _. split; [apply elem_of_app; by left|done].
    - intros ->. exfalso. revert Hin. apply (bool_decide_eq_false (_ ∈ _)). by vm_compute. }
  destruct (head (filter _ detectedResourceKeys)) as [k|] eqn:E2.
  { apply head_filter_some in E2 as [? Hin]. cbn [fst]. split.
    - intros _. split; [apply elem_of_app; by right|done].
    - intros ->. exfalso. revert Hin. apply (bool_decide_eq_false (_ ∈ _)). by vm_compute. }
  cbn [fst]. split; [done|]. intros _ k [Hk|Hk]%elem_of_app; apply not_true_is_false;
    [by eapply head_filter_none in E1|by eapply head_filter_none in E2].
Qed.

Lemma aliasOf_none key attrs c :
  aliasOf key attrs = [] → Forall (λ kv : KeyValue, kv.1 ≠ []) attrs → c ∈ attrs →
  SameLabel c.1 key = true → c.1 = key.
Proof.
  unfold aliasOf. intros H Hne Hc Hs. destruct (head _) as [kv|] eqn:E.
  - apply head_filter_some in E as [_ Hin]. rewrite Forall_forall in Hne. by destruct (Hne kv Hin).
  - destruct (decide (c.1 = key)) as [|Hd]; [done|].
    by destruct (head_filter_none _ _ E c Hc).
Qed.

(** What a kept attribute of the environment satisfies. *)
Definition env_kept_ok (callerAttrs : list KeyValue) (kv : KeyValue) : Prop :=
  (ResourceKeyOwner kv.1).1 = kv.1
  ∨ (ResourceKeyOwner kv.1).1 = [] ∧ IsTelemetrySDKKey kv.1 = false ∧ IsProcessKey kv.1 = false
    ∧ IsReservedAttributeKey kv.1 = false ∧ aliasOf kv.1 callerAttrs = [].

Section env_spec.
Context `{GoPrint} (callerAttrs : list KeyValue).

(** The invariant of the loop, over the attributes it has seen. *)
Record env_inv (done_ : list KeyValue) (st : env_state) : Prop := {
  inv_perm : (fst <$> kept st) ++ dropped st ≡ₚ fst <$> done_;
  inv_sub : ∀ kv, kv ∈ kept st → kv ∈ done_;
  inv_warn : length (warnings st) = length (dropped st);
  inv_ok : Forall (env_kept_ok callerAttrs) (kept st);
  inv_labels : NoDup ((λ kv, label kv) <$> kept st);
  inv_seen : ∀ kv, kv ∈ kept st → is_Some (seen st !! label kv);
}.

Lemma env_inv_drop l st kv why : env_inv l st → env_inv (l ++ [kv]) (drop_with st kv why).
Proof.
  intros [Hp Hs Hw Ho Hl Hseen]. split; cbn [kept dropped warnings seen drop_with]; try done.
  - rewrite fmap_app, (assoc_L (++)), Hp. done.
  - intros kv' Hin. apply elem_of_app. left. auto.
  - rewrite !length_app, Hw. done.
Qed.

Lemma env_inv_keep l st kv :
  env_inv l st → env_kept_ok callerAttrs kv → label kv ∉ ((λ kv, label kv) <$> kept st) →
  env_inv (l ++ [kv]) (keep st kv).
Proof.
  intros [Hp Hs Hw Ho Hl Hseen] Hk Hn. split; cbn [kept dropped warnings seen keep]; try done.
  - rewrite !fmap_app, <- (assoc_L (++)), (Permutation_app_comm (fst <$> [kv])), (assoc_L (++)), Hp. done.
  - intros kv' [?|?]%elem_of_app; apply elem_of_app; [left; auto|by right].
  - apply Forall_app. split; [done|by constructor].
  - rewrite fmap_app. apply NoDup_app. split; [done|]. split; [|apply NoDup_singleton].
    intros x Hx Hx'. apply list_elem_of_singleton in Hx'. by subst.
  - intros kv' [Hin|Hin%list_elem_of_singleton]%elem_of_app.
    + destruct (decide (label kv' = label kv)) as [->|Hne]; [by rewrite lookup_insert_eq|].
      rewrite lookup_insert_ne by done. auto.
    + subst kv'. by rewrite lookup_insert_eq.
Qed.

Lemma env_step_inv l st kv :
  env_inv l st → kv.1 ≠ [] → kv.1 ∉ (fst <$> l) → env_inv (l ++ [kv]) (env_step callerAttrs st kv).
Proof.
  intros Hi Hne Hnew. unfold env_step.
  case_bool_decide as Howner.
  { apply env_inv_keep; [done|by left|]. intros (kv' & Heq & Hin)%list_elem_of_fmap.
    destruct Hi as [_ Hsub _ Hok _ _]. rewrite Forall_forall in Hok.
    assert (kv'.1 ∈ (fst <$> l)) as Hl by (apply list_elem_of_fmap; eauto).
    assert (ResourceKeyOwner kv'.1 = ResourceKeyOwner kv.1) as Eo
      by (apply ResourceKeyOwner_label, SameLabel_spec; done).
    destruct (Hok kv' Hin) as [Ho|[Ho _]]; rewrite Eo in Ho; congruence. }
  case_bool_decide as Hno; cbn [negb]; [|by apply env_inv_drop].
  destruct (IsTelemetrySDKKey kv.1) eqn:Ht; [by apply env_inv_drop|].
  destruct (IsProcessKey kv.1) eqn:Hp; [by apply env_inv_drop|].
  destruct (IsReservedAttributeKey kv.1) eqn:Hr; [by apply env_inv_drop|].
  case_bool_decide as Ha; cbn [negb]; [|by apply env_inv_drop].
  destruct (seen st !! label kv) as [prev|] eqn:Hs; [by apply env_inv_drop|].
  apply env_inv_keep; [done|right; done|]. intros (kv' & Heq & Hin)%list_elem_of_fmap.
  destruct (inv_seen _ _ Hi kv' Hin) as [x Hx]. congruence.
Qed.

Lemma env_fold_inv l attrs st :
  env_inv l st → Forall (λ kv : KeyValue, kv.1 ≠ []) attrs → NoDup (fst <$> (l ++ attrs)) →
  env_inv (l ++ attrs) (foldl (env_step callerAttrs) st attrs).
Proof.
  revert l st. induction attrs as [|kv attrs IH]; intros l st Hi Hne Hnd; cbn [foldl].
  { by rewrite app_nil_r. }
  rewrite (cons_middle kv l attrs), (assoc_L (++)) in *.
  apply Forall_cons in Hne as [Hk Hne]. apply IH; [|done|done].
  apply env_step_inv; [done|done|]. intros Hin.
  rewrite !fmap_app, <- (assoc_L (++)) in Hnd. apply NoDup_app in Hnd as (_ & Hd & _).
  apply (Hd _ Hin). set_solver.
Qed.

Lemma env_start_inv : env_inv [] env_start.
Proof. split; cbn; try done; try constructor; intros kv Hkv; by apply elem_of_nil in Hkv. Qed.
End env_spec.

(** * Scope attributes *)
Definition unusable_label (l : bytes) : Prop := l = [] ∨ l = #"_" ∨ l ∈ scopeBuiltinLabels.

Record scope_inv (done_ : list KeyValue) (st : list bytes * list KeyValue * list KeyValue) : Prop := {
  scope_perm : st.1.2 ++ st.2 ≡ₚ done_;
  scope_seen : ∀ l, l ∈ st.1.1 ↔ l ∈ ((λ kv, label kv) <$> st.1.2);
  scope_labels : NoDup ((λ kv, label kv) <$> st.1.2);
  scope_kept : ∀ kv, kv ∈ st.1.2 → ¬ unusable_label (label kv);
  scope_dropped : ∀ kv, kv ∈ st.2 →
    unusable_label (label kv) ∨ label kv ∈ ((λ kv, label kv) <$> st.1.2);
}.

Lemma scope_inv_drop l seen kept dropped kv :
  scope_inv l (seen, kept, dropped) → unusable_label (label kv) ∨ label kv ∈ seen →
  scope_inv (l ++ [kv]) (seen, kept, dropped ++ [kv]).
Proof.
  intros [Hp Hs Hl Hk Hd] Hbad. split; cbn [fst snd] in *; try done.
  - by rewrite (assoc_L (++)), Hp.
  - intros kv' [?|Hin%list_elem_of_singleton]%elem_of_app; [auto|]. subst. rewrite <- Hs. done.
Qed.

Lemma scope_inv_keep l seen kept dropped kv :
  scope_inv l (seen, kept, dropped) → ¬ unusable_label (label kv) → label kv ∉ seen →
  scope_inv (l ++ [kv]) (label kv :: seen, kept ++ [kv], dropped).
Proof.
  intros [Hp Hs Hl Hk Hd] Hgood Hnew. split; cbn [fst snd] in *.
  - rewrite <- (assoc_L (++)), (Permutation_app_comm [kv]), (assoc_L (++)), Hp. done.
  - intros x. rewrite fmap_app, elem_of_app, elem_of_cons, Hs.
    cbn [fmap list_fmap]. rewrite list_elem_of_singleton. tauto.
  - rewrite fmap_app. apply NoDup_app. split; [done|]. split; [|apply NoDup_singleton].
    intros x Hx Hx'%list_elem_of_singleton. subst x. by apply Hs in Hx.
  - intros kv' [?|Hin%list_elem_of_singleton]%elem_of_app; [auto|by subst].
  - intros kv' Hin. rewrite fmap_app, elem_of_app. destruct (Hd kv' Hin); auto.
Qed.

Lemma scope_step_inv l st kv : scope_inv l st → scope_inv (l ++ [kv]) (scope_step st kv).
Proof.
  destruct st as [[seen kept] dropped]. intros Hi. unfold scope_step.
  destruct (bool_decide (label kv = []) || bool_decide (label kv = #"_")) eqn:E1.
  { apply scope_inv_drop; [done|]. left. apply orb_true_iff in E1.
    rewrite !bool_decide_eq_true in E1. unfold unusable_label. tauto. }
  apply orb_false_iff in E1. rewrite !bool_decide_eq_false in E1.
  case_bool_decide as E2; [apply scope_inv_drop; [done|]; left; by right; right|].
  case_bool_decide as E3; [apply scope_inv_drop; [done|by right]|].
  apply scope_inv_keep; [done| |done]. unfold unusable_label. tauto.
Qed.

Lemma scope_fold_inv l attrs st : scope_inv l st → scope_inv (l ++ attrs) (foldl scope_step st attrs).
Proof.
  revert l st. induction attrs as [|kv attrs IH]; intros l st Hi; cbn [foldl]; [by rewrite app_nil_r|].
  rewrite (cons_middle kv l attrs), (assoc_L (++)). by apply IH, scope_step_inv.
Qed.

Lemma scope_start_inv : scope_inv [] ([], [], []).
Proof.
  split; cbn; try done; try (intros kv Hkv; by apply elem_of_nil in Hkv). apply NoDup_nil_2.
Qed.

(** * Target info *)
Section target_spec.
Context (value_String : attr_value → bytes).

Definition target_label (l : bytes) : Prop := valid_label l ∧ prefixb #"__" l = false.

Lemma target_step_inv st kv :
  NoDup st.1 → length st.1 = length st.2 → Forall target_label st.1 →
  let st' := target_step value_String st kv in
  NoDup st'.1 ∧ length st'.1 = length st'.2 ∧ Forall target_label st'.1
  ∧ st.1 `prefix_of` st'.1 ∧ st.2 `prefix_of` st'.2
  ∧ (target_label (label kv) → hasAlphanumeric kv.1 = true → label kv ∈ st'.1).
Proof.
  destruct st as [keys values]. cbv zeta. unfold target_step. cbn [fst snd]. intros Hnd Hlen Hok.
  destruct (_ || _ || _) eqn:E1.
  { split_and!; try done. intros [[Hne _] Hp] Ha. rewrite Ha in E1. unfold HasPrefix in E1.
    rewrite Hp, (bool_decide_false _ Hne) in E1. done. }
  apply orb_false_iff in E1 as [[E1 E2]%orb_false_iff E3]. apply bool_decide_eq_false in E1.
  case_bool_decide as E4; [by split_and!|]. cbn [fst snd].
  split_and!; [|by rewrite !length_app, Hlen| |by eexists|by eexists|set_solver].
  - apply NoDup_app. split; [done|]. split; [set_solver|apply NoDup_singleton].
  - apply Forall_app. split; [done|]. constructor; [|done]. split; [|done].
    apply Normalize_label. intros E. by rewrite E in E1.
Qed.

Lemma target_fold_inv attrs st :
  NoDup st.1 → length st.1 = length st.2 → Forall target_label st.1 →
  let st' := foldl (target_step value_String) st attrs in
  NoDup st'.1 ∧ length st'.1 = length st'.2 ∧ Forall target_label st'.1
  ∧ st.1 `prefix_of` st'.1
  ∧ ∀ kv, kv ∈ attrs → target_label (label kv) → hasAlphanumeric kv.1 = true → label kv ∈ st'.1.
Proof.
  cbv zeta. revert st. induction attrs as [|kv attrs IH]; intros st Hnd Hlen Hok; cbn [foldl].
  { split_and!; try done. intros kv Hkv. by apply elem_of_nil in Hkv. }
  destruct (target_step_inv st kv Hnd Hlen Hok) as (H1 & H2 & H3 & H4 & _ & H6).
  destruct (IH _ H1 H2 H3) as (I1 & I2 & I3 & I4 & I5).
  split_and!; [done|done|done|by etrans|].
  intros kv' [->|Hin]%elem_of_cons Hl Ha; [|by apply I5].
  destruct I4 as [r ->]. apply elem_of_app. left. by apply H6.
Qed.
End target_spec.

(** * Properties *)

(** The attributes of the environment that go into the Resource. Each
    attribute is kept or dropped, a warning for each one dropped; no two kept
    attributes have the same Prometheus label; and a kept attribute is an
    SDK-owned key itself, or shares its label with no SDK-owned key, is outside
    telemetry.sdk.* and process.*, is no key the exporter reserves, and shares
    its label with no attribute of the caller but its own key. *)
Theorem EnvResourceAttributes_guarded `{GoPrint} (env callerAttrs : list KeyValue)
    (Hkeys : NoDup (fst <$> env)) (Hne : Forall (λ kv : KeyValue, kv.1 ≠ []) env)
    (Hcaller : Forall (λ kv : KeyValue, kv.1 ≠ []) callerAttrs) :
  let '(kept, dropped, warnings) := EnvResourceAttributes (EnvAttributes env) callerAttrs in
  (fst <$> kept) ++ dropped ≡ₚ fst <$> env ∧ (∀ kv, kv ∈ kept → kv ∈ env)
  ∧ length warnings = length dropped
  ∧ NoDup ((λ kv, label kv) <$> kept)
  ∧ (∀ kv, kv ∈ kept → kv.1 ∈ identityResourceKeys ++ detectedResourceKeys
      ∨ (∀ k, k ∈ identityResourceKeys ++ detectedResourceKeys → SameLabel kv.1 k = false)
        ∧ IsTelemetrySDKKey kv.1 = false ∧ IsProcessKey kv.1 = false
        ∧ IsReservedAttributeKey kv.1 = false
        ∧ ∀ c, c ∈ callerAttrs → SameLabel c.1 kv.1 = true → c.1 = kv.1).
Proof.
  unfold EnvResourceAttributes. cbv zeta.
  destruct (env_fold_inv callerAttrs [] env env_start (env_start_inv _) Hne Hkeys) as [Hp Hs Hw Ho Hl _].
  split_and!; [done|done|done|done|]. intros kv Hin. rewrite Forall_forall in Ho.
  assert (kv.1 ≠ []) as Hk by (rewrite Forall_forall in Hne; auto).
  destruct (ResourceKeyOwner_spec kv.1) as [Hown Hnone].
  destruct (Ho kv Hin) as [Eo|(Eo & ? & ? & ? & Ha)]; [left|right].
  - rewrite Eo in Hown. by apply Hown.
  - split_and!; [by apply Hnone|done|done|done|]. intros c Hc Hsame. by eapply aliasOf_none.
Qed.

Definition sample_env : list KeyValue :=
  [( #"process.command_args", StringValue #"--token=x"); ( #"service-name", StringValue #"evil");
   ( #"service.name", StringValue #"svc"); ( #"team", StringValue #"a"); ( #"team_", StringValue #"b");
   ( #"tier", StringValue #"c")].

Lemma EnvResourceAttributes_guarded_witness :
  let '(kept, dropped, warnings) :=
    EnvResourceAttributes (EnvAttributes sample_env) [( #"tier", StringValue #"gold")] in
  fst <$> kept = [ #"service.name"; #"team"; #"team_"; #"tier"]
  ∧ dropped = [ #"process.command_args"; #"service-name"]
  ∧ NoDup ((λ kv, label kv) <$> kept).
Proof.
  pose proof (EnvResourceAttributes_guarded sample_env [( #"tier", StringValue #"gold")]) as H.
  destruct (EnvResourceAttributes (EnvAttributes sample_env) _) as [[kept dropped] warnings] eqn:E.
  split; [|split].
  - vm_compute in E. by simplify_eq.
  - vm_compute in E. by simplify_eq.
  - apply H.
    + apply (bool_decide_unpack _). by vm_compute.
    + apply (bool_decide_unpack _). by vm_compute.
    + apply (bool_decide_unpack _). by vm_compute.
Defined.

(** What a guarded meter is created with. The scope attributes are split
    into those kept and those dropped: the kept ones have usable labels, none of
    them one the exporter emits itself, no two the same, and one is dropped only
    for a label that is unusable or taken by a kept one; a meter none of whose
    attributes is dropped is created with them as they are, and otherwise a
    warning is logged for each. *)
Theorem scope_attributes_guarded (attrs : list KeyValue) :
  let '(kept, dropped) := sanitizeScopeAttributes attrs in
  kept ++ dropped ≡ₚ attrs
  ∧ NoDup ((λ kv, label kv) <$> kept)
  ∧ (∀ kv, kv ∈ kept → ¬ unusable_label (label kv))
  ∧ (∀ kv, kv ∈ dropped → unusable_label (label kv) ∨ ∃ kv', kv' ∈ kept ∧ label kv' = label kv)
  ∧ (dropped = [] → scope_guarded_Meter attrs = (attrs, []))
  ∧ (dropped ≠ [] → scope_guarded_Meter attrs = (kept, (λ kv, scopeLabelPrefix ++ label kv) <$> dropped)).
Proof.
  pose proof (scope_fold_inv [] attrs _ scope_start_inv) as Hi.
  unfold scope_guarded_Meter, sanitizeScopeAttributes.
  destruct (foldl scope_step _ attrs) as [[seen kept] dropped]. destruct Hi as [Hp _ Hl Hk Hd].
  cbn [fst snd app] in *. split_and!; [done|done|done| | | ].
  - intros kv Hin. destruct (Hd kv Hin) as [?|(kv' & ? & ?)%list_elem_of_fmap]; [by left|right; eauto].
  - intros ->. by case_bool_decide.
  - intros Hne. rewrite (bool_decide_false (dropped = [])) by done. case_bool_decide as E; [|done].
    subst. apply Permutation_nil_r in Hp. by apply app_eq_nil in Hp as [_ ->].
Qed.

(** The target_info family. Its label names are distinct label names of the
    Prometheus data model, none with the internal prefix, one value for each;
    and a resource attribute whose label qualifies is represented. *)
Theorem targetInfoLabels_spec (value_String : attr_value → bytes) (attrs : list KeyValue) :
  let '(keys, values) := targetInfoLabels value_String (Some attrs) in
  NoDup keys ∧ length keys = length values
  ∧ (∀ l, l ∈ keys → valid_label l ∧ prefixb #"__" l = false)
  ∧ (∀ kv, kv ∈ attrs → target_label (label kv) → hasAlphanumeric kv.1 = true → label kv ∈ keys).
Proof.
  cbn [targetInfoLabels].
  destruct (target_fold_inv value_String attrs ([], [])) as (H1 & H2 & H3 & _ & H5);
    [apply NoDup_nil_2|done|constructor|].
  destruct (foldl _ _ _) as [keys values]. cbn [fst snd] in *.
  split_and!; [done|done| |done]. intros l Hl. rewrite Forall_forall in H3. by apply H3.
Qed.
