(* ===== verification/MetricCap.v ===== *)
(** internal/metricscap/reader.go: the caps on attribute values at the export
    boundary. A bucket admits the first [max] values it sees and collapses the
    rest into one; the points that then carry the same attributes are merged.
    Buckets are observed one value at a time, under their mutex. Points are
    values here, so the clones the code makes before it merges are the points
    themselves. *)
From S2P Require Import Prelude Utf8 GoStrings GoNum Attribute.

(** * The budget *)
Definition OverflowValue : bytes := #"other".

Record bucket := { bucket_key : bytes; max : nat; seen : list bytes }.
Definition new_bucket (key : bytes) (max : nat) : bucket := {| bucket_key := key; max := max; seen := [] |}.

(** observe; [seen] is a Go map used as a set: the values in it, newest first. *)
Definition observe (b : bucket) (value : bytes) : bytes * bucket :=
  if decide (value ∈ seen b) then (value, b)
  else if max b <=? length (seen b) then (OverflowValue, b)
  else (value, {| bucket_key := bucket_key b; max := max b; seen := value :: seen b |}).

(** LoadOrStore on the budgets of a limiter: the first rule of a budget decides
    its size. *)
Definition load_or_store (bs : gmap bytes bucket) (name : bytes) (b : bucket) : bucket := default b (bs !! name).

(** A bucket over the values it is asked about, in order. *)
Fixpoint observe_all (b : bucket) (values : list bytes) : list bytes * bucket :=
  match values with
  | [] => ([], b)
  | v :: vs => let '(out, b) := observe b v in
               let '(outs, b) := observe_all b vs in (out :: outs, b)
  end.

(** * Merging the points that share their attributes *)
Section merge.
Context {A K : Type} `{EqDecision K} (key : A → K) (merge : A → A → A).

(** The Go map from keys to positions in the output, newest entry first. *)
Definition index_lookup (index : list (K * nat)) (k : K) : option nat :=
  snd <$> head (filter (λ e : K * nat, e.1 = k) index).
Definition merge_step (st : list (K * nat) * list A) (dp : A) : list (K * nat) * list A :=
  let '(index, out) := st in
  match index_lookup index (key dp) with
  | Some i => (index, alter (λ x, merge x dp) i out)
  | None => ((key dp, length out) :: index, out ++ [dp])
  end.
Definition merge_points (l : list A) : list A := (foldl merge_step ([], []) l).2.

(** The points of one key, merged from the first on. *)
Definition merged_group (l : list A) (k : K) : option A :=
  match filter (λ x, key x = k) l with
  | [] => None
  | x :: rest => Some (foldl merge x rest)
  end.

Record merge_inv (p : list A) (st : list (K * nat) * list A) : Prop := {
  merge_index : ∀ k i, index_lookup st.1 k = Some i ↔ ∃ x, st.2 !! i = Some x ∧ key x = k;
  merge_keys : ∀ k, k ∈ (key <$> st.2) ↔ k ∈ (key <$> p);
  merge_value : ∀ x, x ∈ st.2 → merged_group p (key x) = Some x;
}.

Lemma index_lookup_cons k k' i index :
  index_lookup ((k', i) :: index) k = if decide (k' = k) then Some i else index_lookup index k.
Proof. unfold index_lookup. rewrite filter_cons. cbn. by case_decide. Qed.

Lemma merged_group_snoc p k dp :
  merged_group (p ++ [dp]) k
  = if decide (key dp = k) then Some (match merged_group p k with Some x => merge x dp | None => dp end)
    else merged_group p k.
Proof.
  unfold merged_group. rewrite filter_app, filter_cons, filter_nil. case_decide.
  - destruct (filter _ p) as [|x r]; [done|]. cbn. by rewrite foldl_app.
  - by rewrite app_nil_r.
Qed.

Lemma merged_group_None p k : merged_group p k = None ↔ k ∉ (key <$> p).
Proof.
  unfold merged_group. rewrite list_elem_of_fmap. split.
  - intros H (x & -> & Hx). destruct (filter _ p) eqn:E; [|done].
    assert (x ∈ filter (λ y, key y = key x) p) as Hf by by apply list_elem_of_filter.
    rewrite E in Hf. by apply elem_of_nil in Hf.
  - intros H. destruct (filter _ p) as [|x r] eqn:E; [done|]. destruct H.
    assert (x ∈ filter (λ y, key y = k) p) as Hf by (rewrite E; set_solver).
    apply list_elem_of_filter in Hf as [<- ?]. eauto.
Qed.

Context (Hkey : ∀ a b, key b = key a → key (merge a b) = key a).

Lemma merge_step_inv p st dp : merge_inv p st → merge_inv (p ++ [dp]) (merge_step st dp).
Proof.
  destruct st as [index out]. intros [Hi Hk Hv]. cbn [fst snd merge_step] in *.
  destruct (index_lookup index (key dp)) as [i|] eqn:E.
  - pose proof (proj1 (Hi _ _) E) as (x0 & Hx0 & Hkx).
    assert (Halter : ∀ j y, alter (λ x, merge x dp) i out !! j = Some y →
              ∃ x, out !! j = Some x ∧ key y = key x ∧ y = if decide (j = i) then merge x dp else x).
    { intros j y Hy. destruct (decide (j = i)) as [->|Hne].
      - rewrite list_lookup_alter_eq, Hx0 in Hy. cbn in Hy. simplify_eq. exists x0. by rewrite Hkey by done.
      - rewrite list_lookup_alter_ne in Hy by done. by exists y. }
    assert (Hkeys : key <$> alter (λ x, merge x dp) i out = key <$> out).
    { apply list_eq. intros j. rewrite !list_lookup_fmap. destruct (decide (j = i)) as [->|].
      - rewrite list_lookup_alter_eq, Hx0. cbn. by rewrite Hkey by done.
      - by rewrite list_lookup_alter_ne. }
    split; cbn [fst snd].
    + intros k j. rewrite Hi. split; intros (x & Hx & <-).
      * assert (key <$> (alter (λ x, merge x dp) i out !! j) = Some (key x)) as Hf.
        { rewrite <- list_lookup_fmap, Hkeys, list_lookup_fmap. by rewrite Hx. }
        destruct (alter _ i out !! j) as [y|]; [|done]. cbn in Hf. exists y. split; [done|congruence].
      * apply Halter in Hx as (y & Hy & -> & _). eauto.
    + intros k. rewrite Hkeys, Hk, fmap_app, elem_of_app. cbn. rewrite list_elem_of_singleton.
      split; [by left|]. intros [?| ->]; [done|]. apply Hk, list_elem_of_fmap. exists x0.
      split; [done|]. by eapply list_elem_of_lookup_2.
    + intros y (j & Hy)%list_elem_of_lookup. apply Halter in Hy as (x & Hx & Hkey' & ->).
      rewrite merged_group_snoc, Hkey', (Hv x) by by eapply list_elem_of_lookup_2.
      destruct (decide (key dp = key x)) as [Ed|Ed]; destruct (decide (j = i)) as [Ej|Ej]; try done.
      * exfalso. apply Ej. assert (index_lookup index (key x) = Some j) as E2 by (apply Hi; eauto).
        rewrite <- Ed in E2. congruence.
      * subst. congruence.
  - assert (Hnew : key dp ∉ (key <$> out)).
    { intros (x & Hx & (j & Hj)%list_elem_of_lookup)%list_elem_of_fmap.
      assert (index_lookup index (key dp) = Some j) by (apply Hi; eauto). congruence. }
    split; cbn [fst snd].
    + intros k j. rewrite index_lookup_cons. case_decide as Hd.
      * subst. split.
        -- intros [= <-]. exists dp. by rewrite lookup_app_r, Nat.sub_diag by lia.
        -- intros (x & [Hx|[? Hx]]%lookup_app_Some & Hkx).
           ++ destruct Hnew. apply list_elem_of_fmap. exists x. split; [done|]. by eapply list_elem_of_lookup_2.
           ++ apply list_lookup_singleton_Some in Hx as [? _]. f_equal. lia.
      * rewrite Hi. split.
        -- intros (x & Hx & ?). exists x. split; [by apply lookup_app_l_Some|done].
        -- intros (x & [Hx|[? Hx]]%lookup_app_Some & ?); [eauto|].
           apply list_lookup_singleton_Some in Hx as [_ <-]. done.
    + intros k. by rewrite !fmap_app, !elem_of_app, Hk.
    + intros x [Hx|Hx%list_elem_of_singleton]%elem_of_app; rewrite merged_group_snoc.
      * rewrite decide_False; [by apply Hv|]. intros Ed. apply Hnew. rewrite Ed.
        apply list_elem_of_fmap. eauto.
      * subst. rewrite decide_True by done. rewrite (proj2 (merged_group_None p (key dp))); [done|].
        by rewrite <- Hk.
Qed.

Lemma merge_fold_inv p l st : merge_inv p st → merge_inv (p ++ l) (foldl merge_step st l).
Proof.
  revert p st. induction l as [|dp l IH]; intros p st H; cbn [foldl]; [by rewrite app_nil_r|].
  rewrite (cons_middle dp p l), (assoc_L (++)). by apply IH, merge_step_inv.
Qed.

Lemma merge_start_inv : merge_inv [] ([], []).
Proof.
  split; cbn; [|done|intros x Hx; by apply elem_of_nil in Hx].
  intros k i. split; [done|]. intros (x & Hx & _). by rewrite lookup_nil in Hx.
Qed.

(** One point for each key there is, each the merge of its points. *)
Lemma merge_points_spec l :
  NoDup (key <$> merge_points l)
  ∧ (∀ k, k ∈ (key <$> merge_points l) ↔ k ∈ (key <$> l))
  ∧ (∀ x, x ∈ merge_points l → merged_group l (key x) = Some x).
Proof.
  unfold merge_points. pose proof (merge_fold_inv [] l _ merge_start_inv) as [Hi Hk Hv].
  destruct (foldl merge_step _ l) as [index out]. cbn [fst snd app] in *. split_and!; [|done|done].
  apply NoDup_alt. intros i j k. rewrite !list_lookup_fmap.
  intros (x & Hx & Hkx)%fmap_Some (y & Hy & Hky)%fmap_Some.
  assert (index_lookup index k = Some i) by (apply Hi; eauto).
  assert (index_lookup index k = Some j) by (apply Hi; eauto). congruence.
Qed.
End merge.

(** * Totals *)
Fixpoint sum_of {A} (m : A → Z) (l : list A) : Z :=
  match l with [] => 0%Z | x :: l' => (m x + sum_of m l')%Z end.

Lemma sum_of_app {A} (m : A → Z) a b : sum_of m (a ++ b) = (sum_of m a + sum_of m b)%Z.
Proof. induction a as [|x a IH]; cbn [app sum_of]; [lia|]. rewrite IH. lia. Qed.

Lemma sum_of_alter {A} (m : A → Z) (f : A → A) (l : list A) i x :
  l !! i = Some x → sum_of m (alter f i l) = (sum_of m l - m x + m (f x))%Z.
Proof.
  revert i. induction l as [|y l IH]; intros [|i] H; [done|done| | ].
  - cbn in H. simplify_eq. cbn [alter list_alter sum_of]. lia.
  - cbn in H. change (alter f (S i) (y :: l)) with (y :: alter f i l). cbn [sum_of]. rewrite (IH i H). lia.
Qed.

(** What merging adds up is not lost, up to the width it is counted in, over
    points that have what merging needs. *)
Lemma merge_points_total_on {A K} `{EqDecision K} (key : A → K) merge (m : A → Z) (good : A → Prop) (R : relation Z)
    `{!Equivalence R} `{!Proper (R ==> R ==> R) Z.add} `{!Proper (R ==> R ==> R) Z.sub} l :
  (∀ a b, key b = key a → key (merge a b) = key a) → (∀ a b, good a → good b → good (merge a b)) →
  (∀ a b, good a → good b → R (m (merge a b)) (m a + m b)%Z) → Forall good l →
  R (sum_of m (merge_points key merge l)) (sum_of m l) ∧ Forall good (merge_points key merge l).
Proof.
  intros Hkey Hgood Hm Hl. unfold merge_points.
  assert (Hgen : ∀ p st, merge_inv key merge p st → Forall good st.2 →
    R (sum_of m (foldl (merge_step key merge) st l).2) (sum_of m st.2 + sum_of m l)%Z
    ∧ Forall good (foldl (merge_step key merge) st l).2).
  { induction Hl as [|dp l Hdp Hl IH]; intros p st Hi Hst; cbn [foldl].
    { cbn. by rewrite Z.add_0_r. }
    assert (R (sum_of m (merge_step key merge st dp).2) (sum_of m st.2 + m dp)%Z
            ∧ Forall good (merge_step key merge st dp).2) as [Ht Hg].
    { destruct st as [index out]. cbn [merge_step]. cbn [snd] in Hst.
      destruct (index_lookup index (key dp)) as [i|] eqn:E.
      - destruct Hi as [Hi _ _]. cbn [fst snd] in *. apply Hi in E as (x & Hx & _).
        assert (good x) as Hgx by by eapply Forall_lookup_1. split.
        + rewrite (sum_of_alter m _ out i x Hx), Hm by done. apply eq_subrelation; [apply _|lia].
        + apply Forall_alter; [done|]. intros y Hy _. simplify_eq. by apply Hgood.
      - cbn [snd]. split; [|apply Forall_app; by repeat constructor].
        rewrite sum_of_app. apply eq_subrelation; [apply _|]. cbn. lia. }
    destruct (IH _ _ (merge_step_inv key merge Hkey _ _ dp Hi) Hg) as [IH1 IH2]. split; [|done].
    rewrite IH1, Ht. apply eq_subrelation; [apply _|]. cbn. lia. }
  destruct (Hgen [] _ (merge_start_inv key merge) (Forall_nil_2 _)) as [H1 H2]. split; [|done].
  by rewrite H1, Z.add_0_l.
Qed.

Lemma merge_points_total {A K} `{EqDecision K} (key : A → K) merge (m : A → Z) (R : relation Z) `{!Equivalence R}
    `{!Proper (R ==> R ==> R) Z.add} `{!Proper (R ==> R ==> R) Z.sub} l :
  (∀ a b, key b = key a → key (merge a b) = key a) → (∀ a b, R (m (merge a b)) (m a + m b)%Z) →
  R (sum_of m (merge_points key merge l)) (sum_of m l).
Proof.
  intros Hkey Hm. refine (proj1 (merge_points_total_on key merge m (λ _, True) R l Hkey _ _ _)); [done|auto|].
  by apply Forall_true.
Qed.

(** * The bucket *)
Record bucket_ok (b : bucket) : Prop := {
  bucket_bound : length (seen b) ≤ max b;
  bucket_distinct : NoDup (seen b);
}.

Lemma new_bucket_ok k n : bucket_ok (new_bucket k n).
Proof. split; [simpl; lia|constructor]. Qed.

Lemma observe_spec b v :
  let '(out, b') := observe b v in
  (bucket_ok b → bucket_ok b') ∧ max b' = max b ∧ (∃ l, seen b' = l ++ seen b)
  ∧ (out = v ∧ v ∈ seen b' ∨ out = OverflowValue ∧ v ∉ seen b' ∧ max b ≤ length (seen b)).
Proof.
  unfold observe. case_decide as Hin.
  { split_and!; [done|done|by exists []|by left]. }
  destruct (max b <=? length (seen b)) eqn:E.
  { split_and!; [done|done|by exists []|right; split_and!; [done|done|lia]]. }
  split_and!; [|done|by exists [v]|left; split; [done|cbn; set_solver]].
  intros [Hb Hd]. split; cbn; [lia|by constructor].
Qed.

Lemma observe_seen b v x : x ∈ seen (observe b v).2 → x ∈ seen b ∨ x = v.
Proof. unfold observe. repeat case_match; cbn; set_solver. Qed.

(** Every answer of a run of observations, against the bucket it ends in. *)
Lemma observe_all_spec b values :
  let '(outs, b') := observe_all b values in
  (bucket_ok b → bucket_ok b') ∧ max b' = max b ∧ (∃ l, seen b' = l ++ seen b)
  ∧ (∀ v, v ∈ seen b' → v ∈ seen b ∨ v ∈ values)
  ∧ (bucket_ok b → Forall2 (λ v out, out = v ∧ v ∈ seen b'
       ∨ out = OverflowValue ∧ v ∉ seen b' ∧ length (seen b') = max b') values outs).
Proof.
  revert b. induction values as [|v vs IH]; intros b; cbn [observe_all].
  { split_and!; [done|done|by exists []|by left|constructor]. }
  pose proof (observe_spec b v) as Ho. pose proof (observe_seen b v) as Hnew.
  destruct (observe b v) as [out b1]. cbn [snd] in Hnew.
  destruct Ho as (Hok & Hmax & [l1 Hl1] & Hout). specialize (IH b1).
  destruct (observe_all b1 vs) as [outs b2]. destruct IH as (Hok2 & Hmax2 & [l2 Hl2] & Hs & Hf).
  split_and!; [auto|congruence|exists (l2 ++ l1); by rewrite Hl2, Hl1, (assoc_L (++))| |].
  { intros x Hx. destruct (Hs x Hx) as [?%Hnew|?]; set_solver. }
  intros Hb. constructor; [|by apply Hf, Hok].
  destruct Hout as [[-> Hin]|(-> & Hn & Hfull)]; [left; split; [done|rewrite Hl2; set_solver]|right].
  split; [done|]. destruct (Hok2 (Hok Hb)) as [Hb2 Hd2]. destruct (Hok Hb) as [Hb1 _].
  rewrite Hl2, length_app, Hmax2, Hmax in Hb2. rewrite Hl1, length_app in Hb2.
  destruct l2; [|simpl in Hb2; lia]. rewrite Hl2, Hmax2, Hmax. cbn [app].
  split; [done|]. rewrite Hl1, length_app. simpl in *. lia.
Qed.

Lemma observe_all_app b a c :
  observe_all b (a ++ c)
  = let '(o1, b1) := observe_all b a in let '(o2, b2) := observe_all b1 c in (o1 ++ o2, b2).
Proof.
  revert b. induction a as [|v a IH]; intros b; cbn [app observe_all]; [by destruct (observe_all b c)|].
  destruct (observe b v) as [out b1]. rewrite IH. destruct (observe_all b1 a) as [o1 b2].
  by destruct (observe_all b2 c).
Qed.

(** * Budgets in use *)

(** A bucket that has gone on being observed. *)
Record grows (b b' : bucket) : Prop := {
  grows_max : max b' = max b;
  grows_seen : ∀ v, v ∈ seen b → v ∈ seen b';
  grows_ok : bucket_ok b → bucket_ok b';
}.
#[export] Instance grows_preorder : PreOrder grows.
Proof.
  split; [by split|]. intros b1 b2 b3 [? ? ?] [? ? ?]. split; [congruence|auto|auto].
Qed.

Lemma observe_grows b v : grows b (observe b v).2.
Proof.
  pose proof (observe_spec b v) as Ho. destruct (observe b v) as [out b'].
  destruct Ho as (Hok & Hm & [l Hl] & _). split; cbn; [done| |done]. intros x Hx. rewrite Hl. set_solver.
Qed.

(** What a capped attribute may be exported as. *)
Definition admitted (b : bucket) (v : bytes) : Prop := v ∈ seen b ∨ v = OverflowValue.

Lemma admitted_grows b b' v : grows b b' → admitted b v → admitted b' v.
Proof. intros Hg [?|?]; [left; by apply Hg|by right]. Qed.

(** An answer is admitted from then on, and it is the value or the overflow value. *)
Lemma observe_admitted b v : let '(out, b') := observe b v in admitted b' out ∧ (out = v ∨ out = OverflowValue).
Proof.
  pose proof (observe_spec b v) as Ho. destruct (observe b v) as [out b'].
  destruct Ho as (_ & _ & _ & [[-> ?]|[-> _]]); unfold admitted; auto.
Qed.

(** What the budgets of a limiter promise: each keeps its bound, which is the one
    of a rule that spends it. *)
Definition budgets_ok {R} (name_of : R → bytes) (room : R → nat) (rs : list R) (bs : gmap bytes bucket) : Prop :=
  ∀ name b, bs !! name = Some b → bucket_ok b ∧ ∃ r, r ∈ rs ∧ name_of r = name ∧ max b = room r.
Definition budgets_grow (bs bs' : gmap bytes bucket) : Prop :=
  ∀ name b, bs !! name = Some b → ∃ b', bs' !! name = Some b' ∧ grows b b'.
#[export] Instance budgets_grow_preorder : PreOrder budgets_grow.
Proof.
  split.
  - intros bs name b Hb. by exists b.
  - intros b1 b2 b3 H12 H23 name b (b' & Hb' & ?)%H12. apply H23 in Hb' as (b'' & Hb'' & ?).
    exists b''. split; [done|by etrans].
Qed.

(** A rule spends its budget. *)
Lemma budgets_spend {R} (name_of : R → bytes) (room : R → nat) rs bs r key b' :
  r ∈ rs → budgets_ok name_of room rs bs →
  grows (load_or_store bs (name_of r) (new_bucket key (room r))) b' →
  budgets_ok name_of room rs (<[name_of r := b']> bs) ∧ budgets_grow bs (<[name_of r := b']> bs).
Proof.
  intros Hr Hok Hg. split.
  - intros name b [[<- <-]|[_ ?]]%lookup_insert_Some; [|by apply Hok]. rewrite (grows_max _ _ Hg).
    unfold load_or_store in *. destruct (bs !! name_of r) as [b|] eqn:Eb; cbn [default] in *.
    + destruct (Hok _ _ Eb) as [? Hm]. split; [by apply Hg|done].
    + split; [apply Hg, new_bucket_ok|by exists r].
  - intros name b Hb. destruct (decide (name_of r = name)) as [<-|Hne].
    + exists b'. rewrite lookup_insert_eq. split; [done|]. revert Hg. unfold load_or_store. by rewrite Hb.
    + exists b. by rewrite lookup_insert_ne.
Qed.

(** * Properties *)

(** C37: the contract of a cap. Over any values a budget is asked about, at most
    [max] distinct values are ever exported as themselves; each value is
    exported as itself from the first time to the last or collapsed from the
    first time to the last; and as long as there are no more distinct values
    than the budget, none is collapsed. *)
Theorem bucket_contract (key : bytes) (max : nat) (values : list bytes) :
  let '(outs, b) := observe_all (new_bucket key max) values in
  NoDup (seen b) ∧ length (seen b) ≤ max
  ∧ Forall2 (λ v out, out = v ∧ v ∈ seen b ∨ out = OverflowValue ∧ v ∉ seen b) values outs
  ∧ (∀ distinct, NoDup distinct → (∀ v, v ∈ values → v ∈ distinct) → length distinct ≤ max → outs = values).
Proof.
  pose proof (observe_all_spec (new_bucket key max) values) as Hs.
  destruct (observe_all _ values) as [outs b]. destruct Hs as (Hok & Hmax & _ & Hfrom & Hf).
  destruct (Hok (new_bucket_ok key max)) as [Hb Hd]. specialize (Hf (new_bucket_ok key max)).
  rewrite Hmax in Hb. split_and!; [done|done| | ].
  - eapply Forall2_impl; [exact Hf|]. cbn. naive_solver.
  - intros distinct Hdist Hall Hlen.
    assert (∀ v, v ∈ values → v ∈ seen b ∨ length (seen b) < max) as Hroom.
    { intros v Hv. destruct (decide (v ∈ seen b)) as [|Hn]; [by left|right].
      assert (length (v :: seen b) ≤ length distinct) as Hle; [|simpl in Hle; lia].
      apply submseteq_length, NoDup_submseteq; [by constructor|].
      intros x [->|Hx]%elem_of_cons; [by apply Hall|].
      destruct (Hfrom x Hx) as [Hx'|?]; [by apply elem_of_nil in Hx'|by apply Hall]. }
    clear Hall Hfrom. induction Hf as [|v out vs outs Hvo Hf IH]; [done|]. f_equal.
    + destruct Hvo as [[? _]|(_ & Hn & Hfull)]; [done|].
      destruct (Hroom v) as [?|?]; [set_solver|done|]. rewrite Hmax in Hfull. simpl in Hfull. lia.
    + apply IH. intros x Hx. apply Hroom. set_solver.
Qed.
