(* ===== verification/MetricRewrite.v ===== *)
(** internal/metricscap/reader.go, the two export paths: Limiter.Rewrite on the
    OTLP data and the Prometheus gatherer. Both rewrite one attribute through a
    budget and merge the points that then coincide. Counts are uint64 and
    integer sums int64, with their wrap-around; floating point is an interface. *)
From S2P Require Import Prelude Utf8 GoStrings GoNum Attribute MetricCap.

(** A number type of the metric SDK. *)
Class Number (N : Type) := { num_add : N → N → N; num_lt : N → N → bool }.
#[export] Instance int64_number : Number Z := { num_add x y := wrap64 (x + y); num_lt := Z.ltb }.
Definition wrap_uint64 (z : Z) : Z := z `mod` 2 ^ 64.

Lemma wrap_uint64_eq64 z : eq64 (wrap_uint64 z) z.
Proof.
  unfold wrap_uint64. exists (- (z / 2 ^ 64))%Z. pose proof (Z.div_mod z (2 ^ 64)). lia.
Qed.

(** An attribute.Set: its attributes, in the set's order. attribute.NewSet sorts
    them and keeps one for each key. *)
Abbreviation Set_ := (list KeyValue).
Class AttributeSets := NewSet : list KeyValue → Set_.
Class AttributeSetsLaws (S : AttributeSets) := NewSet_elem kv kvs : kv ∈ NewSet kvs → kv ∈ kvs.

Definition AsString (v : attr_value) : bytes := match v with StringValue s => s | IntValue _ | BoolValue _ => [] end.

Section rewriting.
Context `{S : AttributeSets}.

(** rewriteSet *)
Fixpoint rewrite_kvs (set : list KeyValue) (key : bytes) (b : bucket) : list KeyValue * bool * bucket :=
  match set with
  | [] => ([], false, b)
  | kv :: set' =>
    if bool_decide (kv.1 = key) then
      let '(next, b) := observe b (AsString kv.2) in
      let '(kvs, changed, b) := rewrite_kvs set' key b in
      ((key, StringValue next) :: kvs, negb (bool_decide (next = AsString kv.2)) || changed, b)
    else
      let '(kvs, changed, b) := rewrite_kvs set' key b in (kv :: kvs, changed, b)
  end.
Definition rewriteSet (set : Set_) (key : bytes) (b : bucket) : Set_ * bucket :=
  let '(kvs, changed, b) := rewrite_kvs set key b in
  (if changed then NewSet kvs else set, b).

(** * Points *)
Context {F E T M : Type} `{NumF : !Number F}.

Record DataPoint (N : Type) := {
  Attributes : Set_; Times : T; Value : N; Exemplars : list E;
}.
Record HistogramDataPoint (N : Type) := {
  HAttributes : Set_; HTimes : T; HCount : Z; HSum : N; Bounds : list F; BucketCounts : list Z;
  Min : option N; Max : option N; HExemplars : list E;
}.

Section merging.
Context {N : Type} `{NumN : !Number N}.

Definition with_attributes (dp : DataPoint N) (set : Set_) : DataPoint N :=
  {| Attributes := set; Times := Times _ dp; Value := Value _ dp; Exemplars := Exemplars _ dp |}.
Definition h_with_attributes (dp : HistogramDataPoint N) (set : Set_) : HistogramDataPoint N :=
  {| HAttributes := set; HTimes := HTimes _ dp; HCount := HCount _ dp; HSum := HSum _ dp;
     Bounds := Bounds _ dp; BucketCounts := BucketCounts _ dp; Min := Min _ dp; Max := Max _ dp;
     HExemplars := HExemplars _ dp |}.

Definition merge_sum (dst src : DataPoint N) : DataPoint N :=
  {| Attributes := Attributes _ dst; Times := Times _ dst;
     Value := num_add (Value _ dst) (Value _ src); Exemplars := Exemplars _ dst ++ Exemplars _ src |}.
Definition mergeSums (l : list (DataPoint N)) : list (DataPoint N) :=
  merge_points (Attributes N) merge_sum l.
(** mergeGauges stores the point at the position of its set, whole. *)
Definition merge_gauge (dst src : DataPoint N) : DataPoint N := src.

Definition mergeGauges (l : list (DataPoint N)) : list (DataPoint N) :=
  merge_points (Attributes N) merge_gauge l.

(** The bucket counts of src are added where dst has a bucket. *)
Fixpoint add_counts (dst src : list Z) : list Z :=
  match dst, src with
  | d :: dst', s :: src' => wrap_uint64 (d + s) :: add_counts dst' src'
  | _, _ => dst
  end.
Definition merge_extremum (better : N → N → bool) (dst src : option N) : option N :=
  match src with
  | None => dst
  | Some v => match dst with
              | None => Some v
              | Some cur => if better v cur then Some v else dst
              end
  end.
Definition mergeHistogram (dst src : HistogramDataPoint N) : HistogramDataPoint N :=
  {| HAttributes := HAttributes _ dst; HTimes := HTimes _ dst;
     HCount := wrap_uint64 (HCount _ dst + HCount _ src); HSum := num_add (HSum _ dst) (HSum _ src);
     Bounds := Bounds _ dst; BucketCounts := add_counts (BucketCounts _ dst) (BucketCounts _ src);
     Min := merge_extremum num_lt (Min _ dst) (Min _ src);
     Max := merge_extremum (λ x y, num_lt y x) (Max _ dst) (Max _ src);
     HExemplars := HExemplars _ dst ++ HExemplars _ src |}.
Definition mergeHistograms (l : list (HistogramDataPoint N)) : list (HistogramDataPoint N) :=
  merge_points (HAttributes N) mergeHistogram l.
End merging.

(** The loop of rewriteMetric over the points of one metric. *)
Section points.
Context {P : Type} (attrs : P → Set_) (with_attrs : P → Set_ → P).
Fixpoint rewrite_points (key : bytes) (b : bucket) (points : list P) : list P * bucket :=
  match points with
  | [] => ([], b)
  | p :: points' =>
    let '(set, b) := rewriteSet (attrs p) key b in
    let '(rest, b) := rewrite_points key b points' in (with_attrs p set :: rest, b)
  end.
End points.

(** What a metric holds; [M] is what the code carries along unread. *)
Inductive Data :=
  | HistogramInt (meta : M) (points : list (HistogramDataPoint Z))
  | HistogramFloat (meta : M) (points : list (HistogramDataPoint F))
  | SumInt (meta : M) (points : list (DataPoint Z))
  | SumFloat (meta : M) (points : list (DataPoint F))
  | GaugeInt (meta : M) (points : list (DataPoint Z))
  | GaugeFloat (meta : M) (points : list (DataPoint F))
  | OtherData (meta : M).

Definition rewriteMetric (m : Data) (b : bucket) (key : bytes) : Data * bucket :=
  match m with
  | HistogramInt meta ps =>
    let '(ps, b) := rewrite_points (HAttributes Z) h_with_attributes key b ps in
    (HistogramInt meta (mergeHistograms ps), b)
  | HistogramFloat meta ps =>
    let '(ps, b) := rewrite_points (HAttributes F) h_with_attributes key b ps in
    (HistogramFloat meta (mergeHistograms ps), b)
  | SumInt meta ps =>
    let '(ps, b) := rewrite_points (Attributes Z) with_attributes key b ps in (SumInt meta (mergeSums ps), b)
  | SumFloat meta ps =>
    let '(ps, b) := rewrite_points (Attributes F) with_attributes key b ps in (SumFloat meta (mergeSums ps), b)
  | GaugeInt meta ps =>
    let '(ps, b) := rewrite_points (Attributes Z) with_attributes key b ps in
    (GaugeInt meta (mergeGauges ps), b)
  | GaugeFloat meta ps =>
    let '(ps, b) := rewrite_points (Attributes F) with_attributes key b ps in
    (GaugeFloat meta (mergeGauges ps), b)
  | OtherData meta => (OtherData meta, b)
  end.

(** * The limiter *)
Record Rule := {
  InstrumentName : bytes; Key : bytes; RuleMax : Z; ScopeName : bytes; BudgetKey : bytes;
}.
Definition usable_rule (r : Rule) : bool :=
  negb (bool_decide (InstrumentName r = []) || bool_decide (Key r = []) || (RuleMax r <=? 0)%Z).
Record Limiter := { buckets : gmap bytes bucket; rules : list Rule }.
Definition NewLimiter (rs : list Rule) : Limiter :=
  {| buckets := ∅; rules := filter (λ r, usable_rule r = true) rs |}.

Definition rulesFor (l : Limiter) (scope name : bytes) : list Rule :=
  filter (λ r, InstrumentName r = name ∧ (ScopeName r = [] ∨ ScopeName r = scope)) (rules l).

Definition nul : bytes := [zero].
Definition budget_name (r : Rule) : bytes :=
  if bool_decide (BudgetKey r = []) then ScopeName r ++ nul ++ InstrumentName r ++ nul ++ Key r
  else BudgetKey r.
(** LoadOrStore: the first rule of a budget decides its size. *)
Definition rule_bucket (bs : gmap bytes bucket) (r : Rule) : bucket :=
  load_or_store bs (budget_name r) (new_bucket (Key r) (Z.to_nat (RuleMax r))).

Definition rewrite_rule (st : gmap bytes bucket * Data) (r : Rule) : gmap bytes bucket * Data :=
  let '(bs, data) := st in
  let '(data, b) := rewriteMetric data (rule_bucket bs r) (Key r) in (<[budget_name r := b]> bs, data).

Record Metrics := { MName : bytes; MData : Data }.
Record ScopeMetrics := { SScope : bytes; SMetrics : list Metrics }.
Definition with_buckets (l : Limiter) (bs : gmap bytes bucket) : Limiter :=
  {| buckets := bs; rules := rules l |}.

Definition rewrite_one (l : Limiter) (scope : bytes) (m : Metrics) : Limiter * Metrics :=
  let '(bs, data) := foldl rewrite_rule (buckets l, MData m) (rulesFor l scope (MName m)) in
  (with_buckets l bs, {| MName := MName m; MData := data |}).
Fixpoint rewrite_metrics (l : Limiter) (scope : bytes) (ms : list Metrics) : Limiter * list Metrics :=
  match ms with
  | [] => (l, [])
  | m :: ms' => let '(l, m) := rewrite_one l scope m in
                let '(l, ms) := rewrite_metrics l scope ms' in (l, m :: ms)
  end.
Fixpoint Rewrite (l : Limiter) (rm : list ScopeMetrics) : Limiter * list ScopeMetrics :=
  match rm with
  | [] => (l, [])
  | sm :: rm' =>
    let '(l, ms) := rewrite_metrics l (SScope sm) (SMetrics sm) in
    let '(l, rest) := Rewrite l rm' in (l, {| SScope := SScope sm; SMetrics := ms |} :: rest)
  end.
(** Exporter.Export, export after export: what reaches the inner exporter. *)
Fixpoint Exports (l : Limiter) (batches : list (list ScopeMetrics)) : Limiter * list (list ScopeMetrics) :=
  match batches with
  | [] => (l, [])
  | rm :: batches' => let '(l, rm) := Rewrite l rm in
                      let '(l, rest) := Exports l batches' in (l, rm :: rest)
  end.

(** * The attribute sets *)

(** Under a key, only values the bucket has admitted and the overflow value. *)
Definition exported (b : bucket) (v : attr_value) : Prop := admitted b (AsString v).
Definition capped (b : bucket) (key : bytes) (set : Set_) : Prop :=
  ∀ kv, kv ∈ set → kv.1 = key → exported b kv.2.
(** A set whose attributes are those of another, some of them collapsed. *)
Definition from_set (set set' : Set_) : Prop :=
  ∀ kv, kv ∈ set' → ∃ old, old ∈ set ∧ old.1 = kv.1
    ∧ (AsString kv.2 = AsString old.2 ∨ AsString kv.2 = OverflowValue).

Lemma capped_grows b b' key set : grows b b' → capped b key set → capped b' key set.
Proof. intros Hg Hc kv Hin Hk. destruct (Hc kv Hin Hk); [left; by apply Hg|by right]. Qed.

Lemma capped_from b key set set' : from_set set set' → capped b key set → capped b key set'.
Proof.
  intros Hf Hc kv Hin Hk. destruct (Hf kv Hin) as (old & Ho & Hko & [Ev|Ev]); [|by right].
  destruct (Hc old Ho ltac:(congruence)) as [?|?]; [left|right]; by rewrite Ev.
Qed.

Lemma from_set_refl set : from_set set set.
Proof. intros kv Hin. exists kv. auto. Qed.

Lemma from_set_trans s1 s2 s3 : from_set s1 s2 → from_set s2 s3 → from_set s1 s3.
Proof.
  intros H1 H2 kv Hin. destruct (H2 kv Hin) as (k2 & Hi2 & E2 & Hv2).
  destruct (H1 k2 Hi2) as (k1 & Hi1 & E1 & Hv1). exists k1. split_and!; [done|congruence|].
  destruct Hv2 as [->|?]; [done|by right].
Qed.

Lemma rewrite_kvs_spec set key b :
  let '(kvs, changed, b') := rewrite_kvs set key b in
  grows b b' ∧ capped b' key kvs ∧ from_set set kvs ∧ (changed = false → capped b' key set).
Proof.
  revert b. induction set as [|kv set IH]; intros b; cbn [rewrite_kvs].
  { split_and!; [done| | |intros _]; intros kv Hkv; by apply elem_of_nil in Hkv. }
  assert (Hcons : ∀ kvs, from_set set kvs → ∀ kv', kv' ∈ kvs → ∃ old, old ∈ kv :: set ∧ old.1 = kv'.1
    ∧ (AsString kv'.2 = AsString old.2 ∨ AsString kv'.2 = OverflowValue)).
  { intros kvs Hf kv' Hin. destruct (Hf kv' Hin) as (old & ? & ? & ?). exists old. set_solver. }
  case_bool_decide as Hk.
  - pose proof (observe_grows b (AsString kv.2)) as Hg1. pose proof (observe_spec b (AsString kv.2)) as Ho.
    destruct (observe b (AsString kv.2)) as [next b1]. destruct Ho as (_ & _ & _ & Ho). cbn in Hg1.
    specialize (IH b1). destruct (rewrite_kvs set key b1) as [[kvs changed] b2].
    destruct IH as (Hg2 & Hc & Hf & Hu).
    assert (Hnext : next = AsString kv.2 ∧ next ∈ seen b2 ∨ next = OverflowValue).
    { destruct Ho as [[-> ?]|[-> _]]; [left; split; [done|by apply Hg2]|by right]. }
    split_and!; [by etrans| | | ].
    + intros kv' [->|Hin]%elem_of_cons Hk'; [|by apply Hc]. unfold exported, admitted. cbn. naive_solver.
    + intros kv' [->|Hin]%elem_of_cons; [|by eapply Hcons]. exists kv. cbn. split_and!; [set_solver|done|].
      naive_solver.
    + intros [En ->]%orb_false_iff. apply negb_false_iff, bool_decide_eq_true in En.
      intros kv' [->|Hin]%elem_of_cons Hk'; [|by apply Hu]. unfold exported, admitted. rewrite <- En. naive_solver.
  - specialize (IH b). destruct (rewrite_kvs set key b) as [[kvs changed] b2].
    destruct IH as (Hg2 & Hc & Hf & Hu). split_and!; [done| | | ].
    + intros kv' [->|Hin]%elem_of_cons Hk'; [done|by apply Hc].
    + intros kv' [->|Hin]%elem_of_cons; [exists kv; set_solver|by eapply Hcons].
    + intros Hch kv' [->|Hin]%elem_of_cons Hk'; [done|by apply Hu].
Qed.

Context (Hnewset : AttributeSetsLaws S).

Lemma rewriteSet_spec set key b :
  let '(set', b') := rewriteSet set key b in grows b b' ∧ capped b' key set' ∧ from_set set set'.
Proof.
  unfold rewriteSet. pose proof (rewrite_kvs_spec set key b) as H.
  destruct (rewrite_kvs set key b) as [[kvs changed] b']. destruct H as (Hg & Hc & Hf & Hu).
  destruct changed; [|split_and!; [done|by apply Hu|apply from_set_refl]].
  split_and!; [done| | ]; intros kv Hin%Hnewset; [by apply Hc|by apply Hf].
Qed.

Section points_spec.
Context {P : Type} (attrs : P → Set_) (with_attrs : P → Set_ → P).
Context (Hattrs : ∀ p set, attrs (with_attrs p set) = set).

Lemma rewrite_points_spec key b ps :
  let '(ps', b') := rewrite_points attrs with_attrs key b ps in
  grows b b' ∧ Forall (λ p, capped b' key (attrs p)) ps'
  ∧ Forall2 (λ p p', from_set (attrs p) (attrs p') ∧ p' = with_attrs p (attrs p')) ps ps'.
Proof.
  revert b. induction ps as [|p ps IH]; intros b; cbn [rewrite_points]; [by split_and!|].
  pose proof (rewriteSet_spec (attrs p) key b) as Hs. destruct (rewriteSet (attrs p) key b) as [set b1].
  destruct Hs as (Hg1 & Hc1 & Hf1). specialize (IH b1).
  destruct (rewrite_points _ _ key b1 ps) as [ps' b2]. destruct IH as (Hg2 & Hc2 & Hf2).
  split_and!; [by etrans| | ].
  - constructor; [|done]. rewrite Hattrs. by eapply capped_grows.
  - constructor; [|done]. by rewrite Hattrs.
Qed.

(** After the points are merged. *)
Lemma rewrite_merged_spec merge key b ps :
  (∀ p q, attrs q = attrs p → attrs (merge p q) = attrs p) →
  let '(ps', b') := rewrite_points attrs with_attrs key b ps in
  grows b b' ∧ NoDup (attrs <$> merge_points attrs merge ps')
  ∧ ∀ set', set' ∈ (attrs <$> merge_points attrs merge ps') →
      capped b' key set' ∧ ∃ set, set ∈ (attrs <$> ps) ∧ from_set set set'.
Proof.
  intros Hm. pose proof (rewrite_points_spec key b ps) as H.
  destruct (rewrite_points _ _ key b ps) as [ps' b']. destruct H as (Hg & Hc & Hf).
  destruct (merge_points_spec attrs merge Hm ps') as (Hnd & Hk & _). split_and!; [done|done|].
  intros set' (p' & -> & Hp')%Hk%list_elem_of_fmap. rewrite Forall_forall in Hc. split; [by apply Hc|].
  apply list_elem_of_lookup in Hp' as [i Hi].
  destruct (Forall2_lookup_r _ _ _ _ _ Hf Hi) as (p & Hp & Hfr & _).
  exists (attrs p). split; [|done]. apply list_elem_of_fmap. exists p. split; [done|].
  by eapply list_elem_of_lookup_2.
Qed.

(** What is added up over the points is what it was. *)
Lemma rewrite_merged_total merge key b ps (m : P → Z) (good : P → Prop) :
  (∀ p q, attrs q = attrs p → attrs (merge p q) = attrs p) → (∀ p set, m (with_attrs p set) = m p) →
  (∀ p set, good p → good (with_attrs p set)) → (∀ p q, good p → good q → good (merge p q)) →
  (∀ p q, good p → good q → eq64 (m (merge p q)) (m p + m q)) → Forall good ps →
  let ps' := merge_points attrs merge (rewrite_points attrs with_attrs key b ps).1 in
  eq64 (sum_of m ps') (sum_of m ps) ∧ Forall good ps'.
Proof.
  intros Hk Hw Hg Hgm Hm Hgood.
  pose proof (rewrite_points_spec key b ps) as H. destruct (rewrite_points _ _ key b ps) as [ps' b'].
  destruct H as (_ & _ & Hf). cbn [fst].
  assert (sum_of m ps' = sum_of m ps ∧ Forall good ps') as [Es Hps'].
  { revert Hgood. induction Hf as [|p p' ps ps' [_ Ep] Hf IH]; [done|]. intros [Hp Hps]%Forall_cons.
    destruct (IH Hps) as [IH1 IH2]. cbn [sum_of]. rewrite IH1, Ep, Hw. split; [done|].
    constructor; [by apply Hg|done]. }
  rewrite <- Es. by apply (merge_points_total_on attrs merge m good eq64).
Qed.
End points_spec.

(** * Metrics *)
Definition sets_of (d : Data) : list Set_ :=
  match d with
  | HistogramInt _ ps => HAttributes Z <$> ps
  | HistogramFloat _ ps => HAttributes F <$> ps
  | SumInt _ ps | GaugeInt _ ps => Attributes Z <$> ps
  | SumFloat _ ps | GaugeFloat _ ps => Attributes F <$> ps
  | OtherData _ => []
  end.
(** The sum of what the points of an integer metric add up, and the number of
    observations its histograms count. *)
Definition int_total (d : Data) : Z :=
  match d with
  | HistogramInt _ ps => sum_of (HSum Z) ps
  | SumInt _ ps => sum_of (Value Z) ps
  | _ => 0
  end.
Definition count_total (d : Data) : Z :=
  match d with
  | HistogramInt _ ps => sum_of (HCount Z) ps
  | HistogramFloat _ ps => sum_of (HCount F) ps
  | _ => 0
  end.

Lemma rewriteMetric_spec m b key :
  let '(m', b') := rewriteMetric m b key in
  grows b b' ∧ NoDup (sets_of m')
  ∧ ∀ set', set' ∈ sets_of m' → capped b' key set' ∧ ∃ set, set ∈ sets_of m ∧ from_set set set'.
Proof.
  destruct m as [meta ps|meta ps|meta ps|meta ps|meta ps|meta ps|meta]; cbn [rewriteMetric].
  1-2: pose proof (rewrite_merged_spec (HAttributes _) h_with_attributes ltac:(done) mergeHistogram key b ps
         ltac:(done)) as Hs.
  3-4: pose proof (rewrite_merged_spec (Attributes _) with_attributes ltac:(done) merge_sum key b ps
         ltac:(done)) as Hs.
  5-6: pose proof (rewrite_merged_spec (Attributes _) with_attributes ltac:(done) merge_gauge key b ps
         ltac:(done)) as Hs.
  7: { split_and!; [done|constructor|intros set' Hs; by apply elem_of_nil in Hs]. }
  all: by destruct (rewrite_points _ _ key b ps).
Qed.

(** The observations in bucket [i], of histograms that have [n] buckets each. *)
Definition bucket_count {N} (i : nat) (p : HistogramDataPoint N) : Z := default 0%Z (BucketCounts N p !! i).
Definition has_buckets {N} (n : nat) (p : HistogramDataPoint N) : Prop := length (BucketCounts N p) = n.
Definition bucket_total (i : nat) (d : Data) : Z :=
  match d with
  | HistogramInt _ ps => sum_of (bucket_count i) ps
  | HistogramFloat _ ps => sum_of (bucket_count i) ps
  | _ => 0
  end.
Definition uniform (n : nat) (d : Data) : Prop :=
  match d with
  | HistogramInt _ ps => Forall (has_buckets n) ps
  | HistogramFloat _ ps => Forall (has_buckets n) ps
  | _ => True
  end.

Lemma add_counts_length dst src : length (add_counts dst src) = length dst.
Proof. revert src. induction dst as [|d dst IH]; intros [|s src]; cbn; [done..|]. by rewrite IH. Qed.

Lemma add_counts_lookup dst src i :
  length dst = length src →
  eq64 (default 0%Z (add_counts dst src !! i)) (default 0%Z (dst !! i) + default 0%Z (src !! i)).
Proof.
  revert src i. induction dst as [|d dst IH]; intros [|s src] i Hl; try done.
  injection Hl as Hl. destruct i as [|i]; [apply wrap_uint64_eq64|exact (IH src i Hl)].
Qed.

(** One metric measures what the other does. *)
Record same_totals (d d' : Data) : Prop := {
  same_sum : eq64 (int_total d') (int_total d);
  same_count : eq64 (count_total d') (count_total d);
  same_buckets : ∀ n i, uniform n d → uniform n d' ∧ eq64 (bucket_total i d') (bucket_total i d);
}.
#[export] Instance same_totals_preorder : PreOrder same_totals.
Proof.
  split; [by split|]. intros d1 d2 d3 [? ? H1] [? ? H2]. split; [by etrans|by etrans|].
  intros n i Hu. destruct (H1 n i Hu) as [Hu1 ?]. destruct (H2 n i Hu1). split; [done|by etrans].
Qed.

Section kept.
Context {N : Type} `{NumN : !Number N}.

Lemma histograms_kept key b (ps : list (HistogramDataPoint N)) (m : HistogramDataPoint N → Z) :
  (∀ p set, m (h_with_attributes p set) = m p) → (∀ p q, eq64 (m (mergeHistogram p q)) (m p + m q)) →
  eq64 (sum_of m (mergeHistograms (rewrite_points (HAttributes N) h_with_attributes key b ps).1)) (sum_of m ps).
Proof.
  intros Hw Hm. refine (proj1 (rewrite_merged_total (HAttributes N) h_with_attributes ltac:(done) mergeHistogram
    key b ps m (λ _, True) _ _ _ _ _ _)); try done; auto using Forall_true.
Qed.

Lemma bucket_counts_kept key b (ps : list (HistogramDataPoint N)) n i :
  Forall (has_buckets n) ps →
  let ps' := mergeHistograms (rewrite_points (HAttributes N) h_with_attributes key b ps).1 in
  Forall (has_buckets n) ps' ∧ eq64 (sum_of (bucket_count i) ps') (sum_of (bucket_count i) ps).
Proof.
  intros Hps. apply and_comm. apply (rewrite_merged_total (HAttributes N) h_with_attributes ltac:(done)); try done.
  - intros p q Hp Hq. unfold has_buckets. cbn. by rewrite add_counts_length.
  - intros p q Hp Hq. apply add_counts_lookup. unfold has_buckets in *. congruence.
Qed.

Lemma sums_kept key b (ps : list (DataPoint N)) (m : DataPoint N → Z) :
  (∀ p set, m (with_attributes p set) = m p) → (∀ p q, eq64 (m (merge_sum p q)) (m p + m q)) →
  eq64 (sum_of m (mergeSums (rewrite_points (Attributes N) with_attributes key b ps).1)) (sum_of m ps).
Proof.
  intros Hw Hm. refine (proj1 (rewrite_merged_total (Attributes N) with_attributes ltac:(done) merge_sum
    key b ps m (λ _, True) _ _ _ _ _ _)); try done; auto using Forall_true.
Qed.
End kept.

Lemma rewriteMetric_totals m b key : same_totals m (rewriteMetric m b key).1.
Proof.
  destruct m as [meta ps|meta ps|meta ps|meta ps|meta ps|meta ps|meta]; cbn [rewriteMetric].
  1: pose proof (histograms_kept key b ps (HSum Z) ltac:(done) (λ _ _, wrap64_eq64 _)) as H1.
  1,2: pose proof (histograms_kept key b ps (HCount _) ltac:(done) (λ _ _, wrap_uint64_eq64 _)) as H2.
  1,2: pose proof (bucket_counts_kept key b ps) as H3.
  3: pose proof (sums_kept key b ps (Value Z) ltac:(done) (λ _ _, wrap64_eq64 _)) as H1.
  all: try destruct (rewrite_points _ _ key b ps); by split.
Qed.

(** * Rules *)

Definition room (r : Rule) : nat := Z.to_nat (RuleMax r).
Abbreviation budgets_ok := (MetricCap.budgets_ok budget_name room).

(** A rule holds for a set of attributes. *)
Definition rule_holds (bs : gmap bytes bucket) (r : Rule) (set : Set_) : Prop :=
  ∃ b, bs !! budget_name r = Some b ∧ capped b (Key r) set.

Lemma rule_holds_grow bs bs' r set : budgets_grow bs bs' → rule_holds bs r set → rule_holds bs' r set.
Proof. intros Hg (b & (b' & ? & ?)%Hg & Hc). exists b'. split; [done|]. by eapply capped_grows. Qed.

Lemma rewrite_rule_spec rs bs d r :
  r ∈ rs → budgets_ok rs bs →
  let '(bs', d') := rewrite_rule (bs, d) r in
  budgets_ok rs bs' ∧ budgets_grow bs bs' ∧ NoDup (sets_of d')
  ∧ ∀ set', set' ∈ sets_of d' → rule_holds bs' r set' ∧ ∃ set, set ∈ sets_of d ∧ from_set set set'.
Proof.
  intros Hr Hok. cbn [rewrite_rule]. pose proof (rewriteMetric_spec d (rule_bucket bs r) (Key r)) as Hs.
  destruct (rewriteMetric d (rule_bucket bs r) (Key r)) as [d' b']. destruct Hs as (Hg & Hnd & Hsets).
  destruct (budgets_spend budget_name room rs bs r (Key r) b' Hr Hok Hg) as [Hok' Hg'].
  split_and!; [done|done|done|].
  intros set' Hin. destruct (Hsets set' Hin) as [Hc Hfrom]. split; [|done].
  exists b'. by rewrite lookup_insert_eq.
Qed.

Lemma rewrite_rules_spec rs todo bs d :
  (∀ r, r ∈ todo → r ∈ rs) → budgets_ok rs bs →
  let '(bs', d') := foldl rewrite_rule (bs, d) todo in
  budgets_ok rs bs' ∧ budgets_grow bs bs' ∧ (todo = [] ∧ d' = d ∨ NoDup (sets_of d'))
  ∧ (∀ set', set' ∈ sets_of d' → (∀ r, r ∈ todo → rule_holds bs' r set')
      ∧ ∃ set, set ∈ sets_of d ∧ from_set set set').
Proof.
  revert bs d. induction todo as [|r todo IH]; intros bs d Hin Hok; cbn [foldl].
  { split_and!; [done|done|by left|]. intros set' Hs. split; [intros r Hr; by apply elem_of_nil in Hr|].
    exists set'. split; [done|apply from_set_refl]. }
  pose proof (rewrite_rule_spec rs bs d r ltac:(set_solver) Hok) as Hr.
  destruct (rewrite_rule (bs, d) r) as [bs1 d1]. destruct Hr as (Hok1 & Hg1 & Hnd1 & Hs1).
  specialize (IH bs1 d1 ltac:(set_solver) Hok1). destruct (foldl rewrite_rule (bs1, d1) todo) as [bs2 d2].
  destruct IH as (Hok2 & Hg2 & Hnd2 & Hs2). split_and!; [done|by etrans| | ].
  { right. by destruct Hnd2 as [[_ ->]|?]. }
  intros set' Hset. destruct (Hs2 set' Hset) as [Hrules (set1 & Hset1 & Hf1)].
  destruct (Hs1 set1 Hset1) as [(b & Hb & Hc) (set & Hset0 & Hf0)].
  split; [|exists set; split; [done|by eapply from_set_trans]].
  intros r' [->|?]%elem_of_cons; [|by apply Hrules].
  eapply rule_holds_grow; [exact Hg2|]. exists b. split; [done|by eapply capped_from].
Qed.

(** * Exports *)
Definition limiter_ok (l : Limiter) : Prop := budgets_ok (rules l) (buckets l).
Record limiter_grows (l l' : Limiter) : Prop := {
  grows_rules : rules l' = rules l;
  grows_buckets : budgets_grow (buckets l) (buckets l');
  grows_limiter_ok : limiter_ok l → limiter_ok l';
}.
#[export] Instance limiter_grows_preorder : PreOrder limiter_grows.
Proof.
  split; [by split|]. intros l1 l2 l3 [? ? ?] [? ? ?]. split; [congruence|by etrans|auto].
Qed.

(** Every rule of a metric holds for the attributes of its points. *)
Definition metric_capped (l : Limiter) (scope : bytes) (m : Metrics) : Prop :=
  ∀ r set, r ∈ rulesFor l scope (MName m) → set ∈ sets_of (MData m) → rule_holds (buckets l) r set.
Definition scope_capped (l : Limiter) (sm : ScopeMetrics) : Prop :=
  Forall (metric_capped l (SScope sm)) (SMetrics sm).

Lemma metric_capped_grows l l' scope m : limiter_grows l l' → metric_capped l scope m → metric_capped l' scope m.
Proof.
  intros Hg Hc r set Hr Hs. eapply rule_holds_grow; [by apply Hg|]. apply Hc; [|done].
  revert Hr. unfold rulesFor. by rewrite (grows_rules _ _ Hg).
Qed.

Lemma scope_capped_grows l l' sm : limiter_grows l l' → scope_capped l sm → scope_capped l' sm.
Proof. intros Hg Hc. eapply Forall_impl; [exact Hc|]. intros m. by apply metric_capped_grows. Qed.

Lemma rulesFor_rules l scope name r : r ∈ rulesFor l scope name → r ∈ rules l.
Proof. unfold rulesFor. by intros [_ ?]%list_elem_of_filter. Qed.

Lemma rewrite_one_spec l scope m :
  limiter_ok l →
  let '(l', m') := rewrite_one l scope m in limiter_grows l l' ∧ metric_capped l' scope m'.
Proof.
  intros Hok. unfold rewrite_one.
  pose proof (rewrite_rules_spec (rules l) (rulesFor l scope (MName m)) (buckets l) (MData m)
    (rulesFor_rules l scope _) Hok) as Hs.
  destruct (foldl rewrite_rule _ _) as [bs d]. destruct Hs as (Hok' & Hg & _ & Hsets). split; [by split|].
  intros r set Hr Hset. by apply Hsets.
Qed.

Lemma rewrite_metrics_spec l scope ms :
  limiter_ok l →
  let '(l', ms') := rewrite_metrics l scope ms in limiter_grows l l' ∧ Forall (metric_capped l' scope) ms'.
Proof.
  revert l. induction ms as [|m ms IH]; intros l Hok; cbn [rewrite_metrics]; [by split|].
  pose proof (rewrite_one_spec l scope m Hok) as H1. destruct (rewrite_one l scope m) as [l1 m1].
  destruct H1 as [Hg1 Hc1]. specialize (IH l1 (grows_limiter_ok _ _ Hg1 Hok)).
  destruct (rewrite_metrics l1 scope ms) as [l2 ms2]. destruct IH as [Hg2 Hc2].
  split; [by etrans|]. constructor; [|done]. by eapply metric_capped_grows.
Qed.

Lemma Rewrite_spec l rm :
  limiter_ok l → let '(l', rm') := Rewrite l rm in limiter_grows l l' ∧ Forall (scope_capped l') rm'.
Proof.
  revert l. induction rm as [|sm rm IH]; intros l Hok; cbn [Rewrite]; [by split|].
  pose proof (rewrite_metrics_spec l (SScope sm) (SMetrics sm) Hok) as H1.
  destruct (rewrite_metrics l (SScope sm) (SMetrics sm)) as [l1 ms1].
  destruct H1 as [Hg1 Hc1]. specialize (IH l1 (grows_limiter_ok _ _ Hg1 Hok)).
  destruct (Rewrite l1 rm) as [l2 rm2]. destruct IH as [Hg2 Hc2].
  split; [by etrans|]. constructor; [|done]. by eapply scope_capped_grows.
Qed.

Lemma Exports_spec l batches :
  limiter_ok l →
  let '(l', out) := Exports l batches in limiter_grows l l' ∧ Forall (Forall (scope_capped l')) out.
Proof.
  revert l. induction batches as [|rm batches IH]; intros l Hok; cbn [Exports]; [by split|].
  pose proof (Rewrite_spec l rm Hok) as H1. destruct (Rewrite l rm) as [l1 rm1].
  destruct H1 as [Hg1 Hc1]. specialize (IH l1 (grows_limiter_ok _ _ Hg1 Hok)).
  destruct (Exports l1 batches) as [l2 out2]. destruct IH as [Hg2 Hc2].
  split; [by etrans|]. constructor; [|done]. eapply Forall_impl; [exact Hc1|]. intros sm.
  by apply scope_capped_grows.
Qed.

Lemma NewLimiter_ok rs : limiter_ok (NewLimiter rs).
Proof. intros name b Hb. unfold NewLimiter in Hb. cbn [buckets] in Hb. by rewrite lookup_empty in Hb. Qed.

(** * Totals *)
Lemma rewrite_rules_totals todo bs d : same_totals d (foldl rewrite_rule (bs, d) todo).2.
Proof.
  revert bs d. induction todo as [|r todo IH]; intros bs d; cbn [foldl]; [done|].
  pose proof (rewriteMetric_totals d (rule_bucket bs r) (Key r)) as Hr. cbn [rewrite_rule].
  destruct (rewriteMetric d (rule_bucket bs r) (Key r)) as [d1 b1]. etrans; [exact Hr|]. apply IH.
Qed.

(** What one metric becomes: the name it has, the totals it has; and its points
    have attributes of their own, unless no rule names it and it is what it was. *)
Definition metric_kept (l : Limiter) (scope : bytes) (m m' : Metrics) : Prop :=
  MName m' = MName m ∧ same_totals (MData m) (MData m')
  ∧ (rulesFor l scope (MName m) = [] ∧ m' = m ∨ NoDup (sets_of (MData m'))).
Definition scope_kept (l : Limiter) (sm sm' : ScopeMetrics) : Prop :=
  SScope sm' = SScope sm ∧ Forall2 (metric_kept l (SScope sm)) (SMetrics sm) (SMetrics sm').

Lemma metric_kept_rules l l' scope m m' : rules l' = rules l → metric_kept l' scope m m' → metric_kept l scope m m'.
Proof. intros Hr. unfold metric_kept, rulesFor. by rewrite Hr. Qed.

Lemma scope_kept_rules l l' sm sm' : rules l' = rules l → scope_kept l' sm sm' → scope_kept l sm sm'.
Proof.
  intros Hr [? Hf]. split; [done|]. eapply Forall2_impl; [exact Hf|]. intros m m'. by apply metric_kept_rules.
Qed.

Lemma rewrite_one_kept l scope m : limiter_ok l → metric_kept l scope m (rewrite_one l scope m).2.
Proof.
  intros Hok. pose proof (rewrite_rules_totals (rulesFor l scope (MName m)) (buckets l) (MData m)) as Ht.
  pose proof (rewrite_rules_spec (rules l) (rulesFor l scope (MName m)) (buckets l) (MData m)
    (rulesFor_rules l scope _) Hok) as Hs. unfold rewrite_one.
  destruct (foldl rewrite_rule _ _) as [bs d]. destruct Hs as (_ & _ & Hnd & _). split_and!; [done|done|].
  destruct Hnd as [[Hnil ->]|?]; [left|by right]. by destruct m.
Qed.

Lemma rewrite_metrics_kept l scope ms :
  limiter_ok l → Forall2 (metric_kept l scope) ms (rewrite_metrics l scope ms).2.
Proof.
  revert l. induction ms as [|m ms IH]; intros l Hok; cbn [rewrite_metrics]; [constructor|].
  pose proof (rewrite_one_spec l scope m Hok) as H1. pose proof (rewrite_one_kept l scope m Hok) as Hm.
  destruct (rewrite_one l scope m) as [l1 m1]. destruct H1 as [[Hrules _ Hok1] _]. specialize (IH l1 (Hok1 Hok)).
  destruct (rewrite_metrics l1 scope ms) as [l2 ms2]. constructor; [done|].
  eapply Forall2_impl; [exact IH|]. intros x y. by apply metric_kept_rules.
Qed.

Lemma Rewrite_kept l rm : limiter_ok l → Forall2 (scope_kept l) rm (Rewrite l rm).2.
Proof.
  revert l. induction rm as [|sm rm IH]; intros l Hok; cbn [Rewrite]; [constructor|].
  pose proof (rewrite_metrics_spec l (SScope sm) (SMetrics sm) Hok) as H1.
  pose proof (rewrite_metrics_kept l (SScope sm) (SMetrics sm) Hok) as Hm.
  destruct (rewrite_metrics l (SScope sm) (SMetrics sm)) as [l1 ms1].
  destruct H1 as [[Hrules _ Hok1] _]. specialize (IH l1 (Hok1 Hok)). destruct (Rewrite l1 rm) as [l2 rm2].
  constructor; [by split|]. eapply Forall2_impl; [exact IH|]. intros x y. by apply scope_kept_rules.
Qed.

(** * Properties *)

(** The caps hold at the OTLP boundary. Over any run of exports through a new
    limiter: every budget ends with as many distinct values as it has room for at
    most, its room being that of one of the rules that spend it; and every
    attribute a rule of its metric caps was exported with a value its budget has
    admitted, or with the overflow value, in every export of the run and under
    every rule that names the metric, however many rules rewrite it. *)
Theorem caps_hold (rs : list Rule) (batches : list (list ScopeMetrics)) :
  let '(l, out) := Exports (NewLimiter rs) batches in
  (∀ name b, buckets l !! name = Some b → length (seen b) ≤ max b ∧ NoDup (seen b)
     ∧ ∃ r, r ∈ rs ∧ (0 < RuleMax r)%Z ∧ budget_name r = name ∧ max b = Z.to_nat (RuleMax r))
  ∧ ∀ rm sm m r set v, rm ∈ out → sm ∈ rm → m ∈ SMetrics sm → r ∈ rulesFor (NewLimiter rs) (SScope sm) (MName m) →
      set ∈ sets_of (MData m) → (Key r, v) ∈ set →
      ∃ b, buckets l !! budget_name r = Some b ∧ (AsString v ∈ seen b ∨ AsString v = OverflowValue).
Proof.
  pose proof (Exports_spec (NewLimiter rs) batches (NewLimiter_ok rs)) as Hs.
  destruct (Exports _ batches) as [l out]. destruct Hs as [[Hrules _ Hok] Hc]. split.
  - intros name b Hb. destruct (Hok (NewLimiter_ok rs) name b Hb) as ([? ?] & r & Hr & Hn & Hm).
    rewrite Hrules in Hr. apply list_elem_of_filter in Hr as [Hu Hr]. split_and!; [done|done|].
    exists r. split_and!; [done| |done|done]. unfold usable_rule in Hu.
    apply negb_true_iff, orb_false_iff in Hu as [_ ?]. lia.
  - intros rm sm m r set v Hrm Hsm Hm Hr Hset Hv. rewrite !Forall_forall in Hc.
    specialize (Hc rm Hrm). rewrite Forall_forall in Hc. specialize (Hc sm Hsm). unfold scope_capped in Hc.
    rewrite Forall_forall in Hc. destruct (Hc m Hm r set) as (b & Hb & Hcap); [|done|].
    { revert Hr. unfold rulesFor. by rewrite Hrules. }
    exists b. split; [done|]. by apply (Hcap (Key r, v)).
Qed.

(** C36: the cap does not change what the metrics measure. What reaches the inner
    exporter is the metrics there were, scope by scope and in order, each with
    its name: the points of a metric a rule names have attribute sets of their
    own, all distinct; the sums of an int64 metric, the observations its histograms
    count and, over histograms with the same number of buckets, those of each
    bucket add up to what they were, modulo 2^64; and a metric no rule names is
    what it was. *)
Theorem rewrite_keeps (rs : list Rule) (batches : list (list ScopeMetrics)) :
  let '(l, out) := Exports (NewLimiter rs) batches in Forall2 (Forall2 (scope_kept (NewLimiter rs))) batches out.
Proof.
  assert (Hgen : ∀ l, rules l = rules (NewLimiter rs) → limiter_ok l →
            Forall2 (Forall2 (scope_kept (NewLimiter rs))) batches (Exports l batches).2).
  { induction batches as [|rm batches IH]; intros l Hr Hok; cbn [Exports]; [constructor|].
    pose proof (Rewrite_spec l rm Hok) as H1. pose proof (Rewrite_kept l rm Hok) as Hk.
    destruct (Rewrite l rm) as [l1 rm1]. destruct H1 as [[Hrules _ Hok1] _].
    specialize (IH l1 ltac:(congruence) (Hok1 Hok)). destruct (Exports l1 batches) as [l2 out2].
    constructor; [|done]. eapply Forall2_impl; [exact Hk|]. intros x y. by apply scope_kept_rules. }
  specialize (Hgen (NewLimiter rs) eq_refl (NewLimiter_ok rs)). by destruct (Exports _ batches).
Qed.
End rewriting.

(** * A run *)

(** attribute.NewSet keeps the last attribute of each key. *)
#[local] Instance sample_sets : AttributeSets :=
  fix go kvs := match kvs with
                | [] => []
                | kv :: rest => if existsb (λ o, bool_decide (o.1 = kv.1)) rest then go rest else kv :: go rest
                end.
#[local] Instance sample_sets_laws : AttributeSetsLaws sample_sets.
Proof.
  intros kv kvs. induction kvs as [|k kvs IH]; [done|]. unfold NewSet in *. cbn [sample_sets].
  destruct (existsb _ kvs); set_solver.
Qed.

Definition sample_rule : Rule :=
  {| InstrumentName := #"http.server.request.duration"; Key := #"http.route"; RuleMax := 1;
     ScopeName := []; BudgetKey := [] |}.
Definition sample_point (route : bytes) (n : Z) : DataPoint (E := unit) (T := unit) Z :=
  {| Attributes := [(#"http.route", StringValue route)]; Times := tt; Value := n; Exemplars := [] |}.
Definition sample_metrics (points : list (DataPoint (E := unit) (T := unit) Z)) :
    list (ScopeMetrics (F := Z) (E := unit) (T := unit) (M := unit)) :=
  [{| SScope := #"gin"; SMetrics := [{| MName := #"http.server.request.duration"; MData := SumInt tt points |}] |}].
Definition sample_batches :=
  [sample_metrics [sample_point #"/a" 3; sample_point #"/b" 4; sample_point #"/c" 5];
   sample_metrics [sample_point #"/c" 6; sample_point #"/a" 7]].

(** A witness: two exports under a budget of one route. *)
Lemma caps_hold_witness :
  (Exports (NewLimiter [sample_rule]) sample_batches).2
  = [sample_metrics [sample_point #"/a" 3; sample_point OverflowValue 9];
     sample_metrics [sample_point OverflowValue 6; sample_point #"/a" 7]]
  ∧ ∀ name b, buckets (Exports (NewLimiter [sample_rule]) sample_batches).1 !! name = Some b → length (seen b) ≤ 1.
Proof.
  split; [vm_compute; reflexivity|].
  pose proof (caps_hold sample_sets_laws [sample_rule] sample_batches) as H.
  destruct (Exports _ sample_batches) as [l out]. intros name b Hb.
  destruct (proj1 H name b Hb) as (Hlen & _ & r & Hr & _ & _ & Hm).
  apply list_elem_of_singleton in Hr. subst r. rewrite Hm in Hlen. exact Hlen.
Defined.

Lemma rewrite_keeps_witness :
  Forall2 (Forall2 (scope_kept (NewLimiter [sample_rule]))) sample_batches
    (Exports (NewLimiter [sample_rule]) sample_batches).2.
Proof.
  pose proof (rewrite_keeps sample_sets_laws [sample_rule] sample_batches) as H.
  destruct (Exports _ sample_batches) as [l out]. exact H.
Defined.
