(* ===== verification/MetricGather.v ===== *)
(** internal/metricscap/reader.go, the Prometheus path: the gatherer that caps
    labels between the registry and the scrape. Metrics are values here: the
    code changes them in place, through pointers that it never shares between
    the metrics of its output. Floating point and the order sort.Slice leaves
    equal elements in are interfaces. *)
From S2P Require Import Prelude Utf8 GoStrings GoNum Attribute MetricCap MetricRewrite.

(** float64 *)
Class Float (F : Type) := {
  f_zero : F; f_add : F → F → F; f_lt : F → F → bool; f_eq : F → F → bool;
}.

(** * The protocol buffers of a scrape *)
Section dto.
Context {F X : Type}.

Record LabelPair := { LabelName : option bytes; LabelValue : option bytes }.
Definition GetName (l : LabelPair) : bytes := default [] (LabelName l).
Definition GetValue (l : LabelPair) : bytes := default [] (LabelValue l).

Record Bucket := { UpperBound : option F; CumulativeCount : option Z; BExemplar : option X }.
Record Histogram := {
  SampleCount : option Z; SampleSum : option F; Buckets : list Bucket; HRest : X;
}.
(** A counter or an untyped metric: its value, and what the code does not read. *)
Record Valued := { VValue : option F; VRest : X }.
Record Metric := {
  Label : list LabelPair; Counter : option Valued; Gauge : option X; MHistogram : option Histogram;
  Untyped : option Valued; Summary : option X; TimestampMs : option Z;
}.
Record MetricFamily := { FName : option bytes; FMetric : list Metric; FRest : X }.
End dto.
Arguments LabelPair : clear implicits.
Arguments Bucket : clear implicits.
Arguments Histogram : clear implicits.
Arguments Valued : clear implicits.
Arguments Metric : clear implicits.
Arguments MetricFamily : clear implicits.

(** sort.Slice over the buckets of a histogram. *)
Class SortBuckets (F X : Type) := sort_buckets : list (Bucket F X) → list (Bucket F X).
Class SortBucketsLaws {F X} (S : SortBuckets F X) := sort_buckets_perm l : sort_buckets l ≡ₚ l.

Definition scopeNameLabel : bytes := #"otel_scope_name".
Record PrometheusRule := {
  PMetricName : bytes; PLabelName : bytes; PMax : Z; PScopeName : bytes; PBudgetKey : bytes;
}.

Section gather.
Context {F X : Type} `{Fl : !Float F} `{So : !SortBuckets F X}.
Implicit Types m dst src : Metric F X.

(** * Labels *)
Definition prometheusLabel m (name : bytes) : bytes :=
  match head (filter (λ l, GetName l = name) (Label m)) with Some l => GetValue l | None => [] end.

Fixpoint rewrite_labels (ls : list LabelPair) (name : bytes) (b : bucket) : list LabelPair * bucket :=
  match ls with
  | [] => ([], b)
  | l :: ls' =>
    if bool_decide (GetName l = name) then
      let '(next, b) := observe b (GetValue l) in
      ({| LabelName := LabelName l; LabelValue := Some next |} :: ls', b)
    else let '(ls', b) := rewrite_labels ls' name b in (l :: ls', b)
  end.
Definition with_labels m (ls : list LabelPair) : Metric F X := {|
  Label := ls; Counter := Counter m; Gauge := Gauge m; MHistogram := MHistogram m;
  Untyped := Untyped m; Summary := Summary m; TimestampMs := TimestampMs m;
|}.
Definition rewritePrometheusLabels m (name : bytes) (b : bucket) : Metric F X * bucket :=
  let '(ls, b) := rewrite_labels (Label m) name b in (with_labels m ls, b).

(** * Merging *)
Definition label_text (l : LabelPair) : bytes := GetName l ++ #"=" ++ GetValue l.
Definition xff : bytes := [byte_of 255].
Definition prometheusMetricKey m : bytes := Join (sort_strings (label_text <$> Label m)) xff.

Definition f_get (v : option F) : F := default f_zero v.
Definition count_get (v : option Z) : Z := default 0%Z v.
Definition add_value (dst src : option (Valued F X)) : option (Valued F X) :=
  match src, dst with
  | Some s, Some d => Some {| VValue := Some (f_add (f_get (VValue d)) (f_get (VValue s))); VRest := VRest d |}
  | _, _ => dst
  end.

(** The position of a bucket in the map from upper bounds, which the loop that
    fills it lets the last bucket of a bound have. *)
Fixpoint bound_index (bounds : list F) (x : F) : option nat :=
  match bounds with
  | [] => None
  | y :: bounds' =>
    match bound_index bounds' x with
    | Some i => Some (S i)
    | None => if f_eq y x then Some 0 else None
    end
  end.
Definition add_bucket (d s : Bucket F X) : Bucket F X := {|
  UpperBound := UpperBound d;
  CumulativeCount := Some (wrap_uint64 (count_get (CumulativeCount d) + count_get (CumulativeCount s)));
  BExemplar := match BExemplar d with None => BExemplar s | e => e end;
|}.
Definition bucket_step (bounds : list F) (out : list (Bucket F X)) (s : Bucket F X) : list (Bucket F X) :=
  match bound_index bounds (f_get (UpperBound s)) with
  | None => out ++ [s]
  | Some i => alter (λ d, add_bucket d s) i out
  end.
Definition mergePrometheusHistogram (dst src : Histogram F X) : Histogram F X := {|
  SampleCount := Some (wrap_uint64 (count_get (SampleCount dst) + count_get (SampleCount src)));
  SampleSum := Some (f_add (f_get (SampleSum dst)) (f_get (SampleSum src)));
  Buckets := sort_buckets
    (foldl (bucket_step ((λ d, f_get (UpperBound d)) <$> Buckets dst)) (Buckets dst) (Buckets src));
  HRest := HRest dst;
|}.

Definition mergePrometheusMetric dst src : Metric F X := {|
  Label := Label dst;
  Counter := add_value (Counter dst) (Counter src);
  Gauge := match Gauge src with Some g => Some g | None => Gauge dst end;
  MHistogram := match MHistogram src, MHistogram dst with
                | Some s, Some d => Some (mergePrometheusHistogram d s)
                | _, d => d
                end;
  Untyped := add_value (Untyped dst) (Untyped src);
  Summary := match Summary src with Some s => Some s | None => Summary dst end;
  TimestampMs := match Gauge src, Summary src with None, None => TimestampMs dst | _, _ => TimestampMs src end;
|}.
Definition mergePrometheusMetrics (l : list (Metric F X)) : list (Metric F X) :=
  merge_points prometheusMetricKey mergePrometheusMetric l.

(** * The limiter *)
Record prometheusLimiter := { p_buckets : gmap bytes bucket; p_rules : list PrometheusRule }.
Definition usable_prometheus_rule (r : PrometheusRule) : bool :=
  negb (bool_decide (PMetricName r = []) || bool_decide (PLabelName r = []) || (PMax r <=? 0)%Z).
Definition newPrometheusLimiter (rs : list PrometheusRule) : prometheusLimiter :=
  {| p_buckets := ∅; p_rules := filter (λ r, usable_prometheus_rule r = true) rs |}.
Definition p_budget_name (r : PrometheusRule) : bytes :=
  if bool_decide (PBudgetKey r = []) then PScopeName r ++ nul ++ PMetricName r ++ nul ++ PLabelName r
  else PBudgetKey r.
Definition p_room (r : PrometheusRule) : nat := Z.to_nat (PMax r).
Definition p_rule_bucket (bs : gmap bytes bucket) (r : PrometheusRule) : bucket :=
  load_or_store bs (p_budget_name r) (new_bucket (PLabelName r) (p_room r)).

(** A rule is of a series' scope. *)
Definition scope_matches (r : PrometheusRule) m : bool :=
  bool_decide (PScopeName r = []) || bool_decide (prometheusLabel m scopeNameLabel = PScopeName r).
Fixpoint rewrite_series (r : PrometheusRule) (ms : list (Metric F X)) (b : bucket) : list (Metric F X) * bucket :=
  match ms with
  | [] => ([], b)
  | m :: ms' =>
    let '(m, b) := if scope_matches r m then rewritePrometheusLabels m (PLabelName r) b else (m, b) in
    let '(ms', b) := rewrite_series r ms' b in (m :: ms', b)
  end.
Definition GetFamilyName (f : MetricFamily F X) : bytes := default [] (FName f).
Definition rewrite_family_rule (st : gmap bytes bucket * MetricFamily F X) (r : PrometheusRule) :
    gmap bytes bucket * MetricFamily F X :=
  let '(bs, f) := st in
  if bool_decide (GetFamilyName f = PMetricName r) then
    let '(ms, b) := rewrite_series r (FMetric f) (p_rule_bucket bs r) in
    (<[p_budget_name r := b]> bs,
     {| FName := FName f; FMetric := mergePrometheusMetrics ms; FRest := FRest f |})
  else (bs, f).
Fixpoint rewrite (l : prometheusLimiter) (families : list (MetricFamily F X)) :
    prometheusLimiter * list (MetricFamily F X) :=
  match families with
  | [] => (l, [])
  | f :: families' =>
    let '(bs, f) := foldl rewrite_family_rule (p_buckets l, f) (p_rules l) in
    let '(l, rest) := rewrite {| p_buckets := bs; p_rules := p_rules l |} families' in (l, f :: rest)
  end.
(** Gather, scrape after scrape: what the inner gatherer returned, rewritten. *)
Fixpoint Gathers (l : prometheusLimiter) (scrapes : list (list (MetricFamily F X))) :
    prometheusLimiter * list (list (MetricFamily F X)) :=
  match scrapes with
  | [] => (l, [])
  | fs :: scrapes' => let '(l, fs) := rewrite l fs in
                      let '(l, rest) := Gathers l scrapes' in (l, fs :: rest)
  end.

(** * Labels, rewritten *)

(** The value of the first label of a name. *)
Definition label_of (ls : list LabelPair) (n : bytes) : option bytes :=
  GetValue <$> head (filter (λ l, GetName l = n) ls).

Lemma label_of_cons l ls n :
  label_of (l :: ls) n = if decide (GetName l = n) then Some (GetValue l) else label_of ls n.
Proof. unfold label_of. rewrite filter_cons. by case_decide. Qed.

Lemma prometheusLabel_of m n : prometheusLabel m n = default [] (label_of (Label m) n).
Proof. unfold prometheusLabel, label_of. by destruct (head _). Qed.

(** A label of the same name, with the same value or the overflow value. *)
Definition label_from (l l' : LabelPair) : Prop :=
  LabelName l' = LabelName l ∧ (GetValue l' = GetValue l ∨ GetValue l' = OverflowValue).
#[export] Instance label_from_preorder : PreOrder label_from.
Proof.
  split; [by split; [|left]|]. intros l1 l2 l3 [E1 H1] [E2 H2]. split; [congruence|].
  destruct H2 as [->|?]; [done|by right].
Qed.

Lemma label_of_from ls ls' n v' :
  Forall2 label_from ls ls' → label_of ls' n = Some v' →
  ∃ v, label_of ls n = Some v ∧ (v' = v ∨ v' = OverflowValue).
Proof.
  induction 1 as [|l l' ls ls' [Hn Hv] Hf IH]; [done|]. rewrite !label_of_cons.
  assert (GetName l' = GetName l) as -> by (unfold GetName; by rewrite Hn).
  case_decide; [|done]. intros [= <-]. eauto.
Qed.

Lemma rewrite_labels_spec ls n b :
  let '(ls', b') := rewrite_labels ls n b in
  grows b b' ∧ Forall2 label_from ls ls' ∧ (∀ v, label_of ls' n = Some v → admitted b' v)
  ∧ ∀ n', n' ≠ n → label_of ls' n' = label_of ls n'.
Proof.
  induction ls as [|l ls IH]; cbn [rewrite_labels]; [by split_and!; try constructor|].
  case_bool_decide as Hl.
  - pose proof (observe_grows b (GetValue l)) as Hg. pose proof (observe_admitted b (GetValue l)) as Ha.
    destruct (observe b (GetValue l)) as [next b']. destruct Ha as [Ha Hv]. split_and!; [done| | | ].
    + constructor; [by split|done].
    + intros v. rewrite label_of_cons. unfold GetName at 1. cbn. fold (GetName l). rewrite decide_True by done.
      by intros [= <-].
    + intros n' Hn. rewrite !label_of_cons. unfold GetName at 1. cbn. fold (GetName l).
      by rewrite !decide_False by congruence.
  - destruct (rewrite_labels ls n b) as [ls' b']. destruct IH as (Hg & Hf & Ha & Hn).
    split_and!; [done|by constructor| | ].
    + intros v. rewrite label_of_cons, decide_False by done. apply Ha.
    + intros n' Hn'. rewrite !label_of_cons. by rewrite Hn.
Qed.

(** * Series *)

(** The labels of a series after some rules: those there were, some collapsed, in
    the scope it had. *)
Record series_from (ls ls' : list LabelPair) : Prop := {
  series_labels : Forall2 label_from ls ls';
  series_scope : label_of ls' scopeNameLabel = label_of ls scopeNameLabel;
}.
#[export] Instance series_from_preorder : PreOrder series_from.
Proof.
  split; [by split|]. intros l1 l2 l3 [H1 E1] [H2 E2]. split; [by etrans|congruence].
Qed.

Lemma scope_matches_from r m m' : series_from (Label m) (Label m') → scope_matches r m' = scope_matches r m.
Proof. intros [_ Hs]. unfold scope_matches. by rewrite !prometheusLabel_of, Hs. Qed.

(** A rule holds for a series, of its scope. *)
Definition series_capped (b : bucket) (r : PrometheusRule) m : Prop :=
  scope_matches r m = true → ∀ v, label_of (Label m) (PLabelName r) = Some v → admitted b v.

Lemma series_capped_grows b b' r m : grows b b' → series_capped b r m → series_capped b' r m.
Proof. intros Hg Hc Hs v Hv. by eapply admitted_grows, Hc. Qed.

Lemma series_capped_from b r m m' :
  series_from (Label m) (Label m') → series_capped b r m → series_capped b r m'.
Proof.
  intros Hf Hc Hs v' Hv'. rewrite (scope_matches_from r m m' Hf) in Hs.
  destruct (label_of_from _ _ _ _ (series_labels _ _ Hf) Hv') as (v & Hv & [->|?]); [by apply Hc|by right].
Qed.

Lemma rewrite_series_spec r ms b :
  PLabelName r ≠ scopeNameLabel →
  let '(ms', b') := rewrite_series r ms b in
  grows b b' ∧ Forall (series_capped b' r) ms'
  ∧ Forall2 (λ m m', series_from (Label m) (Label m') ∧ m' = with_labels m (Label m')) ms ms'.
Proof.
  intros Hr. revert b. induction ms as [|m ms IH]; intros b; cbn [rewrite_series]; [by split_and!|].
  assert (let '(m', b') := if scope_matches r m then rewritePrometheusLabels m (PLabelName r) b else (m, b) in
    grows b b' ∧ series_capped b' r m' ∧ series_from (Label m) (Label m') ∧ m' = with_labels m (Label m')) as Hm.
  { destruct (scope_matches r m) eqn:Es.
    - unfold rewritePrometheusLabels. pose proof (rewrite_labels_spec (Label m) (PLabelName r) b) as Hl.
      destruct (rewrite_labels (Label m) (PLabelName r) b) as [ls b']. destruct Hl as (Hg & Hf & Ha & Hn).
      split_and!; [done|by intros _|split; [done|by apply Hn]|done].
    - split_and!; [done| |done|by destruct m]. intros Hs. congruence. }
  destruct (if scope_matches r m then _ else _) as [m' b1]. destruct Hm as (Hg1 & Hc1 & Hf1 & Hw1).
  specialize (IH b1). destruct (rewrite_series r ms b1) as [ms' b2]. destruct IH as (Hg2 & Hc2 & Hf2).
  split_and!; [by etrans| |by constructor]. constructor; [|done]. by eapply series_capped_grows.
Qed.

(** * Merged metrics *)
Lemma merge_key dst src : prometheusMetricKey (mergePrometheusMetric dst src) = prometheusMetricKey dst.
Proof. done. Qed.

Lemma foldl_merge_label dst l : Label (foldl mergePrometheusMetric dst l) = Label dst.
Proof. revert dst. induction l as [|src l IH]; intros dst; [done|]. cbn [foldl]. by rewrite IH. Qed.

(** A merged series has the labels of one of those it is made of. *)
Lemma mergePrometheusMetrics_label l m :
  m ∈ mergePrometheusMetrics l → ∃ m0, m0 ∈ l ∧ Label m0 = Label m.
Proof.
  intros Hm. destruct (merge_points_spec prometheusMetricKey mergePrometheusMetric
    (λ a b _, merge_key a b) l) as (_ & _ & Hg). specialize (Hg m Hm). unfold merged_group in Hg.
  destruct (filter _ l) as [|m0 rest] eqn:E; [done|]. injection Hg as Hg. exists m0.
  rewrite <- Hg, foldl_merge_label. split; [|done].
  assert (m0 ∈ filter (λ x, prometheusMetricKey x = prometheusMetricKey m) l) as Hin by (rewrite E; by left).
  by apply list_elem_of_filter in Hin as [_ ?].
Qed.

(** * Families *)
Abbreviation p_budgets_ok := (budgets_ok p_budget_name p_room).

(** Every rule of a family holds for its series, each of its budget. *)
Definition series_holds (bs : gmap bytes bucket) (r : PrometheusRule) m : Prop :=
  ∃ b, bs !! p_budget_name r = Some b ∧ series_capped b r m.

Lemma series_holds_grow bs bs' r m : budgets_grow bs bs' → series_holds bs r m → series_holds bs' r m.
Proof. intros Hg (b & (b' & ? & ?)%Hg & Hc). exists b'. split; [done|]. by eapply series_capped_grows. Qed.

Lemma series_holds_from bs r m m' :
  series_from (Label m) (Label m') → series_holds bs r m → series_holds bs r m'.
Proof. intros Hf (b & Hb & Hc). exists b. split; [done|]. by eapply series_capped_from. Qed.

Definition from_family (f f' : MetricFamily F X) : Prop :=
  FName f' = FName f ∧ ∀ m', m' ∈ FMetric f' → ∃ m, m ∈ FMetric f ∧ series_from (Label m) (Label m').
#[export] Instance from_family_preorder : PreOrder from_family.
Proof.
  split.
  - intros f. split; [done|]. intros m Hm. by exists m.
  - intros f1 f2 f3 [E1 H1] [E2 H2]. split; [congruence|]. intros m3 (m2 & Hm2 & Hf2)%H2.
    destruct (H1 m2 Hm2) as (m1 & ? & ?). exists m1. split; [done|by etrans].
Qed.
Definition applies (r : PrometheusRule) (f : MetricFamily F X) : Prop := PMetricName r = GetFamilyName f.

Lemma rewrite_family_rule_spec rs bs f r :
  PLabelName r ≠ scopeNameLabel → r ∈ rs → p_budgets_ok rs bs →
  let '(bs', f') := rewrite_family_rule (bs, f) r in
  p_budgets_ok rs bs' ∧ budgets_grow bs bs' ∧ from_family f f'
  ∧ (applies r f → Forall (series_holds bs' r) (FMetric f')).
Proof.
  intros Hl Hr Hok. cbn [rewrite_family_rule]. case_bool_decide as Hn.
  2: { split_and!; [done..|]. intros Ha. by destruct Hn. }
  pose proof (rewrite_series_spec r (FMetric f) (p_rule_bucket bs r) Hl) as Hs.
  destruct (rewrite_series r (FMetric f) (p_rule_bucket bs r)) as [ms b']. destruct Hs as (Hg & Hc & Hf).
  destruct (budgets_spend p_budget_name p_room rs bs r (PLabelName r) b' Hr Hok Hg) as [Hok' Hg'].
  split_and!; [done|done|split; [done|]|intros _]; cbn [FMetric].
  - intros m' (m1 & Hm1 & El)%mergePrometheusMetrics_label. apply list_elem_of_lookup in Hm1 as [i Hi].
    destruct (Forall2_lookup_r _ _ _ _ _ Hf Hi) as (m & Hm & Hfr & _).
    exists m. rewrite <- El. split; [by eapply list_elem_of_lookup_2|done].
  - apply Forall_forall. intros m' (m1 & Hm1 & El)%mergePrometheusMetrics_label.
    rewrite Forall_forall in Hc. exists b'. rewrite lookup_insert_eq. split; [done|].
    eapply series_capped_from; [|by apply Hc]. by rewrite El.
Qed.

Lemma rewrite_family_rules_spec rs todo bs f :
  (∀ r, r ∈ todo → r ∈ rs ∧ PLabelName r ≠ scopeNameLabel) → p_budgets_ok rs bs →
  let '(bs', f') := foldl rewrite_family_rule (bs, f) todo in
  p_budgets_ok rs bs' ∧ budgets_grow bs bs' ∧ from_family f f'
  ∧ (∀ r, r ∈ todo → applies r f → Forall (series_holds bs' r) (FMetric f')).
Proof.
  revert bs f. induction todo as [|r todo IH]; intros bs f Hin Hok; cbn [foldl].
  { split_and!; [done..|]. intros r Hr. by apply elem_of_nil in Hr. }
  destruct (Hin r ltac:(by left)) as [Hr Hl].
  pose proof (rewrite_family_rule_spec rs bs f r Hl Hr Hok) as H1.
  destruct (rewrite_family_rule (bs, f) r) as [bs1 f1]. destruct H1 as (Hok1 & Hg1 & Hf1 & Hc1).
  specialize (IH bs1 f1 (λ r' Hr', Hin r' (list_elem_of_further _ _ _ Hr')) Hok1).
  destruct (foldl rewrite_family_rule (bs1, f1) todo) as [bs2 f2]. destruct IH as (Hok2 & Hg2 & Hf2 & Hc2).
  split_and!; [done|by etrans|by etrans|].
  intros r' [->|Hr']%elem_of_cons Ha.
  - apply Forall_forall. intros m2 Hm2. destruct Hf2 as [_ Hf2]. destruct (Hf2 m2 Hm2) as (m1 & Hm1 & Hfr).
    specialize (Hc1 Ha). rewrite Forall_forall in Hc1.
    eapply series_holds_grow; [exact Hg2|]. eapply series_holds_from; [exact Hfr|by apply Hc1].
  - apply Hc2; [done|]. unfold applies, GetFamilyName in *. by rewrite (proj1 Hf1).
Qed.

(** * Scrapes *)
Definition p_limiter_ok (l : prometheusLimiter) : Prop := p_budgets_ok (p_rules l) (p_buckets l).
Definition no_scope_label (l : prometheusLimiter) : Prop := ∀ r, r ∈ p_rules l → PLabelName r ≠ scopeNameLabel.
Record p_limiter_grows (l l' : prometheusLimiter) : Prop := {
  p_grows_rules : p_rules l' = p_rules l;
  p_grows_buckets : budgets_grow (p_buckets l) (p_buckets l');
  p_grows_ok : p_limiter_ok l → p_limiter_ok l';
}.
#[export] Instance p_limiter_grows_preorder : PreOrder p_limiter_grows.
Proof.
  split; [by split|]. intros l1 l2 l3 [? ? ?] [? ? ?]. split; [congruence|by etrans|auto].
Qed.

Definition family_capped (l : prometheusLimiter) (f : MetricFamily F X) : Prop :=
  ∀ r, r ∈ p_rules l → applies r f → Forall (series_holds (p_buckets l) r) (FMetric f).

Lemma family_capped_grows l l' f : p_limiter_grows l l' → family_capped l f → family_capped l' f.
Proof.
  intros [Hr Hg _] Hc r Hin Ha. rewrite Hr in Hin. eapply Forall_impl; [by apply Hc|].
  intros m. by apply series_holds_grow.
Qed.

Lemma rewrite_spec l fs :
  no_scope_label l → p_limiter_ok l →
  let '(l', fs') := rewrite l fs in
  p_limiter_grows l l' ∧ Forall (family_capped l') fs' ∧ Forall2 from_family fs fs'.
Proof.
  revert l. induction fs as [|f fs IH]; intros l Hn Hok; cbn [rewrite]; [by split_and!|].
  pose proof (rewrite_family_rules_spec (p_rules l) (p_rules l) (p_buckets l) f (λ r Hr, conj Hr (Hn r Hr)) Hok) as H1.
  destruct (foldl rewrite_family_rule _ _) as [bs f1]. destruct H1 as (Hok1 & Hg1 & Hf1 & Hc1).
  specialize (IH {| p_buckets := bs; p_rules := p_rules l |} Hn Hok1). destruct (rewrite _ fs) as [l2 fs2].
  destruct IH as (Hg2 & Hc2 & Hf2).
  assert (p_limiter_grows l {| p_buckets := bs; p_rules := p_rules l |}) as Hg by by split.
  split_and!; [by etrans| |by constructor]. constructor; [|done].
  eapply family_capped_grows; [exact Hg2|]. intros r Hr Ha. apply Hc1; [done|].
  unfold applies, GetFamilyName in *. by rewrite <- (proj1 Hf1).
Qed.

Lemma Gathers_spec l scrapes :
  no_scope_label l → p_limiter_ok l →
  let '(l', out) := Gathers l scrapes in
  p_limiter_grows l l' ∧ Forall (Forall (family_capped l')) out ∧ Forall2 (Forall2 from_family) scrapes out.
Proof.
  revert l. induction scrapes as [|fs scrapes IH]; intros l Hn Hok; cbn [Gathers]; [by split_and!|].
  pose proof (rewrite_spec l fs Hn Hok) as H1. destruct (rewrite l fs) as [l1 fs1].
  destruct H1 as (Hg1 & Hc1 & Hf1).
  assert (no_scope_label l1) as Hn1 by (intros r; rewrite (p_grows_rules _ _ Hg1); apply Hn).
  specialize (IH l1 Hn1 (p_grows_ok _ _ Hg1 Hok)). destruct (Gathers l1 scrapes) as [l2 out].
  destruct IH as (Hg2 & Hc2 & Hf2). split_and!; [by etrans| |by constructor].
  constructor; [|done]. eapply Forall_impl; [exact Hc1|]. intros f. by apply family_capped_grows.
Qed.

Lemma newPrometheusLimiter_ok rs : p_limiter_ok (newPrometheusLimiter rs).
Proof.
  intros name b Hb. unfold newPrometheusLimiter in Hb. cbn [p_buckets] in Hb. by rewrite lookup_empty in Hb.
Qed.

(** * The key of a series *)
Definition label_pair (l : LabelPair) : bytes * bytes := (GetName l, GetValue l).
(** A label whose name is one and whose value is UTF-8: no equals sign and no
    byte 0xff in the first, no byte 0xff in the second. *)
Definition well_formed (l : LabelPair) : Prop :=
  "="%char ∉ GetName l ∧ byte_of 255 ∉ GetName l ∧ byte_of 255 ∉ GetValue l.

Lemma label_text_pair l : well_formed l → (Cut (label_text l) "=").1 = label_pair l.
Proof.
  intros (Hn & _ & _). unfold label_text, label_pair. revert Hn. generalize (GetName l) as n, (GetValue l) as v.
  intros n v. induction n as [|c n IH]; intros Hn; [done|]. cbn [app Cut].
  rewrite bool_decide_false by set_solver. destruct (Cut _ _) as [[a b] ok]. specialize (IH ltac:(set_solver)).
  cbn in IH |- *. by injection IH as -> ->.
Qed.

Lemma label_texts_perm ls ls' :
  Forall well_formed ls → Forall well_formed ls' → (label_text <$> ls) ≡ₚ (label_text <$> ls') →
  (label_pair <$> ls) ≡ₚ (label_pair <$> ls').
Proof.
  intros Hl Hl' Hp. assert (Hmap : ∀ k : list LabelPair, Forall well_formed k →
    label_pair <$> k = (λ t, (Cut t "=").1) <$> (label_text <$> k)).
  { intros k Hk. rewrite <- list_fmap_compose. apply list_fmap_ext. intros i l Hi.
    cbn. by rewrite label_text_pair by by eapply Forall_lookup_1. }
  rewrite (Hmap ls), (Hmap ls') by done. by rewrite Hp.
Qed.

Lemma sort_strings_proper l k : l ≡ₚ k → sort_strings l = sort_strings k.
Proof.
  intros Hp. apply (StronglySorted_unique bytes_le); try apply sort_strings_sorted.
  by rewrite !sort_strings_perm.
Qed.

Lemma Join_labels_inj ws ws' :
  Forall (λ w, byte_of 255 ∉ w ∧ w ≠ []) ws → Forall (λ w, byte_of 255 ∉ w ∧ w ≠ []) ws' →
  Join ws xff = Join ws' xff → ws = ws'.
Proof.
  intros H H' E. assert (Hs : ∀ l, Forall (λ w, byte_of 255 ∉ w ∧ w ≠ []) l →
    l = if bool_decide (Join l xff = []) then [] else Split (Join l xff) (byte_of 255)).
  { intros l Hl. destruct l as [|w l]; [done|]. rewrite bool_decide_false.
    - unfold xff. rewrite Split_Join; [done|done|]. eapply Forall_impl; [exact Hl|naive_solver].
    - apply Forall_cons in Hl as [[_ Hw] _]. destruct w; [done|]. by destruct l. }
  rewrite (Hs ws H), (Hs ws' H'). by rewrite E.
Qed.

Lemma label_texts_clean ls :
  Forall well_formed ls → Forall (λ w, byte_of 255 ∉ w ∧ w ≠ []) (sort_strings (label_text <$> ls)).
Proof.
  intros Hl. rewrite sort_strings_perm. apply Forall_fmap. eapply Forall_impl; [exact Hl|].
  intros l (_ & Hn & Hv). unfold compose, label_text. split; [|by destruct (GetName l)].
  rewrite !not_elem_of_app. split_and!; [done| |done]. vm_compute. intros H.
  apply list_elem_of_singleton in H. done.
Qed.

(** * Totals *)
Class FloatLaws := {
  f_eq_sym (x y : F) : f_eq x y = f_eq y x;
  f_eq_trans (x y z : F) : f_eq x y = true → f_eq y z = true → f_eq x z = true;
}.
Context (Hfloat : FloatLaws) (Hsort : SortBucketsLaws So).

(** The observations a histogram counts up to a bound. *)
Definition upto (x : F) (b : Bucket F X) : Z :=
  if f_eq (f_get (UpperBound b)) x then count_get (CumulativeCount b) else 0%Z.
Definition counted_upto (x : F) (h : Histogram F X) : Z := sum_of (upto x) (Buckets h).

Lemma sum_of_perm {A} (f : A → Z) l k : l ≡ₚ k → sum_of f l = sum_of f k.
Proof. induction 1; cbn [sum_of]; lia. Qed.

Lemma bound_index_some bounds x i :
  bound_index bounds x = Some i → ∃ y, bounds !! i = Some y ∧ f_eq y x = true.
Proof.
  revert i. induction bounds as [|y bounds IH]; intros i; [done|]. cbn [bound_index].
  destruct (bound_index bounds x) as [j|].
  - intros [= <-]. by apply IH.
  - destruct (f_eq y x) eqn:E; [|done]. intros [= <-]. by exists y.
Qed.

Lemma upto_add_bucket x d s :
  f_eq (f_get (UpperBound d)) (f_get (UpperBound s)) = true → eq64 (upto x (add_bucket d s)) (upto x d + upto x s).
Proof.
  intros E. unfold upto. cbn [add_bucket UpperBound CumulativeCount].
  assert (f_eq (f_get (UpperBound s)) x = f_eq (f_get (UpperBound d)) x) as ->.
  { destruct (f_eq (f_get (UpperBound d)) x) eqn:Ed.
    - rewrite f_eq_sym in E. by eapply f_eq_trans.
    - destruct (f_eq (f_get (UpperBound s)) x) eqn:Es; [|done].
      rewrite (f_eq_trans _ _ _ E Es) in Ed. done. }
  destruct (f_eq _ x); [apply wrap_uint64_eq64|done].
Qed.

(** The buckets the loop may add to are where they were. *)
Definition bounds_kept (bounds : list F) (out : list (Bucket F X)) : Prop :=
  ∀ i y, bounds !! i = Some y → ∃ d, out !! i = Some d ∧ f_get (UpperBound d) = y.

Lemma bucket_step_total x bounds out s :
  bounds_kept bounds out →
  bounds_kept bounds (bucket_step bounds out s)
  ∧ eq64 (sum_of (upto x) (bucket_step bounds out s)) (sum_of (upto x) out + upto x s).
Proof.
  intros Hk. unfold bucket_step. destruct (bound_index bounds _) as [i|] eqn:Ei.
  - apply bound_index_some in Ei as (y & Hy & Ey). destruct (Hk i y Hy) as (d & Hd & <-). split.
    + intros j z Hz. destruct (Hk j z Hz) as (d' & Hd' & <-). destruct (decide (j = i)) as [->|Hne].
      * exists (add_bucket d' s). by rewrite list_lookup_alter_eq, Hd'.
      * exists d'. by rewrite list_lookup_alter_ne.
    + rewrite (sum_of_alter _ _ _ _ d Hd), (upto_add_bucket x d s Ey).
      apply eq_subrelation; [apply _|lia].
  - split.
    + intros j z Hz. destruct (Hk j z Hz) as (d & Hd & <-). exists d. split; [|done].
      by apply lookup_app_l_Some.
    + rewrite sum_of_app. apply eq_subrelation; [apply _|]. cbn. lia.
Qed.

Lemma merge_histogram_upto x h k :
  eq64 (counted_upto x (mergePrometheusHistogram h k)) (counted_upto x h + counted_upto x k).
Proof.
  unfold counted_upto. cbn [mergePrometheusHistogram Buckets]. rewrite (sum_of_perm _ _ _ (Hsort _)).
  assert (Hgen : ∀ bounds ss out, bounds_kept bounds out →
    eq64 (sum_of (upto x) (foldl (bucket_step bounds) out ss)) (sum_of (upto x) out + sum_of (upto x) ss)).
  { intros bounds ss. induction ss as [|s ss IH]; intros out Hk; cbn [foldl sum_of].
    { by rewrite Z.add_0_r. }
    destruct (bucket_step_total x bounds out s Hk) as [Hk' Ht]. rewrite (IH _ Hk'), Ht.
    apply eq_subrelation; [apply _|lia]. }
  apply Hgen. intros i y. rewrite list_lookup_fmap. intros (d & -> & Hd)%fmap_Some. by exists d.
Qed.

(** Observations of a metric and of a family. *)
Definition sample_count m : Z := match MHistogram m with Some h => count_get (SampleCount h) | None => 0%Z end.
Definition metric_upto (x : F) m : Z := match MHistogram m with Some h => counted_upto x h | None => 0%Z end.
Definition is_histogram m : Prop := is_Some (MHistogram m).
Record same_observations (ms ms' : list (Metric F X)) : Prop := {
  same_histograms : Forall is_histogram ms';
  same_samples : eq64 (sum_of sample_count ms') (sum_of sample_count ms);
  same_upto : ∀ x, eq64 (sum_of (metric_upto x) ms') (sum_of (metric_upto x) ms);
}.

Lemma merged_observations (o : Metric F X → Z) ms :
  (∀ m1 m2, is_histogram m1 → is_histogram m2 → eq64 (o (mergePrometheusMetric m1 m2)) (o m1 + o m2)) →
  Forall is_histogram ms →
  eq64 (sum_of o (mergePrometheusMetrics ms)) (sum_of o ms) ∧ Forall is_histogram (mergePrometheusMetrics ms).
Proof.
  intros Ho. apply (merge_points_total_on prometheusMetricKey mergePrometheusMetric o is_histogram eq64);
    [done| |done].
  intros m1 m2 [h1 E1] [h2 E2]. unfold is_histogram. cbn [mergePrometheusMetric MHistogram]. by rewrite E1, E2.
Qed.

Lemma mergePrometheusMetrics_same ms :
  Forall is_histogram ms → same_observations ms (mergePrometheusMetrics ms).
Proof.
  intros Hms. assert (Hs : ∀ m1 m2, is_histogram m1 → is_histogram m2 →
    eq64 (sample_count (mergePrometheusMetric m1 m2)) (sample_count m1 + sample_count m2)
    ∧ ∀ x, eq64 (metric_upto x (mergePrometheusMetric m1 m2)) (metric_upto x m1 + metric_upto x m2)).
  { intros m1 m2 [h1 E1] [h2 E2]. unfold sample_count, metric_upto.
    cbn [mergePrometheusMetric MHistogram]. rewrite E1, E2. split; [apply wrap_uint64_eq64|].
    intros x. apply merge_histogram_upto. }
  split.
  - eapply (merged_observations sample_count); [|done]. intros m1 m2 H1 H2. by apply Hs.
  - eapply (merged_observations sample_count); [|done]. intros m1 m2 H1 H2. by apply Hs.
  - intros x. eapply (merged_observations (metric_upto x)); [|done]. intros m1 m2 H1 H2. by apply Hs.
Qed.

(** What a family becomes: its name, its series with labels collapsed at most,
    its observations; and series with keys of their own, unless no rule names
    it, when it is what it was. *)
Record family_kept (rs : list PrometheusRule) (f f' : MetricFamily F X) : Prop := {
  kept_from : from_family f f';
  kept_distinct : (∀ r, r ∈ rs → ¬ applies r f) ∧ f' = f ∨ NoDup (prometheusMetricKey <$> FMetric f');
  kept_observations : Forall is_histogram (FMetric f) → same_observations (FMetric f) (FMetric f');
}.

Lemma rewrite_series_same r ms b :
  Forall is_histogram ms → PLabelName r ≠ scopeNameLabel → same_observations ms (rewrite_series r ms b).1.
Proof.
  intros Hms Hr. pose proof (rewrite_series_spec r ms b Hr) as Hs.
  destruct (rewrite_series r ms b) as [ms' b']. destruct Hs as (_ & _ & Hf). cbn [fst].
  induction Hf as [|m m' ms ms' [_ Em] Hf IH]; [by split|]. apply Forall_cons in Hms as [Hm Hms].
  destruct (IH Hms) as [Hh Hc Hu].
  assert (sample_count m' = sample_count m ∧ (∀ x, metric_upto x m' = metric_upto x m) ∧ is_histogram m')
    as (E1 & E2 & E3) by (rewrite Em; done).
  split; [by constructor| |intros x]; cbn [sum_of]; [by rewrite Hc, E1|by rewrite Hu, E2].
Qed.

Lemma rewrite_family_rule_kept rs bs f r :
  PLabelName r ≠ scopeNameLabel → r ∈ rs → p_budgets_ok rs bs → family_kept [r] f (rewrite_family_rule (bs, f) r).2.
Proof.
  intros Hl Hr Hok. pose proof (rewrite_family_rule_spec rs bs f r Hl Hr Hok) as Hs.
  pose proof (λ H, rewrite_series_same r (FMetric f) (p_rule_bucket bs r) H Hl) as Ho.
  destruct (rewrite_family_rule (bs, f) r) as [bs' f'] eqn:E. destruct Hs as (_ & _ & Hf & _).
  cbn [rewrite_family_rule] in E. cbn [snd]. case_bool_decide as Hn.
  - destruct (rewrite_series r _ _) as [ms b']. injection E as <- <-. split; [done| |].
    + right. cbn [FMetric]. by apply (merge_points_spec prometheusMetricKey mergePrometheusMetric).
    + intros H. destruct (Ho H) as [Hh Hc Hu]. cbn [FMetric fst] in *.
      destruct (mergePrometheusMetrics_same ms Hh) as [Hh' Hc' Hu'].
      split; [done|by rewrite Hc'|intros x; by rewrite Hu'].
  - injection E as <- <-. split; [done| |intros H; by split]. left. split; [|done].
    intros r' ->%list_elem_of_singleton Ha. by destruct Hn.
Qed.

Lemma same_observations_trans ms1 ms2 ms3 :
  same_observations ms1 ms2 → same_observations ms2 ms3 → same_observations ms1 ms3.
Proof. intros [? H1 H2] [? H3 H4]. split; [done|by rewrite H3|intros x; by rewrite H4]. Qed.

Lemma family_kept_nil f : family_kept [] f f.
Proof. split; [done| |intros H; by split]. left. split; [|done]. intros r Hr. by apply elem_of_nil in Hr. Qed.

Lemma family_kept_app rs1 rs2 f1 f2 f3 :
  family_kept rs1 f1 f2 → family_kept rs2 f2 f3 → family_kept (rs1 ++ rs2) f1 f3.
Proof.
  intros [Hf1 Hd1 Ho1] [Hf2 Hd2 Ho2]. split; [by etrans| |].
  - destruct Hd2 as [[Hn2 ->]|?]; [|by right]. destruct Hd1 as [[Hn1 ->]|?]; [left|by right].
    split; [|done]. intros r [?|?]%elem_of_app; [by apply Hn1|by apply Hn2].
  - intros H. pose proof (Ho1 H) as H1. eapply same_observations_trans; [exact H1|]. apply Ho2, H1.
Qed.

Lemma rewrite_family_rules_kept rs todo bs f :
  (∀ r, r ∈ todo → r ∈ rs ∧ PLabelName r ≠ scopeNameLabel) → p_budgets_ok rs bs →
  family_kept todo f (foldl rewrite_family_rule (bs, f) todo).2.
Proof.
  revert bs f. induction todo as [|r todo IH]; intros bs f Hin Hok; cbn [foldl]; [apply family_kept_nil|].
  destruct (Hin r ltac:(by left)) as [Hr Hl].
  pose proof (rewrite_family_rule_spec rs bs f r Hl Hr Hok) as H1.
  pose proof (rewrite_family_rule_kept rs bs f r Hl Hr Hok) as Hk.
  destruct (rewrite_family_rule (bs, f) r) as [bs1 f1]. destruct H1 as (Hok1 & _).
  apply (family_kept_app [r] todo f f1); [done|].
  apply (IH bs1 f1 (λ r' Hr', Hin r' (list_elem_of_further _ _ _ Hr')) Hok1).
Qed.

Lemma rewrite_kept l fs :
  no_scope_label l → p_limiter_ok l → Forall2 (family_kept (p_rules l)) fs (rewrite l fs).2.
Proof.
  revert l. induction fs as [|f fs IH]; intros l Hn Hok; cbn [rewrite]; [constructor|].
  pose proof (λ r Hr, conj Hr (Hn r Hr)) as Hin.
  pose proof (rewrite_family_rules_spec (p_rules l) (p_rules l) (p_buckets l) f Hin Hok) as H1.
  pose proof (rewrite_family_rules_kept (p_rules l) (p_rules l) (p_buckets l) f Hin Hok) as Hk.
  destruct (foldl rewrite_family_rule _ _) as [bs f1]. destruct H1 as (Hok1 & _).
  specialize (IH {| p_buckets := bs; p_rules := p_rules l |} Hn Hok1). destruct (rewrite _ fs) as [l2 fs2].
  by constructor.
Qed.

(** * Properties *)

(** Two series have one key exactly when they have the same labels, in any
    order, provided label names hold no equals sign and neither names nor
    values the byte 0xff, which UTF-8 never does: the points merged are those
    of one series, and no others. *)
Theorem prometheusMetricKey_exact (m1 m2 : Metric F X) :
  Forall well_formed (Label m1) → Forall well_formed (Label m2) →
  prometheusMetricKey m1 = prometheusMetricKey m2 ↔ (label_pair <$> Label m1) ≡ₚ (label_pair <$> Label m2).
Proof.
  intros H1 H2. unfold prometheusMetricKey. split.
  - intros E%Join_labels_inj; [|by apply label_texts_clean..]. apply label_texts_perm; [done|done|].
    by rewrite <- (sort_strings_perm (label_text <$> Label m1)), E, sort_strings_perm.
  - intros Hp. f_equal. apply sort_strings_proper.
    assert (Hmap : ∀ k : list LabelPair, label_text <$> k = (λ p, p.1 ++ #"=" ++ p.2) <$> (label_pair <$> k)).
    { intros k. by rewrite <- list_fmap_compose. }
    by rewrite !Hmap, Hp.
Qed.

(** The caps hold at the scrape. Over any run of scrapes through a new
    gatherer none of whose rules caps the scope label itself: every budget ends
    with as many distinct values as it has room for at most; and in every
    family of every scrape, a series of a rule's scope shows the label the rule
    caps, when it has one, with a value the rule's budget has admitted or with
    the overflow value. *)
Theorem gather_caps_hold (rs : list PrometheusRule) (scrapes : list (list (MetricFamily F X))) :
  (∀ r, r ∈ rs → PLabelName r ≠ scopeNameLabel) →
  let '(l, out) := Gathers (newPrometheusLimiter rs) scrapes in
  (∀ name b, p_buckets l !! name = Some b → length (seen b) ≤ max b ∧ NoDup (seen b)
     ∧ ∃ r, r ∈ rs ∧ (0 < PMax r)%Z ∧ p_budget_name r = name ∧ max b = Z.to_nat (PMax r))
  ∧ ∀ fs f m r v, fs ∈ out → f ∈ fs → m ∈ FMetric f → r ∈ p_rules (newPrometheusLimiter rs) →
      PMetricName r = GetFamilyName f → scope_matches r m = true → label_of (Label m) (PLabelName r) = Some v →
      ∃ b, p_buckets l !! p_budget_name r = Some b ∧ (v ∈ seen b ∨ v = OverflowValue).
Proof.
  intros Hn.
  assert (no_scope_label (newPrometheusLimiter rs)) as Hns
    by (intros r [_ Hr]%list_elem_of_filter; by apply Hn).
  pose proof (Gathers_spec _ scrapes Hns (newPrometheusLimiter_ok rs)) as Hs.
  destruct (Gathers _ scrapes) as [l out]. destruct Hs as ([Hrules _ Hok] & Hc & _). split.
  - intros name b Hb. destruct (Hok (newPrometheusLimiter_ok rs) name b Hb) as ([? ?] & r & Hr & Hname & Hm).
    rewrite Hrules in Hr. apply list_elem_of_filter in Hr as [Hu Hr]. split_and!; [done|done|].
    exists r. split_and!; [done| |done|done]. unfold usable_prometheus_rule in Hu.
    apply negb_true_iff, orb_false_iff in Hu as [_ ?]. lia.
  - intros fs f m r v Hfs Hf Hm Hr Ha Hscope Hv. rewrite !Forall_forall in Hc.
    specialize (Hc fs Hfs). rewrite Forall_forall in Hc. specialize (Hc f Hf r).
    rewrite Hrules, Forall_forall in Hc. destruct (Hc Hr Ha m Hm) as (b & Hb & Hcap).
    exists b. split; [done|by apply Hcap].
Qed.

(** What a scrape shows is what the inner gatherer returned, family by
    family: each has its name, its series have the labels of series there were,
    in their scope, some values collapsed; a family a rule names has no two
    series with one key, and another is what it was; and if every series of a
    family is a histogram, then the samples counted, and those counted up to
    any bound, add up to what they were, modulo 2^64. *)
Theorem gather_keeps (rs : list PrometheusRule) (scrapes : list (list (MetricFamily F X))) :
  (∀ r, r ∈ rs → PLabelName r ≠ scopeNameLabel) →
  Forall2 (Forall2 (family_kept (p_rules (newPrometheusLimiter rs)))) scrapes
    (Gathers (newPrometheusLimiter rs) scrapes).2.
Proof.
  intros Hn.
  assert (no_scope_label (newPrometheusLimiter rs)) as Hns
    by (intros r [_ Hr]%list_elem_of_filter; by apply Hn).
  assert (Hgen : ∀ l, p_rules l = p_rules (newPrometheusLimiter rs) → p_limiter_ok l →
    Forall2 (Forall2 (family_kept (p_rules (newPrometheusLimiter rs)))) scrapes (Gathers l scrapes).2);
    [|by apply Hgen, newPrometheusLimiter_ok].
  induction scrapes as [|fs scrapes IH]; intros l Hr Hok; cbn [Gathers]; [constructor|].
  assert (no_scope_label l) as Hnl by (intros r; rewrite Hr; apply Hns).
  pose proof (rewrite_spec l fs Hnl Hok) as H1. pose proof (rewrite_kept l fs Hnl Hok) as Hk.
  rewrite Hr in Hk. destruct (rewrite l fs) as [l1 fs1]. destruct H1 as ([Hr1 _ Hok1] & _).
  specialize (IH l1 ltac:(congruence) (Hok1 Hok)). destruct (Gathers l1 scrapes) as [l2 out].
  by constructor.
Qed.
End gather.

(** * A scrape *)
#[export] Instance sample_float : Float Z := {| f_zero := 0%Z; f_add := Z.add; f_lt := Z.ltb; f_eq := Z.eqb |}.
#[local] Instance sample_float_laws : FloatLaws (Fl := sample_float).
Proof. split; cbn; intros; lia. Qed.
#[export] Instance sample_sort {X} : SortBuckets Z X := λ l, l.
#[local] Instance sample_sort_laws {X} : SortBucketsLaws (@sample_sort X).
Proof. by intros l. Qed.

Definition sample_rule : PrometheusRule := {|
  PMetricName := #"http_server_request_duration_seconds"; PLabelName := #"http_route"; PMax := 1;
  PScopeName := #"gin"; PBudgetKey := [];
|}.
Definition pair (n v : bytes) : LabelPair := {| LabelName := Some n; LabelValue := Some v |}.
Definition sample_series (scope route : bytes) (n : Z) : Metric Z unit := {|
  Label := [pair #"http_route" route; pair scopeNameLabel scope]; Counter := None; Gauge := None;
  MHistogram := Some {| SampleCount := Some n; SampleSum := Some n;
                        Buckets := [{| UpperBound := Some 1%Z; CumulativeCount := Some n; BExemplar := None |}];
                        HRest := tt |};
  Untyped := None; Summary := None; TimestampMs := None;
|}.
Definition sample_family (ms : list (Metric Z unit)) : MetricFamily Z unit :=
  {| FName := Some #"http_server_request_duration_seconds"; FMetric := ms; FRest := tt |}.
Definition sample_scrape : list (MetricFamily Z unit) :=
  [sample_family [sample_series #"gin" #"/a" 3; sample_series #"gin" #"/b" 4; sample_series #"app" #"/b" 5;
                  sample_series #"gin" #"/c" 6]].

Lemma sample_rules_ok r : r ∈ [sample_rule] → PLabelName r ≠ scopeNameLabel.
Proof. intros ->%list_elem_of_singleton. done. Qed.

Lemma prometheusMetricKey_exact_witness :
  prometheusMetricKey (sample_series #"gin" #"/a" 3) ≠ prometheusMetricKey (sample_series #"gin" #"/b" 3).
Proof.
  rewrite (prometheusMetricKey_exact (sample_series #"gin" #"/a" 3) (sample_series #"gin" #"/b" 3)).
  - vm_compute. intros Hp.
    assert ((#"http_route", #"/a") ∈ [ ( #"http_route", #"/b"); ( #"otel_scope_name", #"gin")]) as Hin.
    { rewrite <- Hp. by left. }
    apply elem_of_cons in Hin as [Hin|Hin%list_elem_of_singleton]; done.
  - repeat constructor; apply (bool_decide_unpack _); vm_compute; reflexivity.
  - repeat constructor; apply (bool_decide_unpack _); vm_compute; reflexivity.
Defined.

Lemma gather_caps_hold_witness :
  (Gathers (newPrometheusLimiter [sample_rule]) [sample_scrape]).2
  = [[sample_family [sample_series #"gin" #"/a" 3; sample_series #"gin" OverflowValue 10;
                     sample_series #"app" #"/b" 5]]]
  ∧ ∀ name b, p_buckets (Gathers (newPrometheusLimiter [sample_rule]) [sample_scrape]).1 !! name = Some b →
      length (seen b) ≤ 1.
Proof.
  split; [vm_compute; reflexivity|].
  pose proof (gather_caps_hold [sample_rule] [sample_scrape] sample_rules_ok) as H.
  destruct (Gathers _ [sample_scrape]) as [l out]. intros name b Hb.
  destruct (proj1 H name b Hb) as (Hlen & _ & r & Hr & _ & _ & Hm).
  apply list_elem_of_singleton in Hr. subst r. rewrite Hm in Hlen. exact Hlen.
Defined.

Lemma gather_keeps_witness :
  Forall2 (Forall2 (family_kept [sample_rule])) [sample_scrape]
    (Gathers (newPrometheusLimiter [sample_rule]) [sample_scrape]).2.
Proof.
  exact (gather_keeps sample_float_laws sample_sort_laws [sample_rule] [sample_scrape] sample_rules_ok).
Defined.
