(* ===== verification/Repeat.v ===== *)
(** internal/repeat: the suppressor of repeated diagnostics. Times are
    nanoseconds; time.Time.Sub saturates at the bounds of an int64. The map of
    messages is visited in an order a call does not choose. *)
From S2P Require Import Prelude GoNum.

Record Suppressor := { window : Z; maxEntries : Z; lastSeen : gmap bytes Z }.
Definition NewSuppressor (window maxEntries : Z) : Suppressor :=
  {| window := window; maxEntries := if (maxEntries <? 1)%Z then 1 else maxEntries; lastSeen := ∅ |}.
Definition with_seen (s : Suppressor) (m : gmap bytes Z) : Suppressor :=
  {| window := window s; maxEntries := maxEntries s; lastSeen := m |}.

(** A call: what it is asked, and the order the map is ranged over in. *)
Record call := { msg : bytes; now : Z; visit : gmap bytes Z → list (bytes * Z) }.
Definition call_ok (c : call) : Prop := ∀ m, visit c m ≡ₚ map_to_list m.

(** The search for the oldest entry. *)
Definition oldest_step (acc : option (bytes * Z)) (e : bytes * Z) : option (bytes * Z) :=
  match acc with
  | None => Some e
  | Some o => if (e.2 <? o.2)%Z then Some e else Some o
  end.
Definition drop_expired (s : Suppressor) (now : Z) : gmap bytes Z :=
  filter (λ e : bytes * Z, (Sub now e.2 <? window s)%Z = true) (lastSeen s).
Definition evict (s : Suppressor) (visit : gmap bytes Z → list (bytes * Z)) (m : gmap bytes Z) : gmap bytes Z :=
  if (maxEntries s <=? Z.of_nat (size m))%Z then
    delete (default [] (fst <$> foldl oldest_step None (visit m))) m
  else m.
Definition SuppressedAt (s : Suppressor) (c : call) : bool * Suppressor :=
  if match lastSeen s !! msg c with Some seen => (Sub (now c) seen <? window s)%Z | None => false end then (true, s)
  else (false, with_seen s (<[msg c := now c]> (evict s (visit c) (drop_expired s (now c))))).

Fixpoint run (s : Suppressor) (calls : list call) : list bool * Suppressor :=
  match calls with
  | [] => ([], s)
  | c :: calls' => let '(b, s) := SuppressedAt s c in
                   let '(bs, s) := run s calls' in (b :: bs, s)
  end.

(** * The specification: every message that was let through is remembered *)
Definition spec_step (window : Z) (m : gmap bytes Z) (c : call) : bool * gmap bytes Z :=
  if match m !! msg c with Some seen => (Sub (now c) seen <? window)%Z | None => false end then (true, m)
  else (false, <[msg c := now c]> m).
Fixpoint spec_run (window : Z) (m : gmap bytes Z) (calls : list call) : list bool :=
  match calls with
  | [] => []
  | c :: calls' => let '(b, m) := spec_step window m c in b :: spec_run window m calls'
  end.

(** * The table is bounded *)
Definition bounded (s : Suppressor) : Prop := (1 ≤ maxEntries s ∧ Z.of_nat (size (lastSeen s)) ≤ maxEntries s)%Z.

Lemma NewSuppressor_bounded w n : bounded (NewSuppressor w n).
Proof.
  unfold bounded, NewSuppressor. cbn [maxEntries lastSeen]. rewrite map_size_empty. destruct (n <? 1)%Z eqn:E; lia.
Qed.

Lemma foldl_oldest acc l e : acc = Some e → ∃ e', foldl oldest_step acc l = Some e' ∧ (e' = e ∨ e' ∈ l).
Proof.
  revert acc e. induction l as [|x l IH]; intros acc e ->; cbn [foldl oldest_step]; [eauto|].
  destruct (x.2 <? e.2)%Z.
  - destruct (IH _ x eq_refl) as (e' & He & Hin). exists e'. split; [done|right]. set_solver.
  - destruct (IH _ e eq_refl) as (e' & He & Hin). exists e'. split; [done|]. set_solver.
Qed.

Lemma foldl_oldest_elem l : l ≠ [] → ∃ e, foldl oldest_step None l = Some e ∧ e ∈ l.
Proof.
  destruct l as [|x l]; [done|]. intros _. cbn [foldl oldest_step].
  destruct (foldl_oldest (Some x) l x eq_refl) as (e & He & Hin). exists e. split; [done|set_solver].
Qed.

(** What evicting leaves: the table, one entry short when it was full. *)
Lemma evict_spec s c m :
  call_ok c → (1 ≤ maxEntries s)%Z → (Z.of_nat (size m) ≤ maxEntries s)%Z →
  evict s (visit c) m ⊆ m ∧ (Z.of_nat (size (evict s (visit c) m)) < maxEntries s)%Z.
Proof.
  intros Hc Hmax Hsize. unfold evict. destruct (maxEntries s <=? Z.of_nat (size m))%Z eqn:E; [|split; [done|lia]].
  assert (visit c m ≠ []) as Hne.
  { intros Hv. destruct (map_choose m) as (k & t & Hk).
    - intros ->. rewrite map_size_empty in E. lia.
    - rewrite <- elem_of_map_to_list, <- (Hc m), Hv in Hk. by apply elem_of_nil in Hk. }
  destruct (foldl_oldest_elem _ Hne) as ([k t] & -> & Hin). cbn [fmap option_fmap option_map fst default].
  rewrite (Hc m), elem_of_map_to_list in Hin. split; [apply delete_subseteq|].
  rewrite map_size_delete_Some by by exists t. assert (size m ≠ 0); [|lia].
  intros Hz%map_size_empty_inv. subst. by rewrite lookup_empty in Hin.
Qed.

Lemma drop_expired_subseteq s t : drop_expired s t ⊆ lastSeen s.
Proof. apply map_filter_subseteq. Qed.

Lemma SuppressedAt_bounded s c : call_ok c → bounded s → bounded (SuppressedAt s c).2.
Proof.
  intros Hc [Hmax Hsize]. unfold SuppressedAt.
  destruct (match lastSeen s !! msg c with Some _ => _ | None => _ end); [by split|].
  split; [done|]. cbn [snd with_seen lastSeen maxEntries].
  destruct (evict_spec s c (drop_expired s (now c)) Hc Hmax) as [_ Hlt].
  { etrans; [|exact Hsize]. apply inj_le, map_subseteq_size, drop_expired_subseteq. }
  rewrite map_size_insert. set (e := evict _ _ _) in *. clearbody e. destruct (e !! msg c); cbn [id]; lia.
Qed.

Lemma run_bounded s calls : Forall call_ok calls → bounded s → bounded (run s calls).2.
Proof.
  intros Hc. revert s. induction Hc as [|c calls Hc Hcs IH]; intros s Hs; cbn [run]; [done|].
  pose proof (SuppressedAt_bounded s c Hc Hs) as H1. destruct (SuppressedAt s c) as [b s1].
  specialize (IH s1 H1). by destruct (run s1 calls).
Qed.

(** * What the table holds *)
Lemma evict_subseteq s visit m : evict s visit m ⊆ m.
Proof. unfold evict. destruct (_ <=? _)%Z; [apply delete_subseteq|done]. Qed.

Lemma SuppressedAt_seen s c k t :
  lastSeen (SuppressedAt s c).2 !! k = Some t →
  lastSeen s !! k = Some t ∨ (SuppressedAt s c).1 = false ∧ k = msg c ∧ t = now c.
Proof.
  unfold SuppressedAt. destruct (match lastSeen s !! msg c with Some _ => _ | None => _ end); [by left|].
  cbn [fst snd with_seen lastSeen].
  intros [[<- <-]|[_ Hk]]%lookup_insert_Some; [by right|left].
  eapply lookup_weaken; [exact Hk|]. etrans; [apply evict_subseteq|apply drop_expired_subseteq].
Qed.

Lemma SuppressedAt_true s c :
  (SuppressedAt s c).1 = true → ∃ t, lastSeen s !! msg c = Some t ∧ (Sub (now c) t < window s)%Z.
Proof.
  unfold SuppressedAt. destruct (lastSeen s !! msg c) as [t|]; [|done].
  destruct (Sub (now c) t <? window s)%Z eqn:E; [|done]. intros _. exists t. split; [done|lia].
Qed.

Lemma SuppressedAt_window s c : window (SuppressedAt s c).2 = window s.
Proof. unfold SuppressedAt. by destruct (match lastSeen s !! msg c with Some _ => _ | None => _ end). Qed.

(** A call let [k] through at [t], before the [i]th of a run. *)
Definition let_through (calls : list call) (answers : list bool) (i : nat) (k : bytes) (t : Z) : Prop :=
  ∃ j c, j < i ∧ calls !! j = Some c ∧ answers !! j = Some false ∧ msg c = k ∧ now c = t.

Lemma let_through_cons calls answers i k t c b :
  let_through calls answers i k t → let_through (c :: calls) (b :: answers) (S i) k t.
Proof. intros (j & cj & Hj & ? & ? & ? & ?). exists (S j), cj. split_and!; [lia|done..]. Qed.

Lemma run_backed s calls i c :
  calls !! i = Some c → (run s calls).1 !! i = Some true →
  ∃ t, (Sub (now c) t < window s)%Z
       ∧ (lastSeen s !! msg c = Some t ∨ let_through calls (run s calls).1 i (msg c) t).
Proof.
  revert s i. induction calls as [|c0 calls IH]; intros s i; [done|]. cbn [run].
  pose proof (SuppressedAt_true s c0) as Ht. pose proof (SuppressedAt_seen s c0) as Hseen.
  pose proof (SuppressedAt_window s c0) as Hw. destruct (SuppressedAt s c0) as [b s1]. cbn [fst snd] in *.
  specialize (IH s1). destruct (run s1 calls) as [bs s2]. cbn [fst] in *. destruct i as [|i]; cbn [lookup list_lookup].
  - intros [= <-] [= ->]. destruct (Ht eq_refl) as (t & ? & ?). exists t. split; [done|by left].
  - intros Hc Hb. destruct (IH i Hc Hb) as (t & Hlt & Hor). exists t. rewrite Hw in Hlt. split; [done|].
    destruct Hor as [Hs|Hl]; [|right; by apply let_through_cons].
    destruct (Hseen _ _ Hs) as [?|(-> & Hm & Htn)]; [by left|right].
    exists 0, c0. split_and!; [lia|done|done|done|done].
Qed.

(** * Room for every message *)
(** The table against the specification, as of a time: what it has forgotten is
    out of the window, for good. *)
Record remembers (D : list bytes) (cur : Z) (s : Suppressor) (m : gmap bytes Z) : Prop := {
  remembers_only : lastSeen s ⊆ m;
  remembers_all : ∀ k t, m !! k = Some t → lastSeen s !! k = Some t ∨ (window s ≤ Sub cur t)%Z;
  remembers_in : ∀ k, is_Some (m !! k) → k ∈ D;
}.

Lemma evict_room D s visit m k :
  NoDup D → (Z.of_nat (length D) ≤ maxEntries s)%Z → k ∈ D → m !! k = None →
  (∀ k', is_Some (m !! k') → k' ∈ D) → evict s visit m = m.
Proof.
  intros HD Hlen Hk Hm Hin. unfold evict. rewrite (proj2 (Z.leb_gt _ _)); [done|].
  assert (size (dom (<[k := 0%Z]> m)) ≤ length D) as Hs.
  { rewrite <- (size_list_to_set (C := gset bytes) D HD). apply subseteq_size. intros k'.
    rewrite elem_of_dom, elem_of_list_to_set.
    destruct (decide (k' = k)) as [->|]; [done|]. rewrite lookup_insert_ne by done. apply Hin. }
  rewrite size_dom, map_size_insert, Hm in Hs. lia.
Qed.

Lemma drop_expired_lookup s t k u :
  drop_expired s t !! k = Some u ↔ lastSeen s !! k = Some u ∧ (Sub t u < window s)%Z.
Proof. unfold drop_expired. rewrite map_lookup_filter_Some. cbn. rewrite Z.ltb_lt. done. Qed.

Lemma SuppressedAt_spec D cur s m c :
  NoDup D → (Z.of_nat (length D) ≤ maxEntries s)%Z → msg c ∈ D → (cur ≤ now c)%Z → remembers D cur s m →
  let '(b, s') := SuppressedAt s c in
  let '(b', m') := spec_step (window s) m c in
  b = b' ∧ remembers D (now c) s' m' ∧ maxEntries s' = maxEntries s ∧ window s' = window s.
Proof.
  intros HD Hlen Hmsg Hcur [Ho Ha Hi]. unfold SuppressedAt, spec_step.
  assert (Hlate : ∀ k t, m !! k = Some t → lastSeen s !! k = Some t ∨ (window s ≤ Sub (now c) t)%Z).
  { intros k t Hk. destruct (Ha k t Hk) as [?|?]; [by left|right]. pose proof (Sub_mono cur (now c) t Hcur). lia. }
  assert (Hsame : match lastSeen s !! msg c with Some seen => (Sub (now c) seen <? window s)%Z | None => false end
                  = match m !! msg c with Some seen => (Sub (now c) seen <? window s)%Z | None => false end).
  { destruct (lastSeen s !! msg c) as [t|] eqn:Es.
    - by rewrite (lookup_weaken _ _ _ _ Es Ho).
    - destruct (m !! msg c) as [t|] eqn:Em; [|done]. destruct (Hlate _ _ Em); [congruence|lia]. }
  rewrite <- Hsame. destruct (match lastSeen s !! msg c with Some _ => _ | None => _ end) eqn:Eb.
  { split_and!; [done|by split|done|done]. }
  cbn [with_seen maxEntries window]. split_and!; [done| |done|done].
  assert (drop_expired s (now c) !! msg c = None) as Hnone.
  { apply eq_None_not_Some. intros [t [Ht Hw]%drop_expired_lookup]. rewrite Ht in Eb. lia. }
  rewrite (evict_room D) with (k := msg c); [|done|done|done|done|].
  2: { intros k [t [Hk _]%drop_expired_lookup]. apply Hi. exists t. by eapply lookup_weaken. }
  split; cbn [with_seen lastSeen window].
  - apply insert_mono. etrans; [apply drop_expired_subseteq|done].
  - intros k t [[<- <-]|[Hne Hk]]%lookup_insert_Some; [left; by rewrite lookup_insert_eq|].
    rewrite lookup_insert_ne by done. destruct (Hlate k t Hk) as [Hs|?]; [|by right].
    destruct (decide (Sub (now c) t < window s)%Z); [left; by apply drop_expired_lookup|right; lia].
  - intros k. destruct (decide (k = msg c)) as [->|]; [done|]. rewrite lookup_insert_ne by done. apply Hi.
Qed.

Lemma run_spec D cur s m calls :
  NoDup D → (Z.of_nat (length D) ≤ maxEntries s)%Z → Forall (λ c, msg c ∈ D ∧ (cur ≤ now c)%Z) calls →
  StronglySorted (λ c c', (now c ≤ now c')%Z) calls → remembers D cur s m →
  (run s calls).1 = spec_run (window s) m calls.
Proof.
  intros HD. revert cur s m. induction calls as [|c calls IH]; intros cur s m Hlen Hcs Hsorted Hr; [done|].
  cbn [run spec_run]. apply Forall_cons in Hcs as [[Hmsg Hcur] Hcs].
  apply StronglySorted_inv in Hsorted as [Hsorted Hle].
  pose proof (SuppressedAt_spec D cur s m c HD Hlen Hmsg Hcur Hr) as H1.
  destruct (SuppressedAt s c) as [b s1]. destruct (spec_step (window s) m c) as [b' m1].
  destruct H1 as (<- & Hr1 & Hmax & Hw). specialize (IH (now c) s1 m1). rewrite Hmax, Hw in IH.
  destruct (run s1 calls) as [bs s2]. cbn [fst] in *. f_equal. apply IH; [done| |done|done].
  apply Forall_forall. intros c' Hc'. rewrite Forall_forall in Hcs, Hle.
  split; [by apply Hcs|by apply Hle].
Qed.

(** * Properties *)

(** The suppressor, on any sequence of calls and whatever order its map is
    visited in: its table never holds more entries than its bound, which is at
    least one, and it suppresses a message only if it has let that very message
    through less than a window ago. *)
Theorem suppressor_sound (w n : Z) (calls : list call) :
  Forall call_ok calls →
  let '(answers, s) := run (NewSuppressor w n) calls in
  (Z.of_nat (size (lastSeen s)) ≤ Z.max 1 n)%Z
  ∧ ∀ i c, calls !! i = Some c → answers !! i = Some true →
      ∃ t, let_through calls answers i (msg c) t ∧ (Sub (now c) t < w)%Z.
Proof.
  intros Hc. pose proof (run_bounded _ calls Hc (NewSuppressor_bounded w n)) as Hb.
  pose proof (run_backed (NewSuppressor w n) calls) as Ht.
  assert (Hmax : ∀ s cs, maxEntries (run s cs).2 = maxEntries s).
  { intros s cs. revert s. induction cs as [|c cs IH]; intros s; cbn [run]; [done|].
    assert (maxEntries (SuppressedAt s c).2 = maxEntries s) as Hm.
    { unfold SuppressedAt. by destruct (match lastSeen s !! msg c with Some _ => _ | None => _ end). }
    destruct (SuppressedAt s c) as [b s1]. specialize (IH s1). destruct (run s1 cs). cbn in *. congruence. }
  specialize (Hmax (NewSuppressor w n) calls). destruct (run _ calls) as [answers s]. cbn [fst snd] in *.
  destruct Hb as [_ Hb]. split.
  - rewrite Hmax in Hb. unfold NewSuppressor in Hb. cbn [maxEntries] in Hb.
    destruct (n <? 1)%Z eqn:E; lia.
  - intros i c Hi Hb'. destruct (Ht i c Hi Hb') as (t & Hlt & [Hs|Hl]); [|by exists t].
    unfold NewSuppressor in Hs. cbn [lastSeen] in Hs. by rewrite lookup_empty in Hs.
Qed.

(** C38: while its bound has room for the messages there are, and on a clock that
    does not go back, the suppressor is the one that forgets nothing: each
    distinct message goes through once per window, the table and its evictions
    notwithstanding. *)
Theorem suppressor_refines (w n : Z) (messages : list bytes) (calls : list call) :
  NoDup messages → (Z.of_nat (length messages) ≤ Z.max 1 n)%Z → Forall (λ c, msg c ∈ messages) calls →
  StronglySorted (λ c c', (now c ≤ now c')%Z) calls →
  (run (NewSuppressor w n) calls).1 = spec_run w ∅ calls.
Proof.
  intros HD Hlen Hmsgs Hsorted. destruct calls as [|c0 calls]; [done|].
  apply (run_spec messages (now c0) (NewSuppressor w n) ∅); [done| | |done|].
  - unfold NewSuppressor. cbn [maxEntries]. destruct (n <? 1)%Z eqn:E; lia.
  - apply StronglySorted_inv in Hsorted as [_ Hle]. apply Forall_cons in Hmsgs as [Hm0 Hmsgs].
    constructor; [split; [done|lia]|]. apply Forall_forall. intros c Hc. rewrite Forall_forall in Hmsgs, Hle.
    split; [by apply Hmsgs|by apply Hle].
  - split; [done| |]; intros k; [intros t|]; rewrite lookup_empty; [done|by intros [? ?]].
Qed.

(** * A run *)
Definition ask (m : bytes) (t : Z) : call := {| msg := m; now := t; visit := map_to_list |}.
Definition sample_calls : list call := [ask #"a" 0; ask #"b" 1; ask #"a" 5; ask #"b" 12; ask #"a" 13].

Lemma sample_calls_ok : Forall call_ok sample_calls.
Proof. repeat (apply Forall_cons; split; [by intros m|]). by apply Forall_nil. Qed.

Lemma suppressor_sound_witness :
  (run (NewSuppressor 10 1) sample_calls).1 = [false; false; false; false; false]
  ∧ (size (lastSeen (run (NewSuppressor 10 1) sample_calls).2) ≤ 1)%nat.
Proof.
  split; [vm_compute; reflexivity|].
  pose proof (suppressor_sound 10 1 sample_calls) as H. specialize (H sample_calls_ok).
  destruct (run (NewSuppressor 10 1) sample_calls) as [answers s]. destruct H as [H _]. cbn [snd]. lia.
Defined.

Lemma suppressor_refines_witness :
  (run (NewSuppressor 10 2) sample_calls).1 = spec_run 10 ∅ sample_calls
  ∧ spec_run 10 ∅ sample_calls = [false; false; true; false; false].
Proof.
  split; [|vm_compute; reflexivity]. apply (suppressor_refines 10 2 [ #"a"; #"b"]).
  - apply (bool_decide_unpack _). vm_compute. reflexivity.
  - cbn. lia.
  - repeat constructor.
  - repeat constructor; cbn; lia.
Defined.
