(* ===== verification/SemconvReserved.v ===== *)
(** internal/baggageattrs/semconv_reserved_gen.go: the tables of the keys and
    key prefixes of the semantic conventions. *)
From S2P Require Import Prelude.

Definition semconvReservedKeys : list bytes := [
    #"android.app.state"; #"android.os.api_level"; #"app.build_id"; #"app.installation.id"; #"app.jank.frame_count";
    #"app.jank.period"; #"app.jank.threshold"; #"app.screen.coordinate.x"; #"app.screen.coordinate.y";
    #"app.screen.id"; #"app.screen.name"; #"app.widget.id"; #"app.widget.name"; #"artifact.attestation.filename";
    #"artifact.attestation.hash"; #"artifact.attestation.id"; #"artifact.filename"; #"artifact.hash";
    #"artifact.purl"; #"artifact.version"; #"aws.bedrock.guardrail.id"; #"aws.bedrock.knowledge_base.id";
    #"aws.dynamodb.attribute_definitions"; #"aws.dynamodb.attributes_to_get"; #"aws.dynamodb.consistent_read";
    #"aws.dynamodb.consumed_capacity"; #"aws.dynamodb.count"; #"aws.dynamodb.exclusive_start_table";
    #"aws.dynamodb.global_secondary_index_updates"; #"aws.dynamodb.global_secondary_indexes";
    #"aws.dynamodb.index_name"; #"aws.dynamodb.item_collection_metrics"; #"aws.dynamodb.limit";
    #"aws.dynamodb.local_secondary_indexes"; #"aws.dynamodb.projection"; #"aws.dynamodb.provisioned_read_capacity";
    #"aws.dynamodb.provisioned_write_capacity"; #"aws.dynamodb.scan_forward"; #"aws.dynamodb.scanned_count";
    #"aws.dynamodb.segment"; #"aws.dynamodb.select"; #"aws.dynamodb.table_count"; #"aws.dynamodb.table_names";
    #"aws.dynamodb.total_segments"; #"aws.ecs.cluster.arn"; #"aws.ecs.container.arn"; #"aws.ecs.launchtype";
    #"aws.ecs.task.arn"; #"aws.ecs.task.family"; #"aws.ecs.task.id"; #"aws.ecs.task.revision"; #"aws.eks.cluster.arn";
    #"aws.extended_request_id"; #"aws.kinesis.stream_name"; #"aws.lambda.invoked_arn";
    #"aws.lambda.resource_mapping.id"; #"aws.log.group.arns"; #"aws.log.group.names"; #"aws.log.stream.arns";
    #"aws.log.stream.names"; #"aws.request_id"; #"aws.s3.bucket"; #"aws.s3.copy_source"; #"aws.s3.delete";
    #"aws.s3.key"; #"aws.s3.part_number"; #"aws.s3.upload_id"; #"aws.secretsmanager.secret.arn"; #"aws.sns.topic.arn";
    #"aws.sqs.queue.url"; #"aws.step_functions.activity.arn"; #"aws.step_functions.state_machine.arn";
    #"azure.client.id"; #"azure.cosmosdb.connection.mode"; #"azure.cosmosdb.consistency.level";
    #"azure.cosmosdb.operation.contacted_regions"; #"azure.cosmosdb.operation.request_charge";
    #"azure.cosmosdb.request.body.size"; #"azure.cosmosdb.response.sub_status_code";
    #"azure.resource_provider.namespace"; #"azure.service.request.id"; #"browser.brands"; #"browser.language";
    #"browser.mobile"; #"browser.platform"; #"cassandra.consistency.level"; #"cassandra.coordinator.dc";
    #"cassandra.coordinator.id"; #"cassandra.page.size"; #"cassandra.query.idempotent";
    #"cassandra.speculative_execution.count"; #"cicd.pipeline.action.name"; #"cicd.pipeline.name";
    #"cicd.pipeline.result"; #"cicd.pipeline.run.id"; #"cicd.pipeline.run.state"; #"cicd.pipeline.run.url.full";
    #"cicd.pipeline.task.name"; #"cicd.pipeline.task.run.id"; #"cicd.pipeline.task.run.result";
    #"cicd.pipeline.task.run.url.full"; #"cicd.pipeline.task.type"; #"cicd.system.component"; #"cicd.worker.id";
    #"cicd.worker.name"; #"cicd.worker.state"; #"cicd.worker.url.full"; #"client.address"; #"client.port";
    #"cloud.account.id"; #"cloud.availability_zone"; #"cloud.platform"; #"cloud.provider"; #"cloud.region";
    #"cloud.resource_id"; #"cloudevents.event_id"; #"cloudevents.event_source"; #"cloudevents.event_spec_version";
    #"cloudevents.event_subject"; #"cloudevents.event_type"; #"cloudfoundry.app.id"; #"cloudfoundry.app.instance.id";
    #"cloudfoundry.app.name"; #"cloudfoundry.org.id"; #"cloudfoundry.org.name"; #"cloudfoundry.process.id";
    #"cloudfoundry.process.type"; #"cloudfoundry.space.id"; #"cloudfoundry.space.name"; #"cloudfoundry.system.id";
    #"cloudfoundry.system.instance.id"; #"code.column.number"; #"code.file.path"; #"code.function.name";
    #"code.line.number"; #"code.stacktrace"; #"container.command"; #"container.command_args";
    #"container.command_line"; #"container.csi.plugin.name"; #"container.csi.volume.id"; #"container.id";
    #"container.image.id"; #"container.image.name"; #"container.image.repo_digests"; #"container.image.tags";
    #"container.name"; #"container.runtime.description"; #"container.runtime.name"; #"container.runtime.version";
    #"cpu.logical_number"; #"cpu.mode"; #"db.client.connection.pool.name"; #"db.client.connection.state";
    #"db.collection.name"; #"db.namespace"; #"db.operation.batch.size"; #"db.operation.name"; #"db.query.summary";
    #"db.query.text"; #"db.response.returned_rows"; #"db.response.status_code"; #"db.stored_procedure.name";
    #"db.system.name"; #"deployment.environment.name"; #"deployment.id"; #"deployment.name"; #"deployment.status";
    #"destination.address"; #"destination.port"; #"device.id"; #"device.manufacturer"; #"device.model.identifier";
    #"device.model.name"; #"disk.io.direction"; #"dns.answers"; #"dns.question.name"; #"elasticsearch.node.name";
    #"enduser.id"; #"enduser.pseudo.id"; #"error.message"; #"error.type"; #"exception.message";
    #"exception.stacktrace"; #"exception.type"; #"faas.coldstart"; #"faas.cron"; #"faas.document.collection";
    #"faas.document.name"; #"faas.document.operation"; #"faas.document.time"; #"faas.instance"; #"faas.invocation_id";
    #"faas.invoked_name"; #"faas.invoked_provider"; #"faas.invoked_region"; #"faas.max_memory"; #"faas.name";
    #"faas.time"; #"faas.trigger"; #"faas.version"; #"feature_flag.context.id"; #"feature_flag.key";
    #"feature_flag.provider.name"; #"feature_flag.result.reason"; #"feature_flag.result.value";
    #"feature_flag.result.variant"; #"feature_flag.set.id"; #"feature_flag.version"; #"file.accessed";
    #"file.attributes"; #"file.changed"; #"file.created"; #"file.directory"; #"file.extension"; #"file.fork_name";
    #"file.group.id"; #"file.group.name"; #"file.inode"; #"file.mode"; #"file.modified"; #"file.name";
    #"file.owner.id"; #"file.owner.name"; #"file.path"; #"file.size"; #"file.symbolic_link.target_path";
    #"gcp.apphub.application.container"; #"gcp.apphub.application.id"; #"gcp.apphub.application.location";
    #"gcp.apphub.service.criticality_type"; #"gcp.apphub.service.environment_type"; #"gcp.apphub.service.id";
    #"gcp.apphub.workload.criticality_type"; #"gcp.apphub.workload.environment_type"; #"gcp.apphub.workload.id";
    #"gcp.apphub_destination.application.container"; #"gcp.apphub_destination.application.id";
    #"gcp.apphub_destination.application.location"; #"gcp.apphub_destination.service.criticality_type";
    #"gcp.apphub_destination.service.environment_type"; #"gcp.apphub_destination.service.id";
    #"gcp.apphub_destination.workload.criticality_type"; #"gcp.apphub_destination.workload.environment_type";
    #"gcp.apphub_destination.workload.id"; #"gcp.client.service"; #"gcp.cloud_run.job.execution";
    #"gcp.cloud_run.job.task_index"; #"gcp.gce.instance.hostname"; #"gcp.gce.instance.name";
    #"gen_ai.agent.description"; #"gen_ai.agent.id"; #"gen_ai.agent.name"; #"gen_ai.conversation.id";
    #"gen_ai.data_source.id"; #"gen_ai.embeddings.dimension.count"; #"gen_ai.evaluation.explanation";
    #"gen_ai.evaluation.name"; #"gen_ai.evaluation.score.label"; #"gen_ai.evaluation.score.value";
    #"gen_ai.input.messages"; #"gen_ai.operation.name"; #"gen_ai.output.messages"; #"gen_ai.output.type";
    #"gen_ai.prompt.name"; #"gen_ai.provider.name"; #"gen_ai.request.choice.count";
    #"gen_ai.request.encoding_formats"; #"gen_ai.request.frequency_penalty"; #"gen_ai.request.max_tokens";
    #"gen_ai.request.model"; #"gen_ai.request.presence_penalty"; #"gen_ai.request.seed";
    #"gen_ai.request.stop_sequences"; #"gen_ai.request.temperature"; #"gen_ai.request.top_k"; #"gen_ai.request.top_p";
    #"gen_ai.response.finish_reasons"; #"gen_ai.response.id"; #"gen_ai.response.model"; #"gen_ai.system_instructions";
    #"gen_ai.token.type"; #"gen_ai.tool.call.arguments"; #"gen_ai.tool.call.id"; #"gen_ai.tool.call.result";
    #"gen_ai.tool.definitions"; #"gen_ai.tool.description"; #"gen_ai.tool.name"; #"gen_ai.tool.type";
    #"gen_ai.usage.input_tokens"; #"gen_ai.usage.output_tokens"; #"geo.continent.code"; #"geo.country.iso_code";
    #"geo.locality.name"; #"geo.location.lat"; #"geo.location.lon"; #"geo.postal_code"; #"geo.region.iso_code";
    #"go.memory.type"; #"graphql.document"; #"graphql.operation.name"; #"graphql.operation.type"; #"heroku.app.id";
    #"heroku.release.commit"; #"heroku.release.creation_timestamp"; #"host.arch"; #"host.cpu.cache.l2.size";
    #"host.cpu.family"; #"host.cpu.model.id"; #"host.cpu.model.name"; #"host.cpu.stepping"; #"host.cpu.vendor.id";
    #"host.id"; #"host.image.id"; #"host.image.name"; #"host.image.version"; #"host.ip"; #"host.mac"; #"host.name";
    #"host.type"; #"http.connection.state"; #"http.request.body.size"; #"http.request.method";
    #"http.request.method_original"; #"http.request.resend_count"; #"http.request.size"; #"http.response.body.size";
    #"http.response.size"; #"http.response.status_code"; #"http.route"; #"hw.battery.capacity";
    #"hw.battery.chemistry"; #"hw.battery.state"; #"hw.bios_version"; #"hw.driver_version"; #"hw.enclosure.type";
    #"hw.firmware_version"; #"hw.gpu.task"; #"hw.id"; #"hw.limit_type"; #"hw.logical_disk.raid_level";
    #"hw.logical_disk.state"; #"hw.memory.type"; #"hw.model"; #"hw.name"; #"hw.network.logical_addresses";
    #"hw.network.physical_address"; #"hw.parent"; #"hw.physical_disk.smart_attribute"; #"hw.physical_disk.state";
    #"hw.physical_disk.type"; #"hw.sensor_location"; #"hw.serial_number"; #"hw.state";
    #"hw.tape_drive.operation_type"; #"hw.type"; #"hw.vendor"; #"ios.app.state"; #"jsonrpc.protocol.version";
    #"jsonrpc.request.id"; #"k8s.cluster.name"; #"k8s.cluster.uid"; #"k8s.container.name";
    #"k8s.container.restart_count"; #"k8s.container.status.last_terminated_reason"; #"k8s.container.status.reason";
    #"k8s.container.status.state"; #"k8s.cronjob.name"; #"k8s.cronjob.uid"; #"k8s.daemonset.name";
    #"k8s.daemonset.uid"; #"k8s.deployment.name"; #"k8s.deployment.uid"; #"k8s.hpa.metric.type"; #"k8s.hpa.name";
    #"k8s.hpa.scaletargetref.api_version"; #"k8s.hpa.scaletargetref.kind"; #"k8s.hpa.scaletargetref.name";
    #"k8s.hpa.uid"; #"k8s.hugepage.size"; #"k8s.job.name"; #"k8s.job.uid"; #"k8s.namespace.name";
    #"k8s.namespace.phase"; #"k8s.node.condition.status"; #"k8s.node.condition.type"; #"k8s.node.name";
    #"k8s.node.uid"; #"k8s.pod.hostname"; #"k8s.pod.ip"; #"k8s.pod.name"; #"k8s.pod.start_time";
    #"k8s.pod.status.phase"; #"k8s.pod.status.reason"; #"k8s.pod.uid"; #"k8s.replicaset.name"; #"k8s.replicaset.uid";
    #"k8s.replicationcontroller.name"; #"k8s.replicationcontroller.uid"; #"k8s.resourcequota.name";
    #"k8s.resourcequota.resource_name"; #"k8s.resourcequota.uid"; #"k8s.statefulset.name"; #"k8s.statefulset.uid";
    #"k8s.storageclass.name"; #"k8s.volume.name"; #"k8s.volume.type"; #"log.file.name"; #"log.file.name_resolved";
    #"log.file.path"; #"log.file.path_resolved"; #"log.iostream"; #"log.record.original"; #"log.record.uid";
    #"mainframe.lpar.name"; #"mcp.method.name"; #"mcp.protocol.version"; #"mcp.resource.uri"; #"mcp.session.id";
    #"messaging.batch.message_count"; #"messaging.client.id"; #"messaging.consumer.group.name";
    #"messaging.destination.anonymous"; #"messaging.destination.name"; #"messaging.destination.partition.id";
    #"messaging.destination.subscription.name"; #"messaging.destination.template"; #"messaging.destination.temporary";
    #"messaging.eventhubs.message.enqueued_time"; #"messaging.gcp_pubsub.message.ack_deadline";
    #"messaging.gcp_pubsub.message.ack_id"; #"messaging.gcp_pubsub.message.delivery_attempt";
    #"messaging.gcp_pubsub.message.ordering_key"; #"messaging.kafka.message.key";
    #"messaging.kafka.message.tombstone"; #"messaging.kafka.offset"; #"messaging.message.body.size";
    #"messaging.message.conversation_id"; #"messaging.message.envelope.size"; #"messaging.message.id";
    #"messaging.operation.name"; #"messaging.operation.type"; #"messaging.rabbitmq.destination.routing_key";
    #"messaging.rabbitmq.message.delivery_tag"; #"messaging.rocketmq.consumption_model";
    #"messaging.rocketmq.message.delay_time_level"; #"messaging.rocketmq.message.delivery_timestamp";
    #"messaging.rocketmq.message.group"; #"messaging.rocketmq.message.keys"; #"messaging.rocketmq.message.tag";
    #"messaging.rocketmq.message.type"; #"messaging.rocketmq.namespace"; #"messaging.servicebus.disposition_status";
    #"messaging.servicebus.message.delivery_count"; #"messaging.servicebus.message.enqueued_time";
    #"messaging.system"; #"network.carrier.icc"; #"network.carrier.mcc"; #"network.carrier.mnc";
    #"network.carrier.name"; #"network.connection.state"; #"network.connection.subtype"; #"network.connection.type";
    #"network.interface.name"; #"network.io.direction"; #"network.local.address"; #"network.local.port";
    #"network.peer.address"; #"network.peer.port"; #"network.protocol.name"; #"network.protocol.version";
    #"network.transport"; #"network.type"; #"nfs.operation.name"; #"nfs.server.repcache.status";
    #"oci.manifest.digest"; #"onc_rpc.procedure.name"; #"onc_rpc.procedure.number"; #"onc_rpc.program.name";
    #"onc_rpc.version"; #"openai.request.service_tier"; #"openai.response.service_tier";
    #"openai.response.system_fingerprint"; #"openshift.clusterquota.name"; #"openshift.clusterquota.uid";
    #"opentracing.ref_type"; #"os.build_id"; #"os.description"; #"os.name"; #"os.type"; #"os.version";
    #"otel.component.name"; #"otel.component.type"; #"otel.event.name"; #"otel.scope.name"; #"otel.scope.schema_url";
    #"otel.scope.version"; #"otel.span.parent.origin"; #"otel.span.sampling_result"; #"otel.status_code";
    #"otel.status_description"; #"pprof.location.is_folded"; #"pprof.mapping.has_filenames";
    #"pprof.mapping.has_functions"; #"pprof.mapping.has_inline_frames"; #"pprof.mapping.has_line_numbers";
    #"pprof.profile.comment"; #"pprof.profile.doc_url"; #"pprof.profile.drop_frames"; #"pprof.profile.keep_frames";
    #"process.args_count"; #"process.command"; #"process.command_args"; #"process.command_line";
    #"process.context_switch.type"; #"process.creation.time"; #"process.executable.build_id.gnu";
    #"process.executable.build_id.go"; #"process.executable.build_id.htlhash"; #"process.executable.name";
    #"process.executable.path"; #"process.exit.code"; #"process.exit.time"; #"process.group_leader.pid";
    #"process.interactive"; #"process.linux.cgroup"; #"process.owner"; #"process.parent_pid"; #"process.pid";
    #"process.real_user.id"; #"process.real_user.name"; #"process.runtime.description"; #"process.runtime.name";
    #"process.runtime.version"; #"process.saved_user.id"; #"process.saved_user.name"; #"process.session_leader.pid";
    #"process.state"; #"process.title"; #"process.user.id"; #"process.user.name"; #"process.vpid";
    #"process.working_directory"; #"profile.frame.type"; #"rpc.message.compressed_size"; #"rpc.message.id";
    #"rpc.message.type"; #"rpc.message.uncompressed_size"; #"rpc.method"; #"rpc.method_original";
    #"rpc.response.status_code"; #"rpc.system.name"; #"security_rule.category"; #"security_rule.description";
    #"security_rule.license"; #"security_rule.name"; #"security_rule.reference"; #"security_rule.ruleset.name";
    #"security_rule.uuid"; #"security_rule.version"; #"server.address"; #"server.port"; #"service.instance.id";
    #"service.name"; #"service.namespace"; #"service.peer.name"; #"service.peer.namespace"; #"service.version";
    #"session.id"; #"session.previous_id"; #"signalr.connection.status"; #"signalr.transport"; #"source.address";
    #"source.port"; #"system.device"; #"system.filesystem.mode"; #"system.filesystem.mountpoint";
    #"system.filesystem.state"; #"system.filesystem.type"; #"system.memory.linux.slab.state"; #"system.memory.state";
    #"system.paging.direction"; #"system.paging.fault.type"; #"system.paging.state"; #"telemetry.distro.name";
    #"telemetry.distro.version"; #"telemetry.sdk.language"; #"telemetry.sdk.name"; #"telemetry.sdk.version";
    #"test.case.name"; #"test.case.result.status"; #"test.suite.name"; #"test.suite.run.status"; #"thread.id";
    #"thread.name"; #"tls.cipher"; #"tls.client.certificate"; #"tls.client.certificate_chain"; #"tls.client.hash.md5";
    #"tls.client.hash.sha1"; #"tls.client.hash.sha256"; #"tls.client.issuer"; #"tls.client.ja3";
    #"tls.client.not_after"; #"tls.client.not_before"; #"tls.client.subject"; #"tls.client.supported_ciphers";
    #"tls.curve"; #"tls.established"; #"tls.next_protocol"; #"tls.protocol.name"; #"tls.protocol.version";
    #"tls.resumed"; #"tls.server.certificate"; #"tls.server.certificate_chain"; #"tls.server.hash.md5";
    #"tls.server.hash.sha1"; #"tls.server.hash.sha256"; #"tls.server.issuer"; #"tls.server.ja3s";
    #"tls.server.not_after"; #"tls.server.not_before"; #"tls.server.subject"; #"url.domain"; #"url.extension";
    #"url.fragment"; #"url.full"; #"url.original"; #"url.path"; #"url.port"; #"url.query"; #"url.registered_domain";
    #"url.scheme"; #"url.subdomain"; #"url.template"; #"url.top_level_domain"; #"user.email"; #"user.full_name";
    #"user.hash"; #"user.id"; #"user.name"; #"user.roles"; #"user_agent.name"; #"user_agent.original";
    #"user_agent.os.name"; #"user_agent.os.version"; #"user_agent.synthetic.type"; #"user_agent.version";
    #"vcs.change.id"; #"vcs.change.state"; #"vcs.change.title"; #"vcs.line_change.type"; #"vcs.owner.name";
    #"vcs.provider.name"; #"vcs.ref.base.name"; #"vcs.ref.base.revision"; #"vcs.ref.base.type"; #"vcs.ref.head.name";
    #"vcs.ref.head.revision"; #"vcs.ref.head.type"; #"vcs.ref.type"; #"vcs.repository.name";
    #"vcs.repository.url.full"; #"vcs.revision_delta.direction"; #"webengine.description"; #"webengine.name";
    #"webengine.version"; #"zos.smf.id"; #"zos.sysplex.name"].

Definition semconvReservedPrefixes : list bytes := [
    #"container.label."; #"db.operation.parameter."; #"db.query.parameter."; #"host."; #"http.request.header.";
    #"http.response.header."; #"k8s.cronjob.annotation."; #"k8s.cronjob.label."; #"k8s.daemonset.annotation.";
    #"k8s.daemonset.label."; #"k8s.deployment.annotation."; #"k8s.deployment.label."; #"k8s.job.annotation.";
    #"k8s.job.label."; #"k8s.namespace.annotation."; #"k8s.namespace.label."; #"k8s.node.annotation.";
    #"k8s.node.label."; #"k8s.pod.annotation."; #"k8s.pod.label."; #"k8s.replicaset.annotation.";
    #"k8s.replicaset.label."; #"k8s.statefulset.annotation."; #"k8s.statefulset.label."; #"process.";
    #"process.environment_variable."; #"rpc.request.metadata."; #"rpc.response.metadata."].
