(* ===== verification/Baggage.v ===== *)
(** internal/baggageattrs: the baggage members the SDK accepts, carries in a
    context and turns into attributes. The W3C baggage package is an interface;
    an error is the text it prints. *)
From S2P Require Import Prelude Utf8 GoStrings GoCodec GoNum SampleLib Attribute SemconvReserved.

(** go.opentelemetry.io/otel/baggage, and the context that carries a baggage. *)
Class BaggageApi := {
  Bag : Type; Member : Type; Ctx : Type;
  NewMember : bytes → bytes → bytes + Member;
  NewMemberRaw : bytes → bytes → bytes + Member;
  SetMember : Bag → Member → bytes + Bag;
  DeleteMember : Bag → bytes → Bag;
  Bag_Len : Bag → nat;
  Bag_Member : Bag → bytes → bytes * bytes;  (* Key() and Value() *)
  Bag_String : Bag → bytes;
  FromContext : Ctx → Bag;
  ContextWithBaggage : Ctx → Bag → Ctx;
}.
(** A member is looked up by its key, and has no key when it is absent. *)
Class BaggageLaws (B : BaggageApi) := {
  from_context ctx b : FromContext (ContextWithBaggage ctx b) = b;
  member_key b k : (Bag_Member b k).1 = k ∨ Bag_Member b k = ([], []);
  set_member b k v m b' : NewMemberRaw k v = inr m → SetMember b m = inr b' →
    Bag_Member b' k = (k, v) ∧ ∀ k', k' ≠ k → Bag_Member b' k' = Bag_Member b k';
  delete_member b k : (Bag_Member (DeleteMember b k) k).1 = []
    ∧ ∀ k', k' ≠ k → Bag_Member (DeleteMember b k) k' = Bag_Member b k';
  empty_bag b k : Bag_Len b = 0 → Bag_Member b k = ([], []);
}.

Definition UserNameKey : bytes := #"user.name".
Definition MaxBaggageValueBytes : nat := 256.
Definition MaxBaggageKeyBytes : nat := 128.
Definition maxWireMembers : nat := 64.
Definition maxWireBytes : N := 8192.

Definition sdkReservedKeys : list bytes :=
  [ #"deployment.environment.name"; #"environment"; #"level"; #"msg"; #"service.name"; #"service.namespace";
    #"service.version"; #"source"; #"spanId"; #"time"; #"traceId"].
Definition reservedKeyReason (key : bytes) : option bytes :=
  if bool_decide (key ∈ sdkReservedKeys) then Some #"the SDK or slog record model"
  else if bool_decide (key ∈ semconvReservedKeys) then Some #"OpenTelemetry semantic conventions v1.39.0"
  else if existsb (HasPrefix key) semconvReservedPrefixes then
    Some #"an OpenTelemetry semantic-convention namespace"
  else None.

(** * Whitelists *)
Record Whitelist := { attributes : list (bytes * bytes) }.  (* baggageKey, attributeKey *)
Definition whitelist_step (st : list bytes * list (bytes * bytes)) (key : bytes) :
    list bytes * list (bytes * bytes) :=
  let '(seen, attrs) := st in
  if bool_decide (key ∈ seen) then st
  else (key :: seen, attrs ++ [(key, if bool_decide (key = UserNameKey) then UserNameKey else key)]).
Definition NewWhitelist (keys : list bytes) : Whitelist :=
  {| attributes := (foldl whitelist_step ([], []) keys).2 |}.
Definition Keys (w : Whitelist) : list bytes := fst <$> attributes w.

Section baggage.
Context `{B : BaggageApi, GoPrint}.

(** nil is the absence of an error. *)
Definition ValidBaggageKey (key : bytes) : option bytes :=
  if bool_decide (key = UserNameKey) then Some #"user.name is reserved; use ContextWithUser and WithUserBaggage"
  else if bool_decide (key = []) then Some #"baggage key must not be empty"
  else if MaxBaggageKeyBytes <? length key then Some #"baggage key exceeds 128 bytes"
  else match NewMember key #"validation" with
       | inl err => Some ( #"baggage key is not a valid W3C token: " ++ err)
       | inr _ =>
         match reservedKeyReason key with
         | Some reason => Some ( #"baggage key is reserved by " ++ reason)
         | None => None
         end
       end.

Definition wireMembers (encoded : bytes) : nat :=
  if bool_decide (encoded = []) then 0 else S (Count encoded ",").

Definition contextWithValue (ctx : Ctx) (key value : bytes) : Ctx * option bytes :=
  if bool_decide (value = []) then (ctx, None)
  else if MaxBaggageValueBytes <? length value then
    (ctx, Some ( #"baggage value for " ++ quoted key ++ #" exceeds 256 bytes"))
  else match NewMemberRaw key value with
  | inl err => (ctx, Some ( #"invalid " ++ key ++ #" baggage member: " ++ err))
  | inr member =>
    match SetMember (FromContext ctx) member with
    | inl err => (ctx, Some ( #"set " ++ key ++ #" baggage member: " ++ err))
    | inr candidate =>
      let encoded := Bag_String candidate in
      if maxWireMembers <? wireMembers encoded then
        (ctx, Some ( #"setting baggage member " ++ quoted key ++ #" would exceed the W3C limit of 64 wire members"))
      else if (maxWireBytes <? N.of_nat (length encoded))%N then
        (ctx, Some ( #"setting baggage member " ++ quoted key ++ #" would exceed the W3C limit of 8192 encoded bytes"))
      else (ContextWithBaggage ctx candidate, None)
    end
  end.
Definition ContextWithValue (ctx : Ctx) (key value : bytes) : Ctx * option bytes :=
  match ValidBaggageKey key with Some err => (ctx, Some err) | None => contextWithValue ctx key value end.
Definition ContextWithUser (ctx : Ctx) (name : bytes) : Ctx * option bytes :=
  if bool_decide (name = []) then (ctx, None) else contextWithValue ctx UserNameKey name.

Definition without_step (st : Bag * bool) (key : bytes) : Bag * bool :=
  let '(bag, changed) := st in
  if bool_decide ((Bag_Member bag key).1 = []) then st else (DeleteMember bag key, true).
Definition ContextWithoutValues (ctx : Ctx) (keys : list bytes) : Ctx :=
  let '(bag, changed) := foldl without_step (FromContext ctx, false) keys in
  if changed then ContextWithBaggage ctx bag else ctx.

(** A member that becomes an attribute. *)
Definition usable (member : bytes * bytes) : bool :=
  negb (bool_decide (member.1 = []) || bool_decide (member.2 = []) || (MaxBaggageValueBytes <? length member.2)).
Definition SpanAttributesFromContext (w : Whitelist) (ctx : Ctx) : list KeyValue :=
  let bag := FromContext ctx in
  if bool_decide (Bag_Len bag = 0) then []
  else omap (λ item : bytes * bytes,
         let member := Bag_Member bag item.1 in
         if usable member then Some (item.2, StringValue member.2) else None) (attributes w).
Definition LogAttrsFromContext (w : Whitelist) (ctx : Ctx) : list (bytes * bytes) :=
  let bag := FromContext ctx in
  if bool_decide (Bag_Len bag = 0) then []
  else omap (λ item : bytes * bytes,
         let member := Bag_Member bag item.1 in
         if usable member then Some (item.1, member.2) else None) (attributes w).

(** OnStart: the attributes it sets on a span that starts with [spanAttrs], one
    SetAttributes each, in order. *)
Definition spanHasAttribute (attrs : list KeyValue) (key : bytes) : bool :=
  existsb (λ kv, bool_decide (kv.1 = key)) attrs.
Definition OnStart (w : Whitelist) (parent : Ctx) (spanAttrs : list KeyValue) : list KeyValue :=
  filter (λ kv, negb (spanHasAttribute spanAttrs kv.1) = true) (SpanAttributesFromContext w parent).
End baggage.

(** * Whitelisted keys *)
Lemma whitelist_fold keys seen attrs :
  attrs = (λ k, (k, k)) <$> reverse seen → NoDup seen →
  let '(seen', attrs') := foldl whitelist_step (seen, attrs) keys in
  attrs' = (λ k, (k, k)) <$> reverse seen' ∧ NoDup seen'
  ∧ (∀ k, k ∈ seen' ↔ k ∈ seen ∨ k ∈ keys) ∧ ∃ new, reverse seen' = reverse seen ++ new ∧ new `sublist_of` keys.
Proof.
  revert seen attrs. induction keys as [|key keys IH]; intros seen attrs -> Hnd; cbn [foldl].
  { split_and!; [done|done| |exists []; by rewrite app_nil_r]. intros k. rewrite elem_of_nil. naive_solver. }
  assert (Hkey : (key, if bool_decide (key = UserNameKey) then UserNameKey else key) = (key, key))
    by (by case_bool_decide; subst).
  cbn [whitelist_step]. rewrite Hkey. clear Hkey. case_bool_decide as Hin.
  - specialize (IH seen _ eq_refl Hnd). destruct (foldl _ _ keys) as [seen' attrs'].
    destruct IH as (? & ? & Hel & new & Hnew & Hsub). split_and!; [done|done| |].
    + intros k. rewrite Hel, elem_of_cons. naive_solver.
    + exists new. split; [done|by constructor].
  - specialize (IH (key :: seen) (((λ k, (k, k)) <$> reverse seen) ++ [(key, key)])).
    destruct (foldl _ _ keys) as [seen' attrs'].
    destruct IH as (? & ? & Hel & new & Hnew & Hsub); [by rewrite reverse_cons, fmap_app|by constructor|].
    split_and!; [done|done| |].
    + intros k. rewrite Hel, !elem_of_cons. naive_solver.
    + exists (key :: new). rewrite Hnew, reverse_cons, <- (assoc_L (++)). split; [done|by constructor].
Qed.

Lemma NewWhitelist_spec keys :
  attributes (NewWhitelist keys) = (λ k, (k, k)) <$> Keys (NewWhitelist keys)
  ∧ NoDup (Keys (NewWhitelist keys)) ∧ (∀ k, k ∈ Keys (NewWhitelist keys) ↔ k ∈ keys)
  ∧ Keys (NewWhitelist keys) `sublist_of` keys.
Proof.
  unfold Keys, NewWhitelist. cbn [attributes]. pose proof (whitelist_fold keys [] [] eq_refl (NoDup_nil_2)) as Hf.
  destruct (foldl _ _ keys) as [seen attrs]. destruct Hf as (-> & Hnd & Hel & new & Hnew & Hsub). cbn [snd].
  assert (Hfst : fst <$> ((λ k : bytes, (k, k)) <$> reverse seen) = reverse seen).
  { rewrite <- list_fmap_compose. apply list_fmap_id. }
  rewrite Hfst. split_and!; [done| | |].
  - by rewrite reverse_Permutation.
  - intros k. rewrite elem_of_reverse, Hel, elem_of_nil. naive_solver.
  - rewrite Hnew. exact Hsub.
Qed.

Section facts.
Context `{B : BaggageApi, GoPrint} (Hlaws : BaggageLaws B).

(** * Keys *)
Lemma ValidBaggageKey_ok key :
  ValidBaggageKey key = None ↔
  key ≠ UserNameKey ∧ 0 < length key ≤ MaxBaggageKeyBytes ∧ is_Some (match NewMember key #"validation" with
                                                                    | inr m => Some m | inl _ => None end)
  ∧ key ∉ sdkReservedKeys ∧ key ∉ semconvReservedKeys
  ∧ (∀ p, p ∈ semconvReservedPrefixes → ¬ p `prefix_of` key).
Proof.
  unfold ValidBaggageKey, reservedKeyReason. case_bool_decide as H1; [naive_solver|].
  case_bool_decide as H2; [subst; split; [done|intros (_ & [? _] & _); cbn in *; lia]|].
  assert (0 < length key) by (destruct key; [done|cbn; lia]).
  destruct (MaxBaggageKeyBytes <? length key) eqn:E3.
  { split; [done|]. apply Nat.ltb_lt in E3. intros (_ & [_ ?] & _). lia. }
  apply Nat.ltb_ge in E3. destruct (NewMember key _) as [err|mem]; [split; [done|naive_solver]|].
  case_bool_decide as H4; [naive_solver|]. case_bool_decide as H5; [naive_solver|].
  assert (Hp : existsb (HasPrefix key) semconvReservedPrefixes = false
               ↔ ∀ p, p ∈ semconvReservedPrefixes → ¬ p `prefix_of` key).
  { rewrite <- not_true_iff_false, existsb_exists. unfold HasPrefix. split.
    - intros Hn p Hp Hpre. apply Hn. exists p. split; [by apply list_elem_of_In|by apply prefixb_spec].
    - intros Hn (p & Hp%list_elem_of_In & Hpre%prefixb_spec). by apply (Hn p). }
  destruct (existsb _ _) eqn:E6; [|naive_solver].
  split; [done|]. intros (_ & _ & _ & _ & _ & Hn). apply Hp in Hn. done.
Qed.

(** * Attributes *)
Definition from_member (bag : Bag) (key : bytes) : option KeyValue :=
  if usable (Bag_Member bag key) then Some (key, StringValue (Bag_Member bag key).2) else None.

Lemma SpanAttributesFromContext_spec keys ctx :
  SpanAttributesFromContext (NewWhitelist keys) ctx = omap (from_member (FromContext ctx)) (Keys (NewWhitelist keys))
  ∧ SpanAttributesFromContext (NewWhitelist keys) ctx
    = (λ kv, (kv.1, StringValue kv.2)) <$> LogAttrsFromContext (NewWhitelist keys) ctx.
Proof.
  unfold SpanAttributesFromContext, LogAttrsFromContext.
  destruct (NewWhitelist_spec keys) as (-> & _). generalize (Keys (NewWhitelist keys)) as ks. intros ks.
  case_bool_decide as Hlen.
  - split; [|done]. symmetry. induction ks as [|k ks IH]; [done|]. cbn [omap list_omap]. unfold from_member at 1.
    by rewrite (empty_bag _ k Hlen), IH.
  - split; induction ks as [|k ks IH]; try done; cbn [omap list_omap fmap list_fmap fst].
    + unfold from_member at 1. destruct (usable _); by rewrite IH.
    + destruct (usable _); cbn [fmap list_fmap fst snd]; by rewrite IH.
Qed.

Lemma contextWithValue_spec ctx key value :
  let '(ctx', err) := contextWithValue ctx key value in
  match err with
  | Some _ => ctx' = ctx
  | None => value = [] ∧ ctx' = ctx
      ∨ value ≠ [] ∧ length value ≤ MaxBaggageValueBytes
        ∧ wireMembers (Bag_String (FromContext ctx')) ≤ maxWireMembers
        ∧ (N.of_nat (length (Bag_String (FromContext ctx'))) ≤ maxWireBytes)%N
        ∧ Bag_Member (FromContext ctx') key = (key, value)
        ∧ ∀ k, k ≠ key → Bag_Member (FromContext ctx') k = Bag_Member (FromContext ctx) k
  end.
Proof.
  unfold contextWithValue. case_bool_decide as Hv; [by left|].
  destruct (MaxBaggageValueBytes <? length value) eqn:El; [done|].
  destruct (NewMemberRaw key value) as [err|m] eqn:Em; [done|].
  destruct (SetMember (FromContext ctx) m) as [err|bag] eqn:Es; [done|]. cbn [fst snd].
  destruct (maxWireMembers <? wireMembers (Bag_String bag)) eqn:E1; [done|].
  destruct (maxWireBytes <? N.of_nat (length (Bag_String bag)))%N eqn:E2; [done|].
  apply Nat.ltb_ge in El, E1. apply N.ltb_ge in E2. rewrite from_context. right.
  split_and!; [done|done|done|done| |]; by apply (set_member _ _ _ _ _ Em Es).
Qed.

Lemma without_fold bag changed keys :
  let '(bag', changed') := foldl without_step (bag, changed) keys in
  (∀ k, k ∈ keys ∨ (Bag_Member bag k).1 = [] → (Bag_Member bag' k).1 = [])
  ∧ (∀ k, k ∉ keys → Bag_Member bag' k = Bag_Member bag k)
  ∧ (changed' = false → bag' = bag) ∧ ((∀ k, k ∈ keys → (Bag_Member bag k).1 = []) → changed' = changed).
Proof.
  revert bag changed. induction keys as [|key keys IH]; intros bag changed; cbn [foldl].
  { split_and!; [intros k [Hk|?]; [by apply elem_of_nil in Hk|done]|done|done|done]. }
  cbn [without_step]. case_bool_decide as Hk.
  - specialize (IH bag changed). destruct (foldl without_step _ keys) as [bag' changed'].
    destruct IH as (H1 & H2 & H3 & H4). split_and!; [|set_solver|done|set_solver].
    intros k [[->|?]%elem_of_cons|?]; apply H1; auto.
  - specialize (IH (DeleteMember bag key) true). destruct (delete_member bag key) as [Hd Hother].
    assert (Hch : ∀ b ks, (foldl without_step (b, true) ks).2 = true).
    { intros b ks. revert b. induction ks as [|x ks IHx]; intros b; [done|]. cbn [foldl without_step].
      case_bool_decide; apply IHx. }
    specialize (Hch (DeleteMember bag key) keys).
    destruct (foldl without_step _ keys) as [bag' changed']. cbn [snd] in Hch. subst changed'.
    destruct IH as (H1 & H2 & H3 & H4). split_and!; [| |done|].
    + intros k Hor. apply H1. destruct (decide (k = key)) as [->|Hne]; [by right|].
      destruct Hor as [[?|?]%elem_of_cons|?]; [done|by left|right; by rewrite Hother].
    + intros k [Hne Hnin]%not_elem_of_cons. rewrite H2 by done. by apply Hother.
    + intros Hall. destruct Hk. apply Hall. by left.
Qed.

(** * Properties *)

(** C39: setting a baggage value. An error leaves the context it was given. Without
    one, the key is one an application may use, which is a W3C token of at most
    128 bytes that neither the SDK nor the semantic conventions reserve, and
    either the value was empty and the context is the one given, or the context
    carries the value, of at most 256 bytes, under the key, every other member as
    it was, in at most 64 members and 8192 bytes on the wire. *)
Theorem ContextWithValue_spec (ctx : Ctx) (key value : bytes) :
  let '(ctx', err) := ContextWithValue ctx key value in
  match err with
  | Some _ => ctx' = ctx
  | None =>
    (key ≠ UserNameKey ∧ 0 < length key ≤ MaxBaggageKeyBytes ∧ (∃ m, NewMember key #"validation" = inr m)
     ∧ key ∉ sdkReservedKeys ∧ key ∉ semconvReservedKeys
     ∧ ∀ p, p ∈ semconvReservedPrefixes → ¬ p `prefix_of` key)
    ∧ (value = [] ∧ ctx' = ctx
       ∨ value ≠ [] ∧ length value ≤ MaxBaggageValueBytes
         ∧ wireMembers (Bag_String (FromContext ctx')) ≤ maxWireMembers
         ∧ (N.of_nat (length (Bag_String (FromContext ctx'))) ≤ maxWireBytes)%N
         ∧ Bag_Member (FromContext ctx') key = (key, value)
         ∧ ∀ k, k ≠ key → Bag_Member (FromContext ctx') k = Bag_Member (FromContext ctx) k)
  end.
Proof.
  unfold ContextWithValue. destruct (ValidBaggageKey key) as [e|] eqn:E; [done|].
  apply ValidBaggageKey_ok in E as (H1 & H2 & Hm & H4 & H5 & H6).
  pose proof (contextWithValue_spec ctx key value) as Hs. destruct (contextWithValue ctx key value) as [ctx' [e|]]; [done|].
  split; [|done]. split_and!; try done; [lia|lia|].
  destruct (NewMember key _) as [e|m]; [by destruct Hm|by exists m].
Qed.

(** A value set on a context is what the spans and the log records of a
    service that whitelists its key have, from the child context on; and what
    they have is only that: for each whitelisted key, once and in the order the
    keys were first given, the member of that key, if there is one, it is not
    empty and it has at most 256 bytes. *)
Theorem baggage_attributes (ctx ctx' : Ctx) (keys : list bytes) :
  (∀ key value, ContextWithValue ctx key value = (ctx', None) → value ≠ [] → key ∈ keys →
     (key, StringValue value) ∈ SpanAttributesFromContext (NewWhitelist keys) ctx'
     ∧ (key, value) ∈ LogAttrsFromContext (NewWhitelist keys) ctx')
  ∧ SpanAttributesFromContext (NewWhitelist keys) ctx
    = omap (from_member (FromContext ctx)) (Keys (NewWhitelist keys))
  ∧ SpanAttributesFromContext (NewWhitelist keys) ctx
    = (λ kv, (kv.1, StringValue kv.2)) <$> LogAttrsFromContext (NewWhitelist keys) ctx
  ∧ NoDup (Keys (NewWhitelist keys)) ∧ (∀ k, k ∈ Keys (NewWhitelist keys) ↔ k ∈ keys)
  ∧ Keys (NewWhitelist keys) `sublist_of` keys.
Proof.
  destruct (NewWhitelist_spec keys) as (_ & Hnd & Hel & Hsub).
  destruct (SpanAttributesFromContext_spec keys ctx) as [Ha Hl]. split_and!; try done.
  intros key value Hc Hv Hin. destruct (SpanAttributesFromContext_spec keys ctx') as [Ha' Hl'].
  assert ((key, StringValue value) ∈ SpanAttributesFromContext (NewWhitelist keys) ctx') as Hspan.
  { rewrite Ha'. apply list_elem_of_omap. exists key. split; [by apply Hel|].
    unfold ContextWithValue in Hc. destruct (ValidBaggageKey key) eqn:Ek; [done|].
    apply ValidBaggageKey_ok in Ek as (_ & [Hlen _] & _). pose proof (contextWithValue_spec ctx key value) as Hs.
    rewrite Hc in Hs. destruct Hs as [[? _]|(_ & Hle & _ & _ & Hm & _)]; [done|].
    unfold from_member, usable. rewrite Hm. cbn [fst snd].
    rewrite bool_decide_false by (by intros ->; cbn in Hlen; lia). rewrite bool_decide_false by done.
    rewrite (proj2 (Nat.ltb_ge _ _)) by done. done. }
  split; [done|]. rewrite Hl' in Hspan. apply list_elem_of_fmap in Hspan as ([k v] & E & Hkv).
  injection E as -> ->. done.
Qed.

(** Starting a span adds what the parent context carries under the whitelisted
    keys to what the span has, and changes nothing it has: every attribute that
    is set comes from the parent's baggage, has a key the span did not have and
    that no other one has, and no key of the baggage's attributes is missing
    from the span afterwards. *)
Theorem OnStart_adds (keys : list bytes) (parent : Ctx) (spanAttrs : list KeyValue) :
  let sets := OnStart (NewWhitelist keys) parent spanAttrs in
  NoDup sets.*1 ∧ (∀ kv, kv ∈ sets → kv.1 ∉ spanAttrs.*1 ∧ kv ∈ SpanAttributesFromContext (NewWhitelist keys) parent)
  ∧ ∀ kv, kv ∈ SpanAttributesFromContext (NewWhitelist keys) parent → kv ∈ sets ∨ kv.1 ∈ spanAttrs.*1.
Proof.
  assert (Hhas : ∀ k, spanHasAttribute spanAttrs k = true ↔ k ∈ spanAttrs.*1).
  { intros k. unfold spanHasAttribute. rewrite existsb_exists, list_elem_of_fmap. split.
    - intros (kv & Hin%list_elem_of_In & E%bool_decide_eq_true). by exists kv.
    - intros (kv & -> & Hin). exists kv. split; [by apply list_elem_of_In|by apply bool_decide_eq_true]. }
  cbn [OnStart]. unfold OnStart. split_and!.
  - destruct (SpanAttributesFromContext_spec keys parent) as [-> _].
    destruct (NewWhitelist_spec keys) as (_ & Hnd & _). induction Hnd as [|k ks Hk Hnd IH]; [constructor|].
    cbn [omap list_omap]. unfold from_member at 1. destruct (usable _); [|done]. rewrite filter_cons.
    case_decide; [|done]. cbn [fmap list_fmap fst]. constructor; [|done].
    intros ([k' v] & E & [_ Hin]%list_elem_of_filter)%list_elem_of_fmap. cbn in E. subst k'.
    apply list_elem_of_omap in Hin as (k' & Hk' & E). unfold from_member in E. destruct (usable _); [|done].
    by injection E as <- _.
  - intros kv [Hn Hin]%list_elem_of_filter. split; [|done]. rewrite <- Hhas. by destruct (spanHasAttribute _ _).
  - intros kv Hin. destruct (spanHasAttribute spanAttrs kv.1) eqn:E; [right; by apply Hhas|left].
    apply list_elem_of_filter. split; [by rewrite E|done].
Qed.

(** Removing values. The members of the keys are gone, the others are as they
    were, and when none of the keys was there the context is the one given. *)
Theorem ContextWithoutValues_spec (ctx : Ctx) (keys : list bytes) :
  (∀ k, k ∈ keys → (Bag_Member (FromContext (ContextWithoutValues ctx keys)) k).1 = [])
  ∧ (∀ k, k ∉ keys → Bag_Member (FromContext (ContextWithoutValues ctx keys)) k = Bag_Member (FromContext ctx) k)
  ∧ ((∀ k, k ∈ keys → (Bag_Member (FromContext ctx) k).1 = []) → ContextWithoutValues ctx keys = ctx).
Proof.
  unfold ContextWithoutValues. pose proof (without_fold (FromContext ctx) false keys) as Hf.
  destruct (foldl without_step _ keys) as [bag changed]. destruct Hf as (H1 & H2 & H3 & H4).
  assert (E : FromContext (if changed then ContextWithBaggage ctx bag else ctx) = bag).
  { destruct changed; [apply from_context|by rewrite H3]. }
  rewrite E. split_and!; [auto|done|]. intros Hall. by rewrite (H4 Hall).
Qed.
End facts.

(** * A baggage *)
Definition sample_get (b : list (bytes * bytes)) (k : bytes) : bytes * bytes :=
  match head (filter (λ p, p.1 = k) b) with Some p => p | None => ([], []) end.
Definition sample_new (k v : bytes) : bytes + bytes * bytes :=
  if bool_decide (k = []) then inl #"invalid key" else inr (k, v).
#[local] Instance sample_baggage : BaggageApi := {|
  Bag := list (bytes * bytes); Member := bytes * bytes; Ctx := list (bytes * bytes);
  NewMember := sample_new; NewMemberRaw := sample_new;
  SetMember := λ b m, inr (m :: filter (λ p, p.1 ≠ m.1) b);
  DeleteMember := λ b k, filter (λ p, p.1 ≠ k) b;
  Bag_Len := length; Bag_Member := sample_get;
  Bag_String := λ b, Join ((λ p : bytes * bytes, p.1 ++ #"=" ++ p.2) <$> b) #",";
  FromContext := λ ctx, ctx; ContextWithBaggage := λ _ b, b;
|}.

Lemma sample_get_cons p b k : sample_get (p :: b) k = if decide (p.1 = k) then p else sample_get b k.
Proof. unfold sample_get. rewrite filter_cons. by case_decide. Qed.

Lemma sample_get_filter b k k' :
  sample_get (filter (λ p, p.1 ≠ k) b) k' = if decide (k' = k) then ([], []) else sample_get b k'.
Proof.
  induction b as [|p b IH]; [by case_decide|]. rewrite filter_cons.
  destruct (decide (p.1 ≠ k)) as [Hp|Hp]; rewrite ?sample_get_cons, IH; repeat case_decide; naive_solver.
Qed.

#[local] Instance sample_baggage_laws : BaggageLaws sample_baggage.
Proof.
  split; cbn [Bag Member Ctx FromContext ContextWithBaggage Bag_Member NewMemberRaw SetMember DeleteMember Bag_Len
              sample_baggage].
  - done.
  - intros b k. induction b as [|p b IH]; [by right|]. rewrite sample_get_cons. case_decide; [by left|done].
  - intros b k v m b' Hm [= <-]. unfold sample_new in Hm. case_bool_decide; [done|]. injection Hm as <-.
    split; [by rewrite sample_get_cons, decide_True|]. intros k' Hk'.
    by rewrite sample_get_cons, decide_False, sample_get_filter, decide_False by done.
  - intros b k. rewrite sample_get_filter, decide_True by done. split; [done|].
    intros k' Hk'. by rewrite sample_get_filter, decide_False.
  - intros b k Hb. by apply length_zero_iff_nil in Hb as ->.
Qed.

Definition tenant : bytes := #"tenant.id".

Lemma ContextWithValue_spec_witness :
  ContextWithValue (B := sample_baggage) [] tenant #"acme" = ([(tenant, #"acme")], None)
  ∧ tenant ∉ semconvReservedKeys
  ∧ (ContextWithValue (B := sample_baggage) [] #"host.name" #"x").2 ≠ None.
Proof.
  split; [vm_compute; reflexivity|].
  pose proof (ContextWithValue_spec sample_baggage_laws [] tenant #"acme") as H.
  assert (ContextWithValue (B := sample_baggage) [] tenant #"acme" = ([(tenant, #"acme")], None)) as E
    by (vm_compute; reflexivity).
  rewrite E in H. split; [exact (proj1 (proj2 (proj2 (proj2 (proj2 (proj1 H))))))|vm_compute; discriminate].
Defined.

Lemma baggage_attributes_witness :
  SpanAttributesFromContext (B := sample_baggage) (NewWhitelist [ #"absent"; tenant]) [(tenant, #"acme")]
  = [(tenant, StringValue #"acme")].
Proof.
  destruct (baggage_attributes sample_baggage_laws [(tenant, #"acme")] [] [ #"absent"; tenant]) as (_ & H & _).
  rewrite H. vm_compute. reflexivity.
Defined.

Lemma OnStart_adds_witness :
  NoDup (OnStart (B := sample_baggage) (NewWhitelist [tenant]) [(tenant, #"acme")] []).*1.
Proof. exact (proj1 (OnStart_adds sample_baggage_laws [tenant] [(tenant, #"acme")] [])). Defined.

Lemma ContextWithoutValues_spec_witness :
  ContextWithoutValues (B := sample_baggage) [(tenant, #"acme")] [ #"absent"] = [(tenant, #"acme")].
Proof.
  apply (ContextWithoutValues_spec sample_baggage_laws [(tenant, #"acme")] [ #"absent"]).
  intros k ->%list_elem_of_singleton. vm_compute. reflexivity.
Defined.
