(* ===== verification/MetricRules.v ===== *)
(** internal/metrics/metrics.go, the guards on cardinality: the rules of the two
    export boundaries, built from the configuration, and the limit of the SDK. An
    int has 64 bits. *)
From S2P Require Import Prelude Utf8 GoStrings GoNum Attribute PromLabel MetricCap MetricRewrite MetricGather.

(** * The configuration, and the SDK's limit *)
Record Config := { MaxUniqueRoutes : Z; MaxUniqueCollections : Z; CardinalityLimit : Z }.
Definition DefaultCardinalityLimit : Z := 2000.
Definition MinCardinalityLimit : Z := 4.
Definition sdkCardinalityCapMultiplier : Z := 4.

Definition scaleBudget (n per : Z) : Z :=
  if (n <=? 0)%Z then 0
  else if (int64_max / per <? n)%Z then int64_max
  else wrap64 (n * per).
Definition cardinalityLimitBudget (maxUniqueRoutes maxUniqueCollections override : Z) : Z :=
  if (0 <? override)%Z then Z.max override MinCardinalityLimit
  else Z.max DefaultCardinalityLimit
         (Z.max (scaleBudget maxUniqueRoutes sdkCardinalityCapMultiplier)
                (scaleBudget maxUniqueCollections sdkCardinalityCapMultiplier)).

(** * The capped instruments *)
Record capInstrument := { instrument : bytes; family : bytes }.
Record collectionCapScope := { scope : bytes; budget : bytes; instruments : list capInstrument }.

Definition cassandraScope : bytes := #"github.com/flywindy/o11y/cassandra".
Definition cassandraCollectionBudget : bytes := #"cassandra/db.collection.name".
Definition operation_duration : capInstrument :=
  {| instrument := #"db.client.operation.duration"; family := #"db_client_operation_duration_seconds" |}.
Definition cassandraCollectionInstruments : list capInstrument :=
  [operation_duration; {| instrument := #"cassandra.query.attempts"; family := #"cassandra_query_attempts_total" |}].
Definition elasticsearchScope : bytes := #"github.com/flywindy/o11y/elasticsearch".
Definition elasticsearchCollectionBudget : bytes := #"elasticsearch/db.collection.name".
Definition elasticsearchCollectionInstruments : list capInstrument := [operation_duration].
Definition mongoContribScope : bytes := #"go.opentelemetry.io/contrib/instrumentation/go.mongodb.org/mongo-driver/v2/mongo/otelmongo".
Definition mongoPeerBudget : bytes := #"mongo/network.peer.address".
Definition mongoPeerInstruments : list capInstrument := [operation_duration].
Definition maxUniqueMongoPeers : Z := 50.
Definition collectionCapScopes : list collectionCapScope :=
  [{| scope := cassandraScope; budget := cassandraCollectionBudget; instruments := cassandraCollectionInstruments |};
   {| scope := elasticsearchScope; budget := elasticsearchCollectionBudget;
      instruments := elasticsearchCollectionInstruments |}].

(** * The rules *)
Definition otlpCapRules (cfg : Config) : list Rule :=
  (if (0 <? MaxUniqueRoutes cfg)%Z then
     [{| InstrumentName := #"http.server.request.duration"; Key := #"http.route"; RuleMax := MaxUniqueRoutes cfg;
         ScopeName := []; BudgetKey := [] |};
      {| InstrumentName := #"http.client.request.duration"; Key := #"http.route"; RuleMax := MaxUniqueRoutes cfg;
         ScopeName := []; BudgetKey := [] |}]
   else [])
  ++ (if (0 <? MaxUniqueCollections cfg)%Z then
        collectionCapScopes ≫= λ sc, (λ inst,
          {| InstrumentName := instrument inst; ScopeName := scope sc; Key := #"db.collection.name";
             RuleMax := MaxUniqueCollections cfg; BudgetKey := budget sc |}) <$> instruments sc
      else [])
  ++ ((λ inst, {| InstrumentName := instrument inst; ScopeName := mongoContribScope; Key := #"network.peer.address";
                  RuleMax := maxUniqueMongoPeers; BudgetKey := mongoPeerBudget |}) <$> mongoPeerInstruments).
Definition prometheusCapRules (cfg : Config) : list PrometheusRule :=
  (if (0 <? MaxUniqueRoutes cfg)%Z then
     [{| PMetricName := #"http_server_request_duration_seconds"; PLabelName := #"http_route";
         PMax := MaxUniqueRoutes cfg; PScopeName := []; PBudgetKey := [] |};
      {| PMetricName := #"http_client_request_duration_seconds"; PLabelName := #"http_route";
         PMax := MaxUniqueRoutes cfg; PScopeName := []; PBudgetKey := [] |}]
   else [])
  ++ (if (0 <? MaxUniqueCollections cfg)%Z then
        collectionCapScopes ≫= λ sc, (λ inst,
          {| PMetricName := family inst; PScopeName := scope sc; PLabelName := #"db_collection_name";
             PMax := MaxUniqueCollections cfg; PBudgetKey := budget sc |}) <$> instruments sc
      else [])
  ++ ((λ inst, {| PMetricName := family inst; PScopeName := mongoContribScope; PLabelName := #"network_peer_address";
                  PMax := maxUniqueMongoPeers; PBudgetKey := mongoPeerBudget |}) <$> mongoPeerInstruments).

(** * Facts *)
Lemma scaleBudget_spec n : scaleBudget n 4 = Z.min int64_max (4 * Z.max 0 n).
Proof.
  unfold scaleBudget, int64_max. destruct (n <=? 0)%Z eqn:E0; [lia|].
  destruct ((2 ^ 63 - 1) / 4 <? n)%Z eqn:E1; [div_lia|]. rewrite wrap64_id; div_lia.
Qed.

(** One budget has one bound, scope and key. *)
Definition rules_agree (r1 r2 : Rule) : Prop :=
  budget_name r1 = budget_name r2 → RuleMax r1 = RuleMax r2 ∧ ScopeName r1 = ScopeName r2 ∧ Key r1 = Key r2.
(** Two rules that cap one thing at the two boundaries: the label is the name the
    exporter gives the key, and the family that of the instrument. *)
Record mirrors (r : Rule) (p : PrometheusRule) : Prop := {
  mirrors_label : PLabelName p = NormalizePrometheusLabelName (Key r);
  mirrors_family : ∃ unit, unit ∈ [ #"_seconds"; #"_total"]
                     ∧ PMetricName p = NormalizePrometheusLabelName (InstrumentName r) ++ unit;
  mirrors_max : PMax p = RuleMax r;
  mirrors_scope : PScopeName p = ScopeName r;
  mirrors_budget : PBudgetKey p = BudgetKey r;
}.

Ltac cap_rules cfg :=
  unfold otlpCapRules, prometheusCapRules; destruct (0 <? MaxUniqueRoutes cfg)%Z eqn:?,
    (0 <? MaxUniqueCollections cfg)%Z eqn:?; cbn [app].
Ltac family_by_computation :=
  first [exists #"_seconds"; split; [by left|by vm_compute] | exists #"_total"; split; [right; by left|by vm_compute]].

Lemma rules_mirror cfg : Forall2 mirrors (otlpCapRules cfg) (prometheusCapRules cfg).
Proof.
  cap_rules cfg; repeat constructor; family_by_computation.
Qed.

Lemma rules_usable cfg : Forall (λ r, usable_rule r = true ∧ Key r ≠ scopeNameLabel) (otlpCapRules cfg).
Proof.
  cap_rules cfg; repeat (apply Forall_cons; split); try apply Forall_nil_2;
    (split; [unfold usable_rule; cbn [InstrumentName Key RuleMax]; rewrite !bool_decide_false by done; cbn [orb]; unfold maxUniqueMongoPeers; lia|done]).
Qed.

Lemma prometheus_rules_usable cfg :
  Forall (λ p, usable_prometheus_rule p = true ∧ PLabelName p ≠ scopeNameLabel) (prometheusCapRules cfg).
Proof.
  cap_rules cfg; repeat (apply Forall_cons; split); try apply Forall_nil_2;
    (split; [unfold usable_prometheus_rule; cbn [PMetricName PLabelName PMax]; rewrite !bool_decide_false by done; cbn [orb]; unfold maxUniqueMongoPeers; lia|done]).
Qed.

Lemma rules_all_agree cfg : Forall (λ r1, Forall (rules_agree r1) (otlpCapRules cfg)) (otlpCapRules cfg).
Proof.
  cap_rules cfg; repeat (apply Forall_cons; split); try apply Forall_nil_2;
    intros Hb; first [by split_and! | exfalso; vm_compute in Hb; discriminate].
Qed.

Lemma prometheus_rules_agree cfg p1 p2 :
  p1 ∈ prometheusCapRules cfg → p2 ∈ prometheusCapRules cfg → p_budget_name p1 = p_budget_name p2 → PMax p1 = PMax p2.
Proof.
  assert (H : Forall (λ p1, Forall (λ p2, p_budget_name p1 = p_budget_name p2 → PMax p1 = PMax p2)
                (prometheusCapRules cfg)) (prometheusCapRules cfg)).
  { cap_rules cfg; repeat (apply Forall_cons; split); try apply Forall_nil_2;
      intros Hb; first [done | exfalso; vm_compute in Hb; discriminate]. }
  intros H1 H2. rewrite Forall_forall in H. specialize (H p1 H1). rewrite Forall_forall in H. by apply H.
Qed.

(** Rules that are all usable are those of their limiter. *)
Lemma NewLimiter_rules rs : Forall (λ r, usable_rule r = true) rs → rules (NewLimiter rs) = rs.
Proof.
  intros H. unfold NewLimiter. cbn [rules]. induction H as [|r rs Hr Hrs IH]; [done|].
  rewrite filter_cons, decide_True by done. by rewrite IH.
Qed.
Lemma newPrometheusLimiter_rules rs :
  Forall (λ p, usable_prometheus_rule p = true) rs → p_rules (newPrometheusLimiter rs) = rs.
Proof.
  intros H. unfold newPrometheusLimiter. cbn [p_rules]. induction H as [|r rs Hr Hrs IH]; [done|].
  rewrite filter_cons, decide_True by done. by rewrite IH.
Qed.

Section bounds.
Context `{S : AttributeSets} (Hnewset : AttributeSetsLaws S).
Context {F E T M : Type} `{NumF : !Number F}.

Lemma otlp_rule_bounded cfg (batches : list (list (ScopeMetrics (F := F) (E := E) (T := T) (M := M)))) r :
  r ∈ otlpCapRules cfg →
  ∃ values, NoDup values ∧ (Z.of_nat (length values) ≤ RuleMax r)%Z
  ∧ ∀ rm sm m set v, rm ∈ (Exports (NewLimiter (otlpCapRules cfg)) batches).2 → sm ∈ rm → m ∈ SMetrics sm →
      MName m = InstrumentName r → (ScopeName r = [] ∨ ScopeName r = SScope sm) →
      set ∈ sets_of (MData m) → (Key r, v) ∈ set → AsString v ∈ values ∨ AsString v = OverflowValue.
Proof.
  intros Hr. set (l := NewLimiter (otlpCapRules cfg)).
  pose proof (rules_usable cfg) as Hu. pose proof (rules_all_agree cfg) as Hag.
  assert (Hrules : rules l = otlpCapRules cfg).
  { apply NewLimiter_rules. eapply Forall_impl; [exact Hu|]. by intros ? [? _]. }
  pose proof (Exports_spec Hnewset l batches (NewLimiter_ok _)) as Hs. destruct (Exports l batches) as [l' out].
  destruct Hs as [[Hsame _ Hok] Hc]. specialize (Hok (NewLimiter_ok _)). cbn [snd].
  exists (default [] (MetricCap.seen <$> (buckets l' !! budget_name r))).
  assert (0 < RuleMax r)%Z as Hpos.
  { rewrite Forall_forall in Hu. destruct (Hu r Hr) as [Hur _]. unfold usable_rule in Hur.
    apply negb_true_iff, orb_false_iff in Hur as [_ ?]. lia. }
  split_and!.
  - destruct (buckets l' !! budget_name r) as [b|] eqn:Eb; [|constructor]. by apply (Hok _ _ Eb).
  - destruct (buckets l' !! budget_name r) as [b|] eqn:Eb; cbn [fmap option_fmap option_map default]; [|cbn; lia].
    destruct (Hok _ _ Eb) as ([Hlen _] & r' & Hr' & Hn & Hm). rewrite Hsame, Hrules in Hr'.
    rewrite Forall_forall in Hag. specialize (Hag r' Hr'). rewrite Forall_forall in Hag.
    destruct (Hag r Hr Hn) as [Emax _]. unfold room in Hm. rewrite Emax in Hm. unfold id. lia.
  - intros rm sm m set v Hrm Hsm Hm Hname Hscope Hset Hv. rewrite !Forall_forall in Hc.
    specialize (Hc rm Hrm). rewrite Forall_forall in Hc. specialize (Hc sm Hsm). unfold scope_capped in Hc.
    rewrite Forall_forall in Hc. destruct (Hc m Hm r set) as (b & Hb & Hcap); [|done|].
    { apply list_elem_of_filter. rewrite Hsame, Hrules. by split. }
    rewrite Hb. cbn. by apply (Hcap (Key r, v)).
Qed.

Context {F' X : Type} `{Fl : !Float F'} `{So : !SortBuckets F' X}.

Lemma prometheus_rule_bounded cfg (scrapes : list (list (MetricFamily F' X))) r p :
  r ∈ otlpCapRules cfg → p ∈ prometheusCapRules cfg → mirrors r p →
  ∃ values, NoDup values ∧ (Z.of_nat (length values) ≤ RuleMax r)%Z
  ∧ ∀ fs f m v, fs ∈ (Gathers (newPrometheusLimiter (prometheusCapRules cfg)) scrapes).2 → f ∈ fs → m ∈ FMetric f →
      GetFamilyName f = PMetricName p → (ScopeName r = [] ∨ prometheusLabel m scopeNameLabel = ScopeName r) →
      label_of (Label m) (NormalizePrometheusLabelName (Key r)) = Some v → v ∈ values ∨ v = OverflowValue.
Proof.
  intros Hr Hp [Hlabel _ Hmax Hscope Hbudget]. set (l := newPrometheusLimiter (prometheusCapRules cfg)).
  pose proof (prometheus_rules_usable cfg) as Hu.
  assert (Hrules : p_rules l = prometheusCapRules cfg).
  { apply newPrometheusLimiter_rules. eapply Forall_impl; [exact Hu|]. by intros ? [? _]. }
  assert (Hns : no_scope_label l).
  { intros q. rewrite Hrules. rewrite Forall_forall in Hu. intros Hq. by apply Hu. }
  pose proof (Gathers_spec l scrapes Hns (newPrometheusLimiter_ok _)) as Hs.
  destruct (Gathers l scrapes) as [l' out]. destruct Hs as ([Hsame _ Hok] & Hc & _).
  specialize (Hok (newPrometheusLimiter_ok _)). cbn [snd].
  exists (default [] (MetricCap.seen <$> (p_buckets l' !! p_budget_name p))).
  assert (0 < PMax p)%Z as Hpos.
  { rewrite Forall_forall in Hu. destruct (Hu p Hp) as [Hur _]. unfold usable_prometheus_rule in Hur.
    apply negb_true_iff, orb_false_iff in Hur as [_ ?]. lia. }
  split_and!.
  - destruct (p_buckets l' !! p_budget_name p) as [b|] eqn:Eb; [|constructor]. by apply (Hok _ _ Eb).
  - destruct (p_buckets l' !! p_budget_name p) as [b|] eqn:Eb; cbn [fmap option_fmap option_map default];
      [|cbn; lia].
    destruct (Hok _ _ Eb) as ([Hlen _] & q & Hq & Hn & Hm). rewrite Hsame, Hrules in Hq.
    assert (PMax q = PMax p) as Eq by (by apply (prometheus_rules_agree cfg)).
    unfold p_room in Hm. rewrite Eq in Hm. unfold id. lia.
  - intros fs f m v Hfs Hf Hm Hname Hsc Hv. rewrite !Forall_forall in Hc.
    specialize (Hc fs Hfs). rewrite Forall_forall in Hc. specialize (Hc f Hf p).
    rewrite Hsame, Hrules, Forall_forall in Hc. destruct (Hc Hp (eq_sym Hname) m Hm) as (b & Hb & Hcap).
    rewrite Hb. cbn. apply Hcap; [|by rewrite Hlabel]. unfold scope_matches. rewrite Hscope.
    apply orb_true_iff. rewrite !bool_decide_eq_true. exact Hsc.
Qed.

(** * Properties *)

(** C19: the guard the configuration promises, at either boundary. Whatever is
    exported or scraped, and for every cap the configuration sets (routes,
    collections, MongoDB peers), there is a list of at most as many values as
    the cap that holds every value the capped attribute, or its label, ever has
    on the capped instrument of the capped scope, but for the overflow value. *)
Theorem cardinality_capped (cfg : Config) (i : nat) (r : Rule) (p : PrometheusRule)
    (batches : list (list (ScopeMetrics (F := F) (E := E) (T := T) (M := M))))
    (scrapes : list (list (MetricFamily F' X))) :
  otlpCapRules cfg !! i = Some r → prometheusCapRules cfg !! i = Some p →
  (∃ values, NoDup values ∧ (Z.of_nat (length values) ≤ RuleMax r)%Z
   ∧ ∀ rm sm m set v, rm ∈ (Exports (NewLimiter (otlpCapRules cfg)) batches).2 → sm ∈ rm → m ∈ SMetrics sm →
       MName m = InstrumentName r → (ScopeName r = [] ∨ ScopeName r = SScope sm) →
       set ∈ sets_of (MData m) → (Key r, v) ∈ set → AsString v ∈ values ∨ AsString v = OverflowValue)
  ∧ ∃ values, NoDup values ∧ (Z.of_nat (length values) ≤ RuleMax r)%Z
    ∧ ∀ fs f m v, fs ∈ (Gathers (newPrometheusLimiter (prometheusCapRules cfg)) scrapes).2 → f ∈ fs → m ∈ FMetric f →
        GetFamilyName f = PMetricName p → (ScopeName r = [] ∨ prometheusLabel m scopeNameLabel = ScopeName r) →
        label_of (Label m) (NormalizePrometheusLabelName (Key r)) = Some v → v ∈ values ∨ v = OverflowValue.
Proof.
  intros Hr Hp. pose proof (Forall2_lookup_lr _ _ _ _ _ _ (rules_mirror cfg) Hr Hp) as Hm.
  apply list_elem_of_lookup_2 in Hr, Hp. split; [by apply otlp_rule_bounded|].
  by apply (prometheus_rule_bounded cfg scrapes r p).
Qed.
End bounds.

(** The rules of the two boundaries are one set of caps: pair by pair they
    have one bound, scope and budget, the label of the one is what the exporter
    renders the key of the other as and the family what it renders the
    instrument as; each is one its limiter uses; and the rules that share a
    budget agree on its bound, its scope and its key. *)
Theorem cap_rules_mirror (cfg : Config) :
  Forall2 mirrors (otlpCapRules cfg) (prometheusCapRules cfg)
  ∧ rules (NewLimiter (otlpCapRules cfg)) = otlpCapRules cfg
  ∧ p_rules (newPrometheusLimiter (prometheusCapRules cfg)) = prometheusCapRules cfg
  ∧ Forall (λ r1, Forall (rules_agree r1) (otlpCapRules cfg)) (otlpCapRules cfg).
Proof.
  split_and!; [apply rules_mirror| | |apply rules_all_agree].
  - apply NewLimiter_rules. eapply Forall_impl; [apply rules_usable|]. by intros ? [? _].
  - apply newPrometheusLimiter_rules. eapply Forall_impl; [apply prometheus_rules_usable|]. by intros ? [? _].
Qed.

(** The SDK's limit on a stream never overflows an int and never falls under
    the SDK's own series: an override wins, but for the minimum; without one the
    limit is the default, or four for each route or collection if that is more,
    saturating at the largest int; so raising a cap never lowers it. *)
Theorem cardinalityLimitBudget_spec (routes collections override : Z) :
  cardinalityLimitBudget routes collections override
  = (if decide (0 < override)%Z then Z.max override 4
     else Z.max 2000 (Z.min int64_max (4 * Z.max routes collections)))
  ∧ (4 ≤ cardinalityLimitBudget routes collections override)%Z
  ∧ ((override ≤ int64_max)%Z → (cardinalityLimitBudget routes collections override ≤ int64_max)%Z).
Proof.
  unfold cardinalityLimitBudget, MinCardinalityLimit, DefaultCardinalityLimit, sdkCardinalityCapMultiplier.
  rewrite !scaleBudget_spec. unfold int64_max. destruct (0 <? override)%Z eqn:E.
  - rewrite decide_True by lia. lia.
  - rewrite decide_False by lia. lia.
Qed.

(** * A configuration *)
Definition shipped : Config := {| MaxUniqueRoutes := 1000; MaxUniqueCollections := 200; CardinalityLimit := 0 |}.
#[local] Instance no_sets : AttributeSets := λ kvs, kvs.
#[local] Instance no_sets_laws : AttributeSetsLaws no_sets.
Proof. by intros kv kvs. Qed.

Lemma cardinalityLimitBudget_spec_witness :
  cardinalityLimitBudget 1000 200 0 = 4000%Z ∧ (cardinalityLimitBudget (2 ^ 62) 0 0 ≤ int64_max)%Z.
Proof.
  destruct (cardinalityLimitBudget_spec 1000 200 0) as [E _].
  destruct (cardinalityLimitBudget_spec (2 ^ 62) 0 0) as (_ & _ & H). split; [exact E|].
  apply H. vm_compute. discriminate.
Defined.

Lemma cardinality_capped_witness :
  ∃ r, otlpCapRules shipped !! 0 = Some r ∧ RuleMax r = 1000%Z
  ∧ ∃ values, NoDup values ∧ (Z.of_nat (length values) ≤ 1000)%Z
    ∧ ∀ rm sm m set v,
        rm ∈ (Exports (S := no_sets) (NewLimiter (otlpCapRules shipped)) sample_batches).2 → sm ∈ rm → m ∈ SMetrics sm →
        MName m = InstrumentName r → (ScopeName r = [] ∨ ScopeName r = SScope sm) →
        set ∈ sets_of (MData m) → (Key r, v) ∈ set → AsString v ∈ values ∨ AsString v = OverflowValue.
Proof.
  eexists. split; [reflexivity|]. split; [reflexivity|].
  exact (proj1 (cardinality_capped (Fl := sample_float) (So := sample_sort) no_sets_laws shipped 0 _ _ sample_batches
                 [sample_scrape] eq_refl eq_refl)).
Defined.
