(* ===== verification/Shutdown.v ===== *)
(** o11y.go, the sequential side of Shutdown, ForceFlush and Init: which
    components are closed, in which order, under which deadline, and what becomes
    of their errors. Times are nanoseconds on one clock; a component is what it
    answers to a call, when it starts and by when it is asked to be done. *)
From S2P Require Import Prelude Utf8 GoStrings GoNum GoCodec SampleLib RedactDecode RedactText RedactSecrets RedactError.

(** A context is its deadline, if it has one. *)
Abbreviation context := (option Z).
(** context.WithTimeout: never later than the context it derives from. *)
Definition WithTimeout (now : Z) (ctx : context) (d : Z) : context :=
  Some (match ctx with Some deadline => Z.min deadline (now + d) | None => now + d end)%Z.

Definition shutdownBudget (now : Z) (ctx : context) (remaining : Z) : context :=
  match ctx with
  | None => ctx
  | Some deadline =>
    if (remaining <=? 1)%Z then ctx
    else
      let share := Z.quot (Sub deadline now) remaining in
      if (share <=? 0)%Z then ctx else WithTimeout now ctx share
  end.

(** A closer or a flusher: from when it is called and its context, when it
    returns and its error. *)
Definition component := Z → context → Z * option eref.

(** nonNil, and the order of the components Shutdown closes. *)
Definition nonNil {A} (fns : list (option A)) : list A := omap id fns.
Definition shutdownSequence {A} (profiler traces logs metricsServer meter : option A) : list A :=
  nonNil [profiler; traces; logs; metricsServer; meter].

(** One component's run. *)
Record closing := { started : Z; allowed : context; finished : Z; failure : option eref }.

(** The loop over the components: each under a share of what is left. *)
Fixpoint close_each (now : Z) (ctx : context) (shutdowns : list component) : list closing :=
  match shutdowns with
  | [] => []
  | fn :: rest =>
    let closerCtx := shutdownBudget now ctx (Z.of_nat (length shutdowns)) in
    let '(finish, err) := fn now closerCtx in
    {| started := now; allowed := closerCtx; finished := finish; failure := err |} :: close_each finish ctx rest
  end.

(** waitFlushes until [flushed], when the flushes in progress are done, or until
    the share of the wait is over. *)
Definition waited (now : Z) (ctx : context) (components : Z) (running : nat) (flushed : Z) : Z :=
  match ctx with
  | Some _ =>
    if decide (0 < running) then
      match shutdownBudget now ctx (components + 1) with
      | Some until => Z.max now (Z.min flushed until)
      | None => Z.max now flushed
      end
    else now
  | None => now
  end.

(** flushConcurrently: every flusher under one context; the errors in flusher
    order. It is over when the last one is. *)
Definition flushConcurrently (now : Z) (ctx : context) (flushers : list component) : Z * list eref :=
  (foldr Z.max now ((λ fn : component, (fn now ctx).1) <$> flushers),
   omap (λ fn : component, (fn now ctx).2) flushers).

Section redacted.
Context `{L : GoLib, S : GoSort} (σ : error_store) (endpoints secrets : list bytes).

(** redactError *)
Definition redactError (err : eref) : returned := Error σ (Some err) endpoints secrets.

(** What Shutdown does, and the errors it joins. *)
Definition Shutdown (now : Z) (ctx : context) (shutdowns : list component) (running : nat) (flushed : Z) :
    list closing * list returned :=
  let closings := close_each (waited now ctx (Z.of_nat (length shutdowns)) running flushed) ctx shutdowns in
  (closings, redactError <$> omap failure closings).

Definition ForceFlush (now : Z) (ctx : context) (flushSignals : list component) (flushMetrics : option component) :
    Z * list returned :=
  let stages := match flushMetrics with Some _ => 2%Z | None => 1%Z end in
  let '(now, errs) :=
    if bool_decide (flushSignals = []) then (now, [])
    else flushConcurrently now (shutdownBudget now ctx stages) flushSignals in
  let '(now, errs) :=
    match flushMetrics with
    | Some fn => let '(finish, err) := fn now ctx in (finish, errs ++ option_list err)
    | None => (now, errs)
    end in
  (now, redactError <$> errs).
End redacted.

(** * Init: what is built, and what is closed when building fails *)
Inductive built (A : Type) := Disabled | Failed (err : bytes) | Built (part : A).
Arguments Disabled {A}. Arguments Failed {A}. Arguments Built {A}.
(** A tracer or logger provider, and a meter provider: what shuts it down and
    what flushes it; the meter has a scrape server's closer on the pull path. *)
Record provider (A : Type) := { p_shutdown : A; p_flush : A }.
Arguments p_shutdown {A}. Arguments p_flush {A}.
Record meter (A : Type) := { m_closer : option A; m_provider : provider A }.
Arguments m_closer {A}. Arguments m_provider {A}.
(** profiling.Start: another profiler runs in the process, which is an error of
    Init, or it did not start, which is a warning. *)
Inductive profiler (A : Type) := ProfilerOff | AlreadyStarted (err : bytes) | StartFailed | Started (closer : A).
Arguments ProfilerOff {A}. Arguments AlreadyStarted {A}. Arguments StartFailed {A}. Arguments Started {A}.

Inductive initialized (A : Type) :=
  | InitFailed (err : bytes) (closed : list A)
  | InitOk (shutdowns flushSignals : list A) (flushMetrics : option A) (profiling : bool).
Arguments InitFailed {A}. Arguments InitOk {A}.

Section init.
Context {A : Type}.

Definition part_of {B} (b : built B) : option B := match b with Built part => Some part | _ => None end.
Definition started_profiler (p : profiler A) : option A := match p with Started closer => Some closer | _ => None end.
Definition closeAll (closers : list (option A)) : list A := nonNil closers.

(** The providers of Init, in the order it builds them. *)
Definition Init_providers (push : bool) (trace : built (provider A)) (metrics : built (meter A))
    (log : built (provider A)) (profiling : profiler A) : initialized A :=
  let tpShutdown := p_shutdown <$> part_of trace in
  let metricsCloser := part_of metrics ≫= m_closer in
  let mpShutdown := p_shutdown ∘ m_provider <$> part_of metrics in
  let lpShutdown := p_shutdown <$> part_of log in
  match trace with
  | Failed err => InitFailed err []
  | _ =>
    match metrics with
    | Failed err => InitFailed err (closeAll [tpShutdown])
    | _ =>
      match log with
      | Failed err => InitFailed err (closeAll [metricsCloser; mpShutdown; tpShutdown])
      | _ =>
        match profiling with
        | AlreadyStarted err => InitFailed err (closeAll [metricsCloser; mpShutdown; lpShutdown; tpShutdown])
        | _ =>
          InitOk (shutdownSequence (started_profiler profiling) tpShutdown lpShutdown metricsCloser mpShutdown)
            (nonNil [p_flush <$> part_of trace; p_flush <$> part_of log])
            (if push then p_flush ∘ m_provider <$> part_of metrics else None)
            (match profiling with Started _ => true | _ => false end)
        end
      end
    end
  end.

(** What Init had built when it stopped. *)
Definition closers_built (trace : built (provider A)) (metrics : built (meter A)) (log : built (provider A))
    (profiling : profiler A) : list A :=
  match trace with
  | Failed _ => []
  | _ => option_list (p_shutdown <$> part_of trace)
    ++ match metrics with
       | Failed _ => []
       | _ => option_list (part_of metrics ≫= m_closer) ++ option_list (p_shutdown ∘ m_provider <$> part_of metrics)
         ++ match log with
            | Failed _ => []
            | _ => option_list (p_shutdown <$> part_of log) ++ option_list (started_profiler profiling)
            end
       end
  end.

(** Init leaks no component. When it fails, what it closes is what it had
    built by then, each once; when it succeeds, what Shutdown will close is
    exactly that, the profiler before the tracer it wraps, traces and logs
    before the scrape server, and the meter provider, whose shutdown makes the
    last collection, at the end; ForceFlush flushes the providers of the enabled
    signals, and the meter provider on the push path only. *)
Theorem Init_no_leak (push : bool) (trace : built (provider A)) (metrics : built (meter A))
    (log : built (provider A)) (profiling : profiler A) :
  match Init_providers push trace metrics log profiling with
  | InitFailed err closed =>
    closed ≡ₚ closers_built trace metrics log profiling
    ∧ (trace = Failed err ∨ metrics = Failed err ∨ log = Failed err ∨ profiling = AlreadyStarted err)
  | InitOk shutdowns flushSignals flushMetrics profiled =>
    shutdowns ≡ₚ closers_built trace metrics log profiling
    ∧ shutdowns = option_list (started_profiler profiling) ++ option_list (p_shutdown <$> part_of trace)
        ++ option_list (p_shutdown <$> part_of log) ++ option_list (part_of metrics ≫= m_closer)
        ++ option_list (p_shutdown ∘ m_provider <$> part_of metrics)
    ∧ flushSignals = option_list (p_flush <$> part_of trace) ++ option_list (p_flush <$> part_of log)
    ∧ (is_Some flushMetrics ↔ push = true ∧ is_Some (part_of metrics))
    ∧ (profiled = true ↔ is_Some (started_profiler profiling))
  end.
Proof.
  destruct trace as [|e|t], metrics as [|e1|[[c|] m]], log as [|e2|l], profiling as [|e3| |p], push;
    cbn; rewrite ?is_Some_alt; cbn; repeat split; auto; try naive_solver; try solve_Permutation.
Qed.
End init.

(** * Shares of a deadline *)

(** A component that keeps to its context: it is not over before it starts, and
    not later than its deadline, if it started by then. *)
Definition keeps_to (fn : component) : Prop :=
  ∀ now ctx, (now ≤ (fn now ctx).1)%Z ∧ ∀ d, ctx = Some d → (now ≤ d)%Z → ((fn now ctx).1 ≤ d)%Z.

(** A share of the time left is at least one in [remaining], and leaves the rest. *)
Lemma shutdownBudget_share now D remaining :
  (0 < remaining)%Z → (now ≤ D)%Z → (D - now ≤ int64_max)%Z →
  ∃ d, shutdownBudget now (Some D) remaining = Some d ∧ (now ≤ d ≤ D)%Z
       ∧ ((D - now) / remaining ≤ d - now)%Z
       ∧ ((D - now) * (remaining - 1) ≤ (D - d) * remaining ∨ D - now < remaining)%Z.
Proof.
  intros Hr Hnow Hmax. unfold shutdownBudget, Sub, int64_min. replace (Z.max _ _) with (D - now)%Z by lia.
  destruct (remaining <=? 1)%Z eqn:E1.
  { exists D. assert (remaining = 1)%Z as -> by lia. rewrite Z.div_1_r. split_and!; [done|lia|lia|lia|lia]. }
  rewrite Z.quot_div_nonneg by lia. pose proof (Z.div_mod (D - now) remaining ltac:(lia)) as Hdm.
  pose proof (Z.mod_pos_bound (D - now) remaining Hr) as Hmod.
  destruct ((D - now) / remaining <=? 0)%Z eqn:E2.
  { exists D. split_and!; [done|lia|lia|lia|]. right. nia. }
  exists (now + (D - now) / remaining)%Z. unfold WithTimeout.
  assert (now + (D - now) / remaining ≤ D)%Z by nia. rewrite Z.min_r by lia.
  split_and!; [done|lia|lia|lia|]. left. nia.
Qed.

(** The time before [D] is shared evenly: at least [budget / total] for each,
    where the components to go have their part of it left. *)
Definition fair (D budget total : Z) (remaining : nat) (now : Z) : Prop :=
  (now ≤ D)%Z ∧ (budget * Z.of_nat remaining ≤ (D - now) * total ∨ budget < total)%Z.

Lemma fair_share D budget total n now :
  (0 ≤ budget)%Z → (0 < total)%Z → (Z.of_nat (S n) ≤ total)%Z → (D - now ≤ int64_max)%Z →
  fair D budget total (S n) now →
  ∃ d, shutdownBudget now (Some D) (Z.of_nat (S n)) = Some d ∧ (now ≤ d ≤ D)%Z ∧ (budget / total ≤ d - now)%Z
       ∧ ∀ finish, (now ≤ finish ≤ d)%Z → fair D budget total n finish.
Proof.
  intros Hb Ht Hn Hmax [Hnow Hf].
  destruct (shutdownBudget_share now D (Z.of_nat (S n))) as (d & Hd & Hrange & Hshare & Hrest); [lia..|].
  exists d. split_and!; [done|lia|lia| |].
  - destruct Hf as [Hf|Hf]; [|rewrite Z.div_small by lia; lia]. etrans; [|exact Hshare].
    apply Z.div_le_lower_bound; [lia|]. pose proof (Z.mul_div_le budget total Ht). nia.
  - intros finish Hfin. split; [lia|]. destruct Hf as [Hf|Hf]; [|by right].
    destruct (decide (budget < total)%Z); [by right|left].
    destruct Hrest as [Hrest|Hrest]; [|nia].
    assert (D - d ≤ D - finish)%Z by lia.
    set (k := Z.of_nat n) in *. assert (Z.of_nat (S n) = k + 1)%Z as Hk by lia. rewrite Hk in *.
    replace (k + 1 - 1)%Z with k in Hrest by lia.
    pose proof (Z.mul_le_mono_nonneg_r _ _ k ltac:(lia) Hf) as H1.
    pose proof (Z.mul_le_mono_nonneg_r _ _ total ltac:(lia) Hrest) as H2.
    assert (((D - d) * (k + 1) * total ≤ (D - finish) * (k + 1) * total)%Z) as H3 by (do 2 (apply Z.mul_le_mono_nonneg_r; [lia|]); lia).
    apply (Z.mul_le_mono_pos_r _ _ (k + 1)); lia.
Qed.

Lemma close_each_length now ctx cs : length (close_each now ctx cs) = length cs.
Proof.
  revert now. induction cs as [|c cs IH]; intros now; [done|]. cbn [close_each].
  destruct (c now _) as [finish err]. cbn [length]. by rewrite IH.
Qed.

(** Each component is run once, in order, from when the one before it is over. *)
Lemma close_each_lookup now ctx cs i cl :
  close_each now ctx cs !! i = Some cl →
  ∃ fn, cs !! i = Some fn ∧ fn (started cl) (allowed cl) = (finished cl, failure cl)
    ∧ allowed cl = shutdownBudget (started cl) ctx (Z.of_nat (length cs - i))
    ∧ match i with
      | 0 => started cl = now
      | S j => ∃ before, close_each now ctx cs !! j = Some before ∧ started cl = finished before
      end.
Proof.
  revert now i. induction cs as [|c cs IH]; intros now i; [done|]. cbn [close_each].
  destruct (c now _) as [finish err] eqn:Ec. destruct i as [|i].
  - intros [= <-]. exists c. by cbn.
  - intros Hi. destruct (IH finish i Hi) as (fn & Hfn & Hrun & Hall & Hstart). exists fn.
    split_and!; [done|done|done|]. destruct i as [|j].
    + eexists. split; [reflexivity|]. by cbn.
    + destruct Hstart as (b & Hb & Hs). exists b. by cbn.
Qed.

Lemma close_each_fair D budget total now cs :
  (0 ≤ budget ≤ int64_max)%Z → (0 < total)%Z → (Z.of_nat (length cs) ≤ total)%Z → (D - now ≤ budget)%Z →
  Forall keeps_to cs → fair D budget total (length cs) now →
  Forall (λ cl, ∃ d, allowed cl = Some d ∧ (now ≤ started cl ≤ finished cl)%Z ∧ (finished cl ≤ d ≤ D)%Z
                     ∧ (budget / total ≤ d - started cl)%Z) (close_each now (Some D) cs).
Proof.
  intros Hb Ht. revert now. induction cs as [|c cs IH]; intros now Hlen Hmax Hk Hf; [constructor|].
  apply Forall_cons in Hk as [Hc Hk]. cbn [length] in *.
  destruct (fair_share D budget total (length cs) now) as (d & Hd & Hr & Hs & Hrest); [lia..|done|].
  cbn [close_each length]. rewrite Hd. destruct (Hc now (Some d)) as [Hle Hby].
  destruct (c now (Some d)) as [finish err]. cbn [fst] in *. specialize (Hby d eq_refl ltac:(lia)).
  constructor.
  - exists d. cbn. split_and!; [done|lia|lia|lia|lia|lia].
  - eapply Forall_impl; [apply (IH finish); [lia|lia|done|apply Hrest; lia]|].
    intros cl (d' & ? & ? & ? & ?). exists d'. split_and!; [done|lia..].
Qed.

Section properties.
Context `{L : GoLib, S : GoSort} (σ : error_store) (endpoints secrets : list bytes).

(** C9: Shutdown's deadline is shared out. If every component keeps to its context
    then each runs within the deadline, one after the other, under a deadline of
    its own that is at least an even share of the whole time away when it
    starts, the wait for the flushes in progress counted as one component more;
    whatever the components before it used of theirs. *)
Theorem Shutdown_fair (now D : Z) (shutdowns : list component) (running : nat) (flushed : Z) :
  (0 ≤ D - now ≤ int64_max)%Z → (now ≤ flushed)%Z → Forall keeps_to shutdowns →
  let closings := (Shutdown σ endpoints secrets now (Some D) shutdowns running flushed).1 in
  length closings = length shutdowns
  ∧ Forall (λ cl, ∃ d, allowed cl = Some d ∧ (now ≤ started cl ≤ finished cl)%Z ∧ (finished cl ≤ d ≤ D)%Z
       ∧ ((D - now) / (Z.of_nat (length shutdowns) + if decide (0 < running)%nat then 1 else 0)
          ≤ d - started cl)%Z) closings.
Proof.
  intros Hb Hfl Hk. cbn [Shutdown fst]. unfold Shutdown. cbn [fst]. split; [apply close_each_length|].
  destruct shutdowns as [|c0 cs0] eqn:Ecs; [constructor|]. rewrite <- Ecs in *.
  assert (0 < length shutdowns) as Hpos by (rewrite Ecs; cbn; lia). clear Ecs.
  unfold waited. destruct (decide (0 < running)).
  - destruct (fair_share D (D - now) (Z.of_nat (length shutdowns) + 1) (length shutdowns) now)
      as (d & Hd & Hr & Hs & Hrest); [lia..| |]. { split; [lia|left; nia]. }
    replace (Z.of_nat (Datatypes.S (length shutdowns))) with (Z.of_nat (length shutdowns) + 1)%Z in Hd by lia.
    rewrite Hd. set (w := Z.max now (Z.min flushed d)). assert (now ≤ w ≤ d)%Z as Hw by lia. clearbody w.
    eapply Forall_impl; [apply (close_each_fair D (D - now) (Z.of_nat (length shutdowns) + 1) w);
      [lia|lia|lia|lia|done|by apply Hrest]|].
    intros cl (d' & ? & ? & ? & ?). exists d'. split_and!; [done|lia..].
  - rewrite Z.add_0_r. apply close_each_fair; [lia|lia|lia|lia|done|]. split; [lia|left; lia].
Qed.

(** Shutdown attempts every component, once and in order, whatever fails and
    however long it takes, each when the one before is over; without a deadline
    each runs under the context as it was given. The errors it joins are those
    of the components that failed, in that order, and each is one that shows no
    credential and still is the component's error to errors.Is. *)
Theorem Shutdown_errors (Hlaws : GoLibLaws L) (now : Z) (ctx : context) (shutdowns : list component)
    (running : nat) (flushed : Z) :
  let '(closings, errs) := Shutdown σ endpoints secrets now ctx shutdowns running flushed in
  length closings = length shutdowns
  ∧ (∀ i cl, closings !! i = Some cl →
       ∃ fn, shutdowns !! i = Some fn ∧ fn (started cl) (allowed cl) = (finished cl, failure cl)
         ∧ (ctx = None → allowed cl = None)
         ∧ ∀ j, i = Datatypes.S j → ∃ before, closings !! j = Some before ∧ started cl = finished before)
  ∧ Forall2 (λ err res, returned_cause res = Some err
       ∧ ∃ m, returned_message σ res = Some m ∧ holdsUnaccountedCredential m = false) (omap failure closings) errs.
Proof.
  unfold Shutdown. split_and!; [apply close_each_length| |].
  - intros i cl Hi. apply close_each_lookup in Hi as (fn & Hfn & Hrun & Hall & Hstart). exists fn.
    split_and!; [done|done|by intros ->|]. intros j ->. exact Hstart.
  - generalize (omap failure (close_each (waited now ctx (Z.of_nat (length shutdowns)) running flushed) ctx shutdowns)).
    intros errs. induction errs as [|e errs IH]; cbn [fmap list_fmap]; constructor; [|done].
    destruct (Error_clean Hlaws σ e endpoints secrets) as (m & ? & ? & ?). eauto.
Qed.

(** ForceFlush runs every flusher, the traces and logs under one share of the
    deadline, then the metrics under the whole of it, when the others are over:
    the errors are those of the flushers that failed, traces, logs and metrics,
    each redacted. If the flushers keep to their contexts and there is a
    deadline, the signals have at least half the time when metrics follow and
    metrics at least half, and all of it is used by then at most. *)
Theorem ForceFlush_spec (now : Z) (ctx : context) (flushSignals : list component) (flushMetrics : option component) :
  flushSignals ≠ [] →
  let stage := shutdownBudget now ctx (match flushMetrics with Some _ => 2 | None => 1 end) in
  let between := foldr Z.max now ((λ fn : component, (fn now stage).1) <$> flushSignals) in
  let errs := omap (λ fn : component, (fn now stage).2) flushSignals in
  ForceFlush σ endpoints secrets now ctx flushSignals flushMetrics
  = (match flushMetrics with Some fn => (fn between ctx).1 | None => between end,
     redactError σ endpoints secrets <$> errs
       ++ match flushMetrics with Some fn => option_list (fn between ctx).2 | None => [] end)
  ∧ ∀ D, ctx = Some D → (0 ≤ D - now ≤ int64_max)%Z → Forall keeps_to flushSignals →
      ∃ d, stage = Some d ∧ (now ≤ between ≤ d)%Z ∧ (d ≤ D)%Z ∧ (between ≤ D)%Z
      ∧ match flushMetrics with
        | Some fn => ((D - now) / 2 ≤ d - now)%Z ∧ ((D - now) / 2 ≤ D - between ∨ D - now < 2)%Z
            ∧ (keeps_to fn → ((fn between ctx).1 ≤ D)%Z)
        | None => d = D
        end.
Proof.
  intros Hne. cbv zeta. split.
  - unfold ForceFlush, flushConcurrently. rewrite bool_decide_false by done.
    destruct flushMetrics as [fn|]; cbn [fst snd]; [|by rewrite app_nil_r].
    set (b := foldr _ _ _). by destruct (fn b ctx) as [finish [e|]].
  - intros D -> Hb Hk.
    destruct (shutdownBudget_share now D (match flushMetrics with Some _ => 2 | None => 1 end))
      as (d & Hd & Hr & Hs & Hrest); [by destruct flushMetrics|lia|lia|].
    rewrite Hd. set (between := foldr _ _ _).
    assert (now ≤ between ≤ d)%Z as Hbt.
    { unfold between. clear Hne between. induction Hk as [|fn fns Hfn Hk IH]; cbn [fmap list_fmap foldr]; [lia|].
      destruct (Hfn now (Some d)) as [Hle Hby]. specialize (Hby d eq_refl ltac:(lia)). lia. }
    exists d. split_and!; [done|lia|lia|lia|lia|]. destruct flushMetrics as [fn|]; cycle 1.
    { unfold shutdownBudget in Hd. cbn in Hd. congruence. }
    split_and!; [lia| |].
    + destruct Hrest as [Hrest|Hrest]; [left|by right]. apply Z.div_le_upper_bound; lia.
    + intros Hfn. destruct (Hfn between (Some D)) as [_ H]. apply H; [done|lia].
Qed.
End properties.

(** * A shutdown *)

(** A component that takes its time, up to its deadline. *)
Definition sample_component (t : Z) (err : option eref) : component :=
  λ now ctx, (match ctx with Some d => Z.max now (Z.min d (now + t)) | None => Z.max now (now + t) end, err).

Lemma sample_keeps_to t err : keeps_to (sample_component t err).
Proof. intros now [d|]; unfold sample_component; cbn; split; [lia|intros d' [= <-]; lia|lia|done]. Qed.

Definition sample_components : list component :=
  [sample_component 1000 None; sample_component 10 (Some 1%positive); sample_component 1000 None].

Lemma sample_components_keep : Forall keeps_to sample_components.
Proof. repeat constructor; apply sample_keeps_to. Qed.

Lemma Shutdown_fair_witness :
  (λ cl, (started cl, finished cl)) <$> (Shutdown (L := sample_lib) proxy_store [] [] 0 (Some 300%Z) sample_components 0 0).1
  = [(0, 100); (100, 110); (110, 300)]%Z
  ∧ Forall (λ cl, ∃ d, allowed cl = Some d ∧ (100 ≤ d - started cl)%Z)
      (Shutdown (L := sample_lib) proxy_store [] [] 0 (Some 300%Z) sample_components 0 0).1.
Proof.
  split; [reflexivity|].
  destruct (Shutdown_fair (L := sample_lib) proxy_store [] [] 0 300 sample_components 0 0) as [_ H];
    [vm_compute; split; discriminate|lia|apply sample_components_keep|].
  eapply Forall_impl; [exact H|]. intros cl (d & Hd & _ & _ & Hs). exists d. split; [exact Hd|exact Hs].
Defined.

Lemma Shutdown_errors_witness :
  ∃ m, returned_message proxy_store (redactError (L := sample_lib) proxy_store [] [] 1%positive) = Some m
       ∧ holdsUnaccountedCredential m = false.
Proof.
  pose proof (Shutdown_errors (L := sample_lib) proxy_store [] [] sample_laws 0 None sample_components 0 0) as H.
  destruct H as (_ & _ & H). apply Forall2_cons_1 in H as [[_ H] _]. exact H.
Defined.

Lemma ForceFlush_spec_witness :
  ForceFlush (L := sample_lib) proxy_store [] [] 0 (Some 100%Z) [sample_component 1000 None] (Some (sample_component 10 None))
  = (60%Z, [])
  ∧ ∃ d, shutdownBudget 0 (Some 100%Z) 2 = Some d ∧ (50 ≤ d)%Z.
Proof.
  split; [reflexivity|].
  destruct (ForceFlush_spec (L := sample_lib) proxy_store [] [] 0 (Some 100%Z) [sample_component 1000 None]
              (Some (sample_component 10 None)) ltac:(done)) as [_ H].
  destruct (H 100%Z eq_refl) as (d & Hd & _ & _ & _ & Hhalf & _).
  - vm_compute; split; discriminate.
  - constructor; [apply sample_keeps_to|constructor].
  - exists d. split; [exact Hd|]. change ((100 - 0) / 2)%Z with 50%Z in Hhalf. lia.
Defined.
