(* ===== verification/Lifecycle.v ===== *)
(** o11y.go, the concurrent side of Shutdown and ForceFlush: any number of calls
    of either, interleaved. Each step is what one goroutine does under the mutex,
    on the wait group or between them; the work of a flush and of a component is
    a step that may come at any time after it has begun. *)
From S2P Require Import Prelude.
From Stdlib Require Import Relations.Relation_Operators.

(** Where the one run of Shutdown's once body is. *)
Inductive phase := NotCalled | Waiting | Closing (todo : nat) | Returned.

Record state := {
  (* calls of ForceFlush: not made yet, exporting, off the count but not yet off
     the wait group, turned away, over *)
  fresh : nat; inside : nat; leaving : nat; refused : nat; flushed : nat;
  (* the fields flushMu guards, and the wait group *)
  shutdownStarted : bool; flushesRunning : nat; flushing : nat;
  (* Shutdown: the once body, the calls it has not answered and those it has,
     the components it has closed and whether its wait ran into the deadline *)
  once : phase; callers : nat; answered : nat; closed : list nat; timed_out : bool;
}.

Section lifecycle.
(** The number of components, and whether Shutdown's context has a deadline. *)
Context (components : nat) (deadline : bool).

Definition with_flush (s : state) (fresh inside leaving refused flushed flushesRunning flushing : nat) : state := {|
  fresh := fresh; inside := inside; leaving := leaving; refused := refused; flushed := flushed;
  shutdownStarted := shutdownStarted s; flushesRunning := flushesRunning; flushing := flushing;
  once := once s; callers := callers s; answered := answered s; closed := closed s; timed_out := timed_out s;
|}.
Definition with_shutdown (s : state) (started : bool) (once : phase) (callers answered : nat) (closed : list nat)
    (timed_out : bool) : state := {|
  fresh := fresh s; inside := inside s; leaving := leaving s; refused := refused s; flushed := flushed s;
  shutdownStarted := started; flushesRunning := flushesRunning s; flushing := flushing s;
  once := once; callers := callers; answered := answered; closed := closed; timed_out := timed_out;
|}.

Inductive step (s : state) : state → Prop :=
  (* ForceFlush takes the lock *)
  | step_enter : 0 < fresh s → shutdownStarted s = false →
      step s (with_flush s (fresh s - 1) (inside s + 1) (leaving s) (refused s) (flushed s)
                (flushesRunning s + 1) (flushing s + 1))
  | step_refuse : 0 < fresh s → shutdownStarted s = true →
      step s (with_flush s (fresh s - 1) (inside s) (leaving s) (refused s + 1) (flushed s)
                (flushesRunning s) (flushing s))
  (* its deferred function: off the count under the lock, then Done *)
  | step_leave : 0 < inside s →
      step s (with_flush s (fresh s) (inside s - 1) (leaving s + 1) (refused s) (flushed s)
                (flushesRunning s - 1) (flushing s))
  | step_done : 0 < leaving s →
      step s (with_flush s (fresh s) (inside s) (leaving s - 1) (refused s) (flushed s + 1)
                (flushesRunning s) (flushing s - 1))
  (* Shutdown's first call takes the lock *)
  | step_mark : 0 < callers s → once s = NotCalled →
      step s (with_shutdown s true
                (if deadline && bool_decide (0 < flushesRunning s) then Waiting else Closing components)
                (callers s) (answered s) (closed s) (timed_out s))
  (* waitFlushes *)
  | step_waited : once s = Waiting → flushing s = 0 →
      step s (with_shutdown s (shutdownStarted s) (Closing components) (callers s) (answered s) (closed s) (timed_out s))
  | step_timeout : once s = Waiting →
      step s (with_shutdown s (shutdownStarted s) (Closing components) (callers s) (answered s) (closed s) true)
  (* one component *)
  | step_close todo : once s = Closing (S todo) →
      step s (with_shutdown s (shutdownStarted s) (Closing todo) (callers s) (answered s)
                (closed s ++ [components - S todo]) (timed_out s))
  | step_over : once s = Closing 0 →
      step s (with_shutdown s (shutdownStarted s) Returned (callers s) (answered s) (closed s) (timed_out s))
  (* every call of Shutdown returns once the body has run *)
  | step_answer : once s = Returned → 0 < callers s →
      step s (with_shutdown s (shutdownStarted s) Returned (callers s - 1) (answered s + 1) (closed s) (timed_out s)).

Definition initial (flushes shutdowns : nat) : state := {|
  fresh := flushes; inside := 0; leaving := 0; refused := 0; flushed := 0;
  shutdownStarted := false; flushesRunning := 0; flushing := 0;
  once := NotCalled; callers := shutdowns; answered := 0; closed := []; timed_out := false;
|}.
Definition reachable (flushes shutdowns : nat) : state → Prop := clos_refl_trans_1n _ step (initial flushes shutdowns).
Inductive run : nat → state → state → Prop :=
  | run_nil s : run 0 s s
  | run_cons n s1 s2 s3 : step s1 s2 → run n s2 s3 → run (S n) s1 s3.

(** * The invariant *)
Definition closing_state (s : state) : Prop :=
  match once s with
  | NotCalled => shutdownStarted s = false ∧ closed s = [] ∧ answered s = 0 ∧ timed_out s = false
  | Waiting => shutdownStarted s = true ∧ closed s = [] ∧ answered s = 0 ∧ deadline = true ∧ timed_out s = false
  | Closing todo => shutdownStarted s = true ∧ todo ≤ components ∧ closed s = seq 0 (components - todo) ∧ answered s = 0
  | Returned => shutdownStarted s = true ∧ closed s = seq 0 components
  end.
Definition undisturbed (s : state) : Prop :=
  deadline = true → timed_out s = false →
  match once s with Closing _ | Returned => inside s = 0 | _ => True end.
Record inv (flushes shutdowns : nat) (s : state) : Prop := {
  inv_running : flushesRunning s = inside s;
  inv_group : flushing s = inside s + leaving s;
  inv_flushes : fresh s + inside s + leaving s + refused s + flushed s = flushes;
  inv_shutdowns : callers s + answered s = shutdowns;
  inv_called : once s ≠ NotCalled → 0 < shutdowns;
  inv_closing : closing_state s;
  inv_undisturbed : undisturbed s;
}.

Lemma seq_snoc_close todo :
  S todo ≤ components → seq 0 (components - S todo) ++ [components - S todo] = seq 0 (components - todo).
Proof. intros H. replace (components - todo) with (S (components - S todo)) by lia. by rewrite seq_S. Qed.

Ltac split_inv := split; cbn in *; try done; try lia.
Lemma step_inv flushes shutdowns s s' : inv flushes shutdowns s → step s s' → inv flushes shutdowns s'.
Proof.
  intros [Hr Hg Hf Hs Hca Hc Hu] Hstep. unfold closing_state, undisturbed in *.
  destruct Hstep as [Hfr Hst|Hfr Hst|Hin|Hlv|Hcl Ho|Ho Hz|Ho|todo Ho|Ho|Ho Hcl]; split_inv;
    unfold closing_state, undisturbed; cbn in *; rewrite ?Ho in *; try done; try lia;
    try (intros _; by apply Hca).
  - intros Hd Ht. destruct (once s); [done|done|destruct Hc; congruence|destruct Hc; congruence].
  - intros Hd Ht. specialize (Hu Hd Ht). destruct (once s); [done|done|lia|lia].
  - destruct Hc as (_ & Hcl' & Ha & Ht). rewrite Hcl'.
    destruct deadline; cbn [andb]; [case_bool_decide|]; rewrite ?Nat.sub_diag; by split_and!.
  - destruct deadline; cbn [andb]; [case_bool_decide|]; intros Hd _; [done|lia|done].
  - destruct Hc as (Hm & -> & Ha & _). rewrite Nat.sub_diag. by split_and!.
  - destruct Hc as (Hm & -> & Ha & _). rewrite Nat.sub_diag. by split_and!.
  - destruct Hc as (Hm & Hle & -> & Ha). split_and!; [done|lia|by apply seq_snoc_close|done].
  - destruct Hc as (Hm & Hle & -> & Ha). split; [done|]. by rewrite Nat.sub_0_r.
Qed.

Lemma initial_inv flushes shutdowns : inv flushes shutdowns (initial flushes shutdowns).
Proof. split; cbn; try done; try lia. Qed.

Lemma reachable_inv flushes shutdowns s : reachable flushes shutdowns s → inv flushes shutdowns s.
Proof.
  unfold reachable. generalize (initial_inv flushes shutdowns). generalize (initial flushes shutdowns) as s0.
  intros s0 Hi Hr. induction Hr as [|s1 s2 s3 Hstep Hr IH]; [done|]. apply IH. by eapply step_inv.
Qed.

(** * Progress *)
Definition phase_steps (p : phase) : nat :=
  match p with NotCalled => components + 3 | Waiting => components + 2 | Closing todo => todo + 1 | Returned => 0 end.
(** The steps there still are. *)
Definition steps_left (s : state) : nat :=
  3 * fresh s + 2 * inside s + leaving s + phase_steps (once s) + callers s.

Lemma step_decreases s s' : step s s' → steps_left s' < steps_left s.
Proof.
  unfold steps_left. intros [Hfr Hst|Hfr Hst|Hin|Hlv|Hcl Ho|Ho Hz|Ho|todo Ho|Ho|Ho Hcl]; cbn; rewrite ?Ho; cbn;
    try lia. destruct deadline; cbn [andb]; [case_bool_decide|]; cbn; lia.
Qed.

Lemma lifecycle_run_bounded n s s' : run n s s' → n + steps_left s' ≤ steps_left s.
Proof. induction 1 as [|n s1 s2 s3 Hstep Hr IH]; [lia|]. apply step_decreases in Hstep. lia. Qed.

Lemma run_reachable flushes shutdowns n s s' : reachable flushes shutdowns s → run n s s' → reachable flushes shutdowns s'.
Proof.
  unfold reachable. intros Hs Hr. induction Hr as [|n s1 s2 s3 Hstep Hr IH]; [done|]. apply IH. clear IH Hr.
  induction Hs as [|a b c Hab Hbc IH]; econstructor; [exact Hstep|constructor|exact Hab|by apply IH].
Qed.

(** Everything has been answered. *)
Definition over (s : state) : Prop := fresh s = 0 ∧ inside s = 0 ∧ leaving s = 0 ∧ callers s = 0.

Lemma step_or_over flushes shutdowns s :
  inv flushes shutdowns s → (∃ s', step s s') ∨ over s ∧ (once s = NotCalled ∨ once s = Returned).
Proof.
  intros [Hr Hg Hf Hs Hca Hc Hu].
  destruct (decide (0 < fresh s)).
  { left. destruct (shutdownStarted s) eqn:E; eexists; [by apply step_refuse|by apply step_enter]. }
  destruct (decide (0 < inside s)); [left; eexists; by apply step_leave|].
  destruct (decide (0 < leaving s)); [left; eexists; by apply step_done|].
  destruct (once s) as [| |[|todo]|] eqn:E.
  - destruct (decide (0 < callers s)); [left; eexists; by apply step_mark|]. right. unfold over. split; [lia|by left].
  - left. eexists. apply step_waited; [done|]. lia.
  - left. eexists. by apply step_over.
  - left. eexists. by eapply step_close.
  - destruct (decide (0 < callers s)); [left; eexists; by apply step_answer|]. right. unfold over. split; [lia|by right].
Qed.

(** C8: the interleavings of any number of ForceFlush and Shutdown calls. In every
    state they can reach: the count and the wait group agree with the flushes
    there are; the components closed are the first ones, each once and in order,
    and all of them before any Shutdown call returns; once Shutdown has started
    no flush begins, so the wait group never grows under the wait. Under a context
    with a deadline no component is closed while a flush is exporting unless the
    wait ran into the deadline. Under a context without one Shutdown never waits,
    and nothing is said of the flushes that are exporting: it closes the components
    under them, which closed_under_flush shows. *)
Theorem lifecycle_safe (flushes shutdowns : nat) (s : state) :
  reachable flushes shutdowns s →
  flushesRunning s = inside s ∧ flushing s = inside s + leaving s
  ∧ (∃ k, k ≤ components ∧ closed s = seq 0 k)
  ∧ (0 < answered s → closed s = seq 0 components)
  ∧ (∀ s', step s s' → shutdownStarted s = true →
       shutdownStarted s' = true ∧ inside s' ≤ inside s ∧ flushing s' ≤ flushing s)
  ∧ (deadline = true → timed_out s = false → (∃ todo, once s = Closing todo) → inside s = 0)
  ∧ (deadline = false → once s ≠ Waiting).
Proof.
  intros Hreach. destruct (reachable_inv flushes shutdowns s Hreach) as [Hr Hg Hf Hs Hca Hc Hu].
  unfold closing_state, undisturbed in *. split_and!; [done|done| | | | |].
  - destruct (once s) as [| |todo|]; [exists 0|exists 0|exists (components - todo)|exists components]; cbn;
      (split; [lia|]); naive_solver.
  - intros Ha. destruct (once s) as [| |todo|]; [lia|lia|lia|by destruct Hc].
  - intros s' Hstep Hst. destruct Hstep; cbn; split_and!; try done; try lia; congruence.
  - intros Hd Ht [todo E]. specialize (Hu Hd Ht). by rewrite E in Hu.
  - intros Hd E. rewrite E in Hc. destruct Hc as (_ & _ & _ & Hd' & _). congruence.
Qed.

(** C32: Shutdown and ForceFlush never deadlock and never go on for ever, whatever
    the interleaving, if the work of flushes and components returns: from any
    state the calls can reach, every run is finite, of a length known in
    advance, and one that stops stops with every ForceFlush call over or turned
    away and every Shutdown call answered, each component closed if there was
    one. *)
Theorem lifecycle_terminates (flushes shutdowns : nat) (s : state) :
  reachable flushes shutdowns s →
  (∀ n s', run n s s' → n ≤ 3 * flushes + shutdowns + components + 3)
  ∧ ∀ n s', run n s s' → (∀ s'', ¬ step s' s'') →
      refused s' + flushed s' = flushes ∧ answered s' = shutdowns
      ∧ (0 < shutdowns → closed s' = seq 0 components).
Proof.
  intros Hreach. split.
  - intros n s' Hrun%lifecycle_run_bounded. destruct (reachable_inv flushes shutdowns s Hreach) as [Hr Hg Hf Hs Hca Hc Hu].
    unfold steps_left, closing_state in *. assert (phase_steps (once s) ≤ components + 3).
    { destruct (once s) as [| |todo|]; cbn; lia. } lia.
  - intros n s' Hrun Hstuck. pose proof (run_reachable flushes shutdowns n s s' Hreach Hrun) as Hreach'.
    pose proof (reachable_inv flushes shutdowns s' Hreach') as Hinv.
    destruct (step_or_over flushes shutdowns s' Hinv) as [[s'' Hs'']|[(H1 & H2 & H3 & H4) Hphase]]; [by destruct (Hstuck s'')|].
    destruct Hinv as [Hr Hg Hf Hs Hca Hc Hu]. split_and!; [lia|lia|]. intros Hpos. unfold closing_state in Hc.
    destruct Hphase as [E|E]; rewrite E in Hc; [|by destruct Hc]. lia.
Qed.
End lifecycle.

(** * A run: a flush, a Shutdown that waits for it, a flush that comes too late *)
Definition sample_state : state := {|
  fresh := 1; inside := 1; leaving := 0; refused := 0; flushed := 0;
  shutdownStarted := true; flushesRunning := 1; flushing := 1;
  once := Waiting; callers := 1; answered := 0; closed := []; timed_out := false;
|}.

Lemma sample_reachable : reachable 1 true 2 1 sample_state.
Proof.
  unfold reachable. econstructor 2; [apply step_enter; cbn; [lia|done]|].
  econstructor 2; [apply step_mark; cbn; [lia|done]|]. constructor.
Qed.

(** Without a deadline the components are closed under the flush that is running,
    as the comment of Shutdown says. *)
Lemma closed_under_flush : ∃ s, reachable 1 false 1 1 s ∧ inside s = 1 ∧ closed s = [0] ∧ timed_out s = false.
Proof.
  eexists. split.
  - unfold reachable. econstructor 2; [apply step_enter; cbn; [lia|done]|].
    econstructor 2; [apply step_mark; cbn; [lia|done]|].
    econstructor 2; [by apply (step_close 1 false _ 0)|]. constructor.
  - done.
Qed.

Lemma lifecycle_safe_witness :
  inside sample_state = 1 ∧ ∀ s', step 1 true sample_state s' → inside s' ≤ 1 ∧ flushing s' ≤ 1.
Proof.
  split; [done|]. destruct (lifecycle_safe 1 true 2 1 sample_state sample_reachable) as (_ & _ & _ & _ & H & _).
  intros s' Hs. exact (proj2 (H s' Hs eq_refl)).
Defined.

Lemma lifecycle_terminates_witness :
  steps_left 1 sample_state = 9 ∧ ∀ n s', run 1 true n sample_state s' → n ≤ 11.
Proof.
  split; [done|]. exact (proj1 (lifecycle_terminates 1 true 2 1 sample_state sample_reachable)).
Defined.
