(* ===== verification/Options.v ===== *)
(** options.go: the configuration, its options and its defaults. An option is a
    function on the configuration, as it is in the code; float64 is the
    Standard Library's specification of IEEE 754 doubles. *)
From Stdlib Require Import Floats.SpecFloat.
From S2P Require Import Prelude Utf8 GoStrings GoCodec GoNum SampleLib Attribute PromLabel ResourceKeys SemconvReserved Baggage.

Abbreviation float64 := spec_float.

(** * endpoint.go: the data of a resolved endpoint *)
Record signalEndpoint := {
  url : bytes; source : bytes; raw : bytes; problem : bytes; grpcVar : bytes;
}.
Record otlpEndpoints := { trace : signalEndpoint; log : signalEndpoint }.
Definition zero_endpoint : signalEndpoint := {| url := []; source := []; raw := []; problem := []; grpcVar := [] |}.
Definition defaultOTLPEndpoint : bytes := #"http://localhost:4318".

(** * Constants *)
Definition DefaultMetricsAddr : bytes := #":2112".
Definition DefaultMaxUniqueRoutes : Z := 1000.
Definition MaxBaggageAttributeKeys : nat := 8.
Definition DefaultMaxUniqueCollections : Z := 200.
(** slog.LevelInfo *)
Definition LevelInfo : Z := 0.

(** The doubles nearest to .005, .01, .025, .05, .1, .25, .5, 1, 2.5, 5 and 10. *)
Definition double (m : positive) (e : Z) : float64 := S754_finite false m e.
Definition defaultLatencyBuckets : list float64 :=
  [double 5764607523034235 (-60); double 5764607523034235 (-59); double 7205759403792794 (-58);
   double 7205759403792794 (-57); double 7205759403792794 (-56); double 4503599627370496 (-54);
   double 4503599627370496 (-53); double 4503599627370496 (-52); double 5629499534213120 (-51);
   double 5629499534213120 (-50); double 5629499534213120 (-49)].
(** A copy of a list of values is the list. *)
Definition cloneFloat64s (l : list float64) : list float64 := l.
Definition DefaultLatencyBuckets : list float64 := cloneFloat64s defaultLatencyBuckets.

(** * The configuration *)

(** A sampler of the caller, or ParentBased(TraceIDRatioBased(ratio)). *)
Inductive Sampler := CustomSampler (id : nat) | ParentBasedRatio (ratio : float64).

Record Config := mkConfig {
  serviceName : bytes; serviceVersion : bytes; environment : bytes;
  otlpEndpoint : bytes; otlpEndpointSet : bool; resolvedOTLP : otlpEndpoints;
  otlpHeaders : gmap bytes bytes; logLevel : Z;
  resourceAttrs : list KeyValue;
  sampler : option Sampler; samplingRatio : float64; samplingRatioSet : bool;
  userBaggage : bool; baggageKeys : list bytes;
  profilingEndpoint : bytes; profilingAuthHeaders : gmap bytes bytes;
  metricsAddr : bytes; metricsOTLPEndpoint : bytes; runtimeMetrics : bool;
  histogramBuckets : list float64; namespace : bytes; disableDefaultViews : bool;
  maxUniqueRoutes : Z; maxUniqueCollections : Z; cardinalityLimit : Z;
  extraHTTPServerAttrKeys : list bytes; exemplars : bool;
  histogramBucketOverrides : gmap bytes (list float64);
  traceEnabled : bool; metricsEnabled : bool; logEnabled : bool; profilingEnabled : bool;
  initWarnings : list bytes;
}.

(** Assigning a field: [c <| f := v |>] is [c] rebuilt field by field. *)
Definition eta_Config (c : Config) : Config := mkConfig
  (serviceName c) (serviceVersion c) (environment c) (otlpEndpoint c) (otlpEndpointSet c) (resolvedOTLP c)
  (otlpHeaders c) (logLevel c) (resourceAttrs c) (sampler c) (samplingRatio c) (samplingRatioSet c)
  (userBaggage c) (baggageKeys c) (profilingEndpoint c) (profilingAuthHeaders c) (metricsAddr c)
  (metricsOTLPEndpoint c) (runtimeMetrics c) (histogramBuckets c) (namespace c) (disableDefaultViews c)
  (maxUniqueRoutes c) (maxUniqueCollections c) (cardinalityLimit c) (extraHTTPServerAttrKeys c) (exemplars c)
  (histogramBucketOverrides c) (traceEnabled c) (metricsEnabled c) (logEnabled c) (profilingEnabled c)
  (initWarnings c).
Ltac update_field eta f v c :=
  let body := eval cbv beta delta [eta] in (eta c) in
  match eval pattern (f c) in body with ?g _ => let r := eval cbv beta in (g v) in exact r end.
Declare Scope config_scope.
Notation "c <| f := v |>" := (ltac:(update_field eta_Config f v c))
  (at level 12, f at level 1, v at level 200, left associativity, only parsing) : config_scope.
#[local] Open Scope config_scope.

(** An option changes the configuration it is applied to. *)
Definition Option : Type := Config → Config.
Definition warn (c : Config) (w : bytes) : Config := c <| initWarnings := initWarnings c ++ [w] |>.

(** * Options that assign *)
Definition WithServiceName (name : bytes) : Option := λ c, c <| serviceName := name |>.
Definition WithServiceVersion (version : bytes) : Option := λ c, c <| serviceVersion := version |>.
Definition WithEnvironment (env : bytes) : Option := λ c, c <| environment := env |>.
Definition WithOTLPEndpoint (endpoint : bytes) : Option :=
  let endpoint := TrimSpace endpoint in
  λ c, if bool_decide (endpoint = []) then
         let c := c <| otlpEndpoint := defaultOTLPEndpoint |> in c <| otlpEndpointSet := false |>
       else let c := c <| otlpEndpoint := endpoint |> in c <| otlpEndpointSet := true |>.
Definition WithSamplingRatio (ratio : float64) : Option := λ c,
  let c := c <| samplingRatio := ratio |> in
  let c := c <| samplingRatioSet := true |> in
  c <| sampler := @None Sampler |>.
Definition WithTraceSampler (sampler' : option Sampler) : Option := λ c,
  match sampler' with
  | None => c
  | Some _ =>
    let c := c <| sampler := sampler' |> in
    let c := c <| samplingRatioSet := false |> in
    c <| samplingRatio := S754_zero false |>
  end.
Definition WithUserBaggage : Option := λ c, c <| userBaggage := true |>.
(** The range over the given map assigns each of its keys. *)
Definition WithOTLPHeaders (headers : gmap bytes bytes) : Option := λ c,
  if bool_decide (headers = ∅) then c else c <| otlpHeaders := headers ∪ otlpHeaders c |>.
Definition WithProfilingEndpoint (endpoint : bytes) : Option := λ c, c <| profilingEndpoint := endpoint |>.
Definition WithProfilingAuthHeaders (headers : gmap bytes bytes) : Option := λ c,
  if bool_decide (headers = ∅) then c else c <| profilingAuthHeaders := headers ∪ profilingAuthHeaders c |>.
Definition WithLogLevel (level : Z) : Option := λ c, c <| logLevel := level |>.
Definition WithServiceNamespace (namespace' : bytes) : Option := λ c, c <| namespace := namespace' |>.
Definition WithMetricsOTLPEndpoint (endpoint : bytes) : Option :=
  let endpoint := TrimSpace endpoint in λ c, c <| metricsOTLPEndpoint := endpoint |>.
Definition WithMetricsAddr (addr : bytes) : Option := λ c, c <| metricsAddr := addr |>.
Definition WithRuntimeMetrics (enabled : bool) : Option := λ c, c <| runtimeMetrics := enabled |>.
Definition WithHistogramBuckets (buckets : list float64) : Option := λ c,
  c <| histogramBuckets := cloneFloat64s buckets |>.
Definition WithInstrumentHistogramBuckets (instrument : bytes) (buckets : list float64) : Option :=
  let buckets := cloneFloat64s buckets in
  λ c, c <| histogramBucketOverrides := <[instrument := cloneFloat64s buckets]> (histogramBucketOverrides c) |>.
Definition WithTraceEnabled (enabled : bool) : Option := λ c, c <| traceEnabled := enabled |>.
Definition WithMetricsEnabled (enabled : bool) : Option := λ c, c <| metricsEnabled := enabled |>.
Definition WithLogEnabled (enabled : bool) : Option := λ c, c <| logEnabled := enabled |>.
Definition WithProfilingEnabled (enabled : bool) : Option := λ c, c <| profilingEnabled := enabled |>.
Definition WithExemplars (enabled : bool) : Option := λ c, c <| exemplars := enabled |>.
Definition WithDisableDefaultViews : Option := λ c, c <| disableDefaultViews := true |>.
Definition WithMaxUniqueRoutes (n : Z) : Option := λ c,
  if (n <=? 0)%Z then c <| maxUniqueRoutes := DefaultMaxUniqueRoutes |> else c <| maxUniqueRoutes := n |>.
Definition WithCardinalityLimit (n : Z) : Option := λ c,
  if (n <=? 0)%Z then c <| cardinalityLimit := 0%Z |> else c <| cardinalityLimit := n |>.
Definition WithMaxUniqueCollections (n : Z) : Option := λ c,
  if (n <=? 0)%Z then c <| maxUniqueCollections := DefaultMaxUniqueCollections |>
  else c <| maxUniqueCollections := n |>.

(** * Options that keep some of what they are given *)
Section guarded.
Context `{B : BaggageApi, P : GoPrint}.

(** One key of WithBaggageAttributes, with the keys seen so far. *)
Definition baggage_step (st : gset bytes * Config) (key : bytes) : gset bytes * Config :=
  let '(seen, c) := st in
  if decide (key ∈ seen) then st
  else
    match ValidBaggageKey key with
    | Some err => ({[key]} ∪ seen, warn c ( #"WithBaggageAttributes: dropping key " ++ quoted key ++ #": " ++ err))
    | None => ({[key]} ∪ seen, c <| baggageKeys := baggageKeys c ++ [key] |>)
    end.
Definition WithBaggageAttributes (keys : list bytes) : Option := λ c,
  (foldl baggage_step (list_to_set (baggageKeys c), c) keys).2.

Definition ignoring_attribute (key : bytes) (why : bytes) : bytes :=
  #"WithResourceAttributes: ignoring " ++ quoted key ++ #"; " ++ why.

(** appendResourceAttribute: the scan for an earlier attribute of the same
    label; None when there is none. *)
Fixpoint replace_or_refuse (attrs : list KeyValue) (kv : KeyValue) : option (list KeyValue + bytes) :=
  match attrs with
  | [] => None
  | prev :: rest =>
    if bool_decide (prev.1 = kv.1) then Some (inl (kv :: rest))
    else if SameLabel prev.1 kv.1 then Some (inr prev.1)
    else
      match replace_or_refuse rest kv with
      | Some (inl rest') => Some (inl (prev :: rest'))
      | r => r
      end
  end.
Definition appendResourceAttribute (c : Config) (kv : KeyValue) : Config :=
  match replace_or_refuse (resourceAttrs c) kv with
  | Some (inl attrs) => c <| resourceAttrs := attrs |>
  | Some (inr prev) =>
    warn c (ignoring_attribute kv.1
      ( #"it would render as the same Prometheus label as " ++ quoted prev ++ #", given earlier"))
  | None => c <| resourceAttrs := resourceAttrs c ++ [kv] |>
  end.

Definition resource_step (c : Config) (kv : KeyValue) : Config :=
  let '(owner, identity) := ResourceKeyOwner kv.1 in
  if bool_decide (kv.1 = []) then
    warn c #"WithResourceAttributes: ignoring an attribute with an empty key"
  else if negb (bool_decide (owner = [])) && identity then
    warn c (ignoring_attribute kv.1 ( #"it would collide with " ++ quoted owner
      ++ #", which is set by the SDK's identity options (WithServiceName / WithServiceVersion / WithServiceNamespace / WithEnvironment)"))
  else if negb (bool_decide (owner = [])) then
    warn c (ignoring_attribute kv.1 ( #"it would collide with " ++ quoted owner ++ #", which the SDK detects itself"))
  else if IsTelemetrySDKKey kv.1 then
    warn c (ignoring_attribute kv.1 #"telemetry.sdk.* identifies the OpenTelemetry SDK, not the service")
  else if IsProcessKey kv.1 then
    warn c (ignoring_attribute kv.1
      #"process.* is collected by the SDK itself, and process.command_args / process.owner are deliberately not exported")
  else if IsReservedAttributeKey kv.1 then
    warn c (ignoring_attribute kv.1 ( #"as the Prometheus label " ++ quoted (NormalizePrometheusLabelName kv.1)
      ++ #" it is reserved by the exporter or not a valid label name, and otelprom would disable target_info for the whole process"))
  else appendResourceAttribute c kv.
Definition WithResourceAttributes (attrs : list KeyValue) : Option := λ c, foldl resource_step c attrs.

Definition reservedHTTPServerPromLabels : list bytes :=
  [ #"http_request_method"; #"http_route"; #"http_response_status_code"].
Definition builtin_label : bytes := #"<built-in SDK label>".

Definition extra_step (st : gmap bytes bytes * Config) (k : bytes) : gmap bytes bytes * Config :=
  let '(seen, c) := st in
  if bool_decide (k = []) then st
  else
    let norm := NormalizePrometheusLabelName k in
    if bool_decide (norm = []) || bool_decide (norm = #"_") then
      (seen, warn c ( #"WithExtraHTTPServerAttributeKeys: key " ++ quoted k
                      ++ #" normalizes to an invalid Prometheus label name; dropping"))
    else
      let seen := if IsReservedAttributeKey k then <[norm := builtin_label]> seen else seen in
      match seen !! norm with
      | Some existing =>
        (seen, warn c ( #"WithExtraHTTPServerAttributeKeys: key " ++ quoted k ++ #" collides with " ++ existing
          ++ #" (both normalize to Prometheus label " ++ quoted norm
          ++ #"); dropping to prevent silent label-value merging"))
      | None => (<[norm := quoted k]> seen, c <| extraHTTPServerAttrKeys := extraHTTPServerAttrKeys c ++ [k] |>)
      end.
Definition extra_seen (c : Config) : gmap bytes bytes :=
  foldl (λ seen prev, <[NormalizePrometheusLabelName prev := prev]> seen)
    (foldl (λ seen builtin, <[builtin := builtin_label]> seen) ∅ reservedHTTPServerPromLabels)
    (extraHTTPServerAttrKeys c).
Definition WithExtraHTTPServerAttributeKeys (keys : list bytes) : Option := λ c,
  (foldl extra_step (extra_seen c, c) keys).2.

(** * Defaults *)
Definition ParseBool (v : bytes) : option bool :=
  if bool_decide (v ∈ [ #"1"; #"t"; #"T"; #"TRUE"; #"true"; #"True"]) then Some true
  else if bool_decide (v ∈ [ #"0"; #"f"; #"F"; #"FALSE"; #"false"; #"False"]) then Some false
  else None.
Definition format_bool (b : bool) : bytes := if b then #"true" else #"false".

(** os.Getenv: empty for a variable that is not set. *)
Context (Getenv : bytes → bytes).

Definition parseBoolEnv (key : bytes) (def : bool) : bool * bytes :=
  let v := Getenv key in
  if bool_decide (v = []) then (def, [])
  else
    match ParseBool v with
    | Some b => (b, [])
    | None =>
      (def, #"env var " ++ key ++ #"=" ++ quoted v
            ++ #" is not a recognised bool (accepted: 1/t/true/0/f/false); falling back to default ("
            ++ format_bool def ++ #")")
    end.
Definition warn_env (c : Config) (w : bytes) : Config := if bool_decide (w = []) then c else warn c w.

(** A toggle read from its variable, with the warning there may be. *)
Definition toggle_env (key : bytes) (def : bool) (assign : bool → Option) : Option := λ cfg,
  let '(enabled, w) := parseBoolEnv key def in warn_env (assign enabled cfg) w.

Definition defaultConfig : Config :=
  let cfg := mkConfig [] [] [] defaultOTLPEndpoint false {| trace := zero_endpoint; log := zero_endpoint |}
    ∅ LevelInfo [] None (S754_zero false) false false [] [] ∅ DefaultMetricsAddr [] true
    (cloneFloat64s defaultLatencyBuckets) [] false DefaultMaxUniqueRoutes DefaultMaxUniqueCollections 0
    [] true ∅ false false false false [] in
  let cfg := toggle_env #"O11Y_TRACE_ENABLED" true WithTraceEnabled cfg in
  let cfg := toggle_env #"O11Y_METRICS_ENABLED" true WithMetricsEnabled cfg in
  let cfg := toggle_env #"O11Y_LOG_ENABLED" true WithLogEnabled cfg in
  toggle_env #"O11Y_PROFILING_ENABLED" false WithProfilingEnabled cfg.
End guarded.

(** Init: the defaults, and the options that are not nil, in order. *)
Definition configure `{GoPrint} (Getenv : bytes → bytes) (opts : list (option Option)) : Config :=
  foldl (λ c opt, match opt with Some opt => opt c | None => c end) (defaultConfig Getenv) opts.

(** * The options there are *)
Section properties.
Context `{B : BaggageApi, P : GoPrint}.

Inductive sdk_option : Option → Prop :=
  | o_name s : sdk_option (WithServiceName s) | o_version s : sdk_option (WithServiceVersion s)
  | o_environment s : sdk_option (WithEnvironment s) | o_namespace s : sdk_option (WithServiceNamespace s)
  | o_endpoint s : sdk_option (WithOTLPEndpoint s) | o_ratio r : sdk_option (WithSamplingRatio r)
  | o_sampler s : sdk_option (WithTraceSampler s) | o_user : sdk_option WithUserBaggage
  | o_headers h : sdk_option (WithOTLPHeaders h) | o_profiling s : sdk_option (WithProfilingEndpoint s)
  | o_profiling_headers h : sdk_option (WithProfilingAuthHeaders h) | o_level z : sdk_option (WithLogLevel z)
  | o_metrics_endpoint s : sdk_option (WithMetricsOTLPEndpoint s) | o_addr s : sdk_option (WithMetricsAddr s)
  | o_runtime b : sdk_option (WithRuntimeMetrics b) | o_buckets l : sdk_option (WithHistogramBuckets l)
  | o_instrument s l : sdk_option (WithInstrumentHistogramBuckets s l)
  | o_trace b : sdk_option (WithTraceEnabled b) | o_metrics b : sdk_option (WithMetricsEnabled b)
  | o_log b : sdk_option (WithLogEnabled b) | o_profile b : sdk_option (WithProfilingEnabled b)
  | o_exemplars b : sdk_option (WithExemplars b) | o_views : sdk_option WithDisableDefaultViews
  | o_routes n : sdk_option (WithMaxUniqueRoutes n) | o_limit n : sdk_option (WithCardinalityLimit n)
  | o_collections n : sdk_option (WithMaxUniqueCollections n)
  | o_baggage ks : sdk_option (WithBaggageAttributes ks)
  | o_resource attrs : sdk_option (WithResourceAttributes attrs)
  | o_extra ks : sdk_option (WithExtraHTTPServerAttributeKeys ks).

(** A key WithResourceAttributes accepts, and one WithExtraHTTPServerAttributeKeys does. *)
Definition resource_key_ok (key : bytes) : Prop :=
  key ≠ [] ∧ (ResourceKeyOwner key).1 = [] ∧ IsTelemetrySDKKey key = false ∧ IsProcessKey key = false
  ∧ IsReservedAttributeKey key = false.
#[export] Instance resource_key_ok_dec key : Decision (resource_key_ok key).
Proof. unfold resource_key_ok. apply _. Defined.
Definition extra_key_ok (key : bytes) : Prop :=
  key ≠ [] ∧ NormalizePrometheusLabelName key ≠ #"_"
  ∧ NormalizePrometheusLabelName key ∉ reservedHTTPServerPromLabels ∧ IsReservedAttributeKey key = false.

Record config_ok (c : Config) : Prop := {
  ok_resource_keys : Forall (λ kv : KeyValue, resource_key_ok kv.1) (resourceAttrs c);
  ok_resource_labels : NoDup ((λ kv, label kv) <$> resourceAttrs c);
  ok_extra_keys : Forall extra_key_ok (extraHTTPServerAttrKeys c);
  ok_extra_labels : NoDup (NormalizePrometheusLabelName <$> extraHTTPServerAttrKeys c);
  ok_baggage_keys : Forall (λ key, ValidBaggageKey key = None) (baggageKeys c);
  ok_baggage_distinct : NoDup (baggageKeys c);
  ok_caps : (0 < maxUniqueRoutes c ∧ 0 < maxUniqueCollections c ∧ 0 ≤ cardinalityLimit c)%Z;
  ok_sampler : samplingRatioSet c = true → sampler c = None;
  ok_endpoint : otlpEndpoint c ≠ [] ∧ (otlpEndpointSet c = false → otlpEndpoint c = defaultOTLPEndpoint);
}.

(** ** Resource attributes *)
Lemma replace_or_refuse_spec attrs kv :
  match replace_or_refuse attrs kv with
  | None => ∀ prev, prev ∈ attrs → SameLabel prev.1 kv.1 = false
  | Some (inl attrs') => ∃ l v r, attrs = l ++ (kv.1, v) :: r ∧ attrs' = l ++ kv :: r
                                  ∧ ∀ prev, prev ∈ l → SameLabel prev.1 kv.1 = false
  | Some (inr key) => ∃ prev, prev ∈ attrs ∧ prev.1 = key ∧ SameLabel prev.1 kv.1 = true ∧ prev.1 ≠ kv.1
  end.
Proof.
  induction attrs as [|prev attrs IH]; cbn [replace_or_refuse]; [by intros ? ?%elem_of_nil|].
  case_bool_decide as E.
  { exists [], prev.2, attrs. cbn. rewrite <- E. destruct prev. split_and!; [done|done|by intros ? ?%elem_of_nil]. }
  destruct (SameLabel prev.1 kv.1) eqn:Es; [exists prev; split_and!; [left|done..]|].
  destruct (replace_or_refuse attrs kv) as [[attrs'|key]|].
  - destruct IH as (l & v & r & -> & -> & Hl). exists (prev :: l), v, r. split_and!; [done|done|].
    intros p [->|Hp]%elem_of_cons; auto.
  - destruct IH as (p & Hp & ?). exists p. split; [by right|done].
  - intros p [->|Hp]%elem_of_cons; auto.
Qed.

Lemma resource_step_cases c kv :
  (¬ resource_key_ok kv.1 ∧ ∃ w, resource_step c kv = warn c w)
  ∨ resource_key_ok kv.1 ∧ resource_step c kv = appendResourceAttribute c kv.
Proof.
  unfold resource_step, resource_key_ok. destruct (ResourceKeyOwner kv.1) as [owner identity].
  case_bool_decide; [left; split; [tauto|eauto]|]. cbn [fst].
  case_bool_decide as Ho; cbn [negb andb]; [|destruct identity; left; (split; [tauto|eauto])].
  destruct (IsTelemetrySDKKey _); [left; split; [naive_solver|eauto]|].
  destruct (IsProcessKey _); [left; split; [naive_solver|eauto]|].
  destruct (IsReservedAttributeKey _); [left; split; [naive_solver|eauto]|]. by right.
Qed.

Ltac frame_ok := split; cbn in *; eauto.

Lemma warn_ok c w : config_ok c → config_ok (warn c w).
Proof. intros []. unfold warn. frame_ok. Qed.

Lemma appendResourceAttribute_ok c kv :
  config_ok c → resource_key_ok kv.1 → config_ok (appendResourceAttribute c kv).
Proof.
  intros Hc Hk. pose proof Hc as [Hkeys Hlabels]. unfold appendResourceAttribute.
  pose proof (replace_or_refuse_spec (resourceAttrs c) kv) as Hspec.
  destruct (replace_or_refuse _ _) as [[attrs|key]|]; [|by apply warn_ok|].
  - destruct Hspec as (l & v & r & E & -> & _). destruct Hc. rewrite E in Hkeys, Hlabels.
    split; cbn; eauto.
    + apply Forall_app in Hkeys as [? [? ?]%Forall_cons]. apply Forall_app. split; [done|by constructor].
    + by rewrite fmap_app in *.
  - destruct Hc. split; cbn; eauto.
    + apply Forall_app. split; [done|by constructor].
    + rewrite fmap_app. apply NoDup_app. split; [done|]. split; [|apply NoDup_singleton].
      intros x (p & -> & Hp)%list_elem_of_fmap Hin%list_elem_of_singleton. apply Hspec in Hp.
      apply not_true_iff_false in Hp. by apply Hp, SameLabel_spec.
Qed.

Lemma resource_step_ok c kv : config_ok c → config_ok (resource_step c kv).
Proof.
  intros Hc. destruct (resource_step_cases c kv) as [[_ [w ->]]|[Hk ->]];
    [by apply warn_ok|by apply appendResourceAttribute_ok].
Qed.

Lemma foldl_ok {A} (f : Config → A → Config) l c :
  (∀ c x, config_ok c → config_ok (f c x)) → config_ok c → config_ok (foldl f c l).
Proof. intros Hf. revert c. induction l as [|x l IH]; intros c Hc; [done|]. apply IH, Hf, Hc. Qed.

(** ** Baggage keys *)
Definition baggage_inv (st : gset bytes * Config) : Prop :=
  config_ok st.2 ∧ ∀ key, key ∈ baggageKeys st.2 → key ∈ st.1.

Lemma baggage_step_inv st key : baggage_inv st → baggage_inv (baggage_step st key).
Proof.
  destruct st as [seen c]. intros [Hc Hseen]. unfold baggage_step. destruct (decide (key ∈ seen)) as [|Hnew]; [done|].
  destruct (ValidBaggageKey key) eqn:E; split; cbn [fst snd] in *; [by apply warn_ok|set_solver| |].
  - destruct Hc. frame_ok.
    + apply Forall_app. split; [done|by constructor].
    + apply NoDup_app. split; [done|]. split; [|apply NoDup_singleton]. set_solver.
  - intros key' Hk. cbn in Hk. set_solver.
Qed.

Lemma foldl_inv {A S} (I : S → Prop) (f : S → A → S) l st :
  (∀ st x, I st → I (f st x)) → I st → I (foldl f st l).
Proof. intros Hf. revert st. induction l as [|x l IH]; intros st Hst; [done|]. apply IH, Hf, Hst. Qed.

(** ** Extra attribute keys *)
Record extra_inv (given : list bytes) (st : gmap bytes bytes * Config) : Prop := {
  ei_ok : config_ok st.2;
  ei_taken : ∀ l, l ∈ reservedHTTPServerPromLabels ∨ l ∈ NormalizePrometheusLabelName <$> extraHTTPServerAttrKeys st.2 →
    is_Some (st.1 !! l);
  ei_why : ∀ l, is_Some (st.1 !! l) →
    l ∈ reservedHTTPServerPromLabels ∨ l ∈ NormalizePrometheusLabelName <$> extraHTTPServerAttrKeys st.2
    ∨ ∃ k, k ∈ given ∧ IsReservedAttributeKey k = true ∧ NormalizePrometheusLabelName k = l;
}.

Lemma extra_key_fresh given seen c k :
  extra_inv given (seen, c) → k ≠ [] → NormalizePrometheusLabelName k ≠ #"_" → IsReservedAttributeKey k = false →
  seen !! NormalizePrometheusLabelName k = None →
  extra_inv (given ++ [k]) (<[NormalizePrometheusLabelName k := quoted k]> seen,
    c <| extraHTTPServerAttrKeys := extraHTTPServerAttrKeys c ++ [k] |>).
Proof.
  intros [Hc Ht Hw] Hk Hnorm Hres Hnone. cbn [fst snd] in *. split; cbn [fst snd].
  - destruct Hc. frame_ok.
    + apply Forall_app. split; [done|]. constructor; [|constructor]. split_and!; [done|done| |done].
      intros Hin. destruct (Ht _ (or_introl Hin)). congruence.
    + rewrite fmap_app. apply NoDup_app. split; [done|]. split; [|apply NoDup_singleton].
      intros l Hl ->%list_elem_of_singleton. destruct (Ht _ (or_intror Hl)). congruence.
  - cbn. intros l Hl. destruct (decide (l = NormalizePrometheusLabelName k)) as [->|Hne];
      [rewrite lookup_insert_eq; eauto|]. rewrite lookup_insert_ne by done. apply Ht.
    rewrite fmap_app in Hl. set_solver.
  - cbn. intros l. rewrite fmap_app. destruct (decide (l = NormalizePrometheusLabelName k)) as [->|Hne];
      [set_solver|]. rewrite lookup_insert_ne by done. intros Hl%Hw. set_solver.
Qed.

Lemma extra_inv_more given k st : extra_inv given st → extra_inv (given ++ [k]) st.
Proof. intros [Hc Ht Hw]. split; [done|done|]. intros l Hl%Hw. set_solver. Qed.

Lemma extra_inv_warn given seen c w : extra_inv given (seen, c) → extra_inv given (seen, warn c w).
Proof. intros [Hc Ht Hw]. split; [by apply warn_ok|done|done]. Qed.

Lemma extra_step_inv given st k : extra_inv given st → extra_inv (given ++ [k]) (extra_step st k).
Proof.
  destruct st as [seen c]. intros Hi. unfold extra_step. case_bool_decide as Hk; [by apply extra_inv_more|].
  case_bool_decide as Hn; cbn [orb]; [by apply extra_inv_warn, extra_inv_more|].
  case_bool_decide as Hn'; [by apply extra_inv_warn, extra_inv_more|].
  destruct (IsReservedAttributeKey k) eqn:Hr.
  { rewrite lookup_insert_eq. apply extra_inv_warn. destruct Hi as [Hc Ht Hw]. split; cbn [fst snd] in *; [done| |].
    - intros l Hl. destruct (decide (l = NormalizePrometheusLabelName k)) as [->|Hne];
        [rewrite lookup_insert_eq; eauto|]. rewrite lookup_insert_ne by done. auto.
    - intros l. destruct (decide (l = NormalizePrometheusLabelName k)) as [->|Hne];
        [intros _; right; right; exists k; set_solver|]. rewrite lookup_insert_ne by done. intros Hl%Hw. set_solver. }
  destruct (seen !! _) eqn:Es; [by apply extra_inv_warn, extra_inv_more|]. by apply extra_key_fresh.
Qed.

Lemma insert_all_lookup {K} (f : bytes → K) (g : bytes → bytes) (m : gmap bytes K) ks l :
  is_Some (foldl (λ m k, <[g k := f k]> m) m ks !! l) ↔ is_Some (m !! l) ∨ l ∈ g <$> ks.
Proof.
  revert m. induction ks as [|k ks IH]; intros m; cbn [foldl fmap list_fmap]; [set_solver|].
  rewrite IH. destruct (decide (l = g k)) as [->|Hne]; [rewrite lookup_insert_eq; set_solver|].
  rewrite lookup_insert_ne by done. set_solver.
Qed.

Lemma extra_seen_inv c : config_ok c → extra_inv [] (extra_seen c, c).
Proof.
  intros Hc. assert (Hl : ∀ l, is_Some (extra_seen c !! l) ↔ l ∈ reservedHTTPServerPromLabels
    ∨ l ∈ NormalizePrometheusLabelName <$> extraHTTPServerAttrKeys c).
  { intros l. unfold extra_seen. rewrite (insert_all_lookup (λ k, k) NormalizePrometheusLabelName).
    rewrite (insert_all_lookup (λ _, builtin_label) (λ k, k)), lookup_empty, list_fmap_id.
    split; [intros [[[? ?]|?]|?]; by auto|tauto]. }
  split; cbn [fst snd]; [done|apply Hl|]. intros l Hin%Hl. tauto.
Qed.

Lemma extra_fold_inv given ks st : extra_inv given st → extra_inv (given ++ ks) (foldl extra_step st ks).
Proof.
  revert given st. induction ks as [|k ks IH]; intros given st Hi; cbn [foldl]; [by rewrite app_nil_r|].
  rewrite cons_middle, (assoc_L (++)). by apply IH, extra_step_inv.
Qed.

Lemma option_ok f c : sdk_option f → config_ok c → config_ok (f c).
Proof.
  intros Hf Hc. destruct Hf;
    try (destruct Hc; unfold WithOTLPEndpoint, WithTraceSampler, WithOTLPHeaders, WithProfilingAuthHeaders,
           WithMaxUniqueRoutes, WithMaxUniqueCollections, WithCardinalityLimit, DefaultMaxUniqueRoutes,
           DefaultMaxUniqueCollections;
         repeat first [case_bool_decide | case_match]; frame_ok; first [lia | by split_and! | done]).
  - unfold WithBaggageAttributes. apply (foldl_inv baggage_inv); [exact baggage_step_inv|].
    split; [done|]. cbn. set_solver.
  - unfold WithResourceAttributes. by apply foldl_ok; [apply resource_step_ok|].
  - unfold WithExtraHTTPServerAttributeKeys.
    exact (ei_ok _ _ (extra_fold_inv [] ks _ (extra_seen_inv c Hc))).
Qed.

Lemma warn_env_ok c w : config_ok c → config_ok (warn_env c w).
Proof. intros Hc. unfold warn_env. case_bool_decide; [done|by apply warn_ok]. Qed.

Lemma toggle_env_ok Getenv key def assign c :
  (∀ b, sdk_option (assign b)) → config_ok c → config_ok (toggle_env Getenv key def assign c).
Proof.
  intros Hf Hc. unfold toggle_env. destruct (parseBoolEnv _ _ _) as [b w]. by apply warn_env_ok, option_ok.
Qed.

Lemma defaultConfig_ok Getenv : config_ok (defaultConfig Getenv).
Proof.
  unfold defaultConfig. cbv zeta. do 4 (apply toggle_env_ok; [intros b; constructor|]).
  split; try done; by constructor.
Qed.

(** C6: the configuration is well formed whatever options Init is given, and
    whatever the environment. The attributes added to the Resource have keys
    outside those the SDK owns, the namespaces it keeps and the labels the
    exporter reserves, and no two of them have one Prometheus label; the extra
    keys of the HTTP view are none the exporter or the view already uses and
    have distinct labels; the baggage keys are valid and distinct; both export
    caps are positive; at most one of a ratio and a sampler is set; and the
    endpoint is the default unless the option set it. *)
Theorem options_ok (Getenv : bytes → bytes) (opts : list (option Option)) :
  Forall (λ opt, ∀ f, opt = Some f → sdk_option f) opts → config_ok (configure Getenv opts).
Proof.
  intros Hopts. unfold configure. generalize (defaultConfig_ok Getenv).
  generalize (defaultConfig Getenv). induction Hopts as [|opt opts Hopt _ IH]; intros c Hc; [done|].
  cbn [foldl]. apply IH. destruct opt as [f|]; [|done]. by apply option_ok; [apply Hopt|].
Qed.

(** * What the accumulating options accumulate *)

(** The key that takes the label of [key]: the first acceptable one of that
    label given; and the last value given for a key. *)
Definition label_taker (given : list KeyValue) (key : bytes) : option bytes :=
  fst <$> head (filter (λ kv : KeyValue, resource_key_ok kv.1 ∧ SameLabel kv.1 key = true) given).
Definition last_value (given : list KeyValue) (key : bytes) : option attr_value :=
  last (snd <$> filter (λ kv : KeyValue, kv.1 = key) given).

Lemma head_filter_snoc {A} (Q : A → Prop) `{∀ x, Decision (Q x)} l x :
  head (filter Q (l ++ [x])) = match head (filter Q l) with
                               | Some y => Some y
                               | None => if decide (Q x) then Some x else None
                               end.
Proof.
  rewrite filter_app, filter_cons, filter_nil. destruct (filter Q l); [|done]. by destruct (decide (Q x)).
Qed.

Lemma label_taker_snoc given kv key :
  label_taker (given ++ [kv]) key =
  match label_taker given key with
  | Some k => Some k
  | None => if decide (resource_key_ok kv.1 ∧ SameLabel kv.1 key = true) then Some kv.1 else None
  end.
Proof.
  unfold label_taker. rewrite head_filter_snoc. destruct (head (filter _ given)); [done|].
  by destruct (decide _).
Qed.

Lemma last_value_snoc given kv key :
  last_value (given ++ [kv]) key = if decide (kv.1 = key) then Some kv.2 else last_value given key.
Proof.
  unfold last_value. rewrite filter_app, filter_cons, filter_nil. destruct (decide (kv.1 = key)).
  - rewrite fmap_app. cbn [fmap list_fmap]. by rewrite last_snoc.
  - by rewrite app_nil_r.
Qed.

Lemma label_taker_label given k key : label_taker given key = Some k → SameLabel k key = true ∧ resource_key_ok k.
Proof.
  unfold label_taker. destruct (head (filter _ given)) as [kv|] eqn:E; cbn; [|done].
  intros [= <-]. by apply head_filter_some in E as [[? ?] _].
Qed.

Lemma label_taker_same given a b : SameLabel a b = true → label_taker given a = label_taker given b.
Proof.
  rewrite SameLabel_spec. intros E. unfold label_taker. do 2 f_equal. apply list_filter_iff.
  intros kv. by rewrite !SameLabel_spec, E.
Qed.

Lemma label_taker_self given k key : label_taker given key = Some k → label_taker given k = Some k.
Proof. intros H. destruct (label_taker_label _ _ _ H). by erewrite label_taker_same. Qed.

(** The state of the option's loop: the attributes kept, and the warnings. *)
Record resource_inv (given : list KeyValue) (before : nat) (c : Config) : Prop := {
  ri_elem : ∀ k v, (k, v) ∈ resourceAttrs c ↔ label_taker given k = Some k ∧ last_value given k = Some v;
  ri_nodup : NoDup (fst <$> resourceAttrs c);
  ri_warned : length (initWarnings c) =
    before + length (filter (λ kv : KeyValue, label_taker given kv.1 ≠ Some kv.1) given);
}.

Lemma label_taker_in given k key : label_taker given key = Some k → k ∈ fst <$> given.
Proof.
  unfold label_taker. destruct (head (filter _ given)) as [kv|] eqn:E; cbn; [|done].
  intros [= <-]. apply head_filter_some in E as [_ Hin]. apply list_elem_of_fmap. eauto.
Qed.

Lemma label_taker_none given k : k ∈ fst <$> given → resource_key_ok k → label_taker given k ≠ None.
Proof.
  intros (kv & -> & Hin)%list_elem_of_fmap Hok. unfold label_taker.
  destruct (head (filter _ given)) eqn:E; [done|]. intros _. eapply head_filter_none in E; [|exact Hin].
  apply E. split; [done|by apply SameLabel_spec].
Qed.

Lemma last_value_some given k : k ∈ fst <$> given → ∃ v, last_value given k = Some v.
Proof.
  intros (kv & -> & Hin)%list_elem_of_fmap. unfold last_value. apply last_is_Some.
  intros Hn%fmap_nil_inv. assert (kv ∈ filter (λ kv' : KeyValue, kv'.1 = kv.1) given) as H
    by by apply list_elem_of_filter.
  rewrite Hn in H. by apply elem_of_nil in H.
Qed.

Lemma label_taker_stable given kv k :
  k ∈ fst <$> given → label_taker (given ++ [kv]) k = Some k ↔ label_taker given k = Some k.
Proof.
  intros Hin. rewrite label_taker_snoc. destruct (label_taker given k) eqn:E; [done|].
  split; [|done]. case_decide as Hd; [|done]. intros [= <-]. destruct Hd as [Hok _].
  by destruct (label_taker_none given kv.1 Hin Hok).
Qed.

Lemma filter_ext_elem {A} (P1 P2 : A → Prop) `{∀ x, Decision (P1 x), ∀ x, Decision (P2 x)} (l : list A) :
  (∀ x, x ∈ l → P1 x ↔ P2 x) → filter P1 l = filter P2 l.
Proof.
  induction l as [|x l IH]; intros Hl; [done|]. rewrite !filter_cons, (decide_ext (P1 x) (P2 x)) by (apply Hl; left).
  rewrite IH by (intros y Hy; apply Hl; by right). done.
Qed.

(** The keys that lose their label stay the ones that lose it. *)
Lemma losers_snoc given kv :
  length (filter (λ x : KeyValue, label_taker (given ++ [kv]) x.1 ≠ Some x.1) (given ++ [kv]))
  = length (filter (λ x : KeyValue, label_taker given x.1 ≠ Some x.1) given)
    + (if decide (label_taker (given ++ [kv]) kv.1 = Some kv.1) then 0 else 1).
Proof.
  rewrite filter_app, length_app, filter_cons, filter_nil. f_equal.
  - f_equal. apply filter_ext_elem. intros x Hx.
    rewrite (label_taker_stable given kv x.1); [done|]. apply list_elem_of_fmap. eauto.
  - by do 2 case_decide.
Qed.

Lemma resource_inv_warn given before c kv w :
  label_taker given kv.1 ≠ Some kv.1 →
  (∀ k, label_taker (given ++ [kv]) k = Some k ↔ label_taker given k = Some k) →
  resource_inv given before c → resource_inv (given ++ [kv]) before (warn c w).
Proof.
  intros Hlose Hsame [He Hn Hw]. split; [|done|].
  - intros k v. cbn. rewrite He, Hsame, last_value_snoc. destruct (decide (kv.1 = k)) as [<-|]; [|done]. naive_solver.
  - cbn. rewrite losers_snoc, length_app, Hw, decide_False by (by rewrite Hsame). cbn. lia.
Qed.

(** Once a label is taken, it is taken. *)
Lemma label_taker_taken given kv k0 :
  label_taker given kv.1 = Some k0 → ∀ k, label_taker (given ++ [kv]) k = Some k ↔ label_taker given k = Some k.
Proof.
  intros Ht k. rewrite label_taker_snoc. destruct (label_taker given k) eqn:E; [done|].
  case_decide as Hd; [|done]. destruct Hd as [_ Hd]. apply (label_taker_same given) in Hd. congruence.
Qed.

Lemma resource_step_inv given before c kv :
  resource_inv given before c → resource_inv (given ++ [kv]) before (resource_step c kv).
Proof.
  intros Hi. pose proof Hi as [He Hn Hw]. destruct (resource_step_cases c kv) as [[Hk [w ->]]|[Hk ->]].
  { apply resource_inv_warn; [|intros k|done].
    - intros Ht. by apply label_taker_label in Ht as [_ ?].
    - rewrite label_taker_snoc, decide_False by tauto. by destruct (label_taker given k). }
  unfold appendResourceAttribute. pose proof (replace_or_refuse_spec (resourceAttrs c) kv) as Hspec.
  destruct (replace_or_refuse _ _) as [[attrs|key]|].
  - destruct Hspec as (l & v & r & E & -> & _).
    assert (label_taker given kv.1 = Some kv.1) as Ht by (apply (He kv.1 v); rewrite E; apply elem_of_app; right; left).
    split; cbn.
    + intros k v'. rewrite (label_taker_taken given kv kv.1 Ht k), last_value_snoc.
      rewrite E in Hn, He. rewrite fmap_app in Hn. cbn in Hn. apply NoDup_app in Hn as (_ & Hl & [Hr _]%NoDup_cons).
      assert (Hother : ∀ x, (kv.1, x) ∉ l ++ r).
      { intros x [Hin|Hin]%elem_of_app.
        - apply (Hl kv.1); [apply list_elem_of_fmap; by exists (kv.1, x)|left].
        - apply Hr, list_elem_of_fmap. by exists (kv.1, x). }
      destruct (decide (kv.1 = k)) as [<-|Hne].
      * split.
        -- intros Hin. split; [done|]. apply elem_of_app in Hin as [Hin|[Heq|Hin]%elem_of_cons].
           ++ destruct (Hother v'). apply elem_of_app. by left.
           ++ by rewrite <- Heq.
           ++ destruct (Hother v'). apply elem_of_app. by right.
        -- intros [_ [= <-]]. rewrite <- surjective_pairing. apply elem_of_app. right. left.
      * rewrite <- He, !elem_of_app, !elem_of_cons.
        split; intros [?|[Heq|?]]; auto; destruct Hne; [by rewrite <- Heq|by injection Heq].
    + rewrite E in Hn. rewrite fmap_app in *. done.
    + rewrite losers_snoc, decide_True, Hw by by apply (label_taker_taken given kv kv.1 Ht). lia.
  - destruct Hspec as ([k0 v0] & Hin & <- & Hsame & Hne). cbn in *.
    apply He in Hin as [Ht _]. apply (label_taker_same given) in Hsame. rewrite Ht in Hsame.
    apply resource_inv_warn; [congruence|by eapply label_taker_taken|done].
  - assert (label_taker given kv.1 = None) as Ht.
    { destruct (label_taker given kv.1) as [k0|] eqn:Et; [|done]. destruct (label_taker_label _ _ _ Et) as [Hs _].
      destruct (last_value_some given k0 (label_taker_in _ _ _ Et)) as [v0 Hv].
      pose proof (proj2 (He k0 v0) (conj (label_taker_self _ _ _ Et) Hv)) as Hin.
      apply Hspec in Hin. cbn in Hin. congruence. }
    assert (label_taker (given ++ [kv]) kv.1 = Some kv.1) as Ht'.
    { rewrite label_taker_snoc, Ht, decide_True; [done|]. split; [done|by apply SameLabel_spec]. }
    split; cbn.
    + intros k v. rewrite last_value_snoc. destruct (decide (kv.1 = k)) as [<-|Hne].
      * rewrite Ht'. split; [|intros [_ [= <-]]; rewrite <- surjective_pairing; apply elem_of_app; right; left].
        intros [Hin|Hin]%elem_of_app; [apply He in Hin as [? _]; congruence|].
        apply list_elem_of_singleton in Hin. by rewrite <- Hin.
      * rewrite label_taker_snoc. rewrite elem_of_app, He, list_elem_of_singleton.
        split; [intros [[-> ->]|Heq]; [done|]; by subst|].
        destruct (label_taker given k) eqn:Ek; [by left|]. intros [Hd _]. case_decide; congruence.
    + rewrite fmap_app. apply NoDup_app. split; [done|]. split; [|apply NoDup_singleton].
      intros k (p & -> & Hp)%list_elem_of_fmap Hk'%list_elem_of_singleton.
      apply Hspec in Hp. rewrite Hk' in Hp. apply not_true_iff_false in Hp. by apply Hp, SameLabel_spec.
    + rewrite losers_snoc, decide_True, Hw by done. lia.
Qed.

Lemma resource_fold_inv given before c attrs :
  resource_inv given before c → resource_inv (given ++ attrs) before (foldl resource_step c attrs).
Proof.
  revert given c. induction attrs as [|kv attrs IH]; intros given c Hi; cbn [foldl]; [by rewrite app_nil_r|].
  rewrite cons_middle, (assoc_L (++)). by apply IH, resource_step_inv.
Qed.

Lemma resource_calls_inv given before c calls :
  resource_inv given before c →
  resource_inv (given ++ concat calls) before (foldl (λ c attrs, WithResourceAttributes attrs c) c calls).
Proof.
  revert given c. induction calls as [|attrs calls IH]; intros given c Hi; cbn [foldl concat]; [by rewrite app_nil_r|].
  rewrite (assoc_L (++)). by apply IH, resource_fold_inv.
Qed.

(** What any number of WithResourceAttributes calls leave in the
    configuration. A key is there exactly when it is the first acceptable key
    given for its Prometheus label, with the last value given for it, and once;
    and for every attribute given with another key there is a warning, so none
    is lost silently. *)
Theorem resource_attributes_exact (c : Config) (calls : list (list KeyValue)) :
  resourceAttrs c = [] →
  let given := concat calls in
  let c' := foldl (λ c attrs, WithResourceAttributes attrs c) c calls in
  (∀ k v, (k, v) ∈ resourceAttrs c' ↔ label_taker given k = Some k ∧ last_value given k = Some v)
  ∧ NoDup (fst <$> resourceAttrs c')
  ∧ length (initWarnings c') =
      length (initWarnings c) + length (filter (λ kv : KeyValue, label_taker given kv.1 ≠ Some kv.1) given).
Proof.
  intros Hnil. cbv zeta. destruct (resource_calls_inv [] (length (initWarnings c)) c calls) as [He Hn Hw].
  - split; rewrite ?Hnil; [|constructor|cbn; lia]. intros k v. split; [by intros ?%elem_of_nil|by intros []].
  - by split_and!.
Qed.
End properties.

(** * A configuration *)
#[local] Existing Instance sample_baggage.
Definition sample_options : list (option Option) :=
  [Some (WithServiceName #"svc"); None; Some (WithMaxUniqueRoutes (-1));
   Some (WithResourceAttributes [( #"team", StringValue #"a"); ( #"service-name", StringValue #"evil")]);
   Some (WithResourceAttributes [( #"team", StringValue #"b"); ( #"te-am", StringValue #"c")]);
   Some (WithExtraHTTPServerAttributeKeys [ #"app.name"; #"app_name"; #"le"])].

Lemma options_ok_witness :
  resourceAttrs (configure (λ _, []) sample_options) = [( #"team", StringValue #"b"); ( #"te-am", StringValue #"c")]
  ∧ extraHTTPServerAttrKeys (configure (λ _, []) sample_options) = [ #"app.name"]
  ∧ config_ok (configure (λ _, []) sample_options).
Proof.
  split; [reflexivity|]. split; [reflexivity|]. apply options_ok. unfold sample_options.
  repeat (apply Forall_cons_2; [intros f [= <-]; constructor|]). apply Forall_nil_2.
Defined.

Lemma resource_attributes_exact_witness :
  let c' := foldl (λ c attrs, WithResourceAttributes attrs c) (defaultConfig (λ _, []))
              [[( #"team", StringValue #"a")]; [( #"team", StringValue #"b"); ( #"host.name", StringValue #"c")]] in
  ( #"team", StringValue #"b") ∈ resourceAttrs c' ∧ length (initWarnings c') = 1.
Proof.
  cbv zeta. destruct (resource_attributes_exact (defaultConfig (λ _, []))
    [[( #"team", StringValue #"a")]; [( #"team", StringValue #"b"); ( #"host.name", StringValue #"c")]] eq_refl)
    as (He & _ & Hw).
  split; [|rewrite Hw; reflexivity]. apply He. split; reflexivity.
Defined.
