(* ===== verification/Resource.v ===== *)
(** o11y.go, buildResource: the Resource the three providers share, put together
    from the environment, the detectors, the caller's attributes and the
    service's identity, in this order. The resource package of the OpenTelemetry
    SDK is an interface. *)
From S2P Require Import Prelude Utf8 GoStrings GoCodec GoNum SampleLib Attribute PromLabel ResourceKeys SemconvReserved Baggage Options.
#[local] Open Scope config_scope.

(** The options of resource.New that are used. *)
Inductive resource_option :=
  | WithAttributes (attrs : list KeyValue)
  | WithTelemetrySDK | WithProcessPID | WithProcessExecutableName | WithProcessRuntimeName
  | WithProcessRuntimeVersion | WithHost.

(** No error, ErrPartialResource, or another error with its text. *)
Inductive new_error := NewOk | NewPartial | NewFailed (err : bytes).

Class ResourceApi := {
  resource_New : list resource_option → list KeyValue * new_error;
  resource_Merge : list KeyValue → list KeyValue → bytes + list KeyValue;
  detected : resource_option → list KeyValue;  (* what a detector finds *)
}.
(** The keys each detector may set. *)
Definition detector_keys (o : resource_option) : list bytes :=
  match o with
  | WithAttributes _ => []
  | WithTelemetrySDK => [ #"telemetry.sdk.name"; #"telemetry.sdk.language"; #"telemetry.sdk.version"]
  | WithProcessPID => [ #"process.pid"]
  | WithProcessExecutableName => [ #"process.executable.name"]
  | WithProcessRuntimeName => [ #"process.runtime.name"]
  | WithProcessRuntimeVersion => [ #"process.runtime.version"]
  | WithHost => [ #"host.name"]
  end.
Definition contribution `{ResourceApi} (o : resource_option) : list KeyValue :=
  match o with WithAttributes attrs => attrs | _ => detected o end.
(** The options are applied in order and the last value of a key wins; the
    second Resource of a merge wins. *)
Class ResourceLaws (R : ResourceApi) := {
  detected_keys o kv : kv ∈ detected o → kv.1 ∈ detector_keys o;
  new_attributes opts res : (resource_New opts = (res, NewOk) ∨ resource_New opts = (res, NewPartial)) →
    NoDup (fst <$> res)
    ∧ ∀ k v, (k, v) ∈ res ↔ k ≠ [] ∧ last_value (opts ≫= contribution) k = Some v;
  merge_attributes a b r : resource_Merge a b = inr r →
    ∀ k v, (k, v) ∈ r ↔ k ≠ [] ∧ last_value (a ++ b) k = Some v;
}.

Section build.
Context `{R : ResourceApi, GoPrint}.

Definition service_identity (cfg : Config) : list KeyValue :=
  [( #"service.name", StringValue (serviceName cfg)); ( #"service.version", StringValue (serviceVersion cfg));
   ( #"deployment.environment.name", StringValue (environment cfg));
   ( #"service.namespace", StringValue (namespace cfg))].
Definition resource_options (envAttrs : list KeyValue) (cfg : Config) : list resource_option :=
  [WithAttributes envAttrs; WithTelemetrySDK; WithProcessPID; WithProcessExecutableName; WithProcessRuntimeName;
   WithProcessRuntimeVersion; WithHost]
  ++ (if bool_decide (0 < length (resourceAttrs cfg)) then [WithAttributes (resourceAttrs cfg)] else [])
  ++ ((λ kv, WithAttributes [kv]) <$> service_identity cfg).

(** The configuration with the warnings added, and an error or the Resource and
    the one the providers are given. *)
Definition buildResource (env : env_resource) (cfg : Config) :
    Config * (bytes + list KeyValue * list KeyValue) :=
  let '(envAttrs, dropped, envWarnings) := EnvResourceAttributes env (resourceAttrs cfg) in
  let cfg := cfg <| initWarnings := initWarnings cfg ++ envWarnings |> in
  match resource_New (resource_options envAttrs cfg) with
  | (_, NewFailed err) => (cfg, inl ( #"failed to create resource: " ++ err))
  | (res, _) =>
    let neutralized := NeutralizeEnvKeys dropped in
    if bool_decide (0 < length neutralized) then
      match resource_Merge res neutralized with
      | inl err => (cfg, inl ( #"failed to neutralize environment resource keys: " ++ err))
      | inr providerRes => (cfg, inr (res, providerRes))
      end
    else (cfg, inr (res, res))
  end.
End build.

(** * What the environment loses *)
Definition owned_keys : list bytes := identityResourceKeys ++ detectedResourceKeys.

Lemma owned_owner k : k ∈ owned_keys → (ResourceKeyOwner k).1 = k.
Proof.
  intros Hk. assert (H : Forall (λ k, (ResourceKeyOwner k).1 = k) owned_keys).
  { apply (bool_decide_unpack _). by vm_compute. }
  rewrite Forall_forall in H. auto.
Qed.

Section env_dropped.
Context `{GoPrint} (callerAttrs : list KeyValue).
Hypothesis Hkeys : Forall (λ kv : KeyValue, resource_key_ok kv.1) callerAttrs.
Hypothesis Hlabels : NoDup ((λ kv, label kv) <$> callerAttrs).

(** A key dropped from the environment is neither one the SDK sets nor one of the caller's. *)
Definition dropped_ok (k : bytes) : Prop := k ∉ owned_keys ∧ k ∉ fst <$> callerAttrs.

Lemma caller_labels a b : a ∈ callerAttrs → b ∈ callerAttrs → SameLabel a.1 b.1 = true → a.1 = b.1.
Proof.
  intros Ha Hb Hs%SameLabel_spec. apply list_elem_of_lookup in Ha as [i Hi], Hb as [j Hj].
  assert (i = j) as ->; [|by simplify_eq].
  eapply (NoDup_lookup _ i j (label a)); [exact Hlabels| |]; rewrite list_lookup_fmap, ?Hi, ?Hj; cbn; [done|].
  by rewrite Hs.
Qed.

(** What the loop leaves out, and what it remembers. *)
Record dropped_inv (st : env_state) : Prop := {
  di_dropped : Forall dropped_ok (dropped st);
  di_seen : ∀ l prev, seen st !! l = Some prev → ∃ e, e ∈ kept st ∧ e.1 = prev ∧ label e = l;
}.

Lemma dropped_inv_drop st kv why : dropped_inv st → dropped_ok kv.1 → dropped_inv (drop_with st kv why).
Proof. intros [Hd Hs] Hk. split; cbn; [|done]. apply Forall_app. split; [done|by constructor]. Qed.

Lemma dropped_inv_keep st kv : dropped_inv st → dropped_inv (keep st kv).
Proof.
  intros [Hd Hs]. split; cbn; [done|]. intros l prev [[<- <-]|[_ Hl]]%lookup_insert_Some.
  - exists kv. split; [apply elem_of_app; right; left|done].
  - destruct (Hs l prev Hl) as (e & He & ?). exists e. split; [apply elem_of_app; by left|done].
Qed.

Lemma env_step_dropped done_ st kv :
  env_inv callerAttrs done_ st → Forall (λ kv : KeyValue, kv.1 ≠ []) done_ → kv.1 ∉ fst <$> done_ →
  dropped_inv st → dropped_inv (env_step callerAttrs st kv).
Proof.
  intros Hi Hne Hnew Hd. rewrite Forall_forall in Hkeys, Hne.
  unfold env_step. case_bool_decide as Ho; [by apply dropped_inv_keep|].
  assert (Hnot : kv.1 ∉ owned_keys) by (intros Hin%owned_owner; done).
  assert (Hcaller : ¬ resource_key_ok kv.1 → dropped_ok kv.1).
  { intros Hbad. split; [done|]. intros (c & Hc & Hin)%list_elem_of_fmap. apply Hbad. rewrite Hc. by apply Hkeys. }
  unfold resource_key_ok in Hcaller.
  case_bool_decide as Hn; cbn [negb]; [|apply dropped_inv_drop; naive_solver].
  destruct (IsTelemetrySDKKey kv.1) eqn:Ht; [apply dropped_inv_drop; naive_solver|].
  destruct (IsProcessKey kv.1) eqn:Hp; [apply dropped_inv_drop; naive_solver|].
  destruct (IsReservedAttributeKey kv.1) eqn:Hr; [apply dropped_inv_drop; naive_solver|].
  case_bool_decide as Ha; cbn [negb].
  - destruct (seen st !! label kv) as [prev|] eqn:Hs; [|by apply dropped_inv_keep].
    apply dropped_inv_drop; [done|]. split; [done|]. intros (c & Hc & Hin)%list_elem_of_fmap.
    destruct (di_seen _ Hd _ _ Hs) as (e & He & _ & Hlab).
    pose proof (inv_sub _ _ _ Hi e He) as Hdone.
    assert (e.1 ≠ kv.1) as Hdiff by (intros Heq; apply Hnew; rewrite <- Heq; apply list_elem_of_fmap; eauto).
    pose proof (inv_ok _ _ _ Hi) as Hok. rewrite Forall_forall in Hok. destruct (Hok e He) as [Eo|(_ & _ & _ & _ & Hal)].
    + apply (Hne e Hdone). rewrite <- Eo, <- Hn. f_equal. by apply ResourceKeyOwner_label, SameLabel_spec.
    + apply Hdiff. rewrite Hc. symmetry. eapply aliasOf_none; [exact Hal| |exact Hin|].
      * apply Forall_forall. intros x Hx. by apply Hkeys.
      * apply SameLabel_spec. by rewrite <- Hc.
  - apply dropped_inv_drop; [done|]. split; [done|]. intros (c & Hc & Hin)%list_elem_of_fmap.
    unfold aliasOf in Ha. destruct (head _) as [x|] eqn:E; [|done].
    apply head_filter_some in E as [[Hx Hsame] Hxin]. apply Hx. rewrite Hc in *. by apply caller_labels.
Qed.

Lemma env_fold_dropped done_ attrs st :
  env_inv callerAttrs done_ st → Forall (λ kv : KeyValue, kv.1 ≠ []) (done_ ++ attrs) →
  NoDup (fst <$> (done_ ++ attrs)) → dropped_inv st →
  dropped_inv (foldl (env_step callerAttrs) st attrs).
Proof.
  revert done_ st. induction attrs as [|kv attrs IH]; intros done_ st Hi Hne Hnd Hd; cbn [foldl]; [done|].
  rewrite (cons_middle kv done_ attrs), (assoc_L (++)) in *.
  pose proof Hne as [[Hne1 Hk]%Forall_app _]%Forall_app. apply Forall_cons in Hk as [Hk _].
  assert (kv.1 ∉ fst <$> done_) as Hnew.
  { intros Hin. rewrite !fmap_app, <- (assoc_L (++)) in Hnd. apply NoDup_app in Hnd as (_ & Hdis & _).
    apply (Hdis _ Hin). apply elem_of_app. left. left. }
  apply (IH (done_ ++ [kv])); [by apply env_step_inv|done|done|by eapply env_step_dropped].
Qed.
End env_dropped.

(** * The Resource *)
Section resource.
Context `{R : ResourceApi, !ResourceLaws R, B : BaggageApi, P : GoPrint}.

Lemma last_value_app given more k :
  last_value (given ++ more) k = match last_value more k with Some v => Some v | None => last_value given k end.
Proof. unfold last_value. rewrite filter_app, fmap_app. apply last_app. Qed.

Lemma last_value_elem l k v : last_value l k = Some v → (k, v) ∈ l.
Proof.
  unfold last_value. intros Hv%last_Some_elem_of. apply list_elem_of_fmap in Hv as ([k' v'] & -> & Hin).
  by apply list_elem_of_filter in Hin as [<- Hin].
Qed.

Lemma last_value_none l k : last_value l k = None ↔ k ∉ fst <$> l.
Proof.
  split.
  - intros Hn Hin. destruct (last_value_some l k Hin). congruence.
  - intros Hn. destruct (last_value l k) as [v|] eqn:E; [|done]. destruct Hn.
    apply last_value_elem in E. apply list_elem_of_fmap. by exists (k, v).
Qed.

(** The attributes of a Resource: keys that are there, and distinct. *)
Definition env_ok (env : env_resource) : Prop :=
  match env with
  | EnvAttributes attrs => NoDup (fst <$> attrs) ∧ Forall (λ kv : KeyValue, kv.1 ≠ []) attrs
  | _ => True
  end.
Definition env_keys (env : env_resource) : list bytes :=
  match env with EnvAttributes attrs => fst <$> attrs | _ => [] end.

(** What EnvResourceAttributes keeps and drops. *)
Record env_facts (callers kept : list KeyValue) (dropped keys : list bytes) : Prop := {
  ef_kept : Forall (env_kept_ok callers) kept;
  ef_labels : NoDup ((λ kv, label kv) <$> kept);
  ef_dropped : Forall (dropped_ok callers) dropped;
  ef_split : (fst <$> kept) ++ dropped ≡ₚ keys;
  ef_distinct : NoDup keys;
  ef_nonempty : Forall (λ k, k ≠ []) keys;
}.

Lemma EnvResourceAttributes_facts env cfg :
  config_ok cfg → env_ok env →
  let '(kept, dropped, _) := EnvResourceAttributes env (resourceAttrs cfg) in
  env_facts (resourceAttrs cfg) kept dropped (env_keys env).
Proof.
  intros Hc He. destruct env as [err| |attrs]; cbn; [split; constructor..|]. destruct He as [Hnd Hne].
  pose proof (env_fold_inv (resourceAttrs cfg) [] attrs env_start (env_start_inv _) Hne Hnd) as [].
  destruct (env_fold_dropped (resourceAttrs cfg) (ok_resource_keys _ Hc) (ok_resource_labels _ Hc)
    [] attrs env_start (env_start_inv _)) as [Hd _]; [done|done|by split; [apply Forall_nil_2|intros ? ?; cbn; rewrite lookup_empty]|].
  split; [done|done|done|done|done|]. by apply Forall_fmap.
Qed.

Lemma owned_nonempty k : k ∈ owned_keys → k ≠ [].
Proof.
  intros Hk. assert (H : Forall (λ k, k ≠ []) owned_keys) by (apply (bool_decide_unpack _); by vm_compute).
  rewrite Forall_forall in H. auto.
Qed.

Lemma owned_unique a b : a ∈ owned_keys → b ∈ owned_keys → SameLabel a b = true → a = b.
Proof. intros Ha%owned_owner Hb%owned_owner Hs%ResourceKeyOwner_label. congruence. Qed.

Lemma owner_owned k : (ResourceKeyOwner k).1 = k → k ≠ [] → k ∈ owned_keys.
Proof. intros Ho Hk. destruct (ResourceKeyOwner_spec k) as [H _]. rewrite Ho in H. by apply H. Qed.

Lemma owned_no_owner a b : a ∈ owned_keys → (ResourceKeyOwner b).1 = [] → SameLabel a b = false.
Proof.
  intros Ha Hb. destruct (SameLabel a b) eqn:E; [|done]. apply ResourceKeyOwner_label in E.
  destruct (owned_nonempty a Ha). rewrite <- (owned_owner a Ha). by rewrite E.
Qed.

(** Where a key of the Resource comes from. *)
Definition key_source (callers kept : list KeyValue) (k : bytes) : Prop :=
  k ∈ owned_keys
  ∨ k ∈ fst <$> kept ∧ (ResourceKeyOwner k).1 = [] ∧ IsTelemetrySDKKey k = false ∧ IsProcessKey k = false
    ∧ IsReservedAttributeKey k = false ∧ aliasOf k callers = []
  ∨ k ∈ fst <$> callers ∧ resource_key_ok k.

Lemma SameLabel_sym a b : SameLabel a b = SameLabel b a.
Proof. unfold SameLabel. by apply bool_decide_ext. Qed.

Lemma key_source_unique callers kept dropped keys a b :
  env_facts callers kept dropped keys → Forall (λ kv : KeyValue, resource_key_ok kv.1) callers →
  NoDup ((λ kv, label kv) <$> callers) →
  key_source callers kept a → key_source callers kept b → SameLabel a b = true → a = b.
Proof.
  intros Hf Hkeys Hlabels Ha Hb Hs.
  assert (Hcal : ∀ x y, x ∈ fst <$> kept → aliasOf x callers = [] → y ∈ fst <$> callers → SameLabel x y = true → x = y).
  { intros x y _ Hal (c & -> & Hc)%list_elem_of_fmap Hxy. symmetry. eapply aliasOf_none; [exact Hal| |exact Hc|].
    - eapply Forall_impl; [exact Hkeys|]. by intros ? [? _].
    - by rewrite SameLabel_sym. }
  destruct Ha as [Ha|[(Hak & Hao & _ & _ & _ & Hal)|[Hac Hao]]], Hb as [Hb|[(Hbk & Hbo & _ & _ & _ & Hbl)|[Hbc Hbo]]].
  - by apply owned_unique.
  - pose proof (owned_no_owner a b Ha Hbo). congruence.
  - pose proof (owned_no_owner a b Ha (proj1 (proj2 Hbo))). congruence.
  - pose proof (owned_no_owner b a Hb Hao). rewrite SameLabel_sym in Hs. congruence.
  - apply list_elem_of_fmap in Hak as (x & -> & Hx), Hbk as (y & -> & Hy).
    apply (list_elem_of_lookup) in Hx as [i Hi], Hy as [j Hj].
    assert (i = j) as ->; [|by simplify_eq].
    eapply (NoDup_lookup _ i j (label x)); [exact (ef_labels _ _ _ _ Hf)| |];
      rewrite list_lookup_fmap, ?Hi, ?Hj; cbn; [done|]. by rewrite (proj1 (SameLabel_spec _ _) Hs).
  - by apply Hcal.
  - pose proof (owned_no_owner b a Hb (proj1 (proj2 Hao))). rewrite SameLabel_sym in Hs. congruence.
  - symmetry. apply Hcal; try done. by rewrite SameLabel_sym.
  - apply list_elem_of_fmap in Hac as (x & -> & Hx), Hbc as (y & -> & Hy). by eapply caller_labels.
Qed.

Definition collected (envAttrs : list KeyValue) (cfg : Config) : list KeyValue :=
  resource_options envAttrs cfg ≫= contribution.

Lemma collected_eq envAttrs cfg :
  collected envAttrs cfg = envAttrs
    ++ ([WithTelemetrySDK; WithProcessPID; WithProcessExecutableName; WithProcessRuntimeName;
         WithProcessRuntimeVersion; WithHost] ≫= detected)
    ++ resourceAttrs cfg ++ service_identity cfg.
Proof.
  unfold collected, resource_options. rewrite !bind_app. cbn [mbind list_bind contribution fmap list_fmap service_identity].
  rewrite !app_nil_r. rewrite <- !(assoc_L (++)). do 7 f_equal.
  case_bool_decide as Hl; cbn [mbind list_bind contribution app]; [by rewrite app_nil_r|].
  by destruct (resourceAttrs cfg); [|cbn in Hl; lia].
Qed.

Lemma detected_owned kv :
  kv ∈ [WithTelemetrySDK; WithProcessPID; WithProcessExecutableName; WithProcessRuntimeName;
        WithProcessRuntimeVersion; WithHost] ≫= detected → kv.1 ∈ owned_keys.
Proof.
  intros (o & Hkv & Ho)%list_elem_of_bind. apply detected_keys in Hkv.
  assert (H : Forall (λ o, Forall (λ k, k ∈ owned_keys) (detector_keys o))
    [WithTelemetrySDK; WithProcessPID; WithProcessExecutableName; WithProcessRuntimeName;
     WithProcessRuntimeVersion; WithHost]).
  { apply (bool_decide_unpack _). by vm_compute. }
  rewrite Forall_forall in H. specialize (H o Ho). rewrite Forall_forall in H. auto.
Qed.

Lemma identity_owned cfg kv : kv ∈ service_identity cfg → kv.1 ∈ identityResourceKeys.
Proof.
  intros Hin. assert (kv.1 ∈ fst <$> service_identity cfg) as H by (apply list_elem_of_fmap; eauto).
  cbn in H. unfold identityResourceKeys. set_solver.
Qed.

Lemma collected_source callers kept dropped keys cfg k :
  env_facts callers kept dropped keys → callers = resourceAttrs cfg → Forall (λ kv : KeyValue, resource_key_ok kv.1) callers →
  k ∈ fst <$> collected kept cfg → key_source callers kept k.
Proof.
  intros Hf -> Hkeys (kv & -> & Hin)%list_elem_of_fmap. rewrite collected_eq in Hin.
  rewrite !elem_of_app in Hin. destruct Hin as [Hin|[Hin|[Hin|Hin]]].
  - assert (kv.1 ≠ []) as Hne.
    { pose proof (ef_nonempty _ _ _ _ Hf) as Hall. rewrite Forall_forall in Hall. apply Hall.
      rewrite <- (ef_split _ _ _ _ Hf). apply elem_of_app. left. apply list_elem_of_fmap. eauto. }
    pose proof (ef_kept _ _ _ _ Hf) as Hk. rewrite Forall_forall in Hk. destruct (Hk kv Hin) as [Ho|Ho].
    + left. by apply owner_owned.
    + right. left. split; [apply list_elem_of_fmap; eauto|naive_solver].
  - left. by apply detected_owned.
  - right. right. rewrite Forall_forall in Hkeys. split; [apply list_elem_of_fmap; eauto|auto].
  - left. apply elem_of_app. left. by eapply identity_owned.
Qed.

Lemma last_value_unique l k v : NoDup (fst <$> l) → (k, v) ∈ l → last_value l k = Some v.
Proof.
  intros Hnd Hin. destruct (last_value l k) as [w|] eqn:E.
  - apply last_value_elem in E. apply list_elem_of_lookup in Hin as [i Hi], E as [j Hj].
    assert (i = j) as ->; [|by simplify_eq].
    eapply (NoDup_lookup _ i j k); [exact Hnd| |]; by rewrite list_lookup_fmap, ?Hi, ?Hj.
  - apply last_value_none in E. destruct E. apply list_elem_of_fmap. by exists (k, v).
Qed.

Lemma identity_value cfg k v : (k, v) ∈ service_identity cfg → last_value (service_identity cfg) k = Some v.
Proof. apply last_value_unique. cbn. apply (bool_decide_unpack _). by vm_compute. Qed.

Lemma caller_value cfg k v : config_ok cfg → (k, v) ∈ resourceAttrs cfg → last_value (resourceAttrs cfg) k = Some v.
Proof.
  intros Hc. apply last_value_unique. apply (NoDup_fmap_1 NormalizePrometheusLabelName).
  rewrite <- list_fmap_compose. exact (ok_resource_labels _ Hc).
Qed.

Lemma neutralized_value dropped k :
  last_value (NeutralizeEnvKeys dropped) k = if decide (k ∈ dropped) then Some (StringValue []) else None.
Proof.
  assert (Hkeys : k ∈ fst <$> NeutralizeEnvKeys dropped ↔ k ∈ dropped).
  { unfold NeutralizeEnvKeys. rewrite <- list_fmap_compose. change (fst ∘ _) with (@id bytes). by rewrite list_fmap_id. }
  case_decide as Hk.
  - destruct (last_value_some _ _ (proj2 Hkeys Hk)) as [v Hv]. rewrite Hv.
    apply last_value_elem in Hv. unfold NeutralizeEnvKeys in Hv. by apply list_elem_of_fmap in Hv as (x & [= _ ->] & _).
  - apply last_value_none. by rewrite Hkeys.
Qed.

(** What buildResource gives when it succeeds, by key. *)
Lemma buildResource_inr env cfg cfg' res providerRes :
  buildResource env cfg = (cfg', inr (res, providerRes)) →
  let '(kept, dropped, _) := EnvResourceAttributes env (resourceAttrs cfg) in
  NoDup (fst <$> res)
  ∧ (∀ k v, (k, v) ∈ res ↔ k ≠ [] ∧ last_value (collected kept cfg) k = Some v)
  ∧ ((dropped = [] ∧ providerRes = res)
     ∨ ∀ k v, (k, v) ∈ providerRes ↔ k ≠ [] ∧ (v = StringValue [] ∧ k ∈ dropped ∨ (k, v) ∈ res ∧ k ∉ dropped)).
Proof.
  unfold buildResource. destruct (EnvResourceAttributes env (resourceAttrs cfg)) as [[kept dropped] ws].
  intros Hb. remember (cfg <| initWarnings := initWarnings cfg ++ ws |>) as cfg1 eqn:Ec1.
  assert (collected kept cfg1 = collected kept cfg) as Eall by (by subst).
  destruct (resource_New (resource_options kept cfg1)) as [res0 err] eqn:En.
  assert (err = NewOk ∨ err = NewPartial → res0 = res →
    NoDup (fst <$> res) ∧ ∀ k v, (k, v) ∈ res ↔ k ≠ [] ∧ last_value (collected kept cfg) k = Some v) as Hnew.
  { intros He <-. rewrite <- Eall. apply new_attributes. rewrite En. destruct He as [-> | ->]; auto. }
  assert (Hout : (err = NewOk ∨ err = NewPartial) ∧ res0 = res
    ∧ (if bool_decide (0 < length (NeutralizeEnvKeys dropped)) then resource_Merge res (NeutralizeEnvKeys dropped) = inr providerRes
       else providerRes = res)).
  { case_bool_decide; destruct err; simplify_eq; try (destruct (resource_Merge _ _) eqn:Em; simplify_eq); auto. }
  destruct Hout as (He & -> & Hm). destruct (Hnew He eq_refl) as [Hnd Hres]. split_and!; [done|done|].
  case_bool_decide as Hlen.
  - right. intros k v. rewrite (merge_attributes _ _ _ Hm), last_value_app, neutralized_value.
    assert (last_value res k = Some v ↔ (k, v) ∈ res) by (split; [apply last_value_elem|by apply last_value_unique]).
    case_decide; naive_solver.
  - left. split; [|done]. destruct dropped; [done|]. cbn in Hlen. lia.
Qed.

(** C5: the Resource of every provider. Under any well-formed configuration and
    any environment, when buildResource succeeds: the service's identity is the
    configured one, whatever the environment says; every attribute of the caller
    is in with its own value; no two attributes have one Prometheus label, so the
    exporter joins none of them; every key the SDK does not set itself is outside
    telemetry.sdk.* and process.* and none the exporter reserves; and the
    Resource the providers are given is that one and, for keys of the environment
    that are not in it, an empty value. *)
Theorem resource_sound (env : env_resource) (cfg cfg' : Config) (res providerRes : list KeyValue) :
  config_ok cfg → env_ok env → buildResource env cfg = (cfg', inr (res, providerRes)) →
  (∀ kv, kv ∈ service_identity cfg → kv ∈ res)
  ∧ (∀ kv, kv ∈ resourceAttrs cfg → kv ∈ res)
  ∧ (∀ x y, x ∈ res → y ∈ res → SameLabel x.1 y.1 = true → x = y)
  ∧ (∀ kv, kv ∈ res → kv.1 ∈ owned_keys
       ∨ IsTelemetrySDKKey kv.1 = false ∧ IsProcessKey kv.1 = false ∧ IsReservedAttributeKey kv.1 = false)
  ∧ (∀ k v, (k, v) ∈ providerRes ↔
       (k, v) ∈ res ∨ v = StringValue [] ∧ k ∈ (EnvResourceAttributes env (resourceAttrs cfg)).1.2)
  ∧ (∀ k, k ∈ (EnvResourceAttributes env (resourceAttrs cfg)).1.2 → k ∈ env_keys env ∧ k ∉ fst <$> res).
Proof.
  intros Hc He Hb%buildResource_inr. pose proof (EnvResourceAttributes_facts env cfg Hc He) as Hf.
  destruct (EnvResourceAttributes env (resourceAttrs cfg)) as [[kept dropped] ws]. cbn [fst snd].
  destruct Hb as (Hnd & Hres & Hprov).
  pose proof (ok_resource_keys _ Hc) as Hkeys. pose proof (ok_resource_labels _ Hc) as Hlabels.
  assert (Hsource : ∀ x, x ∈ res → key_source (resourceAttrs cfg) kept x.1).
  { intros [k v] [_ Hv%last_value_elem]%Hres. eapply collected_source; [exact Hf|done|done|].
    apply list_elem_of_fmap. by exists (k, v). }
  assert (Hdropped : ∀ k, k ∈ dropped → k ∈ env_keys env ∧ k ∉ fst <$> res).
  { intros k Hk. split; [rewrite <- (ef_split _ _ _ _ Hf); apply elem_of_app; by right|].
    intros (x & -> & Hx)%list_elem_of_fmap. pose proof (ef_dropped _ _ _ _ Hf) as Hd. rewrite Forall_forall in Hd.
    destruct (Hd _ Hk) as [Hown Hcal]. destruct (Hsource x Hx) as [?|[[Hin _]|[? _]]]; [done| |done].
    pose proof (ef_distinct _ _ _ _ Hf) as Hdis. rewrite <- (ef_split _ _ _ _ Hf) in Hdis.
    apply NoDup_app in Hdis as (_ & Hdis & _). by apply (Hdis x.1). }
  split_and!.
  - intros [k v] Hin. apply Hres. split.
    + apply owned_nonempty, elem_of_app. left. by apply (identity_owned cfg (k, v)).
    + rewrite collected_eq, !last_value_app, (identity_value cfg k v Hin). done.
  - intros [k v] Hin. pose proof Hkeys as Hall. rewrite Forall_forall in Hall. pose proof (Hall _ Hin) as Hok.
    apply Hres. split; [apply Hok|]. rewrite collected_eq, !last_value_app.
    rewrite (proj2 (last_value_none (service_identity cfg) k)).
    + by rewrite (caller_value cfg k v Hc Hin).
    + intros (x & -> & Hx)%list_elem_of_fmap. destruct Hok as (_ & Ho & _).
      pose proof (identity_owned _ _ Hx) as Hid. assert (x.1 ∈ owned_keys) as Hown by (apply elem_of_app; by left).
      cbn in Ho. rewrite owned_owner in Ho by done. by apply (owned_nonempty x.1).
  - intros x y Hx Hy Hs. assert (x.1 = y.1) as Hk by (eapply key_source_unique; eauto).
    destruct x as [k v], y as [k' v']. cbn in Hk. subst k'. f_equal.
    apply Hres in Hx as [_ Hx], Hy as [_ Hy]. congruence.
  - intros x Hx. destruct (Hsource x Hx) as [?|[(_ & _ & ? & ? & ? & _)|(_ & _ & _ & ? & ? & ?)]]; auto.
  - intros k v. destruct Hprov as [[-> ->]|Hprov].
    + split; [by left|intros [?|[_ Hn]]; [done|by apply elem_of_nil in Hn]].
    + rewrite Hprov. split; [naive_solver|]. intros [Hin|[-> Hk]].
      * split; [by apply Hres in Hin as [? _]|]. right. split; [done|]. intros Hk. apply Hdropped in Hk as [_ Hk].
        apply Hk, list_elem_of_fmap. by exists (k, v).
      * split; [|by left]. pose proof (ef_nonempty _ _ _ _ Hf) as Hall. rewrite Forall_forall in Hall.
        apply Hall, Hdropped, Hk.
  - exact Hdropped.
Qed.
End resource.

(** * A process *)
Definition put (res : list KeyValue) (kv : KeyValue) : list KeyValue :=
  if decide (kv.1 = []) then res else filter (λ x : KeyValue, x.1 ≠ kv.1) res ++ [kv].
#[local] Instance sample_resource_api : ResourceApi := {|
  resource_New := λ opts,
    (foldl put [] (opts ≫= λ o, match o with
       | WithAttributes attrs => attrs
       | o => (λ k, (k, StringValue #"detected")) <$> detector_keys o end), NewOk);
  resource_Merge := λ a b, inr (foldl put [] (a ++ b));
  detected := λ o, (λ k, (k, StringValue #"detected")) <$> detector_keys o;
|}.

Lemma filter_keys (res : list KeyValue) k : fst <$> filter (λ x : KeyValue, x.1 ≠ k) res = filter (λ x, x ≠ k) (fst <$> res).
Proof. induction res as [|x res IH]; [done|]. rewrite fmap_cons, !filter_cons, <- IH. by case_decide. Qed.

Lemma put_spec l : 
  NoDup (fst <$> foldl put [] l) ∧ ∀ k v, (k, v) ∈ foldl put [] l ↔ k ≠ [] ∧ last_value l k = Some v.
Proof.
  induction l as [|kv l [IHn IH]] using rev_ind.
  { split; [constructor|]. intros k v. split; [by intros ?%elem_of_nil|by intros []]. }
  rewrite foldl_app. cbn [foldl]. set (res := foldl put [] l) in *. unfold put. split.
  - case_decide; [done|]. rewrite fmap_app. apply NoDup_app. split; [|split; [|apply NoDup_singleton]].
    + rewrite filter_keys. by apply NoDup_filter.
    + intros k (x & -> & [Hx _]%list_elem_of_filter)%list_elem_of_fmap Hk%list_elem_of_singleton. done.
  - intros k v. rewrite last_value_snoc. case_decide as Hz.
    + rewrite IH. case_decide; naive_solver.
    + rewrite elem_of_app, list_elem_of_filter, IH, list_elem_of_singleton. destruct kv as [k0 v0]. cbn in *.
      case_decide; naive_solver.
Qed.

#[local] Instance sample_resource_laws : ResourceLaws sample_resource_api.
Proof.
  split.
  - by intros o kv (k & -> & Hk)%list_elem_of_fmap.
  - intros opts res [[= <-]|[=]]. apply put_spec.
  - intros a b r [= <-]. apply put_spec.
Qed.

#[local] Existing Instance sample_baggage.
Lemma resource_sound_witness :
  let env := EnvAttributes [( #"service.name", StringValue #"evil"); ( #"te_am", StringValue #"e"); ( #"zone", StringValue #"z")] in
  let cfg := configure (λ _, []) sample_options in
  ∃ res, (buildResource env cfg).2 = inr res
  ∧ ( #"service.name", StringValue #"svc") ∈ res.1 ∧ ( #"te-am", StringValue #"c") ∈ res.2.
Proof.
  cbv zeta.
  destruct (buildResource (EnvAttributes [( #"service.name", StringValue #"evil"); ( #"te_am", StringValue #"e");
    ( #"zone", StringValue #"z")]) (configure (λ _, []) sample_options)) as [cfg' [err|[res providerRes]]] eqn:E;
    [vm_compute in E; discriminate|].
  assert (Hc : config_ok (configure (λ _, []) sample_options)).
  { apply options_ok. unfold sample_options. repeat (apply Forall_cons_2; [intros f [= <-]; constructor|]). apply Forall_nil_2. }
  assert (He : env_ok (EnvAttributes [( #"service.name", StringValue #"evil"); ( #"te_am", StringValue #"e");
    ( #"zone", StringValue #"z")])) by (split; apply (bool_decide_unpack _); by vm_compute).
  destruct (resource_sound _ _ _ res providerRes Hc He E)
    as (Hid & Hcaller & _ & _ & Hprov & _).
  exists (res, providerRes). split; [reflexivity|]. split.
  - apply Hid. left.
  - apply Hprov. left. apply Hcaller. right. left.
Defined.
