(* ===== verification/InitConfig.v ===== *)
(** o11y.go, what Init checks and completes in the configuration before it builds
    anything: the deployment environment, the histogram boundaries, the sampler
    and the baggage whitelist. An error is its text; None is no error. *)
From Stdlib Require Import Floats.SpecFloat.
From S2P Require Import Prelude Utf8 GoStrings GoCodec GoNum SampleLib Attribute PromLabel ResourceKeys SemconvReserved Baggage Options.
#[local] Open Scope config_scope.

(** * The deployment environment *)
Definition envAliases : list (bytes * bytes) :=
  [( #"production", #"production"); ( #"prod", #"production"); ( #"staging", #"staging"); ( #"stage", #"staging");
   ( #"stg", #"staging"); ( #"development", #"development"); ( #"develop", #"development");
   ( #"dev", #"development"); ( #"testing", #"testing"); ( #"test", #"testing")].
Definition alias_lookup (env : bytes) : option bytes :=
  snd <$> head (filter (λ p : bytes * bytes, p.1 = env) envAliases).

Definition normalizeEnvironment `{GoUnicode, GoPrint} (env : bytes) : bytes + bytes :=
  let env := ToLower (TrimSpace env) in
  if bool_decide (env = []) then
    inl ( #"deployment environment is required (use WithEnvironment); "
          ++ #"accepted values: production, staging, development, testing")
  else
    match alias_lookup env with
    | Some canonical => inr canonical
    | None => inl ( #"unknown deployment environment " ++ quoted env
                    ++ #"; accepted values: production, staging, development, testing")
    end.

(** * Histogram boundaries *)
Definition IsNaN (f : float64) : bool := match f with S754_nan => true | _ => false end.
Definition IsInf (f : float64) : bool := match f with S754_infinity _ => true | _ => false end.

Section boundaries.
(** %v of a float64 *)
Context (format_float : float64 → bytes) `{GoPrint}.

(** The loop, from index [i] on, with the boundary before it. *)
Fixpoint check_boundaries (i : nat) (before : option float64) (buckets : list float64) : option bytes :=
  match buckets with
  | [] => None
  | b :: rest =>
    let bucket := #"bucket[" ++ dec (N.of_nat i) ++ #"]" in
    if IsNaN b || IsInf b then
      Some ( #"histogram " ++ bucket ++ #" = " ++ format_float b ++ #" must be a finite number")
    else if SFleb b (S754_zero false) then
      Some ( #"histogram " ++ bucket ++ #" = " ++ format_float b ++ #" must be strictly positive (seconds)")
    else
      match before with
      | Some prev =>
        if SFleb b prev then
          Some ( #"histogram buckets must be strictly increasing: " ++ bucket ++ #"=" ++ format_float b
                 ++ #" is not greater than bucket[" ++ dec (N.of_nat (i - 1)) ++ #"]=" ++ format_float prev)
        else check_boundaries (S i) (Some b) rest
      | None => check_boundaries (S i) (Some b) rest
      end
  end.
Definition checkHistogramBoundaries (buckets : list float64) : option bytes :=
  if bool_decide (buckets = []) then Some #"histogram buckets must not be empty"
  else check_boundaries 0 None buckets.
Definition validateHistogramBuckets (buckets : list float64) : option bytes :=
  if bool_decide (buckets = []) then
    Some ( #"histogram buckets must not be empty (use WithHistogramBuckets " ++ #"to override, or accept the default)")
  else checkHistogramBoundaries buckets.

(** instrumentNamePattern: ^[A-Za-z][A-Za-z0-9_./-]{0,254}$ *)
Definition instrument_name_byte (c : ascii) : bool := is_alnum c || byte_in #"_./-" c.
Definition instrumentNamePattern (name : bytes) : bool :=
  match name with
  | [] => false
  | c :: rest => is_alpha c && forallb instrument_name_byte rest && (length rest <=? 254)
  end.

Definition override_for (name : bytes) : bytes := #"histogram bucket override for " ++ quoted name ++ #": ".
Definition check_override (name : bytes) (buckets : list float64) : option bytes :=
  if bool_decide (TrimSpace name = []) then
    Some ( #"histogram bucket override: instrument name must not be empty " ++ #"(WithInstrumentHistogramBuckets)")
  else if ContainsAny name #"*?" then
    Some (override_for name ++ #"wildcard instrument names are not "
          ++ #"supported; name each instrument exactly")
  else if negb (instrumentNamePattern name) then
    Some (override_for name ++ #"not a valid OTel instrument name "
          ++ #"(a letter, then up to 254 of [A-Za-z0-9_./-]); use the instrument's OTel name, "
          ++ #"not its Prometheus family name")
  else (λ err, override_for name ++ err) <$> checkHistogramBoundaries buckets.
Definition validateHistogramBucketOverrides (overrides : gmap bytes (list float64)) : option bytes :=
  head (omap (λ name, check_override name (default [] (overrides !! name)))
         (sort_strings (fst <$> map_to_list overrides))).

(** * The sampler *)
Definition one : float64 := double 4503599627370496 (-52).
Definition configureSampler (cfg : Config) : Config * option bytes :=
  if negb (traceEnabled cfg) || negb (samplingRatioSet cfg) then (cfg, None)
  else if IsNaN (samplingRatio cfg) || SFltb (samplingRatio cfg) (S754_zero false) || SFltb one (samplingRatio cfg) then
    (cfg, Some ( #"sampling ratio must be between 0.0 and 1.0 inclusive, got " ++ format_float (samplingRatio cfg)))
  else (cfg <| sampler := Some (ParentBasedRatio (samplingRatio cfg)) |>, None).
End boundaries.

(** * The baggage whitelist *)
Definition collisionsBeyondCap (appKeys collisions : list bytes) : list bytes :=
  if length appKeys <=? MaxBaggageAttributeKeys then []
  else filter (λ key, key ∈ drop MaxBaggageAttributeKeys appKeys) collisions.

Definition effective_keys (cfg : Config) : list bytes :=
  (if userBaggage cfg then [UserNameKey] else []) ++ baggageKeys cfg.

Definition configureBaggageWhitelist (cfg : Config) (res : list KeyValue) : Config * (bytes + Whitelist) :=
  let effective := effective_keys cfg in
  let collisions := filter (λ key, key ∈ fst <$> res) effective in
  if bool_decide (0 < length collisions) then
    let collisions := sort_strings collisions in
    let msg := #"baggage attribute keys collide with resource attributes: " ++ Join collisions #", " in
    let overCap := collisionsBeyondCap (baggageKeys cfg) collisions in
    let msg :=
      if bool_decide (0 < length overCap) then
        msg ++ #" (" ++ Join overCap #", " ++ #" exceed MaxBaggageAttributeKeys="
          ++ dec (N.of_nat MaxBaggageAttributeKeys) ++ #" and would not have been materialized;"
          ++ #" the collision check runs before the cap so its result does not depend on key order)"
      else msg in
    (cfg, inl msg)
  else
    let cfg :=
      if MaxBaggageAttributeKeys <? length (baggageKeys cfg) then
        let dropped := drop MaxBaggageAttributeKeys (baggageKeys cfg) in
        let cfg := warn cfg ( #"WithBaggageAttributes: materializing only the first "
          ++ dec (N.of_nat MaxBaggageAttributeKeys) ++ #" application keys; dropping [" ++ Join dropped #" " ++ #"]") in
        cfg <| baggageKeys := take MaxBaggageAttributeKeys (baggageKeys cfg) |>
      else cfg in
    (cfg, inr (NewWhitelist (effective_keys cfg))).

Definition appendBaggageWarnings (cfg : Config) (whitelist : Whitelist) : Config :=
  if bool_decide (0 < length (attributes whitelist)) && negb (traceEnabled cfg) then
    warn cfg #"baggage attribute materialization enabled while trace pillar disabled; baggage still propagates and materializes on logs, but not spans"
  else cfg.

(** * The first checks of Init, in order *)
Definition Init_checks `{GoUnicode, GoPrint} (format_float : float64 → bytes) (cfg : Config) : bytes + Config :=
  if bool_decide (serviceName cfg = []) then inl #"service name is required (use WithServiceName)"
  else if bool_decide (serviceVersion cfg = []) then inl #"service version is required (use WithServiceVersion)"
  else if bool_decide (namespace cfg = []) then inl #"service namespace is required (use WithServiceNamespace)"
  else
    match normalizeEnvironment (environment cfg) with
    | inl err => inl err
    | inr normalized =>
      let cfg := cfg <| environment := normalized |> in
      match validateHistogramBuckets format_float (histogramBuckets cfg) with
      | Some err => inl err
      | None =>
        match validateHistogramBucketOverrides format_float (histogramBucketOverrides cfg) with
        | Some err => inl err
        | None =>
          match configureSampler format_float cfg with
          | (_, Some err) => inl err
          | (cfg, None) => inr cfg
          end
        end
      end
    end.

(** * Boundaries *)
Definition finite_positive (f : float64) : Prop :=
  match f with S754_finite false _ _ => True | _ => False end.
Definition below (a b : float64) : Prop := SFltb a b = true.
Definition boundaries_ok (l : list float64) : Prop :=
  l ≠ [] ∧ Forall finite_positive l ∧ StronglySorted below l.

Lemma checked_positive f :
  IsNaN f || IsInf f = false ∧ SFleb f (S754_zero false) = false ↔ finite_positive f.
Proof. destruct f as [s|s| |[] m e]; cbn; try (destruct s); naive_solver. Qed.

Lemma below_trans a b c : finite_positive a → finite_positive b → finite_positive c → below a b → below b c → below a c.
Proof.
  destruct a as [| | |[] m1 e1]; try done. destruct b as [| | |[] m2 e2]; try done. destruct c as [| | |[] m3 e3]; try done.
  intros _ _ _. unfold below, SFltb. cbn.
  change (Pos.compare_cont Eq m1 m2) with (m1 ?= m2)%positive. change (Pos.compare_cont Eq m2 m3) with (m2 ?= m3)%positive.
  change (Pos.compare_cont Eq m1 m3) with (m1 ?= m3)%positive.
  destruct (Z.compare_spec e1 e2), (Z.compare_spec e2 e3), (Z.compare_spec e1 e3); try done; try lia.
  destruct (Pos.compare_spec m1 m2), (Pos.compare_spec m2 m3), (Pos.compare_spec m1 m3); try done; lia.
Qed.

Lemma not_le_below a b : finite_positive a → finite_positive b → SFleb b a = false ↔ below a b.
Proof.
  destruct a as [| | |[] m1 e1]; try done. destruct b as [| | |[] m2 e2]; try done. intros _ _.
  unfold below, SFltb, SFleb. cbn.
  change (Pos.compare_cont Eq m1 m2) with (m1 ?= m2)%positive. change (Pos.compare_cont Eq m2 m1) with (m2 ?= m1)%positive.
  destruct (Z.compare_spec e1 e2), (Z.compare_spec e2 e1); try done; try lia.
  destruct (Pos.compare_spec m1 m2), (Pos.compare_spec m2 m1); try done; lia.
Qed.

Lemma Sorted_below_strong l : Forall finite_positive l → Sorted below l → StronglySorted below l.
Proof.
  intros Hl Hs. induction Hs as [|a l Hs IH Hd]; [constructor|]. apply Forall_cons in Hl as [Ha Hl].
  specialize (IH Hl). constructor; [done|]. destruct Hd as [|b l Hab]; [constructor|].
  apply Forall_cons in Hl as [Hb Hl]. constructor; [done|]. apply StronglySorted_inv in IH as [_ IH].
  rewrite Forall_forall in *. intros c Hc. apply (below_trans a b c); auto.
Qed.

Section facts.
Context (format_float : float64 → bytes) `{P : GoPrint, U : GoUnicode}.

Lemma check_boundaries_spec i before l :
  (∀ b, before = Some b → finite_positive b) →
  check_boundaries format_float i before l = None ↔ Forall finite_positive l ∧ Sorted below (option_list before ++ l).
Proof.
  revert i before. induction l as [|b l IH]; intros i before Hbefore; cbn [check_boundaries].
  { split; [intros _|done]. split; [constructor|]. destruct before; cbn; repeat constructor. }
  destruct (IsNaN b || IsInf b) eqn:E1.
  { split; [done|]. intros [[Hb _]%Forall_cons _]. apply checked_positive in Hb. destruct Hb. congruence. }
  destruct (SFleb b (S754_zero false)) eqn:E2.
  { split; [done|]. intros [[Hb _]%Forall_cons _]. apply checked_positive in Hb. destruct Hb. congruence. }
  assert (finite_positive b) as Hb by by apply checked_positive.
  assert (Hnext : check_boundaries format_float (S i) (Some b) l = None ↔ Forall finite_positive l ∧ Sorted below (b :: l)).
  { apply (IH (S i) (Some b)). by intros ? [= <-]. }
  rewrite Forall_cons. destruct before as [prev|]; cbn [option_list app] in *.
  - specialize (Hbefore prev eq_refl). destruct (SFleb b prev) eqn:E3.
    + split; [done|]. intros [_ Hs]. apply Sorted_inv in Hs as [_ Hd]. inversion Hd as [|? ? Hbelow]; subst.
      apply (not_le_below prev b) in Hbelow; [congruence|done|done].
    + apply not_le_below in E3; [|done|done]. rewrite Hnext. split.
      * intros [? Hs]. split; [done|]. constructor; [done|by constructor].
      * intros [[_ ?] [Hs _]%Sorted_inv]. done.
  - rewrite Hnext. naive_solver.
Qed.

Lemma checkHistogramBoundaries_spec l : checkHistogramBoundaries format_float l = None ↔ boundaries_ok l.
Proof.
  unfold checkHistogramBoundaries, boundaries_ok. case_bool_decide as Hl; [naive_solver|].
  rewrite check_boundaries_spec by done. cbn. split.
  - intros [Hf Hs]. split_and!; [done|done|by apply Sorted_below_strong].
  - intros (_ & Hf & Hs). split; [done|by apply StronglySorted_Sorted].
Qed.

Lemma validateHistogramBuckets_spec l : validateHistogramBuckets format_float l = None ↔ boundaries_ok l.
Proof.
  unfold validateHistogramBuckets. case_bool_decide as Hl; [|apply checkHistogramBoundaries_spec].
  split; [done|]. by intros [? _].
Qed.

Lemma instrument_byte_visible c :
  instrument_name_byte c = true → ascii_visible c = true ∧ byte_in #"*?" c = false.
Proof. byte_cases c; done. Qed.

Lemma instrument_name_plain name :
  instrumentNamePattern name = true → TrimSpace name ≠ [] ∧ ContainsAny name #"*?" = false.
Proof.
  destruct name as [|c rest]; [done|]. cbn [instrumentNamePattern].
  intros [[Hc Hrest]%andb_prop _]%andb_prop.
  assert (Hall : Forall (λ c, instrument_name_byte c = true) (c :: rest)).
  { constructor; [unfold instrument_name_byte, is_alnum; by rewrite Hc|]. apply Forall_forall. intros d Hd.
    rewrite forallb_forall in Hrest. by apply Hrest, list_elem_of_In. }
  split.
  - destruct (last_is_Some (c :: rest)) as [_ [d Hd]]; [done|].
    assert (instrument_name_byte d = true) as Hdb.
    { rewrite Forall_forall in Hall. apply Hall. by apply last_Some_elem_of. }
    rewrite (TrimSpace_visible c d rest); [done| | |done].
    + apply Forall_cons in Hall as [Hcb _]. by apply instrument_byte_visible.
    + by apply instrument_byte_visible.
  - unfold ContainsAny. apply not_true_is_false. intros (d & Hd%list_elem_of_In & Hin)%existsb_exists.
    rewrite Forall_forall in Hall. apply Hall in Hd. apply instrument_byte_visible in Hd as [_ ?]. congruence.
Qed.

Lemma check_override_spec name l :
  check_override format_float name l = None ↔ instrumentNamePattern name = true ∧ boundaries_ok l.
Proof.
  unfold check_override. rewrite <- checkHistogramBoundaries_spec.
  destruct (instrumentNamePattern name) eqn:E; cbn [negb].
  - destruct (instrument_name_plain name E) as [Ht ->]. rewrite bool_decide_false by done.
    rewrite fmap_None. naive_solver.
  - case_bool_decide; [naive_solver|]. destruct (ContainsAny _ _); naive_solver.
Qed.

Lemma head_omap_none {A C} (f : A → option C) l : head (omap f l) = None ↔ ∀ x, x ∈ l → f x = None.
Proof.
  induction l as [|x l IH]; cbn; [split; [by intros _ ? ?%elem_of_nil|done]|]. destruct (f x) eqn:E; cbn.
  - split; [done|]. intros H. rewrite (H x) in E by left. done.
  - rewrite IH. split; [intros H y [->|?]%elem_of_cons; auto|]. intros H y Hy. apply H. by right.
Qed.

Lemma validateHistogramBucketOverrides_spec overrides :
  validateHistogramBucketOverrides format_float overrides = None ↔
  ∀ name l, overrides !! name = Some l → instrumentNamePattern name = true ∧ boundaries_ok l.
Proof.
  unfold validateHistogramBucketOverrides. rewrite head_omap_none. split.
  - intros H name l Hl. apply check_override_spec. specialize (H name). rewrite Hl in H. apply H.
    rewrite sort_strings_perm. apply list_elem_of_fmap. exists (name, l). split; [done|]. by apply elem_of_map_to_list.
  - intros H name Hin. rewrite sort_strings_perm in Hin.
    apply list_elem_of_fmap in Hin as ([n l] & -> & Hin%elem_of_map_to_list). cbn. rewrite Hin. cbn.
    by apply check_override_spec, H.
Qed.

(** ** The environment *)
Definition canonical_environments : list bytes := [ #"production"; #"staging"; #"development"; #"testing"].

Lemma alias_lookup_canonical env c : alias_lookup env = Some c → c ∈ canonical_environments.
Proof.
  unfold alias_lookup. destruct (head _) as [p|] eqn:E; cbn; [|done]. intros [= <-].
  apply head_filter_some in E as [_ Hp].
  assert (Hall : Forall (λ p, p.2 ∈ canonical_environments) envAliases) by (apply (bool_decide_unpack _); by vm_compute).
  rewrite Forall_forall in Hall. auto.
Qed.

Lemma normalizeEnvironment_inr env c :
  normalizeEnvironment env = inr c ↔ alias_lookup (ToLower (TrimSpace env)) = Some c.
Proof.
  unfold normalizeEnvironment. cbv zeta. case_bool_decide as Hz.
  - rewrite Hz. split; [done|]. by vm_compute.
  - destruct (alias_lookup _); naive_solver.
Qed.

Lemma canonical_fixed c : c ∈ canonical_environments → alias_lookup (ToLower (TrimSpace c)) = Some c.
Proof.
  intros Hc. assert (H : Forall (λ c, alias_lookup (ToLower (TrimSpace c)) = Some c) canonical_environments).
  { repeat (apply Forall_cons_2; [reflexivity|]). apply Forall_nil_2. }
  rewrite Forall_forall in H. auto.
Qed.

(** ** The sampler *)
Definition ratio_ok (r : float64) : Prop :=
  match r with
  | S754_zero _ => True
  | S754_finite false _ _ => SFleb r one = true
  | _ => False
  end.

Lemma ratio_check r : IsNaN r || SFltb r (S754_zero false) || SFltb one r = false ↔ ratio_ok r.
Proof.
  destruct r as [s|[]| |[] m e]; [by split..|].
  pose proof (not_le_below one (S754_finite false m e) I I) as Hle. unfold below in Hle.
  change (SFltb one (S754_finite false m e) = false ↔ SFleb (S754_finite false m e) one = true).
  destruct (SFltb _ _), (SFleb _ _); naive_solver.
Qed.

(** A configuration as the first checks leave it. *)
Record checked (cfg cfg' : Config) : Prop := {
  ch_named : serviceName cfg ≠ [] ∧ serviceVersion cfg ≠ [] ∧ namespace cfg ≠ [];
  ch_buckets : boundaries_ok (histogramBuckets cfg);
  ch_overrides : ∀ name l, histogramBucketOverrides cfg !! name = Some l →
    instrumentNamePattern name = true ∧ boundaries_ok l;
  ch_ratio : traceEnabled cfg = true → samplingRatioSet cfg = true → ratio_ok (samplingRatio cfg);
  ch_environment : alias_lookup (ToLower (TrimSpace (environment cfg))) = Some (environment cfg');
  ch_result : cfg' =
    let cfg1 := cfg <| environment := environment cfg' |> in
    if traceEnabled cfg && samplingRatioSet cfg then
      cfg1 <| sampler := Some (ParentBasedRatio (samplingRatio cfg)) |>
    else cfg1;
}.

Lemma configureSampler_spec cfg cfg' :
  configureSampler format_float cfg = (cfg', None) ↔
  (traceEnabled cfg = true → samplingRatioSet cfg = true → ratio_ok (samplingRatio cfg))
  ∧ cfg' = if traceEnabled cfg && samplingRatioSet cfg then
             cfg <| sampler := Some (ParentBasedRatio (samplingRatio cfg)) |> else cfg.
Proof.
  unfold configureSampler. rewrite <- ratio_check.
  destruct (traceEnabled cfg), (samplingRatioSet cfg); cbn [negb orb andb]; try naive_solver.
  destruct (_ || _ || _); naive_solver.
Qed.

Lemma Init_checks_spec cfg cfg' : Init_checks format_float cfg = inr cfg' ↔ checked cfg cfg'.
Proof.
  unfold Init_checks.
  case_bool_decide as H1; [split; [done|by intros [(? & ? & ?)]]|].
  case_bool_decide as H2; [split; [done|by intros [(? & ? & ?)]]|].
  case_bool_decide as H3; [split; [done|by intros [(? & ? & ?)]]|].
  destruct (normalizeEnvironment (environment cfg)) as [err|env] eqn:E4.
  { split; [done|]. intros [_ _ _ _ He _]. apply normalizeEnvironment_inr in He. congruence. }
  pose proof (proj1 (normalizeEnvironment_inr _ _) E4) as He. cbv zeta. cbn [histogramBuckets histogramBucketOverrides].
  destruct (validateHistogramBuckets format_float (histogramBuckets cfg)) eqn:E5.
  { split; [done|]. intros [_ Hb _ _ _ _]. apply validateHistogramBuckets_spec in Hb. congruence. }
  destruct (validateHistogramBucketOverrides format_float (histogramBucketOverrides cfg)) eqn:E6.
  { split; [done|]. intros [_ _ Ho _ _ _]. apply validateHistogramBucketOverrides_spec in Ho. congruence. }
  apply validateHistogramBuckets_spec in E5. rewrite validateHistogramBucketOverrides_spec in E6.
  destruct (configureSampler format_float _) as [cfg2 [err|]] eqn:E7.
  - split; [done|]. intros [_ _ _ Hr He' Hres]. rewrite He in He'. injection He' as Henv.
    pose proof (configureSampler_spec (cfg <| environment := env |>) cfg') as [_ Hs]. cbn in Hs.
    rewrite Hs in E7; [done|]. split; [done|]. rewrite Henv. exact Hres.
  - apply configureSampler_spec in E7 as [Hr ->]. cbn [traceEnabled samplingRatioSet samplingRatio] in *.
    split.
    + intros [= <-]. destruct (traceEnabled cfg && samplingRatioSet cfg) eqn:Et;
        split; try done; cbn; rewrite ?Et; done.
    + intros [_ _ _ _ He' Hres]. rewrite He in He'. injection He' as Henv. rewrite Henv.
      exact (f_equal inr (eq_sym Hres)).
Qed.

(** Init's first checks accept exactly the configurations they mean to, and
    complete them: a service name, version and namespace; an environment that,
    trimmed and in lower case, is one of the known names; histogram boundaries
    that are finite, positive and strictly increasing, there being some, for every
    histogram, under an instrument name that can match; and a sampling ratio
    between 0 and 1 when tracing uses one. What they leave has a canonical
    environment and the ratio's sampler, and passes the checks unchanged. *)
Theorem Init_checks_exact (cfg : Config) :
  (∀ cfg', Init_checks format_float cfg = inr cfg' ↔ checked cfg cfg')
  ∧ match Init_checks format_float cfg with
    | inr cfg' => environment cfg' ∈ canonical_environments ∧ Init_checks format_float cfg' = inr cfg'
    | inl err => ∀ cfg', ¬ checked cfg cfg'
    end.
Proof.
  split; [intros; apply Init_checks_spec|].
  destruct (Init_checks format_float cfg) as [err|cfg'] eqn:E.
  - intros cfg' Hc%Init_checks_spec. congruence.
  - apply Init_checks_spec in E. pose proof (alias_lookup_canonical _ _ (ch_environment _ _ E)) as Hcan.
    split; [done|]. apply Init_checks_spec. pose proof (canonical_fixed _ Hcan) as Hfix.
    destruct E as [Hn Hb Ho Hr He Hres]. remember (environment cfg') as env eqn:Henv. clear Henv He.
    rewrite Hres. cbv zeta. destruct (traceEnabled cfg && samplingRatioSet cfg) eqn:Et;
      split; cbn; rewrite ?Et; try done; by destruct cfg.
Qed.
End facts.

(** * The whitelist *)
Section whitelist.
Context `{B : BaggageApi, P : GoPrint}.

Lemma effective_nodup cfg : config_ok cfg → NoDup (effective_keys cfg).
Proof.
  intros Hc. unfold effective_keys. destruct (userBaggage cfg); cbn; [|apply (ok_baggage_distinct _ Hc)].
  constructor; [|apply (ok_baggage_distinct _ Hc)]. intros Hin. pose proof (ok_baggage_keys _ Hc) as Hall.
  rewrite Forall_forall in Hall. apply Hall in Hin. unfold ValidBaggageKey in Hin.
  by rewrite bool_decide_true in Hin.
Qed.

Lemma sublist_same_length {A} (l k : list A) : l `sublist_of` k → length k ≤ length l → l = k.
Proof.
  induction 1 as [|x l k Hsub IH|x l k Hsub IH]; cbn; intros Hlen; [done|f_equal; apply IH; lia|].
  apply sublist_length in Hsub. lia.
Qed.

Lemma NewWhitelist_keys keys : NoDup keys → Keys (NewWhitelist keys) = keys.
Proof.
  intros Hnd. destruct (NewWhitelist_spec keys) as (_ & Hk & Hel & Hsub). apply sublist_same_length; [done|].
  apply Nat.eq_le_incl, Permutation_length, NoDup_Permutation; [done|done|]. intros k. by rewrite Hel.
Qed.

Lemma collisions_none cfg (res : list KeyValue) :
  length (filter (λ key : bytes, key ∈ fst <$> res) (effective_keys cfg)) = 0
  ↔ ∀ key, key ∈ effective_keys cfg → key ∉ fst <$> res.
Proof.
  rewrite length_zero_iff_nil. split.
  - intros Hnil key Hk Hin. assert (key ∈ filter (λ key : bytes, key ∈ fst <$> res) (effective_keys cfg)) as H
      by by apply list_elem_of_filter.
    rewrite Hnil in H. by apply elem_of_nil in H.
  - intros H. destruct (filter _ _) as [|key l] eqn:E; [done|].
    assert (key ∈ filter (λ key : bytes, key ∈ fst <$> res) (effective_keys cfg)) as Hin by (rewrite E; left).
    apply list_elem_of_filter in Hin as [? Hk]. by destruct (H key Hk).
Qed.

(** What is left when keys are cut off. *)
Lemma cut_ok cfg n : config_ok cfg → config_ok (cfg <| baggageKeys := take n (baggageKeys cfg) |>).
Proof.
  intros []. split; cbn; eauto; [by apply Forall_take|].
  eapply sublist_NoDup; [done|]. apply sublist_take.
Qed.

(** The baggage whitelist of a well-formed configuration. Init fails exactly
    when a key the caller asked for, past the cap or not, is a key of the
    Resource, so whether it does depends on the keys and not on their order;
    otherwise the whitelist is user.name if it was asked for and the first eight
    keys of the caller, in order and distinct, none of them on the Resource, the
    configuration stays well formed, and there is a warning exactly when keys
    were left out. *)
Theorem baggage_whitelist (cfg : Config) (res : list KeyValue) :
  config_ok cfg →
  let '(cfg', result) := configureBaggageWhitelist cfg res in
  (∀ cfg2, baggageKeys cfg2 ≡ₚ baggageKeys cfg → userBaggage cfg2 = userBaggage cfg →
     ((∃ err, (configureBaggageWhitelist cfg2 res).2 = inl err) ↔ (∃ err, result = inl err)))
  ∧ match result with
    | inl _ => cfg' = cfg ∧ ∃ key, key ∈ effective_keys cfg ∧ key ∈ fst <$> res
    | inr w =>
      Keys w = (if userBaggage cfg then [UserNameKey] else []) ++ take MaxBaggageAttributeKeys (baggageKeys cfg)
      ∧ NoDup (Keys w) ∧ (∀ key, key ∈ effective_keys cfg → key ∉ fst <$> res)
      ∧ effective_keys cfg' = Keys w ∧ config_ok cfg'
      ∧ (initWarnings cfg' ≠ initWarnings cfg ↔ MaxBaggageAttributeKeys < length (baggageKeys cfg))
    end.
Proof.
  intros Hc. assert (Hfails : ∀ c, (∃ err, (configureBaggageWhitelist c res).2 = inl err)
    ↔ ∃ key, key ∈ effective_keys c ∧ key ∈ fst <$> res).
  { intros c. pose proof (collisions_none c res) as Hn. unfold configureBaggageWhitelist. case_bool_decide as Hl.
    - split; [intros _|cbn; eauto]. destruct (filter _ _) as [|key l] eqn:E; [cbn in Hl; lia|].
      assert (key ∈ filter (λ key : bytes, key ∈ fst <$> res) (effective_keys c)) as Hin by (rewrite E; left).
      apply list_elem_of_filter in Hin as [? ?]. eauto.
    - split; [by intros [err [=]]|]. intros (key & Hk & Hin). destruct (proj1 Hn ltac:(lia) key Hk Hin). }
  pose proof (Hfails cfg) as Hcfg. pose proof (collisions_none cfg res) as Hnone.
  assert (Horder : ∀ cfg2, baggageKeys cfg2 ≡ₚ baggageKeys cfg → userBaggage cfg2 = userBaggage cfg →
    (∃ key, key ∈ effective_keys cfg2 ∧ key ∈ fst <$> res) ↔ ∃ key, key ∈ effective_keys cfg ∧ key ∈ fst <$> res).
  { intros cfg2 Hp Hu. unfold effective_keys. rewrite Hu. by setoid_rewrite Hp. }
  destruct (configureBaggageWhitelist cfg res) as [cfg' result] eqn:E. cbn [snd] in Hcfg. split.
  { intros cfg2 Hp Hu. by rewrite Hfails, Hcfg, Horder. }
  unfold configureBaggageWhitelist in E. revert E. case_bool_decide as Hl; cbv zeta.
  - intros [= <- <-]. split; [done|]. apply Hcfg. eauto.
  - intros [= <- <-]. assert (Hk : ∀ key, key ∈ effective_keys cfg → key ∉ fst <$> res) by (apply Hnone; lia).
    destruct (MaxBaggageAttributeKeys <? length (baggageKeys cfg)) eqn:El.
    + apply Nat.ltb_lt in El.
      match goal with |- context [NewWhitelist (effective_keys ?c)] => assert (config_ok c) as Hc' end.
      { by apply (cut_ok (warn cfg _)), warn_ok. }
      rewrite NewWhitelist_keys by by apply effective_nodup.
      split_and!; [done|by apply effective_nodup|done|done|done|]. split; [done|]. intros _. cbn.
      intros Heq%(f_equal length). rewrite length_app in Heq. cbn in Heq. lia.
    + apply Nat.ltb_ge in El. rewrite NewWhitelist_keys by by apply effective_nodup. rewrite take_ge by done.
      split_and!; [done|by apply effective_nodup|done|done|done|]. split; [done|lia].
Qed.
End whitelist.

#[local] Existing Instance sample_baggage.
Definition sample_asked (keys : list bytes) : Config := WithBaggageAttributes keys (defaultConfig (λ _, [])).
Lemma sample_asked_keys :
  baggageKeys (sample_asked [ #"tenant.id"; #"room.id"]) = [ #"tenant.id"; #"room.id"]
  ∧ baggageKeys (sample_asked [ #"room.id"; #"tenant.id"]) = [ #"room.id"; #"tenant.id"].
Proof. split; vm_compute; reflexivity. Qed.

Lemma baggage_whitelist_witness :
  let res := [( #"room.id", StringValue #"r")] in
  ∃ err, (configureBaggageWhitelist (sample_asked [ #"room.id"; #"tenant.id"]) res).2 = inl err.
Proof.
  cbv zeta. pose proof (baggage_whitelist (sample_asked [ #"tenant.id"; #"room.id"]) [( #"room.id", StringValue #"r")]) as H.
  destruct (configureBaggageWhitelist (sample_asked [ #"tenant.id"; #"room.id"]) _) as [cfg' result] eqn:E.
  destruct H as [H _]; [apply option_ok; [constructor|apply defaultConfig_ok]|].
  apply H.
  - destruct sample_asked_keys as [-> ->]. apply perm_swap.
  - vm_compute. reflexivity.
  - vm_compute in E. injection E as _ <-. eauto.
Defined.
