(* ===== verification/Endpoint.v ===== *)
(** endpoint.go and the endpoint checks of diagnostics.go: where each signal's
    exporter sends, and what Init says about an endpoint it cannot use. The
    environment is what os.Getenv answers; net/url is the library interface. *)
From S2P Require Import Prelude Utf8 GoStrings GoCodec GoNum SampleLib Attribute PromLabel ResourceKeys SemconvReserved Baggage Options.
#[local] Open Scope config_scope.

Definition envOTLPEndpoint : bytes := #"OTEL_EXPORTER_OTLP_ENDPOINT".
Definition envOTLPTracesEndpoint : bytes := #"OTEL_EXPORTER_OTLP_TRACES_ENDPOINT".
Definition envOTLPLogsEndpoint : bytes := #"OTEL_EXPORTER_OTLP_LOGS_ENDPOINT".
Definition envOTLPProtocol : bytes := #"OTEL_EXPORTER_OTLP_PROTOCOL".

Record otlpSignal := { signal_name : bytes; envVar : bytes; protocolVar : bytes; urlPath : bytes }.
Definition traceSignal : otlpSignal := {|
  signal_name := #"trace"; envVar := envOTLPTracesEndpoint;
  protocolVar := #"OTEL_EXPORTER_OTLP_TRACES_PROTOCOL"; urlPath := #"/v1/traces";
|}.
Definition logSignal : otlpSignal := {|
  signal_name := #"log"; envVar := envOTLPLogsEndpoint;
  protocolVar := #"OTEL_EXPORTER_OTLP_LOGS_PROTOCOL"; urlPath := #"/v1/logs";
|}.

(** * Problems *)
Definition problemNoScheme : bytes := #"it has no http:// or https:// scheme".
Definition problemInvalidURL : bytes := #"it is not a valid URL".
Definition problemNoHost : bytes := #"it has no host".

Definition fromEnv (e : signalEndpoint) : bool :=
  negb (bool_decide (source e = [])) && negb (bool_decide (source e = #"WithOTLPEndpoint")).

Section endpoints.
Context `{L : GoLib} (Getenv : bytes → bytes).

(** The problem, or the parsed URL. *)
Definition parseEndpoint (v : bytes) : bytes + URL :=
  match url_Parse v with
  | None => inl (if Contains v #"://" then problemInvalidURL else problemNoScheme)
  | Some u =>
    let scheme := ToLower (Scheme u) in
    if negb (bool_decide (scheme = #"http")) && negb (bool_decide (scheme = #"https")) then inl problemNoScheme
    else if bool_decide (Host u = []) then inl problemNoHost
    else inr u
  end.
Definition endpointProblem (v : bytes) : bytes :=
  match parseEndpoint v with inl problem => problem | inr _ => [] end.

(** * Resolution *)
Definition envValue (name : bytes) (verbatim : bool) : bytes :=
  let v := Getenv name in if verbatim then v else TrimSpace v.

Definition newSignalEndpoint (v source : bytes) : signalEndpoint :=
  {| url := v; source := source; raw := v; problem := endpointProblem v; grpcVar := [] |}.

Definition with_path (u : URL) (p : bytes) : URL := {|
  Scheme := Scheme u; Opaque := Opaque u; User := User u; Host := Host u; Path := p; RawPath := [];
  OmitHost := OmitHost u; ForceQuery := ForceQuery u; RawQuery := RawQuery u;
  Fragment := Fragment u; RawFragment := RawFragment u;
|}.
Definition newEnvSignalEndpoint (v source urlPath : bytes) (base : bool) : signalEndpoint :=
  match parseEndpoint v with
  | inl problem => {| url := v; source := source; raw := v; problem := problem; grpcVar := [] |}
  | inr u =>
    let p := TrimRight (Path u) #"/" in
    let p := if base || bool_decide (p = []) then p ++ urlPath else p in
    {| url := url_String (with_path u p); source := source; raw := v; problem := []; grpcVar := [] |}
  end.

Definition with_grpc (e : signalEndpoint) (var : bytes) : signalEndpoint :=
  {| url := url e; source := source e; raw := raw e; problem := problem e; grpcVar := var |}.
Definition grpc_checked (s : otlpSignal) (e : signalEndpoint) : signalEndpoint :=
  let protocolVar := if bool_decide (envValue (protocolVar s) false = []) then envOTLPProtocol else protocolVar s in
  if EqualFold (envValue protocolVar false) #"grpc" then with_grpc e protocolVar else e.

Definition resolveEndpoint (cfg : Config) (s : otlpSignal) : signalEndpoint :=
  if otlpEndpointSet cfg then newSignalEndpoint (otlpEndpoint cfg) #"WithOTLPEndpoint"
  else
    let v := envValue (envVar s) false in
    if negb (bool_decide (v = [])) then grpc_checked s (newEnvSignalEndpoint v (envVar s) (urlPath s) false)
    else
      let v := envValue envOTLPEndpoint false in
      if negb (bool_decide (v = [])) then grpc_checked s (newEnvSignalEndpoint v envOTLPEndpoint (urlPath s) true)
      else newSignalEndpoint (otlpEndpoint cfg) [].

Definition resolveOTLPEndpoints (cfg : Config) : Config :=
  cfg <| resolvedOTLP := {| trace := resolveEndpoint cfg traceSignal; log := resolveEndpoint cfg logSignal |} |>.

(** * Errors *)
Definition endpointRule : bytes :=
  #"(an OTLP/HTTP endpoint is an http:// or https:// URL with a host, such as http://collector:4318); the value is not repeated here".
Definition endpointError (source problem : bytes) : bytes :=
  #"o11y: the endpoint given to " ++ source ++ #" cannot be used: " ++ problem ++ #" " ++ endpointRule.
Definition grpcEndpointError (variable protocolVar signal : bytes) : bytes :=
  #"o11y: " ++ variable ++ #" cannot be used as the " ++ signal ++ #" endpoint: " ++ protocolVar
  ++ #" asks for grpc, and this SDK sends OTLP over HTTP only, so the endpoint would refuse every export; point the variable at the collector's OTLP/HTTP port (usually 4318) with the protocol unset or http/protobuf, or pass WithOTLPEndpoint".
Definition envEndpointError (variable signal problem : bytes) : bytes :=
  #"o11y: " ++ variable ++ #" cannot be used as the " ++ signal ++ #" endpoint: " ++ problem ++ #" " ++ endpointRule.
Definition configuredEndpointError (option problem : bytes) : bytes :=
  if bool_decide (problem = problemInvalidURL) then
    #"o11y: the endpoint given to " ++ option
    ++ #" is not a valid URL; the OTLP exporters would report its raw text through OTel's global logger while Init builds them, so the option is rejected instead, and neither the value nor the parser's message, which quotes part of it, is repeated here"
  else endpointError option problem.

Definition validate_signal (enabled : bool) (signal : bytes) (e : signalEndpoint) : option bytes :=
  if negb enabled then None
  else if negb (bool_decide (problem e = [])) && fromEnv e then Some (envEndpointError (source e) signal (problem e))
  else if negb (bool_decide (problem e = [])) then Some (configuredEndpointError #"WithOTLPEndpoint" (problem e))
  else if negb (bool_decide (grpcVar e = [])) then Some (grpcEndpointError (source e) (grpcVar e) signal)
  else None.
Definition validateConfiguredEndpoints (cfg : Config) : option bytes :=
  match validate_signal (traceEnabled cfg) (signal_name traceSignal) (trace (resolvedOTLP cfg)) with
  | Some err => Some err
  | None =>
    match validate_signal (logEnabled cfg) (signal_name logSignal) (log (resolvedOTLP cfg)) with
    | Some err => Some err
    | None =>
      if metricsEnabled cfg && negb (bool_decide (metricsOTLPEndpoint cfg = [])) then
        let problem := endpointProblem (metricsOTLPEndpoint cfg) in
        if bool_decide (problem = []) then None
        else Some (configuredEndpointError #"WithMetricsOTLPEndpoint" problem)
      else None
    end
  end.

(** The endpoints an exporter may put in an error. *)
Definition diagnosticEndpoints (cfg : Config) : list bytes :=
  [metricsOTLPEndpoint cfg; profilingEndpoint cfg]
  ++ ([(traceEnabled cfg, trace (resolvedOTLP cfg)); (logEnabled cfg, log (resolvedOTLP cfg))] ≫= λ s,
      if fst s && bool_decide (problem (snd s) = []) then [raw (snd s); url (snd s)] else []).
End endpoints.

(** * What Init says and accepts *)
Definition endpoint_problems : list bytes := [problemNoScheme; problemInvalidURL; problemNoHost].
(** Every error about an endpoint: no value of an option or a variable is in it. *)
Definition signal_sources (s : otlpSignal) : list bytes := [envVar s; envOTLPEndpoint].
Definition signal_error_texts (s : otlpSignal) : list bytes :=
  (signal_sources s ≫= λ variable, envEndpointError variable (signal_name s) <$> endpoint_problems)
  ++ (signal_sources s ≫= λ variable, (λ protocolVar, grpcEndpointError variable protocolVar (signal_name s))
       <$> [protocolVar s; envOTLPProtocol]).
Definition endpoint_error_texts : list bytes :=
  signal_error_texts traceSignal ++ signal_error_texts logSignal
  ++ (configuredEndpointError #"WithOTLPEndpoint" <$> endpoint_problems)
  ++ (configuredEndpointError #"WithMetricsOTLPEndpoint" <$> endpoint_problems).

Section facts.
Context `{B : BaggageApi, L : GoLib} (Getenv : bytes → bytes).

Definition usable_endpoint (v : bytes) : Prop :=
  ∃ u, url_Parse v = Some u ∧ ToLower (Scheme u) ∈ [ #"http"; #"https"] ∧ Host u ≠ [].

Lemma parseEndpoint_spec v :
  match parseEndpoint v with
  | inl problem => problem ∈ endpoint_problems ∧ problem ≠ [] ∧ ¬ usable_endpoint v
  | inr u => url_Parse v = Some u ∧ usable_endpoint v
  end.
Proof.
  unfold parseEndpoint, usable_endpoint, endpoint_problems. destruct (url_Parse v) as [u|].
  2:{ destruct (Contains v _); (split; [set_solver|split; [done|by intros (? & ? & _)]]). }
  case_bool_decide as H1; cbn [negb andb].
  - case_bool_decide as H3; [split; [set_solver|split; [done|naive_solver]]|]. split; [done|]. exists u.
    split_and!; [done|rewrite H1; left|done].
  - case_bool_decide as H2; cbn [negb].
    + case_bool_decide as H3; [split; [set_solver|split; [done|naive_solver]]|]. split; [done|]. exists u.
      split_and!; [done|rewrite H2; right; left|done].
    + split; [set_solver|]. split; [done|]. intros (u' & [= <-] & Hin & _). set_solver.
Qed.

Lemma endpointProblem_spec v :
  (endpointProblem v = [] ↔ usable_endpoint v) ∧ (endpointProblem v ≠ [] → endpointProblem v ∈ endpoint_problems).
Proof.
  unfold endpointProblem. pose proof (parseEndpoint_spec v) as H. destruct (parseEndpoint v); naive_solver.
Qed.

(** A resolved endpoint: its problem is that of the value it came from. *)
Record resolved (s : otlpSignal) (e : signalEndpoint) : Prop := {
  re_problem : problem e = endpointProblem (raw e);
  re_kept : problem e ≠ [] → url e = raw e;
  re_source : source e = #"WithOTLPEndpoint" ∨ source e = [] ∨ source e ∈ signal_sources s;
  re_grpc : grpcVar e ≠ [] → fromEnv e = true ∧ grpcVar e ∈ [protocolVar s; envOTLPProtocol];
}.

Definition known_signal (s : otlpSignal) : Prop := s = traceSignal ∨ s = logSignal.

Lemma signal_source_env s source' e :
  known_signal s → source e = source' → source' ∈ signal_sources s → fromEnv e = true.
Proof.
  intros Hs He Hin. unfold fromEnv. rewrite He. clear He. destruct Hs as [-> | ->]; cbn in Hin;
    apply elem_of_cons in Hin as [->| ->%list_elem_of_singleton]; reflexivity.
Qed.

Lemma newEnvSignalEndpoint_resolved s v source' urlPath' base :
  known_signal s → source' ∈ signal_sources s →
  resolved s (grpc_checked Getenv s (newEnvSignalEndpoint v source' urlPath' base)).
Proof.
  intros Hs Hin. unfold grpc_checked. set (p := if bool_decide _ then envOTLPProtocol else protocolVar s).
  assert (p ∈ [protocolVar s; envOTLPProtocol]) as Hp by (subst p; case_bool_decide; set_solver).
  unfold newEnvSignalEndpoint, endpointProblem. pose proof (parseEndpoint_spec v) as Hv.
  destruct (parseEndpoint v) as [err|u] eqn:E; destruct (EqualFold _ _);
    split; cbn; unfold endpointProblem; rewrite ?E; auto; try done; intros _; split; auto; by eapply signal_source_env.
Qed.

Lemma resolveEndpoint_resolved cfg s : known_signal s → resolved s (resolveEndpoint Getenv cfg s).
Proof.
  intros Hs. unfold resolveEndpoint. destruct (otlpEndpointSet cfg).
  { split; cbn; auto; done. }
  cbv zeta. case_bool_decide; cbn [negb]; [case_bool_decide; cbn [negb]|].
  - split; cbn; auto; done.
  - apply newEnvSignalEndpoint_resolved; [done|]. right. left.
  - apply newEnvSignalEndpoint_resolved; [done|]. left.
Qed.

Lemma validate_signal_spec enabled s e :
  known_signal s → resolved s e →
  match validate_signal enabled (signal_name s) e with
  | Some err => err ∈ endpoint_error_texts
  | None => enabled = true → usable_endpoint (raw e) ∧ grpcVar e = [] ∧ problem e = []
  end.
Proof.
  intros Hs [Hp Hk Hsrc Hg]. destruct (endpointProblem_spec (raw e)) as [Hu Hin]. rewrite <- Hp in Hu, Hin.
  assert (Hsig : ∀ err, err ∈ signal_error_texts s → err ∈ endpoint_error_texts).
  { intros err Herr. unfold endpoint_error_texts. rewrite !elem_of_app. destruct Hs as [-> | ->]; [by left|right; by left]. }
  unfold validate_signal. destruct enabled; [|done]. cbn [negb].
  case_bool_decide as Hz; cbn [negb andb].
  - case_bool_decide as Hgz; cbn [negb]; [naive_solver|]. destruct (Hg Hgz) as [Henv Hvar].
    apply Hsig. unfold signal_error_texts. apply elem_of_app. right. apply list_elem_of_bind.
    exists (source e). split; [apply list_elem_of_fmap; eauto|].
    unfold fromEnv in Henv. destruct Hsrc as [Es|[Es|?]]; [rewrite Es in Henv; done..|done].
  - destruct (fromEnv e) eqn:Henv.
    + apply Hsig. unfold signal_error_texts. apply elem_of_app. left. apply list_elem_of_bind.
      exists (source e). split; [apply list_elem_of_fmap; eauto|].
      unfold fromEnv in Henv. destruct Hsrc as [Es|[Es|?]]; [rewrite Es in Henv; done..|done].
    + unfold endpoint_error_texts. rewrite !elem_of_app. right. right. left. apply list_elem_of_fmap. eauto.
Qed.

(** What Init says of an endpoint, and what it accepts. Any error it gives is
    one of a fixed list of texts, whatever the options and the environment hold,
    so none quotes a value, and with it a credential; when it gives none, every
    enabled signal, and metrics when they are pushed, goes to a value that is an
    http or https URL with a host and that no protocol variable marks as gRPC;
    and the value and the URL derived from it are among the endpoints the
    diagnostics redact. *)
Theorem endpoints_validated (cfg : Config) :
  let cfg' := resolveOTLPEndpoints Getenv cfg in
  match validateConfiguredEndpoints cfg' with
  | Some err => err ∈ endpoint_error_texts
  | None =>
    (∀ enabled e, (enabled, e) ∈ [(traceEnabled cfg, trace (resolvedOTLP cfg')); (logEnabled cfg, log (resolvedOTLP cfg'))] →
       enabled = true →
       usable_endpoint (raw e) ∧ grpcVar e = [] ∧ raw e ∈ diagnosticEndpoints cfg' ∧ url e ∈ diagnosticEndpoints cfg')
    ∧ (metricsEnabled cfg = true → metricsOTLPEndpoint cfg ≠ [] →
       usable_endpoint (metricsOTLPEndpoint cfg) ∧ metricsOTLPEndpoint cfg ∈ diagnosticEndpoints cfg')
  end.
Proof.
  cbv zeta.
  pose proof (validate_signal_spec (traceEnabled cfg) traceSignal _ (or_introl eq_refl)
    (resolveEndpoint_resolved cfg traceSignal (or_introl eq_refl))) as Ht.
  pose proof (validate_signal_spec (logEnabled cfg) logSignal _ (or_intror eq_refl)
    (resolveEndpoint_resolved cfg logSignal (or_intror eq_refl))) as Hl.
  unfold resolveOTLPEndpoints, validateConfiguredEndpoints, diagnosticEndpoints.
  cbn [traceEnabled logEnabled metricsEnabled metricsOTLPEndpoint profilingEndpoint resolvedOTLP trace log].
  set (et := resolveEndpoint Getenv cfg traceSignal) in *. set (el := resolveEndpoint Getenv cfg logSignal) in *.
  destruct (validate_signal (traceEnabled cfg) _ et); [done|].
  destruct (validate_signal (logEnabled cfg) _ el); [done|].
  destruct (endpointProblem_spec (metricsOTLPEndpoint cfg)) as [Hu Hin].
  assert (Hok : ∀ enabled e, (enabled, e) ∈ [(traceEnabled cfg, et); (logEnabled cfg, el)] → enabled = true →
    usable_endpoint (raw e) ∧ grpcVar e = []
    ∧ raw e ∈ ([(traceEnabled cfg, et); (logEnabled cfg, el)] ≫= λ s,
        if fst s && bool_decide (problem (snd s) = []) then [raw (snd s); url (snd s)] else [])
    ∧ url e ∈ ([(traceEnabled cfg, et); (logEnabled cfg, el)] ≫= λ s,
        if fst s && bool_decide (problem (snd s) = []) then [raw (snd s); url (snd s)] else [])).
  { intros enabled e He Hen. assert (usable_endpoint (raw e) ∧ grpcVar e = [] ∧ problem e = []) as (? & ? & Hp).
    { apply elem_of_cons in He as [[= -> ->]|[= -> ->]%list_elem_of_singleton]; auto. }
    split_and!; [done|done| |]; apply list_elem_of_bind; exists (enabled, e);
      (split; [cbn; rewrite Hen, bool_decide_true by done; set_solver|done]). }
  assert (Hsigs : ∀ enabled e, (enabled, e) ∈ [(traceEnabled cfg, et); (logEnabled cfg, el)] → enabled = true →
    usable_endpoint (raw e) ∧ grpcVar e = [] ∧
    raw e ∈ [metricsOTLPEndpoint cfg; profilingEndpoint cfg] ++ ([(traceEnabled cfg, et); (logEnabled cfg, el)] ≫= λ s,
        if fst s && bool_decide (problem (snd s) = []) then [raw (snd s); url (snd s)] else [])
    ∧ url e ∈ [metricsOTLPEndpoint cfg; profilingEndpoint cfg] ++ ([(traceEnabled cfg, et); (logEnabled cfg, el)] ≫= λ s,
        if fst s && bool_decide (problem (snd s) = []) then [raw (snd s); url (snd s)] else [])).
  { intros enabled e He Hen. destruct (Hok enabled e He Hen) as (? & ? & ? & ?).
    split_and!; [done|done|apply elem_of_app; by right|apply elem_of_app; by right]. }
  destruct (metricsEnabled cfg); cbn [andb]; [|split; [done|done]].
  case_bool_decide as Hm; cbn [negb]; [split; [done|done]|].
  case_bool_decide as Hmp.
  - split; [done|]. intros _ _. split; [by apply Hu|left].
  - unfold endpoint_error_texts. rewrite !elem_of_app. right. right. right. apply list_elem_of_fmap. eauto.
Qed.

(** The precedence of the endpoint settings, and the path rules. The option
    decides alone when it is set, whatever the variables hold; else the signal's
    variable, trimmed, if it is not blank, else the generic one, else the
    default. A usable variable gives a URL that differs from what it parses to
    in its path alone: without its trailing slashes, and with the signal's path
    appended, for the signal's own variable only where there is none. *)
Theorem resolveEndpoint_precedence (cfg : Config) (s : otlpSignal) :
  config_ok cfg → known_signal s →
  let e := resolveEndpoint Getenv cfg s in
  let signal := envValue Getenv (envVar s) false in
  let generic := envValue Getenv envOTLPEndpoint false in
  (otlpEndpointSet cfg = true →
     raw e = otlpEndpoint cfg ∧ url e = raw e ∧ ∀ Getenv', resolveEndpoint Getenv' cfg s = e)
  ∧ (otlpEndpointSet cfg = false → signal = [] → generic = [] → raw e = defaultOTLPEndpoint ∧ url e = raw e)
  ∧ (otlpEndpointSet cfg = false → signal ≠ [] ∨ generic ≠ [] →
     source e = (if bool_decide (signal = []) then envOTLPEndpoint else envVar s)
     ∧ raw e = (if bool_decide (signal = []) then generic else signal)
     ∧ ∀ u, parseEndpoint (raw e) = inr u → ∃ p,
         url e = url_String (with_path u p)
         ∧ p = (let path := TrimRight (Path u) #"/" in
                if decide (signal ≠ [] ∧ path ≠ []) then path else path ++ urlPath s)).
Proof.
  intros Hc Hs. cbv zeta. unfold resolveEndpoint. split_and!.
  - intros ->. done.
  - intros Hset Hsig Hgen. rewrite Hset. cbv zeta. rewrite Hsig, Hgen. cbn.
    split; [|done]. by apply (ok_endpoint _ Hc).
  - intros -> Hvar. cbv zeta.
    assert (Hparts : ∀ v src base, let e := grpc_checked Getenv s (newEnvSignalEndpoint v src (urlPath s) base) in
      source e = src ∧ raw e = v ∧ ∀ u, parseEndpoint v = inr u →
        url e = url_String (with_path u (let path := TrimRight (Path u) #"/" in
                  if base || bool_decide (path = []) then path ++ urlPath s else path))).
    { intros v src base. cbv zeta. unfold grpc_checked, newEnvSignalEndpoint.
      destruct (parseEndpoint v) as [err|u'] eqn:E; destruct (EqualFold _ _); cbn; (split_and!; [done|done|naive_solver]). }
    case_bool_decide as Hsig; cbn [negb].
    + rewrite bool_decide_false by tauto. cbn [negb].
      destruct (Hparts (envValue Getenv envOTLPEndpoint false) envOTLPEndpoint true) as (-> & -> & Hu).
      split_and!; [done|done|]. intros u Hp. eexists. split; [by apply Hu|]. cbv zeta. by rewrite decide_False by tauto.
    + destruct (Hparts (envValue Getenv (envVar s) false) (envVar s) false) as (-> & -> & Hu).
      split_and!; [done|done|]. intros u Hp. eexists. split; [by apply Hu|]. cbv zeta. cbn [orb].
      case_bool_decide; [by rewrite decide_False by tauto|by rewrite decide_True].
Qed.
End facts.

(** * An environment *)
Definition sample_getenv (name : bytes) : bytes :=
  if bool_decide (name = envOTLPEndpoint) then #" http://alice:pw@collector:4318/base/ " else [].

Lemma resolveEndpoint_precedence_witness :
  raw (resolveEndpoint (L := sample_lib) sample_getenv (defaultConfig sample_getenv) logSignal)
    = #"http://alice:pw@collector:4318/base/"
  ∧ url (resolveEndpoint (L := sample_lib) sample_getenv (defaultConfig sample_getenv) logSignal)
    = #"http://alice:pw@collector:4318/base/v1/logs".
Proof.
  destruct (resolveEndpoint_precedence (B := sample_baggage) (L := sample_lib) sample_getenv
    (defaultConfig sample_getenv) logSignal (defaultConfig_ok _) (or_intror eq_refl)) as (_ & _ & H).
  destruct H as (_ & Hraw & _); [reflexivity|right; vm_compute; discriminate|].
  split; [rewrite Hraw; vm_compute; reflexivity|vm_compute; reflexivity].
Defined.
