(* ===== verification/EnvChecks.v ===== *)
(** diagnostics.go, the environment: which variables the exporters and providers
    Init is about to build will read, the rule each is parsed by, and what Init
    says of one that breaks its rule. Files, certificates and floating point
    numbers are read by the library, which is an interface here. *)
From S2P Require Import Prelude Utf8 GoStrings GoCodec GoNum SampleLib Attribute PromLabel ResourceKeys SemconvReserved Baggage Options Endpoint.

Class GoFiles := {
  ReadFile : bytes → option bytes;
  AppendCertsFromPEM : bytes → bool;
  X509KeyPair : bytes → bytes → bool;
  ParseFloat_ok : bytes → bool;
}.

(** A check answers the reason why a value is bad. *)
Abbreviation checker := (bytes → option bytes).
Inductive otlpEnvCheck := mk_check {
  name : bytes; check : checker; verbatim : bool; pair : bytes; fallback : option otlpEnvCheck;
}.
Definition plain_check (name : bytes) (check : checker) (verbatim : bool) : otlpEnvCheck :=
  mk_check name check verbatim [] None.
Definition with_fallback (c f : otlpEnvCheck) : otlpEnvCheck := mk_check (name c) (check c) (verbatim c) (pair c) (Some f).

(** * HTTP tokens and header lists *)
Section checks.
Context `{L : GoLib, F : GoFiles} (Getenv : bytes → bytes).

Definition token_mark (r : N) : bool :=
  existsb (λ c, (r =? byte_val c)%N) #"!#$%&'*+-.^_`|~".
Definition isHTTPToken (s : bytes) : bool :=
  if bool_decide (s = []) then false
  else forallb (λ p : N * bytes, if (127 <? p.1)%N then false
                                 else unicode_IsLetter p.1 || unicode_IsDigit p.1 || token_mark p.1) (runes s).

Definition pair_reason (i : nat) (before after : bytes) : bytes := before ++ dec (N.of_nat (i + 1)) ++ after.
Definition missing_equals (i : nat) : bytes := pair_reason i #"pair " #" is missing '='".
Definition bad_name (i : nat) : bytes := pair_reason i #"the name of pair " #" is not a valid HTTP header name".
Definition bad_value (i : nat) : bytes := pair_reason i #"the value of pair " #" is not valid percent-encoding".
Fixpoint malformed_from (i : nat) (pairs : list bytes) : option bytes :=
  match pairs with
  | [] => None
  | p :: rest =>
    let '(k, v, found) := Cut p "=" in
    if negb found then Some (missing_equals i)
    else if negb (isHTTPToken (TrimSpace k)) then Some (bad_name i)
    else
      match PathUnescape v with
      | None => Some (bad_value i)
      | Some _ => malformed_from (S i) rest
      end
  end.
Definition malformedHeaderList : checker := λ raw, malformed_from 0 (Split raw ",").

(** * The rules *)
Definition reject_unless (ok : bool) (reason : bytes) : option bytes := if ok then None else Some reason.
Definition is_Some_b {A} (o : option A) : bool := match o with Some _ => true | None => false end.
Definition one_of (v : bytes) (known : list bytes) : bool := bool_decide (v ∈ known).

Definition checkURL : checker := λ v, reject_unless (is_Some_b (url_Parse v)) problemInvalidURL.
Definition checkInteger : checker := λ v, reject_unless (is_Some_b (Atoi v)) #"it is not an integer".
Definition checkPositiveInteger : checker := λ v,
  reject_unless (match Atoi v with Some n => (0 <? n)%Z | None => false end)
    #"it is not a positive integer count of milliseconds".
Definition checkSamplerName : checker := λ v,
  reject_unless (one_of (ToLower v) [ #"always_on"; #"always_off"; #"traceidratio"; #"parentbased_always_on";
                                      #"parentbased_always_off"; #"parentbased_traceidratio"])
    #"it is not one of the sampler names the SDK knows".
Definition checkSamplerRatio : checker := λ v, reject_unless (ParseFloat_ok v) #"it is not a number".
Definition checkMilliseconds : checker := λ v,
  reject_unless (is_Some_b (Atoi v)) #"it is not an integer count of milliseconds".
Definition dquoted (s : bytes) : bytes := "034"%char :: s ++ ["034"%char].
Definition checkCompression : checker := λ v,
  reject_unless (one_of v [ #"gzip"; #"none"]) ( #"it is neither " ++ dquoted #"gzip" ++ #" nor " ++ dquoted #"none").
Definition checkTemporalityPreference : checker := λ v,
  reject_unless (one_of (ToLower v) [ #"cumulative"; #"delta"; #"lowmemory"])
    ( #"it is none of " ++ dquoted #"cumulative" ++ #", " ++ dquoted #"delta" ++ #" and " ++ dquoted #"lowmemory").
Definition checkHistogramAggregation : checker := λ v,
  reject_unless (one_of (ToLower v) [ #"explicit_bucket_histogram"; #"base2_exponential_bucket_histogram"])
    ( #"it is neither " ++ dquoted #"explicit_bucket_histogram" ++ #" nor "
      ++ dquoted #"base2_exponential_bucket_histogram").
Definition checkCertificateFile : checker := λ path,
  match ReadFile path with
  | None => Some #"the file it names cannot be read"
  | Some pem => reject_unless (AppendCertsFromPEM pem) #"the file it names holds no PEM certificate"
  end.
Definition checkClientKeyPair (keyVar : bytes) (verbatim : bool) : checker := λ certPath,
  match ReadFile certPath with
  | None => Some #"the file it names cannot be read"
  | Some cert =>
    match ReadFile (envValue Getenv keyVar verbatim) with
    | None => Some ( #"the file named by " ++ keyVar ++ #" cannot be read")
    | Some key => reject_unless (X509KeyPair cert key)
                    ( #"it and " ++ keyVar ++ #" do not name a valid certificate and key pair")
    end
  end.
Definition clientCertCheck (prefix : bytes) (verbatim : bool) : otlpEnvCheck :=
  let key := prefix ++ #"CLIENT_KEY" in
  mk_check (prefix ++ #"CLIENT_CERTIFICATE") (checkClientKeyPair key verbatim) verbatim key None.

(** * Which variables are checked *)
Definition generic_prefix : bytes := #"OTEL_EXPORTER_OTLP_".
Definition envFirst (signal : bytes) : list otlpEnvCheck :=
  [generic_prefix; generic_prefix ++ signal ++ #"_"] ≫= λ prefix,
    [plain_check (prefix ++ #"ENDPOINT") checkURL false;
     plain_check (prefix ++ #"TIMEOUT") checkMilliseconds false;
     plain_check (prefix ++ #"HEADERS") malformedHeaderList false;
     plain_check (prefix ++ #"CERTIFICATE") checkCertificateFile false;
     clientCertCheck prefix false].
Definition logs_prefix : bytes := #"OTEL_EXPORTER_OTLP_LOGS_".
Definition signalFirst (setting : bytes) (check : checker) : otlpEnvCheck :=
  with_fallback (plain_check (logs_prefix ++ setting) check true) (plain_check (generic_prefix ++ setting) check true).

Definition otlpExporterEnvChecks (cfg : Config) : list otlpEnvCheck :=
  (if traceEnabled cfg then envFirst #"TRACES" else [])
  ++ (if metricsEnabled cfg && negb (bool_decide (metricsOTLPEndpoint cfg = [])) then
        envFirst #"METRICS"
        ++ [plain_check #"OTEL_EXPORTER_OTLP_METRICS_TEMPORALITY_PREFERENCE" checkTemporalityPreference false;
            plain_check #"OTEL_EXPORTER_OTLP_METRICS_DEFAULT_HISTOGRAM_AGGREGATION" checkHistogramAggregation false]
      else [])
  ++ (if logEnabled cfg then
        [signalFirst #"TIMEOUT" checkMilliseconds; signalFirst #"COMPRESSION" checkCompression;
         signalFirst #"CERTIFICATE" checkCertificateFile;
         with_fallback (clientCertCheck logs_prefix true) (clientCertCheck generic_prefix true)]
        ++ (if bool_decide (otlpHeaders cfg = ∅) then [signalFirst #"HEADERS" malformedHeaderList] else [])
      else []).

Definition integer (name : bytes) : otlpEnvCheck := plain_check name checkInteger true.
Definition ratio_samplers : list bytes := [ #"traceidratio"; #"parentbased_traceidratio"].
Definition sdkEnvChecks (cfg : Config) : list otlpEnvCheck :=
  (if traceEnabled cfg then
     (integer <$> [ #"OTEL_BSP_SCHEDULE_DELAY"; #"OTEL_BSP_EXPORT_TIMEOUT"; #"OTEL_BSP_MAX_QUEUE_SIZE";
                    #"OTEL_BSP_MAX_EXPORT_BATCH_SIZE"; #"OTEL_SPAN_EVENT_COUNT_LIMIT"; #"OTEL_SPAN_LINK_COUNT_LIMIT";
                    #"OTEL_EVENT_ATTRIBUTE_COUNT_LIMIT"; #"OTEL_LINK_ATTRIBUTE_COUNT_LIMIT"])
     ++ ((λ limit, with_fallback (integer ( #"OTEL_SPAN_" ++ limit)) (integer ( #"OTEL_" ++ limit)))
           <$> [ #"ATTRIBUTE_VALUE_LENGTH_LIMIT"; #"ATTRIBUTE_COUNT_LIMIT"])
     ++ [plain_check #"OTEL_TRACES_SAMPLER" checkSamplerName false]
     ++ (if one_of (ToLower (TrimSpace (Getenv #"OTEL_TRACES_SAMPLER"))) ratio_samplers then
           [plain_check #"OTEL_TRACES_SAMPLER_ARG" checkSamplerRatio false] else [])
   else [])
  ++ (if logEnabled cfg then
        integer <$> [ #"OTEL_BLRP_SCHEDULE_DELAY"; #"OTEL_BLRP_EXPORT_TIMEOUT"; #"OTEL_BLRP_MAX_QUEUE_SIZE";
                      #"OTEL_BLRP_MAX_EXPORT_BATCH_SIZE"; #"OTEL_LOGRECORD_ATTRIBUTE_COUNT_LIMIT";
                      #"OTEL_LOGRECORD_ATTRIBUTE_VALUE_LENGTH_LIMIT"]
      else [])
  ++ (if metricsEnabled cfg then [plain_check #"OTEL_GO_X_CARDINALITY_LIMIT" checkInteger false] else [])
  ++ (if metricsEnabled cfg && negb (bool_decide (metricsOTLPEndpoint cfg = [])) then
        (λ name, plain_check name checkPositiveInteger true)
          <$> [ #"OTEL_METRIC_EXPORT_INTERVAL"; #"OTEL_METRIC_EXPORT_TIMEOUT"]
      else []).

(** * The check *)
Definition set (c : otlpEnvCheck) : bool :=
  negb (bool_decide (envValue Getenv (name c) (verbatim c) = []))
  && (bool_decide (pair c = []) || negb (bool_decide (envValue Getenv (pair c) (verbatim c) = []))).
(** The loop over the fallbacks of a check that is not set. *)
Fixpoint effective (c : otlpEnvCheck) : otlpEnvCheck :=
  match fallback c with
  | Some f => if set c then c else effective f
  | None => c
  end.

Definition env_error (name reason : bytes) : bytes :=
  #"o11y: " ++ name ++ #" cannot be used (" ++ reason
  ++ #"); the OTel SDK and its OTLP exporters would report its raw text through OTel's global logger or error handler while Init builds them, before Logr() and ErrorHandler() can be installed, so the variable is rejected instead".
Definition validateOTLPEnvVar (name value : bytes) (check : checker) : option bytes :=
  if bool_decide (value = []) then None
  else (λ reason, env_error name reason) <$> check value.
Definition validate_check (c : otlpEnvCheck) : option bytes :=
  let c := effective c in
  if negb (set c) then None
  else validateOTLPEnvVar (name c) (envValue Getenv (name c) (verbatim c)) (check c).
Definition validateOTLPExporterEnv (cfg : Config) : option bytes :=
  head (omap validate_check (otlpExporterEnvChecks cfg ++ sdkEnvChecks cfg)).
End checks.

(** * Header lists *)
Section header_facts.
Context `{L : GoLib, !GoLibLaws L}.

Lemma token_mark_byte c : (byte_val c < 128)%N → is_alpha c || is_digit c || token_mark (byte_val c) = is_token_byte c.
Proof. byte_cases c; try (intros _; reflexivity); lia. Qed.

(** A header name from the environment is checked as net/http checks one. *)
Lemma isHTTPToken_spec s : isHTTPToken s = true ↔ s ≠ [] ∧ forallb is_token_byte s = true.
Proof.
  unfold isHTTPToken. case_bool_decide as Hs; [naive_solver|]. split; [intros H; split; [done|]|intros [_ H]].
  - clear Hs. revert H. induction s as [|c s IH]; [done|]. destruct (decide (byte_val c < 128)%N) as [Hc|Hc].
    + rewrite runes_cons_low by done. cbn [forallb fst]. assert ((127 <? byte_val c)%N = false) as -> by lia.
      rewrite unicode_IsLetter_ascii, unicode_IsDigit_ascii, token_mark_byte by done.
      intros [-> H]%andb_prop. by apply IH.
    + rewrite runes_cons. cbn [forallb fst].
      assert ((127 <? rune_of (c :: s))%N = true) as -> by (pose proof (rune_of_high c s ltac:(lia)); lia). done.
  - clear Hs. induction s as [|c s IH]; [done|]. cbn [forallb] in H. apply andb_prop in H as [Hc H].
    assert (byte_val c < 128)%N as Hlow by (revert Hc; byte_cases c; try done; lia).
    rewrite runes_cons_low by done. cbn [forallb fst]. assert ((127 <? byte_val c)%N = false) as -> by lia.
    rewrite unicode_IsLetter_ascii, unicode_IsDigit_ascii, token_mark_byte, Hc by done. by apply IH.
Qed.

(** What a header list is. *)
Definition header_pair_ok (p : bytes) : Prop :=
  ∃ k v, p = k ++ "="%char :: v ∧ "="%char ∉ k
    ∧ TrimSpace k ≠ [] ∧ forallb is_token_byte (TrimSpace k) = true ∧ is_Some (PathUnescape v).
Definition header_list_ok (raw : bytes) : Prop := Forall header_pair_ok (Split raw ",").

Lemma malformed_from_spec i pairs : malformed_from i pairs = None ↔ Forall header_pair_ok pairs.
Proof.
  revert i. induction pairs as [|p pairs IH]; intros i; [split; [constructor|done]|]. cbn [malformed_from].
  rewrite Forall_cons. destruct (Cut p "=") as [[k v] []] eqn:Ec; cbn [negb].
  - apply Cut_spec in Ec as [Hp Hk].
    assert (Hpair : header_pair_ok p ↔ isHTTPToken (TrimSpace k) = true ∧ is_Some (PathUnescape v)).
    { rewrite isHTTPToken_spec. split.
      - intros (k' & v' & Hp' & Hk' & ?). pose proof (Cut_app k' v' "=" Hk') as Hc.
        rewrite <- Hp', Hp, Cut_app in Hc by done. naive_solver.
      - intros [[? ?] ?]. exists k, v. auto. }
    rewrite Hpair. destruct (isHTTPToken (TrimSpace k)); cbn [negb]; [|naive_solver].
    destruct (PathUnescape v); [|split; [done|by intros [[_ [? [=]]] _]]]. rewrite IH. naive_solver.
  - apply Cut_None in Ec as [_ Hno]. split; [done|]. intros [(k' & v' & -> & _) _]. destruct Hno. set_solver.
Qed.

Lemma malformedHeaderList_spec raw : malformedHeaderList raw = None ↔ header_list_ok raw.
Proof. apply malformed_from_spec. Qed.
End header_facts.

(** * What the exporters may read *)
Section accepted.
Context `{L : GoLib, !GoLibLaws L, F : GoFiles} (Getenv : bytes → bytes).

Definition pem_file (path : bytes) : Prop := ∃ pem, ReadFile path = Some pem ∧ AppendCertsFromPEM pem = true.
Definition key_pair (certPath keyPath : bytes) : Prop :=
  ∃ cert key, ReadFile certPath = Some cert ∧ ReadFile keyPath = Some key ∧ X509KeyPair cert key = true.
Definition trimmed (name : bytes) : bytes := TrimSpace (Getenv name).

(** The trace and metric exporters trim a variable and skip a blank one. *)
Record prefix_ok (prefix : bytes) : Prop := {
  pr_endpoint : let v := trimmed (prefix ++ #"ENDPOINT") in v ≠ [] → is_Some (url_Parse v);
  pr_timeout : let v := trimmed (prefix ++ #"TIMEOUT") in v ≠ [] → is_Some (Atoi v);
  pr_headers : let v := trimmed (prefix ++ #"HEADERS") in v ≠ [] → header_list_ok v;
  pr_certificate : let v := trimmed (prefix ++ #"CERTIFICATE") in v ≠ [] → pem_file v;
  pr_client : let c := trimmed (prefix ++ #"CLIENT_CERTIFICATE") in let k := trimmed (prefix ++ #"CLIENT_KEY") in
    c ≠ [] → k ≠ [] → key_pair c k;
}.
(** The log exporter takes a variable as it is, the signal's before the generic one. *)
Definition log_value (setting : bytes) : bytes :=
  if bool_decide (Getenv (logs_prefix ++ setting) = []) then Getenv (generic_prefix ++ setting)
  else Getenv (logs_prefix ++ setting).
Definition log_client_prefix : bytes :=
  if bool_decide (Getenv (logs_prefix ++ #"CLIENT_CERTIFICATE") = [])
     || bool_decide (Getenv (logs_prefix ++ #"CLIENT_KEY") = []) then generic_prefix else logs_prefix.
Record logs_ok (cfg : Config) : Prop := {
  lo_timeout : let v := log_value #"TIMEOUT" in v ≠ [] → is_Some (Atoi v);
  lo_compression : let v := log_value #"COMPRESSION" in v ≠ [] → v ∈ [ #"gzip"; #"none"];
  lo_certificate : let v := log_value #"CERTIFICATE" in v ≠ [] → pem_file v;
  lo_headers : otlpHeaders cfg = ∅ → let v := log_value #"HEADERS" in v ≠ [] → header_list_ok v;
  lo_client : let c := Getenv (log_client_prefix ++ #"CLIENT_CERTIFICATE") in
    let k := Getenv (log_client_prefix ++ #"CLIENT_KEY") in c ≠ [] → k ≠ [] → key_pair c k;
}.

Lemma reject_unless_none ok reason : reject_unless ok reason = None ↔ ok = true.
Proof. by destruct ok. Qed.

Lemma is_Some_b_spec {A} (o : option A) : is_Some_b o = true ↔ is_Some o.
Proof. destruct o; [split; [eauto|done]|split; [done|by intros []]]. Qed.

Lemma checkURL_spec v : checkURL v = None ↔ is_Some (url_Parse v).
Proof. unfold checkURL. by rewrite reject_unless_none, is_Some_b_spec. Qed.
Lemma checkMilliseconds_spec v : checkMilliseconds v = None ↔ is_Some (Atoi v).
Proof. unfold checkMilliseconds. by rewrite reject_unless_none, is_Some_b_spec. Qed.
Lemma checkCompression_spec v : checkCompression v = None ↔ v ∈ [ #"gzip"; #"none"].
Proof. unfold checkCompression, one_of. by rewrite reject_unless_none, bool_decide_eq_true. Qed.

Lemma checkCertificateFile_spec v : checkCertificateFile v = None ↔ pem_file v.
Proof.
  unfold checkCertificateFile, pem_file. destruct (ReadFile v); [rewrite reject_unless_none|]; naive_solver.
Qed.

Lemma checkClientKeyPair_spec keyVar verbatim v :
  checkClientKeyPair Getenv keyVar verbatim v = None ↔ key_pair v (envValue Getenv keyVar verbatim).
Proof.
  unfold checkClientKeyPair, key_pair. destruct (ReadFile v), (ReadFile _); rewrite ?reject_unless_none; naive_solver.
Qed.

(** A check without a pair and a fallback, and one with a fallback like it. *)
Lemma validate_check_single c :
  fallback c = None → validate_check Getenv c = None ↔
  (set Getenv c = true → check c (envValue Getenv (name c) (verbatim c)) = None).
Proof.
  intros Hf. unfold validate_check. destruct c as [n ck v p fb]. cbn in Hf. subst fb. cbn [effective fallback].
  destruct (set Getenv _) eqn:E; cbn [negb]; [|naive_solver]. unfold validateOTLPEnvVar. cbn [check name verbatim].
  unfold set in E. cbn in E. case_bool_decide; [done|]. rewrite fmap_None. naive_solver.
Qed.

Lemma validate_check_fallback c f :
  validate_check Getenv (with_fallback c f) = None ↔
  if set Getenv c then check c (envValue Getenv (name c) (verbatim c)) = None else validate_check Getenv f = None.
Proof.
  unfold validate_check, with_fallback. cbn [effective fallback].
  change (set Getenv (mk_check (name c) (check c) (verbatim c) (pair c) (Some f))) with (set Getenv c).
  destruct (set Getenv c) eqn:E; [|done].
  change (set Getenv (mk_check (name c) (check c) (verbatim c) (pair c) (Some f))) with (set Getenv c).
  rewrite E. cbn [negb]. unfold validateOTLPEnvVar. cbn [check name verbatim]. unfold set in E.
  case_bool_decide; [done|]. by rewrite fmap_None.
Qed.

Lemma set_plain n ck v : set Getenv (plain_check n ck v) = true ↔ envValue Getenv n v ≠ [].
Proof. unfold set, plain_check. cbn. rewrite andb_true_r, negb_true_iff. by rewrite bool_decide_eq_false. Qed.

Lemma validate_plain n ck v :
  validate_check Getenv (plain_check n ck v) = None ↔ (envValue Getenv n v ≠ [] → ck (envValue Getenv n v) = None).
Proof. rewrite validate_check_single by done. by rewrite set_plain. Qed.

Lemma set_client prefix v :
  set Getenv (clientCertCheck Getenv prefix v) = true ↔
  envValue Getenv (prefix ++ #"CLIENT_CERTIFICATE") v ≠ [] ∧ envValue Getenv (prefix ++ #"CLIENT_KEY") v ≠ [].
Proof.
  unfold set, clientCertCheck. cbn [name verbatim pair].
  assert (bool_decide (prefix ++ #"CLIENT_KEY" = []) = false) as ->.
  { apply bool_decide_eq_false. intros Hz%(f_equal length). rewrite length_app in Hz. cbn in Hz. lia. }
  cbn [orb]. rewrite andb_true_iff, !negb_true_iff, !bool_decide_eq_false. done.
Qed.

Lemma validate_client prefix v :
  validate_check Getenv (clientCertCheck Getenv prefix v) = None ↔
  (envValue Getenv (prefix ++ #"CLIENT_CERTIFICATE") v ≠ [] → envValue Getenv (prefix ++ #"CLIENT_KEY") v ≠ [] →
   key_pair (envValue Getenv (prefix ++ #"CLIENT_CERTIFICATE") v) (envValue Getenv (prefix ++ #"CLIENT_KEY") v)).
Proof.
  rewrite validate_check_single by done. rewrite set_client. cbn [check name verbatim clientCertCheck].
  rewrite checkClientKeyPair_spec. naive_solver.
Qed.

Lemma validate_signalFirst setting ck :
  validate_check Getenv (signalFirst setting ck) = None ↔ (log_value setting ≠ [] → ck (log_value setting) = None).
Proof.
  unfold signalFirst. rewrite validate_check_fallback. unfold log_value.
  pose proof (set_plain (logs_prefix ++ setting) ck true) as Hs. cbn [envValue] in Hs.
  destruct (set Getenv _); case_bool_decide as Hz.
  - by destruct (proj1 Hs eq_refl).
  - naive_solver.
  - by rewrite validate_plain.
  - by destruct (Hs) as [_ ?%(λ f, f Hz)].
Qed.

Lemma head_omap_nil {A C} (f : A → option C) l : head (omap f l) = None ↔ Forall (λ x, f x = None) l.
Proof.
  induction l as [|x l IH]; cbn; [split; [constructor|done]|]. rewrite Forall_cons. destruct (f x) eqn:E; cbn.
  - split; [done|]. intros [? _]. congruence.
  - rewrite IH. tauto.
Qed.

Lemma envFirst_accepted signal :
  Forall (λ c, validate_check Getenv c = None) (envFirst Getenv signal) →
  prefix_ok generic_prefix ∧ prefix_ok (generic_prefix ++ signal ++ #"_").
Proof.
  assert (Hprefix : ∀ prefix, Forall (λ c, validate_check Getenv c = None)
      [plain_check (prefix ++ #"ENDPOINT") checkURL false; plain_check (prefix ++ #"TIMEOUT") checkMilliseconds false;
       plain_check (prefix ++ #"HEADERS") malformedHeaderList false;
       plain_check (prefix ++ #"CERTIFICATE") checkCertificateFile false; clientCertCheck Getenv prefix false] →
    prefix_ok prefix).
  { intros prefix H. rewrite !Forall_cons, !validate_plain, validate_client in H.
    destruct H as (He & Ht & Hh & Hc & Hk & _). rewrite checkURL_spec in He. rewrite checkMilliseconds_spec in Ht.
    rewrite malformedHeaderList_spec in Hh. rewrite checkCertificateFile_spec in Hc. by split. }
  unfold envFirst. cbn [mbind list_bind]. rewrite app_nil_r, Forall_app. intros [H1 H2]. split; by apply Hprefix.
Qed.

End accepted.

(** * What Init says *)
Section blind.
Context `{L : GoLib, F : GoFiles}.

Definition exporter_prefixes : list bytes :=
  [generic_prefix; #"OTEL_EXPORTER_OTLP_TRACES_"; #"OTEL_EXPORTER_OTLP_METRICS_"; logs_prefix].
(** The reasons there are: none depends on the value but for the position of a pair. *)
Definition fixed_reasons : list bytes :=
  [problemInvalidURL; #"it is not an integer"; #"it is not a positive integer count of milliseconds";
   #"it is not one of the sampler names the SDK knows"; #"it is not a number";
   #"it is not an integer count of milliseconds"; #"it is neither " ++ dquoted #"gzip" ++ #" nor " ++ dquoted #"none";
   #"it is none of " ++ dquoted #"cumulative" ++ #", " ++ dquoted #"delta" ++ #" and " ++ dquoted #"lowmemory";
   #"it is neither " ++ dquoted #"explicit_bucket_histogram" ++ #" nor " ++ dquoted #"base2_exponential_bucket_histogram";
   #"the file it names cannot be read"; #"the file it names holds no PEM certificate"]
  ++ ((λ prefix, #"the file named by " ++ (prefix ++ #"CLIENT_KEY") ++ #" cannot be read") <$> exporter_prefixes)
  ++ ((λ prefix, #"it and " ++ (prefix ++ #"CLIENT_KEY") ++ #" do not name a valid certificate and key pair") <$> exporter_prefixes).
Definition blind_reason (reason : bytes) : Prop :=
  reason ∈ fixed_reasons ∨ ∃ i, reason ∈ [missing_equals i; bad_name i; bad_value i].

Lemma malformed_blind i pairs reason :
  malformed_from i pairs = Some reason → ∃ i, reason ∈ [missing_equals i; bad_name i; bad_value i].
Proof.
  revert i. induction pairs as [|p pairs IH]; intros i; [done|]. cbn [malformed_from].
  destruct (Cut p "=") as [[k v] []]; cbn [negb]; [|intros [= <-]; exists i; left].
  destruct (isHTTPToken _); cbn [negb]; [|intros [= <-]; exists i; right; left].
  destruct (PathUnescape v); [apply IH|intros [= <-]; exists i; right; right; left].
Qed.

Lemma reject_unless_blind ok reason reason' : reject_unless ok reason = Some reason' → reason ∈ fixed_reasons → blind_reason reason'.
Proof. destruct ok; cbn; [done|]. intros [= <-] ?. by left. Qed.

(** A check none of whose reasons tells the value. *)
Definition blind (c : otlpEnvCheck) : Prop := ∀ v reason, check c v = Some reason → blind_reason reason.

(** The variables that are checked. *)
Definition checked_variables : list bytes :=
  (exporter_prefixes ≫= λ prefix, (λ setting, prefix ++ setting)
     <$> [ #"ENDPOINT"; #"TIMEOUT"; #"HEADERS"; #"CERTIFICATE"; #"CLIENT_CERTIFICATE"; #"COMPRESSION"])
  ++ [ #"OTEL_EXPORTER_OTLP_METRICS_TEMPORALITY_PREFERENCE"; #"OTEL_EXPORTER_OTLP_METRICS_DEFAULT_HISTOGRAM_AGGREGATION";
       #"OTEL_BSP_SCHEDULE_DELAY"; #"OTEL_BSP_EXPORT_TIMEOUT"; #"OTEL_BSP_MAX_QUEUE_SIZE"; #"OTEL_BSP_MAX_EXPORT_BATCH_SIZE";
       #"OTEL_SPAN_EVENT_COUNT_LIMIT"; #"OTEL_SPAN_LINK_COUNT_LIMIT"; #"OTEL_EVENT_ATTRIBUTE_COUNT_LIMIT";
       #"OTEL_LINK_ATTRIBUTE_COUNT_LIMIT"; #"OTEL_SPAN_ATTRIBUTE_VALUE_LENGTH_LIMIT"; #"OTEL_SPAN_ATTRIBUTE_COUNT_LIMIT";
       #"OTEL_ATTRIBUTE_VALUE_LENGTH_LIMIT"; #"OTEL_ATTRIBUTE_COUNT_LIMIT"; #"OTEL_TRACES_SAMPLER"; #"OTEL_TRACES_SAMPLER_ARG";
       #"OTEL_BLRP_SCHEDULE_DELAY"; #"OTEL_BLRP_EXPORT_TIMEOUT"; #"OTEL_BLRP_MAX_QUEUE_SIZE"; #"OTEL_BLRP_MAX_EXPORT_BATCH_SIZE";
       #"OTEL_LOGRECORD_ATTRIBUTE_COUNT_LIMIT"; #"OTEL_LOGRECORD_ATTRIBUTE_VALUE_LENGTH_LIMIT"; #"OTEL_GO_X_CARDINALITY_LIMIT";
       #"OTEL_METRIC_EXPORT_INTERVAL"; #"OTEL_METRIC_EXPORT_TIMEOUT"].
Definition blind_check (c : otlpEnvCheck) : Prop := blind c ∧ name c ∈ checked_variables.
Fixpoint blind_checks (c : otlpEnvCheck) : Prop :=
  blind_check c ∧ match fallback c with Some f => blind_checks f | None => True end.

Lemma effective_blind Getenv c : blind_checks c → blind_check (effective Getenv c).
Proof.
  revert c. fix IH 1. intros [n ck v p [f|]] [Hb Hf]; cbn in *; [|done]. destruct (set Getenv _); [done|by apply IH].
Qed.

Lemma blind_intro (ck : checker) n v p :
  (∀ v reason, ck v = Some reason → blind_reason reason) → n ∈ checked_variables → blind_check (mk_check n ck v p None).
Proof. by split. Qed.

Ltac in_list := apply (bool_decide_unpack _); vm_compute; exact I.
Ltac solve_blind :=
  let v := fresh "v" in let reason := fresh "reason" in let H := fresh "H" in
  intros v reason H; first [by right; apply malformed_blind in H | by eapply reject_unless_blind; [exact H|in_list]].

Lemma rules_blind :
  (∀ v reason, checkURL v = Some reason → blind_reason reason)
  ∧ (∀ v reason, checkMilliseconds v = Some reason → blind_reason reason)
  ∧ (∀ v reason, malformedHeaderList v = Some reason → blind_reason reason)
  ∧ (∀ v reason, checkInteger v = Some reason → blind_reason reason)
  ∧ (∀ v reason, checkPositiveInteger v = Some reason → blind_reason reason)
  ∧ (∀ v reason, checkSamplerName v = Some reason → blind_reason reason)
  ∧ (∀ v reason, checkSamplerRatio v = Some reason → blind_reason reason)
  ∧ (∀ v reason, checkCompression v = Some reason → blind_reason reason)
  ∧ (∀ v reason, checkTemporalityPreference v = Some reason → blind_reason reason)
  ∧ (∀ v reason, checkHistogramAggregation v = Some reason → blind_reason reason)
  ∧ (∀ v reason, checkCertificateFile v = Some reason → blind_reason reason).
Proof.
  split_and!; try solve_blind. intros v reason. unfold checkCertificateFile. destruct (ReadFile v).
  - intros H. eapply reject_unless_blind; [exact H|in_list].
  - intros [= <-]. left. in_list.
Qed.

Lemma client_blind Getenv prefix verb v reason :
  prefix ∈ exporter_prefixes → checkClientKeyPair Getenv (prefix ++ #"CLIENT_KEY") verb v = Some reason → blind_reason reason.
Proof.
  intros Hp. unfold checkClientKeyPair. destruct (ReadFile v); [destruct (ReadFile _)|].
  - intros H. eapply reject_unless_blind; [exact H|]. unfold fixed_reasons. apply elem_of_app. right.
    apply elem_of_app. right. apply list_elem_of_fmap. eauto.
  - intros [= <-]. left. unfold fixed_reasons. apply elem_of_app. right. apply elem_of_app. left.
    apply list_elem_of_fmap. eauto.
  - intros [= <-]. left. in_list.
Qed.

Lemma client_check_blind Getenv prefix verb :
  prefix ∈ exporter_prefixes → prefix ++ #"CLIENT_CERTIFICATE" ∈ checked_variables →
  blind_checks (clientCertCheck Getenv prefix verb).
Proof. intros Hp Hn. split; [split; [|done]|done]. intros v reason. by apply client_blind. Qed.

Lemma plain_blind n ck verb :
  (∀ v reason, ck v = Some reason → blind_reason reason) → n ∈ checked_variables → blind_checks (plain_check n ck verb).
Proof. by split. Qed.

Lemma fallback_blind c f : blind_check c → blind_checks f → blind_checks (with_fallback c f).
Proof. by split. Qed.

Ltac blind_rule := destruct rules_blind as (?&?&?&?&?&?&?&?&?&?&?); assumption.
Ltac blind_list :=
  repeat first
    [ apply Forall_nil_2
    | apply Forall_app; split
    | apply Forall_cons; split;
      [first [ apply plain_blind; [blind_rule|in_list]
             | apply client_check_blind; in_list
             | apply fallback_blind; [split; [blind_rule|in_list]|apply plain_blind; [blind_rule|in_list]]
             | apply fallback_blind; [eapply (client_check_blind _ _ _); in_list|apply client_check_blind; in_list]]|]
    | case_match ].

Lemma checks_blind Getenv cfg : Forall blind_checks (otlpExporterEnvChecks Getenv cfg ++ sdkEnvChecks Getenv cfg).
Proof.
  unfold otlpExporterEnvChecks, sdkEnvChecks, envFirst, signalFirst, integer.
  cbn [mbind list_bind fmap list_fmap]. blind_list.
Qed.

(** C16: what Init says of a variable it refuses tells the variable and never its
    value: whatever the environment, the options and the files are, the error is
    the text of one of a fixed list of variables with one of a fixed list of
    reasons, or one that names the position of a pair in a header list. *)
Theorem environment_error_blind (Getenv : bytes → bytes) (cfg : Config) (err : bytes) :
  validateOTLPExporterEnv Getenv cfg = Some err →
  ∃ name reason, err = env_error name reason ∧ name ∈ checked_variables ∧ blind_reason reason.
Proof.
  unfold validateOTLPExporterEnv. intros Herr%head_Some_elem_of%list_elem_of_omap.
  destruct Herr as (c & Hin & Hc). pose proof (checks_blind Getenv cfg) as Hall. rewrite Forall_forall in Hall.
  apply Hall, (effective_blind Getenv) in Hin as [Hb Hn]. unfold validate_check in Hc.
  destruct (set Getenv _); cbn [negb] in Hc; [|done]. unfold validateOTLPEnvVar in Hc.
  case_bool_decide; [done|]. apply fmap_Some in Hc as (reason & Hr & ->).
  eexists _, reason. split_and!; [done|done|by eapply Hb].
Qed.
End blind.
Definition sample_files : GoFiles := {|
  ReadFile := λ _, None; AppendCertsFromPEM := λ _, false; X509KeyPair := λ _ _, false; ParseFloat_ok := λ _, false;
|}.

(** * An environment with a credential in the wrong place *)
Definition sample_getenv_bad (name : bytes) : bytes :=
  if bool_decide (name = #"OTEL_EXPORTER_OTLP_HEADERS") then #"authorization=Bearer%20s3cr3t,s3cr3t2" else [].

Lemma environment_error_blind_witness :
  ∃ err, validateOTLPExporterEnv (L := sample_lib) (F := sample_files) sample_getenv_bad (defaultConfig sample_getenv_bad) = Some err
  ∧ Contains err #"pair 2 is missing '='" = true
  ∧ ∃ name reason, err = env_error name reason ∧ name ∈ checked_variables ∧ blind_reason reason.
Proof.
  destruct (validateOTLPExporterEnv (L := sample_lib) (F := sample_files) sample_getenv_bad (defaultConfig sample_getenv_bad))
    as [err|] eqn:E; [|vm_compute in E; discriminate].
  exists err. split; [reflexivity|]. split.
  - vm_compute in E. injection E as <-. vm_compute. reflexivity.
  - exact (environment_error_blind (L := sample_lib) (F := sample_files) _ _ _ E).
Defined.

Definition sample_getenv_good (name : bytes) : bytes :=
  if bool_decide (name = #"OTEL_EXPORTER_OTLP_HEADERS") then #" authorization=Bearer%20s3cr3t " else [].
