(* ===== verification/Diagnostics.v ===== *)
(** diagnostics.go, what the diagnostics redact and report: the header checks of
    Init, the list of secrets, and the error handler the application installs. *)
From S2P Require Import Prelude Utf8 GoStrings GoCodec GoNum SampleLib RedactDecode RedactText RedactSecrets RedactHeaders RedactError Attribute PromLabel ResourceKeys SemconvReserved Baggage Repeat Options Endpoint EnvChecks.

Section diagnostics.
Context `{L : GoLib} (Getenv : bytes → bytes).

(** * Configured headers *)
Definition header_name_error (opt : bytes) : bytes :=
  #"o11y: a header name given to " ++ opt
  ++ #" is not a valid HTTP header name (an RFC 7230 token); net/http would reject every request carrying it and quote the name, escaped, in the export error, so the option is rejected instead and the name is not repeated here".
Definition sends_otlp (cfg : Config) : bool :=
  traceEnabled cfg || logEnabled cfg || (metricsEnabled cfg && negb (bool_decide (metricsOTLPEndpoint cfg = []))).
Definition profiles (cfg : Config) : bool := profilingEnabled cfg && negb (bool_decide (profilingEndpoint cfg = [])).
Definition validate_names (opt : bytes) (headers : gmap bytes bytes) (used : bool) : option bytes :=
  if used && existsb (λ name, negb (isHTTPToken name)) (fst <$> map_to_list headers) then Some (header_name_error opt)
  else None.
Definition validateConfiguredHeaders (cfg : Config) : option bytes :=
  head (omap id [validate_names #"WithOTLPHeaders" (otlpHeaders cfg) (sends_otlp cfg);
                 validate_names #"WithProfilingAuthHeaders" (profilingAuthHeaders cfg) (profiles cfg)]).

(** * The secrets *)
Definition otlpHeaderEnvVars : list bytes :=
  [ #"OTEL_EXPORTER_OTLP_HEADERS"; #"OTEL_EXPORTER_OTLP_TRACES_HEADERS";
    #"OTEL_EXPORTER_OTLP_METRICS_HEADERS"; #"OTEL_EXPORTER_OTLP_LOGS_HEADERS"].

(** addForms: [out] is also the set of what was seen. *)
Definition add_form (out : list bytes) (s : bytes) : list bytes :=
  if bool_decide (s = []) || bool_decide (s ∈ out) then out else out ++ [s].
Definition addForms (out forms : list bytes) : list bytes := foldl add_form out forms.
Definition add (out : list bytes) (v : bytes) : list bytes := addForms out (HeaderValueForms v).
Definition addName (out : list bytes) (v : bytes) : list bytes := addForms out (HeaderNameForms v).

Definition headerEnvForms (part : bytes) : list bytes :=
  [part; TrimSpace part]
  ++ ([part; TrimSpace part] ≫= λ candidate,
        match PathUnescape candidate with
        | Some unescaped => [unescaped; TrimSpace unescaped]
        | None => []
        end).

Definition add_header (out : list bytes) (kv : bytes * bytes) : list bytes := add (addName out kv.1) kv.2.
Definition add_endpoint (out : list bytes) (endpoint : bytes) : list bytes :=
  let basic := BasicAuthHeader endpoint in
  if bool_decide (basic = []) then out else add (add out basic) (TrimPrefix basic #"Basic ").
Definition add_part (out : list bytes) (part : bytes) : list bytes :=
  foldl (λ out form, addName (add out form) form) out (headerEnvForms part).
Definition add_pair (out : list bytes) (pair : bytes) : list bytes :=
  let out := add out pair in
  let '(k, v, ok) := Cut pair "=" in
  if ok then foldl add_part out [k; v] else out.
Definition add_variable (out : list bytes) (name : bytes) : list bytes :=
  let raw := Getenv name in
  if bool_decide (raw = []) then out else foldl add_pair (add out raw) (Split raw ",").

Definition diagnosticSecrets (cfg : Config) : list bytes :=
  let out := foldl add_header [] (map_to_list (otlpHeaders cfg)) in
  let out := foldl add_header out (map_to_list (profilingAuthHeaders cfg)) in
  let out := foldl add_endpoint out (diagnosticEndpoints cfg) in
  foldl add_variable out otlpHeaderEnvVars.
End diagnostics.

(** * The error handler *)
Definition otelDiagnosticRepeatWindow : Z := 60000000000.
Definition maxTrackedOTelDiagnostics : Z := 32.
Record otelErrorHandler := { suppress : Suppressor; endpoints : list bytes; secrets : list bytes }.
Definition newOTelErrorHandler (endpoints : list bytes) : otelErrorHandler :=
  {| suppress := NewSuppressor otelDiagnosticRepeatWindow maxTrackedOTelDiagnostics; endpoints := endpoints; secrets := [] |}.
(** Init's handler: with the secrets assigned. *)
Definition init_handler `{GoLib} (Getenv : bytes → bytes) (cfg : Config) : otelErrorHandler :=
  let h := newOTelErrorHandler (diagnosticEndpoints cfg) in
  {| suppress := suppress h; endpoints := endpoints h; secrets := diagnosticSecrets Getenv cfg |}.

(** Redaction.Text, which the handler and the logr sink share. *)
Definition redaction_Text `{GoLib} (endpoints secrets : list bytes) (s : bytes) : bytes :=
  Secrets (InText s endpoints) secrets.

Section handle.
Context `{L : GoLib} (σ : error_store).

(** Handle, at a time and with an order to visit the table in: the error text it
    logs, if it does. *)
Definition Handle (h : otelErrorHandler) (err : option eref) (at_ : Z) (visit : gmap bytes Z → list (bytes * Z)) :
    option bytes * otelErrorHandler :=
  match err with
  | None => (None, h)
  | Some _ =>
    let m := redaction_Text (endpoints h) (secrets h) (ErrorText σ err) in
    let '(suppressed, s) := SuppressedAt (suppress h) {| msg := m; now := at_; visit := visit |} in
    let h := {| suppress := s; endpoints := endpoints h; secrets := secrets h |} in
    (if suppressed then None else Some m, h)
  end.

(** A sequence of errors reported, and what is logged for each. *)
Record event := { ev_err : eref; ev_at : Z; ev_visit : gmap bytes Z → list (bytes * Z) }.
Definition event_ok (e : event) : Prop := ∀ m, ev_visit e m ≡ₚ map_to_list m.
Fixpoint handle_all (h : otelErrorHandler) (events : list event) : list (option bytes) :=
  match events with
  | [] => []
  | e :: events =>
    let '(logged, h) := Handle h (Some (ev_err e)) (ev_at e) (ev_visit e) in logged :: handle_all h events
  end.
End handle.

(** * The list is complete, and holds nothing else *)
Section secrets_list.
Context `{L : GoLib} (Getenv : bytes → bytes).

(** A step that adds the non-empty texts of [src], once each. *)
Definition adds (f : list bytes → list bytes) (src : bytes → Prop) : Prop :=
  ∀ out, (NoDup out → NoDup (f out)) ∧ ∀ x, x ∈ f out ↔ x ∈ out ∨ x ≠ [] ∧ src x.

Lemma adds_forms forms : adds (λ out, addForms out forms) (λ x, x ∈ forms).
Proof.
  unfold adds, addForms. induction forms as [|s forms IH]; intros out; cbn [foldl].
  { split; [done|]. intros x. rewrite elem_of_nil. tauto. }
  destruct (IH (add_form out s)) as [Hnd Hel]. split.
  - intros Hout. apply Hnd. unfold add_form. case_bool_decide; cbn [orb]; [done|]. case_bool_decide; [done|].
    apply NoDup_app. split; [done|]. split; [|apply NoDup_singleton]. set_solver.
  - intros x. rewrite Hel, elem_of_cons. unfold add_form.
    case_bool_decide; cbn [orb]; [naive_solver|]. case_bool_decide; [naive_solver|].
    rewrite elem_of_app, list_elem_of_singleton. naive_solver.
Qed.

Lemma adds_then f g src src' : adds f src → adds g src' → adds (λ out, g (f out)) (λ x, src x ∨ src' x).
Proof.
  intros Hf Hg out. destruct (Hf out) as [Hfn Hfe], (Hg (f out)) as [Hgn Hge]. split; [auto|].
  intros x. rewrite Hge, Hfe. tauto.
Qed.

Lemma adds_foldl {A} (f : list bytes → A → list bytes) (src : A → bytes → Prop) l :
  (∀ a, adds (λ out, f out a) (src a)) → adds (λ out, foldl f out l) (λ x, ∃ a, a ∈ l ∧ src a x).
Proof.
  intros Hf. induction l as [|a l IH]; intros out; cbn [foldl].
  { split; [done|]. intros x. split; [by left|]. intros [?|[_ (a & Ha & _)]]; [done|by apply elem_of_nil in Ha]. }
  destruct (IH (f out a)) as [Hn He], (Hf a out) as [Hn' He']. split; [auto|].
  intros x. rewrite He, He'. setoid_rewrite elem_of_cons. naive_solver.
Qed.

Lemma adds_ext f src src' : adds f src → (∀ x, src x ↔ src' x) → adds f src'.
Proof. intros Hf Hs out. destruct (Hf out) as [Hn He]. split; [done|]. intros x. by rewrite He, Hs. Qed.

Lemma adds_if (b : bool) f src : adds f src → adds (λ out, if b then out else f out) (λ x, b = false ∧ src x).
Proof.
  intros Hf out. destruct (Hf out) as [Hn He]. destruct b; [|split; [done|]; intros x; rewrite He; naive_solver].
  split; [done|]. intros x. naive_solver.
Qed.

(** Where a secret comes from. *)
Definition header_source (headers : gmap bytes bytes) (x : bytes) : Prop :=
  ∃ k v, headers !! k = Some v ∧ (x ∈ HeaderNameForms k ∨ x ∈ HeaderValueForms v).
Definition endpoint_source (endpoint x : bytes) : Prop :=
  BasicAuthHeader endpoint ≠ []
  ∧ (x ∈ HeaderValueForms (BasicAuthHeader endpoint) ∨ x ∈ HeaderValueForms (TrimPrefix (BasicAuthHeader endpoint) #"Basic ")).
Definition part_source (part x : bytes) : Prop :=
  ∃ form, form ∈ headerEnvForms part ∧ (x ∈ HeaderValueForms form ∨ x ∈ HeaderNameForms form).
Definition pair_source (p x : bytes) : Prop :=
  x ∈ HeaderValueForms p ∨ ∃ k v, Cut p "=" = (k, v, true) ∧ (part_source k x ∨ part_source v x).
Definition variable_source (raw x : bytes) : Prop :=
  raw ≠ [] ∧ (x ∈ HeaderValueForms raw ∨ ∃ p, p ∈ Split raw "," ∧ pair_source p x).
Definition secret_source (cfg : Config) (x : bytes) : Prop :=
  header_source (otlpHeaders cfg) x ∨ header_source (profilingAuthHeaders cfg) x
  ∨ (∃ endpoint, endpoint ∈ diagnosticEndpoints cfg ∧ endpoint_source endpoint x)
  ∨ (∃ name, name ∈ otlpHeaderEnvVars ∧ variable_source (Getenv name) x).

Lemma adds_headers headers : adds (λ out, foldl add_header out (map_to_list headers)) (header_source headers).
Proof.
  eapply adds_ext.
  - apply (adds_foldl add_header (λ kv x, x ∈ HeaderNameForms kv.1 ∨ x ∈ HeaderValueForms kv.2)). intros [k v].
    exact (adds_then _ _ _ _ (adds_forms _) (adds_forms _)).
  - intros x. unfold header_source. split.
    + intros ([k v] & Hin%elem_of_map_to_list & ?). eauto.
    + intros (k & v & Hin & ?). exists (k, v). by rewrite elem_of_map_to_list.
Qed.

Lemma adds_endpoint endpoint : adds (λ out, add_endpoint out endpoint) (endpoint_source endpoint).
Proof.
  unfold add_endpoint, endpoint_source. cbv zeta. eapply adds_ext.
  - apply adds_if. exact (adds_then _ _ _ _ (adds_forms _) (adds_forms _)).
  - intros x. cbn. by rewrite bool_decide_eq_false.
Qed.

Lemma adds_part part : adds (λ out, add_part out part) (part_source part).
Proof.
  apply (adds_foldl (λ out form, addName (add out form) form) (λ form x, x ∈ HeaderValueForms form ∨ x ∈ HeaderNameForms form)).
  intros form. exact (adds_then _ _ _ _ (adds_forms _) (adds_forms _)).
Qed.

Lemma adds_pair p : adds (λ out, add_pair out p) (pair_source p).
Proof.
  unfold add_pair, pair_source. destruct (Cut p "=") as [[k v] []].
  - cbn [foldl]. eapply adds_ext.
    + exact (adds_then _ _ _ _ (adds_forms _) (adds_then _ _ _ _ (adds_part k) (adds_part v))).
    + intros x. cbn. naive_solver.
  - eapply adds_ext; [apply adds_forms|]. intros x. cbn. naive_solver.
Qed.

Lemma adds_variable name : adds (λ out, add_variable Getenv out name) (variable_source (Getenv name)).
Proof.
  unfold add_variable, variable_source. cbv zeta. eapply adds_ext.
  - apply adds_if. exact (adds_then _ _ _ _ (adds_forms _) (adds_foldl add_pair pair_source _ adds_pair)).
  - intros x. cbn. by rewrite bool_decide_eq_false.
Qed.

Lemma diagnosticSecrets_spec cfg :
  NoDup (diagnosticSecrets Getenv cfg) ∧ ∀ x, x ∈ diagnosticSecrets Getenv cfg ↔ x ≠ [] ∧ secret_source cfg x.
Proof.
  pose proof (adds_then _ _ _ _ (adds_headers (otlpHeaders cfg)) (adds_then _ _ _ _ (adds_headers (profilingAuthHeaders cfg))
    (adds_then _ _ _ _ (adds_foldl add_endpoint endpoint_source (diagnosticEndpoints cfg) adds_endpoint)
      (adds_foldl (add_variable Getenv) (λ name, variable_source (Getenv name)) otlpHeaderEnvVars adds_variable)))) as H.
  destruct (H []) as [Hn He]. split; [by apply Hn, NoDup_nil_2|]. intros x.
  etrans; [exact (He x)|]. rewrite elem_of_nil. unfold secret_source. naive_solver.
Qed.
End secrets_list.

(** * What the handler logs *)
Section handler.
Context `{L : GoLib} (Hlaws : GoLibLaws L) (Getenv : bytes → bytes) (σ : error_store).

Definition event_call (h : otelErrorHandler) (e : event) : call := {|
  msg := redaction_Text (endpoints h) (secrets h) (ErrorText σ (Some (ev_err e)));
  now := ev_at e; visit := ev_visit e;
|}.
Definition answer_log (c : call) (suppressed : bool) : option bytes := if suppressed then None else Some (msg c).

Lemma handle_all_run h events :
  handle_all σ h events = zip_with answer_log (event_call h <$> events) (run (suppress h) (event_call h <$> events)).1.
Proof.
  revert h. induction events as [|e events IH]; intros h; [done|]. cbn [handle_all Handle fmap list_fmap run].
  change {| msg := _; now := ev_at e; visit := ev_visit e |} with (event_call h e).
  destruct (SuppressedAt (suppress h) (event_call h e)) as [b s]. rewrite IH. cbn [suppress].
  change (event_call {| suppress := s; endpoints := endpoints h; secrets := secrets h |}) with (event_call h).
  destruct (run s _) as [bs s2]. reflexivity.
Qed.

Lemma handle_all_lookup h events i o :
  handle_all σ h events !! i = Some o →
  ∃ e b, events !! i = Some e ∧ (run (suppress h) (event_call h <$> events)).1 !! i = Some b ∧ o = answer_log (event_call h e) b.
Proof.
  rewrite handle_all_run, lookup_zip_with, list_lookup_fmap. intros Ho.
  destruct (events !! i) as [e|]; [|done]. cbn in Ho. apply bind_Some in Ho as (b & Hb & [= <-]). eauto.
Qed.

Lemma redaction_removes endpoints secrets text s k :
  s ∈ secrets → shortSecretLen ≤ length s → unlike_placeholder s →
  redaction_Text endpoints secrets text = redactedMessage
  ∨ ¬ infix s (Nat.iter k decodeOnce (redaction_Text endpoints secrets text)).
Proof. intros. by apply Secrets_removes. Qed.

Lemma redaction_clean endpoints secrets text s :
  s ∈ secrets → s ≠ [] → holdsUnaccountedCredential (redaction_Text endpoints secrets text) = false.
Proof.
  intros Hin Hs. unfold redaction_Text. destruct (decide (InText text endpoints = [])) as [->|Ht].
  - unfold Secrets. rewrite (bool_decide_true ([] = [])), orb_true_r by done.
    unfold holdsUnaccountedCredential. rewrite decodedViews_plain by by apply byte_in_false. reflexivity.
  - destruct (Secrets_cases _ _ s Hin Hs Ht) as [-> | (-> & ? & _)]; [|done]. apply redactedMessage_clean.
Qed.

(** C4: what the installed error handler logs. Over any sequence of reported
    errors: a line it writes is the whole-text placeholder, or shows in no reading
    a secret of the configuration of at least shortSecretLen (six) bytes that has
    no square bracket and is no part of the placeholder; nothing is said of shorter
    secrets. The secrets are every form of every configured header, of the headers
    in the environment and of the credentials of the endpoints. It shows no HTTP
    credential it recognises once there is a secret. And an error it does not
    write was written, as the very same line, less than the repeat window before. *)
Theorem handler_sound (cfg : Config) (events : list event) (i : nat) (o : option bytes) :
  handle_all σ (init_handler Getenv cfg) events !! i = Some o →
  match o with
  | Some line =>
    (∀ s k, secret_source Getenv cfg s → shortSecretLen ≤ length s → unlike_placeholder s →
       line = redactedMessage ∨ ¬ infix s (Nat.iter k decodeOnce line))
    ∧ (diagnosticSecrets Getenv cfg ≠ [] → holdsUnaccountedCredential line = false)
  | None =>
    ∃ e line j e', events !! i = Some e ∧ j < i ∧ events !! j = Some e'
      ∧ handle_all σ (init_handler Getenv cfg) events !! j = Some (Some line)
      ∧ line = redaction_Text (diagnosticEndpoints cfg) (diagnosticSecrets Getenv cfg) (ErrorText σ (Some (ev_err e)))
      ∧ (Sub (ev_at e) (ev_at e') < otelDiagnosticRepeatWindow)%Z
  end.
Proof.
  intros Ho. set (h := init_handler Getenv cfg) in *.
  destruct (handle_all_lookup h events i o Ho) as (e & b & He & Hb & ->).
  destruct (diagnosticSecrets_spec Getenv cfg) as [_ Hlist]. destruct b; cbn [answer_log].
  - assert (Hc : (event_call h <$> events) !! i = Some (event_call h e)) by (by rewrite list_lookup_fmap, He).
    destruct (run_backed _ _ _ _ Hc Hb) as (t & Hlt & [Hnone|Hlet]).
    { cbn in Hnone. by rewrite lookup_empty in Hnone. }
    destruct Hlet as (j & c & Hj & Hcj & Hbj & Hmsg & Hnow).
    rewrite list_lookup_fmap in Hcj. destruct (events !! j) as [e'|] eqn:He'; [|done]. injection Hcj as <-.
    exists e, (msg (event_call h e)), j, e'. split_and!; [done|done|done| |done|].
    + rewrite handle_all_run, lookup_zip_with, list_lookup_fmap, He'. cbn [fmap option_fmap option_map mbind option_bind].
      rewrite Hbj. cbn [mbind option_bind answer_log]. by rewrite Hmsg.
    + cbn in Hnow. by rewrite <- Hnow in Hlt.
  - split.
    + intros s k Hs Hlen Hp. apply redaction_removes; [|done|done]. apply Hlist. split; [|done].
      intros ->. cbn in Hlen. unfold shortSecretLen in Hlen. lia.
    + intros Hne. destruct (head (diagnosticSecrets Getenv cfg)) as [s|] eqn:El; [|by apply head_None in El].
      apply head_Some_elem_of in El. apply (redaction_clean _ _ _ s); [done|]. by apply Hlist in El as [? _].
Qed.

(** The list of secrets is complete and exact. It holds every non-empty form,
    once: of the names and the values of the configured OTLP and profiling
    headers, of the Basic credential each endpoint in use stands for, with and
    without its scheme, and of the header variables of the environment, whole,
    pair by pair, and part by part, unescaped and trimmed in either order; and
    nothing else. *)
Theorem diagnosticSecrets_exact (cfg : Config) :
  NoDup (diagnosticSecrets Getenv cfg)
  ∧ ∀ x, x ∈ diagnosticSecrets Getenv cfg ↔ x ≠ [] ∧ secret_source Getenv cfg x.
Proof. exact (diagnosticSecrets_spec Getenv cfg). Qed.

(** The check of the configured header names. When it passes, every name an
    exporter or the profiler will send is a token, so net/http quotes none of
    them in an error; when it fails, the error is one of two fixed texts, with no
    name in it. *)
Theorem headers_validated (cfg : Config) :
  match validateConfiguredHeaders cfg with
  | Some err => err ∈ [header_name_error #"WithOTLPHeaders"; header_name_error #"WithProfilingAuthHeaders"]
  | None =>
    (sends_otlp cfg = true → ∀ k v, otlpHeaders cfg !! k = Some v → k ≠ [] ∧ forallb is_token_byte k = true)
    ∧ (profiles cfg = true → ∀ k v, profilingAuthHeaders cfg !! k = Some v → k ≠ [] ∧ forallb is_token_byte k = true)
  end.
Proof.
  assert (Hnames : ∀ opt headers used, match validate_names opt headers used with
    | Some err => err = header_name_error opt
    | None => used = true → ∀ k v, headers !! k = Some v → k ≠ [] ∧ forallb is_token_byte k = true
    end).
  { intros opt headers used. unfold validate_names. destruct used; cbn [andb]; [|done].
    destruct (existsb _ _) eqn:E; [done|]. intros _ k v Hk. apply isHTTPToken_spec.
    destruct (isHTTPToken k) eqn:Ek; [done|]. exfalso. apply not_true_iff_false in E. apply E, existsb_exists.
    exists k. split; [|by rewrite Ek]. apply list_elem_of_In, list_elem_of_fmap. exists (k, v).
    split; [done|]. by apply elem_of_map_to_list. }
  unfold validateConfiguredHeaders. cbn [omap list_omap id].
  pose proof (Hnames #"WithOTLPHeaders" (otlpHeaders cfg) (sends_otlp cfg)) as H1.
  pose proof (Hnames #"WithProfilingAuthHeaders" (profilingAuthHeaders cfg) (profiles cfg)) as H2.
  destruct (validate_names #"WithOTLPHeaders" _ _); cbn [head]; [subst; left|].
  destruct (validate_names #"WithProfilingAuthHeaders" _ _); cbn [head]; [subst; right; left|done].
Qed.
End handler.

(** * A collector that echoes the header it was sent *)
Definition sample_token : bytes := #"Bearer s3cr3t-token".
Definition sample_headers_config : Config :=
  WithOTLPHeaders {[ #"authorization" := sample_token ]} (defaultConfig (λ _, [])).
Definition echo_error : error_value := {|
  type_name := #"*errors.errorString"; nil_pointer := false; url_error := None;
  error_method := Some #"body: got authorization: Bearer s3cr3t-token"; unwrap_methods := NoUnwrap;
|}.
Definition echo_store : error_store := λ _, echo_error.
Definition sample_event (t : Z) : event := {| ev_err := 1%positive; ev_at := t; ev_visit := map_to_list |}.
Definition sample_log : list (option bytes) :=
  handle_all (L := sample_lib) echo_store (init_handler (λ _, []) sample_headers_config) [sample_event 0; sample_event 5].

Lemma handler_sound_witness :
  sample_log = [Some #"body: got [redacted]: [redacted]"; None]
  ∧ ¬ infix sample_token #"body: got [redacted]: [redacted]"
  ∧ ∃ e line j e', [sample_event 0; sample_event 5] !! 1 = Some e ∧ j < 1 ∧ [sample_event 0; sample_event 5] !! j = Some e'
      ∧ sample_log !! j = Some (Some line)
      ∧ line = redaction_Text (diagnosticEndpoints sample_headers_config)
                 (diagnosticSecrets (L := sample_lib) (λ _, []) sample_headers_config) (ErrorText echo_store (Some (ev_err e)))
      ∧ (Sub (ev_at e) (ev_at e') < otelDiagnosticRepeatWindow)%Z.
Proof.
  assert (E : sample_log = [Some #"body: got [redacted]: [redacted]"; None]) by (vm_compute; reflexivity).
  split; [exact E|]. split.
  - pose proof (handler_sound sample_laws (λ _, []) echo_store sample_headers_config [sample_event 0; sample_event 5] 0
      (Some #"body: got [redacted]: [redacted]")) as H.
    fold sample_log in H. rewrite E in H. destruct (H eq_refl) as [Hs _].
    destruct (Hs sample_token 0) as [Heq|Hno].
    + left. exists #"authorization", sample_token. split; [reflexivity|]. right.
      unfold HeaderValueForms. cbn [mbind list_bind]. apply elem_of_app. left. by apply Renderings_self.
    + vm_compute. lia.
    + split_and!; [done|by apply byte_in_false|by apply byte_in_false|]. intros Hi%infixb_spec. by vm_compute in Hi.
    + discriminate Heq.
    + exact Hno.
  - pose proof (handler_sound sample_laws (λ _, []) echo_store sample_headers_config [sample_event 0; sample_event 5] 1 None) as H.
    fold sample_log in H. rewrite E in H. specialize (H eq_refl). rewrite E. exact H.
Defined.
