(* ===== verification/Logr.v ===== *)
(** internal/log/logr.go: the sink OpenTelemetry's own diagnostics go through. A
    value of any type is what reflection and its methods show of it, behind a
    reference, so it may lead back to itself; a text in what is logged is one the
    redaction was applied to. *)
From S2P Require Import Prelude Utf8 GoStrings GoCodec GoNum SampleLib RedactDecode RedactText RedactSecrets RedactHeaders RedactError Attribute PromLabel ResourceKeys SemconvReserved Baggage Repeat Options Endpoint EnvChecks Diagnostics.

(** * Values *)
Definition vref := positive.
(** A slog.Attr whose value has been resolved. *)
Inductive attr := Attr (key : bytes) (value : attr_kind)
with attr_kind := KindString (s : bytes) | KindGroup (members : list attr) | KindAny (v : vref).

Inductive map_key := StringKey (s : bytes) | OtherKey (v : vref).
(** What reflection shows of a value. *)
Inductive reflected :=
  | RString (s : bytes)
  | RStruct (fields : list (bytes * bool * vref))  (* name, exported *)
  | RMap (entries : option (list (map_key * vref)))  (* None is a nil map *)
  | RSlice (elements : option (list vref))  (* None is a nil slice, or bytes *)
  | RPointer (walked : bool) (elem : option vref)  (* whether the kind of the element is one that is walked *)
  | ROther.
(** The first case of the type switch that applies. A method that panics answers None. *)
Inductive type_case :=
  | CaseError (text : option bytes)
  | CaseAttr (a : attr)
  | CaseValue (v : option vref)  (* slog.Value, slog.LogValuer *)
  | CaseTime
  | CaseURL (text : bytes)
  | CaseUserinfo
  | CaseStringer (text : option bytes)
  | CaseOther (r : reflected).
Record value := {
  value_type : bytes;  (* %T *)
  is_nil_pointer : bool;
  marshal : option (option vref);  (* MarshalLog, if the value is a Marshaler *)
  switched : type_case;
}.
Definition value_store := vref → value.

(** What the handler is given. *)
Inductive out :=
  | OText (s : bytes)
  | OSame (v : vref)  (* the value itself *)
  | OMap (entries : list (bytes * out))
  | OList (elements : list out)
  | OAttr (key : bytes) (value : out)
  | OGroup (key : bytes) (members : list out).

Definition maxResolveDepth : nat := 32.
Definition tooDeep : bytes := #"[omitted: nested deeper than the SDK redacts]".
Definition redactedUserinfo : bytes := #"redacted".
Definition panicked (type : bytes) : bytes := #"[omitted: " ++ type ++ #" panicked while rendering]".
Definition opaque_value (type : bytes) : bytes := #"[omitted: opaque " ++ type ++ #"]".

(** m[key] = value *)
Definition put_entry (m : list (bytes * out)) (key : bytes) (o : out) : list (bytes * out) :=
  filter (λ e : bytes * out, e.1 ≠ key) m ++ [(key, o)].

Section resolve.
Context `{L : GoLib} (Text : bytes → bytes) (Sprint : out → bytes) (σ : value_store).

Definition text_or_panic (type : bytes) (text : option bytes) : out :=
  match text with Some t => OText (Text t) | None => OText (panicked type) end.

(** resolveReflected and resolveAttr, given how the values one level below are resolved. *)
Definition resolve_reflected (below : vref → out) (orig : vref) (r : reflected) : out :=
  match r with
  | RString s => OText (Text s)
  | RStruct fields =>
    let m := foldl (λ m '(name, exported, v), if exported : bool then put_entry m name (below v) else m) [] fields in
    if decide (m = []) then OText (opaque_value (value_type (σ orig))) else OMap m
  | RMap None => OSame orig
  | RMap (Some entries) =>
    OMap (foldl (λ m '(key, v),
      let key := match key with StringKey s => Text s | OtherKey v => Sprint (below v) end in
      put_entry m key (below v)) [] entries)
  | RSlice None => OSame orig
  | RSlice (Some elements) => OList (below <$> elements)
  | RPointer _ None => OSame orig
  | RPointer walked (Some elem) => if walked then below elem else OSame orig
  | ROther => OSame orig
  end.
Definition resolve_attr (below : vref → out) (attr_below : attr → out) (a : attr) : out :=
  let '(Attr key val) := a in
  let key := Text key in
  match val with
  | KindString s => OAttr key (OText (Text s))
  | KindGroup members => OGroup key (attr_below <$> members)
  | KindAny v => OAttr key (below v)
  end.
Definition resolve_value (below : vref → out) (attr_below : attr → out) (v : vref) : out :=
  let x := σ v in
  if is_nil_pointer x then OSame v
  else
    match marshal x with
    | Some (Some r) => below r
    | Some None => OText (panicked (value_type x))
    | None =>
      match switched x with
      | CaseError text => text_or_panic (value_type x) text
      | CaseAttr a => resolve_attr below attr_below a
      | CaseValue (Some r) => below r
      | CaseValue None => OText (panicked (value_type x))
      | CaseTime => OSame v
      | CaseURL text => OText (Text (RedactURL text))
      | CaseUserinfo => OText redactedUserinfo
      | CaseStringer text => text_or_panic (value_type x) text
      | CaseOther r => resolve_reflected below v r
      end
    end.

(** resolveDepth and resolveAttr with [n] levels to go: at depth [d] there are
    [maxResolveDepth + 1 - d]. *)
Fixpoint resolve_levels (n : nat) : (vref → out) * (attr → out) :=
  match n with
  | 0 => (λ _, OText tooDeep, λ '(Attr key _), OAttr (Text key) (OText tooDeep))
  | S n =>
    let '(below, attr_below) := resolve_levels n in
    (resolve_value below attr_below, resolve_attr below attr_below)
  end.
Definition resolve : vref → out := (resolve_levels (S maxResolveDepth)).1.
Definition resolveAttr : attr → out := (resolve_levels (S maxResolveDepth)).2.
End resolve.

(** * The sink *)
Definition LevelWarn : Z := 4.
Definition LevelDebug : Z := -4.
Definition LevelError : Z := 8.
Definition slogLevel (v : Z) : Z :=
  if (v =? 1)%Z then LevelWarn else if (v <=? 4)%Z then LevelInfo else LevelDebug.

Record Redaction := { Endpoints : list bytes; RSecrets : list bytes }.
Definition Text `{GoLib} (r : Redaction) (s : bytes) : bytes := redaction_Text (Endpoints r) (RSecrets r) s.

(** A sink; the suppressor behind its pointer is the caller's, since every sink
    made from this one shares it. *)
Record logrSink := { redaction : Redaction; sink_name : bytes; values : list vref }.
Record log_record := { level : Z; message : bytes; args : list out }.

Section sink.
Context `{L : GoLib} (Sprint : out → bytes) (σ : value_store) (ε : error_store) (window_text : bytes).

Definition WithValues (s : logrSink) (keysAndValues : list vref) : logrSink :=
  {| redaction := redaction s; sink_name := sink_name s; values := values s ++ keysAndValues |}.
Definition WithName (s : logrSink) (name : bytes) : logrSink :=
  {| redaction := redaction s; sink_name := TrimPrefix (sink_name s ++ #"/" ++ name) #"/"; values := values s |}.
Definition Enabled (minimum : Z) (level : Z) : bool := (minimum <=? slogLevel level)%Z.

(** The arguments of a record; [first] is the attribute Error puts before the
    caller's. *)
Definition write_args (s : logrSink) (limited : bool) (first : option attr) (keysAndValues : list vref) : list out :=
  let T := Text (redaction s) in
  let args := if bool_decide (sink_name s = []) then [] else [OAttr #"logger" (OText (T (sink_name s)))] in
  let args := args ++ (resolve T Sprint σ <$> values s) in
  let args := args ++ option_list (resolveAttr T Sprint σ <$> first) ++ (resolve T Sprint σ <$> keysAndValues) in
  args ++ (if limited then [OAttr #"repeat_suppressed_for" (OText window_text)] else []).
Definition write (s : logrSink) (suppress : option Suppressor) (now : Z) (visit : gmap bytes Z → list (bytes * Z))
    (level : Z) (key msg : bytes) (first : option attr) (keysAndValues : list vref) :
    option log_record * option Suppressor :=
  let emit limited := {| level := level; message := msg; args := write_args s limited first keysAndValues |} in
  match suppress with
  | None => (Some (emit false), None)
  | Some sup =>
    let '(suppressed, sup) := SuppressedAt sup {| msg := key; now := now; visit := visit |} in
    (if suppressed then None else Some (emit true), Some sup)
  end.
Definition Info (s : logrSink) (suppress : option Suppressor) (now : Z) (visit : gmap bytes Z → list (bytes * Z))
    (level : Z) (msg : bytes) (keysAndValues : list vref) : option log_record * option Suppressor :=
  let msg := Text (redaction s) msg in
  write s suppress now visit (slogLevel level) msg msg None keysAndValues.
Definition sink_Error (s : logrSink) (suppress : option Suppressor) (now : Z) (visit : gmap bytes Z → list (bytes * Z))
    (err : option eref) (msg : bytes) (keysAndValues : list vref) : option log_record * option Suppressor :=
  let msg := Text (redaction s) msg in
  match err with
  | None => write s suppress now visit LevelError msg msg None keysAndValues
  | Some _ =>
    let text := Text (redaction s) (ErrorText ε err) in
    write s suppress now visit LevelError (msg ++ #": " ++ text) msg (Some (Attr #"error" (KindString text))) keysAndValues
  end.
End sink.

(** * Every text is a redacted one *)
Section facts.
Context `{L : GoLib} (T : bytes → bytes) (Sprint : out → bytes) (σ : value_store).
Context (P : bytes → Prop) (T_redacts : ∀ s, P (T s)).

(** The texts the sink writes of its own. *)
Definition own_text (s : bytes) : Prop :=
  s = tooDeep ∨ s = redactedUserinfo ∨ (∃ type, s = panicked type) ∨ (∃ type, s = opaque_value type).
(** A value passed on as it is has no text that is walked: it is a nil, bytes, a
    time, a number or a bool, or leads to one. *)
Definition plain_value (v : vref) : Prop :=
  is_nil_pointer (σ v) = true ∨ marshal (σ v) = None ∧
  match switched (σ v) with
  | CaseTime => True
  | CaseOther (RMap None | RSlice None | RPointer _ None | RPointer false _ | ROther) => True
  | _ => False
  end.

(** What a resolved value may hold, where [P] says a text was redacted. Field
    names are the program's own. *)
Inductive clean : out → Prop :=
  | clean_text t : P t → clean (OText t)
  | clean_own s : own_text s → clean (OText s)
  | clean_same v : plain_value v → clean (OSame v)
  | clean_map m : Forall (λ e : bytes * out, clean e.2) m →
      Forall (λ e : bytes * out, clean_key e.1) m → clean (OMap m)
  | clean_list l : Forall clean l → clean (OList l)
  | clean_attr key o : P key → clean o → clean (OAttr key o)
  | clean_group key l : P key → Forall clean l → clean (OGroup key l)
with clean_key : bytes → Prop :=
  | key_text t : P t → clean_key t
  | key_printed o : clean o → clean_key (Sprint o)
  | key_field v name fields : switched (σ v) = CaseOther (RStruct fields) → name ∈ (λ f, f.1.1) <$> fields → clean_key name.

Definition clean_entries (m : list (bytes * out)) : Prop :=
  Forall (λ e : bytes * out, clean e.2) m ∧ Forall (λ e : bytes * out, clean_key e.1) m.

Lemma Forall_filtered {A} (R Q : A → Prop) `{∀ x, Decision (Q x)} l : Forall R l → Forall R (filter Q l).
Proof. rewrite !Forall_forall. intros Hall x [_ Hx]%list_elem_of_filter. auto. Qed.

Lemma put_entry_clean m key o : clean_entries m → clean_key key → clean o → clean_entries (put_entry m key o).
Proof.
  intros [Hm Hk] Hkey Ho. unfold put_entry, clean_entries. rewrite !Forall_app.
  split_and!; try by apply Forall_filtered. all: by constructor.
Qed.

Lemma foldl_clean {A} (f : list (bytes * out) → A → list (bytes * out)) l m :
  (∀ m x, x ∈ l → clean_entries m → clean_entries (f m x)) → clean_entries m → clean_entries (foldl f m l).
Proof.
  revert m. induction l as [|x l IH]; intros m Hf Hm; [done|]. cbn [foldl]. apply IH.
  - intros m' y Hy. apply Hf. by right.
  - apply Hf; [left|done].
Qed.

Lemma entries_nil : clean_entries [].
Proof. split; constructor. Qed.

Lemma Forall_fmap_all {A} (f : A → out) l : (∀ x, clean (f x)) → Forall clean (f <$> l).
Proof. intros Hf. apply Forall_fmap, Forall_forall. intros x _. apply Hf. Qed.

Lemma resolve_reflected_clean below v r :
  (∀ v, clean (below v)) → is_nil_pointer (σ v) = false → marshal (σ v) = None → switched (σ v) = CaseOther r →
  clean (resolve_reflected T Sprint σ below v r).
Proof.
  intros Hb Hnil Hm Hsw. assert (Hsame : match r with RMap None | RSlice None | RPointer _ None | RPointer false _ | ROther => True | _ => False end
    → clean (OSame v)).
  { intros H. constructor. right. split; [done|]. by rewrite Hsw. }
  destruct r as [s|fields|[entries|]|[elements|]|[] [elem|]|]; cbn [resolve_reflected]; try (by apply Hsame); try done.
  - by constructor.
  - assert (clean_entries (foldl (λ m '(name, exported, v), if exported : bool then put_entry m name (below v) else m) [] fields))
      as [He Hk]; [|destruct (decide _); [apply clean_own; right; right; right; eauto|by constructor]].
    apply foldl_clean; [|apply entries_nil]. intros m [[name exported] w] Hin Hen. destruct exported; [|done].
    apply put_entry_clean; [done| |done]. apply (key_field v name fields); [done|].
    apply list_elem_of_fmap. by exists (name, true, w).
  - assert (clean_entries (foldl (λ m '(key, v), put_entry m (match key with StringKey s => T s | OtherKey v => Sprint (below v) end) (below v)) [] entries))
      as [He Hk]; [|by constructor].
    apply foldl_clean; [|apply entries_nil]. intros m [key w] _ Hen. apply put_entry_clean; [done| |done].
    destruct key; [by apply key_text|by apply key_printed].
  - constructor. by apply Forall_fmap_all.
Qed.

Lemma resolve_attr_clean below attr_below a :
  (∀ v, clean (below v)) → (∀ a, clean (attr_below a)) → clean (resolve_attr T below attr_below a).
Proof.
  intros Hb Ha. destruct a as [key [s|members|v]]; cbn; constructor; auto; [by constructor; auto|by apply Forall_fmap_all].
Qed.

Lemma resolve_levels_clean n :
  (∀ v, clean ((resolve_levels T Sprint σ n).1 v)) ∧ (∀ a, clean ((resolve_levels T Sprint σ n).2 a)).
Proof.
  assert (Hpanic : ∀ type text, clean (text_or_panic T type text)).
  { intros type [t|]; cbn; [by constructor|]. apply clean_own. right. right. left. eauto. }
  induction n as [|n IHn]; cbn [resolve_levels]; [|destruct (resolve_levels T Sprint σ n) as [below attr_below]; destruct IHn as [IHv IHa]];
    cbn [fst snd] in *.
  { split; [intros _; apply clean_own; by left|]. intros [key val]. constructor; [done|]. apply clean_own. by left. }
  split; [|intros a; by apply resolve_attr_clean]. intros v. unfold resolve_value.
  destruct (is_nil_pointer (σ v)) eqn:Hnil; [constructor; by left|].
  destruct (marshal (σ v)) as [[r|]|] eqn:Hm; [done|apply clean_own; right; right; left; eauto|].
  destruct (switched (σ v)) as [text|a|[r|]| |text| |text|r] eqn:Hs; try done.
  - by apply resolve_attr_clean.
  - apply clean_own. right. right. left. eauto.
  - constructor. right. by rewrite Hs.
  - by constructor.
  - apply clean_own. right. by left.
  - by apply resolve_reflected_clean.
Qed.
End facts.

(** How deep a resolved value is nested. *)
Fixpoint out_depth (o : out) : nat :=
  match o with
  | OText _ | OSame _ => 0
  | OMap entries => S (foldr (λ e m, Nat.max (out_depth e.2) m) 0 entries)
  | OList l | OGroup _ l => S (foldr (λ o m, Nat.max (out_depth o) m) 0 l)
  | OAttr _ o => S (out_depth o)
  end.

Section depth.
Context `{L : GoLib} (T : bytes → bytes) (Sprint : out → bytes) (σ : value_store).

Lemma foldr_max_le {A} (f : A → nat) l n : (∀ x, x ∈ l → f x ≤ n) → foldr (λ x m, Nat.max (f x) m) 0 l ≤ n.
Proof.
  induction l as [|x l IH]; cbn; intros H; [lia|]. pose proof (H x ltac:(left)).
  specialize (IH ltac:(intros y Hy; apply H; by right)). lia.
Qed.

Lemma foldl_put_depth {A} (f : list (bytes * out) → A → list (bytes * out)) l n :
  (∀ m x, Forall (λ e : bytes * out, out_depth e.2 ≤ n) m → Forall (λ e : bytes * out, out_depth e.2 ≤ n) (f m x)) →
  Forall (λ e : bytes * out, out_depth e.2 ≤ n) (foldl f [] l).
Proof.
  intros Hf. assert (H : Forall (λ e : bytes * out, out_depth e.2 ≤ n) []) by constructor. revert H.
  generalize (@nil (bytes * out)). induction l as [|x l IH]; intros m Hm; [done|]. cbn [foldl]. by apply IH, Hf.
Qed.

Lemma put_entry_depth m key o n :
  Forall (λ e : bytes * out, out_depth e.2 ≤ n) m → out_depth o ≤ n →
  Forall (λ e : bytes * out, out_depth e.2 ≤ n) (put_entry m key o).
Proof. intros Hm Ho. apply Forall_app. split; [by apply Forall_filtered|by constructor]. Qed.

Lemma resolve_levels_depth n :
  (∀ v, out_depth ((resolve_levels T Sprint σ n).1 v) ≤ S n) ∧ (∀ a, out_depth ((resolve_levels T Sprint σ n).2 a) ≤ S n).
Proof.
  induction n as [|n IHn]; cbn [resolve_levels]; [|destruct (resolve_levels T Sprint σ n) as [below attr_below]; destruct IHn as [IHv IHa]];
    cbn [fst snd] in *.
  { split; [intros _; cbn; lia|]. intros [key val]. cbn. lia. }
  assert (Hattr : ∀ a, out_depth (resolve_attr T below attr_below a) ≤ S (S n)).
  { intros [key [s|members|v]]; cbn; [lia| |apply le_n_S, IHv].
    apply le_n_S, foldr_max_le. intros o (a & -> & _)%list_elem_of_fmap. apply IHa. }
  split; [|exact Hattr]. intros v. unfold resolve_value. specialize (IHv) as Hbelow.
  assert (Hle : ∀ w, out_depth (below w) ≤ S (S n)) by (intros w; specialize (Hbelow w); lia).
  destruct (is_nil_pointer (σ v)); [cbn; lia|]. destruct (marshal (σ v)) as [[r|]|]; [apply Hle|cbn; lia|].
  destruct (switched (σ v)) as [[text|]|a|[r|]| |text| |[text|]|r]; try (cbn; lia); [apply Hattr|apply Hle|].
  destruct r as [s|fields|[entries|]|[elements|]|walked [elem|]|]; cbn [resolve_reflected]; try (cbn; lia).
  - destruct (decide _); [cbn; lia|]. cbn [out_depth]. apply le_n_S, foldr_max_le. intros e He.
    assert (H : Forall (λ e : bytes * out, out_depth e.2 ≤ S n)
      (foldl (λ m '(name, exported, v), if exported : bool then put_entry m name (below v) else m) [] fields)).
    { apply foldl_put_depth. intros m [[name []] w] Hm; [by apply put_entry_depth|done]. }
    rewrite Forall_forall in H. by apply H.
  - cbn [out_depth]. apply le_n_S, foldr_max_le. intros e He.
    assert (H : Forall (λ e : bytes * out, out_depth e.2 ≤ S n) (foldl (λ m '(key, v),
      put_entry m (match key with StringKey s => T s | OtherKey v => Sprint (below v) end) (below v)) [] entries)).
    { apply foldl_put_depth. intros m [key w] Hm. by apply put_entry_depth. }
    rewrite Forall_forall in H. by apply H.
  - cbn [out_depth]. apply le_n_S, foldr_max_le. intros o (w & -> & _)%list_elem_of_fmap. apply IHv.
  - destruct walked; [apply Hle|cbn; lia].
Qed.
End depth.

(** * What the sink writes *)
Section emitted.
Context `{L : GoLib} (Hlaws : GoLibLaws L) (Sprint : out → bytes) (σ : value_store) (ε : error_store) (window_text : bytes).

(** A text both rules were applied to: it shows no long secret in any reading. *)
Definition redacted (r : Redaction) (t : bytes) : Prop :=
  (∃ s, t = Text r s)
  ∧ ∀ s k, s ∈ RSecrets r → shortSecretLen ≤ length s → unlike_placeholder s →
      t = redactedMessage ∨ ¬ infix s (Nat.iter k decodeOnce t).

Lemma Text_redacted r s : redacted r (Text r s).
Proof. split; [by exists s|]. intros. by apply redaction_removes. Qed.

(** An argument of a record. *)
Definition clean_arg (r : Redaction) (o : out) : Prop :=
  (clean Sprint σ (redacted r) o ∧ out_depth o ≤ maxResolveDepth + 2)
  ∨ (∃ t, redacted r t ∧ o = OAttr #"logger" (OText t))
  ∨ o = OAttr #"repeat_suppressed_for" (OText window_text).

Lemma resolve_clean_arg r v : clean_arg r (resolve (Text r) Sprint σ v).
Proof.
  left. unfold resolve.
  pose proof (proj1 (resolve_levels_clean (Text r) Sprint σ (redacted r) (Text_redacted r) (S maxResolveDepth)) v) as Hc.
  pose proof (proj1 (resolve_levels_depth (Text r) Sprint σ (S maxResolveDepth)) v) as Hd.
  split; [exact Hc|]. rewrite Hd. by rewrite Nat.add_comm.
Qed.

Lemma resolveAttr_clean_arg r a : clean_arg r (resolveAttr (Text r) Sprint σ a).
Proof.
  left. unfold resolveAttr.
  pose proof (proj2 (resolve_levels_clean (Text r) Sprint σ (redacted r) (Text_redacted r) (S maxResolveDepth)) a) as Hc.
  pose proof (proj2 (resolve_levels_depth (Text r) Sprint σ (S maxResolveDepth)) a) as Hd.
  split; [exact Hc|]. rewrite Hd. by rewrite Nat.add_comm.
Qed.

(** Whether the record of a call under a key is suppressed. *)
Definition held_back (suppress : option Suppressor) (c : call) : bool :=
  match suppress with Some s => (SuppressedAt s c).1 | None => false end.

Lemma write_args_clean s limited first keysAndValues :
  Forall (clean_arg (redaction s)) (write_args Sprint σ window_text s limited first keysAndValues).
Proof.
  unfold write_args. repeat apply Forall_app_2.
  - destruct (bool_decide _); [constructor|]. apply Forall_singleton. right. left. eexists. split; [apply Text_redacted|done].
  - apply Forall_fmap, Forall_forall. intros v _. apply resolve_clean_arg.
  - destruct first as [a|]; [|constructor]. apply Forall_singleton, resolveAttr_clean_arg.
  - apply Forall_fmap, Forall_forall. intros v _. apply resolve_clean_arg.
  - destruct limited; [|constructor]. apply Forall_singleton. right. by right.
Qed.

Lemma write_spec s suppress now visit lv key text first keysAndValues :
  let o := (write Sprint σ window_text s suppress now visit lv key text first keysAndValues).1 in
  (o = None ↔ held_back suppress {| msg := key; now := now; visit := visit |} = true)
  ∧ ∀ rec, o = Some rec →
      level rec = lv ∧ message rec = text ∧ Forall (clean_arg (redaction s)) (args rec).
Proof.
  pose proof (write_args_clean s) as Hargs. unfold write, held_back. destruct suppress as [sup|]; cbn [fst].
  - destruct (SuppressedAt _ _) as [[] sup']; cbn [fst]; (split; [done|]); intros rec [= <-]. by cbn [level message args].
  - split; [done|]. intros rec [= <-]. by cbn [level message args].
Qed.

(** A call of the sink. *)
Inductive sink_call := CallInfo (verbosity : Z) (msg : bytes) (keysAndValues : list vref)
  | CallError (err : option eref) (msg : bytes) (keysAndValues : list vref).
Definition sink_write (s : logrSink) (suppress : option Suppressor) (now : Z) (visit : gmap bytes Z → list (bytes * Z))
    (c : sink_call) : option log_record * option Suppressor :=
  match c with
  | CallInfo v m kv => Info Sprint σ window_text s suppress now visit v m kv
  | CallError e m kv => sink_Error Sprint σ ε window_text s suppress now visit e m kv
  end.
(** What a call is suppressed under: the message, and the error under it. *)
Definition repeat_key (s : logrSink) (c : sink_call) : bytes :=
  match c with
  | CallInfo _ m _ | CallError None m _ => Text (redaction s) m
  | CallError (Some e) m _ => Text (redaction s) m ++ #": " ++ Text (redaction s) (ErrorText ε (Some e))
  end.
Definition call_level (c : sink_call) : Z := match c with CallInfo v _ _ => slogLevel v | CallError _ _ _ => LevelError end.

(** C17: what the sink of OpenTelemetry's own diagnostics writes. Whatever values
    it is given, those that lead back to themselves, panic or nest without end
    included: the record is held back exactly when its repeat key is one the
    suppressor has seen within its window; the level is the one the verbosity
    stands for; and the message and every text of the arguments, key or value, at
    any level of nesting, was put through the redaction, shows no long secret in
    any reading, or is one of the sink's own. Nothing is nested deeper than the
    bound, and a value is passed on as it is only when it holds no text. *)
Theorem sink_redacts (s : logrSink) (suppress : option Suppressor) (now : Z) (visit : gmap bytes Z → list (bytes * Z))
    (c : sink_call) :
  let o := (sink_write s suppress now visit c).1 in
  (o = None ↔ held_back suppress {| msg := repeat_key s c; now := now; visit := visit |} = true)
  ∧ ∀ rec, o = Some rec →
      level rec = call_level c ∧ redacted (redaction s) (message rec) ∧ Forall (clean_arg (redaction s)) (args rec).
Proof.
  destruct c as [v m kv|[e|] m kv]; cbn [sink_write repeat_key call_level sink_Error]; unfold Info;
    match goal with |- context [write _ _ _ _ _ _ _ ?lv ?k ?t ?f ?kv] =>
      destruct (write_spec s suppress now visit lv k t f kv) as [Hnone Hsome] end;
    (split; [exact Hnone|]); intros rec Hrec; destruct (Hsome rec Hrec) as (-> & -> & Ha);
    (split_and!; [done|apply Text_redacted|exact Ha]).
Qed.
End emitted.

(** * A list of a credential and of a pointer to itself, logged twice *)
Definition sample_value (t : type_case) : value :=
  {| value_type := #"any"; is_nil_pointer := false; marshal := None; switched := t |}.
Definition sample_values : value_store := λ v,
  match v with
  | 1%positive => sample_value (CaseOther (RSlice (Some [2; 3]%positive)))
  | 2%positive => sample_value (CaseOther (RString sample_token))
  | _ => sample_value (CaseOther (RPointer true (Some v)))
  end.
Definition sample_sink : logrSink :=
  {| redaction := {| Endpoints := []; RSecrets := [sample_token] |}; sink_name := []; values := [1%positive] |}.
Definition sample_sink_write (suppress : option Suppressor) (now : Z) : option log_record * option Suppressor :=
  sink_write (λ _, []) sample_values echo_store #"1m0s" sample_sink suppress now map_to_list
    (CallError (Some 1%positive) #"export failed" []).
Definition sample_suppressor : option Suppressor := Some (NewSuppressor 60000000000 32).
Definition sample_record : log_record := {|
  level := LevelError; message := #"export failed";
  args := [OList [OText opaquePlaceholder; OText tooDeep];
           OAttr #"error" (OText #"body: got authorization: [redacted]");
           OAttr #"repeat_suppressed_for" (OText #"1m0s")];
|}.

Lemma sink_redacts_witness :
  (sample_sink_write sample_suppressor 0).1 = Some sample_record
  ∧ (sample_sink_write (sample_sink_write sample_suppressor 0).2 5).1 = None
  ∧ Forall (clean_arg (λ _, []) sample_values #"1m0s" (redaction sample_sink)) (args sample_record).
Proof.
  assert (E : (sample_sink_write sample_suppressor 0).1 = Some sample_record) by (vm_compute; reflexivity).
  split; [exact E|]. split; [vm_compute; reflexivity|].
  destruct (sink_redacts sample_laws (λ _, []) sample_values echo_store #"1m0s" sample_sink sample_suppressor 0 map_to_list
    (CallError (Some 1%positive) #"export failed" [])) as [_ H].
  destruct (H _ E) as (_ & _ & Ha). exact Ha.
Defined.
