(* ===== verification/SlogAttr.v ===== *)
(** log/slog attributes as the handlers of internal/log see them: trees of values,
    where a LogValuer is the value it answers with when it is resolved, and the
    operations of handler.go and errattrs.go over them. *)
From S2P Require Import Prelude.

(** An error value: what its Error method answers (None is a panic), whether it is
    a nil pointer, and what it panics with. *)
Record error_obs := { err_text : option bytes; err_nil : bool; err_panic : bytes }.
Inductive svalue :=
  | VNil
  | VString (s : bytes)
  | VOther (v : positive)  (* a number, a time, any other value *)
  | VError (e : error_obs)
  | VLogValuer (id : positive) (answer : svalue)
  | VGroup (members : list (bytes * svalue)).
Abbreviation sattr := (bytes * svalue)%type.

Lemma svalue_ind' (P : svalue → Prop) :
  P VNil → (∀ s, P (VString s)) → (∀ v, P (VOther v)) → (∀ e, P (VError e)) →
  (∀ id v, P v → P (VLogValuer id v)) → (∀ ms, Forall (λ m : sattr, P m.2) ms → P (VGroup ms)) → ∀ v, P v.
Proof.
  intros Hn Hs Ho He Hl Hg. fix IH 1. intros [| | | |id v|ms]; [done|done|done|done|by apply Hl|].
  apply Hg. induction ms as [|[k v] ms IHms]; constructor; [apply IH|exact IHms].
Qed.

(** slog.GroupValue leaves empty groups out, and so does Record.AddAttrs. *)
Definition isEmptyGroup (v : svalue) : bool := match v with VGroup [] => true | _ => false end.
Definition drop_empty (l : list sattr) : list sattr := filter (λ a, negb (isEmptyGroup a.2) = true) l.
Definition GroupValue (ms : list sattr) : svalue := VGroup (drop_empty ms).
Definition regroup_value (v : svalue) : svalue := match v with VGroup ms => GroupValue ms | _ => v end.
(** slog.Attr{} *)
Definition zero_attr : sattr := ([], VNil).
Definition is_zero (a : sattr) : bool := match a with ([], VNil) => true | _ => false end.

(** * handler.go *)

(** resolveAttr on the value of an attribute: the value, whether it changed, and
    the LogValuers that were asked, in order. Rebuilding a group that a LogValuer
    answered with changes nothing, since slog builds every group with GroupValue. *)
Fixpoint resolve_value (v : svalue) : svalue * bool * list positive :=
  match v with
  | VLogValuer id answer => let '(w, _, asked) := resolve_value answer in (regroup_value w, true, id :: asked)
  | VGroup children =>
    let rs := map (λ m : sattr, (m.1, resolve_value m.2)) children in
    let changed := existsb (λ r, r.2.1.2) rs in
    (if changed then GroupValue (map (λ r, (r.1, r.2.1.1)) rs) else v, changed, flat_map (λ r, r.2.2) rs)
  | _ => (v, false, [])
  end.
Definition resolveAttr (a : sattr) : sattr := (a.1, (resolve_value a.2).1.1).
(** The LogValuers resolving a list of attributes asks. *)
Definition asked (l : list sattr) : list positive := flat_map (λ a, (resolve_value a.2).2) l.

Fixpoint attrHasLogValuer (v : svalue) : bool :=
  match v with
  | VLogValuer _ _ => true
  | VGroup children => existsb (λ m : sattr, attrHasLogValuer m.2) children
  | _ => false
  end.

(** suppressShadowed and collectSameLevelKeys, for the attribute [key], [v]. *)
Definition strike (key : bytes) (baggageAttrs : list sattr) : list sattr :=
  (λ b : sattr, if bool_decide (b.1 = key) then zero_attr else b) <$> baggageAttrs.
Fixpoint suppressShadowed (v : svalue) (key : bytes) (baggageAttrs : list sattr) : list sattr :=
  if is_zero (key, v) then baggageAttrs
  else if negb (bool_decide (key = [])) then strike key baggageAttrs
  else match v with
       | VGroup children => fold_left (λ bag (m : sattr), suppressShadowed m.2 m.1 bag) children baggageAttrs
       | _ => baggageAttrs
       end.
Fixpoint collectSameLevelKeys (v : svalue) (key : bytes) (keys : gset bytes) : gset bytes :=
  if is_zero (key, v) then keys
  else if negb (bool_decide (key = [])) then {[key]} ∪ keys
  else match v with
       | VGroup children => fold_left (λ keys (m : sattr), collectSameLevelKeys m.2 m.1 keys) children keys
       | _ => keys
       end.

(** * errattrs.go *)
Definition errorString (e : error_obs) : bytes :=
  match err_text e with
  | Some text => text
  | None => if err_nil e then #"<nil>" else #"!PANIC: " ++ err_panic e
  end.
Fixpoint hasError (v : svalue) : bool :=
  match v with
  | VError _ => true
  | VGroup children => existsb (λ m : sattr, hasError m.2) children
  | _ => false
  end.
Fixpoint stringifyErrors (v : svalue) : svalue * bool :=
  match v with
  | VError e => (VString (errorString e), true)
  | VGroup group =>
    let cs := map (λ m : sattr, (m.1, stringifyErrors m.2)) group in
    if existsb (λ c, c.2.2) cs then (GroupValue (map (λ c, (c.1, c.2.1)) cs), true) else (v, false)
  | _ => (v, false)
  end.
Definition stringifyAttr (a : sattr) : sattr := (a.1, (stringifyErrors a.2).1).

(** * What a handler that keeps to the slog contract sees of a value: groups left
    without attributes are ignored, LogValuers are resolved. *)
Fixpoint normal (v : svalue) : svalue :=
  match v with
  | VLogValuer _ answer => normal answer
  | VGroup ms => VGroup (flat_map (λ m : sattr, if isEmptyGroup (normal m.2) then [] else [(m.1, normal m.2)]) ms)
  | _ => v
  end.
Definition normal_attr (m : sattr) : list sattr := if isEmptyGroup (normal m.2) then [] else [(m.1, normal m.2)].
Definition normal_attrs (l : list sattr) : list sattr := flat_map normal_attr l.

(** The keys an attribute puts at the level it stands on: slog inlines a group
    with no name. *)
Fixpoint same_level (v : svalue) (key : bytes) : list bytes :=
  if negb (bool_decide (key = [])) then [key]
  else match v with VGroup ms => flat_map (λ m : sattr, same_level m.2 m.1) ms | _ => [] end.
Definition same_level_keys (l : list sattr) : list bytes := flat_map (λ m : sattr, same_level m.2 m.1) l.

(** * Facts *)
Lemma is_zero_true a : is_zero a = true → a = zero_attr.
Proof. destruct a as [[|] []]; done. Qed.

Lemma normal_attrs_app l l' : normal_attrs (l ++ l') = normal_attrs l ++ normal_attrs l'.
Proof. apply flat_map_app. Qed.

Lemma normal_VGroup ms : normal (VGroup ms) = VGroup (normal_attrs ms).
Proof. done. Qed.

Lemma normal_attrs_cons m l : normal_attrs (m :: l) = normal_attr m ++ normal_attrs l.
Proof. done. Qed.

Lemma drop_empty_cons m l : drop_empty (m :: l) = if isEmptyGroup m.2 then drop_empty l else m :: drop_empty l.
Proof. unfold drop_empty. rewrite filter_cons. by destruct (isEmptyGroup m.2). Qed.

Lemma normal_drop_empty l : normal_attrs (drop_empty l) = normal_attrs l.
Proof.
  induction l as [|[k v] l IH]; [done|]. rewrite drop_empty_cons. cbn [snd].
  destruct (isEmptyGroup v) eqn:E; rewrite !normal_attrs_cons, IH; [|done].
  destruct v as [| | | | |[|]]; done.
Qed.

Lemma normal_GroupValue ms : normal (GroupValue ms) = normal (VGroup ms).
Proof. unfold GroupValue. by rewrite !normal_VGroup, normal_drop_empty. Qed.

Lemma normal_regroup v : normal (regroup_value v) = normal v.
Proof. destruct v; try done. apply normal_GroupValue. Qed.

Lemma normal_attrs_map (f : sattr → sattr) ms :
  (∀ m, m ∈ ms → (f m).1 = m.1 ∧ normal (f m).2 = normal m.2) → normal_attrs (f <$> ms) = normal_attrs ms.
Proof.
  induction ms as [|m ms IH]; intros Hf; [done|]. cbn [fmap list_fmap].
  rewrite !normal_attrs_cons. setoid_rewrite IH; [|intros; apply Hf; by right].
  destruct (Hf m ltac:(left)) as [H1 H2]. unfold normal_attr. by rewrite H1, H2.
Qed.

Lemma existsb_map_false {A B} (f : A → B) (p : B → bool) l : existsb p (map f l) = existsb (λ x, p (f x)) l.
Proof. induction l as [|x l IH]; cbn; [done|by rewrite IH]. Qed.

Lemma existsb_ext_elem {A} (p q : A → bool) l : (∀ x, x ∈ l → p x = q x) → existsb p l = existsb q l.
Proof.
  induction l as [|x l IH]; intros H; [done|]. cbn. rewrite H by left. f_equal. apply IH. intros. apply H. by right.
Qed.

Lemma existsb_false_elem {A} (p : A → bool) l : existsb p l = false ↔ ∀ x, x ∈ l → p x = false.
Proof.
  induction l as [|x l IH]; cbn; [split; [by intros _ ? ?%elem_of_nil|done]|].
  rewrite orb_false_iff, IH. split; [intros [Hx Hl] y [->|Hy]%elem_of_cons; auto|intros H; split; intros; apply H; set_solver].
Qed.

Lemma map_id_elem {A} (f : A → A) l : (∀ x, x ∈ l → f x = x) → map f l = l.
Proof. induction l as [|x l IH]; intros H; cbn; [done|]. rewrite H by left. f_equal. apply IH. intros. apply H. by right. Qed.

Lemma flat_map_nil {A B} (f : A → list B) l : (∀ x, x ∈ l → f x = []) → flat_map f l = [].
Proof. induction l as [|x l IH]; intros H; cbn; [done|]. rewrite H by left. apply IH. intros. apply H. by right. Qed.

Definition resolved_ok (v : svalue) : Prop :=
  let r := resolve_value v in
  r.1.2 = attrHasLogValuer v ∧ attrHasLogValuer r.1.1 = false ∧ normal r.1.1 = normal v
  ∧ (attrHasLogValuer v = false → r.1.1 = v ∧ r.2 = []).

Lemma no_valuer_drop_empty l :
  existsb (λ m : sattr, attrHasLogValuer m.2) l = false → existsb (λ m : sattr, attrHasLogValuer m.2) (drop_empty l) = false.
Proof. rewrite !existsb_false_elem. intros H x [_ Hx]%list_elem_of_filter. auto. Qed.

Lemma resolve_value_ok v : resolved_ok v.
Proof.
  induction v as [| | | |id v (IH1 & IH2 & IH3 & IH4)|ms IH] using svalue_ind'; try done.
  - unfold resolved_ok. cbn [resolve_value]. destruct (resolve_value v) as [[w ch] l]. cbn [fst snd] in *.
    split_and!; [done| |by rewrite normal_regroup|done].
    destruct w; try done. cbn [regroup_value GroupValue attrHasLogValuer] in *. by apply no_valuer_drop_empty.
  - rewrite Forall_forall in IH. unfold resolved_ok. cbn [resolve_value fst snd attrHasLogValuer].
    rewrite existsb_map_false. cbn [snd]. rewrite (existsb_ext_elem _ (λ m : sattr, attrHasLogValuer m.2)) by (intros m Hm; apply (IH m Hm)).
    rewrite map_map, flat_map_concat_map, map_map, <- flat_map_concat_map. cbn [fst snd].
    destruct (existsb _ ms) eqn:E; split_and!; try done.
    + cbn [GroupValue attrHasLogValuer]. apply no_valuer_drop_empty. rewrite existsb_map_false. cbn [snd].
      apply existsb_false_elem. intros m Hm. apply (IH m Hm).
    + rewrite normal_GroupValue, !normal_VGroup. f_equal. apply (normal_attrs_map (λ m, (m.1, (resolve_value m.2).1.1))).
      intros m Hm. split; [done|]. apply (IH m Hm).
    + intros _. split; [done|]. apply flat_map_nil. intros m Hm. rewrite existsb_false_elem in E. apply (IH m Hm). auto.
Qed.

Lemma normal_resolveAttr l : normal_attrs (resolveAttr <$> l) = normal_attrs l.
Proof. apply normal_attrs_map. intros m _. split; [done|]. apply resolve_value_ok. Qed.

Definition has_valuer (l : list sattr) : bool := existsb (λ a : sattr, attrHasLogValuer a.2) l.

Lemma resolveAttr_settled l : has_valuer l = false → resolveAttr <$> l = l ∧ asked l = [].
Proof.
  unfold has_valuer. rewrite existsb_false_elem. intros H. split.
  - apply map_id_elem. intros [k v] Hm. unfold resolveAttr. cbn. f_equal. apply resolve_value_ok, (H _ Hm).
  - apply flat_map_nil. intros m Hm. apply resolve_value_ok, (H _ Hm).
Qed.

Lemma resolveAttr_settles l : has_valuer (resolveAttr <$> l) = false.
Proof.
  unfold has_valuer. apply existsb_false_elem. intros a (m & -> & Hm)%list_elem_of_fmap. cbn. apply resolve_value_ok.
Qed.

(** Errors become strings, at any depth, and nothing else changes. *)
Fixpoint strings_of (v : svalue) : svalue :=
  match v with
  | VError e => VString (errorString e)
  | VGroup ms => VGroup (map (λ m : sattr, (m.1, strings_of m.2)) ms)
  | _ => v
  end.
(** A value slog builds: no group has an empty group among its members. *)
Fixpoint built (v : svalue) : bool :=
  match v with
  | VLogValuer _ answer => built answer
  | VGroup ms => forallb (λ m : sattr, negb (isEmptyGroup m.2) && built m.2) ms
  | _ => true
  end.

Lemma drop_empty_id l : forallb (λ m : sattr, negb (isEmptyGroup m.2)) l = true → drop_empty l = l.
Proof.
  induction l as [|m l IH]; [done|]. cbn [forallb]. intros [Hm Hl]%andb_true_iff. rewrite drop_empty_cons.
  apply negb_true_iff in Hm. by rewrite Hm, IH.
Qed.

Lemma strings_of_not_empty v : isEmptyGroup (strings_of v) = isEmptyGroup v.
Proof. destruct v as [| | | | |[|]]; done. Qed.

Lemma stringifyErrors_spec v :
  (stringifyErrors v).2 = hasError v ∧ (hasError v = false → (stringifyErrors v).1 = v)
  ∧ (built v = true → (stringifyErrors v).1 = strings_of v).
Proof.
  induction v as [| | | |id v _|ms IH] using svalue_ind'; try done. rewrite Forall_forall in IH.
  cbn [stringifyErrors hasError built strings_of].
  rewrite existsb_map_false. cbn [snd]. rewrite (existsb_ext_elem _ (λ m : sattr, hasError m.2)) by (intros m Hm; apply (IH m Hm)).
  rewrite map_map. cbn [fst snd].
  assert (Hmap : forallb (λ m : sattr, negb (isEmptyGroup m.2) && built m.2) ms = true →
    map (λ m : sattr, (m.1, (stringifyErrors m.2).1)) ms = map (λ m : sattr, (m.1, strings_of m.2)) ms).
  { intros Hb. apply map_ext_in. intros m Hm%list_elem_of_In. f_equal. apply (IH m Hm).
    rewrite forallb_forall in Hb. apply list_elem_of_In, Hb, andb_true_iff in Hm as [_ Hm]. exact Hm. }
  destruct (existsb _ ms) eqn:E; cbn [fst snd]; split_and!; try done.
  - intros Hb. rewrite Hmap by done. unfold GroupValue. rewrite drop_empty_id; [done|].
    apply forallb_forall. intros x (m & <- & Hm)%in_map_iff. cbn. rewrite strings_of_not_empty.
    rewrite forallb_forall in Hb. apply Hb, andb_true_iff in Hm as [Hm _]. exact Hm.
  - intros Hb. f_equal. rewrite <- Hmap by done. symmetry. apply map_id_elem. intros [k w] Hm. cbn. f_equal.
    apply (IH _ Hm). rewrite existsb_false_elem in E. apply (E _ Hm).
Qed.

Lemma stringifyErrors_clean v : hasError (stringifyErrors v).1 = false.
Proof.
  induction v as [| | | |id v _|ms IH] using svalue_ind'; try done. rewrite Forall_forall in IH.
  cbn [stringifyErrors]. destruct (existsb _ _) eqn:E; cbn [fst hasError].
  - cbn [GroupValue hasError]. apply existsb_false_elem. intros x [_ Hx]%list_elem_of_filter.
    rewrite map_map in Hx. apply list_elem_of_fmap in Hx as (m & -> & Hm). cbn. by apply IH.
  - rewrite existsb_map_false in E. cbn [snd] in E. apply existsb_false_elem. intros m Hm.
    rewrite existsb_false_elem in E. rewrite <- (proj1 (stringifyErrors_spec m.2)). by apply E.
Qed.

(** Striking out what is shadowed, in one go. *)
Definition struck (keys : list bytes) (baggageAttrs : list sattr) : list sattr :=
  (λ b : sattr, if bool_decide (b.1 ∈ keys) then zero_attr else b) <$> baggageAttrs.

Lemma struck_app ks ks' b : [] ∉ ks' → struck ks' (struck ks b) = struck (ks ++ ks') b.
Proof.
  intros Hnil. unfold struck. rewrite <- list_fmap_compose. apply list_fmap_ext. intros _ a _. cbn.
  destruct (decide (a.1 ∈ ks)) as [Hin|Hin].
  - rewrite (bool_decide_true (a.1 ∈ ks)) by done. cbn. rewrite bool_decide_false by done.
    rewrite bool_decide_true; [done|]. by apply elem_of_app; left.
  - rewrite (bool_decide_false (a.1 ∈ ks)) by done. apply (f_equal (λ c : bool, if c then zero_attr else a)).
    apply bool_decide_ext. rewrite elem_of_app. tauto.
Qed.

Lemma same_level_nonempty v key : [] ∉ same_level v key.
Proof.
  revert key. induction v as [| | | |id v _|ms IH] using svalue_ind'; intros key; cbn [same_level];
    destruct (bool_decide (key = [])) eqn:E; cbn [negb]; try (by intros ?%elem_of_nil);
    try (apply bool_decide_eq_false in E; intros H%list_elem_of_singleton; by subst).
  rewrite Forall_forall in IH. intros Hin%list_elem_of_In. apply in_flat_map in Hin as (m & Hm & Hin).
  apply list_elem_of_In in Hm, Hin. by apply (IH m Hm) in Hin.
Qed.

Lemma same_level_keys_nonempty l : [] ∉ same_level_keys l.
Proof.
  unfold same_level_keys. intros Hin%list_elem_of_In. apply in_flat_map in Hin as (m & _ & Hin).
  apply list_elem_of_In in Hin. by apply same_level_nonempty in Hin.
Qed.

Lemma struck_none b : struck [] b = b.
Proof. unfold struck. apply map_id_elem. intros a _. by rewrite bool_decide_false by apply not_elem_of_nil. Qed.

Lemma fold_suppress (f : svalue → bytes → list sattr → list sattr) ms b :
  (∀ m, m ∈ ms → ∀ b, f m.2 m.1 b = struck (same_level m.2 m.1) b) →
  fold_left (λ bag (m : sattr), f m.2 m.1 bag) ms b = struck (same_level_keys ms) b.
Proof.
  revert b. induction ms as [|m ms IH]; intros b Hf; cbn [fold_left]; [by rewrite struck_none|].
  rewrite Hf by left. rewrite IH by (intros; apply Hf; by right). unfold same_level_keys. cbn [flat_map].
  apply struck_app. apply (same_level_keys_nonempty ms).
Qed.

Lemma suppressShadowed_spec v : ∀ key b, suppressShadowed v key b = struck (same_level v key) b.
Proof.
  assert (Hkey : ∀ key b, strike key b = struck [key] b).
  { intros key b. unfold strike, struck. apply list_fmap_ext. intros _ a _.
    apply (f_equal (λ c : bool, if c then zero_attr else a)), bool_decide_ext. by rewrite list_elem_of_singleton. }
  assert (Hz : ∀ key v, is_zero (key, v) = true → same_level v key = []).
  { intros key w [= -> ->]%is_zero_true. done. }
  induction v as [| | | |id v _|ms IH] using svalue_ind'; intros key b; cbn [suppressShadowed];
    (destruct (is_zero _) eqn:Ez; [by rewrite Hz, struck_none|]);
    cbn [same_level]; destruct (bool_decide (key = [])) eqn:E; cbn [negb]; try apply Hkey; try (by rewrite struck_none).
  rewrite Forall_forall in IH. apply (fold_suppress suppressShadowed). intros m Hm b'. by apply IH.
Qed.

Lemma collectSameLevelKeys_spec v : ∀ key keys, collectSameLevelKeys v key keys = list_to_set (same_level v key) ∪ keys.
Proof.
  induction v as [| | | |id v _|ms IH] using svalue_ind'; intros key keys; cbn [collectSameLevelKeys];
    (destruct (is_zero _) eqn:Ez; [apply is_zero_true in Ez; injection Ez; intros; subst; cbn; set_solver|]);
    cbn [same_level]; destruct (bool_decide (key = [])) eqn:E; cbn [negb list_to_set]; try set_solver.
  clear E Ez. rewrite Forall_forall in IH. revert keys. induction ms as [|m ms IHms]; intros keys; cbn [fold_left flat_map list_to_set]; [set_solver|].
  rewrite IH by left. rewrite IHms by (intros; apply IH; by right). rewrite list_to_set_app_L. set_solver.
Qed.
