(* ===== verification/LogHandlers.v ===== *)
(** internal/log, the slog handlers, and the chain of them Init builds. A handler
    is a type with the four operations of slog.Handler; a wrapper is one over the
    handler it wraps. What slog promises of a handler it ships is a class of laws,
    which only the stdout handler at the end of the chain has to keep. Slices are
    values, so a clone is the identity. *)
From S2P Require Import Prelude Utf8 GoStrings GoCodec GoNum SampleLib Attribute SemconvReserved Baggage SlogAttr.

Record slog_record := {
  rec_time : Z; rec_level : Z; rec_message : bytes; rec_pc : positive; rec_attrs : list sattr;
}.
(** slog.NewRecord and AddAttrs: the same record with other attributes. *)
Definition with_attrs (r : slog_record) (l : list sattr) : slog_record :=
  {| rec_time := rec_time r; rec_level := rec_level r; rec_message := rec_message r; rec_pc := rec_pc r; rec_attrs := l |}.
Definition rebuilt (r : slog_record) (l : list sattr) : slog_record := with_attrs r (drop_empty l).
Definition AddAttrs (r : slog_record) (l : list sattr) : slog_record := with_attrs r (rec_attrs r ++ drop_empty l).

(** What handling a record comes to: the lines written, and the error. *)
Definition outcome (Line : Type) : Type := list Line * option bytes.

Class SlogHandler `{B : BaggageApi} (Line H : Type) := {
  hEnabled : H → Ctx → Z → bool;
  hHandle : H → Ctx → slog_record → outcome Line;
  hWithAttrs : H → list sattr → H;
  hWithGroup : H → bytes → H;
}.
(** go.opentelemetry.io/otel/trace: the identifiers of a valid span context. *)
Class TraceApi `{B : BaggageApi} := { SpanContext : Ctx → option (bytes * bytes) }.

(** * What a logger derived from a handler was given *)
Inductive derivation := DAttrs (attrs : list sattr) | DGroup (name : bytes).

Section derive.
Context `{B : BaggageApi} {Line H : Type} `{!SlogHandler Line H}.
Definition derive_step (h : H) (d : derivation) : H :=
  match d with DAttrs l => hWithAttrs h l | DGroup name => hWithGroup h name end.
Definition derive (h : H) (ds : list derivation) : H := foldl derive_step h ds.
End derive.

(** A group around the attributes; an empty one is ignored. *)
Definition in_group (name : bytes) (l : list sattr) : list sattr :=
  if bool_decide (l = []) then [] else [(name, VGroup l)].
(** The attributes of a record as slog qualifies them, those that stand before the
    first group apart. *)
Fixpoint qualify (ds : list derivation) (l : list sattr) : list sattr * list sattr :=
  match ds with
  | [] => (l, [])
  | DAttrs l' :: ds => let '(top, group) := qualify ds l in (l' ++ top, group)
  | DGroup [] :: ds => qualify ds l
  | DGroup name :: ds => let '(top, group) := qualify ds l in ([], in_group name (top ++ group))
  end.

(** The contract of slog.Handler, for the handlers log/slog ships: attributes and
    groups installed beforehand count as if they were the record's, groups without
    attributes are ignored and LogValuers are resolved. *)
Class SlogLaws `{B : BaggageApi} {Line : Type} (H : Type) `{!SlogHandler Line H} := {
  enabled_attrs (h : H) l c lv : hEnabled (hWithAttrs h l) c lv = hEnabled h c lv;
  handle_attrs (h : H) l c r : hHandle (hWithAttrs h l) c r = hHandle h c (with_attrs r (l ++ rec_attrs r));
  handle_normal (h : H) c r l l' : normal_attrs l = normal_attrs l' →
    hHandle h c (with_attrs r l) = hHandle h c (with_attrs r l');
}.

(** * multi.go *)
Definition errors_Join (errs : list (option bytes)) : option bytes :=
  match omap id errs with
  | [] => None
  | e :: es => Some (foldl (λ t e, t ++ #"
" ++ e) e es)
  end.
Record MultiHandler (H : Type) := { handlers : list H }.
Arguments handlers {H} _.
Definition NewMultiHandler {H} (hs : list (option H)) : MultiHandler H := {| handlers := omap id hs |}.

#[export] Instance multi_handler `{B : BaggageApi} {Line H : Type} `{!SlogHandler Line H} : SlogHandler Line (MultiHandler H) := {|
  hEnabled m ctx level := existsb (λ h, hEnabled h ctx level) (handlers m);
  hHandle m ctx r :=
    let os := (λ h, hHandle h ctx r) <$> filter (λ h, hEnabled h ctx (rec_level r) = true) (handlers m) in
    (os ≫= fst, errors_Join (snd <$> os));
  hWithAttrs m attrs := {| handlers := (λ h, hWithAttrs h attrs) <$> handlers m |};
  hWithGroup m name :=
    if bool_decide (name = []) then m else {| handlers := (λ h, hWithGroup h name) <$> handlers m |};
|}.

(** An interface value holds a handler of one of several types. *)
#[export] Instance sum_handler `{B : BaggageApi} {Line H1 H2 : Type} `{!SlogHandler Line H1} `{!SlogHandler Line H2} : SlogHandler Line (H1 + H2) := {|
  hEnabled h ctx level := match h with inl h => hEnabled h ctx level | inr h => hEnabled h ctx level end;
  hHandle h ctx r := match h with inl h => hHandle h ctx r | inr h => hHandle h ctx r end;
  hWithAttrs h attrs := match h with inl h => inl (hWithAttrs h attrs) | inr h => inr (hWithAttrs h attrs) end;
  hWithGroup h name := match h with inl h => inl (hWithGroup h name) | inr h => inr (hWithGroup h name) end;
|}.

(** * o11y.go: leveledHandler *)
Record leveledHandler (H : Type) := { leveled_Handler : H; min : Z }.
Arguments leveled_Handler {H} _.
Arguments min {H} _.
#[export] Instance leveled_handler `{B : BaggageApi} {Line H : Type} `{!SlogHandler Line H} : SlogHandler Line (leveledHandler H) := {|
  hEnabled h _ l := (min h <=? l)%Z;
  hHandle h ctx r := hHandle (leveled_Handler h) ctx r;
  hWithAttrs h attrs := {| leveled_Handler := hWithAttrs (leveled_Handler h) attrs; min := min h |};
  hWithGroup h name := {| leveled_Handler := hWithGroup (leveled_Handler h) name; min := min h |};
|}.

(** * errattrs.go: ErrorStringHandler *)
Record ErrorStringHandler (H : Type) := { error_Handler : H }.
Arguments error_Handler {H} _.
Definition NewErrorStringHandler {H} (h : option H) : option (ErrorStringHandler H) :=
  h ← h; Some {| error_Handler := h |}.
Definition ErrorString_WithAttrs (attrs : list sattr) : list sattr :=
  if existsb (λ a : sattr, (stringifyErrors a.2).2) attrs then stringifyAttr <$> attrs else attrs.
Definition ErrorString_record (r : slog_record) : slog_record :=
  if existsb (λ a : sattr, hasError a.2) (rec_attrs r) then rebuilt r (stringifyAttr <$> rec_attrs r) else r.
#[export] Instance error_string_handler `{B : BaggageApi} {Line H : Type} `{!SlogHandler Line H} : SlogHandler Line (ErrorStringHandler H) := {|
  hEnabled h ctx level := hEnabled (error_Handler h) ctx level;
  hHandle h ctx r := hHandle (error_Handler h) ctx (ErrorString_record r);
  hWithAttrs h attrs := {| error_Handler := hWithAttrs (error_Handler h) (ErrorString_WithAttrs attrs) |};
  hWithGroup h name := {| error_Handler := hWithGroup (error_Handler h) name |};
|}.

(** * handler.go: OtelSlogHandler *)
Definition traceIDKey : bytes := #"traceId".
Definition spanIDKey : bytes := #"spanId".
Record groupFrame := { frame_name : bytes; frame_attrs : list sattr }.
Record OtelSlogHandler (H : Type) := { base : H; groups : list groupFrame }.
Arguments base {H} _.
Arguments groups {H} _.
Definition NewOTelHandler {H} (base : H) : OtelSlogHandler H := {| base := base; groups := [] |}.
(** The identifiers, when the span context is valid. *)
Definition trace_ids (sc : option (bytes * bytes)) : list sattr :=
  match sc with Some (t, s) => [(traceIDKey, VString t); (spanIDKey, VString s)] | None => [] end.
(** The loop of regroup, from the innermost group out. *)
Definition nest (frames : list groupFrame) (attrs : list sattr) : list sattr :=
  foldr (λ frame nested,
    let inner := frame_attrs frame ++ nested in
    if bool_decide (inner = []) then [] else [(frame_name frame, GroupValue inner)]) attrs frames.
Definition regroup (frames : list groupFrame) (r : slog_record) (sc : option (bytes * bytes)) : slog_record :=
  rebuilt r (trace_ids sc ++ nest frames (rec_attrs r)).
(** The attributes are held by the innermost group. *)
Definition hold (frames : list groupFrame) (attrs : list sattr) : list groupFrame :=
  match reverse frames with
  | [] => []
  | f :: outer => reverse ({| frame_name := frame_name f; frame_attrs := frame_attrs f ++ attrs |} :: outer)
  end.
#[export] Instance otel_handler `{B : BaggageApi} `{T : !TraceApi} {Line H : Type} `{!SlogHandler Line H} : SlogHandler Line (OtelSlogHandler H) := {|
  hEnabled h ctx level := hEnabled (base h) ctx level;
  hHandle h ctx r :=
    let sc := SpanContext ctx in
    if negb (bool_decide (length (groups h) = 0)) then hHandle (base h) ctx (regroup (groups h) r sc)
    else match sc with
         | None => hHandle (base h) ctx r
         | Some _ => hHandle (base h) ctx (AddAttrs r (trace_ids sc))
         end;
  hWithAttrs h attrs :=
    if bool_decide (attrs = []) then h
    else if bool_decide (length (groups h) = 0) then {| base := hWithAttrs (base h) attrs; groups := [] |}
    else {| base := base h; groups := hold (groups h) (resolveAttr <$> attrs) |};
  hWithGroup h name :=
    if bool_decide (name = []) then h
    else {| base := base h; groups := groups h ++ [{| frame_name := name; frame_attrs := [] |}] |};
|}.

(** * handler.go: BaggageHandler *)
Record BaggageHandler (H : Type) := { baggage_Handler : H; whitelist : Whitelist; presetKeys : gset bytes }.
Arguments baggage_Handler {H} _.
Arguments whitelist {H} _.
Arguments presetKeys {H} _.
Definition NewBaggageHandler {H} (base : H) (w : Whitelist) : BaggageHandler H :=
  {| baggage_Handler := base; whitelist := w; presetKeys := ∅ |}.
Definition recordHasLogValuer (r : slog_record) : bool := has_valuer (rec_attrs r).
Definition resolveRecord (r : slog_record) : slog_record := rebuilt r (resolveAttr <$> rec_attrs r).
Definition baggage_record (presets : gset bytes) (baggageAttrs : list sattr) (r : slog_record) : slog_record :=
  if bool_decide (baggageAttrs = []) then r
  else
    let baggageAttrs := (λ b : sattr, if bool_decide (b.1 ∈ presets) then zero_attr else b) <$> baggageAttrs in
    let r := if recordHasLogValuer r then resolveRecord r else r in
    let baggageAttrs := fold_left (λ bag (a : sattr), suppressShadowed a.2 a.1 bag) (rec_attrs r) baggageAttrs in
    foldl (λ r a, if is_zero a then r else AddAttrs r [a]) r baggageAttrs.
Definition collectAll (attrs : list sattr) (keys : gset bytes) : gset bytes :=
  foldl (λ keys (a : sattr), collectSameLevelKeys a.2 a.1 keys) keys attrs.
#[export] Instance baggage_handler `{B : BaggageApi} {Line H : Type} `{!SlogHandler Line H} : SlogHandler Line (BaggageHandler H) := {|
  hEnabled h ctx level := hEnabled (baggage_Handler h) ctx level;
  hHandle h ctx r :=
    let baggageAttrs := (λ kv : bytes * bytes, (kv.1, VString kv.2)) <$> LogAttrsFromContext (whitelist h) ctx in
    hHandle (baggage_Handler h) ctx (baggage_record (presetKeys h) baggageAttrs r);
  hWithAttrs h attrs :=
    let resolved := resolveAttr <$> attrs in
    {| baggage_Handler := hWithAttrs (baggage_Handler h) resolved; whitelist := whitelist h;
       presetKeys := collectAll resolved (presetKeys h) |};
  hWithGroup h name :=
    if bool_decide (name = []) then h
    else {| baggage_Handler := hWithGroup (baggage_Handler h) name; whitelist := whitelist h; presetKeys := ∅ |};
|}.

(** * Init's logger *)
Section logger.
Context `{B : BaggageApi} `{T : !TraceApi} {Line Bridge Json : Type} `{!SlogHandler Line Bridge} `{!SlogHandler Line Json}.
Abbreviation Outputs := (MultiHandler (leveledHandler (ErrorStringHandler Bridge) + OtelSlogHandler Json)).
(** The dual-output handler, with baggage when there is a whitelist. *)
Definition log_handler (bridge : Bridge) (logLevel : Z) (stdoutHandler : OtelSlogHandler Json) : Outputs :=
  NewMultiHandler
    [inl ∘ (λ h, {| leveled_Handler := h; min := logLevel |}) <$> NewErrorStringHandler (Some bridge);
     Some (inr stdoutHandler)].
Definition Init_logger (bridge : Bridge) (logLevel : Z) (stdoutBase : Json) (w : Whitelist) :
    Outputs + BaggageHandler Outputs :=
  let h := log_handler bridge logLevel (NewOTelHandler stdoutBase) in
  if 0 <? length (attributes w) then inr (NewBaggageHandler h w) else inl h.
End logger.

(** * The baggage of a record *)
Lemma with_attrs_id r : with_attrs r (rec_attrs r) = r.
Proof. by destruct r. Qed.

Definition is_text (a : sattr) : Prop := ∃ s, a.2 = VString s.

Lemma add_unstruck keys bag r :
  Forall is_text bag →
  foldl (λ r a, if is_zero a then r else AddAttrs r [a]) r (struck keys bag)
  = with_attrs r (rec_attrs r ++ filter (λ b : sattr, b.1 ∉ keys) bag).
Proof.
  intros Hbag. revert r. induction Hbag as [|[k v] bag [s Hs] Hbag IH]; intros r.
  { cbn. by rewrite app_nil_r, with_attrs_id. }
  cbn [fst snd] in *. subst v. unfold struck. cbn [fmap list_fmap foldl fst]. rewrite filter_cons. cbn [fst].
  destruct (decide (k ∈ keys)) as [Hin|Hin].
  - rewrite bool_decide_true, decide_False by (done || tauto). cbn [is_zero zero_attr]. apply IH.
  - rewrite bool_decide_false, decide_True by done. assert (is_zero (k, VString s) = false) as -> by by destruct k.
    etrans; [apply IH|]. unfold AddAttrs, with_attrs. cbn [rec_attrs rec_time rec_level rec_message rec_pc].
    rewrite drop_empty_cons. cbn [isEmptyGroup snd]. by rewrite <- app_assoc.
Qed.

Lemma struck_presets (presets : gset bytes) bag :
  (λ b : sattr, if bool_decide (b.1 ∈ presets) then zero_attr else b) <$> bag = struck (elements presets) bag.
Proof.
  unfold struck. apply list_fmap_ext. intros _ a _.
  apply (f_equal (λ c : bool, if c then zero_attr else a)), bool_decide_ext. by rewrite elem_of_elements.
Qed.

(** The attributes of a record before the baggage is added to them. *)
Definition settled (l : list sattr) : list sattr := if has_valuer l then drop_empty (resolveAttr <$> l) else l.
Definition unshadowed (presets : gset bytes) (l bag : list sattr) : list sattr :=
  filter (λ b : sattr, b.1 ∉ presets ∧ b.1 ∉ same_level_keys l) bag.

Lemma baggage_record_spec presets bag r :
  Forall is_text bag →
  baggage_record presets bag r
  = if bool_decide (bag = []) then r
    else with_attrs r (settled (rec_attrs r) ++ unshadowed presets (settled (rec_attrs r)) bag).
Proof.
  intros Hbag. unfold baggage_record. destruct (bool_decide (bag = [])); [done|].
  set (r' := if recordHasLogValuer r then resolveRecord r else r).
  assert (Hr' : rec_attrs r' = settled (rec_attrs r) ∧ ∀ l, with_attrs r' l = with_attrs r l).
  { unfold r', settled, recordHasLogValuer. by destruct (has_valuer (rec_attrs r)). }
  destruct Hr' as [Ha Hw].
  rewrite struck_presets, (fold_suppress suppressShadowed) by (intros m Hm b'; apply suppressShadowed_spec).
  rewrite struck_app by apply same_level_keys_nonempty. rewrite add_unstruck by done. rewrite Hw, Ha. do 2 f_equal.
  unfold unshadowed. apply list_filter_iff. intros b. rewrite elem_of_app, elem_of_elements. tauto.
Qed.

Lemma normal_settled l : normal_attrs (settled l) = normal_attrs l.
Proof. unfold settled. destruct (has_valuer l); [|done]. by rewrite normal_drop_empty, normal_resolveAttr. Qed.

Lemma settled_settles l : has_valuer (settled l) = false.
Proof.
  unfold settled. destruct (has_valuer l) eqn:E; [|done]. apply no_valuer_drop_empty, resolveAttr_settles.
Qed.

Lemma collectAll_spec l keys : collectAll l keys = list_to_set (same_level_keys l) ∪ keys.
Proof.
  unfold collectAll. revert keys. induction l as [|m l IH]; intros keys; cbn; [set_solver|].
  rewrite IH, collectSameLevelKeys_spec. rewrite list_to_set_app_L. set_solver.
Qed.

(** * Deriving a logger from a chain *)
Section derived.
Context `{B : BaggageApi} `{T : !TraceApi} {Line H : Type} `{!SlogHandler Line H}.

(** What each wrapper passes on of a derivation. *)
Definition resolved_derivation (d : derivation) : derivation :=
  match d with DAttrs l => DAttrs (resolveAttr <$> l) | DGroup name => DGroup name end.
Definition strings_derivation (d : derivation) : derivation :=
  match d with DAttrs l => DAttrs (ErrorString_WithAttrs l) | DGroup name => DGroup name end.
Definition named (d : derivation) : Prop := d ≠ DGroup [].
#[export] Instance named_dec d : Decision (named d).
Proof. destruct d as [l|[|]]; [left|right|left]; unfold named; naive_solver. Defined.
(** The keys installed at the level a record of the derived logger stands on. *)
Definition preset_step (keys : gset bytes) (d : derivation) : gset bytes :=
  match d with
  | DAttrs l => list_to_set (same_level_keys (resolveAttr <$> l)) ∪ keys
  | DGroup [] => keys
  | DGroup _ => ∅
  end.

Lemma derive_cons {K : Type} `{!SlogHandler Line K} (h : K) d ds : derive h (d :: ds) = derive (derive_step h d) ds.
Proof. done. Qed.

Lemma derive_leveled (h : leveledHandler H) ds :
  derive h ds = {| leveled_Handler := derive (leveled_Handler h) ds; min := min h |}.
Proof. revert h. induction ds as [|[l|g] ds IH]; intros [h m]; [done|exact (IH _)..]. Qed.

Lemma derive_errors (h : ErrorStringHandler H) ds :
  derive h ds = {| error_Handler := derive (error_Handler h) (strings_derivation <$> ds) |}.
Proof. revert h. induction ds as [|[l|g] ds IH]; intros [h]; [done|exact (IH _)..]. Qed.

Lemma derive_multi (m : MultiHandler H) ds :
  derive m ds = {| handlers := (λ h, derive h (filter named ds)) <$> handlers m |}.
Proof.
  revert m. induction ds as [|d ds IH]; intros [hs].
  { cbn. f_equal. symmetry. by apply map_id_elem. }
  rewrite derive_cons, IH, filter_cons.
  destruct d as [l|[|a g]]; cbn [derive_step hWithAttrs hWithGroup multi_handler].
  - rewrite decide_True by done. cbn [handlers]. by rewrite <- list_fmap_compose.
  - rewrite decide_False by by intros H'. done.
  - rewrite decide_True by done. rewrite bool_decide_false by done. cbn [handlers]. by rewrite <- list_fmap_compose.
Qed.

Lemma derive_baggage (h : BaggageHandler H) ds :
  derive h ds = {|
    baggage_Handler := derive (baggage_Handler h) (filter named (resolved_derivation <$> ds));
    whitelist := whitelist h; presetKeys := foldl preset_step (presetKeys h) ds |}.
Proof.
  revert h. induction ds as [|d ds IH]; intros [h w p]; [done|].
  rewrite derive_cons, IH. cbn [fmap list_fmap foldl]. rewrite filter_cons.
  destruct d as [l|[|a g]]; cbn [derive_step hWithAttrs hWithGroup baggage_handler resolved_derivation preset_step].
  - rewrite decide_True by done. cbn [baggage_Handler whitelist presetKeys]. by rewrite collectAll_spec.
  - rewrite decide_False by by intros H'. done.
  - rewrite decide_True by done. rewrite bool_decide_false by done. done.
Qed.

Lemma derive_sum {K : Type} `{!SlogHandler Line K} (h : H + K) ds :
  derive h ds = match h with inl h => inl (derive h ds) | inr h => inr (derive h ds) end.
Proof. revert h. induction ds as [|[l|g] ds IH]; intros [h|h]; try done; rewrite derive_cons, IH; done. Qed.
End derived.

(** * The identifiers stay on top *)
Section frames.
Definition all_of (p : list sattr * list sattr) : list sattr := p.1 ++ p.2.

Lemma nest_snoc fs f l : nest (fs ++ [f]) l = nest fs (nest [f] l).
Proof. unfold nest. apply foldr_app. Qed.

Lemma normal_nest_one f l :
  normal_attrs (nest [f] l) = in_group (frame_name f) (normal_attrs (frame_attrs f ++ l)).
Proof.
  unfold nest, in_group. cbn [foldr]. destruct (frame_attrs f ++ l) as [|a l'] eqn:E; [done|].
  rewrite bool_decide_false by done. rewrite normal_attrs_cons. unfold normal_attr. cbn [fst snd].
  rewrite normal_GroupValue, normal_VGroup. by destruct (normal_attrs (a :: l')).
Qed.

Lemma normal_in_group name l : normal_attrs (in_group name l) = in_group name (normal_attrs l).
Proof.
  unfold in_group. destruct l as [|a l]; [done|]. rewrite bool_decide_false by done.
  rewrite normal_attrs_cons. unfold normal_attr. cbn [fst snd]. rewrite normal_VGroup. by destruct (normal_attrs (a :: l)).
Qed.

Lemma nest_congr fs l l' : normal_attrs l = normal_attrs l' → normal_attrs (nest fs l) = normal_attrs (nest fs l').
Proof.
  intros Hl. induction fs as [|f fs IH]; [done|].
  change (normal_attrs (nest [f] (nest fs l)) = normal_attrs (nest [f] (nest fs l'))).
  by rewrite !normal_nest_one, !normal_attrs_app, IH.
Qed.

Lemma nest_hold fs f attrs l : nest (hold (fs ++ [f]) attrs) l = nest fs (nest [{| frame_name := frame_name f; frame_attrs := frame_attrs f ++ attrs |}] l).
Proof. unfold hold. rewrite reverse_snoc, reverse_cons, reverse_involutive. apply nest_snoc. Qed.

Lemma hold_nonempty fs f attrs : ∃ f', hold (fs ++ [f]) attrs = fs ++ [f'].
Proof. unfold hold. rewrite reverse_snoc, reverse_cons, reverse_involutive. eauto. Qed.

(** Where the attributes of a record end up inside groups that are open. *)
Definition grouped (ds : list derivation) (l : list sattr) : list sattr := all_of (qualify ds l).

Lemma grouped_attrs l' ds l : grouped (DAttrs l' :: ds) l = l' ++ grouped ds l.
Proof. unfold grouped, all_of. cbn [qualify]. destruct (qualify ds l) as [t g]. cbn [fst snd]. by rewrite app_assoc. Qed.

Lemma grouped_group a name ds l : grouped (DGroup (a :: name) :: ds) l = in_group (a :: name) (grouped ds l).
Proof. unfold grouped, all_of. cbn [qualify]. by destruct (qualify ds l) as [t g]. Qed.
End frames.

Section correlated.
Context `{B : BaggageApi} `{T : !TraceApi} {Line H : Type} `{S : !SlogHandler Line H} `{L : !SlogLaws H}.

(** The frames a handler with open groups holds after more derivations. *)
Lemma derive_grouped (h : H) fs f ds :
  ∃ fs', fs' ≠ [] ∧ derive {| base := h; groups := fs ++ [f] |} ds = {| base := h; groups := fs' |}
    ∧ ∀ l, normal_attrs (nest fs' l) = normal_attrs (nest (fs ++ [f]) (grouped ds l)).
Proof.
  revert fs f. induction ds as [|d ds IH]; intros fs f.
  { exists (fs ++ [f]). split_and!; [by destruct fs|done|]. intros l. unfold grouped, all_of. cbn. by rewrite app_nil_r. }
  rewrite derive_cons. assert (Hlen : bool_decide (length (fs ++ [f]) = 0) = false).
  { apply bool_decide_false. rewrite length_app. cbn. lia. }
  destruct d as [l'|[|a name]]; cbn [derive_step hWithAttrs hWithGroup otel_handler groups base].
  - destruct (bool_decide (l' = [])) eqn:El.
    { apply bool_decide_eq_true in El as ->. destruct (IH fs f) as (fs' & Hne & -> & Hn). exists fs'. split_and!; [done|done|].
      intros l. by rewrite Hn, grouped_attrs. }
    rewrite Hlen. destruct (hold_nonempty fs f (resolveAttr <$> l')) as [f' Hf']. rewrite Hf'.
    destruct (IH fs f') as (fs' & Hne & -> & Hn). exists fs'. split_and!; [done|done|]. intros l.
    rewrite Hn, <- Hf', nest_hold, nest_snoc, grouped_attrs. apply nest_congr.
    rewrite !normal_nest_one. cbn [frame_name frame_attrs]. f_equal.
    by rewrite <- app_assoc, !normal_attrs_app, normal_resolveAttr.
  - exact (IH fs f).
  - rewrite (bool_decide_false (a :: name = [])) by done.
    destruct (IH (fs ++ [f]) {| frame_name := a :: name; frame_attrs := [] |}) as (fs' & Hne & -> & Hn).
    exists fs'. split_and!; [done|done|]. intros l. rewrite Hn, nest_snoc, grouped_group. apply nest_congr.
    rewrite normal_nest_one, normal_in_group. done.
Qed.

Lemma regroup_normal h c fs r sc l :
  normal_attrs (nest fs (rec_attrs r)) = normal_attrs l →
  hHandle (H := H) h c (regroup fs r sc) = hHandle h c (with_attrs r (trace_ids sc ++ l)).
Proof.
  intros Hl. unfold regroup, rebuilt. apply handle_normal. by rewrite normal_drop_empty, !normal_attrs_app, Hl.
Qed.

(** What the wrapped handler is given: the identifiers between the attributes
    installed before the first group and that group. *)
Definition correlated (ds : list derivation) (sc : option (bytes * bytes)) (r : slog_record) : slog_record :=
  let '(top, group) := qualify ds (rec_attrs r) in with_attrs r (top ++ trace_ids sc ++ group).

Lemma derive_otel (h : H) c ds r :
  hHandle (derive (NewOTelHandler h) ds) c r = hHandle h c (correlated ds (SpanContext c) r).
Proof.
  unfold NewOTelHandler. revert h. induction ds as [|d ds IH]; intros h.
  { unfold correlated. cbn [qualify derive foldl hHandle otel_handler groups base length bool_decide].
    cbn -[SpanContext trace_ids]. destruct (SpanContext c) as [[t s]|]; cbn [trace_ids].
    - unfold AddAttrs. by rewrite app_nil_r.
    - by rewrite !app_nil_r, with_attrs_id. }
  rewrite derive_cons. destruct d as [l|[|a name]]; cbn [derive_step hWithAttrs hWithGroup otel_handler groups base].
  - destruct (bool_decide (l = [])) eqn:El.
    { apply bool_decide_eq_true in El as ->. rewrite IH. unfold correlated. cbn [qualify]. by destruct (qualify ds _). }
    change (bool_decide (length (@nil groupFrame) = 0)) with true. cbn iota. rewrite IH, handle_attrs. f_equal.
    unfold correlated. cbn [qualify]. destruct (qualify ds _) as [top group]. cbn [with_attrs rec_attrs]. by rewrite <- app_assoc.
  - exact (IH h).
  - rewrite (bool_decide_false (a :: name = [])) by done. cbn [app].
    destruct (derive_grouped h [] {| frame_name := a :: name; frame_attrs := [] |} ds) as (fs' & Hne & Hd & Hn).
    cbn [app] in Hd, Hn. rewrite Hd.
    cbn [hHandle otel_handler groups base]. rewrite (bool_decide_false (length fs' = 0)) by by destruct fs'. cbn [negb].
    etrans; [apply regroup_normal, Hn|]. unfold correlated, grouped, all_of. cbn [qualify].
    destruct (qualify ds _) as [top group]. cbn [fst snd app]. apply handle_normal.
    by rewrite !normal_attrs_app, normal_nest_one, normal_in_group.
Qed.
End correlated.

(** * The whole chain *)
Section chain.
Context `{B : BaggageApi} `{T : !TraceApi} {Line Bridge Json : Type} `{!SlogHandler Line Bridge} `{S : !SlogHandler Line Json}.
Context `{L : !SlogLaws Json}.

Lemma enabled_otel (h : Json) fs c lv ds : hEnabled (derive {| base := h; groups := fs |} ds) c lv = hEnabled h c lv.
Proof.
  revert h fs. induction ds as [|d ds IH]; intros h fs; [done|]. rewrite derive_cons.
  destruct d as [l|g]; cbn [derive_step hWithAttrs hWithGroup otel_handler groups base].
  - destruct (bool_decide _); [apply IH|]. destruct (bool_decide _); [|apply IH]. rewrite IH. apply enabled_attrs.
  - destruct (bool_decide _); apply IH.
Qed.

(** The derivations the outputs see: resolved by the baggage handler, if there is
    one. *)
Definition seen (w : Whitelist) (ds : list derivation) : list derivation :=
  filter named (if 0 <? length (attributes w) then resolved_derivation <$> ds else ds).

Lemma qualify_seen w ds l :
  normal_attrs (qualify (seen w ds) l).1 = normal_attrs (qualify ds l).1
  ∧ normal_attrs (qualify (seen w ds) l).2 = normal_attrs (qualify ds l).2.
Proof.
  unfold seen. destruct (0 <? length (attributes w)).
  all: induction ds as [|d ds IH]; [done|]; cbn [fmap list_fmap]; rewrite ?filter_cons; destruct d as [l'|[|a g]]; cbn [resolved_derivation].
  all: first [rewrite decide_True by done | rewrite decide_False by (by intros H')].
  all: try exact IH; cbn [qualify].
  all: revert IH; destruct (qualify (filter _ _) l) as [t g1], (qualify ds l) as [t' g']; cbn [fst snd]; intros [H1 H2].
  all: split; rewrite ?normal_in_group, ?normal_attrs_app, ?normal_resolveAttr; congruence.
Qed.

(** The record the outputs are given. *)
Definition baggage_attrs (w : Whitelist) (c : Ctx) : list sattr :=
  (λ kv : bytes * bytes, (kv.1, VString kv.2)) <$> LogAttrsFromContext w c.
Definition enriched (w : Whitelist) (c : Ctx) (ds : list derivation) (r : slog_record) : slog_record :=
  if bool_decide (baggage_attrs w c = []) then r
  else let l := settled (rec_attrs r) in
       with_attrs r (l ++ unshadowed (foldl preset_step ∅ ds) l (baggage_attrs w c)).

Lemma baggage_attrs_text w c : Forall is_text (baggage_attrs w c).
Proof. apply Forall_fmap, Forall_forall. intros kv _. by exists kv.2. Qed.

Lemma baggage_attrs_empty w c : attributes w = [] → baggage_attrs w c = [].
Proof. unfold baggage_attrs, LogAttrsFromContext. intros ->. by destruct (bool_decide _). Qed.

Definition outputs (os : list (outcome Line)) : outcome Line := (os ≫= fst, errors_Join (snd <$> os)).

Lemma enabled_outputs (bridge : Bridge) lv (json : Json) c w ds l :
  hEnabled (derive (log_handler bridge lv (NewOTelHandler json)) (seen w ds)) c l = (lv <=? l)%Z || hEnabled json c l.
Proof.
  rewrite derive_multi.
  cbn [log_handler NewMultiHandler NewErrorStringHandler handlers omap list_omap id fmap list_fmap option_fmap option_map mbind option_bind compose].
  rewrite !derive_sum, derive_leveled. cbn [hEnabled multi_handler handlers existsb sum_handler leveled_handler min].
  unfold NewOTelHandler. by rewrite enabled_otel, orb_false_r.
Qed.

Lemma handle_outputs (bridge : Bridge) lv (json : Json) c w ds r :
  hHandle (derive (log_handler bridge lv (NewOTelHandler json)) (seen w ds)) c r
  = outputs
      ((if (lv <=? rec_level r)%Z then [hHandle (derive bridge (strings_derivation <$> seen w ds)) c (ErrorString_record r)] else [])
       ++ (if hEnabled json c (rec_level r) then [hHandle json c (correlated ds (SpanContext c) r)] else [])).
Proof.
  rewrite derive_multi. assert (filter named (seen w ds) = seen w ds) as ->.
  { unfold seen. by apply list_filter_filter_r. }
  cbn [log_handler NewMultiHandler NewErrorStringHandler handlers omap list_omap id fmap list_fmap option_fmap option_map mbind option_bind compose].
  rewrite !derive_sum, derive_leveled, derive_errors. cbn [leveled_Handler error_Handler min].
  cbn [hHandle multi_handler handlers]. unfold outputs.
  assert (Hjson : hHandle (derive (NewOTelHandler json) (seen w ds)) c r = hHandle json c (correlated ds (SpanContext c) r)).
  { rewrite derive_otel. unfold correlated. destruct (qualify_seen w ds (rec_attrs r)) as [H1 H2].
    destruct (qualify (seen w ds) _) as [t g], (qualify ds _) as [t' g'].
    cbn [fst snd] in H1, H2. apply handle_normal. by rewrite !normal_attrs_app, H1, H2. }
  rewrite !filter_cons, filter_nil. cbn [hEnabled sum_handler leveled_handler min].
  assert (Hen : hEnabled (derive (NewOTelHandler json) (seen w ds)) c (rec_level r) = hEnabled json c (rec_level r)) by apply enabled_otel.
  rewrite !Hen. destruct (lv <=? rec_level r)%Z, (hEnabled json c (rec_level r));
    rewrite ?(decide_True (P := true = true)), ?(decide_False (P := false = true)) by done;
    cbn [fmap list_fmap app hHandle sum_handler leveled_handler error_string_handler leveled_Handler error_Handler]; by rewrite ?Hjson.
Qed.

(** C18: the logger Init builds, and every logger derived from it. With the
    stdout handler keeping to slog's contract, a record is written to stdout, if
    stdout takes its level, as slog qualifies its attributes, with the trace
    identifiers of a valid span context at the top level whatever groups are open;
    and to the OTLP bridge, if the level reaches the configured one, as the bridge
    derived in the same way would write it, with every error turned into a string.
    Either way the record is the one logged with the whitelisted baggage added at
    the level the record stands on. The errors of the two are joined, and the
    logger is enabled when one of them is. *)
Theorem logger_exact (bridge : Bridge) (logLevel : Z) (stdoutBase : Json) (w : Whitelist) (ds : list derivation)
    (c : Ctx) (r : slog_record) :
  let logger := derive (Init_logger bridge logLevel stdoutBase w) ds in
  let r' := enriched w c ds r in
  let sent := hHandle (derive bridge (strings_derivation <$> seen w ds)) c (ErrorString_record r') in
  let printed := hHandle stdoutBase c (correlated ds (SpanContext c) r') in
  hHandle logger c r
  = outputs ((if (logLevel <=? rec_level r)%Z then [sent] else []) ++ (if hEnabled stdoutBase c (rec_level r) then [printed] else []))
  ∧ ∀ lv, hEnabled logger c lv = (logLevel <=? lv)%Z || hEnabled stdoutBase c lv.
Proof.
  assert (Hlevel : rec_level (enriched w c ds r) = rec_level r) by (unfold enriched; by destruct (bool_decide _)).
  pose proof (handle_outputs bridge logLevel stdoutBase c w ds (enriched w c ds r)) as Hout. rewrite Hlevel in Hout.
  pose proof (enabled_outputs bridge logLevel stdoutBase c w ds) as Hen.
  unfold Init_logger. destruct (0 <? length (attributes w)) eqn:Ew; rewrite derive_sum; cbn [hHandle hEnabled sum_handler].
  - rewrite derive_baggage. cbn [hHandle hEnabled baggage_handler baggage_Handler whitelist presetKeys].
    cbn [NewBaggageHandler baggage_Handler whitelist presetKeys]. fold (baggage_attrs w c).
    rewrite baggage_record_spec by apply baggage_attrs_text. fold (enriched w c ds r).
    unfold seen in Hout, Hen. unfold seen. rewrite Ew in *. split; [exact Hout|exact Hen].
  - assert (enriched w c ds r = r) as E.
    { unfold enriched. rewrite bool_decide_true; [done|]. apply baggage_attrs_empty. apply Nat.ltb_ge in Ew.
      by apply length_zero_iff_nil; lia. }
    rewrite E in *. rewrite derive_multi in *. unfold seen in Hout, Hen |- *. rewrite Ew in *.
    rewrite list_filter_filter_r in Hout, Hen by done. split; [exact Hout|exact Hen].
Qed.
End chain.

(** * The attributes of the record *)
Lemma omap_keys_sublist {A V} (key : A → bytes) (f : A → option (bytes * V)) l :
  (∀ a k v, f a = Some (k, v) → k = key a) → (omap f l).*1 `sublist_of` (key <$> l).
Proof.
  intros Hf. induction l as [|a l IH]; cbn; [done|]. destruct (f a) as [[k v]|] eqn:E; cbn.
  - rewrite (Hf _ _ _ E). by apply sublist_skip.
  - by apply sublist_cons.
Qed.

Lemma no_errors l : Forall (λ a : sattr, hasError a.2 = false) (stringifyAttr <$> l).
Proof. apply Forall_fmap, Forall_forall. intros a _. apply stringifyErrors_clean. Qed.

Lemma ErrorString_record_clean r : Forall (λ a : sattr, hasError a.2 = false) (rec_attrs (ErrorString_record r)).
Proof.
  unfold ErrorString_record. destruct (existsb _ _) eqn:E.
  - cbn. apply Forall_forall. intros a [_ Ha]%list_elem_of_filter. pose proof (no_errors (rec_attrs r)) as H.
    rewrite Forall_forall in H. by apply H.
  - apply Forall_forall. by apply existsb_false_elem.
Qed.

Lemma ErrorString_WithAttrs_clean l : Forall (λ a : sattr, hasError a.2 = false) (ErrorString_WithAttrs l).
Proof.
  unfold ErrorString_WithAttrs. destruct (existsb _ _) eqn:E; [apply no_errors|].
  apply Forall_forall. intros a Ha. rewrite existsb_false_elem in E. rewrite <- (proj1 (stringifyErrors_spec a.2)). by apply E.
Qed.

Section attributes.
Context `{B : BaggageApi}.

Lemma LogAttrs_keys keys c : NoDup (LogAttrsFromContext (NewWhitelist keys) c).*1.
Proof.
  unfold LogAttrsFromContext. destruct (bool_decide _); [constructor|].
  eapply sublist_NoDup; [|apply (omap_keys_sublist fst)].
  - apply (proj1 (proj2 (NewWhitelist_spec keys))).
  - intros a k v. destruct (usable _); [|done]. by intros [= <- _].
Qed.

(** The attributes of the record the outputs are given. They are the caller's,
    which no handler loses or changes, and after them every whitelisted baggage
    member of the context, once, unless its key is one the caller used at that
    level, in the record or on the logger since the last group was opened. When
    there is baggage the outputs are left no LogValuer to resolve, and a record
    without one is passed on as it is. The bridge sees no error value, at any
    depth. *)
Theorem record_attributes (keys : list bytes) (c : Ctx) (ds : list derivation) (r : slog_record) :
  let bag := LogAttrsFromContext (NewWhitelist keys) c in
  let r' := enriched (NewWhitelist keys) c ds r in
  (∃ own added, rec_attrs r' = own ++ added
    ∧ normal_attrs own = normal_attrs (rec_attrs r)
    ∧ NoDup added.*1
    ∧ (∀ k v, (k, v) ∈ added ↔ ∃ s, v = VString s ∧ (k, s) ∈ bag
         ∧ k ∉ foldl preset_step ∅ ds ∧ k ∉ same_level_keys own)
    ∧ (bag ≠ [] → has_valuer own = false)
    ∧ (bag = [] ∨ has_valuer (rec_attrs r) = false → own = rec_attrs r))
  ∧ Forall (λ a : sattr, hasError a.2 = false) (rec_attrs (ErrorString_record r'))
  ∧ ∀ l, DAttrs l ∈ strings_derivation <$> seen (NewWhitelist keys) ds → Forall (λ a : sattr, hasError a.2 = false) l.
Proof.
  cbn zeta. split_and!; [|apply ErrorString_record_clean|].
  - set (bag := LogAttrsFromContext (NewWhitelist keys) c).
    exists (if bool_decide (bag = []) then rec_attrs r else settled (rec_attrs r)),
      (unshadowed (foldl preset_step ∅ ds) (if bool_decide (bag = []) then rec_attrs r else settled (rec_attrs r)) (baggage_attrs (NewWhitelist keys) c)).
    assert (Hbag : baggage_attrs (NewWhitelist keys) c = [] ↔ bag = []) by (unfold baggage_attrs; fold bag; by destruct bag).
    split_and!.
    + unfold enriched. rewrite (bool_decide_ext _ _ Hbag). destruct (bool_decide (bag = [])) eqn:E; [|done].
      apply bool_decide_eq_true, Hbag in E. rewrite E. cbn. by rewrite app_nil_r.
    + destruct (bool_decide _); [done|apply normal_settled].
    + apply (sublist_NoDup _ (baggage_attrs (NewWhitelist keys) c).*1).
      * unfold baggage_attrs. rewrite <- list_fmap_compose. apply (LogAttrs_keys keys c).
      * apply fmap_sublist, sublist_filter.
    + intros k v. unfold unshadowed. rewrite list_elem_of_filter. cbn [fst]. unfold baggage_attrs. rewrite list_elem_of_fmap. fold bag.
      split; [intros [[] ([k' s] & [= -> ->] & ?)]; eauto|]. intros (s & -> & ? & ? & ?). split; [done|]. by exists (k, s).
    + intros Hne. rewrite bool_decide_false by done. apply settled_settles.
    + intros [->|Hv]; [done|]. unfold settled. rewrite Hv. by destruct (bool_decide _).
  - intros l ([l'|g] & [= ->] & _)%list_elem_of_fmap. apply ErrorString_WithAttrs_clean.
Qed.
End attributes.

(** * A handler that keeps to the contract: it writes what slog qualifies. *)
Definition qualifier : Type := list derivation.
Definition normal_record (r : slog_record) (l : list sattr) : slog_record := with_attrs r (normal_attrs l).
#[local] Existing Instance sample_baggage.
#[local] Instance qualifier_handler : SlogHandler slog_record qualifier := {|
  hEnabled _ _ level := (0 <=? level)%Z;
  hHandle h _ r := ([normal_record r (grouped h (rec_attrs r))], None);
  hWithAttrs h l := h ++ [DAttrs l];
  hWithGroup h name := h ++ [DGroup name];
|}.
#[local] Instance sample_trace : TraceApi := {| SpanContext _ := Some ( #"4bf9", #"00f0") |}.

Lemma grouped_app h ds l : grouped (h ++ ds) l = grouped h (grouped ds l).
Proof.
  induction h as [|[l'|[|a g]] h IH]; cbn [app].
  - unfold grouped at 2, all_of. cbn. by rewrite app_nil_r.
  - by rewrite !grouped_attrs, IH.
  - exact IH.
  - by rewrite !grouped_group, IH.
Qed.

Lemma grouped_congr h l l' : normal_attrs l = normal_attrs l' → normal_attrs (grouped h l) = normal_attrs (grouped h l').
Proof.
  intros Hl. induction h as [|[k|[|a g]] h IH].
  - unfold grouped, all_of. cbn. by rewrite !app_nil_r.
  - by rewrite !grouped_attrs, !normal_attrs_app, IH.
  - exact IH.
  - by rewrite !grouped_group, !normal_in_group, IH.
Qed.

#[local] Instance qualifier_laws : SlogLaws qualifier.
Proof.
  split; cbn [hEnabled hHandle hWithAttrs qualifier_handler]; [done| |].
  - intros h l c r. rewrite grouped_app. unfold grouped at 2, all_of. cbn [qualify fst snd]. by rewrite app_nil_r.
  - intros h c r l l' Hl. unfold normal_record. cbn [with_attrs rec_attrs]. do 3 f_equal. by apply grouped_congr.
Qed.

(** An error logged in a group, with a tenant in the baggage and in the group. *)
Definition sample_context : list (bytes * bytes) := [(tenant, #"acme"); ( #"region", #"eu")].
Definition sample_log_record : slog_record := {|
  rec_time := 0; rec_level := 0; rec_message := #"failed"; rec_pc := 1;
  rec_attrs := [( #"error", VError {| err_text := None; err_nil := true; err_panic := [] |});
                (tenant, VLogValuer 1 (VString #"mine"))];
|}.
Definition sample_derivations : list derivation := [DAttrs [( #"service.name", VString #"shop")]; DGroup #"req"].
Definition sample_logger : MultiHandler (leveledHandler (ErrorStringHandler qualifier) + OtelSlogHandler qualifier)
    + BaggageHandler (MultiHandler (leveledHandler (ErrorStringHandler qualifier) + OtelSlogHandler qualifier)) :=
  derive (Line := slog_record) (Init_logger ([] : qualifier) 0 ([] : qualifier) (NewWhitelist [tenant; #"region"])) sample_derivations.

Lemma logger_exact_witness :
  hHandle (B := sample_baggage) (Line := slog_record) sample_logger sample_context sample_log_record
  = ([normal_record sample_log_record
        [( #"service.name", VString #"shop");
         ( #"req", VGroup [( #"error", VString #"<nil>"); (tenant, VString #"mine"); ( #"region", VString #"eu")])];
      normal_record sample_log_record
        [( #"service.name", VString #"shop"); (traceIDKey, VString #"4bf9"); (spanIDKey, VString #"00f0");
         ( #"req", VGroup [( #"error", VError {| err_text := None; err_nil := true; err_panic := [] |});
            (tenant, VString #"mine"); ( #"region", VString #"eu")])]], None)
  ∧ hEnabled (B := sample_baggage) (Line := slog_record) sample_logger sample_context (-4) = false.
Proof.
  destruct (logger_exact (B := sample_baggage) (Line := slog_record) ([] : qualifier) 0 ([] : qualifier) (NewWhitelist [tenant; #"region"])
    sample_derivations sample_context sample_log_record) as [Hh He].
  split; [etrans; [exact Hh|vm_compute; reflexivity]|etrans; [exact (He (-4)%Z)|vm_compute; reflexivity]].
Defined.
