(* ===== verification/ExportStats.v ===== *)
(** internal/exportstats: the counts of failed exports and the wrappers that keep
    them. Every counter and flag is one atomic cell, so calls that overlap are some
    sequence of their operations. *)
From S2P Require Import Prelude GoNum Attribute.

Abbreviation Signal := bytes.
Definition SignalTraces : Signal := #"traces".
Definition SignalLogs : Signal := #"logs".
Definition SignalMetrics : Signal := #"metrics".
Definition all_signals : list Signal := [SignalTraces; SignalLogs; SignalMetrics].
(** semconv.OTelComponentTypeKey and the component types of the OTLP exporters. *)
Class ComponentTypes := { OTelComponentType : Signal → KeyValue }.
Definition ComponentType `{ComponentTypes} (signal : Signal) : option KeyValue :=
  if bool_decide (signal ∈ all_signals) then Some (OTelComponentType signal) else None.

Record Recorder := { counts : gmap Signal Z; actives : gmap Signal bool }.
(** The zero value: every counter 0, no signal active. *)
Definition zero_recorder : Recorder := {| counts := ∅; actives := ∅ |}.
(** counter and active: nil for a signal there is no cell for. *)
Definition counter (r : Recorder) (signal : Signal) : option Z :=
  if bool_decide (signal ∈ all_signals) then Some (default 0%Z (counts r !! signal)) else None.
Definition active (r : Recorder) (signal : Signal) : option bool :=
  if bool_decide (signal ∈ all_signals) then Some (default false (actives r !! signal)) else None.
Definition Fail_ (r : Recorder) (signal : Signal) : Recorder :=
  match counter r signal with
  | Some c => {| counts := <[signal := wrap64 (c + 1)]> (counts r); actives := actives r |}
  | None => r
  end.
Definition Failures (r : Recorder) (signal : Signal) : Z := default 0%Z (counter r signal).
Definition Active (r : Recorder) (signal : Signal) : bool := default false (active r signal).
Definition activate (r : Recorder) (signal : Signal) : Recorder :=
  match active r signal with
  | Some _ => {| counts := counts r; actives := <[signal := true]> (actives r) |}
  | None => r
  end.

(** SpanExporter, LogExporter and MetricExporter wrap; ExportSpans and Export
    count an error and return it. *)
Definition wrap_exporter (r : Recorder) (signal : Signal) : Recorder := activate r signal.
Definition Export_ (r : Recorder) (signal : Signal) (err : option bytes) : Recorder * option bytes :=
  (match err with Some _ => Fail_ r signal | None => r end, err).
(** The callback Register installs. *)
Definition observations `{ComponentTypes} (r : Recorder) : list (Z * option KeyValue) :=
  omap (λ signal, if Active r signal then Some (Failures r signal, ComponentType signal) else None) all_signals.

(** * What is counted *)
Inductive stats_event := Wrapped (s : Signal) | Exported (s : Signal) (err : option bytes).
Definition stats_step (r : Recorder) (e : stats_event) : Recorder :=
  match e with Wrapped s => wrap_exporter r s | Exported s err => (Export_ r s err).1 end.
Definition failed (s : Signal) (e : stats_event) : Prop := ∃ err, e = Exported s (Some err).
#[export] Instance failed_dec s e : Decision (failed s e).
Proof.
  destruct e as [s'|s' [err|]]; [right; by intros [? [=]]| |right; by intros [? [=]]].
  destruct (decide (s' = s)) as [->|Hn]; [left; by exists err|right; intros [? [=]]; done].
Defined.
Definition failures (s : Signal) (es : list stats_event) : nat := length (filter (failed s) es).

Lemma Fail_counts r s s' : s' ∈ all_signals →
  Failures (Fail_ r s) s' = if decide (s = s') then wrap64 (Failures r s' + 1) else Failures r s'.
Proof.
  intros Hs'. unfold Fail_, Failures, counter. rewrite !(bool_decide_true (s' ∈ all_signals)) by done. cbn [default].
  destruct (decide (s = s')) as [->|Hn].
  - rewrite (bool_decide_true (s' ∈ all_signals)) by done. cbn [counts default]. by rewrite lookup_insert_eq.
  - destruct (bool_decide (s ∈ all_signals)); [|done]. cbn [counts]. by rewrite lookup_insert_ne.
Qed.

Lemma step_counts r e s : s ∈ all_signals →
  Failures (stats_step r e) s = if decide (failed s e) then wrap64 (Failures r s + 1) else Failures r s.
Proof.
  intros Hs. destruct e as [s'|s' [err|]]; cbn [stats_step Export_ fst wrap_exporter].
  - rewrite decide_False by by intros [? [=]]. unfold wrap_exporter, activate, active. by destruct (bool_decide (s' ∈ all_signals)).
  - rewrite Fail_counts by done. destruct (decide (s' = s)) as [->|Hn].
    + by rewrite decide_True by by exists err.
    + rewrite decide_False; [done|]. intros [? [=]]. done.
  - by rewrite decide_False by by intros [? [=]].
Qed.

Definition wraps (s : Signal) (e : stats_event) : bool :=
  match e with Wrapped s' => bool_decide (s' = s) | Exported _ _ => false end.

Lemma wraps_true s e : wraps s e = true ↔ e = Wrapped s.
Proof. destruct e as [s'|s' err]; cbn; [rewrite bool_decide_eq_true|]; naive_solver. Qed.

Lemma step_active r e s : s ∈ all_signals →
  Active (stats_step r e) s = wraps s e || Active r s.
Proof.
  intros Hs. destruct e as [s'|s' err]; cbn [stats_step Export_ fst wrap_exporter].
  - unfold wrap_exporter, activate, Active, active. rewrite !(bool_decide_true (s ∈ all_signals)) by done. destruct (decide (s' = s)) as [->|Hn].
    + cbn [wraps]. rewrite (bool_decide_true (s ∈ all_signals)), (bool_decide_true (s = s)) by done. cbn [actives default orb]. by rewrite lookup_insert_eq.
    + cbn [wraps]. rewrite (bool_decide_false (s' = s)) by done. destruct (bool_decide (s' ∈ all_signals)); [|done]. cbn [actives]. by rewrite lookup_insert_ne.
  - cbn [wraps]. destruct err; [|done]. unfold Fail_, counter. by destruct (bool_decide (s' ∈ all_signals)).
Qed.

Lemma fold_stats es r s : s ∈ all_signals →
  eq64 (Failures (foldl stats_step r es) s) (Failures r s + Z.of_nat (failures s es))
  ∧ (Active (foldl stats_step r es) s = true ↔ Active r s = true ∨ Wrapped s ∈ es).
Proof.
  intros Hs. revert r. induction es as [|e es IH]; intros r; cbn [foldl].
  { unfold failures. cbn. split; [exists 0%Z; lia|]. rewrite elem_of_nil. tauto. }
  destruct (IH (stats_step r e)) as [Hc Ha]. split.
  - destruct Hc as [k Hk]. rewrite Hk, step_counts by done. unfold failures. rewrite filter_cons.
    destruct (decide (failed s e)); cbn [length].
    + unfold wrap64. exists (k - (Failures r s + 1 + 2 ^ 63) / 2 ^ 64)%Z.
      pose proof (Z.div_mod (Failures r s + 1 + 2 ^ 63) (2 ^ 64) ltac:(lia)). lia.
    + exists k. lia.
  - rewrite Ha, step_active, elem_of_cons, orb_true_iff, wraps_true by done. naive_solver.
Qed.

(** What a collection reports: a signal when, and only when, an exporter of it was
    wrapped, under its component type and in a fixed order, with the number of its
    exports that failed, modulo 2^64; whatever the order of the events, and an
    export returns the error it would have. *)
Theorem export_failures_exact `{ComponentTypes} (es : list stats_event) :
  let r := foldl stats_step zero_recorder es in
  observations r = (λ s, (Failures r s, Some (OTelComponentType s))) <$> filter (λ s, existsb (wraps s) es = true) all_signals
  ∧ (∀ s, s ∈ all_signals → eq64 (Failures r s) (Z.of_nat (failures s es)))
  ∧ ∀ r s err, (Export_ r s err).2 = err.
Proof.
  set (r := foldl stats_step zero_recorder es). cbn zeta. split_and!; [|intros s Hs|done].
  2: { pose proof (proj1 (fold_stats es zero_recorder s Hs)) as Hc. unfold Failures at 2, counter in Hc.
       rewrite bool_decide_true in Hc by done. exact Hc. }
  assert (Hsub : ∀ s, s ∈ all_signals → (Active r s = true ↔ existsb (wraps s) es = true)).
  { intros s Hs. unfold r. rewrite (proj2 (fold_stats es zero_recorder s Hs)). unfold Active, active, zero_recorder.
    rewrite bool_decide_true by done. cbn. rewrite lookup_empty, existsb_exists. cbn. split.
    - intros [?|Hw]; [done|]. exists (Wrapped s). split; [by apply list_elem_of_In|by apply wraps_true].
    - intros (e & Hin & ->%wraps_true). right. by apply list_elem_of_In. }
  unfold observations. assert (Hall : ∀ l : list Signal, (∀ s, s ∈ l → s ∈ all_signals) →
    omap (λ signal, if Active r signal then Some (Failures r signal, ComponentType signal) else None) l
    = (λ s, (Failures r s, Some (OTelComponentType s))) <$> filter (λ s, existsb (wraps s) es = true) l).
  { induction l as [|s l IH]; intros Hl; [done|]. cbn [omap list_omap]. rewrite filter_cons, IH by (intros; apply Hl; by right).
    pose proof (Hsub s (Hl s ltac:(left))) as Hs. destruct (Active r s).
    - rewrite decide_True by by apply Hs. cbn [fmap list_fmap]. unfold ComponentType. by rewrite bool_decide_true by (apply Hl; left).
    - rewrite decide_False; [done|]. intros Hw. by apply Hs in Hw. }
  by apply Hall.
Qed.
