(* ===== verification/GoFields.v ===== *)
(** strings.Fields and strings.ToUpper, with the facts that let a text be read
    token by token. *)
From S2P Require Import Prelude Utf8 GoStrings.

(** * strings.ToUpper *)
Definition upper_byte (c : ascii) : ascii := if is_lower c then byte_of (byte_val c - 32) else c.
(** The table of the other case, with its ASCII part as the law. *)
Class GoUpper := { unicode_ToUpper : N → N }.
Class GoUpperLaws (U : GoUpper) := {
  unicode_ToUpper_ascii c : (byte_val c < 128)%N → unicode_ToUpper (byte_val c) = byte_val (upper_byte c);
}.
Definition ToUpper `{U : GoUpper} (s : bytes) : bytes :=
  if is_ascii s then map upper_byte s
  else runes s ≫= λ '(r, _), encode_rune (unicode_ToUpper r).

(** * strings.Fields *)
Fixpoint fields_of (rs : list (N * bytes)) (current : bytes) : list bytes :=
  match rs with
  | [] => if bool_decide (current = []) then [] else [current]
  | (r, b) :: rs =>
    if is_space_rune r then (if bool_decide (current = []) then [] else [current]) ++ fields_of rs []
    else fields_of rs (current ++ b)
  end.
Definition Fields (s : bytes) : list bytes := fields_of (runes s) [].

(** * Facts *)
(** Induction rune by rune. *)
Lemma runes_ind (P : bytes → Prop) : P [] → (∀ s, s ≠ [] → P (drop (rune_width s) s) → P s) → ∀ s, P s.
Proof.
  intros Hnil Hstep s. remember (length s) as n eqn:Hn. revert s Hn. induction (lt_wf n) as [n _ IH]. intros s ->.
  destruct (decide (s = [])) as [->|Hs]; [done|]. apply Hstep; [done|]. eapply IH; [|done].
  pose proof (decode_rune_width s Hs). rewrite length_drop. lia.
Qed.

Lemma runes_concat s : runes s ≫= snd = s.
Proof.
  induction s as [|s Hs IH] using runes_ind; [done|]. destruct s as [|c s]; [done|]. rewrite runes_cons, bind_cons, IH. apply take_drop.
Qed.

(** A rune ends before an ASCII byte. *)
Lemma is_cont_ascii lo hi c : (128 ≤ lo)%N → (byte_val c < 128)%N → is_cont lo hi c = false.
Proof. unfold is_cont. intros. lia. Qed.

Lemma second_lo_ge v : (128 ≤ second_lo v)%N.
Proof. unfold second_lo. repeat case_match; lia. Qed.

Lemma decode_rune_app_ascii s c t : s ≠ [] → (byte_val c < 128)%N → decode_rune (s ++ c :: t) = decode_rune s.
Proof.
  intros Hs Hc. destruct s as [|c0 s]; [done|]. cbn [app]. unfold decode_rune.
  pose proof (is_cont_ascii (second_lo (byte_val c0)) (second_hi (byte_val c0)) c (second_lo_ge _) Hc) as H1.
  pose proof (is_cont_ascii 0x80 0xBF c ltac:(lia) Hc) as H2.
  destruct (utf8_width (byte_val c0)) as [|[|[|[|[|w]]]]]; destruct s as [|c1 [|c2 [|c3 s]]]; cbn [app];
    rewrite ?H1, ?H2, ?andb_false_r; try reflexivity; destruct t as [|d [|e t]]; rewrite ?H1, ?H2, ?andb_false_r; reflexivity.
Qed.

Lemma runes_app_ascii s c t : (byte_val c < 128)%N → runes (s ++ c :: t) = runes s ++ runes (c :: t).
Proof.
  intros Hc. induction s as [|s Hs IH] using runes_ind; [done|].
  destruct s as [|d s]; [done|]. cbn [app]. rewrite (runes_cons d (s ++ c :: t)), (runes_cons d s), app_comm_cons.
  unfold rune_of, rune_width in *. rewrite decode_rune_app_ascii by done. pose proof (decode_rune_width _ Hs) as Hw. unfold rune_width in Hw.
  rewrite drop_app_le by lia. rewrite take_app_le by lia. cbn [app]. by f_equal.
Qed.

(** ASCII white space. *)
Definition is_space_byte (c : ascii) : bool := (byte_val c <? 128)%N && is_space_rune (byte_val c).
Definition no_space (s : bytes) : bool := forallb (λ r : N * bytes, negb (is_space_rune r.1)) (runes s).

Lemma fields_of_app rs r b rs' current :
  is_space_rune r = true → fields_of (rs ++ (r, b) :: rs') current = fields_of rs current ++ fields_of rs' [].
Proof.
  intros Hr. revert current. induction rs as [|[r1 b1] rs IH]; intros current; cbn [app fields_of]; [by rewrite Hr|].
  destruct (is_space_rune r1); rewrite IH; [by rewrite app_assoc|done].
Qed.

Lemma Fields_app_space s c t : is_space_byte c = true → Fields (s ++ c :: t) = Fields s ++ Fields t.
Proof.
  unfold is_space_byte. intros [Hc Hs]%andb_true_iff. unfold Fields.
  rewrite runes_app_ascii, runes_cons_low by lia. by apply fields_of_app.
Qed.

Lemma fields_of_word rs current :
  forallb (λ r : N * bytes, negb (is_space_rune r.1)) rs = true →
  fields_of rs current = if bool_decide (current ++ (rs ≫= snd) = []) then [] else [current ++ (rs ≫= snd)].
Proof.
  revert current. induction rs as [|[r b] rs IH]; intros current H; cbn [fields_of].
  { cbn. by rewrite app_nil_r. }
  cbn [forallb fst] in H. apply andb_true_iff in H as [Hr H]. apply negb_true_iff in Hr. rewrite Hr, IH by done.
  rewrite bind_cons. cbn [snd]. by rewrite <- app_assoc.
Qed.

Lemma Fields_word s : s ≠ [] → no_space s = true → Fields s = [s].
Proof.
  intros Hs Hn. unfold Fields. rewrite fields_of_word by done. cbn [app]. rewrite runes_concat. by rewrite bool_decide_false.
Qed.

Lemma Fields_space c t : is_space_byte c = true → Fields (c :: t) = Fields t.
Proof. intros Hc. apply (Fields_app_space [] c t Hc). Qed.

(** A word goes on with the byte stuck to it. *)
Lemma fields_of_started rs current : current ≠ [] → ∃ more rest, fields_of rs current = (current ++ more) :: rest.
Proof.
  revert current. induction rs as [|[r b] rs IH]; intros current Hc; cbn [fields_of]; rewrite ?bool_decide_false by done.
  { exists [], []. by rewrite app_nil_r. }
  destruct (is_space_rune r); [exists [], (fields_of rs []); by rewrite app_nil_r|].
  destruct (IH (current ++ b)) as (more & rest & ->); [by destruct current|]. exists (b ++ more), rest. by rewrite <- app_assoc.
Qed.

Lemma fields_of_through rs rs' current :
  forallb (λ r : N * bytes, negb (is_space_rune r.1)) rs = true →
  fields_of (rs ++ rs') current = fields_of rs' (current ++ (rs ≫= snd)).
Proof.
  revert current. induction rs as [|[r b] rs IH]; intros current H; cbn [app fields_of]; [by rewrite app_nil_r|].
  cbn [forallb fst] in H. apply andb_true_iff in H as [Hr H]. apply negb_true_iff in Hr. rewrite Hr, IH by done.
  rewrite bind_cons. cbn [snd]. by rewrite <- app_assoc.
Qed.

Lemma Fields_stuck s c t :
  no_space s = true → (byte_val c < 128)%N → is_space_byte c = false →
  ∃ more rest, Fields (s ++ c :: t) = (s ++ c :: more) :: rest.
Proof.
  intros Hs Hc Hsp. assert (is_space_rune (byte_val c) = false) as Hr.
  { revert Hsp. unfold is_space_byte. rewrite (proj2 (N.ltb_lt _ _) Hc). done. }
  unfold Fields. rewrite runes_app_ascii, fields_of_through, runes_concat, runes_cons_low by (done || lia).
  cbn [app fields_of]. rewrite Hr. destruct (fields_of_started (runes t) (s ++ [c])) as (more & rest & ->); [by destruct s|].
  exists more, rest. by rewrite <- app_assoc.
Qed.

(** ASCII text has no space when none of its bytes is one. *)
Lemma no_space_ascii s : forallb (λ c, (byte_val c <? 128)%N && negb (is_space_rune (byte_val c))) s = true → no_space s = true.
Proof.
  unfold no_space. induction s as [|c s IH]; [done|]. cbn [forallb]. rewrite !andb_true_iff. intros [[Hc Hs] H].
  rewrite runes_cons_low by lia. cbn [forallb fst]. rewrite Hs. by apply IH.
Qed.

(** The ASCII table, to evaluate the model with. *)
Definition ascii_upper : GoUpper := {| unicode_ToUpper r := if ((97 <=? r) && (r <=? 122))%N then (r - 32)%N else r |}.
#[export] Instance ascii_upper_laws : GoUpperLaws ascii_upper.
Proof. split. intros c Hc. byte_cases c; first [reflexivity|done]. Qed.
