(* ===== verification/Utf8Valid.v ===== *)
(** utf8.ValidString, and where a valid string can be cut: before a byte that
    starts a rune, one of which is among any four bytes of it. *)
From S2P Require Import Prelude Utf8 GoStrings GoFields.

(** utf8.ValidString *)
Definition ValidString (s : bytes) : bool :=
  forallb id (scan_gen (λ _, []) (λ _ s, Some (rune_width s, [rune_ok s])) [] 0 s).

Lemma ValidString_cons s : s ≠ [] → ValidString s = rune_ok s && ValidString (drop (rune_width s) s).
Proof.
  intros Hs. unfold ValidString.
  rewrite (scan_gen_hit (λ _, []) (λ _ s, Some (rune_width s, [rune_ok s])) [] s (rune_width s) [rune_ok s] Hs).
  - cbn [app forallb id]. f_equal. f_equal. by apply scan_blind.
  - apply step_hit_some; [done|]. by apply decode_rune_width.
Qed.

(** * What a valid rune looks like *)
Lemma second_is_cont v c : is_cont (second_lo v) (second_hi v) c = true → rune_start c = false.
Proof.
  unfold rune_start, is_cont, second_lo, second_hi. intros H. apply negb_false_iff. repeat case_match; lia.
Qed.
Lemma tail_is_cont c : is_cont 0x80 0xBF c = true → rune_start c = false.
Proof. unfold rune_start. by intros ->. Qed.

(** The bytes behind the first of a rune do not start one. *)
Lemma rune_inside s i c : 0 < i < rune_width s → s !! i = Some c → rune_start c = false.
Proof.
  destruct s as [|c0 t]; [done|]. unfold rune_width, decode_rune.
  destruct (utf8_width (byte_val c0)) as [|[|[|[|[|w]]]]]; destruct t as [|c1 [|c2 [|c3 t]]];
    repeat case_match; cbn [fst snd]; intros Hi; try lia; split_and_hyps;
    destruct i as [|[|[|[|i]]]]; cbn [lookup list_lookup]; try lia; intros [= <-];
    repeat match goal with HH : _ && _ = true |- _ => apply andb_true_iff in HH as [? ?] end;
    by first [eapply second_is_cont; eassumption|apply tail_is_cont].
Qed.

(** A rune is decoded from its own bytes. *)
Lemma decode_rune_take s n : rune_ok s = true → rune_width s ≤ n → decode_rune (take n s) = decode_rune s.
Proof.
  destruct s as [|c0 t]; [done|]. intros Hok Hn. pose proof (decode_rune_width (c0 :: t) ltac:(done)) as Hpos.
  destruct n as [|n]; [lia|]. cbn [take]. revert Hok Hn. unfold rune_ok, rune_width, decode_rune. clear Hpos.
  destruct (utf8_width (byte_val c0)) as [|[|[|[|[|w]]]]]; try done.
  - destruct t as [|c1 t]; [done|]. destruct (is_cont _ _ c1) eqn:E; [|done]. cbn [fst snd]. intros _ Hn.
    destruct n as [|n]; [lia|]. cbn [take]. by rewrite E.
  - destruct t as [|c1 [|c2 t]]; try done. destruct (is_cont _ _ c1 && _) eqn:E; [|done]. cbn [fst snd]. intros _ Hn.
    destruct n as [|[|n]]; try lia. cbn [take]. by rewrite E.
  - destruct t as [|c1 [|c2 [|c3 t]]]; try done. destruct (is_cont _ _ c1 && _ && _) eqn:E; [|done]. cbn [fst snd]. intros _ Hn.
    destruct n as [|[|[|n]]]; try lia. cbn [take]. by rewrite E.
Qed.

Lemma rune_width_le4 s : rune_width s ≤ 4.
Proof.
  destruct s as [|c0 t]; [cbn; lia|]. unfold rune_width, decode_rune. repeat case_match; cbn; lia.
Qed.

(** * Cutting a valid string *)
Lemma ValidString_take s n : ValidString s = true →
  (∀ c, s !! n = Some c → rune_start c = true) → ValidString (take n s) = true.
Proof.
  revert n. induction s as [|s Hs IH] using runes_ind; intros n Hv Hn; [by rewrite take_nil|].
  rewrite ValidString_cons in Hv by done. apply andb_true_iff in Hv as [Hok Hv].
  pose proof (decode_rune_width s Hs) as Hw.
  destruct (decide (n = 0)) as [->|Hn0]; [by rewrite take_0|].
  destruct (decide (n < rune_width s)) as [Hlt|Hge].
  { destruct (lookup_lt_is_Some_2 s n) as [c Hc]; [lia|]. pose proof (rune_inside s n c ltac:(lia) Hc).
    specialize (Hn c Hc). congruence. }
  pose proof (decode_rune_take s n Hok ltac:(lia)) as Hd.
  rewrite ValidString_cons by (destruct s, n; done). unfold rune_ok, rune_width. rewrite Hd.
  fold (rune_ok s). fold (rune_width s). rewrite Hok. cbn [andb]. rewrite skipn_firstn_comm.
  apply IH; [done|]. intros c. rewrite lookup_drop. intros Hc. apply Hn. rewrite <- Hc. f_equal. lia.
Qed.

(** One of any four bytes starts a rune. *)
Lemma rune_start_near s n : ValidString s = true → n < length s →
  ∃ m c, n - 3 ≤ m ≤ n ∧ s !! m = Some c ∧ rune_start c = true.
Proof.
  revert n. induction s as [|s Hs IH] using runes_ind; intros n Hv Hn; [cbn in Hn; lia|].
  rewrite ValidString_cons in Hv by done. apply andb_true_iff in Hv as [Hok Hv].
  pose proof (decode_rune_width s Hs) as Hw. pose proof (rune_width_le4 s).
  destruct (decide (n < rune_width s)) as [Hlt|Hge].
  - destruct s as [|c0 t]; [done|]. exists 0, c0. split; [lia|]. split; [done|].
    revert Hok. unfold rune_ok, decode_rune, rune_start, is_cont, utf8_width.
    repeat case_match; cbn; try done; intros _; apply negb_true_iff; lia.
  - destruct (IH (n - rune_width s)) as (m & c & Hm & Hc & Hst); [done|rewrite length_drop; lia|].
    exists (rune_width s + m), c. rewrite lookup_drop in Hc. split; [lia|]. done.
Qed.
