(* ===== verification/Semconv.v ===== *)
(** The attribute keys of semconv v1.39.0 the integrations write, and the value a
    span ends with when a key is written more than once: OpenTelemetry keeps the
    last. *)
From S2P Require Import Prelude Attribute.

(** * semconv v1.39.0 *)
Definition HTTPRequestMethodKey : bytes := #"http.request.method".
Definition HTTPRequestResendCountKey : bytes := #"http.request.resend_count".
Definition HTTPRouteKey : bytes := #"http.route".
Definition HTTPResponseStatusCodeKey : bytes := #"http.response.status_code".
Definition URLFullKey : bytes := #"url.full".
Definition DBSystemNameKey : bytes := #"db.system.name".
Definition DBNamespaceKey : bytes := #"db.namespace".
Definition DBOperationNameKey : bytes := #"db.operation.name".
Definition DBCollectionNameKey : bytes := #"db.collection.name".
Definition DBResponseReturnedRowsKey : bytes := #"db.response.returned_rows".
Definition DBQueryTextKey : bytes := #"db.query.text".
Definition DBOperationBatchSizeKey : bytes := #"db.operation.batch.size".
Definition ServerAddressKey : bytes := #"server.address".
Definition ServerPortKey : bytes := #"server.port".
Definition NetworkPeerAddressKey : bytes := #"network.peer.address".
Definition NetworkPeerPortKey : bytes := #"network.peer.port".
Definition CassandraCoordinatorIDKey : bytes := #"cassandra.coordinator.id".
Definition CassandraCoordinatorDCKey : bytes := #"cassandra.coordinator.dc".
Definition ErrorTypeKey : bytes := #"error.type".
Definition DBClientConnectionPoolNameKey : bytes := #"db.client.connection.pool.name".
Definition DBClientConnectionStateKey : bytes := #"db.client.connection.state".
Definition DBResponseStatusCodeKey : bytes := #"db.response.status_code".

(** * The value an attribute ends with *)
Definition value_of (key : bytes) (kvs : list KeyValue) : option attr_value :=
  snd <$> last (filter (λ a : KeyValue, a.1 = key) kvs).

Lemma value_of_app key l k :
  value_of key (l ++ k) = match value_of key k with Some v => Some v | None => value_of key l end.
Proof.
  unfold value_of. rewrite filter_app, last_app. by destruct (last (filter _ k)).
Qed.

Lemma value_of_None key l : value_of key l = None ↔ key ∉ l.*1.
Proof.
  unfold value_of. rewrite fmap_None, last_None. split.
  - intros Hf Hin. apply list_elem_of_fmap in Hin as (a & -> & Ha).
    assert (a ∈ filter (λ b : KeyValue, b.1 = a.1) l) as Hx by (by apply list_elem_of_filter).
    rewrite Hf in Hx. by apply elem_of_nil in Hx.
  - intros Hn. destruct (filter _ l) as [|a f] eqn:E; [done|]. exfalso. apply Hn.
    assert (a ∈ filter (λ b : KeyValue, b.1 = key) l) as [<- Ha]%list_elem_of_filter by (rewrite E; by left).
    by apply list_elem_of_fmap_2.
Qed.

(** A key written once has the value written with it, whatever came before. *)
Lemma value_of_unique key v l : NoDup l.*1 → (key, v) ∈ l → value_of key l = Some v.
Proof.
  induction l as [|[k w] l IH]; [by intros _ ?%elem_of_nil|]. cbn [fmap list_fmap fst]. intros [Hk Hd]%NoDup_cons.
  rewrite elem_of_cons. intros Hin. change ((k, w) :: l) with ([(k, w)] ++ l). rewrite value_of_app.
  destruct Hin as [[= -> ->]|Hin]; [|by rewrite (IH Hd Hin)].
  rewrite (proj2 (value_of_None k l)) by done. unfold value_of. cbn. by rewrite decide_True.
Qed.

(** What is written later is what a span ends with. *)
Lemma value_of_own key v user own : NoDup own.*1 → (key, v) ∈ own → value_of key (user ++ own) = Some v.
Proof. intros Hd Hin. by rewrite value_of_app, (value_of_unique key v). Qed.
Lemma value_of_other key user own : key ∉ own.*1 → value_of key (user ++ own) = value_of key user.
Proof. intros Hn. by rewrite value_of_app, (proj2 (value_of_None key own)). Qed.
