(* ===== verification/GoUrl.v ===== *)
(** The parts of net/url and package errors the client integrations use beyond
    what the redaction needs: the host and port of a URL, the resolution of a
    reference, which is an interface, and the search of a chain of errors. *)
From S2P Require Import Prelude Utf8 GoStrings GoCodec GoNum RedactDecode RedactText RedactError.

(** * net/url *)
(** splitHostPort, behind URL.Hostname and URL.Port. *)
Definition url_split (hostPort : bytes) : bytes * bytes :=
  let '(host, port) :=
    match CutLast hostPort ":" with
    | Some (h, p) => if forallb is_digit p then (h, p) else (hostPort, [])
    | None => (hostPort, [])
    end in
  (if HasPrefix host #"[" && bool_decide (last host = Some "]"%char) then take (length host - 2) (drop 1 host) else host, port).
Definition url_Hostname (u : URL) : bytes := (url_split (Host u)).1.
Definition url_Port (u : URL) : bytes := (url_split (Host u)).2.
Definition url_IsAbs (u : URL) : bool := negb (bool_decide (Scheme u = [])).
(** URL.ResolveReference. *)
Class UrlApi := { url_ResolveReference : URL → URL → URL }.

(** * errors.Is and errors.As

    What an error of a chain answers about itself: whether it is one of the
    sentinels, or says so in its Is method; the value it is, or its As method
    gives, for a type, written as reflect writes it; and the Err field of a
    *net.OpError. *)
Inductive sentinel := DeadlineExceeded | Canceled | UnexpectedEOF | BodyReadAfterClose.
#[export] Instance sentinel_eq_dec : EqDecision sentinel.
Proof. solve_decision. Defined.
Record error_answers := {
  answers_is : eref → sentinel → bool;
  answers_as : eref → bytes → option eref;
  OpError_Err : eref → option eref;
}.
(** The errors of a chain in the order Is and As visit them, to a depth: a chain
    that leads back to itself has no end for them. Their Unwrap methods do not
    panic here. *)
Section chain.
Context (σ : error_store).
Fixpoint error_nodes (depth : nat) (e : option eref) : list eref :=
  match e, depth with
  | Some r, S depth => r :: (next_links (σ r) ≫= error_nodes depth)
  | _, _ => []
  end.
Context (ans : error_answers) (depth : nat).
Definition errors_Is (e : option eref) (s : sentinel) : bool := existsb (λ r, answers_is ans r s) (error_nodes depth e).
Definition errors_As (e : option eref) (type : bytes) : option eref := head (omap (λ r, answers_as ans r type) (error_nodes depth e)).
End chain.
