(* ===== verification/CassandraCql.v ===== *)
(** cassandra/attributes.go: the contact point, and the operation, keyspace and
    table read from a CQL statement. *)
From S2P Require Import Prelude Utf8 GoStrings GoNum GoFields.

Record serverAddr := { host : bytes; port : Z }.
Definition no_server : serverAddr := {| host := []; port := 0 |}.
Definition contactPoint (hosts : list bytes) (defaultPort : Z) : serverAddr :=
  match hosts with
  | [] => no_server
  | h :: _ =>
    let first := TrimSpace h in
    if bool_decide (first = []) then no_server
    else match SplitHostPort first with
         | Some (host, p) => {| host := host; port := default defaultPort (Atoi p) |}
         | None => {| host := first; port := defaultPort |}
         end
  end.

(** * stripComments *)
Definition dquote : ascii := "034".
Definition squote : ascii := "'".
Definition bquote : ascii := "`".
Definition newline : ascii := "010".
Definition is_quote (c : ascii) : bool := byte_in [squote; dquote; bquote] c.

(** The bytes up to the closing quote, with it. *)
Fixpoint quoted_run (q : ascii) (s : bytes) : nat :=
  match s with
  | [] => 0
  | c :: s' => if bool_decide (c = q) then 1 else S (quoted_run q s')
  end.
(** One turn of the loop: what it consumes and writes. None is the default case,
    which copies a byte. *)
Definition strip_step (_ s : bytes) : option (nat * bytes) :=
  match s with
  | [] => None
  | c :: t =>
    if is_quote c then let n := S (quoted_run c t) in Some (n, take n s)
    else if prefixb #"--" s || prefixb #"//" s then
      match Index s [newline] with
      | None => Some (length s, [])
      | Some nl => Some (nl + 1, #" ")
      end
    else if prefixb #"/*" s then
      match Index s #"*/" with
      | None => Some (length s, [])
      | Some e => Some (e + 2, #" ")
      end
    else None
  end.
Definition stripComments (stmt : bytes) : bytes := rewrite_all strip_step stmt.

(** * Identifiers *)
Definition HasSuffixByte (s : bytes) (q : ascii) : bool := bool_decide (last s = Some q).
Definition unquote_with (token : bytes) (q : ascii) : option bytes :=
  if (2 <=? length token) && HasPrefix token [q] && HasSuffixByte token q
  then Some (ReplaceAll (take (length token - 2) (drop 1 token)) [q; q] [q])
  else None.
Definition unquoteIdentifier (token : bytes) : bytes :=
  if existsb (λ q, Nat.odd (Count token q)) [dquote; bquote] then []
  else default token (head (omap (unquote_with token) [dquote; bquote])).
Definition normalizeTable (token : bytes) : bytes * bytes :=
  let token := take_until #"(;," token in
  match CutLast token "." with
  | Some (keyspace, rest) => (unquoteIdentifier keyspace, unquoteIdentifier rest)
  | None => ([], unquoteIdentifier token)
  end.

(** * The target of a statement *)
Section parse.
Context `{U : GoUpper}.

Fixpoint afterKeyword_from (fields : list bytes) (keyword : bytes) : bytes * bytes :=
  match fields with
  | f :: ((next :: _) as rest) =>
    if bool_decide (ToUpper f = keyword) then normalizeTable next else afterKeyword_from rest keyword
  | _ => ([], [])
  end.
Definition afterKeyword (fields : list bytes) (keyword : bytes) : bytes * bytes :=
  afterKeyword_from (drop 1 fields) keyword.
Definition is_modifier (f : bytes) : bool := bool_decide (ToUpper f ∈ [ #"IF"; #"NOT"; #"EXISTS"]).
Fixpoint objectToken_from (fields : list bytes) : bytes * bytes :=
  match fields with
  | [] => ([], [])
  | f :: rest => if is_modifier f then objectToken_from rest else normalizeTable f
  end.
Definition objectToken (fields : list bytes) (start : nat) : bytes * bytes := objectToken_from (drop start fields).

Definition parseDDLTarget (fields : list bytes) : bytes * bytes :=
  if length fields <? 3 then ([], [])
  else
    let object := ToUpper (nth 1 fields []) in
    if bool_decide (object ∈ [ #"TABLE"; #"COLUMNFAMILY"]) then objectToken fields 2
    else if bool_decide (object ∈ [ #"KEYSPACE"; #"SCHEMA"]) then ((objectToken fields 2).2, [])
    else ([], []).
Definition parseTableFields (fields : list bytes) : bytes * bytes :=
  if length fields <? 2 then ([], [])
  else
    let verb := ToUpper (nth 0 fields []) in
    if bool_decide (verb ∈ [ #"SELECT"; #"DELETE"]) then afterKeyword fields #"FROM"
    else if bool_decide (verb = #"INSERT") then afterKeyword fields #"INTO"
    else if bool_decide (verb = #"UPDATE") then normalizeTable (nth 1 fields [])
    else if bool_decide (verb = #"TRUNCATE") then
      if bool_decide (ToUpper (nth 1 fields []) = #"TABLE") then objectToken fields 2 else objectToken fields 1
    else if bool_decide (verb ∈ [ #"CREATE"; #"DROP"; #"ALTER"]) then parseDDLTarget fields
    else ([], []).
(** The operation, the keyspace and the table. *)
Definition parseStatement (statement : bytes) : bytes * bytes * bytes :=
  let fields := Fields (stripComments statement) in
  match fields with
  | [] => ([], [], [])
  | f :: _ => (ToUpper f, (parseTableFields fields).1, (parseTableFields fields).2)
  end.
End parse.

Definition spanName (operation table : bytes) : bytes :=
  if bool_decide (operation = []) then #"cassandra"
  else if bool_decide (table = []) then #"cassandra." ++ operation
  else #"cassandra." ++ operation ++ #" " ++ table.

(** * What stripComments removes *)

(** A segment of a statement: a byte of code, a quoted run, a comment to the end
    of its line, a block comment, and the text that closes a block comment with
    the star that opened it. *)
Inductive segment :=
  | SCode (c : ascii)
  | SQuoted (q : ascii) (body : bytes)
  | SLine (slash : bool) (text : bytes)
  | SBlock (text : bytes)
  | SOverlap.
(** How a statement ends: as it should, or inside a quoted run or a comment. *)
Inductive ending := Ended | InQuoted (q : ascii) (body : bytes) | InLine (slash : bool) (text : bytes) | InBlock (text : bytes).
Definition line_mark (slash : bool) : bytes := if slash then #"//" else #"--".
Definition seg_text (g : segment) : bytes :=
  match g with
  | SCode c => [c]
  | SQuoted q body => q :: body ++ [q]
  | SLine slash text => line_mark slash ++ text ++ [newline]
  | SBlock text => #"/*" ++ text ++ #"*/"
  | SOverlap => #"/*/"
  end.
Definition seg_out (g : segment) : bytes :=
  match g with SCode _ | SQuoted _ _ => seg_text g | SLine _ _ | SBlock _ | SOverlap => #" " end.
Definition ending_text (e : ending) : bytes :=
  match e with
  | Ended => []
  | InQuoted q body => q :: body
  | InLine slash text => line_mark slash ++ text
  | InBlock text => #"/*" ++ text
  end.
Definition ending_out (e : ending) : bytes := match e with InQuoted _ _ => ending_text e | _ => [] end.

Definition starts_comment (s : bytes) : bool := prefixb #"--" s || prefixb #"//" s || prefixb #"/*" s.
(** [rest] is the text behind the segment. *)
Definition seg_ok (g : segment) (rest : bytes) : Prop :=
  match g with
  | SCode c => is_quote c = false ∧ starts_comment (c :: rest) = false
  | SQuoted q body => is_quote q = true ∧ q ∉ body
  | SLine _ text => newline ∉ text
  | SBlock text => ¬ #"/" `prefix_of` text ∧ Index (text ++ #"*/") #"*/" = Some (length text)
  | SOverlap => True
  end.
Definition ending_ok (e : ending) : Prop :=
  match e with
  | Ended => True
  | InQuoted q body => is_quote q = true ∧ q ∉ body
  | InLine _ text => newline ∉ text
  | InBlock text => ¬ #"/" `prefix_of` text ∧ Index text #"*/" = None
  end.
Definition text_of (l : list segment) (e : ending) : bytes := (l ≫= seg_text) ++ ending_text e.
Definition out_of (l : list segment) (e : ending) : bytes := (l ≫= seg_out) ++ ending_out e.
Fixpoint segs_ok (l : list segment) (e : ending) : Prop :=
  match l with
  | [] => ending_ok e
  | g :: l => seg_ok g (text_of l e) ∧ segs_ok l e
  end.

Lemma strip_hit s n out : s ≠ [] → strip_step [] s = Some (n, out) → 0 < n → stripComments s = out ++ stripComments (drop n s).
Proof.
  intros Hs Hstep Hn. unfold stripComments, rewrite_all.
  rewrite (scan_gen_hit _ strip_step [] s n out Hs) by by apply step_hit_some. f_equal. by apply scan_blind.
Qed.

Lemma strip_miss c s : strip_step [] (c :: s) = None → stripComments (c :: s) = c :: stripComments s.
Proof.
  intros Hstep. unfold stripComments, rewrite_all. rewrite scan_gen_miss by by apply step_hit_none.
  cbn [app]. f_equal. by apply scan_blind.
Qed.

Lemma quoted_run_closed q body t : q ∉ body → quoted_run q (body ++ q :: t) = S (length body).
Proof.
  induction body as [|c body IH]; intros Hq; cbn; [by rewrite bool_decide_true|].
  rewrite bool_decide_false by set_solver. rewrite IH by set_solver. done.
Qed.

Lemma quoted_run_open q body : q ∉ body → quoted_run q body = length body.
Proof.
  induction body as [|c body IH]; intros Hq; cbn; [done|].
  rewrite bool_decide_false by set_solver. rewrite IH by set_solver. done.
Qed.

Lemma Index_first p s i : Index s p = Some i → p `prefix_of` drop i s ∧ ∀ j, j < i → ¬ p `prefix_of` drop j s.
Proof.
  revert i. induction s as [|c s IH]; intros i; cbn [Index].
  - destruct (prefixb p []) eqn:E; [|done]. intros [= <-]. split; [by apply prefixb_spec|lia].
  - destruct (prefixb p (c :: s)) eqn:E; [intros [= <-]; split; [by apply prefixb_spec|lia]|].
    destruct (Index s p) as [k|] eqn:Ek; [|done]. intros [= <-]. destruct (IH k eq_refl) as [H1 H2].
    split; [done|]. intros [|j] Hj; [by apply prefixb_false|]. cbn. apply H2. lia.
Qed.

Lemma Index_at p s i : p `prefix_of` drop i s → (∀ j, j < i → ¬ p `prefix_of` drop j s) → Index s p = Some i.
Proof.
  revert i. induction s as [|c s IH]; intros i Hp Hj; cbn [Index].
  - rewrite drop_nil in Hp. destruct i as [|i].
    + apply prefixb_spec in Hp. by rewrite Hp.
    + destruct (Hj 0 ltac:(lia)). exact Hp.
  - destruct i as [|i].
    + apply prefixb_spec in Hp. cbn [drop] in Hp. by rewrite Hp.
    + rewrite (proj2 (prefixb_false _ _)) by (apply (Hj 0); lia).
      rewrite (IH i); [done|exact Hp|]. intros j Hji. apply (Hj (S j)). lia.
Qed.

Lemma Index_None p s : Index s p = None ↔ ∀ j, j ≤ length s → ¬ p `prefix_of` drop j s.
Proof.
  induction s as [|c s IH]; cbn [Index].
  - destruct (prefixb p []) eqn:E; split; try done.
    + intros H. destruct (H 0 ltac:(cbn; lia)). by apply prefixb_spec.
    + intros _ j _. rewrite drop_nil. by apply prefixb_false.
  - destruct (prefixb p (c :: s)) eqn:E.
    + split; [done|]. intros H. destruct (H 0 ltac:(cbn; lia)). by apply prefixb_spec.
    + destruct (Index s p) as [k|]; cbn.
      * split; [done|]. intros H. exfalso. assert (Some k = None) as [=]. apply IH. intros j Hj. apply (H (S j)). lia.
      * split; [|done]. intros _ [|j] Hj; [by apply prefixb_false|]. cbn. apply IH; [done|lia].
Qed.

(** The search for the end of a line, and of a block comment, from its start. *)
Lemma Index_line (mark text t : bytes) :
  newline ∉ mark → newline ∉ text → Index (mark ++ text ++ newline :: t) [newline] = Some (length mark + length text).
Proof.
  intros Hm Ht. rewrite <- length_app, app_assoc. assert (Hn : newline ∉ mark ++ text) by set_solver.
  revert Hn. generalize (mark ++ text). clear. intros s. induction s as [|c s IH]; intros Hn; cbn [app Index length].
  - done.
  - cbn [prefixb]. rewrite bool_decide_false by set_solver. cbn [andb]. by rewrite IH by set_solver.
Qed.

Lemma Index_no_byte c s : c ∉ s → Index s [c] = None.
Proof.
  induction s as [|d s IH]; intros Hc; [done|]. cbn [Index prefixb]. rewrite bool_decide_false by set_solver.
  cbn [andb]. by rewrite IH by set_solver.
Qed.

Lemma Index_app p s t i : Index s p = Some i → Index (s ++ t) p = Some i.
Proof.
  revert i. induction s as [|c s IH]; intros i; cbn [app Index].
  - destruct (prefixb p []) eqn:E; [|done]. intros [= <-]. destruct p; [|done]. by destruct t.
  - destruct (prefixb p (c :: s)) eqn:E.
    + intros [= <-]. apply prefixb_spec in E. assert (prefixb p (c :: s ++ t) = true) as ->; [|done].
      apply prefixb_spec. by apply (prefix_app_r _ (c :: s) t).
    + destruct (Index s p) as [k|] eqn:Ek; [|done]. intros [= <-]. rewrite (IH k eq_refl).
      assert (prefixb p (c :: s ++ t) = false) as ->; [|done].
      apply prefixb_false. apply prefixb_false in E. intros Hp. apply E.
      destruct (Index_first _ _ _ Ek) as [Hfit _]. apply prefix_length in Hfit. rewrite length_drop in Hfit.
      destruct Hp as [u Hu]. exists (take (length (c :: s) - length p) u).
      rewrite app_comm_cons in Hu. apply (f_equal (take (length (c :: s)))) in Hu.
      rewrite take_app_length in Hu. rewrite Hu at 1. rewrite take_app_ge by (cbn; lia). done.
Qed.

Lemma Index_block text t :
  ¬ #"/" `prefix_of` text → Index (text ++ #"*/") #"*/" = Some (length text) →
  Index ( #"/*" ++ text ++ #"*/" ++ t) #"*/" = Some (S (S (length text))).
Proof.
  intros Hslash Hi. apply (Index_app _ _ t) in Hi. rewrite <- app_assoc in Hi. revert Hi. cbn [app list_ascii_of_string].
  intros Hi. assert (Hstar : prefixb ["*"%char; "/"%char] ("*"%char :: text ++ "*"%char :: "/"%char :: t) = false).
  { apply prefixb_false. intros [u Hu]. destruct text as [|c text]; [done|]. cbn in Hu. injection Hu as -> _.
    apply Hslash. by exists text. }
  cbn [Index]. by rewrite Hstar, Hi.
Qed.

(** The segments of a statement are what the loop goes through. *)
Lemma strip_segment g rest : seg_ok g rest → stripComments (seg_text g ++ rest) = seg_out g ++ stripComments rest.
Proof.
  destruct g as [c|q body|slash text|text|]; cbn [seg_ok seg_text seg_out].
  - intros [Hq Hc]. cbn [app]. apply strip_miss. cbn [strip_step]. rewrite Hq.
    unfold starts_comment in Hc. apply orb_false_iff in Hc as [-> ->]. done.
  - intros [Hq Hb]. cbn [app]. rewrite <- app_assoc. cbn [app].
    rewrite (strip_hit _ (S (S (length body))) (q :: body ++ [q])); [|done| |lia].
    + cbn [drop]. rewrite (drop_app_ge body) by lia. replace (S (length body) - length body) with 1 by lia. cbn [drop app].
      by rewrite drop_0.
    + cbn [strip_step]. rewrite Hq, quoted_run_closed by done. cbn zeta. do 2 f_equal. cbn [take]. f_equal.
      rewrite take_app_ge by lia. by replace (S (length body) - length body) with 1 by lia.
  - intros Ht. rewrite <- !app_assoc. cbn [app].
    rewrite (strip_hit _ (length (line_mark slash) + length text + 1) #" "); [|by destruct slash| |lia].
    + rewrite app_assoc, cons_middle, app_assoc. by rewrite drop_app_length' by (rewrite !length_app; cbn; lia).
    + pose proof (Index_line (line_mark slash) text rest ltac:(by destruct slash; set_solver) Ht) as Hi.
      destruct slash; cbn [line_mark app list_ascii_of_string] in *; cbn [strip_step]; rewrite Hi; done.
  - intros [Hslash Hi]. rewrite <- !app_assoc.
    rewrite (strip_hit _ (S (S (length text)) + 2) #" "); [|done| |lia].
    + cbn [app list_ascii_of_string Nat.add drop]. rewrite drop_app_ge by lia.
      by replace (length text + 2 - length text) with 2 by lia.
    + pose proof (Index_block text rest Hslash Hi) as Hb. cbn [app list_ascii_of_string strip_step] in *. by rewrite Hb.
  - intros _. by rewrite (strip_hit _ 3 #" ") by (done || lia).
Qed.

Lemma strip_ending e : ending_ok e → stripComments (ending_text e) = ending_out e.
Proof.
  assert (Hall : ∀ s out, s ≠ [] → strip_step [] s = Some (length s, out) → stripComments s = out).
  { intros s out Hs H. rewrite (strip_hit s (length s) out) by (done || (destruct s; [done|cbn; lia])).
    rewrite drop_all. apply app_nil_r. }
  destruct e as [|q body|slash text|text]; cbn [ending_ok ending_text ending_out]; [done|..].
  - intros [Hq Hb]. apply Hall; [done|]. cbn [strip_step]. rewrite Hq, quoted_run_open by done. cbn zeta.
    cbn [take length]. by rewrite firstn_all.
  - intros Ht. apply Hall; [by destruct slash|].
    pose proof (Index_no_byte newline (line_mark slash ++ text) ltac:(destruct slash; set_solver)) as Hi.
    destruct slash; cbn [line_mark app list_ascii_of_string] in *; cbn [strip_step]; rewrite Hi; done.
  - intros [Hslash Hi]. apply Hall; [done|].
    assert (Hb : Index ( #"/*" ++ text) #"*/" = None).
    { cbn [app list_ascii_of_string Index]. assert (prefixb ["*"%char; "/"%char] ("*"%char :: text) = false) as Hstar.
      { apply prefixb_false. intros [u Hu]. destruct text as [|c text]; [done|]. cbn in Hu. injection Hu as -> _.
        apply Hslash. by exists text. }
      cbn [list_ascii_of_string] in *. rewrite Hstar, Hi. done. }
    cbn [app list_ascii_of_string strip_step] in *. by rewrite Hb.
Qed.

Lemma strip_segments l e : segs_ok l e → stripComments (text_of l e) = out_of l e.
Proof.
  induction l as [|g l IH]; cbn [segs_ok]; [apply strip_ending|]. intros [Hg Hl].
  unfold text_of, out_of. rewrite !bind_cons, <- !app_assoc. etrans; [apply strip_segment, Hg|]. f_equal. by apply IH.
Qed.

Lemma prefixb_true_app p s : prefixb p s = true → ∃ t, s = p ++ t.
Proof. intros [t ->]%prefixb_spec. eauto. Qed.

Lemma split_at_byte (c : ascii) (s : bytes) : (∃ a b, s = a ++ c :: b ∧ c ∉ a) ∨ c ∉ s.
Proof.
  destruct (decide (c ∈ s)) as [Hin|]; [left|by right].
  apply list_elem_of_split_l in Hin as (a & b & -> & Ha); eauto.
Qed.

(** Every statement is lexed in one way or another. *)
Lemma statement_lexed s : ∃ l e, segs_ok l e ∧ text_of l e = s.
Proof.
  remember (length s) as n eqn:Hn. revert s Hn. induction (lt_wf n) as [n _ IH]. intros s ->.
  assert (Hcons : ∀ g t, length t < length s → (∀ rest, rest = t → seg_ok g rest) → s = seg_text g ++ t → ∃ l e, segs_ok l e ∧ text_of l e = s).
  { intros g t Hlt Hg Hs. destruct (IH _ Hlt t eq_refl) as (l & e & Hl & Ht). exists (g :: l), e. split.
    - split; [by apply Hg|done].
    - unfold text_of in *. by rewrite bind_cons, <- app_assoc, Ht, Hs. }
  assert (Hend : ∀ e, ending_ok e → ending_text e = s → ∃ l e, segs_ok l e ∧ text_of l e = s) by (intros e ? ?; by exists [], e).
  destruct s as [|c t]; [by apply (Hend Ended)|].
  destruct (is_quote c) eqn:Eq.
  { destruct (split_at_byte c t) as [(body & t' & -> & Hb)|Hb].
    - apply (Hcons (SQuoted c body) t'); [cbn; rewrite length_app; cbn; lia|by intros|]. cbn. by rewrite <- app_assoc.
    - by apply (Hend (InQuoted c t)). }
  assert (Hline : ∀ slash rest, c :: t = line_mark slash ++ rest → ∃ l e, segs_ok l e ∧ text_of l e = c :: t).
  { intros slash rest Hrest. destruct (split_at_byte newline rest) as [(text & t' & -> & Ht)|Ht].
    - apply (Hcons (SLine slash text) t'); [|by intros|].
      + rewrite Hrest. repeat rewrite length_app. cbn. lia.
      + cbn [seg_text]. rewrite Hrest. by repeat rewrite <- app_assoc.
    - by apply (Hend (InLine slash rest)). }
  destruct (starts_comment (c :: t)) eqn:Ec.
  - unfold starts_comment in Ec. apply orb_true_iff in Ec as [[Ec|Ec]%orb_true_iff|Ec]; apply prefixb_true_app in Ec as [rest Hrest].
    + by apply (Hline false rest).
    + by apply (Hline true rest).
    + rewrite Hrest in Hend, Hcons |- *. destruct (prefixb #"/" rest) eqn:Es.
      { apply prefixb_true_app in Es as [t' ->]. apply (Hcons SOverlap t'); [cbn; lia|by intros|done]. }
      apply prefixb_false in Es. destruct (Index rest #"*/") as [i|] eqn:Ei; [|by apply (Hend (InBlock rest))].
      destruct (Index_first _ _ _ Ei) as [[t' Ht'] Hfirst].
      assert (Hi : i ≤ length rest).
      { destruct (le_gt_dec i (length rest)) as [|Hgt]; [done|]. rewrite drop_ge in Ht' by lia. done. }
      assert (Hrest' : rest = take i rest ++ #"*/" ++ t') by (rewrite <- Ht'; by rewrite take_drop).
      assert (Hlen : length (take i rest) = i) by by rewrite length_take_le.
      apply (Hcons (SBlock (take i rest)) t').
      * rewrite Hrest' at 1. repeat rewrite length_app. cbn. lia.
      * intros rest0 _. cbn [seg_ok]. split.
        { intros [u Hu]. apply Es. exists (u ++ #"*/" ++ t'). rewrite Hrest' at 1. rewrite Hu. by rewrite <- app_assoc. }
        rewrite Hlen. apply Index_at.
        { exists []. rewrite drop_app_length' by done. by rewrite app_nil_r. }
        intros j Hj [u Hu]. apply (Hfirst j Hj). exists (u ++ t'). rewrite Hrest' at 1.
        rewrite app_assoc, drop_app_le by (rewrite length_app; lia). rewrite Hu. by rewrite <- app_assoc.
      * cbn [seg_text]. rewrite Hrest' at 1. by repeat rewrite <- app_assoc.
  - apply (Hcons (SCode c) t); [cbn; lia|intros rest Hr; rewrite Hr; by split|done].
Qed.

(** What is left has no comment: stripping is idempotent. *)
Definition blank (g : segment) : segment := match g with SLine _ _ | SBlock _ | SOverlap => SCode " " | _ => g end.
Definition cut (e : ending) : ending := match e with InQuoted _ _ => e | _ => Ended end.

Lemma out_of_text l e : out_of l e = text_of (blank <$> l) (cut e).
Proof.
  unfold out_of, text_of. f_equal; [|by destruct e]. induction l as [|g l IH]; [done|].
  cbn [fmap list_fmap]. rewrite !bind_cons, IH. f_equal. by destruct g.
Qed.

Lemma starts_comment_head c s s' : (head s' = head s ∨ head s' = Some " "%char ∨ s' = []) → starts_comment (c :: s) = false → starts_comment (c :: s') = false.
Proof.
  unfold starts_comment. destruct s' as [|d s']; [by byte_cases c|]. intros Hh.
  destruct Hh as [Hh|[[= ->]|[=]]].
  - destruct s as [|d' s]; [done|]. injection Hh as ->. done.
  - intros _. by byte_cases c.
Qed.

Lemma blank_head l e : let s' := text_of (blank <$> l) (cut e) in head s' = head (text_of l e) ∨ head s' = Some " "%char ∨ s' = [].
Proof.
  destruct l as [|g l]; cbn zeta; unfold text_of; cbn [fmap list_fmap].
  - cbn. destruct e; [by right; right|by left|by right; right|by right; right].
  - rewrite !bind_cons, <- !app_assoc. destruct g as [c|q b|[]|t|]; cbn; auto.
Qed.

Lemma blank_ok l e : segs_ok l e → segs_ok (blank <$> l) (cut e).
Proof.
  induction l as [|g l IH]; cbn [segs_ok fmap list_fmap]; [by destruct e|]. intros [Hg Hl]. split; [|by apply IH].
  destruct g as [c|q b|sl t|t|]; cbn [blank seg_ok] in *; try done; [|split; [done|by destruct (text_of _ _)]..].
  destruct Hg as [Hq Hc]. split; [done|]. eapply starts_comment_head; [apply blank_head|exact Hc].
Qed.

(** What stripComments removes. Every statement is, in one of the ways listed,
    a sequence of code, quoted runs and comments; the code and the quoted runs are
    kept as they are, marks of comments inside quotes included, every comment is
    one space, and a comment or a quoted run that is never closed takes or keeps
    the rest. Nothing that looks like a comment is left outside quotes, so
    stripping is idempotent. *)
Theorem stripComments_exact (s : bytes) :
  (∃ l e, segs_ok l e ∧ text_of l e = s)
  ∧ (∀ l e, segs_ok l e → text_of l e = s →
       stripComments s = out_of l e
       ∧ ∃ l', segs_ok l' (cut e) ∧ text_of l' (cut e) = stripComments s ∧ Forall (λ g, blank g = g) l')
  ∧ stripComments (stripComments s) = stripComments s.
Proof.
  assert (H : ∀ l e, segs_ok l e → text_of l e = s → stripComments s = out_of l e
       ∧ ∃ l', segs_ok l' (cut e) ∧ text_of l' (cut e) = stripComments s ∧ Forall (λ g, blank g = g) l').
  { intros l e Hl <-. split; [by apply strip_segments|]. exists (blank <$> l). split_and!.
    - by apply blank_ok.
    - by rewrite strip_segments, out_of_text.
    - apply Forall_fmap, Forall_forall. intros [] _; done. }
  split_and!; [apply statement_lexed|exact H|].
  destruct (statement_lexed s) as (l & e & Hl & Ht). destruct (H l e Hl Ht) as (-> & _ & _).
  rewrite out_of_text. rewrite strip_segments by by apply blank_ok. rewrite out_of_text. f_equal.
  - rewrite <- list_fmap_compose. apply list_fmap_ext. by intros _ [] _.
  - by destruct e.
Qed.

(** * Reading the tokens of a statement *)

(** A token: bytes of code, a dash or a slash among them where it does not open a
    comment with the byte behind it, and quoted runs. *)
Definition code_byte (c : ascii) : bool := negb (is_quote c) && negb (byte_in #"-/" c).
Inductive token_ok : bytes → Prop :=
  | token_nil : token_ok []
  | token_code c t : code_byte c = true → token_ok t → token_ok (c :: t)
  | token_mark c d t : byte_in #"-/" c = true → starts_comment [c; d] = false → token_ok (d :: t) → token_ok (c :: d :: t)
  | token_quoted q body t : is_quote q = true → q ∉ body → token_ok t → token_ok (q :: body ++ q :: t).
(** What stands between tokens. *)
Inductive gap := GSpace (c : ascii) | GLine (slash : bool) (text : bytes) | GBlock (text : bytes).
Definition gap_text (g : gap) : bytes :=
  match g with
  | GSpace c => [c]
  | GLine slash text => seg_text (SLine slash text)
  | GBlock text => seg_text (SBlock text)
  end.
Definition gap_ok (g : gap) : Prop :=
  match g with
  | GSpace c => is_space_byte c = true
  | GLine slash text => seg_ok (SLine slash text) []
  | GBlock text => seg_ok (SBlock text) []
  end.
(** The text of a statement: its tokens, each with the gaps behind it. *)
Definition render (l : list (bytes * list gap)) : bytes := l ≫= λ t, t.1 ++ (t.2 ≫= gap_text).
Definition token_gap_ok (t : bytes * list gap) : Prop :=
  t.1 ≠ [] ∧ token_ok t.1 ∧ no_space t.1 = true ∧ t.2 ≠ [] ∧ Forall gap_ok t.2.

Lemma token_ok_app s t : token_ok s → token_ok t → token_ok (s ++ t).
Proof.
  intros Hs Ht. induction Hs as [|c s Hc Hs IH|c d s Hc Hd Hs IH|q body s Hq Hb Hs IH]; [done|..].
  - by apply token_code.
  - by apply token_mark.
  - cbn [app]. rewrite <- app_assoc. by apply token_quoted.
Qed.

Lemma token_code_all s : forallb code_byte s = true → token_ok s.
Proof. induction s as [|c s IH]; [constructor|]. cbn. intros [Hc Hs]%andb_true_iff. apply token_code; auto. Qed.

Lemma strip_token t rest : token_ok t → stripComments (t ++ rest) = t ++ stripComments rest.
Proof.
  induction 1 as [|c t Hc Ht IH|c d t Hc Hd Ht IH|q body t Hq Hb Ht IH]; [done|..].
  - cbn [app]. rewrite <- IH. apply (strip_segment (SCode c)). apply andb_true_iff in Hc as [Hq Hm]. split.
    + by apply negb_true_iff.
    + apply negb_true_iff in Hm. revert Hm. unfold starts_comment. byte_cases c; cbn; done.
  - cbn [app] in *. rewrite <- IH. apply (strip_segment (SCode c)). split.
    + revert Hc. by byte_cases c.
    + rewrite <- Hd. reflexivity.
  - cbn [app]. rewrite <- !app_assoc. cbn [app]. pose proof (strip_segment (SQuoted q body) (t ++ rest) (conj Hq Hb)) as Hs.
    cbn [seg_text seg_out app] in Hs. rewrite <- !app_assoc in Hs. cbn [app] in Hs. by rewrite Hs, IH.
Qed.

(** A gap leaves white space. *)
Lemma strip_gap g rest : gap_ok g → ∃ c, is_space_byte c = true ∧ stripComments (gap_text g ++ rest) = c :: stripComments rest.
Proof.
  destruct g as [c|slash text|text]; cbn [gap_ok gap_text].
  - intros Hc. exists c. split; [done|]. apply (strip_token [c]). apply token_code; [|constructor].
    revert Hc. unfold is_space_byte. byte_cases c; done.
  - intros Hg. exists " "%char. split; [done|]. exact (strip_segment (SLine slash text) rest Hg).
  - intros Hg. exists " "%char. split; [done|]. exact (strip_segment (SBlock text) rest Hg).
Qed.

Lemma Fields_gaps gs rest : Forall gap_ok gs → Fields (stripComments ((gs ≫= gap_text) ++ rest)) = Fields (stripComments rest).
Proof.
  induction 1 as [|g gs Hg _ IH]; [done|]. rewrite bind_cons, <- app_assoc.
  destruct (strip_gap g ((gs ≫= gap_text) ++ rest) Hg) as (c & Hc & ->). by rewrite Fields_space.
Qed.

Lemma Fields_render l rest :
  Forall token_gap_ok l → Fields (stripComments (render l ++ rest)) = l.*1 ++ Fields (stripComments rest).
Proof.
  induction 1 as [|[t gs] l (Hne & Ht & Hn & Hgs & Hok) _ IH]; [done|].
  cbn [fst snd] in *. unfold render in *. rewrite bind_cons. cbn [fst snd fmap list_fmap]. rewrite <- !app_assoc.
  rewrite strip_token by done. destruct gs as [|g gs]; [done|]. inversion Hok as [|? ? Hg Hgs']; subst.
  rewrite bind_cons, <- app_assoc. destruct (strip_gap g ((gs ≫= gap_text) ++ (l ≫= λ t, t.1 ++ (t.2 ≫= gap_text)) ++ rest) Hg) as (c & Hc & ->).
  rewrite Fields_app_space, Fields_word, Fields_gaps by done. cbn [app]. by rewrite IH.
Qed.

(** What ends the name of a table: nothing, white space, the start of a comment of
    any kind, closed or not, or a byte the parser cuts at; with anything behind it. *)
Definition ends_table (tail : bytes) : bool :=
  match tail with [] => true | c :: _ => is_space_byte c || byte_in #"(;," c || starts_comment tail end.

Lemma strip_code c s : is_quote c = false → starts_comment (c :: s) = false → stripComments (c :: s) = c :: stripComments s.
Proof. intros Hq Hc. exact (strip_segment (SCode c) s (conj Hq Hc)). Qed.

Lemma strip_comment_start s : starts_comment s = true → stripComments s = [] ∨ ∃ t, stripComments s = " "%char :: t.
Proof.
  intros Hc. assert (∃ n out, strip_step [] s = Some (n, out) ∧ 0 < n ∧ (out = #" " ∨ n = length s ∧ out = []))
    as (n & out & Hstep & Hn & Hout).
  { destruct s as [|c s]; [done|]. assert (Hq : is_quote c = false).
    { destruct (is_quote c) eqn:Eq; [|done]. revert Hc Eq. unfold starts_comment. cbn. by byte_cases c. }
    unfold strip_step. rewrite Hq. unfold starts_comment in Hc.
    destruct (prefixb #"--" (c :: s) || prefixb #"//" (c :: s)) eqn:E; cbn [orb] in Hc; [|rewrite Hc].
    all: destruct (Index (c :: s) _) as [i|]; eexists _, _; (split; [done|]); (split; [cbn; lia|auto]). }
  assert (s ≠ []) by (by intros ->). rewrite (strip_hit s n out) by done.
  destruct Hout as [->|[-> ->]]; [right; by eexists|left]. by rewrite drop_all.
Qed.

Lemma Fields_table t tail :
  t ≠ [] → token_ok t → no_space t = true → ends_table tail = true →
  ∃ suffix rest, Fields (stripComments (t ++ tail)) = (t ++ suffix) :: rest
                 ∧ (suffix = [] ∨ ∃ c s, suffix = c :: s ∧ byte_in #"(;," c = true).
Proof.
  intros Hne Ht Hn Hend. rewrite strip_token by done.
  assert (Hgap : ∀ c s, is_space_byte c = true → ∃ suffix rest, Fields (t ++ c :: s) = (t ++ suffix) :: rest
                 ∧ (suffix = [] ∨ ∃ c s, suffix = c :: s ∧ byte_in #"(;," c = true)).
  { intros c s Hc. exists [], (Fields s). rewrite Fields_app_space, Fields_word, app_nil_r by done. auto. }
  assert (Hnil : ∃ suffix rest, Fields (t ++ []) = (t ++ suffix) :: rest
                 ∧ (suffix = [] ∨ ∃ c s, suffix = c :: s ∧ byte_in #"(;," c = true)).
  { exists [], []. rewrite app_nil_r, Fields_word by done. auto. }
  destruct tail as [|c tail]; [exact Hnil|]. cbn [ends_table] in Hend.
  destruct (starts_comment (c :: tail)) eqn:Ecom.
  { destruct (strip_comment_start _ Ecom) as [->|(s & ->)]; [exact Hnil|by apply Hgap]. }
  rewrite orb_false_r in Hend. rewrite strip_code; [|revert Hend; by byte_cases c|done].
  destruct (is_space_byte c) eqn:Esp; [by apply Hgap|]. cbn [orb] in Hend.
  destruct (Fields_stuck t c (stripComments tail) Hn) as (more & rest & ->); [by revert Hend; byte_cases c|done|].
  exists (c :: more), rest. split; [done|right; eauto].
Qed.

(** * Identifiers *)
Inductive identifier := Plain (name : bytes) | Quoted (name : bytes).
Definition id_name (i : identifier) : bytes := match i with Plain n | Quoted n => n end.
(** CQL's quoting: every double quote of the name is doubled. *)
Definition doubled (name : bytes) : bytes := name ≫= λ c, if bool_decide (c = dquote) then [dquote; dquote] else [c].
Definition id_text (i : identifier) : bytes := match i with Plain n => n | Quoted n => dquote :: doubled n ++ [dquote] end.
(** A name without the characters the parser cuts at or splits by. *)
Definition name_byte (c : ascii) : bool := negb (byte_in #"(;,.`" c).
Definition id_ok (i : identifier) : bool :=
  match i with
  | Plain n => negb (bool_decide (n = [])) && forallb (λ c, name_byte c && code_byte c) n
  | Quoted n => forallb name_byte n
  end.

Lemma doubled_token n : token_ok (dquote :: doubled n ++ [dquote]).
Proof.
  assert (H : ∀ a, dquote ∉ a → token_ok (dquote :: a ++ doubled n ++ [dquote])).
  { induction n as [|c n IH]; intros a Ha.
    - change (dquote :: a ++ doubled [] ++ [dquote]) with (dquote :: a ++ dquote :: []). apply token_quoted; [done|done|constructor].
    - unfold doubled. rewrite bind_cons. case_bool_decide as Hc.
      + cbn [app]. apply token_quoted; [done|done|]. apply (IH []). set_solver.
      + cbn [app]. specialize (IH (a ++ [c])). rewrite <- app_assoc in IH. apply IH. set_solver. }
  apply (H []). set_solver.
Qed.

Lemma id_token i : id_ok i = true → token_ok (id_text i).
Proof.
  destruct i as [n|n]; cbn [id_ok id_text]; [|intros _; apply doubled_token].
  intros [_ H]%andb_true_iff. apply token_code_all. rewrite forallb_forall in *. intros c Hc. by apply H, andb_true_iff in Hc as [_ ?].
Qed.

Lemma ReplaceAll_doubled n : ReplaceAll (doubled n) [dquote; dquote] [dquote] = n.
Proof.
  unfold ReplaceAll, rewrite_all. enough (H : ∀ before, scan (replacing (literal [dquote; dquote]) (λ _, [dquote])) before 0 (doubled n) = n) by apply H.
  induction n as [|c n IH]; intros before; [done|].
  unfold doubled. rewrite bind_cons. case_bool_decide as Hc.
  - subst c. etrans; [apply (scan_prefix _ _ [dquote; dquote] [dquote]); [done|]|].
    + intros b. unfold replacing, literal. rewrite prefixb_app. done.
    + cbn [app]. f_equal. apply IH.
  - cbn [app]. rewrite scan_gen_miss; [cbn [app]; f_equal; apply IH|]. apply step_hit_none.
    unfold replacing, literal. cbn [prefixb]. by rewrite bool_decide_false by done.
Qed.

Lemma count_doubled n : Count (doubled n) dquote = 2 * Count n dquote.
Proof.
  unfold Count. induction n as [|c n IH]; [done|]. unfold doubled. rewrite bind_cons, count_byte_app, count_byte_cons.
  unfold doubled in IH. rewrite IH. assert (Hnil : count_byte dquote [] = 0) by done.
  case_bool_decide as Hc; rewrite !count_byte_cons, Hnil; [rewrite !decide_True by done|rewrite !decide_False by done]; lia.
Qed.

Lemma count_doubled_other n q : q ≠ dquote → Count (doubled n) q = Count n q.
Proof.
  intros Hq. unfold Count. induction n as [|c n IH]; [done|]. unfold doubled. rewrite bind_cons, count_byte_app, count_byte_cons.
  unfold doubled in IH. rewrite IH. case_bool_decide as Hc; rewrite !count_byte_cons.
  - subst c. rewrite !decide_False by done. done.
  - change (count_byte q []) with 0. lia.
Qed.

Lemma name_no_byte c q n : forallb (λ c, name_byte c) n = true → name_byte q = false → c = q → c ∉ n.
Proof.
  intros H Hq -> Hin. rewrite forallb_forall in H. apply list_elem_of_In, H in Hin. by rewrite Hin in Hq.
Qed.

Lemma id_names i : id_ok i = true → forallb (λ c, name_byte c) (id_name i) = true.
Proof.
  destruct i as [n|n]; cbn [id_ok id_name]; [|done]. intros [_ H]%andb_true_iff. rewrite forallb_forall in *.
  intros c Hc. by apply H, andb_true_iff in Hc as [? _].
Qed.

(** The bytes of an identifier as it is written. *)
Lemma doubled_bytes n c : c ∈ doubled n → c = dquote ∨ c ∈ n.
Proof. unfold doubled. rewrite list_elem_of_bind. intros (d & Hc & Hd). case_bool_decide; set_solver. Qed.

Lemma id_bytes i c : c ∈ id_text i → c = dquote ∨ c ∈ id_name i.
Proof.
  destruct i as [n|n]; cbn [id_text id_name]; [by right|].
  intros [->|[Hc|Hc]%elem_of_app]%elem_of_cons; [by left|by apply doubled_bytes|left; set_solver].
Qed.

Lemma id_no_byte i q : id_ok i = true → name_byte q = false → q ≠ dquote → q ∉ id_text i.
Proof.
  intros Hi Hq Hd Hin. apply id_bytes in Hin as [->|Hin]; [done|]. by apply (name_no_byte q q (id_name i)) in Hin; [|apply id_names|..].
Qed.

Lemma take_until_past set s t : forallb (λ c, negb (byte_in set c)) s = true → take_until set (s ++ t) = s ++ take_until set t.
Proof.
  induction s as [|c s IH]; [done|]. cbn. intros [Hc Hs]%andb_true_iff. apply negb_true_iff in Hc. rewrite Hc. by rewrite IH.
Qed.

Lemma unquote_plain n : forallb code_byte n = true → unquoteIdentifier n = n.
Proof.
  intros Hn. assert (Hc : ∀ q, is_quote q = true → q ∉ n).
  { intros q Hq Hin. rewrite forallb_forall in Hn. apply list_elem_of_In, Hn, andb_true_iff in Hin as [Hin _]. by rewrite Hq in Hin. }
  assert (Hz : ∀ q, is_quote q = true → Count n q = 0) by (intros q Hq; by apply count_byte_zero, Hc).
  assert (Hu : ∀ q, is_quote q = true → unquote_with n q = None).
  { intros q Hq. unfold unquote_with, HasPrefix. destruct n as [|c n]; [done|]. cbn [prefixb].
    rewrite (bool_decide_false (q = c)) by (intros ->; apply (Hc c Hq); left). cbn [andb]. by rewrite andb_false_r. }
  unfold unquoteIdentifier. cbn [existsb]. rewrite !Hz by done. cbn [Nat.odd orb]. cbn [omap list_omap]. by rewrite !Hu.
Qed.

Lemma unquote_quoted n : bquote ∉ n → unquoteIdentifier (dquote :: doubled n ++ [dquote]) = n.
Proof.
  intros Hn. assert (Hd : Count (dquote :: doubled n ++ [dquote]) dquote = 2 * (1 + Count n dquote)).
  { unfold Count. rewrite count_byte_cons, count_byte_app, decide_True by done. change (count_byte dquote [dquote]) with 1.
    pose proof (count_doubled n) as Hc. unfold Count in Hc. lia. }
  assert (Hb : Count (dquote :: doubled n ++ [dquote]) bquote = 0).
  { apply count_byte_zero. intros [|[Hin|Hin]%elem_of_app]%elem_of_cons; [done| |set_solver].
    apply doubled_bytes in Hin as [|]; [done|]. done. }
  unfold unquoteIdentifier. cbn [existsb]. rewrite Hd, Hb. rewrite Nat.odd_mul. cbn [Nat.odd orb andb negb Nat.even omap list_omap].
  assert (unquote_with (dquote :: doubled n ++ [dquote]) dquote = Some n) as ->; [|done].
  unfold unquote_with, HasPrefix, HasSuffixByte. rewrite length_cons, length_app. cbn [length].
  rewrite app_comm_cons, last_snoc, bool_decide_true by done. cbn [prefixb app]. rewrite bool_decide_true by done.
  replace (2 <=? S (length (doubled n) + 1)) with true by (symmetry; apply Nat.leb_le; lia). cbn [andb].
  replace (S (length (doubled n) + 1) - 2) with (length (doubled n)) by lia. cbn [drop]. rewrite drop_0, take_app_length.
  by rewrite ReplaceAll_doubled.
Qed.

Lemma unquote_id i : id_ok i = true → unquoteIdentifier (id_text i) = id_name i.
Proof.
  intros Hi. destruct i as [n|n]; cbn [id_text id_name].
  - apply unquote_plain. cbn in Hi. apply andb_true_iff in Hi as [_ H]. rewrite forallb_forall in *. intros c Hc. by apply H, andb_true_iff in Hc as [_ ?].
  - apply unquote_quoted. by apply (name_no_byte bquote bquote n Hi).
Qed.

(** * Tables *)
Record table_ref := { ref_keyspace : option identifier; ref_table : identifier }.
Definition ref_text (r : table_ref) : bytes :=
  match ref_keyspace r with Some k => id_text k ++ "."%char :: id_text (ref_table r) | None => id_text (ref_table r) end.
Definition ref_ok (r : table_ref) : bool :=
  match ref_keyspace r with Some k => id_ok k | None => true end && id_ok (ref_table r).
(** What may be stuck to a table in its token: a byte the parser cuts at, with
    anything behind it. *)
Definition suffix_ok (s : bytes) : bool := match s with [] => true | c :: _ => byte_in #"(;," c end.
Definition ref_target (r : table_ref) : bytes * bytes := (default [] (id_name <$> ref_keyspace r), id_name (ref_table r)).

Lemma id_uncut i : id_ok i = true → forallb (λ c, negb (byte_in #"(;," c)) (id_text i) = true.
Proof.
  intros Hi. apply forallb_forall. intros c Hc%list_elem_of_In. apply id_bytes in Hc as [->|Hc]; [done|].
  apply id_names in Hi. rewrite forallb_forall in Hi. apply list_elem_of_In, Hi in Hc. revert Hc. by byte_cases c.
Qed.

Lemma normalizeTable_ref r suffix : ref_ok r = true → suffix_ok suffix = true → normalizeTable (ref_text r ++ suffix) = ref_target r.
Proof.
  intros [Hk Ht]%andb_true_iff Hs. assert (Hcut : take_until #"(;," suffix = []).
  { destruct suffix as [|c suffix]; [done|]. cbn [suffix_ok] in Hs. cbn [take_until]. by rewrite Hs. }
  assert (Hdot : "."%char ∉ id_text (ref_table r)) by by apply id_no_byte.
  unfold normalizeTable, ref_text, ref_target. destruct (ref_keyspace r) as [k|]; cbn [fmap option_fmap option_map default].
  - rewrite take_until_past, Hcut, app_nil_r.
    + rewrite (proj2 (CutLast_spec _ _ (id_text k) (id_text (ref_table r)))) by done. by rewrite !unquote_id.
    + rewrite forallb_app. cbn [forallb]. by rewrite !id_uncut.
  - rewrite take_until_past, Hcut, app_nil_r by by apply id_uncut.
    rewrite (proj2 (CutLast_None _ _)) by done. by rewrite unquote_id.
Qed.

Lemma id_nonempty i : id_ok i = true → id_text i ≠ [].
Proof. destruct i as [n|n]; [|done]. cbn. intros [H _]%andb_true_iff. by apply negb_true_iff, bool_decide_eq_false in H. Qed.

Lemma ref_nonempty r : ref_ok r = true → ref_text r ≠ [].
Proof.
  unfold ref_ok, ref_text. intros [_ H]%andb_true_iff. destruct (ref_keyspace r) as [k|]; [|by apply id_nonempty].
  intros E%(f_equal length). rewrite length_app in E. cbn in E. lia.
Qed.

Lemma ref_token r : ref_ok r = true → token_ok (ref_text r).
Proof.
  unfold ref_ok, ref_text. intros [Hk Ht]%andb_true_iff. destruct (ref_keyspace r) as [k|]; [|by apply id_token].
  apply token_ok_app; [by apply id_token|]. apply (token_code "."%char); [done|]. by apply id_token.
Qed.

(** * Statements *)
(** Evaluates the tests on literals. *)
Ltac eval_decides :=
  repeat match goal with
  | |- context [bool_decide ?P] =>
    lazymatch P with context [ToUpper] => fail | _ => idtac end;
    let b := eval vm_compute in (bool_decide P) in
    match b with true => change (bool_decide P) with true | false => change (bool_decide P) with false end
  end; cbn iota.

Section statements.
Context `{U : GoUpper}.

(** The tokens before the table name, in the forms the parser knows, with the
    operation; keywords are in any case. *)
Inductive shape : list bytes → Prop :=
  | shape_from v cols k : ToUpper v ∈ [ #"SELECT"; #"DELETE"] → Forall (λ c, ToUpper c ≠ #"FROM") cols →
      ToUpper k = #"FROM" → shape (v :: cols ++ [k])
  | shape_into v words k : ToUpper v = #"INSERT" → Forall (λ c, ToUpper c ≠ #"INTO") words →
      ToUpper k = #"INTO" → shape (v :: words ++ [k])
  | shape_update v : ToUpper v = #"UPDATE" → shape [v]
  | shape_truncate v : ToUpper v = #"TRUNCATE" → shape [v]
  | shape_truncate_table v k : ToUpper v = #"TRUNCATE" → ToUpper k = #"TABLE" → shape [v; k]
  | shape_ddl v k modifiers : ToUpper v ∈ [ #"CREATE"; #"DROP"; #"ALTER"] → ToUpper k ∈ [ #"TABLE"; #"COLUMNFAMILY"] →
      Forall (λ m, is_modifier m = true) modifiers → shape (v :: k :: modifiers).
(** A table token that is not read as a keyword of its place. *)
Definition not_keyword (t : bytes) : Prop := is_modifier t = false ∧ ToUpper t ≠ #"TABLE".

Lemma afterKeyword_from_spec words k kw t rest :
  Forall (λ c, ToUpper c ≠ kw) words → ToUpper k = kw → afterKeyword_from (words ++ k :: t :: rest) kw = normalizeTable t.
Proof.
  intros Hw Hk. induction Hw as [|c words Hc Hw IH]; cbn [app afterKeyword_from].
  - by rewrite bool_decide_true.
  - destruct words as [|c' words]; cbn [app] in *; by rewrite bool_decide_false by done.
Qed.

Lemma objectToken_from_spec modifiers t rest :
  Forall (λ m, is_modifier m = true) modifiers → is_modifier t = false →
  objectToken_from (modifiers ++ t :: rest) = normalizeTable t.
Proof. intros Hm Ht. induction Hm as [|m ms Hm _ IH]; cbn [app objectToken_from]; [by rewrite Ht|by rewrite Hm]. Qed.

Lemma parseTableFields_shape pre t rest :
  shape pre → not_keyword t → parseTableFields (pre ++ t :: rest) = normalizeTable t.
Proof.
  intros Hs [Hm Htab]. unfold parseTableFields.
  rewrite (proj2 (Nat.ltb_ge _ _)) by (rewrite length_app; destruct Hs; cbn; lia).
  destruct Hs as [v cols k Hv Hc Hk|v cols k Hv Hc Hk|v Hv|v Hv|v k Hv Hk|v k ms Hv Hk Hms]; cbn [app nth].
  - rewrite bool_decide_true by done. unfold afterKeyword. cbn [drop]. rewrite <- app_assoc, ?drop_0. by apply afterKeyword_from_spec.
  - rewrite Hv. eval_decides. unfold afterKeyword. cbn [drop]. rewrite <- app_assoc, ?drop_0. by apply afterKeyword_from_spec.
  - rewrite Hv. by eval_decides.
  - rewrite Hv. eval_decides. rewrite (bool_decide_false (ToUpper t = _)) by done. unfold objectToken. cbn [drop].
    rewrite ?drop_0. by apply (objectToken_from_spec []).
  - rewrite Hv. eval_decides. rewrite (bool_decide_true (ToUpper k = _)) by done. unfold objectToken. cbn [drop].
    rewrite ?drop_0. by apply (objectToken_from_spec []).
  - assert (Hddl : parseDDLTarget (v :: k :: ms ++ t :: rest) = normalizeTable t).
    { unfold parseDDLTarget. rewrite (proj2 (Nat.ltb_ge _ _)) by (cbn; rewrite length_app; cbn; lia). cbn [nth].
      rewrite bool_decide_true by done. unfold objectToken. cbn [drop]. rewrite ?drop_0. by apply objectToken_from_spec. }
    rewrite Hddl. rewrite !elem_of_cons, elem_of_nil in Hv. destruct Hv as [Hv|[Hv|[Hv|[]]]]; rewrite Hv; by eval_decides.
Qed.

(** The token a table is read in. *)
Definition table_token (r : table_ref) (tail : bytes) : bytes := hd [] (Fields (stripComments (ref_text r ++ tail))).

(** C34: reading a statement back. The operation is the first token and the
    keyspace and table are those the statement names, a quoted identifier unquoted
    and its doubled quotes undone, for the forms the parser knows. Before the
    tokens up to the table and between them there may be any ASCII white space,
    closed line comments of both kinds and closed block comments whose text does
    not start with a slash (the code closes those too early: comment_closed_early).
    The tokens hold no white space, close their quotes, open no comment outside
    them and do not end in a dash or a slash outside them. The names hold none of
    the characters ( ; , . and backquote (a quoted name with one may be misread:
    quoted_identifier_misread), a plain name no quote, dash or slash, and the
    table's token is not a keyword of its place. The table may be followed by
    anything at all once ASCII white space, a comment of any kind, closed or not,
    an opening parenthesis, a semicolon, a comma or the end has ended it. *)
Theorem parseStatement_roundtrip (lead : list gap) (l : list (bytes * list gap)) (r : table_ref) (tail : bytes) :
  Forall gap_ok lead → Forall token_gap_ok l → shape l.*1 →
  ref_ok r = true → no_space (ref_text r) = true → not_keyword (table_token r tail) → ends_table tail = true →
  parseStatement ((lead ≫= gap_text) ++ render l ++ ref_text r ++ tail)
  = (ToUpper (hd [] l.*1), default [] (id_name <$> ref_keyspace r), id_name (ref_table r)).
Proof.
  intros Hlead Hl Hs Hr Hn Hk Hend. unfold parseStatement, table_token in *. rewrite Fields_gaps, Fields_render by done.
  destruct (Fields_table (ref_text r) tail) as (suffix & rest & E & Hsuf); [by apply ref_nonempty|by apply ref_token|done|done|].
  rewrite E in *. cbn [hd] in Hk. rewrite parseTableFields_shape, normalizeTable_ref by (done || by destruct Hsuf as [->|(c & s & -> & ?)]).
  unfold ref_target. by destruct Hs.
Qed.
End statements.

(** * What the tokens of a quoted identifier cost *)

(** A quoted identifier with a dot in it that the tokens or the cut split
    behind the dot is reported in part: what stands between the dot and the split
    is taken for the table, where the parser means to report nothing. *)
Theorem quoted_identifier_misread (a b c : bytes) (cut_at : ascii) :
  forallb (λ x, name_byte x && code_byte x) (a ++ b) = true → b ≠ [] → byte_in #"(;," cut_at = true →
  normalizeTable (dquote :: a ++ "."%char :: b) = ([], b)
  ∧ normalizeTable (id_text (Quoted (a ++ "."%char :: b ++ cut_at :: c))) = ([], b).
Proof.
  rewrite forallb_app. intros [Ha Hb]%andb_true_iff Hne Hcut.
  assert (Hsplit : ∀ x, forallb (λ c, name_byte c && code_byte c) x = true →
    forallb (λ c, name_byte c) x = true ∧ forallb code_byte x = true).
  { intros x Hx. rewrite !forallb_forall in *. split; intros y Hy; by apply Hx, andb_true_iff in Hy as [? ?]. }
  destruct (Hsplit a Ha) as [Hna Hca], (Hsplit b Hb) as [Hnb Hcb].
  assert (Hqb : "."%char ∉ b) by by apply (name_no_byte "."%char "."%char b Hnb).
  assert (Hcode : ∀ x, forallb code_byte x = true → dquote ∉ x).
  { intros x Hx Hin. rewrite forallb_forall in Hx. apply list_elem_of_In, Hx in Hin. done. }
  assert (Hks : unquoteIdentifier (dquote :: a) = []).
  { unfold unquoteIdentifier. cbn [existsb]. unfold Count. rewrite count_byte_cons, decide_True by done.
    rewrite (proj2 (count_byte_zero dquote a)) by by apply Hcode. done. }
  assert (Hcut_none : forallb (λ c, negb (byte_in #"(;," c)) (dquote :: a ++ "."%char :: b) = true).
  { cbn [forallb]. rewrite forallb_app. cbn [forallb].
    assert (Hsub : ∀ x, forallb (λ c, name_byte c) x = true → forallb (λ c, negb (byte_in #"(;," c)) x = true).
    { intros x Hx. rewrite !forallb_forall in *. intros y Hy. apply Hx in Hy. revert Hy. by byte_cases y. }
    by rewrite !Hsub. }
  assert (Hnorm : ∀ t, take_until #"(;," t = dquote :: a ++ "."%char :: b → normalizeTable t = ([], b)).
  { intros t Ht. unfold normalizeTable. rewrite Ht.
    rewrite (proj2 (CutLast_spec _ _ (dquote :: a) b)) by done. by rewrite Hks, unquote_plain. }
  split; apply Hnorm.
  - rewrite <- (app_nil_r (dquote :: a ++ "."%char :: b)) at 1. rewrite take_until_past by done. by rewrite app_nil_r.
  - assert (Hd : ∀ x, dquote ∉ x → doubled x = x).
    { clear. induction x as [|c x IH]; intros Hx; [done|]. unfold doubled. rewrite bind_cons, bool_decide_false by set_solver.
      cbn [app]. f_equal. apply IH. set_solver. }
    assert (id_text (Quoted (a ++ "."%char :: b ++ cut_at :: c)) = (dquote :: a ++ "."%char :: b) ++ doubled (cut_at :: c) ++ [dquote]) as ->.
    { cbn [id_text app]. f_equal. rewrite app_comm_cons, app_assoc. unfold doubled. rewrite bind_app. fold (doubled (a ++ "."%char :: b)).
      rewrite Hd by (apply Hcode in Hca, Hcb; set_solver). by rewrite <- app_assoc. }
    rewrite take_until_past by done. assert (take_until #"(;," (doubled (cut_at :: c) ++ [dquote]) = []) as ->; [|by rewrite app_nil_r].
    unfold doubled. rewrite bind_cons, bool_decide_false by (intros ->; done). cbn [app take_until]. by rewrite Hcut.
Qed.

(** * Two statements *)
Definition dq (s : bytes) : bytes := dquote :: s ++ [dquote].
Definition sample_tokens : list (bytes * list gap) :=
  [( #"select", [GSpace " "]); ( #"a-1,", [GSpace " "; GSpace " "]); ( #"b", [GLine false #" columns"]);
   ( #"From", [GBlock #" routing tag *"])].
Definition sample_ref : table_ref :=
  {| ref_keyspace := Some (Plain #"chat"); ref_table := Quoted ( #"Room" ++ [dquote] ++ #"s") |}.
Definition sample_tail : bytes := #"/*/ WHERE c = 'it''s -- here' // the rest".

Lemma sample_tokens_ok : Forall token_gap_ok sample_tokens.
Proof.
  assert (Hgap : gap_ok (GBlock #" routing tag *")) by (split; [by apply prefixb_false|reflexivity]).
  assert (Hline : gap_ok (GLine false #" columns")) by (by apply (bool_decide_unpack (newline ∉ #" columns"))).
  assert (Hmark : token_ok #"a-1,").
  { apply (token_code "a"); [done|]. apply (token_mark "-" "1"); [done|done|]. by apply token_code_all. }
  do 4 (apply Forall_cons_2; [split_and!; [done|first [exact Hmark|by apply token_code_all]|reflexivity|done|by repeat apply Forall_cons_2]|]).
  constructor.
Qed.

Lemma parseStatement_roundtrip_witness :
  let text := render sample_tokens ++ ref_text sample_ref ++ sample_tail in
  text = #"select a-1,  b-- columns" ++ [newline] ++ #"From/* routing tag **/chat." ++ dq ( #"Room" ++ [dquote; dquote] ++ #"s")
         ++ #"/*/ WHERE c = 'it''s -- here' // the rest"
  ∧ parseStatement (U := ascii_upper) text = ( #"SELECT", #"chat", #"Room" ++ [dquote] ++ #"s").
Proof.
  split; [vm_compute; reflexivity|].
  assert (E : parseStatement (U := ascii_upper) (([] ≫= gap_text) ++ render sample_tokens ++ ref_text sample_ref ++ sample_tail)
    = (ToUpper (U := ascii_upper) (hd [] sample_tokens.*1), #"chat", #"Room" ++ [dquote] ++ #"s")).
  { apply (parseStatement_roundtrip (U := ascii_upper) [] sample_tokens sample_ref sample_tail).
    - constructor.
    - exact sample_tokens_ok.
    - apply (shape_from #"select" [ #"a-1,"; #"b"] #"From"); [left| |reflexivity].
      repeat constructor; discriminate.
    - reflexivity.
    - reflexivity.
    - split; [reflexivity|vm_compute; discriminate].
    - reflexivity. }
  exact E.
Defined.

Lemma quoted_identifier_misread_witness :
  parseStatement (U := ascii_upper) ( #"SELECT * FROM " ++ dq #"message.archive,2026") = ( #"SELECT", [], #"archive").
Proof.
  pose proof (quoted_identifier_misread #"message" #"archive" #"2026" ","%char eq_refl ltac:(discriminate) eq_refl) as [_ H].
  unfold parseStatement. assert (Fields (stripComments ( #"SELECT * FROM " ++ dq #"message.archive,2026"))
    = [ #"SELECT"; #"*"; #"FROM"; id_text (Quoted #"message.archive,2026")]) as -> by (vm_compute; reflexivity).
  assert (parseTableFields (U := ascii_upper) [ #"SELECT"; #"*"; #"FROM"; id_text (Quoted #"message.archive,2026")] = ([], #"archive")) as ->.
  { etrans; [|exact H]. vm_compute. reflexivity. }
  vm_compute. reflexivity.
Defined.

(** A block comment whose text starts with a slash is taken to end there. *)
Lemma comment_closed_early :
  parseStatement (U := ascii_upper) #"SELECT * FROM /*/ hidden */ rooms" = ( #"SELECT", [], #"hidden").
Proof. vm_compute. reflexivity. Qed.
