(* ===== verification/Cassandra.v ===== *)
(** The cassandra integration: the configuration, the observer gocql calls, the
    batch entry points and the registry that finds a session's observer. What an
    observation emits is a list of spans and measurements; a driver host and an
    error are what their methods answer. *)
From S2P Require Import Prelude Utf8 GoStrings GoNum GoFields Attribute Semconv CassandraCql.

Definition DBSystemNameCassandra : KeyValue := (DBSystemNameKey, StringValue #"cassandra").

(** * observer.go: reserved keys *)
Definition attemptKey : bytes := #"cassandra.query.attempt".
Definition reservedAttrKeys : list bytes :=
  [DBSystemNameKey; DBNamespaceKey; DBOperationNameKey; DBCollectionNameKey; DBResponseReturnedRowsKey; DBQueryTextKey;
   DBOperationBatchSizeKey; ServerAddressKey; ServerPortKey; NetworkPeerAddressKey; NetworkPeerPortKey;
   CassandraCoordinatorIDKey; CassandraCoordinatorDCKey; ErrorTypeKey; DBClientConnectionPoolNameKey; attemptKey].
Definition reserved (a : KeyValue) : Prop := a.1 ∈ reservedAttrKeys.
Definition filterReservedAttrs (attrs : list KeyValue) : list KeyValue :=
  if existsb (λ a, bool_decide (reserved a)) attrs then filter (λ a, ¬ reserved a) attrs else attrs.

(** * options.go *)
Record config := {
  queryTextEnabled : bool; hostAttributesEnabled : bool; attrs : list KeyValue; cfg_poolName : bytes;
  collectionMetricLabelDisabled : bool;
}.
Definition collectionMetricLabel (c : config) : bool := negb (collectionMetricLabelDisabled c).
Definition zero_config : config := {|
  queryTextEnabled := false; hostAttributesEnabled := false; attrs := []; cfg_poolName := []; collectionMetricLabelDisabled := false;
|}.
Inductive Option_ :=
  | WithQueryText (enabled : bool)
  | WithCollectionMetricLabel (enabled : bool)
  | WithAttributes (kvs : list KeyValue)
  | WithHostAttributes (enabled : bool)
  | WithPoolName (name : bytes).
Definition apply_option (c : config) (o : Option_) : config :=
  {| queryTextEnabled := match o with WithQueryText b => b | _ => queryTextEnabled c end;
     hostAttributesEnabled := match o with WithHostAttributes b => b | _ => hostAttributesEnabled c end;
     attrs := match o with WithAttributes kvs => attrs c ++ kvs | _ => attrs c end;
     cfg_poolName := match o with WithPoolName n => n | _ => cfg_poolName c end;
     collectionMetricLabelDisabled := match o with WithCollectionMetricLabel b => negb b | _ => collectionMetricLabelDisabled c end |}.
Definition with_config_attrs (c : config) (kvs : list KeyValue) : config :=
  {| queryTextEnabled := queryTextEnabled c; hostAttributesEnabled := hostAttributesEnabled c; attrs := kvs;
     cfg_poolName := cfg_poolName c; collectionMetricLabelDisabled := collectionMetricLabelDisabled c |}.
(** A nil option is skipped. *)
Definition newConfig (opts : list (option Option_)) : config :=
  let cfg := foldl (λ c o, match o with Some o => apply_option c o | None => c end) zero_config opts in
  with_config_attrs cfg (filterReservedAttrs (attrs cfg)).

(** * session.go: poolName *)
(** net.JoinHostPort *)
Definition JoinHostPort (host port : bytes) : bytes :=
  if byte_in host ":" then #"[" ++ host ++ #"]:" ++ port else host ++ #":" ++ port.
Definition poolName (configured : bytes) (server : serverAddr) (keyspace : bytes) : bytes :=
  if negb (bool_decide (configured = [])) then configured
  else if bool_decide (host server = []) then
    (if negb (bool_decide (keyspace = [])) then #"cassandra/" ++ keyspace else #"cassandra")
  else
    let name := if (0 <? port server)%Z then #"cassandra/" ++ JoinHostPort (host server) (dec_Z (port server))
                else #"cassandra/" ++ host server in
    if negb (bool_decide (keyspace = [])) then name ++ #"/" ++ keyspace else name.

(** * What the driver hands over *)
(** gocql.HostInfo: the address it connects to, None when it has none. *)
Record HostInfo := { ConnectAddress : option bytes; Port : Z; HostID : bytes; DataCenter : bytes }.
(** An error: errors.Is with the context sentinels, its type, its text. *)
Record obs_error := { is_deadline : bool; is_canceled : bool; go_type : option bytes; err_message : bytes }.
Record ObservedQuery := {
  Statement : bytes; Keyspace : bytes; Rows : Z; Attempt : Z; q_Host : option HostInfo;
  q_Start : Z; q_End : Z; q_Err : option obs_error;
}.
Record ObservedConnect := { c_Host : option HostInfo; c_Start : Z; c_End : Z; c_Err : option obs_error }.
Record batch_entry := { Stmt : bytes }.
Record Batch := { batch_Keyspace : bytes; Entries : list batch_entry }.

Definition errorType (err : obs_error) : bytes :=
  if is_deadline err then #"context.DeadlineExceeded"
  else if is_canceled err then #"context.Canceled"
  else default #"_OTHER" (go_type err).

(** * observer.go *)
Record target := { operation : bytes; keyspace : bytes; table : bytes }.
Record observer := { cfg : config; server : serverAddr; obs_poolName : bytes }.
Definition newObserver (hosts : list bytes) (defaultPort : Z) (cluster_keyspace : bytes) (opts : list (option Option_)) : observer :=
  let cfg := newConfig opts in
  let server := contactPoint hosts defaultPort in
  {| cfg := cfg; server := server; obs_poolName := poolName (cfg_poolName cfg) server cluster_keyspace |}.

(** A finished span, and a measurement; a duration is in nanoseconds. *)
Record span := {
  span_name : bytes; span_start : Z; span_end : Z; span_attrs : list KeyValue; span_error : option bytes;
}.
Inductive telemetry :=
  | Span (s : span)
  | OperationDuration (nanoseconds : Z) (attrs : list KeyValue)
  | QueryAttempts (attrs : list KeyValue)
  | ConnectCount (attrs : list KeyValue)
  | ConnectDuration (nanoseconds : Z) (attrs : list KeyValue).

(** An attribute that is there when its text is not empty. *)
Definition text_attr (key value : bytes) : list KeyValue := if bool_decide (value = []) then [] else [(key, StringValue value)].
Definition appendServerAttrs (kvs : list KeyValue) (srv : serverAddr) : list KeyValue :=
  if bool_decide (host srv = []) then kvs
  else kvs ++ [(ServerAddressKey, StringValue (host srv))]
       ++ (if (0 <? port srv)%Z then [(ServerPortKey, IntValue (port srv))] else []).
Definition host_attrs (h : HostInfo) : list KeyValue :=
  match ConnectAddress h with
  | Some ip => (NetworkPeerAddressKey, StringValue ip) :: (if (0 <? Port h)%Z then [(NetworkPeerPortKey, IntValue (Port h))] else [])
  | None => []
  end ++ text_attr CassandraCoordinatorIDKey (HostID h) ++ text_attr CassandraCoordinatorDCKey (DataCenter h).
Definition baseAttrs (o : observer) (tgt : target) (srv : serverAddr) (h : option HostInfo) : list KeyValue :=
  appendServerAttrs
    (DBSystemNameCassandra :: text_attr DBOperationNameKey (operation tgt) ++ text_attr DBNamespaceKey (keyspace tgt)
     ++ text_attr DBCollectionNameKey (table tgt)) srv
  ++ match h with Some h => if hostAttributesEnabled (cfg o) then host_attrs h else [] | None => [] end.
Definition error_attrs (err : option obs_error) : list KeyValue :=
  match err with Some e => [(ErrorTypeKey, StringValue (errorType e))] | None => [] end.
Definition metricAttrs (o : observer) (tgt : target) (srv : serverAddr) (err : option obs_error) : list KeyValue :=
  appendServerAttrs
    (DBSystemNameCassandra :: text_attr DBOperationNameKey (operation tgt) ++ text_attr DBNamespaceKey (keyspace tgt)
     ++ (if collectionMetricLabel (cfg o) then text_attr DBCollectionNameKey (table tgt) else [])) srv
  ++ error_attrs err.
Definition queryServer (o : observer) (h : option HostInfo) : serverAddr :=
  match h with
  | Some h => match ConnectAddress h with Some ip => {| host := ip; port := Port h |} | None => server o end
  | None => server o
  end.

(** record: the span as it is ended, with error.type set on it, and the duration. *)
Definition record (o : observer) (name : bytes) (tgt : target) (srv : serverAddr) (start end_ : Z) (err : option obs_error)
    (kvs : list KeyValue) : list telemetry :=
  [Span {| span_name := name; span_start := start; span_end := end_;
           span_attrs := attrs (cfg o) ++ kvs ++ error_attrs err; span_error := err_message <$> err |};
   OperationDuration (Sub end_ start) (metricAttrs o tgt srv err)].

Section observe.
Context `{U : GoUpper}.

Definition query_target (q : ObservedQuery) : target :=
  let '(op, parsedKeyspace, tbl) := parseStatement (Statement q) in
  {| operation := op; keyspace := if bool_decide (parsedKeyspace = []) then Keyspace q else parsedKeyspace; table := tbl |}.
Definition query_attrs (o : observer) (q : ObservedQuery) : list KeyValue :=
  baseAttrs o (query_target q) (queryServer o (q_Host q)) (q_Host q)
  ++ [(DBResponseReturnedRowsKey, IntValue (Rows q)); (attemptKey, IntValue (Attempt q))]
  ++ (if queryTextEnabled (cfg o) then text_attr DBQueryTextKey (Statement q) else []).
Definition ObserveQuery (o : observer) (q : ObservedQuery) : list telemetry :=
  let tgt := query_target q in
  let srv := queryServer o (q_Host q) in
  record o (spanName (operation tgt) (table tgt)) tgt srv (q_Start q) (q_End q) (q_Err q) (query_attrs o q)
  ++ [QueryAttempts (metricAttrs o tgt srv (q_Err q))].

Definition connect_attrs (o : observer) (c : ObservedConnect) : list KeyValue :=
  appendServerAttrs [DBSystemNameCassandra; (DBClientConnectionPoolNameKey, StringValue (obs_poolName o))] (queryServer o (c_Host c))
  ++ error_attrs (c_Err c).
Definition ObserveConnect (o : observer) (c : ObservedConnect) : list telemetry :=
  ConnectCount (connect_attrs o c)
  :: match c_Err c with None => [ConnectDuration (Sub (c_End c) (c_Start c)) (connect_attrs o c)] | Some _ => [] end.

(** * batch.go *)
(** The loop of batchTargets: the namespace and whether it conflicts, the table,
    the qualified name it was compared under, and whether it conflicts. *)
Record batch_state := { resolvedNS : bytes; nsConflict : bool; resolvedTbl : bytes; resolvedKey : bytes; tblConflict : bool }.
Definition ns_step (resolved : bytes) (conflict : bool) (ks : bytes) : bytes * bool :=
  if conflict then (resolved, conflict)
  else if bool_decide (ks = []) then ([], true)
  else if bool_decide (resolved = []) then (ks, false)
  else if bool_decide (resolved = ks) then (resolved, false)
  else ([], true).
Definition tbl_step (resolved key : bytes) (conflict : bool) (ks tbl : bytes) : bytes * bytes * bool :=
  let k := ks ++ #"." ++ tbl in
  if conflict then (resolved, key, conflict)
  else if bool_decide (tbl = []) then ([], key, true)
  else if bool_decide (key = []) then (tbl, k, false)
  else if bool_decide (key = k) then (resolved, key, false)
  else ([], key, true).
Definition effective_target (session : bytes) (e : batch_entry) : bytes * bytes :=
  let '(_, ks, tbl) := parseStatement (Stmt e) in
  (if bool_decide (ks = []) then session else ks, tbl).
Definition batch_step (session : bytes) (st : batch_state) (e : batch_entry) : batch_state :=
  let '(ks, tbl) := effective_target session e in
  let '(ns, nc) := ns_step (resolvedNS st) (nsConflict st) ks in
  let '(t, k, tc) := tbl_step (resolvedTbl st) (resolvedKey st) (tblConflict st) ks tbl in
  {| resolvedNS := ns; nsConflict := nc; resolvedTbl := t; resolvedKey := k; tblConflict := tc |}.
Definition batchTargets (b : Batch) : bytes * bytes :=
  let st := foldl (batch_step (batch_Keyspace b))
    {| resolvedNS := []; nsConflict := false; resolvedTbl := []; resolvedKey := []; tblConflict := false |} (Entries b) in
  (if bool_decide (resolvedNS st = []) && negb (nsConflict st) then batch_Keyspace b else resolvedNS st, resolvedTbl st).
Definition batchTarget (namespace tbl : bytes) : target := {| operation := #"BATCH"; keyspace := namespace; table := tbl |}.
Definition batchQueryText (b : Batch) : bytes :=
  Join (filter (λ s, s ≠ []) (Stmt <$> Entries b)) #"; ".
Definition batchAttrs (o : observer) (b : Batch) (tgt : target) : list KeyValue :=
  let size := length (Entries b) in
  baseAttrs o tgt (server o) None
  ++ (if 0 <? size then [(DBOperationBatchSizeKey, IntValue (Z.of_nat size))] else [])
  ++ (if queryTextEnabled (cfg o) then text_attr DBQueryTextKey (batchQueryText b) else []).

(** instrumentBatch: [exec] is the driver's answer, with the times around it. The
    error it returns, and what it emits. *)
Definition instrumentBatch (session : option (option observer)) (batch : option Batch) (exec : Batch → option obs_error)
    (start end_ : Z) : (bytes + option obs_error) * list telemetry :=
  match session, batch with
  | None, _ => (inl #"cassandra: session must not be nil", [])
  | Some _, None => (inl #"cassandra: batch must not be nil", [])
  | Some None, Some b => (inr (exec b), [])
  | Some (Some o), Some b =>
    let err := exec b in
    let tgt := let '(ns, tbl) := batchTargets b in batchTarget ns tbl in
    (inr err, record o (spanName (operation tgt) (table tgt)) tgt (server o) start end_ err (batchAttrs o b tgt))
  end.
End observe.

(** * batch.go: the registry of sessions

    Observers are numbered as they are made. A session that is collected leaves a
    cleanup behind, which runs at any later time, and its address may be used
    again before it does. *)
Definition address := N.
Record registry := {
  sessionObservers : gmap address nat;  (* the sync.Map *)
  alive : gmap address nat;  (* the sessions, by their addresses *)
  cleanups : list (address * nat);  (* those that are gone and not yet cleaned up *)
  made : nat;
}.
Definition empty_registry : registry := {| sessionObservers := ∅; alive := ∅; cleanups := []; made := 0 |}.
Definition registerSession (r : registry) (s : address) : registry :=
  {| sessionObservers := <[s := made r]> (sessionObservers r); alive := <[s := made r]> (alive r);
     cleanups := cleanups r; made := S (made r) |}.
Definition lookupObserver (r : registry) (s : address) : option nat := sessionObservers r !! s.
(** CompareAndDelete *)
Definition CompareAndDelete (m : gmap address nat) (key : address) (prev : nat) : gmap address nat :=
  if bool_decide (m !! key = Some prev) then delete key m else m.
Inductive registry_step : registry → registry → Prop :=
  | step_new r s : alive r !! s = None → registry_step r (registerSession r s)
  | step_collect r s o : alive r !! s = Some o →
      registry_step r {| sessionObservers := sessionObservers r; alive := delete s (alive r);
                         cleanups := (s, o) :: cleanups r; made := made r |}
  | step_cleanup r pre s o post : cleanups r = pre ++ (s, o) :: post →
      registry_step r {| sessionObservers := CompareAndDelete (sessionObservers r) s o; alive := alive r;
                         cleanups := pre ++ post; made := made r |}.

Definition registry_ok (r : registry) : Prop :=
  (∀ s o, alive r !! s = Some o → sessionObservers r !! s = Some o ∧ (s, o) ∉ cleanups r)
  ∧ (∀ s o, sessionObservers r !! s = Some o → alive r !! s = Some o ∨ (s, o) ∈ cleanups r)
  ∧ (∀ s o, (s, o) ∈ cleanups r → o < made r) ∧ (∀ s o, alive r !! s = Some o → o < made r)
  ∧ NoDup (cleanups r).

Lemma registry_step_ok r r' : registry_ok r → registry_step r r' → registry_ok r'.
Proof.
  intros (Ha & Ht & Hc & Hm & Hd) Hstep. destruct Hstep as [r s Hs|r s o Hs|r pre s o post Hr];
    unfold registry_ok; cbn [sessionObservers alive cleanups made registerSession].
  - split_and!.
    + intros s' o [[<- <-]|[Hn Hs']]%lookup_insert_Some; [rewrite lookup_insert_eq; split; [done|]|].
      * intros Hin%Hc. lia.
      * rewrite lookup_insert_ne by done. by apply Ha.
    + intros s' o [[<- <-]|[Hn Hs']]%lookup_insert_Some; [left; by rewrite lookup_insert_eq|].
      rewrite lookup_insert_ne by done. by apply Ht.
    + intros s' o Hin%Hc. lia.
    + intros s' o [[<- <-]|[_ Hs'%Hm]]%lookup_insert_Some; lia.
    + done.
  - split_and!.
    + intros s' o' [Hn Hs']%lookup_delete_Some. destruct (Ha s' o' Hs') as [? ?]. split; [done|].
      rewrite not_elem_of_cons. split; [congruence|done].
    + intros s' o' Hs'. destruct (Ht s' o' Hs') as [Hl|Hl]; [|right; by right].
      destruct (decide (s = s')) as [->|Hn]; [|left; by rewrite lookup_delete_ne].
      right. rewrite Hs in Hl. injection Hl as ->. apply elem_of_cons. by left.
    + intros s' o' [[= -> ->]|Hin]%elem_of_cons; [by apply (Hm s)|by apply (Hc s')].
    + intros s' o' [_ Hs']%lookup_delete_Some. by apply (Hm s').
    + constructor; [by apply Ha|done].
  - assert (Hin : ∀ x, x ∈ cleanups r ↔ x = (s, o) ∨ x ∈ pre ++ post).
    { intros x. rewrite Hr. set_solver. }
    assert (Hout : (s, o) ∉ pre ++ post).
    { rewrite Hr in Hd. apply NoDup_app in Hd as (_ & H1 & [H2 _]%NoDup_cons). intros [Hp|Hp]%elem_of_app; [|done].
      apply (H1 (s, o) Hp). by left. }
    split_and!.
    + intros s' o' Hs'. destruct (Ha s' o' Hs') as [Hl Hno]. rewrite Hin in Hno. split; [|tauto].
      unfold CompareAndDelete. case_bool_decide as Hcmp; [|done].
      rewrite lookup_delete_ne; [done|]. intros ->. rewrite Hl in Hcmp. injection Hcmp as ->. tauto.
    + intros s' o'. unfold CompareAndDelete. case_bool_decide as Hcmp.
      * intros [Hn Hs']%lookup_delete_Some. destruct (Ht s' o' Hs') as [?|[[= -> ->]|?]%Hin]; [by left|done|by right].
      * intros Hs'. destruct (Ht s' o' Hs') as [?|[[= -> ->]|?]%Hin]; [by left|done|by right].
    + intros s' o' Hp. apply (Hc s'), Hin. by right.
    + intros s' o' Hs'. by apply (Hm s').
    + rewrite Hr in Hd. apply NoDup_app in Hd as (H1 & H2 & [H3 H4]%NoDup_cons). apply NoDup_app. split_and!; [done| |done].
      intros x Hx Hx2. apply (H2 x Hx). by right.
Qed.

(** C35: the registry of sessions. However sessions are made, collected and cleaned
    up, with addresses used again before the cleanup of their last session has
    run: a session that is alive is found with the observer made for it, whatever
    is found is a session's that is alive or waits for its cleanup, and once no
    cleanup is waiting exactly the sessions that are alive are found. *)
Theorem registry_exact (r : registry) :
  rtc registry_step empty_registry r →
  (∀ s o, alive r !! s = Some o → lookupObserver r s = Some o)
  ∧ (∀ s o, lookupObserver r s = Some o → alive r !! s = Some o ∨ (s, o) ∈ cleanups r)
  ∧ (cleanups r = [] → sessionObservers r = alive r).
Proof.
  intros Hr. assert (Hok : registry_ok r).
  { assert (Hinv : registry_ok empty_registry).
    { split_and!; cbn; try (by intros s o ?%elem_of_nil); try (intros s o; by rewrite lookup_empty). constructor. }
    revert Hinv. induction Hr as [r|r r' r'' Hs _ IH]; intros Hinv; [done|]. by apply IH, (registry_step_ok r). }
  destruct Hok as (Ha & Ht & _). unfold lookupObserver. split_and!; [intros s o H; by apply Ha|done|].
  intros Hc. apply map_eq. intros s. apply option_eq. intros o. split; [|intros H; by apply Ha].
  intros Hs. destruct (Ht s o Hs) as [?|Hin]; [done|]. rewrite Hc in Hin. by apply elem_of_nil in Hin.
Qed.

(** A session is collected and another made at its address before the cleanup of
    the first has run. *)
Definition sample_registry : registry :=
  {| sessionObservers := {[ 7%N := 1 ]}; alive := {[ 7%N := 1 ]}; cleanups := []; made := 2 |}.

Lemma registry_exact_witness :
  rtc registry_step empty_registry sample_registry ∧ lookupObserver sample_registry 7%N = Some 1.
Proof.
  assert (Hrun : rtc registry_step empty_registry sample_registry).
  { eapply rtc_l; [by apply (step_new _ 7%N)|].
    eapply rtc_l; [by apply (step_collect _ 7%N 0)|].
    eapply rtc_l; [by apply (step_new _ 7%N)|].
    eapply rtc_l; [by apply (step_cleanup _ [] 7%N 0 [])|]. vm_compute. apply rtc_refl. }
  split; [exact Hrun|]. by apply (proj1 (registry_exact sample_registry Hrun)).
Defined.

(** * The target of a batch *)
Lemma scan_replacing_bytes (m : bytes → bytes → option nat) new before s c :
  c ∈ scan (replacing m (λ _, new)) before 0 s → c ∈ s ∨ c ∈ new.
Proof.
  revert before s. apply (scan_ind copy_byte (replacing m (λ _, new)) (λ before s,
    c ∈ scan (replacing m (λ _, new)) before 0 s → c ∈ s ∨ c ∈ new)).
  - intros before H. by apply elem_of_nil in H.
  - intros before d s Hm IH. rewrite scan_gen_miss by done. rewrite elem_of_app. set_solver.
  - intros before s n out Hs Hn Hh IH. rewrite (scan_gen_hit _ _ _ _ _ _ Hs Hh). rewrite elem_of_app.
    unfold step_hit, replacing in Hh. destruct (m before s) as [[|k]|]; cbn in Hh; simplify_eq.
    intros [?|H]; [by right|]. apply IH in H as [H|?]; [left|by right].
    rewrite <- (take_drop (S k) s). apply elem_of_app. by right.
Qed.

Lemma unquoteIdentifier_bytes t c : c ∈ unquoteIdentifier t → c ∈ t ∨ c = dquote ∨ c = bquote.
Proof.
  unfold unquoteIdentifier. destruct (existsb _ _); [intros H; by apply elem_of_nil in H|].
  assert (Hw : ∀ q r, unquote_with t q = Some r → c ∈ r → c ∈ t ∨ c = q).
  { intros q r. unfold unquote_with. destruct (_ && _ && _); [|done]. intros [= <-] H.
    apply scan_replacing_bytes in H as [H|H]; [left|right; by apply list_elem_of_singleton in H].
    apply elem_of_take in H as (i & Hi & _). apply list_elem_of_lookup_2 in Hi. revert Hi.
    destruct t as [|d t]; [done|]. cbn [drop]. rewrite drop_0. by right. }
  cbn [omap list_omap]. destruct (unquote_with t dquote) as [r|] eqn:E1; cbn [head default].
  { intros H. destruct (Hw _ _ E1 H); auto. }
  destruct (unquote_with t bquote) as [r|] eqn:E2; cbn [head default]; [|by left].
  intros H. destruct (Hw _ _ E2 H); auto.
Qed.

Lemma normalizeTable_no_dot t : "."%char ∉ (normalizeTable t).2.
Proof.
  unfold normalizeTable. destruct (CutLast (take_until _ t) ".") as [[l r]|] eqn:E; cbn [snd];
    intros H; apply unquoteIdentifier_bytes in H as [H|[|]]; try done.
  - by apply CutLast_spec in E as [_ E].
  - by apply CutLast_None in E.
Qed.

Section batch.
Context `{U : GoUpper}.

Lemma parseTableFields_no_dot fields : "."%char ∉ (parseTableFields fields).2.
Proof.
  assert (Hnil : "."%char ∉ (@nil ascii)) by apply not_elem_of_nil.
  assert (Hafter : ∀ l kw, "."%char ∉ (afterKeyword_from l kw).2).
  { induction l as [|f [|g l] IH]; intros kw; [done|done|]. cbn [afterKeyword_from].
    destruct (bool_decide _); [apply normalizeTable_no_dot|apply IH]. }
  assert (Hobj : ∀ l, "."%char ∉ (objectToken_from l).2).
  { induction l as [|f l IH]; [done|]. cbn [objectToken_from]. destruct (is_modifier f); [done|apply normalizeTable_no_dot]. }
  unfold parseTableFields, parseDDLTarget, afterKeyword, objectToken.
  repeat match goal with |- context [if ?b then _ else _] => destruct b end; cbn [snd]; auto. apply normalizeTable_no_dot.
Qed.

Lemma effective_no_dot session e : "."%char ∉ (effective_target session e).2.
Proof.
  unfold effective_target, parseStatement. destruct (Fields _) as [|f l] eqn:E; [apply not_elem_of_nil|]. apply parseTableFields_no_dot.
Qed.

(** The qualified name tells the keyspace and the table apart. *)
Lemma qualified_inj ks ks' t t' : "."%char ∉ t → "."%char ∉ t' → ks ++ #"." ++ t = ks' ++ #"." ++ t' → ks = ks' ∧ t = t'.
Proof.
  intros Ht Ht' H. assert (H1 : CutLast (ks ++ "."%char :: t) "." = Some (ks, t)) by by apply CutLast_spec.
  assert (H2 : CutLast (ks' ++ "."%char :: t') "." = Some (ks', t')) by by apply CutLast_spec.
  change ( #"." ++ t) with ("."%char :: t) in H. change ( #"." ++ t') with ("."%char :: t') in H.
  rewrite H in H1. rewrite H1 in H2. by injection H2.
Qed.

(** The state of the loop after the statements with the targets [ts]. *)
Definition batch_inv (ts : list (bytes * bytes)) (st : batch_state) : Prop :=
  (if nsConflict st then resolvedNS st = [] ∧ ¬ ∃ ns, ns ≠ [] ∧ Forall (λ t, t.1 = ns) ts
   else (ts = [] ∧ resolvedNS st = []) ∨ (ts ≠ [] ∧ resolvedNS st ≠ [] ∧ Forall (λ t, t.1 = resolvedNS st) ts))
  ∧ (if tblConflict st then resolvedTbl st = [] ∧ ¬ ∃ t, t.2 ≠ [] ∧ Forall (λ u, u = t) ts
     else (ts = [] ∧ resolvedTbl st = [] ∧ resolvedKey st = [])
          ∨ (ts ≠ [] ∧ resolvedTbl st ≠ [] ∧ ∃ ks, resolvedKey st = ks ++ #"." ++ resolvedTbl st ∧ Forall (λ t, t = (ks, resolvedTbl st)) ts)).

Lemma Forall_snoc_all {A} (P : A → Prop) l x : Forall P (l ++ [x]) ↔ Forall P l ∧ P x.
Proof. by rewrite Forall_app, Forall_singleton. Qed.

Lemma batch_step_inv session ts st e :
  Forall (λ t : bytes * bytes, "."%char ∉ t.2) ts → batch_inv ts st → batch_inv (ts ++ [effective_target session e]) (batch_step session st e).
Proof.
  intros Hdots [Hns Htbl]. pose proof (effective_no_dot session e) as Hdot. unfold batch_step.
  destruct (effective_target session e) as [ks tbl]. cbn [fst snd] in *.
  destruct st as [ns nc t k tc]. cbn [resolvedNS nsConflict resolvedTbl resolvedKey tblConflict] in *.
  assert (Hne : ∀ x : bytes * bytes, ts ++ [x] ≠ []) by by destruct ts.
  assert (Hn : let '(ns', nc') := ns_step ns nc ks in
    if nc' then ns' = [] ∧ ¬ ∃ n, n ≠ [] ∧ Forall (λ t : bytes * bytes, t.1 = n) (ts ++ [(ks, tbl)])
    else (ts ++ [(ks, tbl)] = [] ∧ ns' = []) ∨ (ts ++ [(ks, tbl)] ≠ [] ∧ ns' ≠ [] ∧ Forall (λ t : bytes * bytes, t.1 = ns') (ts ++ [(ks, tbl)]))).
  { unfold ns_step. destruct nc.
    { destruct Hns as [Hr Hno]. split; [done|]. intros (n & Hn & Hf%Forall_snoc_all). apply Hno. exists n. tauto. }
    case_bool_decide as Hks.
    { split; [done|]. intros (n & Hn & [_ Hf]%Forall_snoc_all). cbn in Hf. congruence. }
    case_bool_decide as Hr.
    { right. destruct Hns as [[-> _]|(_ & ? & _)]; [|done]. split_and!; [done|done|]. by apply Forall_snoc_all. }
    destruct Hns as [[_ ?]|(Hts & _ & Hf)]; [done|]. case_bool_decide as Heq.
    { right. split_and!; [done|done|]. apply Forall_snoc_all. by split. }
    split; [done|]. intros (n & Hn & [Hf2 Hk]%Forall_snoc_all). cbn in Hk. destruct ts as [|x ts]; [done|].
    apply Forall_inv in Hf, Hf2. congruence. }
  assert (Ht : let '(t', k', tc') := tbl_step t k tc ks tbl in
    if tc' then t' = [] ∧ ¬ ∃ u, u.2 ≠ [] ∧ Forall (λ v, v = u) (ts ++ [(ks, tbl)])
    else (ts ++ [(ks, tbl)] = [] ∧ t' = [] ∧ k' = [])
      ∨ (ts ++ [(ks, tbl)] ≠ [] ∧ t' ≠ [] ∧ ∃ ks', k' = ks' ++ #"." ++ t' ∧ Forall (λ u, u = (ks', t')) (ts ++ [(ks, tbl)]))).
  { unfold tbl_step. destruct tc.
    { destruct Htbl as [Hr Hno]. split; [done|]. intros (n & Hn' & Hf%Forall_snoc_all). apply Hno. exists n. tauto. }
    case_bool_decide as Hks.
    { split; [done|]. intros (n & Hn' & [_ Hf]%Forall_snoc_all). subst n. done. }
    case_bool_decide as Hr.
    { right. destruct Htbl as [(-> & _)|(_ & _ & ks' & ? & _)]; [|exfalso; destruct ks'; cbn in *; congruence].
      split_and!; [done|done|]. exists ks. split; [done|]. by apply Forall_snoc_all. }
    destruct Htbl as [(_ & _ & ?)|(Hts & Htne & ks' & Hk & Hf)]; [done|].
    assert (Hdt : "."%char ∉ t).
    { destruct ts as [|x ts]; [done|]. apply Forall_inv in Hf, Hdots. by subst x. }
    case_bool_decide as Heq.
    { rewrite Hk in Heq. apply qualified_inj in Heq as [-> ->]; [|done|done]. right. split_and!; [done|done|].
      exists ks. split; [done|]. apply Forall_snoc_all. by split. }
    split; [done|]. intros (u & Hu & [Hf2 Hlast]%Forall_snoc_all). destruct ts as [|x ts]; [done|].
    apply Forall_inv in Hf, Hf2. subst; by simplify_eq. }
  destruct (ns_step ns nc ks) as [ns' nc'], (tbl_step t k tc ks tbl) as [[t' k'] tc']. split; [exact Hn|exact Ht].
Qed.

(** The target of a batch. A namespace is reported exactly when every statement
    addresses that keyspace, by its qualifier or the session's keyspace, or there
    is none and it is the session's; a table exactly when there are statements and
    all address that table of one keyspace. *)
Theorem batchTargets_exact (b : Batch) :
  let ts := effective_target (batch_Keyspace b) <$> Entries b in
  (∀ ns, ns ≠ [] → (batchTargets b).1 = ns ↔
     (Entries b = [] ∧ batch_Keyspace b = ns) ∨ (Entries b ≠ [] ∧ Forall (λ t, t.1 = ns) ts))
  ∧ (∀ tbl, tbl ≠ [] → (batchTargets b).2 = tbl ↔ Entries b ≠ [] ∧ ∃ ks, Forall (λ t, t = (ks, tbl)) ts).
Proof.
  cbn zeta. unfold batchTargets. set (init := {| resolvedNS := []; nsConflict := _; resolvedTbl := _; resolvedKey := _; tblConflict := _ |}).
  set (step := batch_step (batch_Keyspace b)).
  assert (Hinv : ∀ l ts st, Forall (λ t : bytes * bytes, "."%char ∉ t.2) ts → batch_inv ts st →
    batch_inv (ts ++ (effective_target (batch_Keyspace b) <$> l)) (foldl step st l)).
  { induction l as [|e l IH]; intros ts st Hd Hst; cbn; [by rewrite app_nil_r|].
    rewrite cons_middle, app_assoc. apply IH; [|by apply batch_step_inv].
    apply Forall_snoc_all. split; [done|]. apply effective_no_dot. }
  assert (Hfin : batch_inv (effective_target (batch_Keyspace b) <$> Entries b) (foldl step init (Entries b))).
  { apply (Hinv (Entries b) [] init); [constructor|]. split; left; done. }
  destruct (foldl step init (Entries b)) as [ns nc t k tc]. unfold batch_inv in Hfin.
  cbn [resolvedNS nsConflict resolvedTbl resolvedKey tblConflict fst snd] in *.
  assert (Hts : effective_target (batch_Keyspace b) <$> Entries b = [] ↔ Entries b = []) by (by destruct (Entries b)).
  destruct Hfin as [Hn Ht]. split.
  - intros n Hne. destruct nc; rewrite ?andb_false_r, ?andb_true_r.
    + destruct Hn as [-> Hno]. split; [congruence|]. intros [[He _]|[_ Hf]]; exfalso; apply Hno; exists n; (split; [done|]); [|done].
      by rewrite He.
    + case_bool_decide as Hr.
      * destruct Hn as [[He _]|(_ & ? & _)]; [|done]. apply Hts in He. rewrite He. split; [by left|]. intros [[_ ?]|[? _]]; done.
      * destruct Hn as [[_ ?]|(He & _ & Hf)]; [done|]. split; [intros <-; right; by rewrite <- Hts|].
        intros [[He' _]|[_ Hf2]]; [by rewrite Hts in He|]. destruct (_ <$> _) as [|x l]; [done|]. apply Forall_inv in Hf, Hf2. congruence.
  - intros n Hne. destruct tc.
    + destruct Ht as [-> Hno]. split; [congruence|]. intros [_ [ks Hf]]. exfalso. apply Hno. by exists (ks, n).
    + destruct Ht as [(He & -> & _)|(He & _ & ks & _ & Hf)].
      * split; [congruence|]. intros [He' _]. by apply Hts in He.
      * split; [intros <-; rewrite <- Hts; eauto|]. intros [_ [ks2 Hf2]]. destruct (_ <$> _) as [|x l]; [done|].
        apply Forall_inv in Hf, Hf2. congruence.
Qed.
End batch.

(** * What an observation emits *)
Definition server_keys : list bytes := [ServerAddressKey; ServerPortKey].
Definition host_keys : list bytes := [NetworkPeerAddressKey; NetworkPeerPortKey; CassandraCoordinatorIDKey; CassandraCoordinatorDCKey].
(** The labels the metrics of this package may have. *)
Definition metric_keys : list bytes := [DBSystemNameKey; DBOperationNameKey; DBNamespaceKey; DBCollectionNameKey] ++ server_keys ++ [ErrorTypeKey].

Lemma text_attr_keys k v : (text_attr k v).*1 `sublist_of` [k].
Proof. unfold text_attr. case_bool_decide; [apply sublist_nil_l|done]. Qed.

Lemma text_attr_key k v : k ∈ (text_attr k v).*1 ↔ v ≠ [].
Proof. unfold text_attr. case_bool_decide; cbn; [rewrite elem_of_nil|rewrite list_elem_of_singleton]; tauto. Qed.

Lemma appendServerAttrs_app kvs srv : appendServerAttrs kvs srv = kvs ++ appendServerAttrs [] srv.
Proof. unfold appendServerAttrs. case_bool_decide; [by rewrite app_nil_r|done]. Qed.

Lemma server_attrs_keys srv : (appendServerAttrs [] srv).*1 `sublist_of` server_keys.
Proof.
  unfold appendServerAttrs. case_bool_decide; [apply sublist_nil_l|]. cbn. apply sublist_skip.
  destruct (0 <? port srv)%Z; [done|apply sublist_nil_l].
Qed.

Lemma host_attrs_keys h : (host_attrs h).*1 `sublist_of` host_keys.
Proof.
  unfold host_attrs. rewrite !fmap_app. apply (sublist_app _ [NetworkPeerAddressKey; NetworkPeerPortKey]);
    [|apply (sublist_app _ [CassandraCoordinatorIDKey]); apply text_attr_keys].
  destruct (ConnectAddress h) as [ip|]; [|apply sublist_nil_l]. cbn. apply sublist_skip.
  destruct (0 <? Port h)%Z; [done|apply sublist_nil_l].
Qed.

Lemma error_attrs_keys err : (error_attrs err).*1 `sublist_of` [ErrorTypeKey].
Proof. destruct err; [done|apply sublist_nil_l]. Qed.

(** The attributes of the target, with or without the collection. *)
Definition target_attrs (collection : bool) (tgt : target) : list KeyValue :=
  DBSystemNameCassandra :: text_attr DBOperationNameKey (operation tgt) ++ text_attr DBNamespaceKey (keyspace tgt)
  ++ (if collection then text_attr DBCollectionNameKey (table tgt) else []).

Lemma target_attrs_keys collection tgt :
  (target_attrs collection tgt).*1 `sublist_of` [DBSystemNameKey; DBOperationNameKey; DBNamespaceKey; DBCollectionNameKey].
Proof.
  unfold target_attrs. cbn. rewrite !fmap_app. apply sublist_skip.
  apply (sublist_app _ [DBOperationNameKey]); [apply text_attr_keys|].
  apply (sublist_app _ [DBNamespaceKey]); [apply text_attr_keys|].
  destruct collection; [apply text_attr_keys|apply sublist_nil_l].
Qed.

Lemma baseAttrs_eq o tgt srv h :
  baseAttrs o tgt srv h = target_attrs true tgt ++ appendServerAttrs [] srv
    ++ match h with Some h => if hostAttributesEnabled (cfg o) then host_attrs h else [] | None => [] end.
Proof. unfold baseAttrs. by rewrite appendServerAttrs_app, <- app_assoc. Qed.

Lemma metricAttrs_eq o tgt srv err :
  metricAttrs o tgt srv err = target_attrs (collectionMetricLabel (cfg o)) tgt ++ appendServerAttrs [] srv ++ error_attrs err.
Proof. unfold metricAttrs. by rewrite appendServerAttrs_app, <- app_assoc. Qed.

Lemma metricAttrs_keys o tgt srv err : (metricAttrs o tgt srv err).*1 `sublist_of` metric_keys.
Proof.
  rewrite metricAttrs_eq, !fmap_app. unfold metric_keys.
  apply sublist_app; [apply target_attrs_keys|]. apply sublist_app; [apply server_attrs_keys|apply error_attrs_keys].
Qed.

(** What a metric is labelled with is on the span. *)
Lemma metricAttrs_on_span o tgt srv h err more :
  metricAttrs o tgt srv err ⊆ baseAttrs o tgt srv h ++ more ++ error_attrs err.
Proof.
  rewrite metricAttrs_eq, baseAttrs_eq. unfold target_attrs. destruct (collectionMetricLabel (cfg o)); set_solver.
Qed.

(** The keys of a span, in their order; [more] are those of its kind. *)
Definition span_keys (more : list bytes) : list bytes :=
  ([DBSystemNameKey; DBOperationNameKey; DBNamespaceKey; DBCollectionNameKey] ++ server_keys ++ host_keys)
  ++ more ++ [DBQueryTextKey] ++ [ErrorTypeKey].

Lemma span_attrs_keys o tgt srv h (more : list KeyValue) keys text err :
  more.*1 `sublist_of` keys →
  (baseAttrs o tgt srv h ++ (more ++ (if queryTextEnabled (cfg o) then text_attr DBQueryTextKey text else [])) ++ error_attrs err).*1
  `sublist_of` span_keys keys.
Proof.
  intros Hmore. rewrite baseAttrs_eq, !fmap_app. unfold span_keys. rewrite <- (app_assoc (more.*1)). apply sublist_app.
  - apply sublist_app; [apply target_attrs_keys|]. apply sublist_app; [apply server_attrs_keys|].
    destruct h as [h|]; [|apply sublist_nil_l]. destruct (hostAttributesEnabled _); [apply host_attrs_keys|apply sublist_nil_l].
  - apply sublist_app; [done|]. apply sublist_app; [|apply error_attrs_keys].
    destruct (queryTextEnabled _); [apply text_attr_keys|apply sublist_nil_l].
Qed.

Lemma newConfig_attrs opts : Forall (λ a, ¬ reserved a) (attrs (newConfig opts)).
Proof.
  unfold newConfig, with_config_attrs, filterReservedAttrs. cbn [attrs]. destruct (existsb _ _) eqn:E.
  - apply Forall_forall. by intros a [Ha _]%list_elem_of_filter.
  - apply Forall_forall. intros a Ha Hr. apply not_true_iff_false in E. apply E, existsb_exists.
    exists a. split; [by apply list_elem_of_In|by apply bool_decide_eq_true].
Qed.

Section observed.
Context `{U : GoUpper}.

(** The attributes of this package's own that a span has, and the labels of the
    measurements beside it, as they should be for the text, the error and whether
    the collection is known. *)
Record observed_ok (o : observer) (own labels : list KeyValue) (text : bytes) (collection : bytes) (err : option obs_error) : Prop := {
  ok_nodup : NoDup own.*1;
  ok_reserved : Forall reserved own;
  ok_text : DBQueryTextKey ∈ own.*1 ↔ queryTextEnabled (cfg o) = true ∧ text ≠ [];
  ok_host : hostAttributesEnabled (cfg o) = false → Forall (λ a, a.1 ∉ host_keys) own;
  ok_error : ErrorTypeKey ∈ own.*1 ↔ is_Some err;
  ok_labels : labels.*1 `sublist_of` metric_keys;
  ok_label_values : labels ⊆ own;
  ok_collection : DBCollectionNameKey ∈ labels.*1 ↔ collectionMetricLabel (cfg o) = true ∧ collection ≠ [];
}.

Lemma not_in_sublist k (l l' : list bytes) : l `sublist_of` l' → k ∉ l' → k ∉ l.
Proof. intros Hs Hk Hin. apply Hk. by eapply sublist_subseteq. Qed.

Lemma observed o tgt srv h (more : list KeyValue) keys text err :
  more.*1 `sublist_of` keys → keys = [DBResponseReturnedRowsKey; attemptKey] ∨ keys = [DBOperationBatchSizeKey] →
  observed_ok o (baseAttrs o tgt srv h ++ (more ++ (if queryTextEnabled (cfg o) then text_attr DBQueryTextKey text else [])) ++ error_attrs err)
    (metricAttrs o tgt srv err) text (table tgt) err.
Proof.
  intros Hmore Hkeys. pose proof (span_attrs_keys o tgt srv h more keys text err Hmore) as Hsub.
  assert (Hnd : NoDup (span_keys keys)) by (destruct Hkeys as [->| ->]; by apply (bool_decide_unpack (NoDup _))).
  assert (Hno : ∀ k, k ∈ [DBQueryTextKey; ErrorTypeKey] ++ host_keys → k ∉ more.*1).
  { intros k Hk. apply (not_in_sublist _ _ _ Hmore). revert k Hk. apply Forall_forall.
    destruct Hkeys as [->| ->]; by apply (bool_decide_unpack (Forall _ _)). }
  assert (Htgt : ∀ c k, k ∈ [DBQueryTextKey; ErrorTypeKey] ++ host_keys → k ∉ (target_attrs c tgt).*1).
  { intros c k Hk. apply (not_in_sublist _ _ _ (target_attrs_keys c tgt)). revert k Hk. apply Forall_forall. by apply (bool_decide_unpack (Forall _ _)). }
  assert (Hsrv : ∀ k, k ∈ [DBQueryTextKey; ErrorTypeKey; DBCollectionNameKey] ++ host_keys → k ∉ (appendServerAttrs [] srv).*1).
  { intros k Hk. apply (not_in_sublist _ _ _ (server_attrs_keys srv)). revert k Hk. apply Forall_forall. by apply (bool_decide_unpack (Forall _ _)). }
  assert (Hhost : ∀ k, k ∈ [DBQueryTextKey; ErrorTypeKey] → k ∉ (match h with Some h => if hostAttributesEnabled (cfg o) then host_attrs h else [] | None => [] end).*1).
  { intros k Hk. apply (not_in_sublist _ _ host_keys).
    - destruct h as [h|]; [|apply sublist_nil_l]. destruct (hostAttributesEnabled _); [apply host_attrs_keys|apply sublist_nil_l].
    - revert k Hk. apply Forall_forall. by apply (bool_decide_unpack (Forall _ _)). }
  assert (Htext : ∀ k, k ≠ DBQueryTextKey → k ∉ (if queryTextEnabled (cfg o) then text_attr DBQueryTextKey text else []).*1).
  { intros k Hk. destruct (queryTextEnabled _); [|apply not_elem_of_nil]. apply (not_in_sublist _ _ _ (text_attr_keys _ _)).
    by rewrite list_elem_of_singleton. }
  assert (Herr : ∀ k, k ≠ ErrorTypeKey → k ∉ (error_attrs err).*1).
  { intros k Hk. apply (not_in_sublist _ _ _ (error_attrs_keys err)). by rewrite list_elem_of_singleton. }
  split.
  - by eapply sublist_NoDup.
  - apply Forall_forall. intros a Ha. assert (Hin : a.1 ∈ span_keys keys) by (eapply sublist_subseteq; [exact Hsub|by apply list_elem_of_fmap_2]).
    unfold reserved. revert Hin. generalize a.1. apply Forall_forall. destruct Hkeys as [->| ->]; by apply (bool_decide_unpack (Forall _ _)).
  - rewrite baseAttrs_eq, !fmap_app, !elem_of_app. assert (DBQueryTextKey ∈ [DBQueryTextKey; ErrorTypeKey]) as Hk by left.
    pose proof (Htgt true DBQueryTextKey ltac:(left)). pose proof (Hsrv DBQueryTextKey ltac:(left)). pose proof (Hhost _ Hk).
    pose proof (Hno DBQueryTextKey ltac:(left)). pose proof (Herr DBQueryTextKey ltac:(done)).
    destruct (queryTextEnabled (cfg o)); [rewrite text_attr_key|rewrite elem_of_nil]; naive_solver.
  - intros Hoff. apply Forall_forall. intros a Ha Hk. apply (list_elem_of_fmap_2 fst) in Ha.
    rewrite baseAttrs_eq, Hoff, !fmap_app, !elem_of_app in Ha.
    assert (Hk' : a.1 ≠ DBQueryTextKey ∧ a.1 ≠ ErrorTypeKey).
    { revert Hk. generalize a.1. apply Forall_forall. by apply (bool_decide_unpack (Forall _ _)). }
    assert (Hin : ∀ l, a.1 ∈ l ++ host_keys) by (intros l; apply elem_of_app; by right).
    destruct Ha as [[Ha|[Ha|Ha]]|[[Ha|Ha]|Ha]].
    + by apply (Htgt true a.1 (Hin _)).
    + by apply (Hsrv a.1 (Hin _)).
    + destruct h; cbn in Ha; by apply elem_of_nil in Ha.
    + by apply (Hno a.1 (Hin _)).
    + exact (Htext a.1 (proj1 Hk') Ha).
    + exact (Herr a.1 (proj2 Hk') Ha).
  - rewrite baseAttrs_eq, !fmap_app, !elem_of_app. assert (ErrorTypeKey ∈ [DBQueryTextKey; ErrorTypeKey]) as Hk by (right; left).
    pose proof (Htgt true ErrorTypeKey ltac:(right; left)). pose proof (Hsrv ErrorTypeKey ltac:(right; left)). pose proof (Hhost _ Hk).
    pose proof (Hno ErrorTypeKey ltac:(right; left)). pose proof (Htext ErrorTypeKey ltac:(done)).
    destruct err as [e|]; cbn; [rewrite list_elem_of_singleton|rewrite elem_of_nil]; split; try (by intros [? ?]); try naive_solver.
  - apply metricAttrs_keys.
  - apply metricAttrs_on_span.
  - rewrite metricAttrs_eq, !fmap_app, !elem_of_app. pose proof (Hsrv DBCollectionNameKey ltac:(right; right; left)).
    pose proof (Herr DBCollectionNameKey ltac:(done)). unfold target_attrs. cbn [fmap list_fmap]. rewrite !elem_of_cons, !fmap_app, !elem_of_app.
    assert (DBCollectionNameKey ∉ (text_attr DBOperationNameKey (operation tgt)).*1) by
      (apply (not_in_sublist _ _ _ (text_attr_keys _ _)); by apply (bool_decide_unpack (_ ∉ _))).
    assert (DBCollectionNameKey ∉ (text_attr DBNamespaceKey (keyspace tgt)).*1) by
      (apply (not_in_sublist _ _ _ (text_attr_keys _ _)); by apply (bool_decide_unpack (_ ∉ _))).
    assert (DBCollectionNameKey ≠ DBSystemNameCassandra.1) by by apply (bool_decide_unpack (_ ≠ _)).
    destruct (collectionMetricLabel (cfg o)); [rewrite text_attr_key|rewrite elem_of_nil]; naive_solver.
Qed.

(** What the integration emits for a query and for a batch, whatever the
    options. One finished span, one duration, and for a query one attempt with the
    same labels. The span has the caller's attributes that are not reserved, and
    its own: each key once and only reserved ones, the text of the statements
    exactly when it was asked for, addresses of nodes only when they were, and the
    type of the error exactly when there is one. The labels are of the bounded set,
    each with its value on the span, the table exactly when it is known and not
    switched off. A batch returns what the driver answered, with or without an
    observer, and nothing is sent to the driver without a session and a batch. *)
Theorem cassandra_observed (hosts : list bytes) (defaultPort : Z) (cluster_keyspace : bytes) (opts : list (option Option_))
    (q : ObservedQuery) (b : Batch) (exec : Batch → option obs_error) (start end_ : Z) :
  let o := newObserver hosts defaultPort cluster_keyspace opts in
  Forall (λ a, ¬ reserved a) (attrs (cfg o))
  ∧ (∃ name own labels,
       ObserveQuery o q
       = [Span {| span_name := name; span_start := q_Start q; span_end := q_End q; span_attrs := attrs (cfg o) ++ own;
                  span_error := err_message <$> q_Err q |};
          OperationDuration (Sub (q_End q) (q_Start q)) labels; QueryAttempts labels]
       ∧ observed_ok o own labels (Statement q) (parseStatement (Statement q)).2 (q_Err q))
  ∧ (∃ name own labels,
       instrumentBatch (Some (Some o)) (Some b) exec start end_
       = (inr (exec b), [Span {| span_name := name; span_start := start; span_end := end_; span_attrs := attrs (cfg o) ++ own;
                                 span_error := err_message <$> exec b |};
                         OperationDuration (Sub end_ start) labels])
       ∧ observed_ok o own labels (batchQueryText b) (batchTargets b).2 (exec b))
  ∧ instrumentBatch (Some None) (Some b) exec start end_ = (inr (exec b), [])
  ∧ ∀ session batch, session = None ∨ batch = None →
      ∃ err, instrumentBatch session batch exec start end_ = (inl err, []) ∧ err ≠ [].
Proof.
  cbn zeta. set (o := newObserver hosts defaultPort cluster_keyspace opts).
  split_and!; [apply newConfig_attrs| | |done|].
  - eexists _, _, _. split; [reflexivity|]. unfold query_attrs. rewrite <- !(app_assoc (baseAttrs _ _ _ _)).
    assert (table (query_target q) = (parseStatement (Statement q)).2) as <-.
    { unfold query_target. by destruct (parseStatement (Statement q)) as [[op ks] t]. }
    eapply observed; [|by left]. done.
  - eexists _, _, _. split; [reflexivity|]. unfold batchAttrs. rewrite <- !(app_assoc (baseAttrs _ _ _ _)).
    assert ((batchTargets b).2 = table (let '(ns, tbl) := batchTargets b in batchTarget ns tbl)) as ->.
    { by destruct (batchTargets b). }
    eapply (observed _ _ _ None _ [DBOperationBatchSizeKey]); [|by right]. destruct (0 <? _); [done|apply sublist_nil_l].
  - intros [[s|]|] [b'|] [H|H]; try discriminate H; (eexists; split; [reflexivity|done]).
Qed.
End observed.
