(* ===== verification/RedisHook.v ===== *)
(** The redis hook: the options, which commands are kept out of telemetry, and
    what the three hooks of go-redis emit around the rest of the chain, as a list
    of the calls made to the tracer and to the instruments. A command is what its
    methods answer and which object it is. *)
From S2P Require Import Prelude Utf8 GoStrings GoNum GoFields Utf8Valid Attribute Semconv.

Definition DBSystemNameRedis : KeyValue := (DBSystemNameKey, StringValue #"redis").
Definition maxCommandTextLen : nat := 1024.
Definition redisErrorKindKey : bytes := #"redis.error.kind".

(** * options.go *)
Record config := {
  commandTextEnabled : bool; requireParentSpan : bool; attrs : list KeyValue;
  ignored : option (gset bytes);  (* None is the nil map *)
  poolName : bytes;
}.
Definition zero_config : config :=
  {| commandTextEnabled := false; requireParentSpan := false; attrs := []; ignored := None; poolName := [] |}.
Inductive Option_ :=
  | WithCommandTextEnabled (enabled : bool)
  | WithAttributes (kvs : list KeyValue)
  | WithIgnoredCommands (names : list bytes)
  | WithRequireParentSpan (enabled : bool)
  | WithPoolName (name : bytes).

(** * The driver's types *)
(** An argument; of one that is neither a string nor bytes, what fmt.Sprint prints. *)
Inductive arg := ArgString (s : bytes) | ArgBytes (b : bytes) | ArgOther (printed : bytes).
Definition Sprint (a : arg) : bytes :=
  match a with
  | ArgString s | ArgOther s => s
  | ArgBytes b => #"[" ++ Join (dec ∘ byte_val <$> b) #" " ++ #"]"
  end.
Record Cmder := { cmd_id : N; Name : bytes; FullName : bytes; Args : list arg }.
(** An error: errors.Is with the sentinels, its type, its text. *)
Record go_error := {
  is_redis_nil : bool; is_pool_timeout : bool; is_deadline : bool; is_canceled : bool;
  go_type : option bytes; message : bytes;
}.

Section hook.
Context `{L : GoUnicode} `{U : GoUpper}.

Definition add_ignored (m : option (gset bytes)) (name : bytes) : option (gset bytes) :=
  let name := ToLower (TrimSpace name) in
  if bool_decide (name = []) then m else Some ({[name]} ∪ default ∅ m).
Definition apply_option (c : config) (o : Option_) : config :=
  {| commandTextEnabled := match o with WithCommandTextEnabled b => b | _ => commandTextEnabled c end;
     requireParentSpan := match o with WithRequireParentSpan b => b | _ => requireParentSpan c end;
     attrs := match o with WithAttributes kvs => attrs c ++ kvs | _ => attrs c end;
     ignored := match o with WithIgnoredCommands names => foldl add_ignored (ignored c) names | _ => ignored c end;
     poolName := match o with WithPoolName n => n | _ => poolName c end |}.
Definition newConfig (opts : list (option Option_)) : config :=
  foldl (λ c o, match o with Some o => apply_option c o | None => c end) zero_config opts.

(** * hook.go: addresses and errors *)
Record addressAttrs := { addr : bytes; host : bytes; port : Z }.
Definition parseAddress (a : bytes) : addressAttrs :=
  match SplitHostPort a with
  | None => {| addr := a; host := a; port := 0 |}
  | Some (h, p) => {| addr := a; host := h; port := default 0%Z (Atoi p) |}
  end.
Definition errorType (err : go_error) : bytes :=
  if is_deadline err then #"context.DeadlineExceeded"
  else if is_canceled err then #"context.Canceled"
  else default #"_OTHER" (go_type err).
Definition redisErrorKind (err : go_error) : option bytes :=
  if is_pool_timeout err then Some #"pool_timeout"
  else if is_deadline err then Some #"client_timeout"
  else if is_canceled err then Some #"client_canceled"
  else None.

(** * hook.go: command text *)
Definition commandText (cmd : Cmder) : bytes := Join (Sprint <$> Args cmd) #" ".
Definition pipelineText (cmds : list Cmder) : bytes := Join (commandText <$> cmds) #"; ".
(** The loop that backs up; the text is longer than [end_]. *)
Fixpoint back_up (text : bytes) (end_ : nat) : nat :=
  match end_ with
  | O => O
  | S e => if default true (rune_start <$> text !! end_) then end_ else back_up text e
  end.
Definition truncateCommandText (text : bytes) : bytes :=
  if length text <=? maxCommandTextLen then text else take (back_up text maxCommandTextLen) text.

(** * hook.go: filtering *)
Definition isPubSubCommand (name : bytes) : bool :=
  bool_decide (ToLower name ∈ [ #"publish"; #"spublish"; #"subscribe"; #"psubscribe"; #"ssubscribe";
    #"unsubscribe"; #"punsubscribe"; #"sunsubscribe"; #"pubsub"]).
Definition isClientSetupSubcommand (cmd : Cmder) : bool :=
  match Args cmd !! 1 with
  | Some (ArgString sub | ArgBytes sub) => bool_decide (ToLower sub ∈ [ #"setinfo"; #"setname"])
  | _ => false
  end.
Definition isConnectionLifecycleCommand (name : bytes) (cmd : Cmder) : bool :=
  if bool_decide (name ∈ [ #"auth"; #"hello"; #"select"; #"readonly"]) then true
  else if bool_decide (name = #"client") then isClientSetupSubcommand cmd
  else false.
Definition isFilteredCommand (c : config) (cmd : Cmder) : bool :=
  let name := ToLower (Name cmd) in
  if isPubSubCommand name || isConnectionLifecycleCommand name cmd then true
  else match ignored c with Some m => bool_decide (name ∈ m) | None => false end.
Definition unfilteredPipelineCommands (c : config) (cmds : list Cmder) : list Cmder :=
  filter (λ cmd, isFilteredCommand c cmd = false) cmds.
Definition userPipelineCommands (cmds : list Cmder) : list Cmder :=
  filter (λ cmd, ToLower (Name cmd) ∉ [ #"multi"; #"exec"]) cmds.
(** [Err] is what a command's Err method answers once the chain has run. *)
Fixpoint pipelineError (execErr : option go_error) (Err : N → option go_error) (cmds : list Cmder) : option go_error :=
  match cmds with
  | [] => execErr
  | cmd :: cmds =>
    match Err (cmd_id cmd) with
    | Some e => if is_redis_nil e then pipelineError execErr Err cmds else Some e
    | None => pipelineError execErr Err cmds
    end
  end.

(** * The hook *)
Record redisHook := { cfg : config; address : addressAttrs; db : Z; poolMetricAttrs : list KeyValue }.
Definition poolAttrs (pool a : bytes) : list KeyValue :=
  let parsed := parseAddress a in
  [DBSystemNameRedis; (DBClientConnectionPoolNameKey, StringValue pool); (ServerAddressKey, StringValue (host parsed))]
  ++ (if (0 <? port parsed)%Z then [(ServerPortKey, IntValue (port parsed))] else []).
Definition newRedisHook (c : config) (client_addr : bytes) (client_db : Z) (pool : bytes) : redisHook :=
  {| cfg := c; address := parseAddress client_addr; db := client_db; poolMetricAttrs := poolAttrs pool client_addr |}.
Definition namespace (h : redisHook) : bytes := if (db h =? 0)%Z then [] else dec_Z (db h).
Definition spanAttrs (h : redisHook) (operation : bytes) : list KeyValue :=
  [DBSystemNameRedis; (DBOperationNameKey, StringValue operation); (ServerAddressKey, StringValue (host (address h)))]
  ++ (if (0 <? port (address h))%Z then [(ServerPortKey, IntValue (port (address h)))] else [])
  ++ (let ns := namespace h in if bool_decide (ns = []) then [] else [(DBNamespaceKey, StringValue ns)]).
(** skipUnparented; [parented] is whether the context has a valid span context. *)
Definition skipUnparented (h : redisHook) (parented : bool) : bool := requireParentSpan (cfg h) && negb parented.

(** The calls a hook makes. [Next] is the rest of the chain; times are in
    nanoseconds, converted to seconds by the instruments' caller. *)
Inductive call :=
  | Next
  | StartSpan (name : bytes) (kvs : list KeyValue)
  | RecordError (e : go_error)
  | SetStatus (description : bytes)
  | SetAttributes (kvs : list KeyValue)
  | RecordDuration (nanoseconds : Z) (kvs : list KeyValue)
  | RecordCreate (nanoseconds : Z) (kvs : list KeyValue)
  | EndSpan.

Definition metric_base (h : redisHook) (operation : bytes) : list KeyValue :=
  [DBSystemNameRedis; (DBOperationNameKey, StringValue operation); (ServerAddressKey, StringValue (host (address h)))]
  ++ (if (0 <? port (address h))%Z then [(ServerPortKey, IntValue (port (address h)))] else []).
Definition finish (h : redisHook) (duration : Z) (operation : bytes) (err : option go_error) : list call :=
  let metricAttrs := metric_base h operation in
  match err with
  | Some e =>
    if is_redis_nil e then [RecordDuration duration metricAttrs; EndSpan]
    else
      let kind := match redisErrorKind e with Some k => [SetAttributes [(redisErrorKindKey, StringValue k)]] | None => [] end in
      [RecordError e; SetStatus (message e); SetAttributes [(ErrorTypeKey, StringValue (errorType e))]] ++ kind
      ++ [RecordDuration duration (metricAttrs ++ [(ErrorTypeKey, StringValue (errorType e))]); EndSpan]
  | None => [RecordDuration duration metricAttrs; EndSpan]
  end.

(** DialHook: [err] is what the rest of the chain answers, with the times around it. *)
Definition DialHook (h : redisHook) (disabled : bool) (err : option go_error) (start end_ : Z) : option go_error * list call :=
  if disabled then (err, [Next])
  else (err, Next :: match err with None => [RecordCreate (Sub end_ start) (poolMetricAttrs h)] | Some _ => [] end).

Definition operation_name (cmd : Cmder) : bytes :=
  let operation := ToUpper (FullName cmd) in if bool_decide (operation = []) then ToUpper (Name cmd) else operation.
Definition ProcessHook (h : redisHook) (disabled parented : bool) (cmd : Cmder) (err : option go_error) (start end_ : Z) :
    option go_error * list call :=
  if disabled || skipUnparented h parented || isFilteredCommand (cfg h) cmd then (err, [Next])
  else
    let operation := operation_name cmd in
    let kvs := attrs (cfg h) ++ spanAttrs h operation
      ++ (if commandTextEnabled (cfg h) then [(DBQueryTextKey, StringValue (truncateCommandText (commandText cmd)))] else []) in
    (err, [StartSpan (#"redis." ++ operation) kvs; Next] ++ finish h (Sub end_ start) operation err).

Definition ProcessPipelineHook (h : redisHook) (disabled parented : bool) (cmds : list Cmder)
    (err : option go_error) (Err : N → option go_error) (start end_ : Z) : option go_error * list call :=
  if disabled then (err, [Next])
  else
    let userCmds := userPipelineCommands cmds in
    if bool_decide (userCmds = []) || skipUnparented h parented then (err, [Next])
    else
      let visibleCmds := unfilteredPipelineCommands (cfg h) userCmds in
      if bool_decide (visibleCmds = []) then (err, [Next])
      else
        let kvs := attrs (cfg h) ++ spanAttrs h #"pipeline"
          ++ (if 2 <=? length userCmds then [(DBOperationBatchSizeKey, IntValue (Z.of_nat (length userCmds)))] else [])
          ++ (if commandTextEnabled (cfg h) then [(DBQueryTextKey, StringValue (truncateCommandText (pipelineText visibleCmds)))] else []) in
        (err, [StartSpan #"redis.pipeline" kvs; Next] ++ finish h (Sub end_ start) #"pipeline" (pipelineError err Err userCmds)).
End hook.

(** * metrics.go *)
(** goredis.Options and PoolStats, the fields read; the counters are uint32, so
    their conversion to int64 is exact. *)
Record PoolOptions := { opt_Network : bytes; opt_Addr : bytes; MaxIdleConns : Z; MinIdleConns : Z; MaxActiveConns : Z }.
Record PoolStats := { TotalConns : Z; IdleConns : Z; Timeouts : Z }.
Definition connectionCounts (stats : PoolStats) : Z * Z :=
  let total := TotalConns stats in
  let idle := Z.min (IdleConns stats) total in
  ((total - idle)%Z, idle).
Definition maxConnections (opt : PoolOptions) : option Z :=
  if (0 <? MaxActiveConns opt)%Z then Some (MaxActiveConns opt) else None.
Definition maxIdleConnections (opt : PoolOptions) : option Z :=
  if (0 <? MaxIdleConns opt)%Z then Some (MaxIdleConns opt) else None.

Inductive pool_instrument := PoolCount | PoolIdleMax | PoolIdleMin | PoolMax | PoolTimeouts.
Definition observation : Type := pool_instrument * Z * list KeyValue.
Definition observeClient (stats : PoolStats) (opt : PoolOptions) (pool : bytes) : list observation :=
  let kvs := poolAttrs pool (opt_Addr opt) in
  let '(used, idle) := connectionCounts stats in
  [(PoolCount, used, kvs ++ [(DBClientConnectionStateKey, StringValue #"used")]);
   (PoolCount, idle, kvs ++ [(DBClientConnectionStateKey, StringValue #"idle")])]
  ++ match maxIdleConnections opt with Some n => [(PoolIdleMax, n, kvs)] | None => [] end
  ++ [(PoolIdleMin, MinIdleConns opt, kvs)]
  ++ match maxConnections opt with Some n => [(PoolMax, n, kvs)] | None => [] end
  ++ [(PoolTimeouts, Timeouts stats, kvs)].

Definition shardPoolName (base : bytes) (opt : PoolOptions) : bytes := base ++ #"/" ++ opt_Addr opt.
(** A target and what its weak pointer leads to: None once it is collected; the
    shards are those ForEachShard visits. *)
Inductive poolTarget :=
  | singlePoolTarget (client : option (PoolStats * PoolOptions)) (pool : bytes)
  | shardedPoolTarget (shards : option (list (PoolStats * PoolOptions))) (pool : bytes).
Definition observe (t : poolTarget) : list observation :=
  match t with
  | singlePoolTarget (Some (stats, opt)) pool => observeClient stats opt pool
  | shardedPoolTarget (Some shards) pool => shards ≫= λ '(stats, opt), observeClient stats opt (shardPoolName pool opt)
  | singlePoolTarget None _ | shardedPoolTarget None _ => []
  end.
(** The callback register installs. *)
Definition pool_callback (disabled : bool) (t : poolTarget) : list observation := if disabled then [] else observe t.

(** * Truncation *)
Lemma back_up_spec text n : n < length text →
  back_up text n ≤ n
  ∧ (back_up text n = 0 ∨ ∃ c, text !! back_up text n = Some c ∧ rune_start c = true)
  ∧ ∀ m c, back_up text n < m ≤ n → text !! m = Some c → rune_start c = false.
Proof.
  induction n as [|n IH]; intros Hn; cbn [back_up]; [split_and!; [lia|by left|intros; lia]|].
  destruct (text !! S n) as [c|] eqn:Ec; cbn; [|apply lookup_ge_None in Ec; lia].
  destruct (rune_start c) eqn:Es; [split_and!; [lia|right; eauto|intros; lia]|].
  destruct IH as (H1 & H2 & H3); [lia|]. split_and!; [lia|done|]. intros m c' Hm Hc.
  destruct (decide (m = S n)) as [->|]; [congruence|]. apply (H3 m); [lia|done].
Qed.

Lemma truncate_prefix text : truncateCommandText text `prefix_of` text ∧ length (truncateCommandText text) ≤ maxCommandTextLen.
Proof.
  unfold truncateCommandText. destruct (length text <=? maxCommandTextLen) eqn:E; [split; [done|lia]|].
  destruct (back_up_spec text maxCommandTextLen) as (H1 & _); [lia|]. split; [|rewrite length_take; lia].
  exists (drop (back_up text maxCommandTextLen) text). by rewrite take_drop.
Qed.

(** The query text is cut to at most 1024 bytes of its beginning, left alone
    when it is no longer than that, and cut between runes: a valid text stays
    valid, and loses no more than three bytes to that. *)
Theorem truncateCommandText_exact (text : bytes) :
  truncateCommandText text `prefix_of` text
  ∧ length (truncateCommandText text) ≤ maxCommandTextLen
  ∧ (length text ≤ maxCommandTextLen → truncateCommandText text = text)
  ∧ (ValidString text = true → ValidString (truncateCommandText text) = true
     ∧ (maxCommandTextLen < length text → maxCommandTextLen - 3 ≤ length (truncateCommandText text))).
Proof.
  destruct (truncate_prefix text) as [Hp Hl]. split_and!; [done|done| |].
  { unfold truncateCommandText. intros H. by rewrite (proj2 (Nat.leb_le _ _) H). }
  intros Hv. unfold truncateCommandText. destruct (length text <=? maxCommandTextLen) eqn:E; [split; [done|lia]|].
  destruct (back_up_spec text maxCommandTextLen) as (H1 & H2 & H3); [lia|]. split.
  - destruct H2 as [->|(c & Hc & Hs)]; [by rewrite take_0|]. apply ValidString_take; [done|]. congruence.
  - intros _. rewrite length_take. destruct (rune_start_near text maxCommandTextLen) as (m & c & Hm & Hc & Hs); [done|lia|].
    destruct (decide (m ≤ back_up text maxCommandTextLen)); [lia|]. assert (rune_start c = false) by (apply (H3 m); [lia|done]). congruence.
Qed.

(** * Filtering *)
Section facts.
Context `{L : GoUnicode} `{U : GoUpper}.

Definition names_of (o : option Option_) : list bytes :=
  match o with Some (WithIgnoredCommands names) => names | _ => [] end.

Lemma elem_of_add_ignored m names x :
  x ∈ default ∅ (foldl add_ignored m names) ↔ x ∈ default ∅ m ∨ x ≠ [] ∧ x ∈ (ToLower ∘ TrimSpace <$> names).
Proof.
  revert m. induction names as [|n names IH]; intros m; cbn [foldl fmap list_fmap]; [rewrite elem_of_nil; tauto|].
  rewrite IH, elem_of_cons. unfold add_ignored. cbn. case_bool_decide as E; cbn; [rewrite E|]; set_solver.
Qed.

Lemma elem_of_ignored opts x :
  x ∈ default ∅ (ignored (newConfig opts)) ↔ x ≠ [] ∧ x ∈ (ToLower ∘ TrimSpace <$> (opts ≫= names_of)).
Proof.
  unfold newConfig. assert (∀ c, x ∈ default ∅ (ignored (foldl (λ c o, match o with Some o => apply_option c o | None => c end) c opts))
    ↔ x ∈ default ∅ (ignored c) ∨ x ≠ [] ∧ x ∈ (ToLower ∘ TrimSpace <$> (opts ≫= names_of))) as H; [|rewrite H; set_solver].
  induction opts as [|o opts IH]; intros c; [set_solver|]. cbn [foldl]. rewrite IH, bind_cons, fmap_app, elem_of_app.
  destruct o as [[b|kvs|names|b|n]|]; cbn [apply_option ignored names_of]; try (rewrite fmap_nil, elem_of_nil; tauto).
  rewrite elem_of_add_ignored. tauto.
Qed.

(** The commands of the integration's own list. *)
Definition always_filtered (cmd : Cmder) : Prop :=
  ToLower (ToLower (Name cmd)) ∈ [ #"publish"; #"spublish"; #"subscribe"; #"psubscribe"; #"ssubscribe";
    #"unsubscribe"; #"punsubscribe"; #"sunsubscribe"; #"pubsub"]
  ∨ ToLower (Name cmd) ∈ [ #"auth"; #"hello"; #"select"; #"readonly"]
  ∨ ToLower (Name cmd) = #"client" ∧ ∃ sub, (Args cmd !! 1 = Some (ArgString sub) ∨ Args cmd !! 1 = Some (ArgBytes sub))
      ∧ ToLower sub ∈ [ #"setinfo"; #"setname"].

Lemma isFilteredCommand_spec c cmd :
  isFilteredCommand c cmd = true ↔ always_filtered cmd ∨ ToLower (Name cmd) ∈ default ∅ (ignored c).
Proof.
  unfold isFilteredCommand, isPubSubCommand, isConnectionLifecycleCommand, always_filtered. cbv zeta.
  case_bool_decide as E1; [naive_solver|]. case_bool_decide as E2; [naive_solver|]. cbn [orb].
  assert (match ignored c with Some m => bool_decide (ToLower (Name cmd) ∈ m) | None => false end = true
    ↔ ToLower (Name cmd) ∈ default ∅ (ignored c)) as Hig.
  { destruct (ignored c); cbn; [by rewrite bool_decide_eq_true|set_solver]. }
  assert (isClientSetupSubcommand cmd = true ↔ ∃ sub, (Args cmd !! 1 = Some (ArgString sub) ∨ Args cmd !! 1 = Some (ArgBytes sub))
      ∧ ToLower sub ∈ [ #"setinfo"; #"setname"]) as Hcl.
  { unfold isClientSetupSubcommand. destruct (Args cmd !! 1) as [[s|b|p]|]; rewrite ?bool_decide_eq_true; naive_solver. }
  case_bool_decide as E3; [|rewrite Hig; naive_solver].
  destruct (isClientSetupSubcommand cmd); [naive_solver|]. rewrite Hig. naive_solver.
Qed.

(** * What is emitted *)
Definition span_kvs (calls : list call) : list KeyValue :=
  calls ≫= λ c, match c with StartSpan _ kvs | SetAttributes kvs => kvs | _ => [] end.
(** The value a key ends with on the span. *)
Definition span_value (key : bytes) (calls : list call) : option attr_value := value_of key (span_kvs calls).
Definition durations (calls : list call) : list (Z * list KeyValue) :=
  calls ≫= λ c, match c with RecordDuration d kvs => [(d, kvs)] | _ => [] end.
Definition recorded_errors (calls : list call) : list go_error :=
  calls ≫= λ c, match c with RecordError e => [e] | _ => [] end.
(** The calls that open, run and close, in their order. *)
Definition shape (calls : list call) : list bytes :=
  calls ≫= λ c, match c with StartSpan name _ => [name] | Next => [ #"next"] | EndSpan => [ #"end"] | _ => [] end.
(** The error that makes an operation a failure: a missing key is none. *)
Definition failure (err : option go_error) : option go_error :=
  match err with Some e => if is_redis_nil e then None else Some e | None => None end.
Definition labels (h : redisHook) (operation : bytes) (err : option go_error) : list KeyValue :=
  metric_base h operation ++ match failure err with Some e => [(ErrorTypeKey, StringValue (errorType e))] | None => [] end.
Definition metric_keys : list bytes := [DBSystemNameKey; DBOperationNameKey; ServerAddressKey; ServerPortKey; ErrorTypeKey].

(** What finish writes on the span. *)
Definition error_kvs (err : option go_error) : list KeyValue :=
  match failure err with
  | Some e => (ErrorTypeKey, StringValue (errorType e))
      :: match redisErrorKind e with Some k => [(redisErrorKindKey, StringValue k)] | None => [] end
  | None => []
  end.

Lemma finish_facts h d operation err :
  span_kvs (finish h d operation err) = error_kvs err
  ∧ durations (finish h d operation err) = [(d, labels h operation err)]
  ∧ recorded_errors (finish h d operation err) = option_list (failure err)
  ∧ shape (finish h d operation err) = [ #"end"].
Proof.
  unfold finish, labels, error_kvs, failure.
  destruct err as [e|]; [destruct (is_redis_nil e); [|destruct (redisErrorKind e)]|]; cbn; by rewrite ?app_nil_r.
Qed.

(** An operation's telemetry as it should be, for the attributes of its own. *)
Record emitted_ok (h : redisHook) (operation name : bytes) (own : list KeyValue) (err : option go_error) (d : Z)
    (calls : list call) : Prop := {
  em_shape : shape calls = [name; #"next"; #"end"];
  em_own : ∀ k v, (k, v) ∈ own → span_value k calls = Some v;
  em_user : ∀ k, k ∉ own.*1 → k ∉ [ErrorTypeKey; redisErrorKindKey] → span_value k calls = value_of k (attrs (cfg h));
  em_errors : recorded_errors calls = option_list (failure err);
  em_error_type : ∀ e, failure err = Some e →
    span_value ErrorTypeKey calls = Some (StringValue (errorType e))
    ∧ ∀ k, redisErrorKind e = Some k → span_value redisErrorKindKey calls = Some (StringValue k);
  em_no_error : failure err = None → ∀ k, k ∉ own.*1 → span_value k calls = value_of k (attrs (cfg h));
  em_duration : durations calls = [(d, labels h operation err)];
  em_label_keys : (labels h operation err).*1 `sublist_of` metric_keys;
  em_label_values : ∀ k v, (k, v) ∈ labels h operation err → span_value k calls = Some v;
}.

Lemma port_attr_keys p : (if (0 <? p)%Z then [(ServerPortKey, IntValue p)] else []).*1 `sublist_of` [ServerPortKey].
Proof. destruct (0 <? p)%Z; [done|apply sublist_nil_l]. Qed.

Lemma labels_keys h operation err : (labels h operation err).*1 `sublist_of` metric_keys.
Proof.
  unfold labels, metric_base, metric_keys. rewrite !fmap_app.
  apply (sublist_app _ [DBSystemNameKey; DBOperationNameKey; ServerAddressKey; ServerPortKey]).
  - apply (sublist_app _ [DBSystemNameKey; DBOperationNameKey; ServerAddressKey]); [done|apply port_attr_keys].
  - destruct (failure err); [done|apply sublist_nil_l].
Qed.

(** The keys a span of this package may have of its own. *)
Definition own_keys : list bytes :=
  [DBSystemNameKey; DBOperationNameKey; ServerAddressKey; ServerPortKey; DBNamespaceKey; DBOperationBatchSizeKey; DBQueryTextKey].

Lemma error_kvs_keys err : (error_kvs err).*1 `sublist_of` [ErrorTypeKey; redisErrorKindKey].
Proof.
  unfold error_kvs. destruct (failure err) as [e|]; [|apply sublist_nil_l].
  cbn. apply sublist_skip. destruct (redisErrorKind e); [done|apply sublist_nil_l].
Qed.

Lemma own_not_error k : k ∈ own_keys → k ∉ [ErrorTypeKey; redisErrorKindKey].
Proof. revert k. apply Forall_forall. by apply (bool_decide_unpack (Forall _ _)). Qed.

Lemma emitted h operation name own err d :
  own.*1 `sublist_of` own_keys → metric_base h operation ⊆ own →
  emitted_ok h operation name own err d ([StartSpan name (attrs (cfg h) ++ own); Next] ++ finish h d operation err).
Proof.
  intros Hown Hbase. destruct (finish_facts h d operation err) as (F1 & F2 & F3 & F4).
  set (calls := [StartSpan name (attrs (cfg h) ++ own); Next] ++ finish h d operation err).
  assert (Hd : NoDup own.*1) by (eapply sublist_NoDup; [|exact Hown]; by apply (bool_decide_unpack (NoDup _))).
  assert (Hkvs : span_kvs calls = attrs (cfg h) ++ own ++ error_kvs err).
  { unfold calls, span_kvs. rewrite bind_app. cbn [mbind list_bind app]. rewrite app_nil_r. fold (span_kvs (finish h d operation err)).
    by rewrite F1, <- app_assoc. }
  assert (Hval : ∀ k, span_value k calls = match value_of k (error_kvs err) with Some v => Some v | None => value_of k (attrs (cfg h) ++ own) end).
  { intros k. unfold span_value. by rewrite Hkvs, app_assoc, value_of_app. }
  assert (Hnoerr : ∀ k, k ∉ [ErrorTypeKey; redisErrorKindKey] → value_of k (error_kvs err) = None).
  { intros k Hk. apply value_of_None. intros Hin. apply Hk. eapply sublist_subseteq; [apply error_kvs_keys|done]. }
  assert (Hin_own : ∀ k v, (k, v) ∈ own → span_value k calls = Some v).
  { intros k v Hin. rewrite Hval, Hnoerr; [by apply value_of_own|]. apply own_not_error. eapply sublist_subseteq; [exact Hown|].
    by apply (list_elem_of_fmap_2 fst) in Hin. }
  assert (Herr : ∀ e, failure err = Some e → span_value ErrorTypeKey calls = Some (StringValue (errorType e))
    ∧ ∀ k, redisErrorKind e = Some k → span_value redisErrorKindKey calls = Some (StringValue k)).
  { intros e He. assert (Hed : NoDup (error_kvs err).*1).
    { eapply sublist_NoDup; [|apply error_kvs_keys]. by apply (bool_decide_unpack (NoDup _)). }
    split; [|intros k Hk]; rewrite Hval; (erewrite value_of_unique; [reflexivity|done|]); unfold error_kvs; rewrite He; [left|].
    rewrite Hk. right; left. }
  split; try done.
  - unfold calls, shape. rewrite bind_app. fold (shape (finish h d operation err)). by rewrite F4.
  - intros k Hk He. by rewrite Hval, Hnoerr, value_of_other.
  - intros Hf k Hk. rewrite Hval. unfold error_kvs. rewrite Hf. cbn. by apply value_of_other.
  - apply labels_keys.
  - intros k v. unfold labels. rewrite elem_of_app. intros [Hin|Hin]; [by apply Hin_own, Hbase|].
    destruct (failure err) as [e|] eqn:He; [|by apply elem_of_nil in Hin]. apply list_elem_of_singleton in Hin as [= -> ->].
    by apply Herr.
Qed.

Lemma spanAttrs_base h operation : ∃ more, spanAttrs h operation = metric_base h operation ++ more ∧ more.*1 `sublist_of` [DBNamespaceKey].
Proof.
  unfold spanAttrs, metric_base. eexists. rewrite <- app_assoc. split; [reflexivity|]. cbv zeta.
  case_bool_decide; [apply sublist_nil_l|done].
Qed.

Lemma own_attrs_keys h operation (size text : list KeyValue) :
  size.*1 `sublist_of` [DBOperationBatchSizeKey] → text.*1 `sublist_of` [DBQueryTextKey] →
  (spanAttrs h operation ++ size ++ text).*1 `sublist_of` own_keys ∧ metric_base h operation ⊆ spanAttrs h operation ++ size ++ text.
Proof.
  intros Hs Ht. destruct (spanAttrs_base h operation) as (more & -> & Hm). split; [|set_solver].
  rewrite !fmap_app. unfold own_keys.
  apply (sublist_app _ [DBSystemNameKey; DBOperationNameKey; ServerAddressKey; ServerPortKey; DBNamespaceKey]);
    [|by apply (sublist_app _ [DBOperationBatchSizeKey])].
  apply (sublist_app _ [DBSystemNameKey; DBOperationNameKey; ServerAddressKey; ServerPortKey]); [|done].
  unfold metric_base. rewrite fmap_app. apply (sublist_app _ [DBSystemNameKey; DBOperationNameKey; ServerAddressKey]); [done|apply port_attr_keys].
Qed.

(** * The hooks *)
(** What keeps every operation out of telemetry, and a single command. *)
Definition skipped (c : config) (disabled parented : bool) : Prop :=
  disabled = true ∨ requireParentSpan c = true ∧ parented = false.
Definition filtered (opts : list (option Option_)) (cmd : Cmder) : Prop :=
  always_filtered cmd ∨ ToLower (Name cmd) ≠ [] ∧ ToLower (Name cmd) ∈ (ToLower ∘ TrimSpace <$> (opts ≫= names_of)).
Definition text_of (c : config) (text : bytes) : list KeyValue :=
  if commandTextEnabled c then [(DBQueryTextKey, StringValue (truncateCommandText text))] else [].
Definition is_user (cmd : Cmder) : Prop := ToLower (Name cmd) ∉ [ #"multi"; #"exec"].

Lemma filtered_spec opts cmd : isFilteredCommand (newConfig opts) cmd = true ↔ filtered opts cmd.
Proof. by rewrite isFilteredCommand_spec, elem_of_ignored. Qed.
Lemma skipped_spec c pool a n disabled parented :
  disabled || skipUnparented (newRedisHook c a n pool) parented = true ↔ skipped c disabled parented.
Proof. unfold skipUnparented, skipped. cbn. destruct disabled, (requireParentSpan c), parented; naive_solver. Qed.

Lemma text_of_keys c text : (text_of c text).*1 `sublist_of` [DBQueryTextKey].
Proof. unfold text_of. destruct (commandTextEnabled c); [done|apply sublist_nil_l]. Qed.

(** The command hook. The command runs once and its error is returned as it
    is. A wrapper that is off, a context without a span where one is asked for, and
    a command that is filtered, which is exactly one of the integration's list or
    one an option names in any case and with space around it, emit nothing.
    Otherwise there is one span, opened before and ended after, and one duration:
    the attributes of the span's own have their values whatever the caller's
    attributes are, the command's text among them exactly when asked for; a missing
    key is no error, and any other is recorded with its type; the labels of the
    duration are of a fixed set, with their values on the span. *)
Theorem redis_command_hooked (opts : list (option Option_)) (client_addr pool : bytes) (client_db : Z)
    (disabled parented : bool) (cmd : Cmder) (err : option go_error) (start end_ : Z) :
  let h := newRedisHook (newConfig opts) client_addr client_db pool in
  let '(result, calls) := ProcessHook h disabled parented cmd err start end_ in
  result = err
  ∧ (skipped (cfg h) disabled parented ∨ filtered opts cmd → calls = [Next])
  ∧ (¬ skipped (cfg h) disabled parented → ¬ filtered opts cmd →
      ∃ op, emitted_ok h op (#"redis." ++ op) (spanAttrs h op ++ text_of (cfg h) (commandText cmd)) err (Sub end_ start) calls).
Proof.
  cbn zeta. unfold ProcessHook. set (h := newRedisHook _ _ _ _).
  destruct (disabled || skipUnparented h parented || _) eqn:E.
  - split_and!; [done|done|]. apply orb_true_iff in E as [E|E]; [apply skipped_spec in E|apply filtered_spec in E]; tauto.
  - apply orb_false_iff in E as [E1 E2]. apply not_true_iff_false in E1, E2. unfold h in E1, E2. cbn [cfg newRedisHook] in E2.
    rewrite skipped_spec in E1. rewrite filtered_spec in E2. split_and!; [done|tauto|]. intros _ _. exists (operation_name cmd).
    destruct (own_attrs_keys h (operation_name cmd) [] (text_of (cfg h) (commandText cmd))) as [Hk Hb];
      [apply sublist_nil_l|apply text_of_keys|]. by apply emitted.
Qed.

Lemma pipelineError_spec execErr Err cmds :
  match failure (pipelineError execErr Err cmds) with
  | Some e => (∃ pre cmd post, cmds = pre ++ cmd :: post ∧ Err (cmd_id cmd) = Some e ∧ is_redis_nil e = false
                 ∧ Forall (λ c, failure (Err (cmd_id c)) = None) pre)
              ∨ Forall (λ c, failure (Err (cmd_id c)) = None) cmds ∧ failure execErr = Some e
  | None => Forall (λ c, failure (Err (cmd_id c)) = None) cmds ∧ failure execErr = None
  end.
Proof.
  induction cmds as [|c cmds IH]; cbn [pipelineError].
  { destruct (failure execErr); [right|]; done. }
  assert (Hstep : failure (Err (cmd_id c)) = None →
    match failure (pipelineError execErr Err cmds) with
    | Some e => (∃ pre cmd post, c :: cmds = pre ++ cmd :: post ∧ Err (cmd_id cmd) = Some e ∧ is_redis_nil e = false
                   ∧ Forall (λ c, failure (Err (cmd_id c)) = None) pre)
                ∨ Forall (λ c, failure (Err (cmd_id c)) = None) (c :: cmds) ∧ failure execErr = Some e
    | None => Forall (λ c, failure (Err (cmd_id c)) = None) (c :: cmds) ∧ failure execErr = None
    end).
  { intros Hc. destruct (failure (pipelineError execErr Err cmds)) as [e|]; [|destruct IH; by split; [constructor|]].
    destruct IH as [(pre & cmd & post & -> & H1 & H2 & H3)|[H1 H2]]; [left|right; by split; [constructor|]].
    exists (c :: pre), cmd, post. split_and!; [done|done|done|by constructor]. }
  destruct (Err (cmd_id c)) as [e|] eqn:Ec; [|by apply Hstep].
  destruct (is_redis_nil e) eqn:En; [apply Hstep; unfold failure; by rewrite En|].
  unfold failure at 1. rewrite En. left. exists [], c, cmds. split_and!; [done|done|done|constructor].
Qed.

(** The pipeline hook. The commands run once and the error is returned as it
    is. Nothing is emitted when nothing of the caller's is left of the pipeline once
    MULTI, EXEC and what is filtered are set aside. Otherwise there is one span
    and one duration, as for a command; the size counts every command of the
    caller's, and the text has only those that are not filtered. The error recorded
    is that of the first command that failed, and otherwise the pipeline's. *)
Theorem redis_pipeline_hooked (opts : list (option Option_)) (client_addr pool : bytes) (client_db : Z)
    (disabled parented : bool) (cmds : list Cmder) (err : option go_error) (Err : N → option go_error) (start end_ : Z) :
  let h := newRedisHook (newConfig opts) client_addr client_db pool in
  let '(result, calls) := ProcessPipelineHook h disabled parented cmds err Err start end_ in
  result = err
  ∧ (skipped (cfg h) disabled parented ∨ (∀ c, c ∈ cmds → is_user c → filtered opts c) → calls = [Next])
  ∧ (¬ skipped (cfg h) disabled parented → (∃ c, c ∈ cmds ∧ is_user c ∧ ¬ filtered opts c) →
      ∃ user visible failed,
        user `sublist_of` cmds ∧ (∀ c, c ∈ user ↔ c ∈ cmds ∧ is_user c)
        ∧ visible `sublist_of` user ∧ (∀ c, c ∈ visible ↔ c ∈ user ∧ ¬ filtered opts c)
        ∧ (match failure failed with
           | Some e => (∃ pre c post, user = pre ++ c :: post ∧ Err (cmd_id c) = Some e ∧ Forall (λ c, failure (Err (cmd_id c)) = None) pre)
                       ∨ failure err = Some e
           | None => Forall (λ c, failure (Err (cmd_id c)) = None) user ∧ failure err = None
           end)
        ∧ emitted_ok h #"pipeline" #"redis.pipeline"
            (spanAttrs h #"pipeline"
             ++ (if 2 <=? length user then [(DBOperationBatchSizeKey, IntValue (Z.of_nat (length user)))] else [])
             ++ text_of (cfg h) (pipelineText visible)) failed (Sub end_ start) calls).
Proof.
  cbn zeta. unfold ProcessPipelineHook. set (h := newRedisHook _ _ _ _).
  set (user := userPipelineCommands cmds). set (visible := unfilteredPipelineCommands (cfg h) user).
  assert (Hu : ∀ c, c ∈ user ↔ c ∈ cmds ∧ is_user c).
  { intros c. unfold user, userPipelineCommands. rewrite list_elem_of_filter. unfold is_user. tauto. }
  assert (Hv : ∀ c, c ∈ visible ↔ c ∈ user ∧ ¬ filtered opts c).
  { intros c. unfold visible, unfilteredPipelineCommands. rewrite list_elem_of_filter, <- filtered_spec, not_true_iff_false. cbn. tauto. }
  assert (Hs : disabled || skipUnparented h parented = true ↔ skipped (cfg h) disabled parented) by apply skipped_spec.
  assert (Hnone : visible = [] → ∀ c, c ∈ cmds → is_user c → ¬ ¬ filtered opts c).
  { intros He c Hc Hic Hnf. assert (c ∈ visible) as Hin by (apply Hv; split; [by apply Hu|done]). rewrite He in Hin. by apply elem_of_nil in Hin. }
  destruct disabled; [split_and!; [done|done|]; intros Hns; exfalso; apply Hns; by left|]. cbn [orb] in Hs.
  case_bool_decide as E0.
  { cbn [orb]. split_and!; [done|done|]. intros _ (c & Hc & Hic & Hf). assert (c ∈ user) as Hin by (by apply Hu). rewrite E0 in Hin. by apply elem_of_nil in Hin. }
  cbn [orb]. destruct (skipUnparented h parented) eqn:Esk; [split_and!; [done|done|]; tauto|].
  case_bool_decide as E1.
  { split_and!; [done|done|]. intros _ (c & Hc & Hic & Hf). exfalso. by eapply Hnone. }
  split_and!; [done| |].
  - intros [Hsk|Hall]; [apply Hs in Hsk; discriminate|]. exfalso. apply E1. fold visible. destruct visible as [|c v] eqn:Ev; [done|].
    destruct (proj1 (Hv c) ltac:(left)) as [[Hc Hic]%Hu Hf]. exfalso. by apply Hf, Hall.
  - intros _ _. exists user, visible, (pipelineError err Err user).
    split_and!; [apply sublist_filter|done|apply sublist_filter|done| |].
    + pose proof (pipelineError_spec err Err user) as Hp. destruct (failure (pipelineError _ _ _)) as [e|]; [|done].
      destruct Hp as [(pre & c & post & H1 & H2 & _ & H4)|[_ H]]; [left; by exists pre, c, post|by right].
    + destruct (own_attrs_keys h #"pipeline" (if 2 <=? length user then [(DBOperationBatchSizeKey, IntValue (Z.of_nat (length user)))] else [])
        (text_of (cfg h) (pipelineText visible))) as [Hk Hb]; [|apply text_of_keys|by apply emitted].
      destruct (2 <=? length user); [done|apply sublist_nil_l].
Qed.

(** * Arguments of filtered commands *)
(** The same command, or two filtered ones of the same name and object that may
    have any arguments. *)
Definition same_visible (c : config) (a b : Cmder) : Prop :=
  a = b ∨ isFilteredCommand c a = true ∧ isFilteredCommand c b = true ∧ Name a = Name b ∧ cmd_id a = cmd_id b.

Lemma same_visible_user c l l' :
  Forall2 (same_visible c) l l' → Forall2 (same_visible c) (userPipelineCommands l) (userPipelineCommands l').
Proof.
  induction 1 as [|a b l l' Hab _ IH]; [constructor|]. unfold userPipelineCommands in *. rewrite !filter_cons.
  assert (Name a = Name b) as -> by (destruct Hab as [->|(_ & _ & ? & _)]; done). case_decide; [by constructor|done].
Qed.
Lemma same_visible_unfiltered c l l' :
  Forall2 (same_visible c) l l' → unfilteredPipelineCommands c l = unfilteredPipelineCommands c l'.
Proof.
  induction 1 as [|a b l l' Hab _ IH]; [done|]. unfold unfilteredPipelineCommands in *. rewrite !filter_cons, IH.
  destruct Hab as [->|(Ha & Hb & _)]; [done|]. rewrite Ha, Hb. by rewrite !decide_False by done.
Qed.
Lemma same_visible_error c execErr Err l l' :
  Forall2 (same_visible c) l l' → pipelineError execErr Err l = pipelineError execErr Err l'.
Proof.
  induction 1 as [|a b l l' Hab _ IH]; [done|]. cbn. rewrite IH. by destruct Hab as [->|(_ & _ & _ & ->)].
Qed.

End facts.

(** A pipeline that authenticates and then reads. *)
Definition sample_auth (password : bytes) : Cmder :=
  {| cmd_id := 1; Name := #"AUTH"; FullName := #"auth"; Args := [ArgString #"AUTH"; ArgString password] |}.
Definition sample_get : Cmder :=
  {| cmd_id := 2; Name := #"get"; FullName := #"get"; Args := [ArgString #"get"; ArgBytes #"k"] |}.
Definition sample_hook : redisHook :=
  newRedisHook (newConfig (L := ascii_unicode) [Some (WithCommandTextEnabled true); None; Some (WithIgnoredCommands [ #" PING "])])
    #"redis:6379" 2 #"cache".

Example sample_pipeline_text :
  span_value DBQueryTextKey
    (ProcessPipelineHook (L := ascii_unicode) sample_hook false false [sample_auth #"hunter2"; sample_get] None (λ _, None) 0 5).2
  = Some (StringValue #"get [107]").
Proof. reflexivity. Qed.


(** * Pool metrics *)
(** Where an observation goes: two of the same key would be one series. *)
Definition series (o : observation) : pool_instrument * list KeyValue := (o.1.1, o.2).

Lemma poolAttrs_pool pool a pool' a' : poolAttrs pool a = poolAttrs pool' a' → pool = pool'.
Proof. unfold poolAttrs. cbn. by intros [= ? _]. Qed.

Lemma observeClient_series stats opt pool o :
  o ∈ observeClient stats opt pool → ∃ rest, o.2 = poolAttrs pool (opt_Addr opt) ++ rest.
Proof.
  unfold observeClient. destruct (connectionCounts stats) as [used idle].
  destruct (maxIdleConnections opt), (maxConnections opt); cbn; rewrite !elem_of_cons, ?elem_of_nil; intros Ho;
    destruct_or?; subst; try done; try (by eexists); exists []; by rewrite app_nil_r.
Qed.

Lemma observeClient_pool stats opt pool o :
  o ∈ observeClient stats opt pool → value_of DBClientConnectionPoolNameKey (take 2 o.2) = Some (StringValue pool).
Proof. intros (rest & ->)%observeClient_series. reflexivity. Qed.

Lemma observeClient_nodup stats opt pool : NoDup (series <$> observeClient stats opt pool).
Proof.
  unfold observeClient, series. destruct (connectionCounts stats) as [used idle]. generalize (poolAttrs pool (opt_Addr opt)). intros kvs.
  destruct (maxIdleConnections opt), (maxConnections opt); cbn [app fmap list_fmap fst snd];
    repeat (apply NoDup_cons; split; [rewrite ?elem_of_cons, elem_of_nil; intros Hin; destruct_or?; try done; injection Hin as Hin;
      apply app_inv_head in Hin; discriminate|]); apply NoDup_nil_2.
Qed.

(** What a client's pool reports. Whatever the two counters were when they were
    read, the connections in use and idle are never negative and add up to the
    total; a bound that is not set is not reported; and no two values of one
    client, nor of the shards of one cluster at different addresses, land in the
    same series. A wrapper that is off and a client that is collected report
    nothing. *)
Theorem redis_pool_observed (stats : PoolStats) (opt : PoolOptions) (pool : bytes) (shards : list (PoolStats * PoolOptions))
    (Htotal : (0 ≤ TotalConns stats)%Z) (Hidle : (0 ≤ IdleConns stats)%Z)
    (Haddr : NoDup (opt_Addr ∘ snd <$> shards)) :
  (∃ used idle, connectionCounts stats = (used, idle) ∧ (0 ≤ used)%Z ∧ (0 ≤ idle)%Z ∧ (used + idle = TotalConns stats)%Z
     ∧ ((IdleConns stats ≤ TotalConns stats)%Z → idle = IdleConns stats))
  ∧ (∀ i v kvs, (i, v, kvs) ∈ observeClient stats opt pool → i = PoolIdleMax ∨ i = PoolMax → (0 < v)%Z)
  ∧ NoDup (series <$> observe (singlePoolTarget (Some (stats, opt)) pool))
  ∧ NoDup (series <$> observe (shardedPoolTarget (Some shards) pool))
  ∧ observe (singlePoolTarget None pool) = [] ∧ observe (shardedPoolTarget None pool) = []
  ∧ ∀ t, pool_callback true t = [].
Proof.
  split_and!; [| |apply observeClient_nodup| |done|done|done].
  - unfold connectionCounts. eexists _, _. split; [reflexivity|]. lia.
  - intros i v kvs. unfold observeClient, maxIdleConnections, maxConnections, connectionCounts.
    destruct (0 <? MaxIdleConns opt)%Z eqn:E1, (0 <? MaxActiveConns opt)%Z eqn:E2; cbn; rewrite !elem_of_cons, elem_of_nil;
      intros Hin [-> | ->]; destruct_or?; simplify_eq; lia.
  - cbn [observe]. induction shards as [|[st op] shards IH]; [apply NoDup_nil_2|]. cbn [fmap list_fmap] in Haddr.
    apply NoDup_cons in Haddr as [Hn Haddr]. rewrite bind_cons, fmap_app. apply NoDup_app. split_and!; [apply observeClient_nodup| |by apply IH].
    intros s (o & -> & Ho)%list_elem_of_fmap (o' & Hs & Ho')%list_elem_of_fmap. apply Hn.
    apply list_elem_of_bind in Ho' as ([st' op'] & Ho' & Hin). apply list_elem_of_fmap. exists (st', op'). split; [|done].
    apply observeClient_pool in Ho, Ho'. unfold series in Hs. injection Hs as _ Hs. rewrite Hs, Ho' in Ho.
    unfold shardPoolName in Ho. injection Ho as Ho. apply app_inv_head in Ho. by injection Ho.
Qed.

Lemma redis_pool_observed_witness :
  connectionCounts {| TotalConns := 3; IdleConns := 5; Timeouts := 0 |} = (0%Z, 3%Z)
  ∧ NoDup (series <$> observe (shardedPoolTarget (Some
      [({| TotalConns := 3; IdleConns := 5; Timeouts := 0 |},
        {| opt_Network := #"tcp"; opt_Addr := #"a:1"; MaxIdleConns := 0; MinIdleConns := 1; MaxActiveConns := 8 |});
       ({| TotalConns := 1; IdleConns := 0; Timeouts := 2 |},
        {| opt_Network := #"tcp"; opt_Addr := #"b:1"; MaxIdleConns := 4; MinIdleConns := 0; MaxActiveConns := 0 |})]) #"p")).
Proof.
  split; [reflexivity|].
  apply (redis_pool_observed {| TotalConns := 3; IdleConns := 5; Timeouts := 0 |}
    {| opt_Network := []; opt_Addr := []; MaxIdleConns := 0; MinIdleConns := 0; MaxActiveConns := 0 |} #"p" _); [cbn; lia|cbn; lia|].
  apply (bool_decide_unpack (NoDup _)). reflexivity.
Defined.
