(* ===== verification/RedisWrap.v ===== *)
(** redis.Wrap and Unwrap, the names of connection pools, and the hooks of a
    cluster's nodes. Wrapping runs concurrently with other calls and with the
    garbage collector: a call is a thread that takes one step up to the mutex of
    the entry it found and one under it, and between steps any other thread may
    run, clients may be made and collected, and addresses used again. Under the
    mutex everything but the names' own lock belongs to the thread, so that part
    is one step. *)
From S2P Require Import Prelude Utf8 GoStrings GoNum GoFields Attribute Semconv RedisHook.

(** * poolNameAllocator *)
Definition numbered (base : bytes) (n : nat) : bytes := base ++ #"-" ++ dec (N.of_nat n).
Definition free (held : gmap bytes Z) (name : bytes) : bool :=
  if (0 <? default 0%Z (held !! name))%Z then false
  else forallb (λ h, negb (HasPrefix h (name ++ #"/"))) (elements (dom held)).
(** The loop from [n]; None when the fuel is out. *)
Fixpoint acquire_from (fuel : nat) (held : gmap bytes Z) (base : bytes) (n : nat) : option bytes :=
  match fuel with
  | O => None
  | S fuel => if free held (numbered base n) then Some (numbered base n) else acquire_from fuel held base (S n)
  end.
Definition acquire_name (held : gmap bytes Z) (base : bytes) : bytes :=
  default [] (acquire_from (S (size held)) held base 1).
Definition acquire (held : gmap bytes Z) (base : bytes) : gmap bytes Z * bytes :=
  let name := acquire_name held base in (<[name := 1%Z]> held, name).
Definition hold (held : gmap bytes Z) (name : bytes) : gmap bytes Z :=
  <[name := (default 0 (held !! name) + 1)%Z]> held.
Definition release (held : gmap bytes Z) (name : bytes) : gmap bytes Z :=
  let n := (default 0 (held !! name) - 1)%Z in
  if (n <=? 0)%Z then delete name held else <[name := n]> held.

(** A name blocks one number of a base only. *)
Lemma numbered_prefix_inj base n m h :
  numbered base n = h ∨ (numbered base n ++ #"/") `prefix_of` h →
  numbered base m = h ∨ (numbered base m ++ #"/") `prefix_of` h → n = m.
Proof.
  assert (Hgo : ∀ (a b : bytes) r s, Forall (λ c, is_digit c = true) a → Forall (λ c, is_digit c = true) b →
    (r = [] ∨ ∃ t, r = "/"%char :: t) → (s = [] ∨ ∃ t, s = "/"%char :: t) → a ++ r = b ++ s → a = b).
  { induction a as [|x a IH]; intros b r s Ha Hb Hr Hs Heq.
    - destruct b as [|y b]; [done|]. cbn in Heq. apply Forall_cons in Hb as [Hy _].
      destruct Hr as [->|[t ->]]; [done|]. injection Heq as <- _. by vm_compute in Hy.
    - destruct b as [|y b]; cbn in Heq.
      + apply Forall_cons in Ha as [Hx _]. destruct Hs as [->|[t ->]]; [done|]. injection Heq as -> _. by vm_compute in Hx.
      + injection Heq as -> Heq. apply Forall_cons in Ha as [_ Ha], Hb as [_ Hb]. f_equal. by apply (IH b r s). }
  intros H1 H2.
  assert (∀ n, numbered base n = h ∨ (numbered base n ++ #"/") `prefix_of` h →
    ∃ r, h = base ++ #"-" ++ dec (N.of_nat n) ++ r ∧ (r = [] ∨ ∃ t, r = "/"%char :: t)) as Hform.
  { intros k [<-|[t ->]]; [exists []; rewrite app_nil_r; split; [done|by left]|].
    exists (#"/" ++ t). unfold numbered. rewrite <- !app_assoc. split; [done|right; by exists t]. }
  destruct (Hform n H1) as (r & Hr & Hr'), (Hform m H2) as (s & Hs & Hs').
  rewrite Hr in Hs. apply app_inv_head, app_inv_head in Hs.
  apply Nat2N.inj, dec_inj. eapply Hgo; [apply dec_all|apply dec_all|exact Hr'|exact Hs'|done].
Qed.

Lemma free_false held name :
  free held name = false → ∃ h, h ∈ dom held ∧ (name = h ∨ (name ++ #"/") `prefix_of` h).
Proof.
  unfold free. destruct (0 <? default 0 (held !! name))%Z eqn:E.
  - intros _. exists name. split; [|by left]. apply elem_of_dom. destruct (held !! name); [by eexists|cbn in E; lia].
  - intros Hf. assert (¬ Forall (λ h, negb (HasPrefix h (name ++ #"/")) = true) (elements (dom held))) as Hn.
    { intros Ha. apply not_true_iff_false in Hf. apply Hf, forallb_forall. intros h Hh. rewrite Forall_forall in Ha.
      by apply Ha, list_elem_of_In. }
    apply not_Forall_Exists in Hn; [|apply _]. apply Exists_exists in Hn as (h & Hh & Hp). exists h.
    split; [by apply elem_of_elements|right]. apply prefixb_spec, not_false_iff_true. intros Hx. apply Hp. unfold HasPrefix. by rewrite Hx.
Qed.

Lemma free_true held name : free held name = true →
  (default 0 (held !! name) ≤ 0)%Z ∧ ∀ h, h ∈ dom held → ¬ (name ++ #"/") `prefix_of` h.
Proof.
  unfold free. destruct (0 <? default 0 (held !! name))%Z eqn:E; [done|]. intros Hf. split; [lia|].
  intros h Hh Hp%prefixb_spec. rewrite forallb_forall in Hf. specialize (Hf h).
  unfold HasPrefix in Hf. rewrite Hp in Hf. assert (negb true = true); [|done]. by apply Hf, list_elem_of_In, elem_of_elements.
Qed.

Lemma acquire_from_spec fuel held base n :
  match acquire_from fuel held base n with
  | Some name => ∃ k, name = numbered base k ∧ n ≤ k ∧ free held name = true ∧ ∀ j, n ≤ j < k → free held (numbered base j) = false
  | None => ∀ j, n ≤ j < n + fuel → free held (numbered base j) = false
  end.
Proof.
  revert n. induction fuel as [|fuel IH]; intros n; cbn [acquire_from]; [intros j; lia|].
  destruct (free held (numbered base n)) eqn:E; [exists n; split_and!; [done|lia|done|lia]|].
  assert (Hj : ∀ j m, (∀ j, S n ≤ j < m → free held (numbered base j) = false) → n ≤ j < m → free held (numbered base j) = false).
  { intros j m Hm Hj. destruct (decide (j = n)) as [->|]; [done|]. apply Hm. lia. }
  specialize (IH (S n)). destruct (acquire_from fuel held base (S n)) as [name|].
  - destruct IH as (k & -> & Hk & Hf & Hno). exists k. split_and!; [done|lia|done|]. intros j. by apply Hj.
  - intros j Hlt. apply (Hj j (S n + fuel)); [done|lia].
Qed.

(** The loop ends: each name held stands in the way of one number at most. *)
Lemma acquire_ends held base : is_Some (acquire_from (S (size held)) held base 1).
Proof.
  pose proof (acquire_from_spec (S (size held)) held base 1) as H. destruct (acquire_from _ _ _ _); [by eexists|]. exfalso.
  assert (∀ l, NoDup l → Forall (λ j, 1 ≤ j < 1 + S (size held)) l →
    ∃ hs, NoDup hs ∧ length hs = length l ∧ Forall (λ h, h ∈ dom held) hs
      ∧ ∀ h, h ∈ hs → ∃ j, j ∈ l ∧ (numbered base j = h ∨ (numbered base j ++ #"/") `prefix_of` h)) as Hl.
  { induction l as [|j l IH]; intros Hd Ha; [exists []; split_and!; [constructor|done|done|by intros h ?%elem_of_nil]|].
    apply NoDup_cons in Hd as [Hj Hd]. apply Forall_cons in Ha as [Hr Ha]. destruct (IH Hd Ha) as (hs & H1 & H2 & H3 & H4).
    destruct (free_false held (numbered base j) (H j Hr)) as (h & Hh & Hb). exists (h :: hs). split_and!.
    - apply NoDup_cons. split; [|done]. intros Hin. destruct (H4 h Hin) as (j' & Hj' & Hb').
      assert (j = j') as -> by by eapply numbered_prefix_inj. done.
    - cbn. by rewrite H2.
    - by constructor.
    - intros h' [->|Hin]%elem_of_cons; [exists j; split; [by left|done]|].
      destruct (H4 h' Hin) as (j' & Hj' & Hb'). exists j'. split; [by right|done]. }
  destruct (Hl (seq 1 (S (size held)))) as (hs & H1 & H2 & H3 & _); [apply NoDup_seq|apply Forall_seq; lia|].
  rewrite length_seq in H2. assert (list_to_set hs ⊆ dom held) as Hsub.
  { intros h Hh%elem_of_list_to_set. rewrite Forall_forall in H3. by apply H3. }
  apply subseteq_size in Hsub. rewrite size_list_to_set, size_dom in Hsub by done. lia.
Qed.

(** A generated pool name: the loop ends, and the name is the base with the
    lowest number, from one, at which no wrapper holds the name and none holds a
    name a cluster would derive from it. *)
Theorem acquire_lowest (held : gmap bytes Z) (base : bytes) :
  ∃ n, acquire held base = (<[numbered base n := 1%Z]> held, numbered base n) ∧ 1 ≤ n
    ∧ (default 0 (held !! numbered base n) ≤ 0)%Z
    ∧ (∀ h, h ∈ dom held → ¬ (numbered base n ++ #"/") `prefix_of` h)
    ∧ ∀ m, 1 ≤ m < n → ∃ h, h ∈ dom held ∧ (numbered base m = h ∨ (numbered base m ++ #"/") `prefix_of` h).
Proof.
  destruct (acquire_ends held base) as [name Hn]. pose proof (acquire_from_spec (S (size held)) held base 1) as H. rewrite Hn in H.
  destruct H as (n & -> & H1 & [H2 H3]%free_true & H4). exists n. split_and!; [|done|done|done|].
  - unfold acquire, acquire_name. by rewrite Hn.
  - intros m Hm. by apply free_false, H4.
Qed.

(** * Clients *)
(** The three client types, with what their options answer. A ring's shards are
    the keys of a map. *)
Inductive go_client :=
  | Client (opt : PoolOptions)
  | ClusterClient (addrs : list bytes)
  | Ring (addrs : gmap bytes bytes).
(** What a redis.UniversalClient may be: nil, one of the three types, whose pointer
    may be nil, or another type, with its name. *)
Inductive UniversalClient := NilClient | Pointer (c : option N) | OtherType (name : bytes).

Definition newClientOps (rdb : UniversalClient) : bytes + N :=
  match rdb with
  | Pointer (Some c) => inr c
  | Pointer None => inl #"redis wrap: client must not be nil"
  | OtherType name => inl (#"redis wrap: unsupported client type " ++ name)
  | NilClient => inl #"redis wrap: unsupported client type <nil>"
  end.
(** The checks before the loop: the error, or the client. *)
Definition Wrap_checks (rdb : UniversalClient) (tp mp : bool) : bytes + N :=
  match rdb with
  | NilClient => inl #"redis wrap: client must not be nil"
  | _ => if negb tp then inl #"redis wrap: tracer provider must not be nil"
         else if negb mp then inl #"redis wrap: meter provider must not be nil"
         else newClientOps rdb
  end.

Definition sentinelAddr : bytes := #"FailoverClient".
(** slices.Min, of a list that is not empty. *)
Definition slices_Min (first : bytes) (rest : list bytes) : bytes :=
  foldl (λ m s, if bytes_leb m s then m else s) first rest.
Definition defaultPoolNameBase (c : go_client) : bytes :=
  match c with
  | Client opt =>
    if bool_decide (opt_Network opt = #"unix") then #"redis-" ++ opt_Addr opt
    else if bool_decide (opt_Addr opt = sentinelAddr) then #"redis-sentinel"
    else
      let parsed := parseAddress (opt_Addr opt) in
      if negb (bool_decide (host parsed = [])) && (0 <? port parsed)%Z then #"redis-" ++ opt_Addr opt else #"redis"
  | ClusterClient [] => #"redis-cluster"
  | ClusterClient (a :: addrs) => #"redis-cluster-" ++ slices_Min a addrs
  | Ring addrs =>
    match elements (dom addrs) with
    | [] => #"redis-ring"
    | a :: names => #"redis-ring-" ++ slices_Min a names
    end
  end.

(** * The entries, and the threads at work on them *)
Record wrapEntry := {
  e_key : N; e_ref : N;  (* the address, and which client it was *)
  e_done : bool; e_disabled : bool; e_reg : bool; e_cleanup : bool;  (* the callback is registered; the cleanup is armed *)
  e_poolName : bytes;
}.
Definition candidate (key ref : N) : wrapEntry :=
  {| e_key := key; e_ref := ref; e_done := false; e_disabled := false; e_reg := false; e_cleanup := false; e_poolName := [] |}.
Definition detached (e : wrapEntry) : wrapEntry :=
  {| e_key := e_key e; e_ref := e_ref e; e_done := e_done e; e_disabled := true; e_reg := false;
     e_cleanup := if e_done e then false else e_cleanup e; e_poolName := [] |}.
Definition named (e : wrapEntry) (name : bytes) : wrapEntry :=
  {| e_key := e_key e; e_ref := e_ref e; e_done := e_done e; e_disabled := e_disabled e; e_reg := e_reg e;
     e_cleanup := e_cleanup e; e_poolName := name |}.
Definition committed (e : wrapEntry) : wrapEntry :=
  {| e_key := e_key e; e_ref := e_ref e; e_done := true; e_disabled := e_disabled e; e_reg := true; e_cleanup := true;
     e_poolName := e_poolName e |}.

Record live_client := { g_key : N; g_client : go_client }.
Inductive thread :=
  | WrapStart (c : N) (opts : list (option Option_))  (* at the head of Wrap's loop *)
  | WrapLock (c : N) (opts : list (option Option_)) (i : nat)  (* at the mutex of the entry it found *)
  | UnwrapStart (c : N)
  | UnwrapLock (c : N) (i : nat)
  | CleanupStart (key ref : N)  (* cleanupWrappedClient, queued by the collector *)
  | CleanupLock (key ref : N) (i : nat).
Record world := {
  alive : gmap N live_client; next_client : N;
  wrappedClients : gmap N nat;  (* the sync.Map: an entry for an address *)
  entries : list wrapEntry;  (* every entry ever made *)
  held : gmap bytes Z;
  running : list thread;
}.
(** What the SDK and go-redis answer to Wrap under the mutex. *)
Inductive answer := InstrumentFails (err : bytes) | PoolFails (err : bytes) | Installed (err : option bytes).

Definition set_entries (w : world) (m : gmap N nat) (es : list wrapEntry) (h : gmap bytes Z) : world :=
  {| alive := alive w; next_client := next_client w; wrappedClients := m; entries := es; held := h; running := running w |}.
Definition set_running (w : world) (ts : list thread) : world :=
  {| alive := alive w; next_client := next_client w; wrappedClients := wrappedClients w; entries := entries w;
     held := held w; running := ts |}.
Definition CompareAndDelete (m : gmap N nat) (key : N) (i : nat) : gmap N nat :=
  if bool_decide (m !! key = Some i) then delete key m else m.
(** detach, and the removal of the entry at [key] after it. *)
Definition detach (w : world) (i : nat) (e : wrapEntry) (key : N) : world :=
  set_entries w (CompareAndDelete (wrappedClients w) key i) (<[i := detached e]> (entries w))
    (if bool_decide (e_poolName e = []) then held w else release (held w) (e_poolName e)).

Section run.
Context `{L : GoUnicode}.

(** The part of Wrap that has found an entry of its own client that is not done. *)
Definition pool_name (w : world) (g : live_client) (opts : list (option Option_)) : gmap bytes Z * bytes :=
  let cfg := newConfig opts in
  if bool_decide (poolName cfg = []) then acquire (held w) (defaultPoolNameBase (g_client g))
  else (hold (held w) (poolName cfg), poolName cfg).
Definition Wrap_commit (w : world) (g : live_client) (opts : list (option Option_)) (i : nat) (e : wrapEntry) (a : answer) :
    world * option bytes :=
  let '(h, name) := pool_name w g opts in
  let e := named e name in
  let w := set_entries w (wrappedClients w) (<[i := e]> (entries w)) h in
  match a with
  | InstrumentFails err => (detach w i e (g_key g), Some (#"redis wrap: create operation duration histogram: " ++ err))
  | PoolFails err => (detach w i e (g_key g), Some err)
  | Installed err =>
    (set_entries w (wrappedClients w) (<[i := committed e]> (entries w)) (held w),
     (λ err, #"redis wrap: install hooks: " ++ err) <$> err)
  end.

(** A step of a function: what it leaves, and the thread it goes on as, or the
    error it returns. *)
Definition outcome : Type := world * (thread + option bytes).
(** Wrap: the head of the loop, and what follows once the mutex is taken. *)
Definition Wrap_lookup (w : world) (c : N) (opts : list (option Option_)) : outcome :=
  match alive w !! c with
  | None => (w, inr None)
  | Some g =>
    match wrappedClients w !! g_key g with
    | Some i => (w, inl (WrapLock c opts i))
    | None =>
      let i := length (entries w) in
      (set_entries w (<[g_key g := i]> (wrappedClients w)) (entries w ++ [candidate (g_key g) c]) (held w), inl (WrapLock c opts i))
    end
  end.
Definition Wrap_locked (w : world) (c : N) (opts : list (option Option_)) (i : nat) (a : answer) : outcome :=
  match alive w !! c, entries w !! i with
  | Some g, Some e =>
    if negb (bool_decide (wrappedClients w !! g_key g = Some i)) then (w, inl (WrapStart c opts))
    else if negb (bool_decide (e_ref e = c)) then (detach w i e (g_key g), inl (WrapStart c opts))
    else if e_done e then (w, inr None)
    else let '(w, err) := Wrap_commit w g opts i e a in (w, inr err)
  | _, _ => (w, inr None)
  end.
(** Unwrap, up to the mutex and from there on. *)
Definition Unwrap_lookup (w : world) (c : N) : outcome :=
  match alive w !! c with
  | None => (w, inr None)
  | Some g => match wrappedClients w !! g_key g with Some i => (w, inl (UnwrapLock c i)) | None => (w, inr None) end
  end.
Definition Unwrap_locked (w : world) (c : N) (i : nat) : outcome :=
  match alive w !! c, entries w !! i with
  | Some g, Some e => if bool_decide (e_ref e = c) then (detach w i e (g_key g), inr None) else (w, inr None)
  | _, _ => (w, inr None)
  end.
(** cleanupWrappedClient, up to the mutex and from there on. *)
Definition cleanup_lookup (w : world) (key ref : N) : outcome :=
  match wrappedClients w !! key with Some i => (w, inl (CleanupLock key ref i)) | None => (w, inr None) end.
Definition cleanup_locked (w : world) (key ref : N) (i : nat) : outcome :=
  match entries w !! i with
  | Some e =>
    if bool_decide (alive w !! e_ref e = None) && bool_decide (e_ref e = ref) then (detach w i e key, inr None) else (w, inr None)
  | None => (w, inr None)
  end.
Definition run (w : world) (t : thread) (a : answer) : outcome :=
  match t with
  | WrapStart c opts => Wrap_lookup w c opts
  | WrapLock c opts i => Wrap_locked w c opts i a
  | UnwrapStart c => Unwrap_lookup w c
  | UnwrapLock c i => Unwrap_locked w c i
  | CleanupStart key ref => cleanup_lookup w key ref
  | CleanupLock key ref i => cleanup_locked w key ref i
  end.

Definition client_of (t : thread) : option N :=
  match t with WrapStart c _ | WrapLock c _ _ | UnwrapStart c | UnwrapLock c _ => Some c | CleanupStart _ _ | CleanupLock _ _ _ => None end.
(** The cleanups the collector queues for a client. *)
Definition queued (w : world) (c : N) : list thread :=
  (λ e, CleanupStart (e_key e) (e_ref e)) <$> filter (λ e, e_ref e = c ∧ e_cleanup e = true) (entries w).

Inductive step (w : world) : world → Prop :=
  | step_make key c : (∀ c' g, alive w !! c' = Some g → g_key g ≠ key) →
      step w {| alive := <[next_client w := {| g_key := key; g_client := c |}]> (alive w); next_client := (next_client w + 1)%N;
                wrappedClients := wrappedClients w; entries := entries w; held := held w; running := running w |}
  | step_collect c : is_Some (alive w !! c) → (∀ t, t ∈ running w → client_of t ≠ Some c) →
      step w {| alive := delete c (alive w); next_client := next_client w; wrappedClients := wrappedClients w;
                entries := entries w; held := held w; running := queued w c ++ running w |}
  | step_wrap c opts : is_Some (alive w !! c) → step w (set_running w (WrapStart c opts :: running w))
  | step_unwrap c : is_Some (alive w !! c) → step w (set_running w (UnwrapStart c :: running w))
  | step_run pre t post a w' r : running w = pre ++ t :: post → run w t a = (w', r) →
      step w (set_running w' (match r with inl t' => pre ++ t' :: post | inr _ => pre ++ post end)).
End run.
Ltac run_step := cbn [run]; unfold Wrap_lookup, Wrap_locked, Unwrap_lookup, Unwrap_locked, cleanup_lookup, cleanup_locked.
Definition empty_world : world :=
  {| alive := ∅; next_client := 0; wrappedClients := ∅; entries := []; held := ∅; running := [] |}.

(** * The names held are those of the entries *)
Definition holders (es : list wrapEntry) (n : bytes) : nat := length (filter (λ e, e_poolName e = n) es).
Definition held_exact (h : gmap bytes Z) (es : list wrapEntry) : Prop :=
  ∀ n z, h !! n = Some z ↔ n ≠ [] ∧ (0 < z)%Z ∧ z = Z.of_nat (holders es n).

Lemma holders_insert es i e e' n : es !! i = Some e →
  holders (<[i := e']> es) n + (if decide (e_poolName e = n) then 1 else 0)
  = holders es n + (if decide (e_poolName e' = n) then 1 else 0).
Proof.
  intros He. unfold holders. rewrite <- (take_drop_middle _ _ _ He) at 2.
  rewrite (insert_take_drop es i e') by (by eapply lookup_lt_Some). rewrite !filter_app, !filter_cons, !length_app.
  repeat case_decide; cbn [length]; lia.
Qed.

Lemma holders_app es e n : e_poolName e = [] → n ≠ [] → holders (es ++ [e]) n = holders es n.
Proof. intros He Hn. unfold holders. rewrite filter_app, filter_cons, decide_False by congruence. by rewrite app_nil_r. Qed.

Lemma held_exact_default h es n : held_exact h es → n ≠ [] → default 0%Z (h !! n) = Z.of_nat (holders es n).
Proof.
  intros Hh Hn. destruct (h !! n) as [z|] eqn:E; cbn; [by apply Hh in E as (_ & _ & ->)|].
  destruct (decide (holders es n = 0)) as [->|Hne]; [done|].
  assert (h !! n = Some (Z.of_nat (holders es n))) by (apply Hh; split_and!; [done|lia|done]). congruence.
Qed.

Lemma held_exact_same h es es' : held_exact h es → (∀ n, n ≠ [] → holders es' n = holders es n) → held_exact h es'.
Proof. intros Hh Hs n z. rewrite (Hh n z). split; intros (H1 & H2 & H3); (split_and!; [done|done|]); [rewrite Hs|rewrite Hs in H3]; done. Qed.

Lemma held_exact_hold h es i e e' :
  held_exact h es → es !! i = Some e → e_poolName e = [] → e_poolName e' ≠ [] →
  held_exact (hold h (e_poolName e')) (<[i := e']> es).
Proof.
  intros Hh He Hn Hne n z. pose proof (holders_insert es i e e' n He) as Hc. unfold hold.
  destruct (decide (n = e_poolName e')) as [->|Hd].
  - rewrite lookup_insert_eq, (held_exact_default h es) by done. rewrite Hn in Hc. rewrite decide_False in Hc by done.
    rewrite decide_True in Hc by done. split; [intros [= <-]; split_and!; [done|lia|lia]|intros (_ & _ & ->); f_equal; lia].
  - rewrite lookup_insert_ne by done. rewrite (Hh n z). rewrite Hn in Hc. rewrite (decide_False (P := e_poolName e' = n)) in Hc by done.
    case_decide as E; [split; intros (H0 & _); congruence|]. assert (holders (<[i:=e']> es) n = holders es n) as -> by lia. done.
Qed.

Lemma held_exact_release h es i e e' :
  held_exact h es → es !! i = Some e → e_poolName e ≠ [] → e_poolName e' = [] →
  held_exact (release h (e_poolName e)) (<[i := e']> es).
Proof.
  intros Hh He Hne Hn n z. pose proof (holders_insert es i e e' n He) as Hc. unfold release. cbv zeta.
  rewrite (held_exact_default h es) by done. pose proof (holders_insert es i e e' (e_poolName e) He) as Hown.
  rewrite decide_True, decide_False in Hown by congruence.
  destruct (decide (n = e_poolName e)) as [->|Hd].
  - destruct (_ <=? 0)%Z eqn:E; [rewrite lookup_delete_eq|rewrite lookup_insert_eq].
    + split; [done|intros (_ & ? & ->); lia].
    + split; [intros [= <-]; split_and!; [done|lia|lia]|intros (_ & _ & ->); f_equal; lia].
  - rewrite (decide_False (P := e_poolName e = n)) in Hc by congruence.
    assert (Hs : n ≠ [] → holders (<[i:=e']> es) n = holders es n) by (intros; rewrite decide_False in Hc by congruence; lia).
    destruct (_ <=? 0)%Z; [rewrite lookup_delete_ne by done|rewrite lookup_insert_ne by done];
      rewrite (Hh n z); split; intros (H1 & H2 & H3); (split_and!; [done|done|]); [rewrite Hs|rewrite Hs in H3|rewrite Hs|rewrite Hs in H3]; done.
Qed.

(** Giving back what was just taken. *)
Lemma release_hold h es n : held_exact h es → n ≠ [] → release (hold h n) n = h.
Proof.
  intros Hh Hn. unfold release, hold. cbv zeta. rewrite lookup_insert_eq. destruct (h !! n) as [z|] eqn:E; cbn [default from_option].
  - apply Hh in E as Hz. replace (id (id z + 1) - 1)%Z with z by (unfold id; lia). destruct (z <=? 0)%Z eqn:Ez; [lia|].
    rewrite insert_insert_eq. by apply insert_id.
  - cbn. rewrite delete_insert_eq. by apply delete_id.
Qed.

Lemma acquire_hold h es base : held_exact h es →
  acquire h base = (hold h (acquire_name h base), acquire_name h base) ∧ acquire_name h base ≠ [] ∧ h !! acquire_name h base = None.
Proof.
  intros Hh. destruct (acquire_ends h base) as [name Hn]. pose proof (acquire_from_spec (S (size h)) h base 1) as H. rewrite Hn in H.
  destruct H as (n & Hname & _ & [Hf _]%free_true & _). unfold acquire, acquire_name. rewrite Hn. cbn [default from_option id].
  assert (h !! name = None) as Hnone.
  { destruct (h !! name) as [z|] eqn:E; [|done]. cbn in Hf. apply Hh in E. lia. }
  split_and!; [|subst name; unfold numbered; by destruct base|done]. unfold hold. by rewrite Hnone.
Qed.

(** * The invariant *)
(** What an entry that is on has: once it is done, its callback, its cleanup and a
    name, and a cleanup on its way if its client is gone; before that, a thread of
    its client at work on it. *)
Definition on_ok (al : gmap N live_client) (rs : list thread) (i : nat) (e : wrapEntry) : Prop :=
  if e_done e then
    e_reg e = true ∧ e_cleanup e = true ∧ e_poolName e ≠ []
    ∧ (al !! e_ref e = None → CleanupStart (e_key e) (e_ref e) ∈ rs ∨ CleanupLock (e_key e) (e_ref e) i ∈ rs)
  else e_reg e = false ∧ e_cleanup e = false ∧ e_poolName e = [] ∧ ∃ opts, WrapLock (e_ref e) opts i ∈ rs.
Definition at_entry (al : gmap N live_client) (es : list wrapEntry) (c : N) (i : nat) : Prop :=
  ∃ g e, al !! c = Some g ∧ es !! i = Some e ∧ e_key e = g_key g.
Definition thread_ok (al : gmap N live_client) (next : N) (es : list wrapEntry) (t : thread) : Prop :=
  match t with
  | WrapStart c _ | UnwrapStart c => is_Some (al !! c)
  | WrapLock c _ i | UnwrapLock c i => at_entry al es c i
  | CleanupStart key ref => al !! ref = None ∧ (ref < next)%N
  | CleanupLock key ref i => al !! ref = None ∧ (ref < next)%N ∧ ∃ e, es !! i = Some e ∧ e_key e = key
  end.
Record inv (w : world) : Prop := {
  i_next : ∀ c g, alive w !! c = Some g → (c < next_client w)%N;
  i_key : ∀ c c' g g', alive w !! c = Some g → alive w !! c' = Some g' → g_key g = g_key g' → c = c';
  i_map : ∀ k i, wrappedClients w !! k = Some i ↔ ∃ e, entries w !! i = Some e ∧ e_key e = k ∧ e_disabled e = false;
  i_ref : ∀ i e, entries w !! i = Some e → (e_ref e < next_client w)%N ∧ ∀ g, alive w !! e_ref e = Some g → e_key e = g_key g;
  i_off : ∀ i e, entries w !! i = Some e → e_disabled e = true → e_reg e = false ∧ e_poolName e = [] ∧ e_cleanup e = false;
  i_on : ∀ i e, entries w !! i = Some e → e_disabled e = false → on_ok (alive w) (running w) i e;
  i_held : held_exact (held w) (entries w);
  i_threads : ∀ t, t ∈ running w → thread_ok (alive w) (next_client w) (entries w) t;
}.

Lemma inv_empty : inv empty_world.
Proof.
  split.
  - intros c g. cbn. by rewrite lookup_empty.
  - intros c c' g g'. cbn. by rewrite lookup_empty.
  - intros k i. cbn. rewrite lookup_empty. split; [done|]. by intros (e & He & _).
  - by intros i e He.
  - by intros i e He.
  - by intros i e He.
  - intros n z. cbn. rewrite lookup_empty. split; [done|]. unfold holders. cbn. intros (_ & ? & ->). lia.
  - intros t. by rewrite elem_of_nil.
Qed.

(** Entries keep their place and their address. *)
Definition same_places (es es' : list wrapEntry) : Prop := ∀ i e, es !! i = Some e → ∃ e', es' !! i = Some e' ∧ e_key e' = e_key e.
Lemma same_places_insert es i e e' : es !! i = Some e → e_key e' = e_key e → same_places es (<[i := e']> es).
Proof.
  intros He Hk j f Hf. destruct (decide (i = j)) as [->|Hd].
  - exists e'. rewrite list_lookup_insert_eq by (by eapply lookup_lt_Some). split; [done|congruence].
  - exists f. by rewrite list_lookup_insert_ne.
Qed.
Lemma same_places_app es l : same_places es (es ++ l).
Proof. intros i e He. exists e. split; [by apply lookup_app_l_Some|done]. Qed.
Lemma thread_ok_places al next es es' t : same_places es es' → thread_ok al next es t → thread_ok al next es' t.
Proof.
  intros Hs. destruct t; cbn; unfold at_entry; try done.
  - intros (g & e & Hg & (e' & He' & Hk)%Hs & Hk'). exists g, e'. split_and!; [done|done|congruence].
  - intros (g & e & Hg & (e' & He' & Hk)%Hs & Hk'). exists g, e'. split_and!; [done|done|congruence].
  - intros (H1 & H2 & e & (e' & He' & Hk)%Hs & Hk'). split_and!; [done|done|]. exists e'. split; [done|congruence].
Qed.

(** A step that only moves threads on. *)
Lemma inv_quiet w rs : inv w →
  (∀ t, t ∈ rs → t ∈ running w ∨ thread_ok (alive w) (next_client w) (entries w) t) →
  (∀ i e, entries w !! i = Some e → e_disabled e = false → on_ok (alive w) rs i e) →
  inv (set_running w rs).
Proof.
  intros [] Hrs Hon. split; try done. cbn. intros t Ht. destruct (Hrs t Ht); [by apply i_threads0|done].
Qed.

(** on_ok needs only the threads at the entry. *)
Definition at_index (i : nat) (t : thread) : Prop :=
  match t with WrapLock _ _ j | UnwrapLock _ j | CleanupLock _ _ j => j = i | _ => False end.
Lemma on_ok_mono al rs rs' i e :
  on_ok al rs i e → (∀ t, t ∈ rs → at_index i t ∨ (∃ ref, t = CleanupStart (e_key e) ref) → t ∈ rs') → on_ok al rs' i e.
Proof.
  unfold on_ok. intros H Hs. destruct (e_done e).
  - destruct H as (H1 & H2 & H3 & H4). split_and!; [done|done|done|]. intros Hn.
    destruct (H4 Hn) as [Hin|Hin]; [left; apply Hs; [done|right; by eexists]|right; apply Hs; [done|by left]].
  - destruct H as (H1 & H2 & H3 & opts & Hin). split_and!; [done|done|done|]. exists opts. apply Hs; [done|by left].
Qed.

(** A detach: the threads at other entries stay. *)
Lemma inv_detach w i e key rs : inv w → entries w !! i = Some e → e_key e = key →
  (∀ t, t ∈ rs → t ∈ running w ∨ thread_ok (alive w) (next_client w) (entries w) t) →
  (∀ t, t ∈ running w → ¬ at_index i t → t ∈ rs) →
  inv (set_running (detach w i e key) rs).
Proof.
  intros [Hnext Hkey Hmap Href Hoff Hon Hheld Hth] He Hk Hrs Hkeep. assert (Hi : i < length (entries w)) by by eapply lookup_lt_Some.
  assert (Hlook : ∀ j f, <[i:=detached e]> (entries w) !! j = Some f → j = i ∧ f = detached e ∨ j ≠ i ∧ entries w !! j = Some f).
  { intros j f. destruct (decide (i = j)) as [<-|Hd]; [rewrite list_lookup_insert_eq by done; intros [= <-]; by left|].
    rewrite list_lookup_insert_ne by done. by right. }
  split; cbn.
  - done.
  - done.
  - intros k j. unfold CompareAndDelete. split.
    + intros Hl. assert (wrappedClients w !! k = Some j ∧ j ≠ i) as [Hl' Hne].
      { case_bool_decide as Hc; [apply lookup_delete_Some in Hl as [Hne Hl]; split; [done|]|split; [done|]]; intros ->.
        - apply Hmap in Hl as (e1 & He1 & <- & _). congruence.
        - apply Hmap in Hl as Hl'. destruct Hl' as (e1 & He1 & Hk1 & _). congruence. }
      apply Hmap in Hl' as (f & Hf & Hkf & Hdf). exists f. by rewrite list_lookup_insert_ne.
    + intros (f & [(-> & ->)|[Hne Hf]]%Hlook & Hkf & Hdf); [done|]. assert (wrappedClients w !! k = Some j) as Hl by (apply Hmap; eauto).
      case_bool_decide as Hc; [|done]. rewrite lookup_delete_ne; [done|]. intros ->. rewrite Hl in Hc. congruence.
  - intros j f [(-> & ->)|[Hne Hf]]%Hlook; [by apply (Href i e)|by apply (Href j f)].
  - intros j f [(-> & ->)|[Hne Hf]]%Hlook; [|by apply (Hoff j f)]. intros _. cbn. split_and!; [done|done|].
    destruct (e_done e) eqn:Ed; [done|]. destruct (e_disabled e) eqn:Eo; [by apply (Hoff i e)|].
    specialize (Hon i e He Eo). unfold on_ok in Hon. rewrite Ed in Hon. apply Hon.
  - intros j f [(-> & ->)|[Hne Hf]]%Hlook; [done|]. intros Hdf. eapply on_ok_mono; [by apply (Hon j f)|].
    intros t Ht Hat. apply Hkeep; [done|]. intros Hati. destruct Hat as [Hat|[ref ->]]; [|done].
    destruct t; cbn in Hat, Hati; congruence.
  - case_bool_decide as En.
    + eapply held_exact_same; [exact Hheld|]. intros n Hn. pose proof (holders_insert _ i e (detached e) n He) as Hc.
      cbn [e_poolName detached] in Hc. rewrite En in Hc. rewrite decide_False in Hc by done. lia.
    + by eapply held_exact_release.
  - intros t Ht. assert (thread_ok (alive w) (next_client w) (entries w) t) as Hok by (destruct (Hrs t Ht); [by apply Hth|done]).
    eapply thread_ok_places; [|exact Hok]. by apply (same_places_insert _ _ e).
Qed.

(** An entry of a client that is alive is done. *)
Lemma inv_commit w i e name rs : inv w → entries w !! i = Some e → e_disabled e = false → e_done e = false → is_Some (alive w !! e_ref e) →
  name ≠ [] →
  (∀ t, t ∈ rs → t ∈ running w) → (∀ t, t ∈ running w → ¬ at_index i t → t ∈ rs) →
  inv (set_running (set_entries w (wrappedClients w) (<[i := committed (named e name)]> (entries w)) (hold (held w) name)) rs).
Proof.
  intros [Hnext Hkey Hmap Href Hoff Hon Hheld Hth] He Ho Hd Hal Hn Hrs Hkeep. assert (Hi : i < length (entries w)) by by eapply lookup_lt_Some.
  set (e' := committed (named e name)).
  assert (Hlook : ∀ j f, <[i:=e']> (entries w) !! j = Some f → j = i ∧ f = e' ∨ j ≠ i ∧ entries w !! j = Some f).
  { intros j f. destruct (decide (i = j)) as [<-|Hne]; [rewrite list_lookup_insert_eq by done; intros [= <-]; by left|].
    rewrite list_lookup_insert_ne by done. by right. }
  pose proof (Hon i e He Ho) as Hoe. unfold on_ok in Hoe. rewrite Hd in Hoe. destruct Hoe as (_ & _ & Hpn & _).
  split; cbn.
  - done.
  - done.
  - intros k j. rewrite Hmap. split.
    + intros (f & Hf & Hk & Hdf). destruct (decide (i = j)) as [<-|Hne].
      * exists e'. rewrite list_lookup_insert_eq by done. rewrite He in Hf. injection Hf as <-. done.
      * exists f. by rewrite list_lookup_insert_ne.
    + intros (f & [(-> & ->)|[Hne Hf]]%Hlook & Hk & Hdf); [by exists e|by exists f].
  - intros j f [(-> & ->)|[Hne Hf]]%Hlook; [by apply (Href i e)|by apply (Href j f)].
  - intros j f [(-> & ->)|[Hne Hf]]%Hlook; [cbn; congruence|by apply (Hoff j f)].
  - intros j f [(-> & ->)|[Hne Hf]]%Hlook Hdf.
    + unfold on_ok. cbn. split_and!; [done|done|done|]. intros Hx. rewrite Hx in Hal. by destruct Hal.
    + eapply on_ok_mono; [by apply (Hon j f)|]. intros t Ht Hat. apply Hkeep; [done|]. intros Hati. destruct Hat as [Hat|[ref ->]]; [|done].
      destruct t; cbn in Hat, Hati; congruence.
  - by apply (held_exact_hold _ _ i e e').
  - intros t Ht%Hrs%Hth. eapply thread_ok_places; [|exact Ht]. by apply (same_places_insert _ _ e).
Qed.

Section preserved.
Context `{L : GoUnicode}.

Lemma pool_name_hold w g opts : held_exact (held w) (entries w) →
  ∃ name, pool_name w g opts = (hold (held w) name, name) ∧ name ≠ []
    ∧ (poolName (newConfig opts) = [] → name = acquire_name (held w) (defaultPoolNameBase (g_client g)))
    ∧ (poolName (newConfig opts) ≠ [] → name = poolName (newConfig opts)).
Proof.
  intros Hh. unfold pool_name. case_bool_decide as E.
  - destruct (acquire_hold (held w) (entries w) (defaultPoolNameBase (g_client g)) Hh) as (-> & Hn & _). eexists. split_and!; [done|done|done|congruence].
  - eexists. split_and!; [done|done|congruence|done].
Qed.

(** Wrap under the mutex either leaves what detaching the entry as it was would,
    or commits it. *)
Lemma Wrap_commit_spec w g opts i e a : held_exact (held w) (entries w) → entries w !! i = Some e → e_poolName e = [] →
  match a with
  | InstrumentFails _ | PoolFails _ => (Wrap_commit w g opts i e a).1 = detach w i e (g_key g) ∧ is_Some (Wrap_commit w g opts i e a).2
  | Installed err => ∃ name, pool_name w g opts = (hold (held w) name, name) ∧ name ≠ [] ∧
      (Wrap_commit w g opts i e a).1 = set_entries w (wrappedClients w) (<[i := committed (named e name)]> (entries w)) (hold (held w) name)
      ∧ (Wrap_commit w g opts i e a).2 = (λ err, #"redis wrap: install hooks: " ++ err) <$> err
  end.
Proof.
  intros Hh He Hn. destruct (pool_name_hold w g opts Hh) as (name & Hp & Hne & _).
  assert (Hrel : release (hold (held w) name) name = held w) by by eapply release_hold.
  unfold Wrap_commit. rewrite Hp. destruct a as [err|err|err]; cbn [fst snd].
  - split; [|by eexists]. unfold detach, set_entries. cbn. rewrite bool_decide_false, Hrel, list_insert_insert_eq by done.
    by rewrite bool_decide_true.
  - split; [|by eexists]. unfold detach, set_entries. cbn. rewrite bool_decide_false, Hrel, list_insert_insert_eq by done.
    by rewrite bool_decide_true.
  - exists name. split_and!; [done|done| |done]. unfold set_entries. cbn. by rewrite list_insert_insert_eq.
Qed.

Lemma inv_make w key c : inv w → (∀ c' g, alive w !! c' = Some g → g_key g ≠ key) →
  inv {| alive := <[next_client w := {| g_key := key; g_client := c |}]> (alive w); next_client := (next_client w + 1)%N;
         wrappedClients := wrappedClients w; entries := entries w; held := held w; running := running w |}.
Proof.
  intros [Hnext Hkey Hmap Href Hoff Hon Hheld Hth] Hnew.
  assert (Hsome : ∀ c' g, alive w !! c' = Some g → <[next_client w := {| g_key := key; g_client := c |}]> (alive w) !! c' = Some g).
  { intros c' g Hg. rewrite lookup_insert_ne; [done|]. intros <-. apply Hnext in Hg. lia. }
  assert (Hnone : ∀ c', (c' < next_client w)%N → <[next_client w := {| g_key := key; g_client := c |}]> (alive w) !! c' = alive w !! c').
  { intros c' Hc. rewrite lookup_insert_ne; [done|]. lia. }
  split; cbn; try done.
  - intros c' g [[<- _]|[_ Hg%Hnext]]%lookup_insert_Some; lia.
  - intros c1 c2 g1 g2 [[<- <-]|[Hn1 H1]]%lookup_insert_Some [[<- <-]|[Hn2 H2]]%lookup_insert_Some Heq; [done| | |by eapply Hkey].
    + by edestruct Hnew.
    + by edestruct Hnew.
  - intros i e He. destruct (Href i e He) as [Hr Hk]. split; [lia|]. rewrite Hnone by done. done.
  - intros i e He Hd. unfold on_ok. rewrite Hnone; [by apply (Hon i e)|]. by apply (Href i e).
  - intros t Ht%Hth. destruct t; cbn in Ht |- *; unfold at_entry in *.
    + destruct Ht as [g Hg]. exists g. by apply Hsome.
    + destruct Ht as (g & e & Hg & ?). exists g, e. split; [by apply Hsome|done].
    + destruct Ht as [g Hg]. exists g. by apply Hsome.
    + destruct Ht as (g & e & Hg & ?). exists g, e. split; [by apply Hsome|done].
    + destruct Ht as [Hd Hlt]. rewrite Hnone by done. split; [done|lia].
    + destruct Ht as (Hd & Hlt & ?). rewrite Hnone by done. split_and!; [done|lia|done].
Qed.

Lemma inv_collect w c : inv w → is_Some (alive w !! c) → (∀ t, t ∈ running w → client_of t ≠ Some c) →
  inv {| alive := delete c (alive w); next_client := next_client w; wrappedClients := wrappedClients w;
         entries := entries w; held := held w; running := queued w c ++ running w |}.
Proof.
  intros [Hnext Hkey Hmap Href Hoff Hon Hheld Hth] Hal Hfree.
  assert (Hthok : ∀ t, client_of t ≠ Some c → thread_ok (alive w) (next_client w) (entries w) t →
    thread_ok (delete c (alive w)) (next_client w) (entries w) t).
  { intros t Hc Ht. destruct t; cbn in *; unfold at_entry in *.
    - by rewrite lookup_delete_ne by congruence.
    - by rewrite lookup_delete_ne by congruence.
    - by rewrite lookup_delete_ne by congruence.
    - by rewrite lookup_delete_ne by congruence.
    - destruct Ht. split; [|done]. by rewrite lookup_delete_None; right.
    - destruct Ht as (?&?&?). split_and!; [|done|done]. by rewrite lookup_delete_None; right. }
  assert (Hq : ∀ t, t ∈ queued w c → ∃ i e, entries w !! i = Some e ∧ e_ref e = c ∧ t = CleanupStart (e_key e) c).
  { intros t (e & -> & ((Hr & Hc) & He)%list_elem_of_filter)%list_elem_of_fmap. apply list_elem_of_lookup in He as [i Hi].
    exists i, e. by rewrite Hr. }
  split; cbn; try done.
  - intros c' g [_ Hg]%lookup_delete_Some. by apply (Hnext c' g).
  - intros c1 c2 g1 g2 [_ H1]%lookup_delete_Some [_ H2]%lookup_delete_Some. by apply Hkey.
  - intros i e He. destruct (Href i e He) as [Hr Hk]. split; [done|]. intros g [_ Hg]%lookup_delete_Some. by apply Hk.
  - intros i e He Hd. specialize (Hon i e He Hd). unfold on_ok in *. destruct (e_done e) eqn:Ed.
    + destruct Hon as (H1 & H2 & H3 & H4). split_and!; [done|done|done|]. intros Hn.
      destruct (decide (e_ref e = c)) as [Hc|Hc].
      * left. apply elem_of_app. left. unfold queued. apply list_elem_of_fmap. exists e. split; [done|].
        apply list_elem_of_filter. split; [done|]. by apply list_elem_of_lookup_2 in He.
      * rewrite lookup_delete_ne in Hn by done. destruct (H4 Hn); [left|right]; apply elem_of_app; by right.
    + destruct Hon as (H1 & H2 & H3 & opts & Ho). split_and!; [done|done|done|]. exists opts. apply elem_of_app. by right.
  - intros t [Ht|Ht]%elem_of_app; [|by apply Hthok; [apply Hfree|apply Hth]].
    destruct (Hq t Ht) as (i & e & He & Hr & ->). cbn. rewrite lookup_delete_eq. split; [done|]. rewrite <- Hr. by apply (Href i e).
Qed.

Lemma inv_spawn w t : inv w → thread_ok (alive w) (next_client w) (entries w) t → inv (set_running w (t :: running w)).
Proof.
  intros Hi Ht. apply inv_quiet; [done| |].
  - intros t' [->|?]%elem_of_cons; [by right|by left].
  - intros i e He Hd. eapply on_ok_mono; [by apply (i_on w Hi i e)|]. intros t' Hin _. by right.
Qed.

(** A fresh entry for a thread. *)
Lemma inv_store w c g opts pre post : inv w → alive w !! c = Some g → wrappedClients w !! g_key g = None →
  running w = pre ++ WrapStart c opts :: post →
  inv (set_running (set_entries w (<[g_key g := length (entries w)]> (wrappedClients w)) (entries w ++ [candidate (g_key g) c]) (held w))
    (pre ++ WrapLock c opts (length (entries w)) :: post)).
Proof.
  intros [Hnext Hkey Hmap Href Hoff Hon Hheld Hth] Hg Hnone Hrun.
  set (fresh := candidate (g_key g) c). set (n := length (entries w)).
  assert (Hlook : ∀ j f, (entries w ++ [fresh]) !! j = Some f → j = n ∧ f = fresh ∨ j < n ∧ entries w !! j = Some f).
  { intros j f [Hf|[Hle Hf]]%lookup_app_Some; [right; split; [by eapply lookup_lt_Some|done]|].
    apply list_lookup_singleton_Some in Hf as [Hz <-]. left. unfold n. split; [lia|done]. }
  assert (Hnew : (entries w ++ [fresh]) !! n = Some fresh) by by apply list_lookup_middle.
  assert (Hkeep : ∀ t, t ∈ running w → t ≠ WrapStart c opts → t ∈ pre ++ WrapLock c opts n :: post).
  { intros t. rewrite Hrun, !elem_of_app, !elem_of_cons. tauto. }
  split; cbn; try done.
  - intros k j. split.
    + intros [[<- <-]|[Hne Hl]]%lookup_insert_Some; [exists fresh; done|]. apply Hmap in Hl as (f & Hf & ?).
      exists f. split; [by apply lookup_app_l_Some|done].
    + intros (f & [(-> & ->)|[Hlt Hf]]%Hlook & Hk & Hd); [cbn in Hk; subst k; by rewrite lookup_insert_eq|].
      assert (wrappedClients w !! k = Some j) as Hl by (apply Hmap; eauto). rewrite lookup_insert_ne; [done|]. congruence.
  - intros j f [(-> & ->)|[Hlt Hf]]%Hlook; [|by apply (Href j f)]. cbn. split; [by eapply Hnext|congruence].
  - intros j f [(-> & ->)|[Hlt Hf]]%Hlook; [done|by apply (Hoff j f)].
  - intros j f [(-> & ->)|[Hlt Hf]]%Hlook Hd.
    + unfold on_ok. cbn. split_and!; [done|done|done|]. exists opts. rewrite elem_of_app, elem_of_cons. tauto.
    + eapply on_ok_mono; [by apply (Hon j f)|]. intros t Ht Hat. apply Hkeep; [done|]. intros ->. by destruct Hat as [?|[? ?]].
  - eapply held_exact_same; [exact Hheld|]. intros n' Hn'. by apply holders_app.
  - intros t. rewrite elem_of_app, elem_of_cons. intros Ht. assert (t = WrapLock c opts n ∨ t ∈ running w) as [->|Hin].
    { rewrite Hrun, elem_of_app, elem_of_cons. tauto. }
    + cbn. exists g, fresh. done.
    + apply Hth in Hin. eapply thread_ok_places; [apply same_places_app|done].
Qed.
End preserved.

Section reachable.
Context `{L : GoUnicode}.

Lemma concerns_dec i k t : Decision (at_index i t ∨ ∃ ref, t = CleanupStart k ref).
Proof.
  destruct t as [c o|c o j|c|c j|key ref|key ref j]; cbn; try (by right; intros [?|[? ?]]);
    try (destruct (decide (j = i)); [left; by left|right; intros [?|[? ?]]; done]).
  destruct (decide (key = k)) as [->|Hn]; [left; right; by eexists|right; intros [?|[? [= ? ?]]]; done].
Defined.

(** A thread goes on, or ends, with nothing else changed. *)
Lemma inv_moves w pre t post ts : inv w → running w = pre ++ t :: post →
  (∀ t', t' ∈ ts → thread_ok (alive w) (next_client w) (entries w) t') →
  (∀ i e, entries w !! i = Some e → e_disabled e = false → at_index i t ∨ (∃ ref, t = CleanupStart (e_key e) ref) →
     on_ok (alive w) (pre ++ ts ++ post) i e) →
  inv (set_running w (pre ++ ts ++ post)).
Proof.
  intros Hi Hrun Hts Hon. apply inv_quiet; [done| |].
  - intros t'. rewrite Hrun, !elem_of_app, elem_of_cons. intros [?|[?|?]]; [tauto|right; by apply Hts|tauto].
  - intros i e He Hd. pose proof (i_on w Hi i e He Hd) as Ho.
    destruct (concerns_dec i (e_key e) t) as [Ha|Hna]; [by apply Hon|].
    eapply on_ok_mono; [exact Ho|]. intros t' Hin Hat. rewrite Hrun, !elem_of_app, elem_of_cons in *.
    destruct Hin as [?|[->|?]]; [tauto|done|tauto].
Qed.

Lemma inv_detach_run w pre t post ts i e key : inv w → running w = pre ++ t :: post → entries w !! i = Some e → e_key e = key →
  at_index i t → (∀ t', t' ∈ ts → thread_ok (alive w) (next_client w) (entries w) t') →
  inv (set_running (detach w i e key) (pre ++ ts ++ post)).
Proof.
  intros Hi Hrun He Hk Hat Hts. apply inv_detach; [done|done|done| |]; intros t'; rewrite Hrun, !elem_of_app, elem_of_cons.
  - intros [?|[?|?]]; [tauto|right; by apply Hts|tauto].
  - intros [?|[->|?]]; tauto.
Qed.

(** Which threads of an entry a thread of another kind at it leaves behind. *)
Lemma on_ok_other w pre t post ts i e : inv w → running w = pre ++ t :: post → entries w !! i = Some e → e_disabled e = false →
  (∀ opts, t ≠ WrapLock (e_ref e) opts i) →
  (alive w !! e_ref e = None → t ≠ CleanupStart (e_key e) (e_ref e) ∧ t ≠ CleanupLock (e_key e) (e_ref e) i) →
  on_ok (alive w) (pre ++ ts ++ post) i e.
Proof.
  intros Hi Hrun He Hd Hw Hc. pose proof (i_on w Hi i e He Hd) as Ho. unfold on_ok in *.
  assert (Hin : ∀ t', t' ∈ running w → t' ≠ t → t' ∈ pre ++ ts ++ post).
  { intros t'. rewrite Hrun, !elem_of_app, elem_of_cons. tauto. }
  destruct (e_done e).
  - destruct Ho as (H1 & H2 & H3 & H4). split_and!; [done|done|done|]. intros Hn. destruct (Hc Hn) as [Hc1 Hc2].
    destruct (H4 Hn) as [H|H]; [left|right]; apply Hin; [done|congruence|done|congruence].
  - destruct Ho as (H1 & H2 & H3 & opts & H). split_and!; [done|done|done|]. exists opts. apply Hin; [done|]. intros Heq. by apply (Hw opts).
Qed.

Lemma inv_ends w pre t post : inv w → running w = pre ++ t :: post →
  (∀ i e, entries w !! i = Some e → e_disabled e = false → at_index i t ∨ (∃ ref, t = CleanupStart (e_key e) ref) →
     on_ok (alive w) (pre ++ post) i e) →
  inv (set_running w (pre ++ post)).
Proof. intros Hi Hrun Hon. apply (inv_moves w pre t post [] Hi Hrun); [by intros t' ?%elem_of_nil|done]. Qed.
Lemma inv_detach_ends w pre t post i e key : inv w → running w = pre ++ t :: post → entries w !! i = Some e → e_key e = key →
  at_index i t → inv (set_running (detach w i e key) (pre ++ post)).
Proof. intros Hi Hrun He Hk Ha. apply (inv_detach_run w pre t post [] i e); try done. by intros t' ?%elem_of_nil. Qed.

Lemma WrapLock_inv w pre c opts i post a w' r : inv w → running w = pre ++ WrapLock c opts i :: post → run w (WrapLock c opts i) a = (w', r) →
  inv (set_running w' (match r with inl t' => pre ++ t' :: post | inr _ => pre ++ post end)).
Proof.
  intros Hi Hrun. assert (Ht : at_entry (alive w) (entries w) c i) by (apply (i_threads w Hi (WrapLock c opts i)); rewrite Hrun; set_solver).
  destruct Ht as (g & e & Hg & He & Hk). run_step. rewrite Hg, He.
  assert (Hstart : ∀ t', t' ∈ [WrapStart c opts] → thread_ok (alive w) (next_client w) (entries w) t').
  { intros t' ->%list_elem_of_singleton. cbn. by eexists. }
  case_bool_decide as Hcan; cbn [negb].
  2: { intros [= <- <-]. apply (inv_moves w pre _ post [_] Hi Hrun Hstart). intros j f Hf Hd [Hj|[? ?]]; [|done].
       cbn in Hj. subst j. exfalso. apply Hcan. apply (i_map w Hi). exists f. rewrite He in Hf. by injection Hf as <-. }
  case_bool_decide as Href; cbn [negb]; [|intros [= <- <-]; by apply (inv_detach_run w pre _ post [_] i e _ Hi Hrun)].
  assert (e_disabled e = false) as Hon. { apply (i_map w Hi) in Hcan as (f & Hf & _ & Hd). congruence. }
  pose proof (i_on w Hi i e He Hon) as Ho. unfold on_ok in Ho. destruct (e_done e) eqn:Hd.
  { intros [= <- <-]. apply (inv_ends w pre _ post Hi Hrun). intros j f Hf Hfd [Hj|[? ?]]; [|done].
    cbn in Hj. subst j. rewrite He in Hf. injection Hf as <-. unfold on_ok. rewrite Hd.
    destruct Ho as (H1 & H2 & H3 & _). split_and!; [done|done|done|]. intros Hn. congruence. }
  destruct Ho as (_ & _ & Hpn & _).
  pose proof (Wrap_commit_spec w g opts i e a (i_held w Hi) He Hpn) as Hc. destruct (Wrap_commit w g opts i e a) as [w1 res]. cbn [fst snd] in Hc.
  intros [= <- <-]. destruct a as [err|err|err].
  - destruct Hc as [-> _]. by apply (inv_detach_ends w pre _ post i e _ Hi Hrun).
  - destruct Hc as [-> _]. by apply (inv_detach_ends w pre _ post i e _ Hi Hrun).
  - destruct Hc as (name & _ & Hne & -> & _). apply inv_commit; try done; [rewrite Href; by eexists| |].
    + intros t'. rewrite Hrun, !elem_of_app, elem_of_cons. tauto.
    + intros t'. rewrite Hrun, !elem_of_app, elem_of_cons. intros [?|[->|?]]; [tauto|by cbn|tauto].
Qed.

Lemma CleanupStart_inv w pre key ref post a w' r : inv w → running w = pre ++ CleanupStart key ref :: post → run w (CleanupStart key ref) a = (w', r) →
  inv (set_running w' (match r with inl t' => pre ++ t' :: post | inr _ => pre ++ post end)).
Proof.
  intros Hi Hrun. assert (Ht : thread_ok (alive w) (next_client w) (entries w) (CleanupStart key ref)) by (apply (i_threads w Hi); rewrite Hrun; set_solver).
  destruct Ht as [Hdead Hlt]. run_step. destruct (wrappedClients w !! key) as [i|] eqn:Hm; intros [= <- <-].
  - apply (i_map w Hi) in Hm as Hm'. destruct Hm' as (e & He & Hk & Hd). apply (inv_moves w pre _ post [_] Hi Hrun).
    + intros t' ->%list_elem_of_singleton. cbn. split_and!; [done|done|by eexists].
    + intros j f Hf Hfd [?|[ref' [= -> ->]]]; [done|]. assert (wrappedClients w !! e_key f = Some j) as Hj by (apply (i_map w Hi); eauto).
      rewrite Hm in Hj. injection Hj as ->. pose proof (i_on w Hi j f Hf Hfd) as Ho. unfold on_ok in *. destruct (e_done f).
      * destruct Ho as (H1 & H2 & H3 & H4). split_and!; [done|done|done|]. intros Hn. specialize (H4 Hn).
        rewrite Hrun, !elem_of_app, !elem_of_cons in H4. rewrite !elem_of_app, !elem_of_cons.
        destruct H4 as [[?|[[= <-]|?]]|[?|[?|?]]]; try tauto. done.
      * destruct Ho as (H1 & H2 & H3 & o & H4). split_and!; [done|done|done|]. exists o.
        rewrite Hrun, !elem_of_app, !elem_of_cons in H4. rewrite !elem_of_app, !elem_of_cons. destruct H4 as [?|[?|?]]; [tauto|done|tauto].
  - apply (inv_ends w pre _ post Hi Hrun). intros j f Hf Hfd [?|[ref' [= -> ->]]]; [done|].
    assert (wrappedClients w !! e_key f = Some j) as Hj by (apply (i_map w Hi); eauto). congruence.
Qed.

Lemma run_inv w pre t post a w' r : inv w → running w = pre ++ t :: post → run w t a = (w', r) →
  inv (set_running w' (match r with inl t' => pre ++ t' :: post | inr _ => pre ++ post end)).
Proof.
  intros Hi Hrun. assert (Ht : thread_ok (alive w) (next_client w) (entries w) t) by (apply (i_threads w Hi); rewrite Hrun; set_solver).
  assert (Hlock : ∀ c g i, alive w !! c = Some g → wrappedClients w !! g_key g = Some i → at_entry (alive w) (entries w) c i).
  { intros c g i Hg Hm. apply (i_map w Hi) in Hm as (e & He & Hk & _). by exists g, e. }
  destruct t as [c opts|c opts i|c|c i|key ref|key ref i];
    [|by apply WrapLock_inv| | |by apply CleanupStart_inv|]; run_step; cbn [thread_ok] in *.
  - destruct Ht as [g Hg]. rewrite Hg. destruct (wrappedClients w !! g_key g) as [i|] eqn:Hm; intros [= <- <-]; [|by apply inv_store].
    apply (inv_moves w pre _ post [_] Hi Hrun); [|by intros i' e He Hd [?|[? ?]]].
    intros t' ->%list_elem_of_singleton. by eapply Hlock.
  - destruct Ht as [g Hg]. rewrite Hg. destruct (wrappedClients w !! g_key g) as [i|] eqn:Hm; intros [= <- <-].
    + apply (inv_moves w pre _ post [_] Hi Hrun); [|by intros i' e He Hd [?|[? ?]]].
      intros t' ->%list_elem_of_singleton. by eapply Hlock.
    + apply (inv_ends w pre _ post Hi Hrun). by intros i' e He Hd [?|[? ?]].
  - destruct Ht as (g & e & Hg & He & Hk). rewrite Hg, He. case_bool_decide as Href; intros [= <- <-];
      [by apply (inv_detach_ends w pre _ post i e _ Hi Hrun)|].
    apply (inv_ends w pre _ post Hi Hrun). intros j f Hf Hfd _. by apply (on_ok_other w pre _ post [] j f Hi Hrun).
  - destruct Ht as (Hdead & Hlt & e & He & Hk). rewrite He.
    destruct (bool_decide (alive w !! e_ref e = None) && bool_decide (e_ref e = ref)) eqn:E; intros [= <- <-];
      [by apply (inv_detach_ends w pre _ post i e _ Hi Hrun)|].
    apply (inv_ends w pre _ post Hi Hrun). intros j f Hf Hfd _. apply (on_ok_other w pre _ post [] j f Hi Hrun); try done.
    intros Hn. split; [done|]. intros [= -> -> ->]. rewrite He in Hf. injection Hf as ->. by rewrite Hn, !bool_decide_true in E by done.
Qed.

Lemma wrap_step_inv w w' : inv w → step w w' → inv w'.
Proof.
  intros Hi Hs. destruct Hs as [key c Hk|c Hc Hf|c opts Hc|c Hc|pre t post a w' r Hrun Hr].
  - by apply inv_make.
  - by apply inv_collect.
  - by apply inv_spawn.
  - by apply inv_spawn.
  - by apply (run_inv w pre t post a).
Qed.

Lemma wrap_reachable_inv w : rtc step empty_world w → inv w.
Proof.
  intros Hr. assert (∀ w0, inv w0 → rtc step w0 w → inv w) as H; [|by eapply H; [apply inv_empty|]].
  clear Hr. intros w0 H0 Hr. induction Hr as [|w0 w1 w2 Hs _ IH]; [done|]. by apply IH, (wrap_step_inv w0).
Qed.
End reachable.

Section theorems.
Context `{L : GoUnicode}.

(** C10: the wrappers and the names. However calls of Wrap and Unwrap, collections,
    cleanups and uses of an address again are interleaved: a client that is alive
    has at most one wrapper that is on, the one found at its address; a wrapper
    that is off has no callback, no cleanup and no name; each name is counted once
    for each wrapper that has it; and when no call and no cleanup is running, the
    wrappers that are on are complete and their clients alive, so that nothing is
    left once the clients are gone. *)
Theorem wrap_exact (w : world) (Hreach : rtc step empty_world w) :
  (∀ i j e f, entries w !! i = Some e → entries w !! j = Some f → e_disabled e = false → e_disabled f = false →
     e_ref e = e_ref f → is_Some (alive w !! e_ref e) → i = j)
  ∧ (∀ k i, wrappedClients w !! k = Some i ↔ ∃ e, entries w !! i = Some e ∧ e_key e = k ∧ e_disabled e = false)
  ∧ (∀ i e, entries w !! i = Some e → e_disabled e = true → e_reg e = false ∧ e_poolName e = [] ∧ e_cleanup e = false)
  ∧ held_exact (held w) (entries w)
  ∧ (running w = [] → ∀ i e, entries w !! i = Some e → e_disabled e = false →
       e_done e = true ∧ e_reg e = true ∧ e_poolName e ≠ [] ∧ is_Some (alive w !! e_ref e))
  ∧ (running w = [] → alive w = ∅ → wrappedClients w = ∅ ∧ held w = ∅).
Proof.
  apply wrap_reachable_inv in Hreach as Hi. destruct Hi as [Hnext Hkey Hmap Href Hoff Hon Hheld Hth].
  assert (Hquiet : running w = [] → ∀ i e, entries w !! i = Some e → e_disabled e = false →
    e_done e = true ∧ e_reg e = true ∧ e_poolName e ≠ [] ∧ is_Some (alive w !! e_ref e)).
  { intros Hr i e He Hd. specialize (Hon i e He Hd). unfold on_ok in Hon. rewrite Hr in Hon. destruct (e_done e).
    - destruct Hon as (H1 & _ & H3 & H4). split_and!; [done|done|done|]. destruct (alive w !! e_ref e); [by eexists|].
      by destruct (H4 eq_refl) as [H|H]; apply elem_of_nil in H.
    - destruct Hon as (_ & _ & _ & o & H). by apply elem_of_nil in H. }
  split_and!; [|done|done|done|done|].
  - intros i j e f He Hf Hde Hdf Heq [g Hg]. destruct (Href i e He) as [_ H1], (Href j f Hf) as [_ H2].
    specialize (H1 g Hg). rewrite Heq in Hg. specialize (H2 g Hg).
    assert (wrappedClients w !! g_key g = Some i) by (apply Hmap; eauto). assert (wrappedClients w !! g_key g = Some j) by (apply Hmap; eauto). congruence.
  - intros Hr Hal. specialize (Hquiet Hr). rewrite Hal in Hquiet. split; apply map_empty.
    + intros k. destruct (_ !! k) as [i|] eqn:E; [|done]. apply Hmap in E as (e & He & _ & Hd).
      destruct (Hquiet i e He Hd) as (_ & _ & _ & [? Hx]). by rewrite lookup_empty in Hx.
    + intros n. destruct (held w !! n) as [z|] eqn:E; [|done]. apply Hheld in E as (Hn & Hz & ->). unfold holders in Hz.
      destruct (filter _ (entries w)) as [|e l] eqn:Ef; [cbn in Hz; lia|].
      assert (e ∈ filter (λ e, e_poolName e = n) (entries w)) as [Hen He]%list_elem_of_filter by (rewrite Ef; by left).
      apply list_elem_of_lookup in He as [i He]. destruct (e_disabled e) eqn:Hd; [destruct (Hoff i e He Hd) as (_ & H & _); congruence|].
      destruct (Hquiet i e He Hd) as (_ & _ & _ & [? Hx]). by rewrite lookup_empty in Hx.
Qed.

(** The wrapper of a client that is alive is turned off by Unwrap on that
    client only: no other call, on this client or another, and no cleanup, not even
    one that a client formerly at the address left behind, changes it. *)
Theorem wrapper_kept (w : world) (i : nat) (e : wrapEntry) (t : thread) (a : answer) (Hreach : rtc step empty_world w)
    (He : entries w !! i = Some e) (Hon : e_disabled e = false) (Hdone : e_done e = true) (Halive : is_Some (alive w !! e_ref e))
    (Ht : t ∈ running w) (Hnot : t ≠ UnwrapLock (e_ref e) i) :
  entries (run w t a).1 !! i = Some e.
Proof.
  apply wrap_reachable_inv in Hreach as Hi. destruct Halive as [ge Hge]. destruct (i_ref w Hi i e He) as [_ Hk]. specialize (Hk ge Hge).
  pose proof (i_threads w Hi t Ht) as Hok. destruct t as [c opts|c opts j|c|c j|key ref|key ref j]; run_step; cbn [thread_ok] in *.
  - destruct Hok as [g Hg]. rewrite Hg. destruct (wrappedClients w !! g_key g); cbn; [done|]. by apply lookup_app_l_Some.
  - destruct Hok as (g & f & Hg & Hf & Hkf). rewrite Hg, Hf. case_bool_decide as Hcan; cbn [negb]; [|done].
    case_bool_decide as Href; cbn [negb].
    2: { cbn. destruct (decide (j = i)) as [->|Hne]; [|by rewrite list_lookup_insert_ne]. exfalso. rewrite He in Hf. injection Hf as <-.
         apply Href. eapply (i_key w Hi); [done|done|congruence]. }
    destruct (e_done f) eqn:Hfd; [done|]. assert (j ≠ i) as Hne by (intros ->; congruence).
    unfold Wrap_commit. destruct (pool_name w g opts) as [h n]. destruct a; cbn; by rewrite !list_lookup_insert_ne.
  - destruct Hok as [g Hg]. rewrite Hg. by destruct (wrappedClients w !! g_key g).
  - destruct Hok as (g & f & Hg & Hf & Hkf). rewrite Hg, Hf. case_bool_decide as Href; cbn; [|done].
    rewrite list_lookup_insert_ne; [done|]. intros ->. apply Hnot. congruence.
  - by destruct (wrappedClients w !! key).
  - destruct (entries w !! j) as [f|] eqn:Hf; [|done]. destruct (bool_decide _ && _) eqn:E; [|done]. cbn.
    rewrite list_lookup_insert_ne; [done|]. intros ->. apply andb_true_iff in E as [E _]. apply bool_decide_eq_true in E. congruence.
Qed.

(** * A call that is left to itself *)
Fixpoint run_alone (fuel : nat) (w : world) (t : thread) (a : answer) : option (world * option bytes) :=
  match fuel with
  | O => None
  | S fuel => match run w t a with
              | (w, inr err) => Some (w, err)
              | (w, inl t) => run_alone fuel w t a
              end
  end.
Definition name_ok (opts : list (option Option_)) (g : live_client) (name : bytes) : Prop :=
  if decide (poolName (newConfig opts) = []) then ∃ n, 1 ≤ n ∧ name = numbered (defaultPoolNameBase (g_client g)) n
  else name = poolName (newConfig opts).
(** What a call of Wrap leaves, and what it returns. *)
Definition wrapped_by (opts : list (option Option_)) (c : N) (g : live_client) (a : answer) (w w' : world) (err : option bytes) : Prop :=
  match a with
  | Installed install => err = (λ err, #"redis wrap: install hooks: " ++ err) <$> install
      ∧ ∃ i e, wrappedClients w' !! g_key g = Some i ∧ entries w' !! i = Some e ∧ e_ref e = c ∧ e_done e = true
          ∧ e_disabled e = false ∧ e_reg e = true ∧ name_ok opts g (e_poolName e)
  | _ => is_Some err ∧ wrappedClients w' !! g_key g = None ∧ ∀ n, n ≠ [] → holders (entries w') n ≤ holders (entries w) n
  end.

Lemma name_ok_pool w g opts h name : pool_name w g opts = (h, name) → name_ok opts g name.
Proof.
  unfold pool_name, name_ok. case_bool_decide; case_decide; try done; [|by intros [= _ <-]].
  intros Heq. apply (f_equal snd) in Heq. cbn [snd acquire] in Heq. subst name. unfold acquire_name.
  destruct (acquire_ends (held w) (defaultPoolNameBase (g_client g))) as [n Hn].
  pose proof (acquire_from_spec (S (size (held w))) (held w) (defaultPoolNameBase (g_client g)) 1) as Hs. rewrite Hn in Hs |- *.
  destruct Hs as (k & -> & Hk & _). by exists k.
Qed.

Lemma holders_detach es i e n : es !! i = Some e → n ≠ [] → holders (<[i := detached e]> es) n ≤ holders es n.
Proof.
  intros He Hn. pose proof (holders_insert es i e (detached e) n He) as H. cbn [e_poolName detached] in H.
  rewrite (decide_False (P := [] = n)) in H by congruence. case_decide; lia.
Qed.

(** Under the mutex of an entry of its own that is not done. *)
Lemma lock_returns w c g opts i e a : held_exact (held w) (entries w) → alive w !! c = Some g → wrappedClients w !! g_key g = Some i →
  entries w !! i = Some e → e_ref e = c → e_done e = false → e_disabled e = false → e_poolName e = [] →
  ∃ w' err, run w (WrapLock c opts i) a = (w', inr err) ∧ wrapped_by opts c g a w w' err.
Proof.
  intros Hh Hg Hm He Hr Hd Ho Hn. run_step. rewrite Hg, He, !bool_decide_true, Hd by done. cbn [negb].
  pose proof (Wrap_commit_spec w g opts i e a Hh He Hn) as Hs. destruct (Wrap_commit w g opts i e a) as [w' err]. cbn [fst snd] in Hs.
  exists w', err. split; [done|]. assert (Hi : i < length (entries w)) by by eapply lookup_lt_Some.
  assert (Hdel : ∀ w', w' = detach w i e (g_key g) → wrappedClients w' !! g_key g = None ∧ ∀ n, n ≠ [] → holders (entries w') n ≤ holders (entries w) n).
  { intros ? ->. cbn. unfold CompareAndDelete. rewrite bool_decide_true by done. split; [apply lookup_delete_eq|].
    intros n. by apply holders_detach. }
  destruct a as [?|?|install]; [destruct Hs as [Hs ?]; split; [done|by apply Hdel]|destruct Hs as [Hs ?]; split; [done|by apply Hdel]|].
  destruct Hs as (name & Hp & _ & -> & ->). split; [done|]. exists i, (committed (named e name)). cbn.
  rewrite list_lookup_insert_eq by done. split_and!; try done. by apply name_ok_pool in Hp.
Qed.

Lemma start_free w c g opts a : held_exact (held w) (entries w) → alive w !! c = Some g → wrappedClients w !! g_key g = None →
  ∃ w' err, run_alone 2 w (WrapStart c opts) a = Some (w', err) ∧ wrapped_by opts c g a w w' err.
Proof.
  intros Hh Hg Hm. cbn [run_alone].
  set (w1 := set_entries w (<[g_key g := length (entries w)]> (wrappedClients w)) (entries w ++ [candidate (g_key g) c]) (held w)).
  assert (run w (WrapStart c opts) a = (w1, inl (WrapLock c opts (length (entries w))))) as -> by (run_step; by rewrite Hg, Hm).
  destruct (lock_returns w1 c g opts (length (entries w)) (candidate (g_key g) c) a) as (w' & err & Hrun & Hw); try done.
  - cbn. eapply held_exact_same; [exact Hh|]. intros n Hn. by apply holders_app.
  - cbn. apply lookup_insert_eq.
  - cbn. by apply list_lookup_middle.
  - rewrite Hrun. exists w', err. split; [done|]. destruct a; cbn in *; try done.
    + destruct Hw as (H1 & H2 & H3). split_and!; [done|done|]. intros n Hn. rewrite <- (holders_app (entries w) (candidate (g_key g) c)) by done. by apply H3.
    + destruct Hw as (H1 & H2 & H3). split_and!; [done|done|]. intros n Hn. rewrite <- (holders_app (entries w) (candidate (g_key g) c)) by done. by apply H3.
Qed.

Lemma run_alone_more n m w t a r : run_alone n w t a = Some r → n ≤ m → run_alone m w t a = Some r.
Proof.
  revert m w t. induction n as [|n IH]; intros [|m] w t; cbn [run_alone]; try done; [lia|].
  destruct (run w t a) as [w' [t'|err]]; [|done]. intros H Hle. apply IH; [done|lia].
Qed.

(** C11: Wrap returns. Left to itself from any state a program can be in, it is done
    after at most four steps of its loop, two rounds, whatever an earlier client
    at the same address has left there. A client that is wrapped is left as it is.
    Otherwise the client is wrapped when the instruments and the callback could be
    made, under the name asked for or a generated one, even when installing the
    hooks failed, which is then the error; and when they could not be made nothing
    is left at the address, nor any name. *)
Theorem Wrap_returns (w : world) (c : N) (g : live_client) (opts : list (option Option_)) (a : answer)
    (Hreach : rtc step empty_world w) (Hg : alive w !! c = Some g) :
  (∃ i e, entries w !! i = Some e ∧ e_ref e = c ∧ e_done e = true ∧ e_disabled e = false
     ∧ run_alone 4 w (WrapStart c opts) a = Some (w, None))
  ∨ ∃ w' err, run_alone 4 w (WrapStart c opts) a = Some (w', err) ∧ wrapped_by opts c g a w w' err.
Proof.
  apply wrap_reachable_inv in Hreach as Hi. pose proof (i_held w Hi) as Hh. destruct (wrappedClients w !! g_key g) as [i|] eqn:Hm.
  2: { right. destruct (start_free w c g opts a Hh Hg Hm) as (w' & err & Hr & Hw). exists w', err.
       split; [|done]. eapply run_alone_more; [exact Hr|lia]. }
  apply (i_map w Hi) in Hm as Hm'. destruct Hm' as (e & He & Hk & Ho). destruct (decide (e_ref e = c)) as [Hr|Hr].
  - destruct (e_done e) eqn:Hd.
    + left. exists i, e. split_and!; [done|done|done|done|]. assert (H1 : run w (WrapStart c opts) a = (w, inl (WrapLock c opts i))) by (run_step; by rewrite Hg, Hm).
      assert (H2 : run w (WrapLock c opts i) a = (w, inr None)) by (run_step; by rewrite Hg, He, !bool_decide_true, Hd by done).
      cbn [run_alone]. by rewrite H1, H2.
    + right. pose proof (i_on w Hi i e He Ho) as Hok. unfold on_ok in Hok. rewrite Hd in Hok. destruct Hok as (_ & _ & Hn & _).
      destruct (lock_returns w c g opts i e a Hh Hg Hm He Hr Hd Ho Hn) as (w' & err & Hrun & Hw). exists w', err. split; [|done].
      cbn [run_alone]. assert (run w (WrapStart c opts) a = (w, inl (WrapLock c opts i))) as -> by (run_step; by rewrite Hg, Hm). by rewrite Hrun.
  - right. set (w1 := detach w i e (g_key g)).
    assert (Hh1 : held_exact (held w1) (entries w1)).
    { apply (i_held (set_running w1 (running w))), inv_detach; try done. by left. }
    assert (Hm1 : wrappedClients w1 !! g_key g = None).
    { cbn. unfold CompareAndDelete. rewrite bool_decide_true by done. apply lookup_delete_eq. }
    destruct (start_free w1 c g opts a Hh1 Hg Hm1) as (w' & err & Hrun & Hw). exists w', err. split.
    + change 4 with (S (S 2)). assert (H1 : run w (WrapStart c opts) a = (w, inl (WrapLock c opts i))) by (run_step; by rewrite Hg, Hm).
      assert (H2 : run w (WrapLock c opts i) a = (w1, inl (WrapStart c opts))).
      { run_step. rewrite Hg, He, bool_decide_true by done. by rewrite bool_decide_false. }
      rewrite <- Hrun. remember 2 as fuel. cbn [run_alone]. by rewrite H1, H2.
    + destruct a; cbn in *; try done.
      * destruct Hw as (H1 & H2 & H3). split_and!; [done|done|]. intros n Hn. etrans; [by apply H3|]. by apply holders_detach.
      * destruct Hw as (H1 & H2 & H3). split_and!; [done|done|]. intros n Hn. etrans; [by apply H3|]. by apply holders_detach.
Qed.
End theorems.

(** * Witnesses *)
Definition sample_client : go_client :=
  Client {| opt_Network := #"tcp"; opt_Addr := #"redis:6379"; MaxIdleConns := 0; MinIdleConns := 0; MaxActiveConns := 0 |}.
Definition sample_made : world :=
  {| alive := {[ 0%N := {| g_key := 64; g_client := sample_client |} ]}; next_client := 1; wrappedClients := ∅; entries := [];
     held := ∅; running := [] |}.
Definition sample_entry : wrapEntry :=
  {| e_key := 64; e_ref := 0; e_done := true; e_disabled := false; e_reg := true; e_cleanup := true; e_poolName := #"redis-redis:6379-1" |}.
Definition sample_wrapped (ts : list thread) : world :=
  {| alive := alive sample_made; next_client := 1; wrappedClients := {[ 64%N := 0 ]}; entries := [sample_entry];
     held := {[ #"redis-redis:6379-1" := 1%Z ]}; running := ts |}.

Lemma sample_made_reach : rtc (step (L := ascii_unicode)) empty_world sample_made.
Proof. apply rtc_once. by apply (step_make empty_world 64 sample_client). Qed.

Lemma sample_reach : rtc (step (L := ascii_unicode)) empty_world (sample_wrapped []).
Proof.
  etrans; [apply sample_made_reach|].
  eapply rtc_l; [apply (step_wrap _ 0 []); by eexists|].
  eapply rtc_l; [by apply (step_run _ [] (WrapStart 0 []) [] (Installed None))|].
  eapply rtc_l; [by apply (step_run _ [] (WrapLock 0 [] 0) [] (Installed None))|]. done.
Qed.

(** The client is collected, another is made at its address and wrapped before the
    cleanup of the first runs. *)
Definition sample_stale : world :=
  {| alive := {[ 1%N := {| g_key := 64; g_client := sample_client |} ]}; next_client := 2; wrappedClients := {[ 64%N := 0 ]};
     entries := [sample_entry]; held := {[ #"redis-redis:6379-1" := 1%Z ]}; running := [CleanupStart 64 0] |}.

Lemma sample_stale_reach : rtc (step (L := ascii_unicode)) empty_world sample_stale.
Proof.
  etrans; [apply sample_reach|].
  eapply rtc_l; [apply (step_collect _ 0); [by eexists|intros t ?%elem_of_nil; done]|].
  eapply rtc_l.
  - apply (step_make _ 64 sample_client). intros c g. cbn. by rewrite delete_singleton_eq, lookup_empty.
  - apply reflexive_eq. reflexivity.
Qed.

Lemma wrap_exact_witness :
  rtc (step (L := ascii_unicode)) empty_world sample_stale ∧ held_exact (held sample_stale) (entries sample_stale).
Proof. split; [apply sample_stale_reach|]. apply (wrap_exact (L := ascii_unicode) sample_stale sample_stale_reach). Defined.

Lemma wrapper_kept_witness :
  entries (run (L := ascii_unicode) (sample_wrapped [WrapStart 0 []]) (WrapStart 0 []) (Installed None)).1 !! 0 = Some sample_entry.
Proof.
  apply (wrapper_kept (L := ascii_unicode) (sample_wrapped [WrapStart 0 []])); [|done|done|done|by eexists|by left|done].
  eapply rtc_r; [apply sample_reach|]. apply (step_wrap (sample_wrapped []) 0 []). by eexists.
Defined.

Lemma Wrap_returns_witness :
  (∃ w' err, run_alone (L := ascii_unicode) 4 sample_stale (WrapStart 1 []) (Installed None) = Some (w', err)
     ∧ held w' = {[ #"redis-redis:6379-1" := 1%Z ]})
  ∧ ((∃ i e, entries sample_stale !! i = Some e ∧ e_ref e = 1%N ∧ e_done e = true ∧ e_disabled e = false
      ∧ run_alone (L := ascii_unicode) 4 sample_stale (WrapStart 1 []) (Installed None) = Some (sample_stale, None))
    ∨ ∃ w' err, run_alone (L := ascii_unicode) 4 sample_stale (WrapStart 1 []) (Installed None) = Some (w', err)
      ∧ wrapped_by (L := ascii_unicode) [] 1 {| g_key := 64; g_client := sample_client |} (Installed None) sample_stale w' err).
Proof.
  split; [eexists _, _; split; reflexivity|].
  by apply (Wrap_returns (L := ascii_unicode) sample_stale 1 {| g_key := 64; g_client := sample_client |} [] (Installed None) sample_stale_reach).
Defined.

(** * installShardedHooks *)
(** The set-up walk and go-redis's notices of new nodes call one hook: with the set
    of nodes seen while the set-up lasts, without it afterwards. A call carries
    whether the wrapper is off, and the node, None for nil. *)
Record setup := { seen : option (gset N); hooked : list N }.
Definition install_hook (st : setup) (call : bool * option N) : setup :=
  let '(disabled, node) := call in
  match node with
  | None => st
  | Some n =>
    if disabled then st
    else match seen st with
         | Some s => if bool_decide (n ∈ s) then st else {| seen := Some ({[n]} ∪ s); hooked := hooked st ++ [n] |}
         | None => {| seen := None; hooked := hooked st ++ [n] |}
         end
  end.
Definition installShardedHooks (during : list (bool * option N)) : setup :=
  {| seen := None; hooked := hooked (foldl install_hook {| seen := Some ∅; hooked := [] |} during) |}.

Lemma install_during l st : (∃ s, seen st = Some s ∧ ∀ n, n ∈ s ↔ n ∈ hooked st) → NoDup (hooked st) →
  NoDup (hooked (foldl install_hook st l)) ∧ (∀ n, n ∈ hooked (foldl install_hook st l) ↔ n ∈ hooked st ∨ (false, Some n) ∈ l).
Proof.
  revert st. induction l as [|[off node] l IH]; intros st (s & Hs & Hin) Hnd; cbn [foldl]; [set_solver|].
  assert (Hsame : (∀ n, node = Some n → off = true ∨ n ∈ hooked st) →
    NoDup (hooked (foldl install_hook st l)) ∧ ∀ n, n ∈ hooked (foldl install_hook st l) ↔ n ∈ hooked st ∨ (false, Some n) ∈ (off, node) :: l).
  { intros Hn. destruct (IH st) as [H1 H2]; [by exists s|done|]. split; [done|]. intros n. rewrite H2, elem_of_cons. split; [tauto|].
    intros [?|[[= <- <-]|?]]; [tauto|destruct (Hn n); [done|done|tauto]|tauto]. }
  cbn [install_hook]. destruct node as [n|]; [|by apply Hsame]. destruct off; [apply Hsame; by intros ? [= ->]; left|].
  rewrite Hs. case_bool_decide as Hd; [apply Hsame; intros ? [= <-]; right; by apply Hin|].
  destruct (IH {| seen := Some ({[n]} ∪ s); hooked := hooked st ++ [n] |}) as [H1 H2]; cbn [seen hooked].
  - exists ({[n]} ∪ s). split; [done|]. set_solver.
  - apply NoDup_app. split_and!; [done| |apply NoDup_singleton]. intros x Hx ->%list_elem_of_singleton. by apply Hd, Hin.
  - split; [done|]. intros x. rewrite H2. cbn. rewrite elem_of_app, list_elem_of_singleton, elem_of_cons. naive_solver.
Qed.

(** However often the walk and the notices name a node while the set-up lasts, and
    when the notices after it are of nodes that are new, each node is hooked once,
    and only by a wrapper that is on. *)
Theorem sharded_hooks_once (during : list (bool * option N)) (after : list N) :
  (∀ n, n ∈ hooked (installShardedHooks during) ↔ (false, Some n) ∈ during)
  ∧ (NoDup after → (∀ n, n ∈ after → (false, Some n) ∉ during) →
     NoDup (hooked (foldl install_hook (installShardedHooks during) ((λ n, (false, Some n)) <$> after)))).
Proof.
  destruct (install_during during {| seen := Some ∅; hooked := [] |}) as [H1 H2]; [exists ∅; split; [done|set_solver]|constructor|].
  assert (Hin : ∀ n, n ∈ hooked (installShardedHooks during) ↔ (false, Some n) ∈ during) by (intros n; cbn; rewrite H2; set_solver).
  split; [done|]. intros Hnd Hnew. assert (Hafter : ∀ st, seen st = None →
    hooked (foldl install_hook st ((λ n, (false, Some n)) <$> after)) = hooked st ++ after).
  { clear. induction after as [|n l IH]; intros st Hs; [by rewrite app_nil_r|]. cbn. rewrite Hs, IH by done. cbn. by rewrite <- app_assoc. }
  rewrite Hafter by done. apply NoDup_app. split_and!; [done| |done]. intros n Hn Ha. by apply (Hnew n Ha), Hin.
Qed.
