(* ===== verification/RestyErrors.v ===== *)
(** resty/errors.go: the type and the kind an error is reported under. [None] is
    the panic of an error that cannot be rendered. *)
From S2P Require Import Prelude Utf8 GoStrings GoCodec GoNum RedactDecode RedactText RedactError GoUrl.

(** The types the classification looks for, as reflect writes them. *)
Definition CertificateVerificationError : bytes := #"*tls.CertificateVerificationError".
Definition HostnameError : bytes := #"*x509.HostnameError".
Definition UnknownAuthorityError : bytes := #"*x509.UnknownAuthorityError".
Definition RecordHeaderError : bytes := #"tls.RecordHeaderError".
Definition OpError : bytes := #"*net.OpError".

Section classify.
Context `{U : GoUnicode} (σ : error_store) (ans : error_answers) (depth : nat).

(** errorType; the type of an interface that is not nil always has a name. *)
Definition first_as (r : eref) (types : list bytes) : option bytes :=
  head (filter (λ t, is_Some (errors_As σ ans depth (Some r) t)) types).
Definition errorType (r : eref) : bytes :=
  if errors_Is σ ans depth (Some r) DeadlineExceeded then #"context.DeadlineExceeded"
  else if errors_Is σ ans depth (Some r) Canceled then #"context.Canceled"
  else default (type_name (σ r)) (first_as r [CertificateVerificationError; HostnameError; UnknownAuthorityError; OpError]).

(** err.Error(), lowered. *)
Definition lower_text (r : eref) : option bytes := ToLower <$> error_method (σ r).
Definition isTLSError (r : eref) : option bool :=
  match first_as r [CertificateVerificationError; HostnameError; UnknownAuthorityError; RecordHeaderError] with
  | Some _ => Some true
  | None =>
    let by_text := (λ lower, Contains lower #"tls:" || Contains lower #"certificate") <$> lower_text r in
    match errors_As σ ans depth (Some r) OpError with
    | None => by_text
    | Some op => match OpError_Err ans op with
                 | None => by_text
                 | Some inner => match (λ lower, Contains lower #"tls") <$> lower_text inner with
                                 | None => None
                                 | Some true => Some true
                                 | Some false => by_text
                                 end
                 end
    end
  end.
Definition isTransportError (r : eref) : bool := bool_decide (is_Some (errors_As σ ans depth (Some r) OpError)).

(** hasTypeInChain's visit; its recursion ends with the chain. *)
Fixpoint visit (fuel : nat) (names : list bytes) (e : option eref) : bool :=
  match e, fuel with
  | Some r, S fuel =>
    if bool_decide (type_name (σ r) ∈ names) then true
    else match unwrap_methods (σ r) with
         | UnwrapMany next => existsb (visit fuel names) (unwrappedAll next)
         | UnwrapOne next => visit fuel names (unwrapped next)
         | NoUnwrap => false
         end
  | _, _ => false
  end.
Definition hasTypeInChain (r : eref) (names : list bytes) : bool := visit depth names (Some r).

Definition isProtocolError (r : eref) : option bool :=
  if hasTypeInChain r [ #"http2.StreamError"; #"*http2.StreamError"] then Some true
  else if errors_Is σ ans depth (Some r) UnexpectedEOF then Some true
  else if errors_Is σ ans depth (Some r) BodyReadAfterClose then Some true
  else (λ lower, Contains lower #"malformed http" || Contains lower #"http2:"
          || Contains lower #"server gave http response to https client") <$> lower_text r.
Definition restyErrorKind (r : eref) : option bytes :=
  if errors_Is σ ans depth (Some r) Canceled && negb (errors_Is σ ans depth (Some r) DeadlineExceeded) then Some #"client_canceled"
  else if errors_Is σ ans depth (Some r) DeadlineExceeded then Some #"client_timeout"
  else tls ← isTLSError r;
       if (tls : bool) then Some #"tls"
       else if isTransportError r then Some #"transport"
       else protocol ← isProtocolError r;
            Some (if (protocol : bool) then #"protocol" else #"unknown").

(** The search visits what errors.Is would. *)
Lemma visit_nodes fuel names e : visit fuel names e = existsb (λ r, bool_decide (type_name (σ r) ∈ names)) (error_nodes σ fuel e).
Proof.
  revert e. induction fuel as [|fuel IH]; intros [r|]; cbn [visit error_nodes]; try done. cbn [existsb].
  case_bool_decide; [done|]. cbn [orb]. unfold next_links.
  assert (∀ l, existsb (visit fuel names) l = existsb (λ r, bool_decide (type_name (σ r) ∈ names)) (l ≫= error_nodes σ fuel)) as Hl.
  { induction l as [|x l IHl]; [done|]. rewrite bind_cons, existsb_app. cbn [existsb]. by rewrite IH, IHl. }
  destruct (unwrap_methods (σ r)); [done| |apply Hl]. rewrite <- Hl. cbn. by rewrite orb_false_r.
Qed.

Definition resty_kinds : list bytes :=
  [ #"client_canceled"; #"client_timeout"; #"tls"; #"transport"; #"protocol"; #"unknown"].

Ltac kind_facts :=
  let Hk := fresh in let Hx := fresh in
  split; [reflexivity|split; [unfold resty_kinds; set_solver|split; [|intros Hx; try discriminate Hx];
    split; intros Hk; solve [reflexivity|discriminate Hk|vm_compute in Hk; discriminate Hk]]].

(** The classification of an error. Every error that can be rendered, it and
    the one a network operation wraps, has a kind, one of six; a timeout comes
    before a cancellation, and both before what the error looks like. An error in
    whose chain a type of the list is found is reported under that type rather than
    its own. The search for a type by name visits exactly the errors errors.As
    does. *)
Theorem resty_classification (r : eref) :
  (is_Some (error_method (σ r)) →
     (∀ op inner, errors_As σ ans depth (Some r) OpError = Some op → OpError_Err ans op = Some inner → is_Some (error_method (σ inner))) →
     ∃ kind, restyErrorKind r = Some kind ∧ kind ∈ resty_kinds
       ∧ (errors_Is σ ans depth (Some r) DeadlineExceeded = true ↔ kind = #"client_timeout")
       ∧ (errors_Is σ ans depth (Some r) DeadlineExceeded = false → (errors_Is σ ans depth (Some r) Canceled = true ↔ kind = #"client_canceled")))
  ∧ (errors_Is σ ans depth (Some r) DeadlineExceeded = true → errorType r = #"context.DeadlineExceeded")
  ∧ (errors_Is σ ans depth (Some r) DeadlineExceeded = false → errors_Is σ ans depth (Some r) Canceled = false →
     errorType r = type_name (σ r) ∨ ∃ found, errors_As σ ans depth (Some r) (errorType r) = Some found)
  ∧ (∀ names, hasTypeInChain r names = true ↔ ∃ x, x ∈ error_nodes σ depth (Some r) ∧ type_name (σ x) ∈ names).
Proof.
  split_and!.
  - intros Htext Hinner. unfold restyErrorKind.
    destruct (errors_Is σ ans depth (Some r) DeadlineExceeded) eqn:Hd; [rewrite andb_false_r|rewrite andb_true_r];
      [exists #"client_timeout"; kind_facts|].
    destruct (errors_Is σ ans depth (Some r) Canceled) eqn:Hc; [exists #"client_canceled"; kind_facts|].
    assert (is_Some (isTLSError r)) as [tls Ht].
    { unfold isTLSError, lower_text. destruct (first_as _ _); [by eexists|]. destruct Htext as [text Htext]. rewrite Htext. cbn [fmap option_fmap option_map].
      destruct (errors_As σ ans depth (Some r) OpError) as [op|] eqn:Eop; [|cbn; by eexists].
      destruct (OpError_Err ans op) as [inner|] eqn:Ein; [|cbn; by eexists]. destruct (Hinner op inner eq_refl Ein) as [t ->]. cbn [fmap option_fmap option_map].
      destruct (Contains _ _); cbn; by eexists. }
    assert (is_Some (isProtocolError r)) as [pr Hp].
    { unfold isProtocolError, lower_text. destruct Htext as [text ->]. cbn. repeat case_match; cbn; by eexists. }
    rewrite Ht, Hp. cbn. destruct tls; [exists #"tls"; kind_facts|].
    destruct (isTransportError r); [exists #"transport"; kind_facts|].
    destruct pr; eexists; kind_facts.
  - unfold errorType. by intros ->.
  - unfold errorType. intros -> ->. destruct (first_as r _) as [t|] eqn:E; [|by left]. right. cbn.
    unfold first_as in E. destruct (filter _ _) as [|x l] eqn:Ef; [done|]. injection E as ->.
    assert (t ∈ filter (λ t, is_Some (errors_As σ ans depth (Some r) t)) [CertificateVerificationError; HostnameError; UnknownAuthorityError; OpError])
      as [[f Hf] _]%list_elem_of_filter by (rewrite Ef; by left). by exists f.
  - intros names. unfold hasTypeInChain. rewrite visit_nodes, existsb_exists. split.
    + intros (x & Hx & Hb%bool_decide_eq_true). exists x. by rewrite list_elem_of_In.
    + intros (x & Hx & Hb). exists x. rewrite <- list_elem_of_In. split; [done|by apply bool_decide_eq_true].
Qed.
End classify.
