(* ===== verification/RestyHook.v ===== *)
(** resty/hook.go and options.go: the hooks a wrapped client calls around each
    attempt of a request. The state of an attempt is in a store and travels in the
    request's context; what the hooks do with the tracer and the instruments is a
    list of calls. Errors are those of [RedactError], with what package errors
    answers about them. A request, a response and a client are the fields the
    hooks read. *)
From S2P Require Import Prelude Utf8 GoStrings GoCodec GoNum GoFields SampleLib RedactDecode RedactText RedactSecrets RedactHeaders RedactError GoUrl Attribute Semconv RestyErrors.

Definition restyErrorKindKey : bytes := #"resty.error.kind".
Definition restyRetryExhaustedKey : bytes := #"resty.retry.exhausted".

(** * The driver's types *)
Record Cookie := { cookie_Name : bytes; cookie_Value : bytes; Quoted : bool }.
Record RestyUser := { Username : bytes; Password : bytes }.
(** A cookie jar, and what its Cookies method answers for a URL. *)
Definition jar_ref := positive.
Definition jars := jar_ref → URL → list (option Cookie).
Record Client := {
  BaseURL : bytes; HostURL : bytes; RetryCount : Z; c_Header : Header; HeaderAuthorizationKey : bytes;
  c_AuthScheme : bytes; c_Token : bytes; c_User : option RestyUser; c_Cookies : list (option Cookie); c_Jar : option jar_ref;
}.
Record RawRequest := { raw_URL : option URL; raw_Header : option Header }.

(** * errors and URLs *)
Record targetAttrs := { fullURL : bytes; host : bytes; port : Z }.
Definition no_target : targetAttrs := {| fullURL := []; host := []; port := 0 |}.

Section hook.
Context `{L : GoLib, S : GoSort, P : UrlApi, U : GoUpper}.
(** A context: what it was derived from, and the state of the attempt it carries. *)
Context {B : Type} (ctx_route : B → bytes) (parent_valid : B → bool).
Record context := { base : B; state : option nat }.
Record Request := {
  ctx : context; req_Method : bytes; Attempt : Z; req_URL : bytes; req_Header : Header;
  AuthScheme : bytes; Token : bytes; req_User : option RestyUser; Cookies : list (option Cookie); Raw : option RawRequest;
}.
Definition SetContext (r : Request) (c : context) : Request :=
  {| ctx := c; req_Method := req_Method r; Attempt := Attempt r; req_URL := req_URL r; req_Header := req_Header r;
     AuthScheme := AuthScheme r; Token := Token r; req_User := req_User r; Cookies := Cookies r; Raw := Raw r |}.
Record Response := { resp_Request : option Request; StatusCode : Z; Status : bytes }.

(** * options.go *)
(** The route key is fixed here: [ctx_route] is what a context answers for it. *)
Record config := { routeEnabled : bool; metricRouteEnabled : bool; spanNameFormatter : option (Request → bytes) }.
Inductive Option_ := WithRouteFromContext (key : bool) | WithMetricRouteEnabled (enabled : bool)
  | WithSpanNameFormatter (f : option (Request → bytes)).
Definition apply_option (c : config) (o : Option_) : config :=
  {| routeEnabled := match o with WithRouteFromContext true => true | _ => routeEnabled c end;
     metricRouteEnabled := match o with WithMetricRouteEnabled b => b | _ => metricRouteEnabled c end;
     spanNameFormatter := match o with WithSpanNameFormatter f => f | _ => spanNameFormatter c end |}.
Definition newConfig (opts : list (option Option_)) : config :=
  foldl (λ c o, match o with Some o => apply_option c o | None => c end)
    {| routeEnabled := false; metricRouteEnabled := false; spanNameFormatter := None |} opts.
Context (cfg : config).

(** * The target of a request *)
Definition targetFromURL (u : option URL) : targetAttrs :=
  match u with
  | None => no_target
  | Some u =>
    let rawPort := url_Port u in
    let p := if bool_decide (rawPort = []) then
               (if bool_decide (Scheme u = #"http") then 80%Z else if bool_decide (Scheme u = #"https") then 443%Z else 0%Z)
             else default 0%Z (Atoi rawPort) in
    {| fullURL := URLAttribute (Some u); host := url_Hostname u; port := p |}
  end.
Definition targetFromRawURL (rawURL : bytes) : targetAttrs :=
  match url_Parse rawURL with
  | None => no_target
  | Some u => {| fullURL := URLAttribute (Some u); host := []; port := 0 |}
  end.
Definition raw_url (req : Request) : option URL := raw ← Raw req; raw_URL raw.
Definition requestTarget (c : option Client) (req : option Request) : targetAttrs :=
  match req with
  | None => no_target
  | Some req =>
    match raw_url req with
    | Some u => targetFromURL (Some u)
    | None =>
      let rawURL := req_URL req in
      let relative :=
        match c with
        | None => targetFromRawURL rawURL
        | Some c =>
          let b := if bool_decide (BaseURL c = []) then HostURL c else BaseURL c in
          if bool_decide (b = []) then targetFromRawURL rawURL
          else match url_Parse b with
               | None => targetFromRawURL rawURL
               | Some baseURL =>
                 match url_Parse rawURL with
                 | None => targetFromURL (Some baseURL)
                 | Some rel => targetFromURL (Some (url_ResolveReference baseURL rel))
                 end
               end
        end in
      match url_Parse rawURL with
      | Some u => if url_IsAbs u then targetFromURL (Some u) else relative
      | None => relative
      end
    end
  end.
Definition targetAttributes (t : targetAttrs) : list KeyValue :=
  (if bool_decide (host t = []) then [] else [(ServerAddressKey, StringValue (host t))])
  ++ (if (0 <? port t)%Z then [(ServerPortKey, IntValue (port t))] else [])
  ++ (if bool_decide (fullURL t = []) then [] else [(URLFullKey, StringValue (fullURL t))]).

(** * The credentials of a request *)
Definition add_form (v : bytes) : list bytes := if bool_decide (v = []) then [] else HeaderValueForms v.
Definition configuredSecrets (scheme token : bytes) (user : option RestyUser) (cookies : list (option Cookie)) : list bytes :=
  (if bool_decide (token = []) then [] else add_form token ++ add_form (TrimSpace (scheme ++ #" " ++ token)))
  ++ match user with
     | Some u => let basic := BasicAuthValue (Username u) (Password u) in
                 add_form basic ++ add_form (TrimPrefix basic #"Basic ") ++ add_form (Password u)
     | None => []
     end
  ++ (cookies ≫= λ c, match c with
        | Some c => add_form (cookie_Value c) ++ CookieRequestForms (cookie_Name c) (cookie_Value c) (Quoted c)
        | None => []
        end).
Definition clientSecrets (c : option Client) : list bytes :=
  match c with
  | None => []
  | Some c => HeaderSecrets (c_Header c) [HeaderAuthorizationKey c] ++ configuredSecrets (c_AuthScheme c) (c_Token c) (c_User c) (c_Cookies c)
  end.
Definition clientJar (c : option Client) : option jar_ref := c ← c; c_Jar c.
Definition cookie_secrets (c : option Cookie) : list bytes :=
  match c with
  | Some c => if bool_decide (cookie_Value c = []) then []
              else HeaderValueForms (cookie_Value c) ++ HeaderValueForms (cookie_Name c ++ #"=" ++ cookie_Value c)
                   ++ CookieRequestForms (cookie_Name c) (cookie_Value c) (Quoted c)
  | None => []
  end.
Definition jarSecrets (J : jars) (jar : option jar_ref) (rawURLs : list bytes) : list bytes :=
  match jar with
  | None => []
  | Some j => rawURLs ≫= λ raw, match url_Parse raw with
      | Some u => if bool_decide (Host u = []) then [] else J j u ≫= cookie_secrets
      | None => []
      end
  end.
Definition resolvedRawURL (req : Request) : bytes := match raw_url req with Some u => url_String u | None => req_URL req end.
Definition requestURLs (req : Request) : list bytes :=
  let raw := resolvedRawURL req in if bool_decide (raw = []) then [] else [raw].
Definition urlDerivedSecrets (req : Request) : list bytes :=
  let basic := BasicAuthHeader (resolvedRawURL req) in
  if bool_decide (basic = []) then [] else [basic; TrimPrefix basic #"Basic "].

(** * The state of an attempt *)
Record requestState := {
  parentCtx : context; start : Z; method : bytes; route : bytes; target : targetAttrs; attempt : Z; retryCount : Z;
  finished : bool; secrets : list bytes; authHeaderKey : bytes; jar : option jar_ref;
}.
Definition with_target (st : requestState) (t : targetAttrs) (done : bool) : requestState :=
  {| parentCtx := parentCtx st; start := start st; method := method st; route := route st; target := t; attempt := attempt st;
     retryCount := retryCount st; finished := done; secrets := secrets st; authHeaderKey := authHeaderKey st; jar := jar st |}.
(** Every state made so far; a span has the number of its state. *)
Abbreviation store := (list requestState).
(** The state a context leads to, with its number. *)
Definition stateFromContext (s : store) (c : context) : option (nat * requestState) :=
  i ← state c; st ← s !! i; Some (i, st).

(** The calls a hook makes; [GoPanic] is a panic that leaves the hook, the text of
    an error that cannot be rendered. *)
Inductive call :=
  | StartSpan (i : nat) (parent : context) (name : bytes) (kvs : list KeyValue)
  | Inject (i : nat)
  | SetAttributes (i : nat) (kvs : list KeyValue)
  | AddException (i : nat) (type message : bytes)
  | SetStatus (i : nat) (description : bytes)
  | RecordDuration (i : nat) (nanoseconds : Z) (kvs : list KeyValue)
  | EndSpan (i : nat)
  | RetryExhaustedEvent (parent : B)
  | GoPanic.

Definition route_of (c : context) : bytes := if routeEnabled cfg then ctx_route (base c) else [].
Definition spanName (req : Request) (method route : bytes) : bytes :=
  let default_name := if bool_decide (route = []) then method else method ++ #" " ++ route in
  match spanNameFormatter cfg with
  | Some f => let name := f req in if bool_decide (name = []) then default_name else name
  | None => default_name
  end.
Definition beforeRequest (s : store) (c : Client) (req : Request) (now : Z) : store * Request * list call :=
  let parent := match stateFromContext s (ctx req) with Some (_, prev) => parentCtx prev | None => ctx req end in
  let method := let m := ToUpper (req_Method req) in if bool_decide (m = []) then #"GET" else m in
  let route := route_of parent in
  let kvs := [(HTTPRequestMethodKey, StringValue method)]
    ++ (if (2 <=? Attempt req)%Z then [(HTTPRequestResendCountKey, IntValue (Attempt req - 1))] else [])
    ++ (if bool_decide (route = []) then [] else [(HTTPRouteKey, StringValue route)]) in
  let i := length s in
  let st := {| parentCtx := parent; start := now; method := method; route := route; target := requestTarget (Some c) (Some req);
               attempt := Attempt req; retryCount := RetryCount c; finished := false; secrets := clientSecrets (Some c);
               authHeaderKey := HeaderAuthorizationKey c; jar := clientJar (Some c) |} in
  (s ++ [st], SetContext req {| base := base parent; state := Some i |}, [StartSpan i parent (spanName req method route) kvs; Inject i]).

(** * The end of an attempt *)
Definition isLastAttempt (st : requestState) : bool := (0 <? retryCount st)%Z && (retryCount st + 1 <=? attempt st)%Z.
Definition addRetryExhaustedEvent (c : context) : list call := if parent_valid (base c) then [RetryExhaustedEvent (base c)] else [].
Definition resolvedTarget (req : Request) (st : requestState) : targetAttrs :=
  match raw_url req with Some u => targetFromURL (Some u) | None => target st end.
Definition metricAttrs (st : requestState) : list KeyValue :=
  [(HTTPRequestMethodKey, StringValue (method st))]
  ++ (if bool_decide (host (target st) = []) then [] else [(ServerAddressKey, StringValue (host (target st)))])
  ++ (if (0 <? port (target st))%Z then [(ServerPortKey, IntValue (port (target st)))] else [])
  ++ (if metricRouteEnabled cfg && negb (bool_decide (route st = [])) then [(HTTPRouteKey, StringValue (route st))] else []).

Context (σ : error_store) (ans : error_answers) (depth : nat) (J : jars).
(** What errors.As finds for a *resty.ResponseError, its Response; and what
    reflect answers for the type of an error, its PkgPath and its Name. *)
Context (ResponseError_Response : eref → option Response) (PkgPath type_Name : eref → bytes).

Definition exceptionType (e : eref) : bytes :=
  if bool_decide (PkgPath e = []) && bool_decide (type_Name e = []) then type_name (σ e) else PkgPath e ++ #"." ++ type_Name e.
Definition requestSecrets (req : Request) (st : requestState) (err : option eref) : list bytes :=
  let header := match raw ← Raw req; raw_Header raw with Some h => h | None => req_Header req end in
  secrets st ++ urlDerivedSecrets req ++ HeaderSecrets header [authHeaderKey st]
  ++ configuredSecrets (AuthScheme req) (Token req) (req_User req) (Cookies req)
  ++ jarSecrets J (jar st) (requestURLs req ++ ErrorURLs σ err).
(** redact.Error(err, ...).Error() *)
Definition redacted_text (req : Request) (st : requestState) (err : eref) : bytes :=
  default [] (returned_message σ (Error σ (Some err) (requestURLs req) (requestSecrets req st (Some err)))).
Definition finish (s : store) (i : nat) (st : requestState) (req : Request) (status : option bytes) (err : option eref)
    (spanAttrs labels : list KeyValue) (now : Z) : store * Request * list call :=
  if finished st then (s, req, [])
  else
    let st := with_target st (target st) true in
    (<[i := st]> s, SetContext req (parentCtx st),
     (if bool_decide (spanAttrs = []) then [] else [SetAttributes i spanAttrs])
     ++ match err with Some e => [AddException i (exceptionType e) (redacted_text req st e)] | None => [] end
     ++ match status with Some d => [SetStatus i d] | None => [] end
     ++ [RecordDuration i (Sub now (start st)) labels; EndSpan i]).

Definition isErrorStatusCode (code : Z) : bool := (400 <=? code)%Z && (code <? 600)%Z.
Definition finishResponse (s : store) (i : nat) (st : requestState) (resp : Response) (req : Request) (retryable : bool) (now : Z) :
    store * Request * list call :=
  let st := with_target st (resolvedTarget req st) (finished st) in
  let code := StatusCode resp in
  let exhausted := isLastAttempt st && retryable in
  let errType := if isErrorStatusCode code then dec_Z code else [] in
  let error_kv := if bool_decide (errType = []) then [] else [(ErrorTypeKey, StringValue errType)] in
  let kvs := targetAttributes (target st) ++ [(HTTPResponseStatusCodeKey, IntValue code)]
    ++ (if bool_decide (code = 408%Z) || bool_decide (code = 504%Z) then [(restyErrorKindKey, StringValue #"server_timeout")] else [])
    ++ error_kv ++ (if exhausted then [(restyRetryExhaustedKey, BoolValue true)] else []) in
  let labels := metricAttrs st ++ (if (0 <? code)%Z then [(HTTPResponseStatusCodeKey, IntValue code)] else []) ++ error_kv in
  let '(s, req, calls) := finish (<[i := st]> s) i st req (if (400 <=? code)%Z then Some (Status resp) else None) None kvs labels now in
  (s, req, (if exhausted then addRetryExhaustedEvent (parentCtx st) else []) ++ calls).

Definition finishError (s : store) (i : nat) (st : requestState) (req : Request) (err : eref) (retryExhausted : bool) (now : Z) :
    store * Request * list call :=
  let errType := errorType σ ans depth err in
  let found := errors_As σ ans depth (Some err) #"*resty.ResponseError" ≫= ResponseError_Response in
  let code := match found with Some resp => StatusCode resp | None => 0%Z end in
  let req := match found with Some resp => default req (resp_Request resp) | None => req end in
  let st := with_target st (resolvedTarget req st) (finished st) in
  let exhausted := retryExhausted && negb (errors_Is σ ans depth (Some err) Canceled) && negb (errors_Is σ ans depth (Some err) DeadlineExceeded) in
  let status_kv := if (0 <? code)%Z then [(HTTPResponseStatusCodeKey, IntValue code)] else [] in
  match restyErrorKind σ ans depth err with
  | None => (<[i := st]> s, req, [GoPanic])
  | Some kind =>
    let kvs := targetAttributes (target st)
      ++ [(ErrorTypeKey, StringValue errType); (restyErrorKindKey, StringValue kind)]
      ++ status_kv ++ (if exhausted then [(restyRetryExhaustedKey, BoolValue true)] else []) in
    let labels := metricAttrs st ++ [(ErrorTypeKey, StringValue errType)] ++ status_kv in
    let '(s, req, calls) := finish (<[i := st]> s) i st req (Some (redacted_text req st err)) (Some err) kvs labels now in
    (s, req, (if exhausted then addRetryExhaustedEvent (parentCtx st) else []) ++ calls)
  end.

(** The hooks that end an attempt: each does nothing without a request, for a
    request whose context leads to no state, or to one that is finished. The
    request returned is the one whose context was set. *)
Definition with_state (s : store) (req : option Request) (k : nat → requestState → Request → store * Request * list call) :
    store * option Request * list call :=
  match req with
  | None => (s, None, [])
  | Some req =>
    match stateFromContext s (ctx req) with
    | Some (i, st) => if finished st then (s, Some req, []) else let '(s, req, calls) := k i st req in (s, Some req, calls)
    | None => (s, Some req, [])
    end
  end.
Definition success (s : store) (resp : option Response) (now : Z) : store * option Request * list call :=
  match resp with
  | None => (s, None, [])
  | Some resp => with_state s (resp_Request resp) (λ i st req, finishResponse s i st resp req false now)
  end.
Definition retry (s : store) (resp : option Response) (err : option eref) (now : Z) : store * option Request * list call :=
  match resp with
  | None => (s, None, [])
  | Some resp =>
    with_state s (resp_Request resp) (λ i st req,
      match err with
      | None => finishResponse s i st resp req true now
      | Some e => finishError s i st req e (isLastAttempt st) now
      end)
  end.
(** [panic_error] is the error made for a panic that came with none. *)
Definition panicked (panic_error : eref) (s : store) (req : option Request) (err : option eref) (now : Z) : store * option Request * list call :=
  with_state s req (λ i st req, finishError s i st req (default panic_error err) false now).
Definition error_hook (s : store) (req : option Request) (err : option eref) (now : Z) : store * option Request * list call :=
  match err with
  | None => (s, req, [])
  | Some e => with_state s req (λ i st req, finishError s i st req e (isLastAttempt st) now)
  end.

(** * What a hook leaves *)
Definition span_of (c : call) : option nat :=
  match c with
  | StartSpan i _ _ _ | Inject i | SetAttributes i _ | AddException i _ _ | SetStatus i _ | RecordDuration i _ _ | EndSpan i => Some i
  | RetryExhaustedEvent _ | GoPanic => None
  end.
Definition of_span (i : nat) (calls : list call) : list call := filter (λ c, span_of c = Some i) calls.
(** A call that writes on a span. *)
Definition writes (c : call) : Prop := match c with SetAttributes _ _ | AddException _ _ _ | SetStatus _ _ => True | _ => False end.
Definition ends (i : nat) (calls : list call) : Prop :=
  (∃ mid d kvs, of_span i calls = mid ++ [RecordDuration i d kvs; EndSpan i] ∧ Forall writes mid)
  ∧ ∀ j, j ≠ i → of_span j calls = [].

Lemma of_span_app i l k : of_span i (l ++ k) = of_span i l ++ of_span i k.
Proof. apply filter_app. Qed.
Lemma of_span_all i l : Forall (λ c, span_of c = Some i) l → of_span i l = l ∧ ∀ j, j ≠ i → of_span j l = [].
Proof.
  intros H. unfold of_span. split.
  - induction H as [|c l Hc _ IH]; [done|]. rewrite filter_cons, decide_True by done. by rewrite IH.
  - intros j Hj. induction H as [|c l Hc _ IH]; [done|]. rewrite filter_cons, decide_False by congruence. exact IH.
Qed.
Lemma of_span_exhausted j c : of_span j (addRetryExhaustedEvent c) = [].
Proof. unfold addRetryExhaustedEvent. by destruct (parent_valid (base c)). Qed.

(** A hook that ends attempt [i]: its state is finished, and the context of the
    request it is given back to is the parent's. *)
Definition ended (s : store) (i : nat) (st : requestState) (out : store * Request * list call) : Prop :=
  let '(s', req', calls) := out in
  (∃ st', s' = <[i := st']> s ∧ finished st' = true ∧ parentCtx st' = parentCtx st)
  ∧ ctx req' = parentCtx st ∧ ends i calls.

Lemma finish_ended s i st st0 req status err kvs labels now pre : finished st = false → parentCtx st = parentCtx st0 →
  (∀ j, of_span j pre = []) →
  ended s i st0 (let '(s, req, calls) := finish (<[i := st]> s) i st req status err kvs labels now in (s, req, pre ++ calls)).
Proof.
  intros Hf Hp Hpre. unfold finish. rewrite Hf. cbn [ended]. split_and!.
  - exists (with_target st (target st) true). split_and!; [apply list_insert_insert_eq|done|done].
  - done.
  - set (mid := (if bool_decide (kvs = []) then [] else [SetAttributes i kvs])
      ++ match err with Some e => [AddException i (exceptionType e) (redacted_text req (with_target st (target st) true) e)] | None => [] end
      ++ match status with Some d => [SetStatus i d] | None => [] end).
    assert (Hm : Forall (λ c, span_of c = Some i ∧ writes c) mid).
    { unfold mid. rewrite !Forall_app. split_and!; [case_bool_decide|destruct err|destruct status]; by repeat constructor. }
    set (tail := [RecordDuration i (Sub now (start (with_target st (target st) true))) labels; EndSpan i]).
    destruct (of_span_all i (mid ++ tail)) as [H1 H2].
    { apply Forall_app. split; [eapply Forall_impl; [exact Hm|naive_solver]|by repeat constructor]. }
    assert (Hc : (if bool_decide (kvs = []) then [] else [SetAttributes i kvs])
      ++ match err with Some e => [AddException i (exceptionType e) (redacted_text req (with_target st (target st) true) e)] | None => [] end
      ++ match status with Some d => [SetStatus i d] | None => [] end ++ tail = mid ++ tail) by (unfold mid; by rewrite <- !app_assoc).
    split; [|intros j Hj; rewrite of_span_app, Hpre; cbn; change ([RecordDuration i _ _; EndSpan i]) with tail; rewrite Hc; by apply H2].
    exists mid, (Sub now (start (with_target st (target st) true))), labels. split.
    + rewrite of_span_app, Hpre. cbn [app]. rewrite Hc. exact H1.
    + eapply Forall_impl; [exact Hm|naive_solver].
Qed.

Lemma finishResponse_ended s i st resp req retryable now : finished st = false → ended s i st (finishResponse s i st resp req retryable now).
Proof.
  intros Hf. unfold finishResponse. apply finish_ended; [done|done|].
  intros j. destruct (_ && _); [apply of_span_exhausted|done].
Qed.
(** A hook that panics leaves the attempt open. *)
Definition crashed (s : store) (i : nat) (st : requestState) (out : store * Request * list call) : Prop :=
  out.2 = [GoPanic] ∧ ∃ st', out.1.1 = <[i := st']> s ∧ finished st' = finished st ∧ parentCtx st' = parentCtx st.
Lemma finishError_cases s i st req err exhausted now : finished st = false →
  if restyErrorKind σ ans depth err then ended s i st (finishError s i st req err exhausted now)
  else crashed s i st (finishError s i st req err exhausted now).
Proof.
  intros Hf. unfold finishError. destruct (restyErrorKind σ ans depth err).
  - apply finish_ended; [done|done|]. intros j. destruct (_ && _); [apply of_span_exhausted|done].
  - split; [done|]. by eexists.
Qed.
Lemma finishError_ended s i st req err exhausted now : finished st = false → is_Some (restyErrorKind σ ans depth err) →
  ended s i st (finishError s i st req err exhausted now).
Proof. intros Hf [kind Hk]. pose proof (finishError_cases s i st req err exhausted now Hf) as H. by rewrite Hk in H. Qed.
Lemma finishError_closed s i st req err exhausted now : finished st = false →
  ended s i st (finishError s i st req err exhausted now) ∨ crashed s i st (finishError s i st req err exhausted now).
Proof.
  intros Hf. pose proof (finishError_cases s i st req err exhausted now Hf) as H.
  destruct (restyErrorKind σ ans depth err); [by left|by right].
Qed.

(** * Any sequence of hook calls *)
Inductive hook_call :=
  | CBefore (c : Client) (req : Request) (now : Z)
  | CSuccess (resp : option Response) (now : Z)
  | CRetry (resp : option Response) (err : option eref) (now : Z)
  | CError (req : option Request) (err : option eref) (now : Z)
  | CPanic (panic_error : eref) (req : option Request) (err : option eref) (now : Z).
Definition call_hook (s : store) (h : hook_call) : store * option Request * list call :=
  match h with
  | CBefore c req now => let '(s, req, calls) := beforeRequest s c req now in (s, Some req, calls)
  | CSuccess resp now => success s resp now
  | CRetry resp err now => retry s resp err now
  | CError req err now => error_hook s req err now
  | CPanic pe req err now => panicked pe s req err now
  end.
Definition request_of (h : hook_call) : option Request :=
  match h with
  | CBefore _ req _ => Some req
  | CSuccess resp _ | CRetry resp _ _ => resp ← resp; resp_Request resp
  | CError req _ _ | CPanic _ req _ _ => req
  end.
(** A context was derived from one a hook has made, or from none. *)
Definition known (s : store) (c : context) : Prop := ∀ i, state c = Some i → i < length s.
Inductive runs : store → list call → Prop :=
  | runs_nil : runs [] []
  | runs_call s trace h s' req calls : runs s trace → (∀ req, request_of h = Some req → known s (ctx req)) →
      call_hook s h = (s', req, calls) → runs s' (trace ++ calls).

Lemma with_state_cases s req k :
  (with_state s req k = (s, req, []))
  ∨ ∃ r i st, req = Some r ∧ state (ctx r) = Some i ∧ s !! i = Some st ∧ finished st = false
      ∧ with_state s req k = (let '(s, req, calls) := k i st r in (s, Some req, calls)).
Proof.
  unfold with_state, stateFromContext. destruct req as [r|]; [|by left]. destruct (state (ctx r)) as [i|] eqn:Ei; [|by left]. cbn.
  destruct (s !! i) as [st|] eqn:Es; [|by left]. cbn. destruct (finished st) eqn:Ef; [by left|]. right. by exists r, i, st.
Qed.

(** A call of a hook other than the first: nothing, or the end of the attempt the
    context leads to, or a panic. *)
Lemma call_hook_ends s h : (∀ c req now, h ≠ CBefore c req now) →
  (∃ req, call_hook s h = (s, req, []))
  ∨ ∃ r i st out, request_of h = Some r ∧ state (ctx r) = Some i ∧ s !! i = Some st ∧ finished st = false ∧ (ended s i st out ∨ crashed s i st out)
      ∧ call_hook s h = (let '(s, req, calls) := out in (s, Some req, calls)).
Proof.
  intros Hn. destruct h as [c req now|resp now|resp err now|req err now|pe req err now]; cbn [call_hook request_of].
  - by edestruct Hn.
  - destruct resp as [resp|]; [|left; by eexists]. cbn [success mbind option_bind].
    destruct (with_state_cases s (resp_Request resp) (λ i st req, finishResponse s i st resp req false now)) as [->|(r & i & st & Hr & Hi & Hs & Hf & ->)];
      [left; by eexists|right]. exists r, i, st, (finishResponse s i st resp r false now). split_and!; try done. left. by apply finishResponse_ended.
  - destruct resp as [resp|]; [|left; by eexists]. cbn [retry mbind option_bind].
    destruct (with_state_cases s (resp_Request resp) (λ i st req, match err with
      | None => finishResponse s i st resp req true now | Some e => finishError s i st req e (isLastAttempt st) now end)) as [->|(r & i & st & Hr & Hi & Hs & Hf & ->)];
      [left; by eexists|right]. destruct err as [e|].
    + exists r, i, st, (finishError s i st r e (isLastAttempt st) now). split_and!; try done. by apply finishError_closed.
    + exists r, i, st, (finishResponse s i st resp r true now). split_and!; try done. left. by apply finishResponse_ended.
  - destruct err as [e|]; [|left; by eexists]. cbn [error_hook].
    destruct (with_state_cases s req (λ i st req, finishError s i st req e (isLastAttempt st) now)) as [->|(r & i & st & Hr & Hi & Hs & Hf & ->)];
      [left; by eexists|right]. exists r, i, st, (finishError s i st r e (isLastAttempt st) now). split_and!; try done. by apply finishError_closed.
  - unfold panicked. destruct (with_state_cases s req (λ i st req, finishError s i st req (default pe err) false now)) as [->|(r & i & st & Hr & Hi & Hs & Hf & ->)];
      [left; by eexists|right]. exists r, i, st, (finishError s i st r (default pe err) false now). split_and!; try done. by apply finishError_closed.
Qed.

(** What has been done on the span of an attempt. *)
Definition span_history (i : nat) (st : requestState) (trace : list call) : Prop :=
  ∃ name kvs mid tail, of_span i trace = [StartSpan i (parentCtx st) name kvs; Inject i] ++ mid ++ tail ∧ Forall writes mid
    ∧ if finished st then ∃ d labels, tail = [RecordDuration i d labels; EndSpan i] else mid = [] ∧ tail = [].
Definition runs_ok (s : store) (trace : list call) : Prop :=
  (∀ i st, s !! i = Some st → span_history i st trace ∧ state (parentCtx st) = None)
  ∧ ∀ i, length s ≤ i → of_span i trace = [].

Lemma runs_ok_before s trace c req now : runs_ok s trace → known s (ctx req) →
  let '(s', req', calls) := beforeRequest s c req now in runs_ok s' (trace ++ calls) ∧ known s' (ctx req').
Proof.
  intros [Hs Hnew] Hk. unfold beforeRequest. set (st := {| parentCtx := _ |}).
  assert (Hpar : state (parentCtx st) = None).
  { unfold st. cbn. unfold stateFromContext. destruct (state (ctx req)) as [i|] eqn:Ei; cbn; [|exact Ei].
    destruct (lookup_lt_is_Some_2 s i (Hk i Ei)) as [prev Hp]. rewrite Hp. cbn. by apply (Hs i prev). }
  set (calls := [StartSpan _ _ _ _; _]).
  destruct (of_span_all (length s) calls) as [Hown Hother]; [by repeat constructor|].
  split; [split|].
  - intros i st' Hi. apply lookup_app_Some in Hi as [Hi|[Hle Hi]].
    + destruct (Hs i st' Hi) as [(name & kvs & mid & tail & Ht & Hm & Hf) Hp]. split; [|done].
      assert (i ≠ length s) by (apply lookup_lt_Some in Hi; lia).
      exists name, kvs, mid, tail. rewrite of_span_app, Ht, Hother by done. rewrite app_nil_r. done.
    + apply list_lookup_singleton_Some in Hi as [Hz <-]. assert (i = length s) as -> by lia. split; [|done].
      eexists _, _, [], []. rewrite of_span_app, Hnew by lia. rewrite Hown. split; [reflexivity|]. split; [constructor|]. done.
  - intros i Hi. rewrite length_app in Hi. cbn in Hi. rewrite of_span_app, Hnew by lia. apply Hother. lia.
  - intros i. cbn. intros [= <-]. rewrite length_app. cbn. lia.
Qed.

Lemma runs_ok_ended s trace i st s' req' calls : runs_ok s trace → s !! i = Some st → finished st = false → ended s i st (s', req', calls) →
  runs_ok s' (trace ++ calls).
Proof.
  intros [Hs Hnew] Hi Hf ((st' & -> & Hf' & Hp) & _ & (mid & d & kvs & Hmid & Hw) & Hother).
  assert (Hlt : i < length s) by by eapply lookup_lt_Some.
  split.
  - intros j stj Hj. destruct (decide (i = j)) as [<-|Hne].
    + rewrite list_lookup_insert_eq in Hj by done. injection Hj as <-. destruct (Hs i st Hi) as [(name & k & m & t & Ht & _ & Hu) Hpar].
      rewrite Hf in Hu. destruct Hu as [-> ->]. split; [|by rewrite Hp].
      exists name, k, mid, [RecordDuration i d kvs; EndSpan i]. rewrite of_span_app, Ht, Hmid, Hp, Hf'. split; [done|]. split; [done|by eexists _, _].
    + rewrite list_lookup_insert_ne in Hj by done. destruct (Hs j stj Hj) as [(name & k & m & t & Ht & Hm & Hu) Hpar]. split; [|done].
      exists name, k, m, t. rewrite of_span_app, Ht, Hother by done. by rewrite app_nil_r.
  - intros j Hj. rewrite length_insert in Hj. rewrite of_span_app, Hnew, Hother by lia. done.
Qed.

Lemma runs_ok_crashed s trace i st s' req' calls : runs_ok s trace → s !! i = Some st → crashed s i st (s', req', calls) →
  runs_ok s' (trace ++ calls).
Proof.
  intros [Hs Hnew] Hi (Hc & st' & Hs' & Hf & Hp). cbn [fst snd] in Hc, Hs'. subst calls s'.
  assert (Hsame : ∀ j, of_span j (trace ++ [GoPanic]) = of_span j trace) by (intros j; rewrite of_span_app; by rewrite app_nil_r).
  split.
  - intros j stj [(<- & <- & _)|[_ Hj]]%list_lookup_insert_Some.
    + destruct (Hs i st Hi) as [Hh Hpar]. rewrite Hp. split; [|done]. unfold span_history. by rewrite Hsame, Hf, Hp.
    + destruct (Hs j stj Hj) as [Hh Hpar]. split; [|done]. unfold span_history. by rewrite Hsame.
  - intros j Hj. rewrite length_insert in Hj. rewrite Hsame. by apply Hnew.
Qed.

(** C14: the life of an attempt's span, under any calls of the hooks in any order,
    repeated ones, calls for requests that carry another attempt's context and
    hooks that panic included. Every attempt has one span, started under a context that is no
    attempt's own; it is written on only before it ends; and it is ended once, with
    one duration recorded just before, exactly when its state is finished. *)
Theorem resty_span_life (s : store) (trace : list call) (Hruns : runs s trace) :
  (∀ i st, s !! i = Some st → span_history i st trace ∧ state (parentCtx st) = None)
  ∧ ∀ i, length s ≤ i → of_span i trace = [].
Proof.
  change (runs_ok s trace). induction Hruns as [|s trace h s' req calls Hr IH Hk Hcall].
  { split; [by intros i st ?|done]. }
  assert (Hother : (∀ c r now, h ≠ CBefore c r now) → runs_ok s' (trace ++ calls)).
  { intros Hn. destruct (call_hook_ends s h Hn) as [[r Heq]|(r & i & st & [[s1 r1] c1] & _ & _ & Hi & Hf & He & Heq)]; rewrite Heq in Hcall; simplify_eq.
    - by rewrite app_nil_r.
    - destruct He as [He|He]; [by eapply runs_ok_ended|by eapply runs_ok_crashed]. }
  destruct h as [c r now| | | |]; try by apply Hother.
  cbn [call_hook] in Hcall. pose proof (runs_ok_before s trace c r now IH (Hk r eq_refl)) as H.
  destruct (beforeRequest s c r now) as [[s1 r1] c1]. simplify_eq. apply H.
Qed.

(** * A request *)
(** How an attempt ends, with the response resty hands on, for the request as it
    is then. *)
Inductive attempt_end :=
  | ASuccess (code : Z) (status : bytes)
  | ARetry (code : Z) (status : bytes) (err : option eref)
  | AError (e : eref)
  | APanic (panic_error : eref) (err : option eref).
Definition end_call (a : attempt_end) (req : Request) (now : Z) : hook_call :=
  let resp code status := Some {| resp_Request := Some req; StatusCode := code; Status := status |} in
  match a with
  | ASuccess code status => CSuccess (resp code status) now
  | ARetry code status err => CRetry (resp code status) err now
  | AError e => CError (Some req) (Some e) now
  | APanic pe err => CPanic pe (Some req) err now
  end.
Record attempt_of := { a_before : Z; a_change : Request → Request; a_end : attempt_end; a_after : Z }.
(** One attempt: resty fills the request in between the hooks, and leaves its context. *)
Definition do_attempt (s : store) (c : Client) (req : Request) (a : attempt_of) : store * Request * list call :=
  let '(s, r1, calls1) := beforeRequest s c req (a_before a) in
  let r2 := SetContext (a_change a r1) (ctx r1) in
  let '(s, r3, calls2) := call_hook s (end_call (a_end a) r2 (a_after a)) in
  (s, default r2 r3, calls1 ++ calls2).
(** The error an attempt ends with, and those that can be classified. *)
Definition end_error (a : attempt_end) : option eref :=
  match a with ASuccess _ _ | ARetry _ _ None => None | ARetry _ _ (Some e) | AError e => Some e | APanic pe err => Some (default pe err) end.
Definition classified (a : attempt_of) : Prop := ∀ e, end_error (a_end a) = Some e → is_Some (restyErrorKind σ ans depth e).
Fixpoint do_request (s : store) (c : Client) (req : Request) (attempts : list attempt_of) : store * Request * list call :=
  match attempts with
  | [] => (s, req, [])
  | a :: attempts =>
    let '(s, req, calls1) := do_attempt s c req a in
    let '(s, req, calls2) := do_request s c req attempts in
    (s, req, calls1 ++ calls2)
  end.

Lemma do_attempt_spec s c req a : classified a → stateFromContext s (ctx req) = None →
  let '(s', req', calls) := do_attempt s c req a in
  (∃ st, s' = s ++ [st] ∧ finished st = true ∧ parentCtx st = ctx req) ∧ ctx req' = ctx req.
Proof.
  intros Hcl Hnone. unfold classified in Hcl. unfold do_attempt, beforeRequest. rewrite Hnone. set (st := {| parentCtx := _ |}).
  set (r2 := SetContext (a_change a _) _).
  assert (Hs : stateFromContext (s ++ [st]) (ctx r2) = Some (length s, st)).
  { unfold stateFromContext, r2. cbn. by rewrite list_lookup_middle by done. }
  assert (Hend : ∀ s' r c', ended (s ++ [st]) (length s) st (s', r, c') →
    (∃ st', s' = s ++ [st'] ∧ finished st' = true ∧ parentCtx st' = ctx req) ∧ ctx r = ctx req).
  { intros s' r c' ((st' & -> & Hf & Hp) & Hc & _). split; [|done]. exists st'. split; [|done].
    rewrite insert_app_r_alt, Nat.sub_diag by done. done. }
  destruct (a_end a) as [code status|code status err|e|pe err]; cbn [end_call end_error call_hook success retry error_hook panicked] in *;
    unfold panicked, with_state; cbn [resp_Request]; rewrite Hs; cbn [finished].
  - set (out := finishResponse _ _ _ _ _ _ _). pose proof (finishResponse_ended (s ++ [st]) (length s) st
      {| resp_Request := Some r2; StatusCode := code; Status := status |} r2 false (a_after a) eq_refl) as H. fold out in H.
    destruct out as [[s' r] c']. by apply Hend in H.
  - destruct err as [e|].
    + set (out := finishError _ _ _ _ _ _ _). pose proof (finishError_ended (s ++ [st]) (length s) st r2 e (isLastAttempt st) (a_after a) eq_refl (Hcl _ eq_refl)) as H.
      fold out in H. destruct out as [[s' r] c']. by apply Hend in H.
    + set (out := finishResponse _ _ _ _ _ _ _). pose proof (finishResponse_ended (s ++ [st]) (length s) st
        {| resp_Request := Some r2; StatusCode := code; Status := status |} r2 true (a_after a) eq_refl) as H. fold out in H.
      destruct out as [[s' r] c']. by apply Hend in H.
  - set (out := finishError _ _ _ _ _ _ _). pose proof (finishError_ended (s ++ [st]) (length s) st r2 e (isLastAttempt st) (a_after a) eq_refl (Hcl _ eq_refl)) as H.
    fold out in H. destruct out as [[s' r] c']. by apply Hend in H.
  - set (out := finishError _ _ _ _ _ _ _). pose proof (finishError_ended (s ++ [st]) (length s) st r2 (default pe err) false (a_after a) eq_refl (Hcl _ eq_refl)) as H.
    fold out in H. destruct out as [[s' r] c']. by apply Hend in H.
Qed.

(** A request with its retries, of errors that can be rendered. Whatever ends each attempt, a success, a
    retry with or without an error, an error or a panic: every attempt has a
    finished state of its own, all of them under the context the caller gave the
    request, which the request has again at the end. *)
Theorem resty_request (s : store) (c : Client) (req : Request) (attempts : list attempt_of)
    (Hfresh : state (ctx req) = None) (Herrors : Forall classified attempts) :
  let '(s', req', calls) := do_request s c req attempts in
  ctx req' = ctx req
  ∧ ∃ states, s' = s ++ states ∧ length states = length attempts ∧ Forall (λ st, finished st = true ∧ parentCtx st = ctx req) states.
Proof.
  revert s req Hfresh. induction Herrors as [|a attempts Hcl _ IH]; intros s req Hfresh; cbn [do_request].
  { split; [done|]. exists []. by rewrite app_nil_r. }
  assert (Hctx : stateFromContext s (ctx req) = None) by (unfold stateFromContext; by rewrite Hfresh).
  pose proof (do_attempt_spec s c req a Hcl Hctx) as Ha. destruct (do_attempt s c req a) as [[s1 r1] c1].
  destruct Ha as [(st & -> & Hf & Hp) Hc]. specialize (IH (s ++ [st]) r1).
  rewrite Hc in IH. specialize (IH Hfresh). destruct (do_request (s ++ [st]) c r1 attempts) as [[s2 r2] c2].
  destruct IH as [Hr (states & -> & Hl & Hall)]. split; [done|]. exists (st :: states).
  rewrite <- app_assoc. split; [done|]. split; [cbn; by rewrite Hl|by constructor].
Qed.

(** * What is recorded *)
Definition label_keys : list bytes :=
  [HTTPRequestMethodKey; ServerAddressKey; ServerPortKey; HTTPRouteKey; ErrorTypeKey; HTTPResponseStatusCodeKey].
Definition redacted_url (v : attr_value) : Prop := ∃ u, v = StringValue (URLAttribute (Some u)).
Definition sound_call (c : call) : Prop :=
  match c with
  | StartSpan _ _ _ kvs => kvs.*1 ⊆ [HTTPRequestMethodKey; HTTPRequestResendCountKey; HTTPRouteKey]
      ∧ (routeEnabled cfg = false → HTTPRouteKey ∉ kvs.*1)
  | SetAttributes _ kvs => ∀ v, (URLFullKey, v) ∈ kvs → redacted_url v
  | RecordDuration _ _ kvs => kvs.*1 ⊆ label_keys ∧ (metricRouteEnabled cfg = false → HTTPRouteKey ∉ kvs.*1)
  | _ => True
  end.
Definition target_ok (t : targetAttrs) : Prop := fullURL t = [] ∨ redacted_url (StringValue (fullURL t)).

Lemma targetFromURL_ok u : target_ok (targetFromURL u).
Proof. destruct u as [u|]; [right; by exists u|by left]. Qed.
Lemma targetFromRawURL_ok raw : target_ok (targetFromRawURL raw).
Proof. unfold targetFromRawURL. destruct (url_Parse raw) as [u|]; [right; by exists u|by left]. Qed.
Lemma requestTarget_ok c req : target_ok (requestTarget c req).
Proof.
  unfold requestTarget. destruct req as [req|]; [|by left]. cbv zeta.
  repeat case_match; first [apply targetFromURL_ok|apply targetFromRawURL_ok].
Qed.
Lemma resolvedTarget_ok req st : target_ok (target st) → target_ok (resolvedTarget req st).
Proof. intros H. unfold resolvedTarget. destruct (raw_url req); [apply targetFromURL_ok|done]. Qed.

Lemma targetAttributes_url t v : target_ok t → (URLFullKey, v) ∈ targetAttributes t → redacted_url v.
Proof.
  intros Ht. unfold targetAttributes. rewrite !elem_of_app. intros [Hin|[Hin|Hin]].
  - case_bool_decide; [by apply elem_of_nil in Hin|]. apply list_elem_of_singleton in Hin. discriminate Hin.
  - destruct (0 <? port t)%Z; [|by apply elem_of_nil in Hin]. apply list_elem_of_singleton in Hin. discriminate Hin.
  - case_bool_decide as E; [by apply elem_of_nil in Hin|]. apply list_elem_of_singleton in Hin as [= ->]. by destruct Ht.
Qed.

Lemma resty_label_keys st :
  (metricAttrs st).*1 ⊆ label_keys ∧ (metricRouteEnabled cfg = false → HTTPRouteKey ∉ (metricAttrs st).*1).
Proof.
  unfold metricAttrs, label_keys. rewrite !fmap_app. split.
  - destruct (bool_decide (host (target st) = [])), (0 <? port (target st))%Z, (metricRouteEnabled cfg && negb _); cbn; set_solver.
  - intros ->. cbn [andb]. rewrite !elem_of_app. destruct (bool_decide (host (target st) = [])), (0 <? port (target st))%Z; cbn;
      rewrite ?elem_of_cons, ?elem_of_nil; intros Hin; destruct_or?; try done; discriminate.
Qed.

Lemma finish_sound s i st req status err kvs labels now :
  (∀ v, (URLFullKey, v) ∈ kvs → redacted_url v) →
  labels.*1 ⊆ label_keys ∧ (metricRouteEnabled cfg = false → HTTPRouteKey ∉ labels.*1) →
  Forall sound_call (finish s i st req status err kvs labels now).2.
Proof.
  intros Hk Hl. unfold finish. destruct (finished st); [constructor|]. cbn [snd]. rewrite !Forall_app.
  split; [case_bool_decide; [constructor|by apply Forall_singleton]|].
  split; [destruct err; [by apply Forall_singleton|constructor]|].
  split; [destruct status; [by apply Forall_singleton|constructor]|].
  constructor; [exact Hl|by apply Forall_singleton].
Qed.

Lemma more_labels (l more : list KeyValue) : more.*1 ⊆ [ErrorTypeKey; HTTPResponseStatusCodeKey] →
  l.*1 ⊆ label_keys ∧ (metricRouteEnabled cfg = false → HTTPRouteKey ∉ l.*1) →
  (l ++ more).*1 ⊆ label_keys ∧ (metricRouteEnabled cfg = false → HTTPRouteKey ∉ (l ++ more).*1).
Proof.
  intros Hm [H1 H2]. rewrite fmap_app. split.
  - unfold label_keys in *. set_solver.
  - intros Hf. rewrite elem_of_app. intros [Hin|Hin]; [by apply H2|]. apply Hm in Hin.
    rewrite !elem_of_cons, elem_of_nil in Hin. destruct_or?; try done; discriminate.
Qed.

Lemma sound_exhausted (b : bool) c : Forall sound_call (if b then addRetryExhaustedEvent c else []).
Proof. unfold addRetryExhaustedEvent. destruct b; [destruct (parent_valid (base c))|]; by repeat constructor. Qed.

Lemma sound_let (X : store * Request * list call) pre : Forall sound_call X.2 → Forall sound_call pre →
  Forall sound_call (let '(s, req, calls) := X in (s, req, pre ++ calls)).2.
Proof. destruct X as [[? ?] ?]. cbn. intros. by apply Forall_app. Qed.

Lemma finishResponse_sound s i st resp req retryable now : target_ok (target st) →
  Forall sound_call (finishResponse s i st resp req retryable now).2.
Proof.
  intros Ht. unfold finishResponse. apply sound_let; [|apply sound_exhausted]. apply finish_sound.
  - intros v. rewrite elem_of_app. intros [Hin|Hin]; [eapply targetAttributes_url; [|exact Hin]; by apply resolvedTarget_ok|].
    exfalso. repeat case_match; rewrite ?elem_of_app, ?elem_of_cons, ?elem_of_nil in Hin; destruct_or?; try done; discriminate.
  - apply more_labels; [|apply resty_label_keys]. rewrite fmap_app. repeat case_match; cbn; set_solver.
Qed.
Lemma finishError_sound s i st req err exhausted now : target_ok (target st) →
  Forall sound_call (finishError s i st req err exhausted now).2.
Proof.
  intros Ht. unfold finishError. destruct (restyErrorKind σ ans depth err); [|by apply Forall_singleton]. apply sound_let; [|apply sound_exhausted]. apply finish_sound.
  - intros v. rewrite elem_of_app. intros [Hin|Hin]; [eapply targetAttributes_url; [|exact Hin]; by apply resolvedTarget_ok|].
    exfalso. repeat case_match; rewrite ?elem_of_app, ?elem_of_cons, ?elem_of_nil in Hin; destruct_or?; try done; discriminate.
  - apply more_labels; [|apply resty_label_keys]. rewrite fmap_app. repeat case_match; cbn; set_solver.
Qed.

Definition targets_ok (s : store) : Prop := ∀ i st, s !! i = Some st → target_ok (target st).
Definition recorded_ok {R} (out : store * R * list call) : Prop := targets_ok out.1.1 ∧ Forall sound_call out.2.

Lemma targets_ok_insert s i st : targets_ok s → target_ok (target st) → targets_ok (<[i := st]> s).
Proof. intros Hs Ht j f [(-> & <- & _)|[_ Hj]]%list_lookup_insert_Some; [done|by apply (Hs j)]. Qed.

Lemma finish_targets s i st req status err kvs labels now : targets_ok s → target_ok (target st) →
  targets_ok (finish s i st req status err kvs labels now).1.1.
Proof. intros Hs Ht. unfold finish. destruct (finished st); [done|]. by apply targets_ok_insert. Qed.

Lemma targets_let (X : store * Request * list call) pre :
  targets_ok X.1.1 → targets_ok (let '(s, req, calls) := X in (s, req, pre ++ calls)).1.1.
Proof. by destruct X as [[? ?] ?]. Qed.

Lemma finishResponse_recorded s i st resp req retryable now : targets_ok s → s !! i = Some st →
  recorded_ok (finishResponse s i st resp req retryable now).
Proof.
  intros Hs Hi. split; [|by apply finishResponse_sound, (Hs i)]. unfold finishResponse. apply targets_let, finish_targets.
  - apply targets_ok_insert; [done|]. by apply resolvedTarget_ok, (Hs i).
  - by apply resolvedTarget_ok, (Hs i).
Qed.
Lemma finishError_recorded s i st req err exhausted now : targets_ok s → s !! i = Some st →
  recorded_ok (finishError s i st req err exhausted now).
Proof.
  intros Hs Hi. split; [|by apply finishError_sound, (Hs i)]. unfold finishError. destruct (restyErrorKind σ ans depth err).
  2: { apply targets_ok_insert; [done|]. by apply resolvedTarget_ok, (Hs i). }
  apply targets_let, finish_targets.
  - apply targets_ok_insert; [done|]. by apply resolvedTarget_ok, (Hs i).
  - by apply resolvedTarget_ok, (Hs i).
Qed.

Lemma with_state_recorded s req k : targets_ok s →
  (∀ i st r, s !! i = Some st → recorded_ok (k i st r)) → recorded_ok (with_state s req k).
Proof.
  intros Hs Hk. destruct (with_state_cases s req k) as [->|(r & i & st & _ & _ & Hi & _ & ->)]; [split; [done|constructor]|].
  specialize (Hk i st r Hi). by destruct (k i st r) as [[? ?] ?].
Qed.

Lemma call_hook_recorded s h : targets_ok s → recorded_ok (call_hook s h).
Proof.
  intros Hs. assert (Hnone : ∀ r : option Request, recorded_ok (s, r, [])) by (intros r; split; [done|constructor]).
  destruct h as [c req now|resp now|resp err now|req err now|pe req err now]; cbn [call_hook].
  - unfold beforeRequest. cbv zeta. split; cbn [fst snd].
    + intros i st [Hi|[_ Hi]]%lookup_app_Some; [by apply (Hs i)|]. apply list_lookup_singleton_Some in Hi as [_ <-]. apply requestTarget_ok.
    + constructor; [|by apply Forall_singleton]. cbn [sound_call]. split.
      * repeat case_match; cbn; set_solver.
      * unfold route_of. intros ->. cbn [app]. destruct (2 <=? Attempt req)%Z; by apply (bool_decide_unpack (_ ∉ _)).
  - destruct resp as [resp|]; [|apply Hnone]. apply with_state_recorded; [done|]. intros. by apply finishResponse_recorded.
  - destruct resp as [resp|]; [|apply Hnone]. apply with_state_recorded; [done|]. intros i st r Hi.
    destruct err; [by apply finishError_recorded|by apply finishResponse_recorded].
  - destruct err as [e|]; [|apply Hnone]. apply with_state_recorded; [done|]. intros. by apply finishError_recorded.
  - apply with_state_recorded; [done|]. intros. by apply finishError_recorded.
Qed.

(** What the hooks record, under any calls in any order. A URL on a span is one
    URLAttribute rendered, with its userinfo and credential values gone, wherever
    it came from; the labels of a duration are of a fixed set, and a route is on a
    span or a duration only when it was asked for. *)
Theorem resty_recorded (s : store) (trace : list call) (Hruns : runs s trace) : Forall sound_call trace.
Proof.
  assert (targets_ok s ∧ Forall sound_call trace) as [_ H]; [|done].
  induction Hruns as [|s trace h s' req calls Hr [Hs Ht] Hk Hcall]; [split; [by intros i st ?|constructor]|].
  pose proof (call_hook_recorded s h Hs) as [H1 H2]. rewrite Hcall in H1, H2. split; [done|by apply Forall_app].
Qed.

(** * Credentials *)
(** A credential configured as a token, a user or a cookie, in the form it has
    there or on the wire. *)
Inductive configured (scheme token : bytes) (user : option RestyUser) (cookies : list (option Cookie)) : bytes → Prop :=
  | conf_token : configured scheme token user cookies token
  | conf_scheme : token ≠ [] → configured scheme token user cookies (TrimSpace (scheme ++ #" " ++ token))
  | conf_basic u : user = Some u → configured scheme token user cookies (BasicAuthValue (Username u) (Password u))
  | conf_password u : user = Some u → configured scheme token user cookies (Password u)
  | conf_cookie k : Some k ∈ cookies → configured scheme token user cookies (cookie_Value k).
(** A value under a header that carries credentials. *)
Definition header_credential (h : Header) (also v : bytes) : Prop :=
  ∃ entry, entry ∈ h ∧ v ∈ entry.2 ∧ secret_header (also_names [also]) entry.1 = true.
(** The credentials of an attempt: the request's, those of the client it was begun
    with, what net/http makes of the URL's userinfo, and the cookies of the jar for
    the URLs of the request and of the error. *)
Inductive credential (c : Client) (req : Request) (err : eref) : bytes → Prop :=
  | cred_client s : configured (c_AuthScheme c) (c_Token c) (c_User c) (c_Cookies c) s → credential c req err s
  | cred_client_header s : header_credential (c_Header c) (HeaderAuthorizationKey c) s → credential c req err s
  | cred_request s : configured (AuthScheme req) (Token req) (req_User req) (Cookies req) s → credential c req err s
  | cred_header s : header_credential (match raw ← Raw req; raw_Header raw with Some h => h | None => req_Header req end) (HeaderAuthorizationKey c) s →
      credential c req err s
  | cred_url : credential c req err (BasicAuthHeader (resolvedRawURL req))
  | cred_jar j raw u k : c_Jar c = Some j → raw ∈ requestURLs req ++ ErrorURLs σ (Some err) → url_Parse raw = Some u → Host u ≠ [] →
      Some k ∈ J j u → credential c req err (cookie_Value k).
(** What beforeRequest keeps of the client. *)
Definition begun_with (st : requestState) (c : Client) : Prop :=
  secrets st = clientSecrets (Some c) ∧ authHeaderKey st = HeaderAuthorizationKey c ∧ jar st = c_Jar c.

Lemma add_form_self v : v ≠ [] → v ∈ add_form v.
Proof.
  intros H. unfold add_form. rewrite bool_decide_false by done. apply (value_form_listed _ _ v); [set_solver|apply Renderings_self].
Qed.

Lemma configured_listed scheme token user cookies s : s ≠ [] → configured scheme token user cookies s →
  s ∈ configuredSecrets scheme token user cookies.
Proof.
  intros Hs Hc. unfold configuredSecrets. rewrite !elem_of_app. destruct Hc as [|Ht|u ->|u ->|k Hk].
  - left. rewrite bool_decide_false by done. apply elem_of_app. left. by apply add_form_self.
  - left. rewrite bool_decide_false by done. apply elem_of_app. right. by apply add_form_self.
  - right; left. apply elem_of_app. left. by apply add_form_self.
  - right; left. rewrite !elem_of_app. right; right. by apply add_form_self.
  - right; right. apply list_elem_of_bind. exists (Some k). split; [|done]. apply elem_of_app. left. by apply add_form_self.
Qed.
Lemma header_listed h also v : v ≠ [] → header_credential h also v → v ∈ HeaderSecrets h [also].
Proof.
  intros Hv (entry & He & Hin & Hs). apply HeaderSecrets_elem. split; [done|]. exists entry. split_and!; [done|done|].
  apply elem_of_app. right. apply list_elem_of_bind. exists v. split; [apply HeaderValueForms_self|done].
Qed.

Lemma client_listed c s : s ≠ [] →
  configured (c_AuthScheme c) (c_Token c) (c_User c) (c_Cookies c) s ∨ header_credential (c_Header c) (HeaderAuthorizationKey c) s →
  s ∈ clientSecrets (Some c).
Proof.
  intros Hs [Hc|Hh]; cbn; apply elem_of_app; [right; by apply configured_listed|left; by apply header_listed].
Qed.

Lemma credential_listed c req st err s : begun_with st c → s ≠ [] → credential c req err s → s ∈ requestSecrets req st (Some err).
Proof.
  intros (Hst & Hkey & Hjar) Hs Hc. unfold requestSecrets. rewrite Hst, Hkey, Hjar, !elem_of_app.
  destruct Hc as [s Hc|s Hc|s Hc|s Hh| |j raw u k Hj Hraw Hu Hh Hk].
  - left. apply client_listed; [done|by left].
  - left. apply client_listed; [done|by right].
  - right; right; right; left. by apply configured_listed.
  - right; right; left. by apply header_listed.
  - right; left. unfold urlDerivedSecrets. cbv zeta. rewrite bool_decide_false by done. by left.
  - right; right; right; right. unfold jarSecrets. rewrite Hj. apply list_elem_of_bind. exists raw. split; [|done].
    rewrite Hu, bool_decide_false by done. apply list_elem_of_bind. exists (Some k). split; [|done]. cbn. rewrite bool_decide_false by done.
    apply elem_of_app. left. apply HeaderValueForms_self.
Qed.

Definition text_of (c : call) : option bytes :=
  match c with AddException _ _ m | SetStatus _ m => Some m | _ => None end.

Lemma finish_text s i st req status err kvs labels now call m :
  call ∈ (finish s i st req status err kvs labels now).2 → text_of call = Some m →
  (∃ e, err = Some e ∧ m = redacted_text req (with_target st (target st) true) e) ∨ status = Some m.
Proof.
  unfold finish. destruct (finished st); [by intros ?%elem_of_nil|]. cbn [snd]. rewrite !elem_of_app. intros [Hc|[Hc|[Hc|Hc]]] Hm.
  - case_bool_decide; [by apply elem_of_nil in Hc|]. apply list_elem_of_singleton in Hc as ->. done.
  - destruct err as [e|]; [|by apply elem_of_nil in Hc]. apply list_elem_of_singleton in Hc as ->. left. exists e. by injection Hm.
  - destruct status as [d|]; [|by apply elem_of_nil in Hc]. apply list_elem_of_singleton in Hc as ->. right. by injection Hm as ->.
  - rewrite !elem_of_cons, elem_of_nil in Hc. by destruct Hc as [->|[->|[]]].
Qed.

Lemma let_elem (X : store * Request * list call) pre call :
  call ∈ (let '(s, req, calls) := X in (s, req, pre ++ calls)).2 → call ∈ pre ∨ call ∈ X.2.
Proof. destruct X as [[? ?] ?]. cbn [snd]. by rewrite elem_of_app. Qed.

Lemma finishError_text s i st req err exhausted now call m :
  call ∈ (finishError s i st req err exhausted now).2 → text_of call = Some m →
  ∃ st', m = redacted_text (match errors_As σ ans depth (Some err) #"*resty.ResponseError" ≫= ResponseError_Response with
                            | Some resp => default req (resp_Request resp) | None => req end) st' err
    ∧ secrets st' = secrets st ∧ authHeaderKey st' = authHeaderKey st ∧ jar st' = jar st.
Proof.
  unfold finishError. set (req' := match _ with Some resp => default req _ | None => req end). cbv zeta. set (st1 := with_target st _ _).
  destruct (restyErrorKind σ ans depth err) as [kind|].
  2: { cbn [snd]. by intros ->%list_elem_of_singleton ?. }
  set (kvs := targetAttributes _ ++ _). set (lbl := metricAttrs st1 ++ _).
  intros [Hp|Hf]%let_elem Hm.
  - exfalso. unfold addRetryExhaustedEvent in Hp. destruct (_ && _); [|by apply elem_of_nil in Hp].
    destruct (parent_valid _); [|by apply elem_of_nil in Hp]. by apply list_elem_of_singleton in Hp as ->.
  - destruct (finish_text _ _ _ _ _ _ _ _ _ _ _ Hf Hm) as [(e & [= <-] & ->)|[= <-]]; [exists (with_target st1 (target st1) true)|exists st1]; done.
Qed.

(** C13: no credential in what an error puts on the span. However the attempt
    failed, the status and the exception of its span have no long credential of
    the request's or of its client's, whether it was configured as a token, a
    user, a header or a cookie, was in the URL, or is in the jar for a URL of the
    request or of the error, in any reading of the text; or the text is given up. *)
Theorem resty_no_credential (Hlaws : GoLibLaws L) (s : store) (i : nat) (st : requestState) (c : Client) (req : Request) (err : eref)
    (exhausted : bool) (now : Z) (call : call) (m secret : bytes) (k : nat)
    (Hst : begun_with st c) (Hcall : call ∈ (finishError s i st req err exhausted now).2) (Htext : text_of call = Some m)
    (Hsecret : credential c (match errors_As σ ans depth (Some err) #"*resty.ResponseError" ≫= ResponseError_Response with
                             | Some resp => default req (resp_Request resp) | None => req end) err secret)
    (Hlen : shortSecretLen ≤ length secret) (Hun : unlike_placeholder secret) :
  m = redactedMessage ∨ ¬ infix secret (Nat.iter k decodeOnce m).
Proof.
  destruct (finishError_text s i st req err exhausted now call m Hcall Htext) as (st' & -> & H1 & H2 & H3).
  set (req' := match _ with Some resp => default req _ | None => req end) in *.
  assert (Hne : secret ≠ []) by (intros ->; cbn in Hlen; unfold shortSecretLen in Hlen; lia).
  assert (Hin : secret ∈ requestSecrets req' st' (Some err)).
  { apply (credential_listed c); [|done|done]. destruct Hst as (E1 & E2 & E3). unfold begun_with. by rewrite H1, H2, H3. }
  destruct (errorText σ (renderError σ (Some err)).1 (Some err) (requestURLs req') (requestSecrets req' st' (Some err))) as [text derived] eqn:Ht.
  destruct (Error_removes_listed Hlaws σ err (requestURLs req') (requestSecrets req' st' (Some err)) secret text derived k Ht) as (m & Hm & H).
  - apply elem_of_app. by left.
  - done.
  - done.
  - unfold redacted_text. rewrite Hm. done.
Qed.

(** * A request nested in an attempt *)
(** The hooks that end an attempt act on the state of the request's context. A
    request that fails before beforeRequest was called for it, with a context
    derived from an attempt's, ends that attempt; what the attempt itself then
    comes to is not recorded. *)
Theorem foreign_error_ends_attempt (s : store) (i : nat) (st : requestState) (inner : Request) (err : eref) (now : Z)
    (Hi : s !! i = Some st) (Hf : finished st = false) (Hclass : is_Some (restyErrorKind σ ans depth err)) (Hctx : state (ctx inner) = Some i) :
  let '(s', _, calls) := error_hook s (Some inner) (Some err) now in
  ends i calls
  ∧ ∀ resp req now', resp_Request resp = Some req → state (ctx req) = Some i → success s' (Some resp) now' = (s', Some req, []).
Proof.
  cbn [error_hook]. unfold with_state. assert (stateFromContext s (ctx inner) = Some (i, st)) as -> by (unfold stateFromContext; rewrite Hctx; cbn; by rewrite Hi).
  cbn [fst snd]. rewrite Hf. pose proof (finishError_ended s i st inner err (isLastAttempt st) now Hf Hclass) as He.
  destruct (finishError s i st inner err (isLastAttempt st) now) as [[s' r'] calls]. destruct He as ((st' & -> & Hf' & _) & _ & He).
  split; [done|]. intros resp req now' Hreq Hstate. cbn [success]. unfold with_state, stateFromContext. rewrite Hreq, Hstate. cbn.
  rewrite list_lookup_insert_eq by (by eapply lookup_lt_Some). cbn. by rewrite Hf'.
Qed.
End hook.

(** * Samples *)
#[local] Existing Instance ascii_upper.
#[local] Instance sample_urls : UrlApi := {| url_ResolveReference := λ base rel, if bool_decide (Scheme rel = []) then base else rel |}.
Definition sample_ctx : context := {| base := tt; state := None |}.
Definition sample_client : Client :=
  {| BaseURL := #"https://api.example/v1"; HostURL := []; RetryCount := 1; c_Header := []; HeaderAuthorizationKey := #"Authorization";
     c_AuthScheme := #"Bearer"; c_Token := #"token-1234"; c_User := None; c_Cookies := []; c_Jar := None |}.
Definition sample_request : Request (B := unit) :=
  {| ctx := sample_ctx; req_Method := #"get"; Attempt := 1; req_URL := #"/users"; req_Header := []; AuthScheme := []; Token := [];
     req_User := None; Cookies := []; Raw := None |}.
Definition sample_answers : error_answers := {| answers_is := λ _ _, false; answers_as := λ _ _, None; OpError_Err := λ _, None |}.
Definition sample_config : config (B := unit) := newConfig [].
Abbreviation sample_before := (beforeRequest (λ _, #"/users/{id}") sample_config [] sample_client sample_request 5).
Abbreviation sample_finishError :=
  (finishError (λ _ : unit, true) sample_config proxy_store sample_answers 8 (λ _ _, []) (λ _, None) (λ _, []) (λ _, [])).

Example sample_before_calls : sample_before.2 =
  [StartSpan 0 sample_ctx #"GET" [(HTTPRequestMethodKey, StringValue #"GET")]; Inject 0].
Proof. by vm_compute. Qed.
Definition sample_state : requestState (B := unit) :=
  default {| parentCtx := sample_ctx; start := 0; method := []; route := []; target := no_target; attempt := 0; retryCount := 0;
             finished := false; secrets := []; authHeaderKey := []; jar := None |} (sample_before.1.1 !! 0).
Abbreviation sample_call_hook :=
  (call_hook (λ _ : unit, []) (λ _, true) sample_config proxy_store sample_answers 8 (λ _ _, []) (λ _, None) (λ _, []) (λ _, [])).
Abbreviation sample_runs :=
  (runs (λ _ : unit, []) (λ _, true) sample_config proxy_store sample_answers 8 (λ _ _, []) (λ _, None) (λ _, []) (λ _, [])).
(** An attempt, begun and ended by a failure. *)
Definition sample_store : list (requestState (B := unit)) :=
  (sample_call_hook [sample_state] (CError (Some sample_before.1.2) (Some 2%positive) 9)).1.1.
Definition sample_trace : list (call (B := unit)) :=
  sample_before.2 ++ (sample_call_hook [sample_state] (CError (Some sample_before.1.2) (Some 2%positive) 9)).2.

Lemma sample_run : sample_runs sample_store sample_trace.
Proof.
  eapply (runs_call _ _ _ _ _ _ _ _ _ _ [sample_state] sample_before.2 (CError (Some sample_before.1.2) (Some 2%positive) 9) _
    (sample_call_hook [sample_state] (CError (Some sample_before.1.2) (Some 2%positive) 9)).1.2); [| |by vm_compute].
  - change sample_before.2 with ([] ++ sample_before.2).
    eapply (runs_call _ _ _ _ _ _ _ _ _ _ [] [] (CBefore sample_client sample_request 5) _
      (sample_call_hook [] (CBefore sample_client sample_request 5)).1.2); [constructor| |by vm_compute].
    intros req [= <-] i Hi. discriminate Hi.
  - intros req [= <-] i. vm_compute. intros [= <-]. lia.
Qed.

Lemma resty_span_life_witness : ∃ st, sample_store !! 0 = Some st ∧ finished st = true ∧ span_history 0 st sample_trace.
Proof.
  exists (with_target sample_state (target sample_state) true). assert (H : sample_store !! 0 = Some (with_target sample_state (target sample_state) true)) by by vm_compute.
  split; [exact H|]. split; [done|].
  by apply (resty_span_life (λ _ : unit, []) (λ _, true) sample_config proxy_store sample_answers 8 (λ _ _, []) (λ _, None) (λ _, []) (λ _, [])
    sample_store sample_trace sample_run).
Defined.

Lemma resty_recorded_witness : length sample_trace = 7 ∧ Forall (sound_call sample_config) sample_trace.
Proof.
  split; [by vm_compute|].
  exact (resty_recorded (λ _ : unit, []) (λ _, true) sample_config proxy_store sample_answers 8 (λ _ _, []) (λ _, None) (λ _, []) (λ _, [])
    sample_store sample_trace sample_run).
Defined.

(** A retry and a success. *)
Lemma resty_request_witness :
  let attempts := [ {| a_before := 1; a_change := id; a_end := ARetry 0 [] (Some 2%positive); a_after := 2 |};
                    {| a_before := 3; a_change := id; a_end := ASuccess 200 #"200 OK"; a_after := 4 |}] in
  let '(s, req, calls) := do_request (λ _ : unit, []) (λ _, true) sample_config proxy_store sample_answers 8 (λ _ _, []) (λ _, None) (λ _, [])
    (λ _, []) [] sample_client sample_request attempts in
  length calls = 12 ∧ ctx req = sample_ctx ∧ ∃ states, s = [] ++ states ∧ length states = 2
    ∧ Forall (λ st, finished st = true ∧ parentCtx st = sample_ctx) states.
Proof.
  intros attempts.
  assert (Hcl : Forall (classified proxy_store sample_answers 8) attempts).
  { constructor; [|constructor; [|constructor]]; intros e; [intros [= <-]; apply is_Some_alt; by vm_compute|discriminate]. }
  pose proof (resty_request (λ _ : unit, []) (λ _, true) sample_config proxy_store sample_answers 8 (λ _ _, []) (λ _, None) (λ _, []) (λ _, [])
    [] sample_client sample_request attempts eq_refl Hcl) as H.
  assert (length (do_request (λ _ : unit, []) (λ _, true) sample_config proxy_store sample_answers 8 (λ _ _, []) (λ _, None) (λ _, [])
    (λ _, []) [] sample_client sample_request attempts).2 = 12) as Hl by by vm_compute.
  destruct (do_request _ _ _ _ _ _ _ _ _ _ _ _ _ _) as [[s req] calls]. split; [exact Hl|exact H].
Defined.

(** The token of the client, in the error of an attempt. *)
Lemma resty_no_credential_witness :
  infix #"token-1234" (default [] (error_method (proxy_store 2%positive)))
  ∧ ∃ t m, AddException 0 t m ∈ (sample_finishError [sample_state] 0 sample_state sample_before.1.2 2%positive false 9).2
    ∧ (m = redactedMessage ∨ ¬ infix #"token-1234" (Nat.iter 3 decodeOnce m)).
Proof.
  split; [exists #"proxy saw Basic YWxpY2U6c2VjcmV0 and ", []; by vm_compute|].
  eexists _, _. split; [apply list_elem_of_In; vm_compute; right; left; reflexivity|].
  eapply (resty_no_credential (λ _ : unit, true) sample_config proxy_store sample_answers 8 (λ _ _, []) (λ _, None) (λ _, []) (λ _, [])
    sample_laws [sample_state] 0 sample_state sample_client sample_before.1.2 2%positive false 9).
  - split_and!; by vm_compute.
  - apply list_elem_of_In. vm_compute. right; left; reflexivity.
  - reflexivity.
  - apply cred_client. apply conf_token.
  - vm_compute; lia.
  - split_and!; [done|by apply byte_in_false|by apply byte_in_false|].
    intros H%infixb_spec. by vm_compute in H.
Defined.
