(* ===== verification/NatsBatch.v ===== *)
(** nats/jetstream.go: a fetched batch. wrapMessageBatch starts a goroutine that
    moves the messages of the upstream batch to a channel of its own; Stop may be
    called any number of times, from anywhere, while it runs and while the caller
    reads. The goroutine, the calls of Stop, the reader and the upstream are the
    parties of a step relation, one channel operation or one call at a time. A
    send on a closed channel or a second close of one, on which Go panics, is a
    step to a state that says so. *)
From S2P Require Import Prelude.

Section batch.
(** [restored] is the message paired with its context, its baggage restored. *)
Context {M D : Type} (restored : M → D) (bufSize : nat).

(** Where the goroutine is: at the outer select, at the inner one with a message,
    at its deferred cancel, at its deferred close, or gone. *)
Inductive forwarder := Receiving | Sending (m : M) | Cancelling | Closing | Gone.
(** Where a call of Stop is: before the Once, at close(done), at cancel(), at the
    upstream's Stop, or returned. *)
Inductive stop_call := AtOnce | AtClose | AtCancel | AtUpstream | Returned.
#[export] Instance stop_call_eq_dec : EqDecision stop_call.
Proof. solve_decision. Defined.
Inductive once := Fresh | Running | Completed.
Record state := {
  upstream : list M; up_closed : bool; up_stopped : bool;
  out : list D; out_closed : bool; done : bool; cancelled : bool;
  fwd : forwarder; stops : list stop_call; stopOnce : once;
  panicked : bool;
  (** What has happened: what the upstream delivered, and what the reader has. *)
  delivered : list M; got : list D;
}.
Definition wrapMessageBatch : state :=
  {| upstream := []; up_closed := false; up_stopped := false; out := []; out_closed := false; done := false; cancelled := false;
     fwd := Receiving; stops := []; stopOnce := Fresh; panicked := false; delivered := []; got := [] |}.

Definition with_fwd (s : state) (f : forwarder) : state :=
  {| upstream := upstream s; up_closed := up_closed s; up_stopped := up_stopped s; out := out s; out_closed := out_closed s;
     done := done s; cancelled := cancelled s; fwd := f; stops := stops s; stopOnce := stopOnce s; panicked := panicked s;
     delivered := delivered s; got := got s |}.
Definition with_stop (s : state) (i : nat) (p : stop_call) (o : once) : state :=
  {| upstream := upstream s; up_closed := up_closed s; up_stopped := up_stopped s; out := out s; out_closed := out_closed s;
     done := done s; cancelled := cancelled s; fwd := fwd s; stops := <[i := p]> (stops s); stopOnce := o; panicked := panicked s;
     delivered := delivered s; got := got s |}.
(** cancel(), of the fetch context. *)
Definition cancel (s : state) : state :=
  {| upstream := upstream s; up_closed := up_closed s; up_stopped := up_stopped s; out := out s; out_closed := out_closed s;
     done := done s; cancelled := true; fwd := fwd s; stops := stops s; stopOnce := stopOnce s; panicked := panicked s;
     delivered := delivered s; got := got s |}.
Definition close_out (s : state) : state :=
  {| upstream := upstream s; up_closed := up_closed s; up_stopped := up_stopped s; out := out s; out_closed := true;
     done := done s; cancelled := cancelled s; fwd := fwd s; stops := stops s; stopOnce := stopOnce s; panicked := panicked s || out_closed s;
     delivered := delivered s; got := got s |}.
Definition close_done (s : state) : state :=
  {| upstream := upstream s; up_closed := up_closed s; up_stopped := up_stopped s; out := out s; out_closed := out_closed s;
     done := true; cancelled := cancelled s; fwd := fwd s; stops := stops s; stopOnce := stopOnce s; panicked := panicked s || done s;
     delivered := delivered s; got := got s |}.
Definition send (s : state) (buffer : list D) (read : list D) : state :=
  {| upstream := upstream s; up_closed := up_closed s; up_stopped := up_stopped s; out := buffer; out_closed := out_closed s;
     done := done s; cancelled := cancelled s; fwd := fwd s; stops := stops s; stopOnce := stopOnce s; panicked := panicked s || out_closed s;
     delivered := delivered s; got := read |}.
Definition receive (s : state) (buffer : list D) (read : list D) : state :=
  {| upstream := upstream s; up_closed := up_closed s; up_stopped := up_stopped s; out := buffer; out_closed := out_closed s;
     done := done s; cancelled := cancelled s; fwd := fwd s; stops := stops s; stopOnce := stopOnce s; panicked := panicked s;
     delivered := delivered s; got := read |}.
(** The upstream channel and the upstream's own Stop. *)
Definition with_upstream (s : state) (u : list M) (closed stopped : bool) (all : list M) : state :=
  {| upstream := u; up_closed := closed; up_stopped := stopped; out := out s; out_closed := out_closed s;
     done := done s; cancelled := cancelled s; fwd := fwd s; stops := stops s; stopOnce := stopOnce s; panicked := panicked s;
     delivered := all; got := got s |}.

(** The goroutine. A select takes any of the branches that are ready; a send on a
    channel is ready when its buffer has room, or, handed over directly, when the
    reader waits at an empty one. *)
Inductive forward : state → state → Prop :=
  | fwd_receive s m u : fwd s = Receiving → upstream s = m :: u →
      forward s (with_fwd (with_upstream s u (up_closed s) (up_stopped s) (delivered s)) (Sending m))
  | fwd_ended s : fwd s = Receiving → upstream s = [] → up_closed s = true → forward s (with_fwd s Cancelling)
  | fwd_done s : fwd s = Receiving → done s = true → forward s (with_fwd s Cancelling)
  | fwd_send s m : fwd s = Sending m → length (out s) < bufSize →
      forward s (with_fwd (send s (out s ++ [restored m]) (got s)) Receiving)
  | fwd_hand_over s m : fwd s = Sending m → out s = [] →
      forward s (with_fwd (send s [] (got s ++ [restored m])) Receiving)
  | fwd_drop s m : fwd s = Sending m → done s = true → forward s (with_fwd s Cancelling)
  | fwd_cancel s : fwd s = Cancelling → forward s (with_fwd (cancel s) Closing)
  | fwd_close s : fwd s = Closing → forward s (with_fwd (close_out s) Gone).
(** A call of messageBatch.Stop: one of them runs the body of the Once, the others
    return when it is through. *)
Inductive stopping : state → state → Prop :=
  | stop_call_ s : stopping s
      {| upstream := upstream s; up_closed := up_closed s; up_stopped := up_stopped s; out := out s; out_closed := out_closed s;
         done := done s; cancelled := cancelled s; fwd := fwd s; stops := stops s ++ [AtOnce]; stopOnce := stopOnce s; panicked := panicked s;
         delivered := delivered s; got := got s |}
  | stop_first s i : stops s !! i = Some AtOnce → stopOnce s = Fresh → stopping s (with_stop s i AtClose Running)
  | stop_other s i : stops s !! i = Some AtOnce → stopOnce s = Completed → stopping s (with_stop s i Returned Completed)
  | stop_close s i : stops s !! i = Some AtClose → stopping s (with_stop (close_done s) i AtCancel (stopOnce s))
  | stop_cancel s i : stops s !! i = Some AtCancel → stopping s (with_stop (cancel s) i AtUpstream (stopOnce s))
  | stop_upstream s i : stops s !! i = Some AtUpstream →
      stopping s (with_stop (with_upstream s (upstream s) (up_closed s) true (delivered s)) i Returned Completed).
Inductive reading : state → state → Prop :=
  | read_one s d rest : out s = d :: rest → reading s (receive s rest (got s ++ [d])).
(** The upstream delivers on its channel, or closes it. *)
Inductive delivering : state → state → Prop :=
  | up_deliver s m : up_closed s = false →
      delivering s (with_upstream s (upstream s ++ [m]) false (up_stopped s) (delivered s ++ [m])).
Inductive closing : state → state → Prop :=
  | up_close s : closing s (with_upstream s (upstream s) true (up_stopped s) (delivered s)).

Inductive party := Forwarder | Stopper | Reader | Upstream | UpstreamClose.
Definition step (p : party) : state → state → Prop :=
  match p with Forwarder => forward | Stopper => stopping | Reader => reading | Upstream => delivering | UpstreamClose => closing end.
Inductive run : state → list party → state → Prop :=
  | run_nil s : run s [] s
  | run_step s p s1 ps s2 : step p s s1 → run s1 ps s2 → run s (p :: ps) s2.

(** messageBatch.Error: [native] is the error of the upstream batch, and whether
    errors.Is finds context.Canceled in it. *)
Definition batch_Error {E} (canceled : E → bool) (s : state) (native : option E) : option E :=
  match native with
  | Some e => if canceled e && done s then None else Some e
  | None => None
  end.

(** * The invariant *)
(** What the goroutine has taken and not yet passed on, or given up. *)
Definition flow (s : state) : Prop := ∃ sent lost,
  delivered s = sent ++ lost ++ upstream s ∧ got s ++ out s = restored <$> sent
  ∧ match fwd s with
    | Sending m => lost = [m]
    | Receiving => lost = []
    | _ => length lost ≤ 1 ∧ (done s = true ∨ lost = [] ∧ upstream s = [] ∧ up_closed s = true)
    end.
(** The call of Stop that runs the body of the Once. *)
Definition runs_body (s : state) (p : stop_call) : Prop :=
  match p with
  | AtClose => done s = false
  | AtCancel => done s = true
  | AtUpstream => done s = true ∧ cancelled s = true
  | _ => False
  end.
Definition once_ok (s : state) : Prop :=
  match stopOnce s with
  | Fresh => done s = false ∧ Forall (λ p, p = AtOnce) (stops s)
  | Running => ∃ i p, stops s !! i = Some p ∧ runs_body s p ∧ ∀ j q, stops s !! j = Some q → j ≠ i → q = AtOnce
  | Completed => done s = true ∧ cancelled s = true ∧ up_stopped s = true ∧ Returned ∈ stops s ∧ Forall (λ p, p = AtOnce ∨ p = Returned) (stops s)
  end.
Record inv (s : state) : Prop := {
  inv_panic : panicked s = false;
  inv_closed : out_closed s = true ↔ fwd s = Gone;
  inv_cancelled : fwd s = Closing ∨ fwd s = Gone → cancelled s = true;
  inv_flow : flow s;
  inv_once : once_ok s;
}.

Lemma once_ok_ext s s' : stopOnce s' = stopOnce s → stops s' = stops s → done s' = done s → up_stopped s' = up_stopped s →
  (cancelled s = true → cancelled s' = true) → once_ok s → once_ok s'.
Proof.
  unfold once_ok. intros -> -> Hd Hu Hc. destruct (stopOnce s).
  - by rewrite Hd.
  - intros (i & p & Hi & Hb & Ho). exists i, p. split_and!; [done| |done]. destruct p; cbn in *; rewrite ?Hd; naive_solver.
  - rewrite Hd, Hu. naive_solver.
Qed.

Lemma wrapMessageBatch_inv : inv wrapMessageBatch.
Proof.
  split; [done|done|by intros [?|?]| |by split; [|constructor]].
  exists [], []. by split_and!.
Qed.

Lemma forward_inv s s' : inv s → forward s s' → inv s'.
Proof.
  intros [Hp Hc Hk (sent & lost & Hd & Hg & Hf) Ho] Hs.
  assert (Hopen : fwd s ≠ Gone → out_closed s = false) by (intros H; destruct (out_closed s); [naive_solver|done]).
  destruct Hs as [s m u E Hu|s E Hu Hcl|s E Hdn|s m E Hl|s m E Hout|s m E Hdn|s E|s E]; rewrite E in *;
    (split; [cbn; rewrite ?Hp, ?Hopen by done; done|cbn; rewrite ?Hopen by done; naive_solver|cbn; naive_solver| |by apply (once_ok_ext s)]).
  - subst lost. exists sent, [m]. cbn. by rewrite Hd, Hu.
  - subst lost. exists sent, []. cbn. split_and!; [done|done|lia|by right].
  - subst lost. exists sent, []. cbn. split_and!; [done|done|lia|by left].
  - subst lost. exists (sent ++ [m]), []. cbn. rewrite Hd, fmap_app, <- Hg, !app_assoc. by split_and!.
  - subst lost. exists (sent ++ [m]), []. cbn. rewrite Hd, fmap_app, <- Hg, Hout, !app_nil_r, <- app_assoc. by split_and!.
  - subst lost. exists sent, [m]. cbn. split_and!; [done|done|lia|by left].
  - destruct Hf. exists sent, lost. cbn. by split_and!.
  - destruct Hf. exists sent, lost. cbn. by split_and!.
Qed.

Lemma Forall_insert_stop (P : stop_call → Prop) l i p : Forall P l → P p → Forall P (<[i := p]> l).
Proof. intros H Hp. by apply Forall_insert. Qed.

Lemma body_unique s i p : once_ok s → stops s !! i = Some p → p ≠ AtOnce → p ≠ Returned →
  stopOnce s = Running ∧ runs_body s p ∧ ∀ j q, stops s !! j = Some q → j ≠ i → q = AtOnce.
Proof.
  unfold once_ok. intros Ho Hi H1 H2. destruct (stopOnce s).
  - destruct Ho as [_ Ho]. eapply Forall_lookup_1 in Ho; [|exact Hi]. done.
  - destruct Ho as (j & q & Hj & Hb & Ho). destruct (decide (i = j)) as [->|Hne]; [by simplify_eq|]. by specialize (Ho i p Hi Hne).
  - destruct Ho as (_ & _ & _ & _ & Ho). eapply Forall_lookup_1 in Ho; [|exact Hi]. by destruct Ho.
Qed.
Lemma others_waiting (l : list stop_call) i p : (∀ j q, l !! j = Some q → j ≠ i → q = AtOnce) →
  ∀ j q, <[i := p]> l !! j = Some q → j ≠ i → q = AtOnce.
Proof. intros H j q Hj Hne. rewrite list_lookup_insert_ne in Hj by done. by apply (H j). Qed.

Lemma stopping_once s s' : once_ok s → stopping s s' → once_ok s'.
Proof.
  intros Ho Hs. destruct Hs as [s|s i Hi Hf|s i Hi Hf|s i Hi|s i Hi|s i Hi].
  - unfold once_ok in *. cbn. destruct (stopOnce s).
    + destruct Ho as [? ?]. split; [done|]. apply Forall_app. by split; [|apply Forall_singleton].
    + destruct Ho as (j & q & Hj & Hb & Ho). exists j, q. split_and!; [by apply lookup_app_l_Some|done|].
      intros k r [Hk|[_ Hk]]%lookup_app_Some Hne; [by apply (Ho k)|]. by apply list_lookup_singleton_Some in Hk as [_ <-].
    + destruct Ho as (? & ? & ? & ? & ?). split_and!; [done|done|done|apply elem_of_app; by left|]. apply Forall_app. split; [done|]. apply Forall_singleton. by left.
  - unfold once_ok in *. rewrite Hf in Ho. destruct Ho as [Hd Ho]. cbn. exists i, AtClose.
    split_and!; [by apply list_lookup_insert_eq; eapply lookup_lt_Some|done|]. apply others_waiting.
    intros j q Hj _. by eapply Forall_lookup_1 in Ho.
  - unfold once_ok in *. rewrite Hf in Ho. cbn. destruct Ho as (? & ? & ? & ? & ?).
    split_and!; [done|done|done|apply list_elem_of_insert; by eapply lookup_lt_Some|]. apply Forall_insert_stop; [done|by right].
  - destruct (body_unique s i AtClose Ho Hi) as (Hr & Hb & Hw); [done..|]. unfold once_ok. cbn. rewrite Hr. exists i, AtCancel.
    split_and!; [by apply list_lookup_insert_eq; eapply lookup_lt_Some|done|by apply others_waiting].
  - destruct (body_unique s i AtCancel Ho Hi) as (Hr & Hb & Hw); [done..|]. unfold once_ok. cbn. rewrite Hr. exists i, AtUpstream.
    split_and!; [by apply list_lookup_insert_eq; eapply lookup_lt_Some|done|by apply others_waiting].
  - destruct (body_unique s i AtUpstream Ho Hi) as (Hr & [Hd Hc] & Hw); [done..|]. unfold once_ok. cbn.
    split_and!; [done|done|done|apply list_elem_of_insert; by eapply lookup_lt_Some|]. apply Forall_lookup. intros j q Hj. destruct (decide (j = i)) as [->|Hne].
    + rewrite list_lookup_insert_eq in Hj by (by eapply lookup_lt_Some). simplify_eq. by right.
    + left. by eapply others_waiting.
Qed.

Lemma stopping_inv s s' : inv s → stopping s s' → inv s'.
Proof.
  intros [Hp Hc Hk Hf Ho] Hs. pose proof (stopping_once s s' Ho Hs) as Ho'.
  destruct Hs as [s|s i Hi Hfr|s i Hi Hfr|s i Hi|s i Hi|s i Hi]; split; try done.
  - cbn. rewrite Hp. destruct (body_unique s i AtClose Ho Hi) as (_ & -> & _); done.
  - destruct Hf as (sent & lost & Hd & Hg & Hf). exists sent, lost. cbn. split_and!; [done|done|]. destruct (fwd s); try done; naive_solver.
Qed.

Lemma nats_step_inv p s s' : inv s → step p s s' → inv s'.
Proof.
  destruct p; cbn [step]; intros Hi Hs; [by eapply forward_inv|by eapply stopping_inv|..]; destruct Hi as [Hp Hc Hk (sent & lost & Hd & Hg & Hf) Ho].
  - destruct Hs as [s d rest Hout]. split; try done. exists sent, lost. cbn.
    split_and!; [done| |done]. rewrite <- Hg, Hout. by rewrite <- app_assoc.
  - destruct Hs as [s m Hcl]. split; try done. exists sent, lost. cbn. rewrite Hd, <- !app_assoc. split_and!; [done|done|].
    destruct (fwd s); try done; naive_solver congruence.
  - destruct Hs as [s]. split; try done. exists sent, lost. cbn. split_and!; [done|done|].
    destruct (fwd s); try done; naive_solver.
Qed.
Lemma batch_run_inv s ps s' : inv s → run s ps s' → inv s'.
Proof. intros Hi Hr. induction Hr as [|s p s1 ps s2 Hs _ IH]; [done|]. by eapply IH, nats_step_inv. Qed.

Lemma batch_inv ps s : run wrapMessageBatch ps s → inv s.
Proof. intros Hr. eapply batch_run_inv; [apply wrapMessageBatch_inv|exact Hr]. Qed.

Lemma returned_completed s : once_ok s → Returned ∈ stops s → done s = true ∧ cancelled s = true ∧ up_stopped s = true.
Proof.
  unfold once_ok. intros Ho Hr. destruct (stopOnce s).
  - destruct Ho as [_ Ho]. eapply Forall_forall in Ho; [|exact Hr]. done.
  - destruct Ho as (i & p & Hi & Hb & Ho). apply list_elem_of_lookup in Hr as [j Hj]. destruct (decide (j = i)) as [->|Hne].
    + simplify_eq. done.
    + by specialize (Ho j Returned Hj Hne).
  - naive_solver.
Qed.

(** C21: what a batch delivers. Whatever the interleaving of the upstream, the
    goroutine, the reader and any number of calls of Stop, no channel is closed
    twice or sent on when closed; what the reader has and can still read is what the
    upstream delivered, in order, each message with its baggage restored; when the
    channel is closed the fetch context is cancelled, and without a Stop every
    message of the upstream, which has ended, was passed on. A call of Stop returns
    when all of its work is done, and from then on the cancellation it caused is no
    error of the batch; any other error is, and without a Stop every error. *)
Theorem batch_delivery {E} (canceled : E → bool) (ps : list party) (s : state) (native : E) (Hrun : run wrapMessageBatch ps s) :
  panicked s = false
  ∧ (∃ rest, restored <$> delivered s = (got s ++ out s) ++ rest
      ∧ (out_closed s = true → cancelled s = true ∧ (done s = false → rest = [] ∧ up_closed s = true)))
  ∧ (Returned ∈ stops s → done s = true ∧ cancelled s = true ∧ up_stopped s = true
      ∧ (batch_Error canceled s (Some native) = None ↔ canceled native = true))
  ∧ (stops s = [] → batch_Error canceled s (Some native) = Some native).
Proof.
  destruct (batch_inv ps s Hrun) as [Hp Hc Hk (sent & lost & Hd & Hg & Hf) Ho]. split_and!; [done| | |].
  - exists (restored <$> lost ++ upstream s). rewrite Hd, fmap_app, <- Hg. split; [done|].
    intros Hcl. apply Hc in Hcl. split; [apply Hk; by right|]. intros Hdn. rewrite Hcl in Hf. destruct Hf as [_ [Hf|(-> & -> & Hu)]]; [congruence|done].
  - intros Hr. destruct (returned_completed s Ho Hr) as (Hdn & Hcn & Hus). split_and!; [done|done|done|].
    unfold batch_Error. rewrite Hdn, andb_true_r. by destruct (canceled native).
  - intros Hn. unfold batch_Error. assert (done s = false) as ->; [|by rewrite andb_false_r].
    unfold once_ok in Ho. rewrite Hn in Ho. destruct (stopOnce s); [by destruct Ho|by destruct Ho as (i & p & Hi & _)|].
    destruct Ho as (_ & _ & _ & Hr & _). by apply elem_of_nil in Hr.
Qed.

(** * Nothing is left behind *)
Definition is_party (p q : party) : bool :=
  match p, q with
  | Forwarder, Forwarder | Stopper, Stopper | Reader, Reader | Upstream, Upstream | UpstreamClose, UpstreamClose => true
  | _, _ => false
  end.
Definition steps_of (p : party) (ps : list party) : nat := length (filter (λ q, is_party p q = true) ps).
(** The steps the goroutine has left, if nothing more is delivered to it, and
    those the calls of Stop have left. *)
Definition forward_left (s : state) : nat :=
  2 * length (upstream s) + match fwd s with Sending _ => 4 | Receiving => 3 | Cancelling => 2 | Closing => 1 | Gone => 0 end.
Definition stop_left (p : stop_call) : nat := match p with AtOnce => 4 | AtClose => 3 | AtCancel => 2 | AtUpstream => 1 | Returned => 0 end.
Definition stops_left (s : state) : nat := sum_list_with stop_left (stops s).

Lemma sum_insert (l : list stop_call) i p q : l !! i = Some p →
  sum_list_with stop_left (<[i := q]> l) + stop_left p = sum_list_with stop_left l + stop_left q.
Proof.
  intros Hi. pose proof (take_drop_middle l i p Hi) as Hl. rewrite insert_take_drop by (by eapply lookup_lt_Some).
  rewrite <- Hl at 3. rewrite !sum_list_with_app. cbn. lia.
Qed.

Lemma forward_decreases s s' : forward s s' → S (forward_left s') ≤ forward_left s ∧ stops s' = stops s ∧ delivered s' = delivered s.
Proof.
  intros Hs. destruct Hs as [s m u E Hu|s E Hu Hcl|s E Hdn|s m E Hl|s m E Hout|s m E Hdn|s E|s E];
    unfold forward_left; cbn; rewrite ?E, ?Hu; cbn; (split; [lia|done]).
Qed.
Lemma stopping_decreases s s' : stopping s s' →
  forward_left s' = forward_left s ∧ delivered s' = delivered s
  ∧ stops_left s' + 1 + 5 * length (stops s) ≤ stops_left s + 5 * length (stops s').
Proof.
  intros Hs. unfold stops_left. destruct Hs as [s|s i Hi Hfr|s i Hi Hfr|s i Hi|s i Hi|s i Hi]; cbn; (split; [done|]); (split; [done|]).
  1: { rewrite length_app, sum_list_with_app. cbn. lia. }
  all: rewrite length_insert;
    match goal with Hi : ?l !! ?i = Some _ |- context [<[?i := ?q]> ?l] => pose proof (sum_insert l i _ q Hi) as H; cbn in H end; lia.
Qed.

Lemma steps_of_cons p q ps : steps_of p (q :: ps) = (if is_party p q then 1 else 0) + steps_of p ps.
Proof. unfold steps_of. rewrite filter_cons. by destruct (is_party p q). Qed.
Lemma run_bounds s ps s' : run s ps s' →
  steps_of Forwarder ps + forward_left s' + 2 * length (delivered s) ≤ forward_left s + 2 * length (delivered s')
  ∧ steps_of Stopper ps + stops_left s' + 5 * length (stops s) ≤ stops_left s + 5 * length (stops s').
Proof.
  intros Hr. induction Hr as [|s p s1 ps s2 Hs _ [IH1 IH2]]; [unfold steps_of; cbn; lia|].
  rewrite !steps_of_cons. destruct p; cbn [step is_party] in *.
  - destruct (forward_decreases s s1 Hs) as (H1 & H2 & H3). unfold stops_left in *. rewrite H3 in IH1. rewrite H2 in IH2. lia.
  - destruct (stopping_decreases s s1 Hs) as (H1 & H2 & H3). rewrite H1, H2 in IH1. lia.
  - destruct Hs as [s d rest Hout]. unfold forward_left, stops_left in *. cbn in *. lia.
  - destruct Hs as [s m Hcl]. unfold forward_left, stops_left in *. cbn in *. rewrite !length_app in *. cbn in *. lia.
  - destruct Hs as [s]. unfold forward_left, stops_left in *. cbn in *. lia.
Qed.

(** The goroutine can go on, unless it waits for an upstream that has not ended. *)
Lemma forward_ready s : inv s → done s = true ∨ length (delivered s) ≤ bufSize →
  fwd s = Gone ∨ (fwd s = Receiving ∧ upstream s = [] ∧ up_closed s = false ∧ done s = false) ∨ ∃ s', forward s s'.
Proof.
  intros [_ _ _ (sent & lost & Hd & Hg & Hf) _] Hroom. destruct (fwd s) as [|m| | |] eqn:E.
  - right. destruct (upstream s) as [|m u] eqn:Hu; [|right; eexists; by eapply fwd_receive].
    destruct (done s) eqn:Hdn; [right; eexists; by apply fwd_done|].
    destruct (up_closed s) eqn:Hcl; [right; eexists; by apply fwd_ended|by left].
  - right; right. destruct Hroom as [Hdn|Hroom]; [eexists; by eapply fwd_drop|]. eexists. eapply fwd_send; [done|].
    subst lost. apply (f_equal length) in Hd, Hg. rewrite !length_app in *. rewrite length_fmap in Hg. cbn in Hd. lia.
  - right; right. eexists. by apply fwd_cancel.
  - right; right. eexists. by apply fwd_close.
  - by left.
Qed.
Lemma stop_ready s p : inv s → p ∈ stops s → p ≠ Returned → ∃ s', stopping s s' ∧ length (stops s') = length (stops s).
Proof.
  intros [_ _ _ _ Ho] [i Hi]%list_elem_of_lookup Hp.
  assert (Hone : ∀ j q, stops s !! j = Some q → q ≠ AtOnce → q ≠ Returned → ∃ s', stopping s s' ∧ length (stops s') = length (stops s)).
  { intros j q Hj H1 H2. destruct q; try done.
    - eexists. split; [by eapply stop_close|]. cbn. by rewrite length_insert.
    - eexists. split; [by eapply stop_cancel|]. cbn. by rewrite length_insert.
    - eexists. split; [by eapply stop_upstream|]. cbn. by rewrite length_insert. }
  destruct (decide (p = AtOnce)) as [->|Hne]; [|by eapply Hone].
  unfold once_ok in Ho. destruct (stopOnce s) eqn:Eo.
  - eexists. split; [by apply (stop_first s i)|cbn; by rewrite length_insert].
  - destruct Ho as (j & q & Hj & Hb & _). apply (Hone j q Hj); by intros ->.
  - eexists. split; [by apply (stop_other s i)|cbn; by rewrite length_insert].
Qed.

(** C31: a batch leaves nothing behind. In any run the goroutine takes at most
    three steps and two for each message the upstream delivers, and the calls of
    Stop five each. After a Stop, or with a buffer for as many messages as there
    are, the goroutine never waits for the reader: it can go on until it is gone,
    its channel closed and the fetch context cancelled, except for waiting for an
    upstream that has not ended and before a Stop. A call of Stop never waits
    but for the one that does the work. *)
Theorem batch_terminates (ps : list party) (s : state) (Hrun : run wrapMessageBatch ps s) :
  steps_of Forwarder ps ≤ 3 + 2 * length (delivered s)
  ∧ steps_of Stopper ps ≤ 5 * length (stops s)
  ∧ (done s = true ∨ length (delivered s) ≤ bufSize →
     fwd s = Gone ∨ (fwd s = Receiving ∧ upstream s = [] ∧ up_closed s = false ∧ done s = false) ∨ ∃ s', forward s s')
  ∧ (fwd s = Gone → out_closed s = true ∧ cancelled s = true)
  ∧ (∀ p, p ∈ stops s → p ≠ Returned → ∃ s', stopping s s' ∧ length (stops s') = length (stops s)).
Proof.
  pose proof (batch_inv ps s Hrun) as Hi. destruct (run_bounds _ _ _ Hrun) as [H1 H2]. cbn in H1, H2. split_and!.
  - lia.
  - unfold stops_left in H2. cbn in H2. lia.
  - by apply forward_ready.
  - intros Hg. destruct Hi as [_ Hc Hk _ _]. split; [by apply Hc|apply Hk; by right].
  - intros p. by apply stop_ready.
Qed.
End batch.

(** * Samples *)
(** One step of a run; the state it leads to is evaluated, so that terms stay small. *)
Tactic Notation "run_by" uconstr(c) :=
  eapply (run_step _ _ _ _); [eapply c; first [reflexivity|cbn; lia]|];
  match goal with |- run ?r ?n ?s ?ps ?e => let s' := eval vm_compute in s in change (run r n s' ps e) end.
(** Two messages, the first read, the second given up by a Stop. *)
Definition sample_parties : list party :=
  [Upstream; Upstream; Forwarder; Forwarder; Reader; Stopper; Stopper; Forwarder; Stopper; Forwarder; Stopper; Stopper; Forwarder; Forwarder].
Lemma sample_batch_run : ∃ s, run (λ n : nat, n + 100) 1 wrapMessageBatch sample_parties s
  ∧ delivered s = [1; 2] ∧ got s = [101] ∧ stops s = [Returned] ∧ fwd s = Gone ∧ out_closed s = true.
Proof.
  eexists. split.
  - run_by (up_deliver _ 1). run_by (up_deliver _ 2). run_by fwd_receive. run_by fwd_send. run_by read_one. run_by stop_call_.
    run_by (stop_first _ 0). run_by fwd_receive. run_by (stop_close _ 0). run_by fwd_drop. run_by (stop_cancel _ 0).
    run_by (stop_upstream _ 0). run_by fwd_cancel. run_by fwd_close. apply run_nil.
  - done.
Qed.

Lemma batch_delivery_witness : ∃ s : state (M := nat) (D := nat), got s = [101] ∧ delivered s = [1; 2] ∧ panicked s = false
  ∧ cancelled s = true ∧ batch_Error id s (Some true) = None.
Proof.
  destruct sample_batch_run as (s & Hr & Hd & Hg & Hs & Hf & Hc). exists s.
  destruct (batch_delivery (λ n, n + 100) 1 id sample_parties s true Hr) as (Hp & _ & Hret & _).
  destruct Hret as (_ & Hcn & _ & He); [rewrite Hs; by left|]. split_and!; [done|done|done|done|by apply He].
Defined.

Lemma batch_terminates_witness : ∃ s : state (M := nat) (D := nat), fwd s = Gone ∧ steps_of Forwarder sample_parties ≤ 7 ∧ cancelled s = true.
Proof.
  destruct sample_batch_run as (s & Hr & Hd & Hg & Hs & Hf & Hc). exists s.
  destruct (batch_terminates (λ n, n + 100) 1 sample_parties s Hr) as (Hn & _ & _ & Hgone & _). rewrite Hd in Hn.
  split_and!; [done|exact Hn|by apply Hgone].
Defined.

(** FetchBytes has no bound on the number of messages: a batch with more than its
    buffer holds, abandoned without a Stop, leaves its goroutine at the send. *)
Lemma abandoned_batch_waits {M D} (restored : M → D) bufSize (s : state) m : fwd s = Sending m → done s = false → 0 < bufSize →
  length (out s) = bufSize → ∀ s', ¬ forward restored bufSize s s'.
Proof.
  intros Hf Hd Hb Hl s' Hs.
  destruct Hs as [s m' u E|s E|s E|s m' E Hroom|s m' E Hout|s m' E Hdn|s E|s E]; rewrite E in Hf; try done; [lia|rewrite Hout in Hl; cbn in Hl; lia|congruence].
Qed.
