(* ===== verification/NatsConn.v ===== *)
(** nats/conn.go, middleware.go and options.go: the carrier of trace headers, the
    policy that restores baggage, the connection and its guards, the errors of a
    request, and the server list an error of Connect shows. The NATS client and
    the otel-nats layer below are parameters; an error is its text with the
    sentinels errors.Is finds in it. *)
From S2P Require Import Prelude Utf8 GoStrings GoCodec GoNum SampleLib RedactDecode RedactText RedactSecrets RedactHeaders RedactError Baggage.

(** * Errors *)
Inductive nats_sentinel := ErrTimeout | ErrInvalidContext | ErrInvalidOption | ContextCanceled | ContextDeadlineExceeded.
#[export] Instance nats_sentinel_eq_dec : EqDecision nats_sentinel.
Proof. solve_decision. Defined.
Record failure := { text : bytes; found : list nats_sentinel }.
Definition Is (e : failure) (s : nats_sentinel) : bool := bool_decide (s ∈ found e).
(** errors.New, or fmt.Errorf without a %w; and with one or two of them behind a text. *)
Definition New (message : bytes) : failure := {| text := message; found := [] |}.
Definition Wrapf (prefix : bytes) (e : failure) : failure := {| text := prefix ++ text e; found := found e |}.
Definition Wrap2 (e1 e2 : failure) : failure := {| text := text e1 ++ #": " ++ text e2; found := found e1 ++ found e2 |}.

(** * The carrier of middleware.go *)
(** nats.Header, a map of the client library: the first value of a key, all of
    them, and a Set that replaces them. Keys are case-sensitive. *)
Class NatsHeader := {
  NHeader : Type; new_header : NHeader;
  Header_Get : NHeader → bytes → bytes; Header_Values : NHeader → bytes → list bytes;
  Header_Set : NHeader → bytes → bytes → NHeader; header_keys : NHeader → list bytes;
}.
Class NatsHeaderLaws (N : NatsHeader) := {
  header_get h k : Header_Get h k = hd [] (Header_Values h k);
  header_set h k v k' : Header_Values (Header_Set h k v) k' = if decide (k' = k) then [v] else Header_Values h k';
}.
(** propagation.TextMapCarrier and ValuesGetter. *)
Record carrier := { c_Get : bytes → bytes; c_Values : bytes → list bytes; c_Keys : list bytes }.

Section middleware.
Context `{N : NatsHeader}.
Definition headerCarrier_Get (h : NHeader) (key : bytes) : bytes :=
  let v := Header_Get h key in if bool_decide (v = []) then Header_Get h (CanonicalMIMEHeaderKey key) else v.
Definition headerCarrier_Values (h : NHeader) (key : bytes) : list bytes :=
  let v := Header_Values h key in if 0 <? length v then v else Header_Values h (CanonicalMIMEHeaderKey key).
Definition headerCarrier_Set (h : NHeader) (key value : bytes) : NHeader := Header_Set h key value.
Definition headerCarrier_Keys (h : NHeader) : list bytes := header_keys h.
Definition headerCarrier (h : NHeader) : carrier :=
  {| c_Get := headerCarrier_Get h; c_Values := headerCarrier_Values h; c_Keys := headerCarrier_Keys h |}.

(** A propagator, over the contexts of [BaggageApi]: the Sets its Inject makes, and
    what its Extract makes of a carrier. *)
Context `{B : BaggageApi}.
Record TextMapPropagator := { prop_Inject : Ctx → list (bytes * bytes); prop_Extract : Ctx → carrier → Ctx }.
Definition Inject (ctx : Ctx) (prop : TextMapPropagator) (header : option NHeader) : NHeader :=
  foldl (λ h kv, headerCarrier_Set h kv.1 kv.2) (default new_header header) (prop_Inject prop ctx).
Definition Extract (ctx : Ctx) (prop : TextMapPropagator) (header : option NHeader) : Ctx :=
  match header with None => ctx | Some h => prop_Extract prop ctx (headerCarrier h) end.

(** Set again and again. *)
Lemma set_all (Hlaws : NatsHeaderLaws N) (kvs : list (bytes * bytes)) h k :
  NoDup kvs.*1 → Header_Values (foldl (λ h kv, headerCarrier_Set h kv.1 kv.2) h kvs) k
    = match list_find (λ kv, kv.1 = k) kvs with Some (_, kv) => [kv.2] | None => Header_Values h k end.
Proof.
  revert h. induction kvs as [|[k0 v0] kvs IH]; intros h Hnd; [done|]. apply NoDup_cons in Hnd as [Hni Hnd].
  cbn [foldl]. rewrite IH by done. unfold headerCarrier_Set. cbn [list_find fst snd]. destruct (decide (k0 = k)) as [<-|Hne].
  - destruct (list_find _ kvs) as [[j kv]|] eqn:Hf; cbn; [|by rewrite header_set, decide_True].
    apply list_find_Some in Hf as (Hj & Hk & _). destruct Hni. apply list_elem_of_fmap. exists kv. split; [done|by eapply list_elem_of_lookup_2].
  - destruct (list_find _ kvs) as [[j kv]|]; cbn; [done|]. by rewrite header_set, decide_False.
Qed.
Lemma find_listed (kvs : list (bytes * bytes)) k v : NoDup kvs.*1 → (k, v) ∈ kvs → ∃ j, list_find (λ kv, kv.1 = k) kvs = Some (j, (k, v)).
Proof.
  intros Hnd Hin. destruct (list_find (λ kv, kv.1 = k) kvs) as [[j kv]|] eqn:Hf.
  - apply list_find_Some in Hf as (Hj & Hk & _). exists j. repeat f_equal. apply list_elem_of_lookup in Hin as [j' Hj'].
    assert (j = j') as <-; [|by simplify_eq].
    eapply (NoDup_lookup kvs.*1 _ _ k Hnd); by rewrite list_lookup_fmap, ?Hj, ?Hj'; cbn; f_equal.
  - apply list_find_None in Hf. eapply Forall_forall in Hf; [|exact Hin]. done.
Qed.
Lemma find_absent (kvs : list (bytes * bytes)) k : k ∉ kvs.*1 → list_find (λ kv, kv.1 = k) kvs = None.
Proof.
  intros Hni. apply list_find_None, Forall_forall. intros kv Hin <-. by apply Hni, list_elem_of_fmap_2.
Qed.

(** What is injected is read back. After Inject, on a message with any headers
    or none, the carrier has the one value set for every key the propagator set, in
    the case it was set in; a key that it set in neither that case nor the
    canonical one is read as before, from the case asked for or else from the
    canonical one, which a producer that canonicalises its keys writes. *)
Theorem carrier_roundtrip (Hlaws : NatsHeaderLaws N) (ctx : Ctx) (prop : TextMapPropagator) (header : option NHeader)
    (Hnd : NoDup (prop_Inject prop ctx).*1) (Hne : Forall (λ kv, kv.2 ≠ []) (prop_Inject prop ctx)) :
  let c := headerCarrier (Inject ctx prop header) in
  let before := default new_header header in
  (∀ k v, (k, v) ∈ prop_Inject prop ctx → c_Get c k = v ∧ c_Values c k = [v])
  ∧ (∀ k, k ∉ (prop_Inject prop ctx).*1 → CanonicalMIMEHeaderKey k ∉ (prop_Inject prop ctx).*1 →
       c_Values c k = (if bool_decide (Header_Values before k = []) then Header_Values before (CanonicalMIMEHeaderKey k) else Header_Values before k)
       ∧ (hd [] (Header_Values before k) ≠ [] ∨ Header_Values before k = [] → c_Get c k = hd [] (c_Values c k))).
Proof.
  cbv zeta. unfold Inject. split.
  - intros k v Hin. destruct (find_listed _ k v Hnd Hin) as [j Hf].
    assert (v ≠ []) as Hv by (by eapply Forall_forall in Hne; [|exact Hin]).
    cbn [headerCarrier c_Get c_Values]. unfold headerCarrier_Get, headerCarrier_Values. rewrite header_get, set_all, Hf by done.
    cbn [hd snd length]. by rewrite bool_decide_false.
  - intros k Hk Hc. cbn [headerCarrier c_Get c_Values]. unfold headerCarrier_Get, headerCarrier_Values.
    rewrite !header_get, !set_all, !find_absent by done. destruct (Header_Values (default new_header header) k) as [|v l] eqn:Hv; cbn.
    + done.
    + split; [done|]. intros [Hne'|?]; [|done]. by rewrite bool_decide_false.
Qed.

(** * The policy *)
(** context.Background, the carrier of otel-nats, and the number of keys of a header. *)
Context (Background : Ctx) (HeaderCarrier : NHeader → carrier).
Record propagationPolicy := { propagator : option TextMapPropagator; tracingEnabled : option unit }.
(** The context of a message, and whether the tracing switch was asked: [switch] is
    what it answers then. *)
Definition restoreBaggage (p : propagationPolicy) (switch : bool) (ctx : Ctx) (headers : NHeader) : Ctx * bool :=
  match propagator p with
  | None => (ctx, false)
  | Some prop =>
    if bool_decide (header_keys headers = []) then (ctx, false)
    else match tracingEnabled p with
         | None => (ctx, false)
         | Some _ =>
           if negb switch then (ctx, true)
           else let bag := FromContext (prop_Extract prop Background (HeaderCarrier headers)) in
                if bool_decide (Bag_Len bag = 0) then (ctx, true) else (ContextWithBaggage ctx bag, true)
         end
  end.

(** Baggage on a message. The context a handler gets differs from the one the
    upstream made only in its baggage, and only when the message carries some and
    tracing is on: then it is the baggage that came with the message. The switch is
    asked only for a message with headers. *)
Theorem baggage_restored (Hlaws : BaggageLaws B) (p : propagationPolicy) (switch : bool) (ctx : Ctx) (headers : NHeader) :
  let '(ctx', asked) := restoreBaggage p switch ctx headers in
  (asked = true ↔ is_Some (propagator p) ∧ header_keys headers ≠ [] ∧ is_Some (tracingEnabled p))
  ∧ (ctx' = ctx
     ∨ ∃ prop, let bag := FromContext (prop_Extract prop Background (HeaderCarrier headers)) in
         propagator p = Some prop ∧ asked = true ∧ switch = true ∧ Bag_Len bag ≠ 0 ∧ ctx' = ContextWithBaggage ctx bag ∧ FromContext ctx' = bag)
  ∧ (∀ prop, propagator p = Some prop → asked = true → switch = true →
       let bag := FromContext (prop_Extract prop Background (HeaderCarrier headers)) in Bag_Len bag ≠ 0 → FromContext ctx' = bag).
Proof.
  unfold restoreBaggage. destruct (propagator p) as [prop|]; [|split_and!; [split; [done|by intros [[? ?] _]]|by left|done]].
  case_bool_decide as Hk; [split_and!; [split; [done|by intros (_ & ? & _)]|by left|done]|].
  destruct (tracingEnabled p) as [u|]; [|split_and!; [split; [done|by intros (_ & _ & ? & ?)]|by left|done]].
  assert (Hasked : true = true ↔ is_Some (Some prop) ∧ header_keys headers ≠ [] ∧ is_Some (Some u)) by (split; [intros _; split_and!; [by eexists|done|by eexists]|done]).
  destruct switch; cbn [negb]; [|split_and!; [exact Hasked|by left|done]].
  case_bool_decide as Hb; split_and!; try exact Hasked.
  - by left.
  - intros prop' [= <-]. done.
  - right. exists prop. split_and!; try done. by rewrite from_context.
  - intros prop' [= <-] _ _ _. by rewrite from_context.
Qed.
End middleware.
Arguments TextMapPropagator : clear implicits.
Arguments TextMapPropagator {_}.

(** * Options *)
Section options.
Context {NOption : Type}.
Record connectConfig := { tracingDefault : bool; natsOpts : list NOption }.
Inductive ConnectOption := WithTracingEnabled (enabled : bool) | WithNATSOptions (opts : list NOption).
Definition apply_connect_option (cfg : connectConfig) (o : ConnectOption) : connectConfig :=
  match o with
  | WithTracingEnabled b => {| tracingDefault := b; natsOpts := natsOpts cfg |}
  | WithNATSOptions opts => {| tracingDefault := tracingDefault cfg; natsOpts := natsOpts cfg ++ opts |}
  end.
Definition newConnectConfig (opts : list (option ConnectOption)) : connectConfig :=
  foldl (λ cfg o, match o with Some o => apply_connect_option cfg o | None => cfg end) {| tracingDefault := true; natsOpts := [] |} opts.
End options.
Arguments connectConfig : clear implicits.
Arguments ConnectOption : clear implicits.

(** * The server list of an error *)
Section urls.
Context `{L : GoLib}.
Definition nats_scheme : bytes := #"nats://".
Definition redactServerURL (entry : bytes) : bytes :=
  if Contains entry #"://" then RedactURL entry else TrimPrefix (RedactURL (nats_scheme ++ entry)) nats_scheme.
Definition redactedURLs (urls : bytes) : bytes := Join ((λ part, redactServerURL (TrimSpace part)) <$> Split urls ",") #",".

(** What is shown of an entry, which is a URL with or without its scheme: the
    placeholder; the entry, a URL without userinfo, opaque part or credential in
    its query; or the rendering of a URL whose credentials are masked. *)
Definition full_entry (entry : bytes) : bytes := if Contains entry #"://" then entry else nats_scheme ++ entry.
Definition masked_url (u : URL) : Prop :=
  (User u = None ∨ User u = Some (url_User placeholder)) ∧ Forall accounted_pair (Split (RawQuery u) "&") ∧ "@"%char ∉ Host u
  ∧ ∀ k, ∃ d, unescapings k (Opaque u) = Some d ∧ ":"%char ∉ d ∧ "@"%char ∉ d.
Definition entry_shown (entry shown : bytes) : Prop :=
  shown = redactedWhole
  ∨ (shown = entry ∧ ∃ u, url_Parse (full_entry entry) = Some u ∧ User u = None ∧ Opaque u = [] ∧ hasCredentialQuery (full_entry entry) = false)
  ∨ ∃ u, masked_url u ∧ (shown = url_String u ∨ shown = TrimPrefix (url_String u) nats_scheme).

Lemma RedactURL_cases raw : raw ≠ [] →
  RedactURL raw = redactedWhole
  ∨ (RedactURL raw = raw ∧ ∃ u, url_Parse raw = Some u ∧ User u = None ∧ Opaque u = [] ∧ hasCredentialQuery raw = false)
  ∨ ∃ u, masked_url u ∧ RedactURL raw = url_String u.
Proof.
  intros Hne. unfold RedactURL. rewrite decide_False by done. destruct (url_Parse raw) as [u|] eqn:Hp; [|by left].
  destruct (bool_decide (User u = None) && bool_decide (Opaque u = []) && negb (hasCredentialQuery raw)) eqn:Hc.
  - right; left. apply andb_prop in Hc as [[Hu%bool_decide_eq_true Ho%bool_decide_eq_true]%andb_prop Hq%negb_true_iff].
    split; [done|]. by exists u.
  - destruct (URLAttribute_cases u) as [->|(u' & -> & H1 & H2 & H3 & H4)]; [by left|]. right; right. by exists u'.
Qed.
Lemma Contains_nonempty s sub : sub ≠ [] → Contains s sub = true → s ≠ [].
Proof. intros Hn Hc ->. apply infixb_spec in Hc as (l & r & Hc). destruct l, sub; cbn in Hc; congruence. Qed.
Lemma redactServerURL_shown entry : entry_shown entry (redactServerURL entry).
Proof.
  unfold redactServerURL, entry_shown, full_entry. destruct (Contains entry #"://") eqn:Hc.
  - destruct (RedactURL_cases entry) as [->|[[-> Hu]|(u & Hu & ->)]]; [by apply (Contains_nonempty _ #"://")|by left|by right; left|].
    right; right. exists u. by split; [|left].
  - destruct (RedactURL_cases (nats_scheme ++ entry)) as [->|[[-> Hu]|(u & Hu & ->)]]; [done|by left|by right; left; rewrite TrimPrefix_app|].
    right; right. exists u. by split; [|right].
Qed.
End urls.

(** * The connection *)
Section conn.
Context `{N : NatsHeader, B : BaggageApi, L : GoLib, S : GoSort}.
Context (Background : Ctx) (HeaderCarrier : NHeader → carrier).
(** ctx.Err() at a time, and ctx.Deadline(). *)
Context (Ctx_Err : Ctx → Z → option failure) (Ctx_Deadline : Ctx → option Z).
(** otelnats.ConnectWithOptions: its error is one of [σ]. *)
Context {NOption TracerProvider NC : Type} (σ : error_store).
Context (otelnats_Connect : bytes → list NOption → TracerProvider → TextMapPropagator → bool → eref + NC).
Record Conn := { nc : NC; policy : propagationPolicy }.

(** The error of a failed connect: its text, and the error it wraps. *)
Inductive wrapped := NoCause | CtxCause (e : failure) | UpstreamCause (r : returned).
Record connect_error := { ce_text : bytes; ce_cause : wrapped }.
(** The dials made, and the result. *)
Record dial := { dial_url : bytes; dial_opts : list NOption; dial_tracing : bool }.
Definition connect (ctx : Ctx) (now : Z) (url : bytes) (tp : option TracerProvider) (prop : option TextMapPropagator) (tracing : bool)
    (opts : list NOption) : list dial * (connect_error + Conn) :=
  match Ctx_Err ctx now with
  | Some err => ([], inl {| ce_text := #"nats connect: context already canceled: " ++ text err; ce_cause := CtxCause err |})
  | None =>
    match tp, prop with
    | None, _ => ([], inl {| ce_text := #"nats connect " ++ redactedURLs url ++ #": tracer provider must not be nil (pass obs.TracerProvider())";
                             ce_cause := NoCause |})
    | _, None => ([], inl {| ce_text := #"nats connect " ++ redactedURLs url ++ #": propagator must not be nil (pass obs.Propagator)";
                             ce_cause := NoCause |})
    | Some tp, Some prop =>
      ([{| dial_url := url; dial_opts := opts; dial_tracing := tracing |}],
       match otelnats_Connect url opts tp prop tracing with
       | inl err =>
         let redacted := Error σ (Some err) [] [] in
         inl {| ce_text := #"nats connect " ++ redactedURLs url ++ #": " ++ default [] (returned_message σ redacted); ce_cause := UpstreamCause redacted |}
       | inr nc => inr {| nc := nc; policy := {| propagator := Some prop; tracingEnabled := Some tt |} |}
       end)
    end
  end.
Definition Connect (ctx : Ctx) (now : Z) (url : bytes) tp prop (opts : list NOption) := connect ctx now url tp prop true opts.
Definition ConnectWithOptions (ctx : Ctx) (now : Z) (url : bytes) tp prop (opts : list (option (ConnectOption NOption))) :=
  let cfg := newConnectConfig opts in connect ctx now url tp prop (tracingDefault cfg) (natsOpts cfg).

(** An error of Connect. A context that is done, or a nil provider or
    propagator, fails it before anything is dialed; and whatever the server list
    and the error of the client, the text shows each entry of the list, in order,
    as the placeholder, as an entry without credentials or with its credentials
    masked, and an error of the client with no HTTP credential it can recognise,
    from which errors.Is goes on to the client's own error. A connection restores
    baggage with the propagator it was given. *)
Theorem connect_redacts (Hlaws : GoLibLaws L) (ctx : Ctx) (now : Z) (url : bytes) (tp : option TracerProvider) (prop : option TextMapPropagator)
    (tracing : bool) (opts : list NOption) :
  match connect ctx now url tp prop tracing opts with
  | (dials, inl e) =>
    match Ctx_Err ctx now with
    | Some err => dials = [] ∧ ce_cause e = CtxCause err ∧ ce_text e = #"nats connect: context already canceled: " ++ text err
    | None => ∃ shown rest, ce_text e = #"nats connect " ++ Join shown #"," ++ rest
        ∧ Forall2 (λ part s, entry_shown (TrimSpace part) s) (Split url ",") shown
        ∧ ((tp = None ∨ prop = None) ∧ dials = [] ∧ ce_cause e = NoCause
           ∨ ∃ res r m, length dials = 1 ∧ ce_cause e = UpstreamCause res ∧ returned_cause res = Some r ∧ rest = #": " ++ m
               ∧ returned_message σ res = Some m ∧ holdsUnaccountedCredential m = false)
    end
  | (dials, inr c) => Ctx_Err ctx now = None ∧ dials = [{| dial_url := url; dial_opts := opts; dial_tracing := tracing |}]
      ∧ prop = propagator (policy c) ∧ is_Some prop
  end.
Proof.
  unfold connect. destruct (Ctx_Err ctx now) as [err|] eqn:Hc; [done|].
  assert (Hshown : Forall2 (λ part s, entry_shown (TrimSpace part) s) (Split url ",") ((λ part, redactServerURL (TrimSpace part)) <$> Split url ",")).
  { apply Forall2_fmap_r, Forall_Forall2_diag, Forall_true. intros part. apply redactServerURL_shown. }
  destruct tp as [tp|]; [destruct prop as [prop|]|].
  - destruct (otelnats_Connect url opts tp prop tracing) as [r|c]; [|by split_and!].
    destruct (Error_clean Hlaws σ r [] []) as (m & Hm & Hh & Hr). cbn [ce_text]. rewrite Hm. cbn [default ce_cause].
    eexists _, ( #": " ++ m). split; [reflexivity|]. split; [exact Hshown|]. right. by eexists _, r, m.
  - eexists _, _. split; [reflexivity|]. split; [exact Hshown|]. left. split_and!; [by right|done|done].
  - eexists _, _. split; [reflexivity|]. split; [exact Hshown|]. left. split_and!; [by left|done|done].
Qed.

(** * Subscriptions *)
Context {Msg Sub R : Type} (Msg_Header : Msg → NHeader).
(** The upstream's Subscribe and QueueSubscribe, and the switch at a time. *)
Context (otelnats_Subscribe : bytes → option bytes → failure + Sub) (switch : Z → bool).
Definition handler := Ctx → Msg → R.
(** What the upstream is given to call for a message it has made a context for. *)
Definition deliver (p : propagationPolicy) (h : handler) (now : Z) (ctx : Ctx) (m : Msg) : R :=
  h (restoreBaggage Background HeaderCarrier p (switch now) ctx (Msg_Header m)).1 m.
(** The subscriptions made, and the result. *)
Definition Subscribe (ctx : Ctx) (now : Z) (subject : bytes) (h : option handler) : list (bytes * option bytes) * (failure + Sub) :=
  match Ctx_Err ctx now with
  | Some err => ([], inl (Wrapf ( #"nats subscribe " ++ quoted subject ++ #": ") err))
  | None =>
    if bool_decide (subject = []) then ([], inl (New #"nats subscribe: subject must not be empty"))
    else match h with
         | None => ([], inl (New ( #"nats subscribe " ++ quoted subject ++ #": handler must not be nil")))
         | Some _ => ([(subject, None)], otelnats_Subscribe subject None)
         end
  end.
Definition QueueSubscribe (ctx : Ctx) (now : Z) (subject queue : bytes) (h : option handler) : list (bytes * option bytes) * (failure + Sub) :=
  match Ctx_Err ctx now with
  | Some err => ([], inl (Wrapf ( #"nats queue-subscribe " ++ quoted subject ++ #"/" ++ quoted queue ++ #": ") err))
  | None =>
    if bool_decide (subject = []) then ([], inl (New #"nats queue-subscribe: subject must not be empty"))
    else if bool_decide (queue = []) then ([], inl (New ( #"nats queue-subscribe " ++ quoted subject ++ #": queue must not be empty")))
    else match h with
         | None => ([], inl (New ( #"nats queue-subscribe " ++ quoted subject ++ #"/" ++ quoted queue ++ #": handler must not be nil")))
         | Some _ => ([(subject, Some queue)], otelnats_Subscribe subject (Some queue))
         end
  end.

(** Respond: the publishes it makes, and its error. *)
Context (Reply : Msg → bytes) (Publish : Ctx → bytes → bytes → option failure).
Definition Respond (ctx : Ctx) (msg : option Msg) (data : bytes) : list (bytes * bytes) * option failure :=
  match msg with
  | None => ([], Some (New #"nats respond: msg must not be nil"))
  | Some m =>
    if bool_decide (Reply m = []) then ([], Some (New #"nats respond: msg has no reply subject"))
    else ([(Reply m, data)], (λ err, Wrapf ( #"nats respond to " ++ quoted (Reply m) ++ #": ") err) <$> Publish ctx (Reply m) data)
  end.

(** * Requests *)
(** A context with a deadline, context.WithDeadline: its error at a time. *)
Record deadline_ctx := { parent : Ctx; dl : Z }.
Definition DeadlineExceededError : failure := {| text := #"context deadline exceeded"; found := [ContextDeadlineExceeded] |}.
Definition deadline_err (c : deadline_ctx) (now : Z) : option failure :=
  match Ctx_Err (parent c) now with
  | Some e => Some e
  | None => if (dl c <=? now)%Z then Some DeadlineExceededError else None
  end.
Definition NatsErrTimeout : failure := {| text := #"nats: timeout"; found := [ErrTimeout] |}.
Definition NatsErrInvalidContext : failure := {| text := #"nats: invalid context"; found := [ErrInvalidContext] |}.
(** [now] is the time of time.Now, [later] that of reqCtx.Err. The contexts the
    request was run under, the reply and the error. *)
Definition withRequestTimeout (ctx : option Ctx) (timeout now later : Z) (request : deadline_ctx → option Msg * option failure) :
    list deadline_ctx * (option Msg * option failure) :=
  match ctx with
  | None => ([], (None, Some NatsErrInvalidContext))
  | Some ctx =>
    let deadline := (now + timeout)%Z in
    let deadline := match Ctx_Deadline ctx with Some d => if (d <? deadline)%Z then d else deadline | None => deadline end in
    let reqCtx := {| parent := ctx; dl := deadline |} in
    let noTimeLeft := bool_decide (is_Some (deadline_err reqCtx later)) in
    let '(reply, err) := request reqCtx in
    ([reqCtx], (reply,
      match err with
      | Some e => if negb noTimeLeft && Is e ContextDeadlineExceeded then Some (Wrap2 NatsErrTimeout e) else Some e
      | None => None
      end))
  end.

(** The errors of a request. It is run once, under a deadline no later than the
    timeout's and the context's own; its reply is handed on, and an error exactly
    when there is one. The error is nats.ErrTimeout beside what the request reported
    exactly when it reports that the deadline was exceeded and there was time left
    when it began; with none left, a timeout or a deadline that is past or a
    context that is done, it is the one reported, so that a loop that retries on a
    timeout ends. *)
Theorem request_timeouts (ctx : Ctx) (timeout now later : Z) (request : deadline_ctx → option Msg * option failure) :
  let '(runs, (reply, err)) := withRequestTimeout (Some ctx) timeout now later request in
  ∃ c, runs = [c] ∧ parent c = ctx ∧ (dl c ≤ now + timeout)%Z ∧ (∀ d, Ctx_Deadline ctx = Some d → (dl c ≤ d)%Z)
  ∧ reply = (request c).1 ∧ (is_Some err ↔ is_Some (request c).2)
  ∧ (∀ e e', (request c).2 = Some e → err = Some e' → ∀ s,
       Is e' s = true ↔ Is e s = true ∨ s = ErrTimeout ∧ Is e ContextDeadlineExceeded = true ∧ deadline_err c later = None)
  ∧ ((now ≤ later)%Z → (timeout ≤ 0)%Z ∨ is_Some (Ctx_Err ctx later) ∨ (∃ d, Ctx_Deadline ctx = Some d ∧ (d ≤ later)%Z) → err = (request c).2).
Proof.
  unfold withRequestTimeout. set (d := match Ctx_Deadline ctx with Some _ => _ | None => _ end). set (c := {| parent := ctx; dl := d |}).
  assert (Hd : (d ≤ now + timeout)%Z ∧ ∀ d', Ctx_Deadline ctx = Some d' → (d ≤ d')%Z).
  { unfold d. destruct (Ctx_Deadline ctx) as [d'|]; [destruct (Z.ltb_spec d' (now + timeout)%Z)|]; (split; [lia|]); intros ? [= <-]; lia. }
  destruct (request c) as [reply err] eqn:Hr. exists c. rewrite Hr. cbn [fst snd]. destruct Hd as [Hd1 Hd2]. split_and!; [done|done|exact Hd1|exact Hd2|done|..].
  - destruct err as [e|]; [|by split; intros [? ?]]. destruct (_ && _); by split; intros _; eexists.
  - intros e e' [= ->] He s. destruct (deadline_err c later) as [x|] eqn:Hl; cbn in He.
    + simplify_eq. naive_solver.
    + destruct (Is e ContextDeadlineExceeded) eqn:Hx; simplify_eq.
      * unfold Is, Wrap2. cbn. rewrite !bool_decide_eq_true, elem_of_cons. naive_solver.
      * naive_solver congruence.
  - intros Hle Hspent. destruct err as [e|]; [|done]. rewrite bool_decide_true; [done|]. unfold deadline_err. cbn.
    destruct (Ctx_Err ctx later) as [x|] eqn:Hx; [by eexists|]. destruct Hspent as [Ht|[[? ?]|(d' & Hd' & Hl)]]; [|done|].
    + destruct (Z.leb_spec d later); [by eexists|lia].
    + apply Hd2 in Hd'. destruct (Z.leb_spec d later); [by eexists|lia].
Qed.
Context (RequestWithContext : deadline_ctx → bytes → bytes → option Msg * option failure).
Context (RequestMsgWithContext : deadline_ctx → Msg → option Msg * option failure).
Definition Request (ctx : option Ctx) (subject data : bytes) (timeout now later : Z) :=
  withRequestTimeout ctx timeout now later (λ c, RequestWithContext c subject data).
Definition RequestMsg (ctx : option Ctx) (msg : option Msg) (timeout now later : Z) :=
  match msg with
  | None => ([], (None, Some (New #"nats request-msg: msg must not be nil")))
  | Some m => withRequestTimeout ctx timeout now later (λ c, RequestMsgWithContext c m)
  end.
End conn.

(** * Samples *)
Definition sample_values (h : list (bytes * list bytes)) (k : bytes) : list bytes :=
  match list_find (λ e, e.1 = k) h with Some (_, e) => e.2 | None => [] end.
#[local] Instance sample_header : NatsHeader := {|
  NHeader := list (bytes * list bytes); new_header := [];
  Header_Get := λ h k, hd [] (sample_values h k); Header_Values := sample_values;
  Header_Set := λ h k v, (k, [v]) :: h; header_keys := λ h, h.*1;
|}.
#[local] Instance sample_header_laws : NatsHeaderLaws sample_header.
Proof.
  split; [done|]. intros h k v k'. cbn [Header_Values Header_Set sample_header]. unfold sample_values. cbn [list_find fst].
  destruct (decide (k = k')) as [->|Hne]; [by rewrite decide_True|]. rewrite (decide_False (P := k' = k)) by done.
  by destruct (list_find _ h) as [[j e]|].
Qed.
#[local] Existing Instance sample_baggage.
(** The member of a baggage as one header. *)
Definition sample_propagator : TextMapPropagator :=
  {| prop_Inject := λ ctx, (λ kv : bytes * bytes, ( #"baggage-" ++ kv.1, kv.2)) <$> (ctx : list (bytes * bytes));
     prop_Extract := λ ctx c, let v := c_Get c #"baggage-tenant" in if bool_decide (v = []) then ctx else [( #"tenant", v)] |}.
Definition sample_ctx : Ctx := [( #"tenant", #"t1")].

Lemma carrier_roundtrip_witness :
  let c := headerCarrier (Inject sample_ctx sample_propagator (Some [( #"Traceparent", [ #"00-ab"])])) in
  (c_Get c #"baggage-tenant" = #"t1" ∧ c_Values c #"baggage-tenant" = [ #"t1"]) ∧ c_Values c #"traceparent" = [ #"00-ab"].
Proof.
  destruct (carrier_roundtrip sample_header_laws sample_ctx sample_propagator (Some [( #"Traceparent", [ #"00-ab"])])) as [H1 H2].
  - by apply (bool_decide_unpack (NoDup _)).
  - by constructor.
  - split; [apply H1; by left|]. rewrite (proj1 (H2 #"traceparent" ltac:(by apply (bool_decide_unpack (_ ∉ _))) ltac:(by apply (bool_decide_unpack (_ ∉ _))))).
    by vm_compute.
Defined.

Lemma baggage_restored_witness :
  restoreBaggage [] headerCarrier {| propagator := Some sample_propagator; tracingEnabled := Some tt |} true []
    (Inject sample_ctx sample_propagator None) = ([( #"tenant", #"t1")], true)
  ∧ FromContext [( #"tenant", #"t1")] = sample_ctx.
Proof.
  split; [by vm_compute|].
  pose proof (baggage_restored [] headerCarrier sample_baggage_laws {| propagator := Some sample_propagator; tracingEnabled := Some tt |} true []
    (Inject sample_ctx sample_propagator None)) as H.
  assert (E : restoreBaggage [] headerCarrier {| propagator := Some sample_propagator; tracingEnabled := Some tt |} true []
    (Inject sample_ctx sample_propagator None) = ([( #"tenant", #"t1")], true)) by by vm_compute.
  rewrite E in H. destruct H as (_ & _ & H). specialize (H sample_propagator eq_refl eq_refl eq_refl). cbv zeta in H.
  rewrite H; by vm_compute.
Defined.

Example sample_urls : redactedURLs #"nats://user:pass@a:4222, token@b" = #"nats://redacted@a:4222,redacted@b".
Proof. by vm_compute. Qed.

Lemma connect_redacts_witness :
  let '(dials, r) := connect (λ _ _, None) (NOption := unit) (TracerProvider := unit) (NC := unit) proxy_store (λ _ _ _ _ _, inl 2%positive)
    sample_ctx 0 #"nats://user:pass@a:4222" (Some tt) (Some sample_propagator) true [] in
  ∃ shown rest e, r = inl e ∧ ce_text e = #"nats connect " ++ Join shown #"," ++ rest
    ∧ Forall2 (λ part s, entry_shown (TrimSpace part) s) (Split #"nats://user:pass@a:4222" ",") shown.
Proof.
  pose proof (connect_redacts (λ _ _, None) (NOption := unit) (TracerProvider := unit) (NC := unit) proxy_store (λ _ _ _ _ _, inl 2%positive)
    sample_laws sample_ctx 0 #"nats://user:pass@a:4222" (Some tt) (Some sample_propagator) true []) as H.
  destruct (connect _ _ _ _ _ _ _ _ _ _) as [dials [e|c]] eqn:E; [|by vm_compute in E].
  destruct H as (shown & rest & Ht & Hs & _). by exists shown, rest, e.
Defined.
