(* ===== verification/NatsJetStream.v ===== *)
(** nats/jetstream.go: streams, consumers and the ways to receive. The client's
    jetstream package and its tracing layer are parameters; options are those of
    the client. [NatsBatch] is what becomes of a batch once it is fetched. *)
From S2P Require Import Prelude Utf8 GoStrings GoCodec GoNum Baggage NatsConn NatsBatch.

(** jetstream.FetchOpt, as far as the code tells options apart. *)
Inductive FetchOpt {Ctx O : Type} := FetchContext (c : Ctx) | FetchMaxWait (d : Z) | OtherFetchOpt (o : O).
Arguments FetchOpt : clear implicits.
Definition collision_text : bytes := #"cannot specify both FetchContext and FetchMaxWait".
Definition isFetchMaxWaitCollision (err : option failure) : bool :=
  match err with Some e => Is e ErrInvalidOption && Contains (text e) collision_text | None => false end.
Definition error_of {A} (r : failure + A) : option failure := match r with inl e => Some e | inr _ => None end.
(** The two options exclude each other, in any order, and nothing else is rejected
    with that text. *)
Definition pull_documented {Ctx O A} (pull : list (FetchOpt Ctx O) → failure + A) : Prop :=
  ∀ opts, isFetchMaxWaitCollision (error_of (pull opts)) = true ↔ (∃ c, FetchContext c ∈ opts) ∧ (∃ d, FetchMaxWait d ∈ opts).

Section fetch.
Context {Ctx O A : Type}.
Abbreviation opt := (FetchOpt Ctx O).
Definition fetchOptsWithCtx (ctx : Ctx) (opts : list opt) : list opt := [FetchContext ctx] ++ opts.
(** The options of each native call, and the last result. *)
Definition fetchWithCtxFallback (ctx : Ctx) (opts : list opt) (call : list opt → failure + A) : list (list opt) * (failure + A) :=
  let r := call (fetchOptsWithCtx ctx opts) in
  if isFetchMaxWaitCollision (error_of r) then ([fetchOptsWithCtx ctx opts; opts], call opts) else ([fetchOptsWithCtx ctx opts], r).
End fetch.

(** A handle of the facade: the upstream's, and the policy of its connection. *)
Record handle `{B : BaggageApi} (T : Type) := Build_handle { up : T; h_policy : propagationPolicy }.
Arguments up {_ _}. Arguments h_policy {_ _}. Arguments Build_handle {_ _}.

Section jetstream.
Set Default Proof Using "Type".
Context `{N : NatsHeader, B : BaggageApi} {O : Type}.
Abbreviation opt := (FetchOpt Ctx O).
Context (Background : Ctx) (HeaderCarrier : NHeader → carrier) (Ctx_Err : Ctx → Z → option failure) (switch : Z → bool).
(** context.WithCancel, of the context a fetch runs under. *)
Context (WithCancel : Ctx → Ctx).
(** The upstream handles and their methods. *)
Context {JS ST CO CC MC MB JMsg StreamConfig ConsumerConfig ConsumeOpt MessagesOpt NextOpt : Type} (Headers : JMsg → NHeader).
Context (js_CreateOrUpdateStream : JS → Ctx → StreamConfig → failure + ST) (js_Stream : JS → Ctx → bytes → failure + ST).
Context (js_CreateOrUpdateConsumer : JS → Ctx → bytes → ConsumerConfig → failure + CO) (js_Consumer : JS → Ctx → bytes → bytes → failure + CO).
Context (st_CreateOrUpdateConsumer : ST → Ctx → ConsumerConfig → failure + CO) (st_Consumer : ST → Ctx → bytes → failure + CO).
Context (co_Consume : CO → list ConsumeOpt → failure + CC) (co_Messages : CO → list MessagesOpt → failure + MC).
Context (co_Fetch : CO → Z → list opt → failure + MB) (co_FetchBytes : CO → Z → list opt → failure + MB) (co_FetchNoWait : CO → Z → failure + MB).
Context (co_Next : CO → Ctx → list opt → failure + (Ctx * JMsg)) (mc_Next : MC → list NextOpt → (Ctx * option JMsg * failure) + (Ctx * JMsg)).

(** * Handles *)
Definition with_policy {T} (p : propagationPolicy) (r : failure + T) : failure + handle T :=
  match r with inl e => inl e | inr t => inr (Build_handle t p) end.
(** Conn.JetStream, on what oteljetstream.New answers. *)
Definition JetStream (policy : propagationPolicy) (js : failure + JS) : failure + handle JS :=
  match js with inl e => inl (Wrapf #"nats jetstream: " e) | inr js => inr (Build_handle js policy) end.
Definition CreateOrUpdateStream (j : handle JS) (ctx : Ctx) (cfg : StreamConfig) := with_policy (h_policy j) (js_CreateOrUpdateStream (up j) ctx cfg).
Definition Stream (j : handle JS) (ctx : Ctx) (name : bytes) := with_policy (h_policy j) (js_Stream (up j) ctx name).
Definition CreateOrUpdateConsumer (j : handle JS) (ctx : Ctx) (stream : bytes) (cfg : ConsumerConfig) :=
  with_policy (h_policy j) (js_CreateOrUpdateConsumer (up j) ctx stream cfg).
Definition Consumer (j : handle JS) (ctx : Ctx) (stream name : bytes) := with_policy (h_policy j) (js_Consumer (up j) ctx stream name).
Definition stream_CreateOrUpdateConsumer (s : handle ST) (ctx : Ctx) (cfg : ConsumerConfig) := with_policy (h_policy s) (st_CreateOrUpdateConsumer (up s) ctx cfg).
Definition stream_Consumer (s : handle ST) (ctx : Ctx) (name : bytes) := with_policy (h_policy s) (st_Consumer (up s) ctx name).

(** The context a message is handed on with. *)
Definition message_ctx (p : propagationPolicy) (now : Z) (ctx : Ctx) (m : JMsg) : Ctx :=
  (restoreBaggage Background HeaderCarrier p (switch now) ctx (Headers m)).1.

(** * Receiving *)
Definition jhandler (R : Type) := Ctx → JMsg → R.
(** The upstream calls made, the result, and what the upstream is given to call. *)
Definition Consume {R} (c : handle CO) (ctx : Ctx) (now : Z) (h : option (jhandler R)) (opts : list ConsumeOpt) :
    list (list ConsumeOpt) * (failure + CC * (Z → Ctx → JMsg → R)) :=
  match Ctx_Err ctx now with
  | Some err => ([], inl (Wrapf #"nats jetstream consume: " err))
  | None =>
    match h with
    | None => ([], inl (New #"nats jetstream consume: handler must not be nil"))
    | Some h => ([opts], match co_Consume (up c) opts with
                         | inl e => inl e
                         | inr cc => inr (cc, λ at_ mctx m, h (message_ctx (h_policy c) at_ mctx m) m)
                         end)
    end
  end.
Definition Messages (c : handle CO) (ctx : Ctx) (now : Z) (opts : list MessagesOpt) : list (list MessagesOpt) * (failure + handle MC) :=
  match Ctx_Err ctx now with
  | Some err => ([], inl (Wrapf #"nats jetstream messages: " err))
  | None => ([opts], with_policy (h_policy c) (co_Messages (up c) opts))
  end.
(** A message batch: the upstream's, the size of its buffer and the context its
    cancel ends. [Panics] is make(chan, n) with a negative n. *)
Record fetched := { f_batch : MB; f_buffer : nat; f_cancels : option Ctx; f_policy : propagationPolicy }.
Inductive fetch_result := FetchFailed (e : failure) | Batch (b : fetched) | FetchPanics.
Definition wrapBatch (mb : MB) (bufSize : Z) (cancels : option Ctx) (p : propagationPolicy) : fetch_result :=
  if (bufSize <? 0)%Z then FetchPanics else Batch {| f_batch := mb; f_buffer := Z.to_nat bufSize; f_cancels := cancels; f_policy := p |}.
(** The native calls, the contexts cancelled before it returns, and the result. *)
Definition fetch_outcome : Type := list (list opt) * list Ctx * fetch_result.
Definition Fetch (c : handle CO) (ctx : Ctx) (now : Z) (batch : Z) (opts : list opt) : fetch_outcome :=
  match Ctx_Err ctx now with
  | Some err => ([], [], FetchFailed (Wrapf #"nats jetstream fetch: " err))
  | None =>
    let fetchCtx := WithCancel ctx in
    let '(calls, r) := fetchWithCtxFallback fetchCtx opts (co_Fetch (up c) batch) in
    match r with
    | inl e => (calls, [fetchCtx], FetchFailed e)
    | inr mb => (calls, [], wrapBatch mb batch (Some fetchCtx) (h_policy c))
    end
  end.
Definition fetchBytesBatchBuf : Z := 256.
Definition FetchBytes (c : handle CO) (ctx : Ctx) (now : Z) (maxBytes : Z) (opts : list opt) : fetch_outcome :=
  match Ctx_Err ctx now with
  | Some err => ([], [], FetchFailed (Wrapf #"nats jetstream fetch-bytes: " err))
  | None =>
    let fetchCtx := WithCancel ctx in
    let '(calls, r) := fetchWithCtxFallback fetchCtx opts (co_FetchBytes (up c) maxBytes) in
    match r with
    | inl e => (calls, [fetchCtx], FetchFailed e)
    | inr mb => (calls, [], wrapBatch mb fetchBytesBatchBuf (Some fetchCtx) (h_policy c))
    end
  end.
Definition FetchNoWait (c : handle CO) (ctx : Ctx) (now : Z) (batch : Z) : fetch_result :=
  match Ctx_Err ctx now with
  | Some err => FetchFailed (Wrapf #"nats jetstream fetch-no-wait: " err)
  | None =>
    match co_FetchNoWait (up c) batch with
    | inl e => FetchFailed e
    | inr mb => wrapBatch mb batch None (h_policy c)
    end
  end.
(** Next: the context, the message and the error. *)
Definition Next (c : handle CO) (ctx : Ctx) (now : Z) (opts : list opt) : Ctx * option JMsg * option failure :=
  match Ctx_Err ctx now with
  | Some err => (ctx, None, Some (Wrapf #"nats jetstream next: " err))
  | None =>
    match co_Next (up c) ctx opts with
    | inl e => (ctx, None, Some e)
    | inr (mctx, m) => (message_ctx (h_policy c) now mctx m, Some m, None)
    end
  end.
Definition messages_Next (m : handle MC) (now : Z) (opts : list NextOpt) : Ctx * option JMsg * option failure :=
  match mc_Next (up m) opts with
  | inl (ctx, msg, e) => (ctx, msg, Some e)
  | inr (ctx, msg) => (message_ctx (h_policy m) now ctx msg, Some msg, None)
  end.

(** * What a fetch does *)
Definition has_max_wait (opts : list opt) : Prop := ∃ d, FetchMaxWait d ∈ opts.
Definition has_context (opts : list opt) : Prop := ∃ c, FetchContext c ∈ opts.
Lemma fallback_cases {A} (pull : list opt → failure + A) f opts : pull_documented pull →
  let '(calls, r) := fetchWithCtxFallback f opts pull in
  (has_max_wait opts ∧ calls = [FetchContext f :: opts; opts] ∧ r = pull opts
   ∨ ¬ has_max_wait opts ∧ calls = [FetchContext f :: opts] ∧ r = pull (FetchContext f :: opts))
  ∧ (isFetchMaxWaitCollision (error_of r) = true → has_context opts ∧ has_max_wait opts).
Proof.
  intros Hpull. unfold fetchWithCtxFallback. change (fetchOptsWithCtx f opts) with (FetchContext f :: opts).
  destruct (isFetchMaxWaitCollision (error_of (pull (FetchContext f :: opts)))) eqn:Hc.
  - split; [|apply Hpull]. left. split_and!; [|done|done]. apply Hpull in Hc as [_ [d Hd]]. apply elem_of_cons in Hd as [Hd|Hd]; [done|by exists d].
  - assert (¬ has_max_wait opts) as Hn.
    { intros [d Hd]. apply not_true_iff_false in Hc. apply Hc, Hpull. split; [exists f; by left|exists d; by right]. }
    split; [by right|]. by rewrite Hc.
Qed.

(** What Fetch does with its context. One that is done fails it before any
    call. Else the native pull is called under a context derived from it; and only
    when the options of the caller have a FetchMaxWait, with which the client
    refuses that context, a second time with the caller's options alone. The
    result is the last call's: an error is handed on, whatever it is, after the
    derived context was cancelled, and is the refusal of both options only when
    the caller gave both; a batch has a buffer for as many messages as were asked
    for, so that in any run in which no more are delivered its goroutine never
    waits for the reader, and cancels the derived context. *)
Theorem fetch_context (c : handle CO) (ctx : Ctx) (now batch : Z) (opts : list opt) (Hpull : pull_documented (co_Fetch (up c) batch)) (Hbatch : (0 ≤ batch)%Z) :
  let '(calls, cancelled, r) := Fetch c ctx now batch opts in
  match Ctx_Err ctx now with
  | Some err => calls = [] ∧ r = FetchFailed (Wrapf #"nats jetstream fetch: " err)
  | None =>
    let f := WithCancel ctx in
    ∃ last, (has_max_wait opts ∧ calls = [FetchContext f :: opts; opts] ∧ last = opts
             ∨ ¬ has_max_wait opts ∧ calls = [FetchContext f :: opts] ∧ last = FetchContext f :: opts)
      ∧ match co_Fetch (up c) batch last with
        | inl e => r = FetchFailed e ∧ cancelled = [f] ∧ (isFetchMaxWaitCollision (Some e) = true → has_context opts ∧ has_max_wait opts)
        | inr mb => ∃ b, r = Batch b ∧ cancelled = [] ∧ f_batch b = mb ∧ f_cancels b = Some f ∧ f_policy b = h_policy c
            ∧ ∀ D (restored : Ctx * JMsg → D) ps s, run restored (f_buffer b) wrapMessageBatch ps s → (Z.of_nat (length (delivered s)) ≤ batch)%Z →
                fwd s = Gone ∨ (fwd s = Receiving ∧ upstream s = [] ∧ up_closed s = false ∧ done s = false) ∨ ∃ s', forward restored (f_buffer b) s s'
        end
  end.
Proof.
  unfold Fetch. destruct (Ctx_Err ctx now) as [err|]; [done|]. cbv zeta. set (f := WithCancel ctx).
  pose proof (fallback_cases (co_Fetch (up c) batch) f opts Hpull) as H.
  destruct (fetchWithCtxFallback f opts (co_Fetch (up c) batch)) as [calls r]. destruct H as [Hcalls Hcol].
  assert (Hr : ∃ last, (has_max_wait opts ∧ calls = [FetchContext f :: opts; opts] ∧ last = opts
             ∨ ¬ has_max_wait opts ∧ calls = [FetchContext f :: opts] ∧ last = FetchContext f :: opts) ∧ co_Fetch (up c) batch last = r)
    by (destruct Hcalls as [(? & -> & ->)|(? & -> & ->)]; eexists; split; [by left|done|by right|done]).
  destruct Hr as (last & Hl & <-). destruct (co_Fetch (up c) batch last) as [e|mb] eqn:Er; cbn [fst snd]; exists last; rewrite Er; (split; [exact Hl|]).
  - split_and!; [done|done|exact Hcol].
  - unfold wrapBatch. rewrite (proj2 (Z.ltb_ge batch 0) Hbatch). eexists. split_and!; try done. cbn [f_buffer].
    intros D restored ps s Hrun Hn. apply forward_ready; [by eapply batch_inv|]. right. by apply Nat2Z.inj_le; rewrite Z2Nat.id.
Qed.

(** * The policy of a consumer *)
Inductive stream_of : handle JS → Ctx → handle ST → Prop :=
  | stream_created j ctx cfg st : CreateOrUpdateStream j ctx cfg = inr st → stream_of j ctx st
  | stream_found j ctx name st : Stream j ctx name = inr st → stream_of j ctx st.
(** A consumer got from the JetStream context of a connection, directly or through
    a stream. *)
Inductive obtained (p : propagationPolicy) : handle CO → Prop :=
  | got_created js j ctx s cfg c : JetStream p js = inr j → CreateOrUpdateConsumer j ctx s cfg = inr c → obtained p c
  | got_looked_up js j ctx s name c : JetStream p js = inr j → Consumer j ctx s name = inr c → obtained p c
  | got_of_stream js j ctx st ctx' cfg c : JetStream p js = inr j → stream_of j ctx st → stream_CreateOrUpdateConsumer st ctx' cfg = inr c → obtained p c
  | got_in_stream js j ctx st ctx' name c : JetStream p js = inr j → stream_of j ctx st → stream_Consumer st ctx' name = inr c → obtained p c.

Lemma with_policy_inr {T} p (r : failure + T) h : with_policy p r = inr h → h_policy h = p.
Proof. destruct r; [done|]. by intros [= <-]. Qed.
Lemma stream_of_policy j ctx st : stream_of j ctx st → h_policy st = h_policy j.
Proof. intros []; by eapply with_policy_inr. Qed.
Lemma JetStream_policy p js j : JetStream p js = inr j → h_policy j = p.
Proof. destruct js; [done|]. by intros [= <-]. Qed.

(** Every message of a connection is handed on in the same way. A consumer got
    from a connection, in any of the ways, calls the handler of Consume, and answers
    Next and the iterator of Messages, with the context the upstream made, in which
    the baggage is restored by the policy of the connection; a fetched batch
    carries that policy; a failed Next gives back the caller's context. *)
Theorem consumer_policy (p : propagationPolicy) (c : handle CO) (Hc : obtained p c) (ctx : Ctx) (now : Z) :
  (∀ R (h : jhandler R) opts cc g, (Consume c ctx now (Some h) opts).2 = inr (cc, g) →
     ∀ at_ mctx m, g at_ mctx m = h (restoreBaggage Background HeaderCarrier p (switch at_) mctx (Headers m)).1 m)
  ∧ (∀ opts mc, (Messages c ctx now opts).2 = inr mc → ∀ at_ nopts mctx m, mc_Next (up mc) nopts = inr (mctx, m) →
     messages_Next mc at_ nopts = ((restoreBaggage Background HeaderCarrier p (switch at_) mctx (Headers m)).1, Some m, None))
  ∧ (∀ opts, Ctx_Err ctx now = None → match co_Next (up c) ctx opts with
       | inr (mctx, m) => Next c ctx now opts = ((restoreBaggage Background HeaderCarrier p (switch now) mctx (Headers m)).1, Some m, None)
       | inl e => Next c ctx now opts = (ctx, None, Some e)
       end)
  ∧ (∀ batch opts b, (Fetch c ctx now batch opts).2 = Batch b ∨ (FetchBytes c ctx now batch opts).2 = Batch b ∨ FetchNoWait c ctx now batch = Batch b →
     f_policy b = p).
Proof.
  assert (Hp : h_policy c = p).
  { destruct Hc as [js j ctx' s cfg c Hj H|js j ctx' s name c Hj H|js j ctx' st ctx'' cfg c Hj Hs H|js j ctx' st ctx'' name c Hj Hs H];
      apply with_policy_inr in H; rewrite H; try apply stream_of_policy in Hs as ->; by eapply JetStream_policy. }
  split_and!.
  - intros R h opts cc g. unfold Consume. destruct (Ctx_Err ctx now); [done|]. cbn. destruct (co_Consume (up c) opts); [done|].
    intros [= -> <-] at_ mctx m. unfold message_ctx. by rewrite Hp.
  - intros opts mc. unfold Messages. destruct (Ctx_Err ctx now); [done|]. cbn [snd]. intros Hm at_ nopts mctx m Hn.
    apply with_policy_inr in Hm. unfold messages_Next, message_ctx. by rewrite Hn, Hm, Hp.
  - intros opts He. unfold Next. rewrite He. destruct (co_Next (up c) ctx opts) as [e|[mctx m]]; [done|]. unfold message_ctx. by rewrite Hp.
  - assert (Hw : ∀ mb n cs b, wrapBatch mb n cs (h_policy c) = Batch b → f_policy b = p).
    { intros mb n cs b. unfold wrapBatch. destruct (n <? 0)%Z; [done|]. by intros [= <-]. }
    intros batch opts b [H|[H|H]]; [unfold Fetch in H|unfold FetchBytes in H|unfold FetchNoWait in H]; destruct (Ctx_Err ctx now); try done.
    + cbv zeta in H. destruct (fetchWithCtxFallback _ _ _) as [calls [e|mb]]; [done|]. by eapply Hw.
    + cbv zeta in H. destruct (fetchWithCtxFallback _ _ _) as [calls [e|mb]]; [done|]. by eapply Hw.
    + destruct (co_FetchNoWait (up c) batch); [done|]. by eapply Hw.
Qed.
End jetstream.

(** * Samples *)
#[local] Existing Instance sample_baggage.
#[local] Existing Instance sample_header.
Definition is_context {Ctx O} (o : FetchOpt Ctx O) : bool := match o with FetchContext _ => true | _ => false end.
Definition is_max_wait {Ctx O} (o : FetchOpt Ctx O) : bool := match o with FetchMaxWait _ => true | _ => false end.
(** A client that refuses the two options together. *)
Definition sample_pull {C O} (opts : list (FetchOpt C O)) : failure + unit :=
  if existsb is_context opts && existsb is_max_wait opts
  then inl {| text := #"nats: " ++ collision_text; found := [ErrInvalidOption] |} else inr tt.
Lemma sample_pull_documented {C O} : pull_documented (sample_pull (C := C) (O := O)).
Proof.
  intros opts. assert (Hc : existsb is_context opts = true ↔ ∃ c, FetchContext c ∈ opts).
  { rewrite existsb_exists. split; [intros ([c| |] & Hin & ?); try done; exists c; by apply list_elem_of_In|].
    intros [c Hin]. exists (FetchContext c). by rewrite <- list_elem_of_In. }
  assert (Hm : existsb is_max_wait opts = true ↔ ∃ d, FetchMaxWait d ∈ opts).
  { rewrite existsb_exists. split; [intros ([|d|] & Hin & ?); try done; exists d; by apply list_elem_of_In|].
    intros [d Hin]. exists (FetchMaxWait d). by rewrite <- list_elem_of_In. }
  unfold sample_pull. rewrite <- Hc, <- Hm, <- andb_true_iff. destruct (_ && _); by vm_compute.
Qed.

Abbreviation sample_Fetch := (Fetch (O := unit) (λ _ _, None) (λ c, c) (λ (_ : unit) (_ : Z), sample_pull)).
Definition sample_handle : handle unit :=
  {| up := tt; h_policy := {| propagator := Some sample_propagator; tracingEnabled := Some tt |} |}.
Lemma fetch_context_witness :
  let '(calls, cancelled, r) := sample_Fetch sample_handle sample_ctx 0 2 [FetchMaxWait 5] in
  calls = [[FetchContext sample_ctx; FetchMaxWait 5]; [FetchMaxWait 5]] ∧ ∃ b, r = Batch b ∧ f_buffer b = 2.
Proof.
  pose proof (fetch_context (O := unit) (JMsg := unit) (λ _ _, None) (λ c, c) (λ (_ : unit) (_ : Z), sample_pull) sample_handle sample_ctx 0 2 [FetchMaxWait 5]
    sample_pull_documented ltac:(lia)) as H.
  assert (E : (sample_Fetch sample_handle sample_ctx 0 2 [FetchMaxWait 5]).2
    = Batch {| f_batch := tt; f_buffer := 2; f_cancels := Some sample_ctx; f_policy := h_policy sample_handle |}) by by vm_compute.
  destruct (sample_Fetch _ _ _ _ _) as [[calls cancelled] r]. cbn [snd] in E. subst r.
  destruct H as (last & [(_ & -> & _)|(Hn & _)] & _); [|destruct Hn; exists 5%Z; by left].
  split; [done|]. eexists. by split.
Defined.

Definition sample_empty : Ctx := ([] : list (bytes * bytes)).
(** A consumer looked up through a stream, and a message with a baggage. *)
Definition sample_Next : Ctx * option NHeader * option failure :=
  Next (O := unit) sample_empty headerCarrier (λ _ _, None) (λ _, true) (λ h : NHeader, h)
    (λ (_ : unit) (_ : Ctx) (_ : list (FetchOpt Ctx unit)), inr (sample_empty, Inject sample_ctx sample_propagator None)) sample_handle sample_empty 0 [].
Lemma consumer_policy_witness :
  sample_Next = (sample_ctx, Some (Inject sample_ctx sample_propagator None), None)
  ∧ sample_Next = ((restoreBaggage sample_empty headerCarrier (h_policy sample_handle) true sample_empty (Inject sample_ctx sample_propagator None)).1,
      Some (Inject sample_ctx sample_propagator None), None).
Proof.
  split; [by vm_compute|].
  destruct (consumer_policy (O := unit) sample_empty headerCarrier (λ _ _, None) (λ _, true) (λ c, c) (StreamConfig := unit) (ConsumerConfig := unit)
    (ConsumeOpt := unit) (MessagesOpt := unit) (NextOpt := unit) (λ h : NHeader, h) (λ (_ : unit) _ _, inr tt) (λ _ _ _, inr tt) (λ _ _ _ _, inr tt)
    (λ _ _ _ _, inr tt) (λ _ _ _, inr tt) (λ _ _ _, inr tt) (λ _ _, inr tt) (λ _ _, inr tt) (λ _ _ _, inr tt) (λ _ _ _, inr tt) (λ _ _, inr tt)
    (λ (_ : unit) (_ : Ctx) (_ : list (FetchOpt Ctx unit)), inr (sample_empty, Inject sample_ctx sample_propagator None))
    (λ (_ : unit) _, inr (sample_empty, Inject sample_ctx sample_propagator None)) (h_policy sample_handle) sample_handle) with sample_empty 0%Z as (_ & _ & H & _).
  - eapply (got_in_stream _ _ _ _ _ _ _ (inr tt) _ sample_empty _ sample_empty []); [reflexivity|by eapply (stream_found _ _ _ _ [])|reflexivity].
  - by apply (H [] eq_refl).
Defined.
