(* ===== verification/GinErrors.v ===== *)
(** gin/errors.go, middleware.go and options.go: the type of a gin error as text,
    the chain that records the errors of a request once, and the requests it skips.
    gin's constants and otelgin's middleware are parameters. *)
From S2P Require Import Prelude GoStrings GoNum.

(** * gin's error types *)
(** gin.ErrorType, a uint64, and its constants: single bits, and a sentinel. *)
Class GinTypes := { ErrorTypeBind : N; ErrorTypeRender : N; ErrorTypePrivate : N; ErrorTypePublic : N; ErrorTypeAny : N }.
Definition known_types `{GinTypes} : list (N * bytes) :=
  [(ErrorTypeBind, #"bind"); (ErrorTypeRender, #"render"); (ErrorTypePrivate, #"private"); (ErrorTypePublic, #"public")].
Class GinTypesLaws (G : GinTypes) := {
  single_bits : ∃ bits, known_types.*1 = (N.pow 2) <$> bits ∧ NoDup bits;
}.

Section types.
Context `{G : GinTypes}.
(** The loop over the known types: the names found, and what is left of the type. *)
Definition type_step (st : list bytes * N) (known : N * bytes) : list bytes * N :=
  let '(names, errorType) := st in
  if bool_decide (N.land errorType known.1 = 0%N) then (names, errorType) else (names ++ [known.2], N.ldiff errorType known.1).
Definition ginErrorTypeString (errorType : N) : bytes :=
  if bool_decide (errorType = ErrorTypeAny) then #"any"
  else
    let '(names, rest) := foldl type_step ([], errorType) known_types in
    let names := if bool_decide (rest = 0%N) then names else names ++ [ #"unknown:" ++ dec rest] in
    if bool_decide (names = []) then #"unknown:0" else Join names #"|".
End types.

(** * Recording *)
Section chain.
Context `{G : GinTypes}.
(** An error and a span are references; [Err] of a gin error may be nil. *)
Record gin_error := { Err : option positive; Type_ : N }.
Definition span_ref := positive.
Inductive call :=
  | RecordError (s : span_ref) (e : positive) (type : bytes)
  | SetStatus (s : span_ref) (e : positive)
  | Other (n : N).
Definition recordTypedExceptions (s : span_ref) (errs : list gin_error) : list call :=
  omap (λ ge, (λ e, RecordError s e (ginErrorTypeString (Type_ ge))) <$> Err ge) errs.
Definition lastError (errs : list gin_error) : option positive := last (omap Err errs).

(** gin.Context: its keys, its errors, the span of its request's context, the
    status it wrote, the request; and [world], what a filter of the caller's may
    look at and change. *)
Context {Req W : Type}.
Record gctx := { Keys : gset positive; Errors : list gin_error; req_span : span_ref; status : Z; Request : Req; world : W }.
Definition with_keys (c : gctx) (k : gset positive) : gctx :=
  {| Keys := k; Errors := Errors c; req_span := req_span c; status := status c; Request := Request c; world := world c |}.
Definition with_world (c : gctx) (w : W) : gctx :=
  {| Keys := Keys c; Errors := Errors c; req_span := req_span c; status := status c; Request := Request c; world := w |}.
Definition with_span (c : gctx) (s : span_ref) : gctx :=
  {| Keys := Keys c; Errors := Errors c; req_span := s; status := status c; Request := Request c; world := world c |}.
(** What runs behind a handler, c.Next(), and a handler. *)
Definition next := gctx → gctx * list call.
Definition handler := next → next.
Context (IsRecording : span_ref → bool).

Definition ErrorRecorder : handler := λ Next c,
  let '(c, calls) := Next c in
  if bool_decide (Errors c = []) then (c, calls)
  else
    let span := req_span c in
    if negb (IsRecording span) then (c, calls)
    else (c, calls ++ recordTypedExceptions span (Errors c)
             ++ match lastError (Errors c) with Some e => if (500 <=? status c)%Z then [SetStatus span e] else [] | None => [] end).
Definition record_after (span : span_ref) (Next : next) (c : gctx) : gctx * list call :=
  let '(c, calls) := Next c in
  (c, calls ++ if (0 <? length (Errors c)) && IsRecording span then recordTypedExceptions span (Errors c) else []).
Definition chainErrors (tracedKey : option positive) : handler := λ Next c,
  match tracedKey with
  | Some k =>
    let traced := bool_decide (k ∈ Keys c) in
    let c := with_keys c (Keys c ∖ {[k]}) in
    if negb traced then Next c else record_after (req_span c) Next c
  | None => record_after (req_span c) Next c
  end.

(** * Options *)
(** A filter of the caller's; it may answer otherwise the next time. *)
Definition filter_fn := Req → W → W * bool.
Context {OtelOption : Type} (Path : Req → bytes).
Record ginOptions := { otel : list OtelOption; filters : list filter_fn }.
Inductive Option_ := OtelOpt (o : OtelOption) | WithFilter (fs : list filter_fn).
Definition applyGinOption (opts : ginOptions) (o : Option_) : ginOptions :=
  match o with
  | OtelOpt o => {| otel := otel opts ++ [o]; filters := filters opts |}
  | WithFilter fs => {| otel := otel opts; filters := filters opts ++ fs |}
  end.
Definition applyOptions (options : list (option Option_)) : ginOptions :=
  foldl (λ opts o, match o with Some o => applyGinOption opts o | None => opts end) {| otel := []; filters := [] |} options.
Definition DefaultSkipPaths : list bytes :=
  [ #"/health"; #"/healthz"; #"/livez"; #"/readyz"; #"/metrics"; #"/ping"; #"/ready"; #"/live"].
(** WithSkipPathPrefixes appends its prefixes. *)
Definition skip_prefixes (opts : list (option (list bytes))) : list bytes :=
  foldl (λ prefixes o, match o with Some more => prefixes ++ more | None => prefixes end) [] opts.
Definition skip_filter (prefixes : list bytes) : filter_fn := λ r w,
  (w, if bool_decide (Path r ∈ DefaultSkipPaths) then false
      else negb (existsb (HasPrefix (Path r)) (filter (λ p, p ≠ []) prefixes))).
Definition WithSkipPaths (opts : list (option (list bytes))) : Option_ := WithFilter [skip_filter (skip_prefixes opts)].

(** * The chain *)
(** The gin filter of the chain: the filters in order, up to the first that says no. *)
Fixpoint run_filters (fs : list filter_fn) (r : Req) (w : W) : W * bool :=
  match fs with
  | [] => (w, true)
  | f :: fs => let '(w, ok) := f r w in if ok then run_filters fs r w else (w, false)
  end.
Definition gin_filter (k : positive) (fs : list filter_fn) (c : gctx) : gctx * bool :=
  let '(w, ok) := run_filters fs (Request c) (world c) in
  let c := with_world c w in
  if ok then (with_keys c (Keys c ∪ {[k]}), true) else (c, false).
(** otelgin.Middleware, of a filter or none. *)
Context (otelgin : list OtelOption → option (gctx → gctx * bool) → handler).
(** Middleware, with the key it allocates when there are filters. *)
Definition Middleware (k : positive) (options : list (option Option_)) : list handler :=
  let opts := applyOptions options in
  match filters opts with
  | [] => [otelgin (otel opts) None; chainErrors None]
  | fs => [otelgin (otel opts) (Some (gin_filter k fs)); chainErrors (Some k)]
  end.
(** A request through a chain of handlers. *)
Definition serve (chain : list handler) (downstream : next) : next := foldr (λ h n, h n) downstream chain.
End chain.

(** * The text of a type *)
Section text.
Context `{G : GinTypes}.
Definition bit_names : list bytes := [ #"bind"; #"render"; #"private"; #"public"].
(** The names of the bits that are set, and the type without them. *)
Definition names_of (t : N) (l : list (N * bytes)) : list bytes := omap (λ p, if N.testbit t p.1 then Some p.2 else None) l.
Definition cleared (t : N) (bits : list N) : N := foldl (λ t b, N.ldiff t (2 ^ b)) t bits.

Lemma land_bit t b : bool_decide (N.land t (2 ^ b) = 0%N) = negb (N.testbit t b).
Proof.
  destruct (N.testbit t b) eqn:Hb; cbn.
  - apply bool_decide_eq_false. intros H. apply (f_equal (λ x, N.testbit x b)) in H.
    by rewrite N.land_spec, Hb, N.pow2_bits_true, N.bits_0 in H.
  - apply bool_decide_eq_true, N.bits_inj. intros i. rewrite N.land_spec, N.bits_0.
    destruct (decide (b = i)) as [<-|Hne]; [by rewrite Hb|]. by rewrite N.pow2_bits_false, andb_false_r.
Qed.
Lemma ldiff_bit t b i : N.testbit (N.ldiff t (2 ^ b)) i = N.testbit t i && negb (bool_decide (b = i)).
Proof. rewrite N.ldiff_spec. case_bool_decide as H; [by rewrite H, N.pow2_bits_true|by rewrite N.pow2_bits_false]. Qed.
Lemma cleared_bit t bits i : N.testbit (cleared t bits) i = N.testbit t i && negb (bool_decide (i ∈ bits)).
Proof.
  unfold cleared. revert t. induction bits as [|b bits IH]; intros t; cbn; [by rewrite andb_true_r|].
  rewrite IH, ldiff_bit, <- andb_assoc, <- negb_orb. do 2 f_equal.
  apply eq_true_iff_eq. rewrite orb_true_iff, !bool_decide_eq_true, elem_of_cons. naive_solver.
Qed.
Lemma ldiff_clear t b : N.testbit t b = false → N.ldiff t (2 ^ b) = t.
Proof. intros H. apply N.bits_inj. intros i. rewrite ldiff_bit. case_bool_decide as Hi; [by rewrite <- Hi, H|by rewrite andb_true_r]. Qed.

Lemma type_fold acc t (l : list (N * bytes)) : NoDup l.*1 →
  foldl type_step (acc, t) ((λ p : N * bytes, ((2 ^ p.1)%N, p.2)) <$> l) = (acc ++ names_of t l, cleared t l.*1).
Proof.
  revert acc t. induction l as [|[b n] l IH]; intros acc t Hnd; [by rewrite app_nil_r|]. apply NoDup_cons in Hnd as [Hb Hnd].
  cbn [fmap list_fmap foldl]. unfold type_step at 2. cbn [fst snd]. rewrite land_bit.
  assert (Hnames : names_of (N.ldiff t (2 ^ b)) l = names_of t l).
  { unfold names_of. apply list_omap_ext, Forall_Forall2_diag, Forall_forall. intros [b' n'] Hin. cbn. rewrite ldiff_bit, bool_decide_false, andb_true_r; [done|].
    intros <-. apply Hb. by apply (list_elem_of_fmap_2 fst l (b, n')). }
  cbn [names_of omap list_omap fst snd]. destruct (N.testbit t b) eqn:Ht; cbn [negb].
  - rewrite IH by done. rewrite Hnames. by rewrite <- app_assoc.
  - rewrite IH by done. unfold cleared. cbn. by rewrite ldiff_clear.
Qed.

Definition masks_known (bits : list N) : list (N * bytes) := zip bits bit_names.
Lemma known_zip bits : known_types.*1 = (N.pow 2) <$> bits →
  known_types = (λ p : N * bytes, ((2 ^ p.1)%N, p.2)) <$> masks_known bits ∧ (masks_known bits).*1 = bits.
Proof.
  intros H. destruct bits as [|b1 [|b2 [|b3 [|b4 [|? ?]]]]]; try discriminate H. injection H as E1 E2 E3 E4.
  split; [|done]. unfold known_types. by rewrite E1, E2, E3, E4.
Qed.

(** The items of the text: the names and what is left. *)
Definition type_items (bits : list N) (t : N) : list bytes :=
  let names := names_of t (masks_known bits) in
  if bool_decide (cleared t bits = 0%N) && negb (bool_decide (names = [])) then names else names ++ [ #"unknown:" ++ dec (cleared t bits)].
Lemma type_items_text bits t : known_types.*1 = (N.pow 2) <$> bits → NoDup bits → t ≠ ErrorTypeAny →
  ginErrorTypeString t = Join (type_items bits t) #"|".
Proof.
  intros Hk Hnd Hany. destruct (known_zip bits Hk) as [Hz Hb]. unfold ginErrorTypeString. rewrite bool_decide_false by done.
  rewrite Hz, type_fold, Hb by by rewrite Hb. cbn [app]. unfold type_items.
  destruct (bool_decide (cleared t bits = 0%N)) eqn:Hr; cbn [andb].
  - apply bool_decide_eq_true in Hr. case_bool_decide as Hn; cbn [negb]; [|done]. by rewrite Hn, Hr.
  - rewrite bool_decide_false; [done|]. by destruct (names_of t (masks_known bits)).
Qed.
Lemma bit_name_elem n : n ∈ bit_names → "|"%char ∉ n ∧ ":"%char ∉ n.
Proof. intros H. repeat (apply elem_of_cons in H as [->|H]; [split; by apply (bool_decide_unpack (_ ∉ _))|]). by apply elem_of_nil in H. Qed.
Lemma unknown_elem r : "|"%char ∉ ( #"unknown:" ++ dec r) ∧ ":"%char ∈ ( #"unknown:" ++ dec r).
Proof.
  split; [|apply elem_of_app; left; by apply (bool_decide_unpack (_ ∈ _))].
  rewrite elem_of_app. intros [H|H]; [by apply (bool_decide_unpack (_ ∉ #"unknown:")) in H|]. by apply dec_digit in H.
Qed.
Lemma names_elem bits t n : n ∈ names_of t (masks_known bits) → n ∈ bit_names.
Proof.
  unfold names_of. intros ([b m] & Hin & Hm)%list_elem_of_omap. cbn in Hm. destruct (N.testbit t b); [|done]. injection Hm as ->.
  unfold masks_known in Hin. by apply elem_of_zip_r in Hin.
Qed.
Lemma type_items_split bits t : Split (Join (type_items bits t) #"|") "|" = type_items bits t.
Proof.
  apply Split_Join.
  - unfold type_items. destruct (_ && _) eqn:H; [|by destruct (names_of t (masks_known bits))].
    apply andb_prop in H as [_ H%negb_true_iff%bool_decide_eq_false]. done.
  - apply Forall_forall. intros w Hw.
    assert (w ∈ names_of t (masks_known bits) ∨ w = #"unknown:" ++ dec (cleared t bits)) as [H| ->].
    { unfold type_items in Hw. destruct (_ && _); [by left|]. apply elem_of_app in Hw as [?|?%list_elem_of_singleton]; [by left|by right]. }
    + by apply names_elem, bit_name_elem in H as [? _].
    + apply unknown_elem.
Qed.

(** The names without their order, and what is left, are read off the items. *)
Lemma items_names bits t n : n ∈ bit_names → n ∈ type_items bits t ↔ n ∈ names_of t (masks_known bits).
Proof.
  intros Hn. unfold type_items. destruct (_ && _); [done|]. rewrite elem_of_app. split; [intros [?|H]; [done|]|by left].
  apply list_elem_of_singleton in H as ->. exfalso. apply bit_name_elem in Hn as [_ Hn]. apply Hn, unknown_elem.
Qed.
Lemma items_rest bits t r : #"unknown:" ++ dec r ∈ type_items bits t → r = cleared t bits.
Proof.
  unfold type_items. intros H.
  assert ( #"unknown:" ++ dec r ∈ names_of t (masks_known bits) ∨ #"unknown:" ++ dec r = #"unknown:" ++ dec (cleared t bits)) as [Hn|He].
  { destruct (_ && _); [by left|]. apply elem_of_app in H as [?|?%list_elem_of_singleton]; [by left|by right]. }
  - exfalso. apply names_elem, bit_name_elem in Hn as [_ Hn]. apply Hn, unknown_elem.
  - apply (inj (app _)) in He. by apply dec_inj in He.
Qed.
Lemma items_zero bits t : (∀ r, #"unknown:" ++ dec r ∉ type_items bits t) → cleared t bits = 0%N.
Proof.
  intros H. unfold type_items in H. case_bool_decide as Hr; [done|]. cbn in H. exfalso. apply (H (cleared t bits)), elem_of_app. right. by apply list_elem_of_singleton.
Qed.
Lemma items_rest_eq bits t u : type_items bits t = type_items bits u → cleared t bits = cleared u bits.
Proof.
  intros He. destruct (decide ( #"unknown:" ++ dec (cleared t bits) ∈ type_items bits t)) as [Hin|Hni].
  - rewrite He in Hin. by apply items_rest in Hin.
  - destruct (decide ( #"unknown:" ++ dec (cleared u bits) ∈ type_items bits u)) as [Hin|Hni'].
    + rewrite <- He in Hin. by apply items_rest in Hin as ->.
    + rewrite !items_zero; [done| |]; intros r Hr; pose proof (items_rest _ _ _ Hr) as Hx; by rewrite Hx in Hr.
Qed.
Lemma names_bit bits t b n : NoDup bit_names → (b, n) ∈ masks_known bits → n ∈ names_of t (masks_known bits) ↔ N.testbit t b = true.
Proof.
  intros Hnd Hin. unfold names_of. rewrite list_elem_of_omap. split.
  - intros ([b' n'] & Hin' & Hm). cbn in Hm. destruct (N.testbit t b') eqn:Hb; [|done]. injection Hm as ->.
    apply list_elem_of_lookup in Hin as [i Hi], Hin' as [j Hj]. apply lookup_zip_with_Some in Hi as (x & y & [= -> ->] & Hx & Hy), Hj as (x' & y' & [= -> ->] & Hx' & Hy').
    assert (i = j) as -> by (by eapply NoDup_lookup). by simplify_eq.
  - intros Hb. exists (b, n). split; [done|]. cbn. by rewrite Hb.
Qed.

(** The text tells the type. Two types have one text only when they are one
    type: the names are those of gin's bits that are set, the number what is left,
    and neither is another's. *)
Theorem ginErrorTypeString_inj (Hlaws : GinTypesLaws G) (t u : N) (Heq : ginErrorTypeString t = ginErrorTypeString u) : t = u.
Proof.
  destruct single_bits as (bits & Hk & Hnd). destruct (known_zip bits Hk) as [_ Hz].
  assert (Hnotany : ∀ x, x ≠ ErrorTypeAny → ginErrorTypeString x ≠ #"any").
  { intros x Hx. rewrite (type_items_text bits) by done. intros He. apply (f_equal (λ s, Split s "|")) in He. rewrite type_items_split in He.
    assert ( #"any" ∈ type_items bits x) as Hin by (rewrite He; by left).
    unfold type_items in Hin.
    assert ( #"any" ∈ names_of x (masks_known bits) ∨ #"any" = #"unknown:" ++ dec (cleared x bits)) as [Hn|Hu]; [|by apply names_elem in Hn; apply (bool_decide_unpack (_ ∉ bit_names)) in Hn|done].
    destruct (_ && _); [by left|]. apply elem_of_app in Hin as [?|?%list_elem_of_singleton]; [by left|by right]. }
  assert (Hany : ginErrorTypeString ErrorTypeAny = #"any") by (unfold ginErrorTypeString; by rewrite bool_decide_true).
  destruct (decide (t = ErrorTypeAny)) as [->|Ht]; [destruct (decide (u = ErrorTypeAny)) as [->|Hu]; [done|]|destruct (decide (u = ErrorTypeAny)) as [->|Hu]].
  - rewrite Hany in Heq. by destruct (Hnotany u Hu).
  - rewrite Hany in Heq. by destruct (Hnotany t Ht).
  - rewrite !(type_items_text bits) in Heq by done. apply (f_equal (λ s, Split s "|")) in Heq. rewrite !type_items_split in Heq.
    apply N.bits_inj. intros i. destruct (decide (i ∈ bits)) as [Hi|Hi].
    + assert (∃ n, (i, n) ∈ masks_known bits) as [n Hin].
      { rewrite <- Hz in Hi. apply list_elem_of_fmap in Hi as ([b n] & -> & Hin). by exists n. }
      assert (Hnn : n ∈ bit_names) by (unfold masks_known in Hin; by apply elem_of_zip_r in Hin).
      assert (Hbn : NoDup bit_names) by by apply (bool_decide_unpack (NoDup _)).
      apply eq_true_iff_eq. rewrite <- !(names_bit bits _ i n Hbn Hin), <- !items_names by done. by rewrite Heq.
    + apply items_rest_eq, (f_equal (λ x, N.testbit x i)) in Heq. rewrite !cleared_bit, bool_decide_false, !andb_true_r in Heq by done. done.
Qed.
End text.

(** * The chain *)
Section chain_spec.
Context `{G : GinTypes} {Req W OtelOption : Type} (IsRecording : span_ref → bool) (Path : Req → bytes).
Abbreviation ctx := (gctx (Req := Req) (W := W)).
Abbreviation next_ := (next (Req := Req) (W := W)).
Context (otelgin : list OtelOption → option (ctx → ctx * bool) → handler (Req := Req) (W := W)).
(** The calls otelgin makes of its own, which record no exception. *)
Definition own_calls (calls : list call) : Prop := Forall (λ c, match c with Other _ => True | _ => False end) calls.
(** A traced request: what is behind runs once, with a span of its own in the
    context of the request, and leaves its errors and keys. *)
Definition traced_by (n : next_) (c : ctx) (out : ctx * list call) : Prop :=
  ∃ s pre post, own_calls pre ∧ own_calls post
    ∧ let '(c1, calls) := n (with_span c s) in out.2 = pre ++ calls ++ post ∧ Errors out.1 = Errors c1 ∧ Keys out.1 = Keys c1.
(** What otelgin documents: a request its filter refuses is only passed on. *)
Definition otelgin_documented : Prop := ∀ opts (f : option (ctx → ctx * bool)) (n : next_) (c : ctx),
  match f with
  | None => traced_by n c (otelgin opts f n c)
  | Some f => let '(c', ok) := f c in if ok then traced_by n c' (otelgin opts (Some f) n c) else otelgin opts (Some f) n c = n c'
  end.

Lemma with_keys_id (c : ctx) : with_keys c (Keys c) = c.
Proof. by destruct c. Qed.
Lemma with_keys_fresh (c : ctx) k : k ∉ Keys c → with_keys c (Keys c ∖ {[k]}) = c.
Proof. intros H. rewrite <- (with_keys_id c) at 3. f_equal. set_solver. Qed.

(** C27: the errors of a request are recorded once. The filters are asked once, in
    order, up to the first that refuses. A request that is refused is only passed
    on, as it came. Any other has a span; the handlers behind run once, do not see
    the key of the chain, and when they are through, each of their errors that
    has one is recorded on that span, in order, with the text of its type, and
    nothing else is recorded; the errors are left as they are, and no key is. *)
Theorem errors_recorded_once (Hotel : otelgin_documented) (k : positive) (options : list (option Option_)) (downstream : next_) (c : ctx)
    (Hk : k ∉ Keys c) :
  let fs := filters (applyOptions options) in
  let '(w, ok) := run_filters fs (Request c) (world c) in
  let out := serve (Middleware IsRecording otelgin k options) downstream c in
  if ok then
    ∃ s pre post, own_calls pre ∧ own_calls post
    ∧ let '(c1, calls) := downstream (with_span (with_world c w) s) in
      out.2 = pre ++ (calls ++ if IsRecording s then recordTypedExceptions s (Errors c1) else []) ++ post
      ∧ Errors out.1 = Errors c1 ∧ Keys out.1 = Keys c1
  else out = downstream (with_world c w).
Proof.
  cbv zeta. unfold Middleware, serve.
  assert (Hrec : ∀ s (n : next_) (c0 : ctx), record_after IsRecording s n c0
    = (let '(c1, calls) := n c0 in (c1, calls ++ if IsRecording s then recordTypedExceptions s (Errors c1) else []))).
  { intros s n c0. unfold record_after. destruct (n c0) as [c1 calls]. destruct (Errors c1) as [|e l]; cbn; [by destruct (IsRecording s)|done]. }
  destruct (filters (applyOptions options)) as [|f fs] eqn:Hfs.
  - cbn [run_filters foldr]. pose proof (Hotel (otel (applyOptions options)) None (chainErrors IsRecording None downstream) c) as H.
    cbn in H. destruct H as (s & pre & post & Hpre & Hpost & H). exists s, pre, post. split_and!; [done|done|].
    unfold chainErrors in H. rewrite Hrec in H. cbn [req_span with_span] in H. assert (with_world c (world c) = c) as -> by by destruct c.
    by destruct (downstream (with_span c s)) as [c1 calls].
  - pose proof (Hotel (otel (applyOptions options)) (Some (gin_filter k (f :: fs))) (chainErrors IsRecording (Some k) downstream) c) as H.
    cbn [foldr]. cbv beta iota in H.
    assert (Hg : gin_filter k (f :: fs) c = (let '(w, ok) := run_filters (f :: fs) (Request c) (world c) in
      if ok then (with_keys (with_world c w) (Keys c ∪ {[k]}), true) else (with_world c w, false))) by done.
    rewrite Hg in H. destruct (run_filters (f :: fs) (Request c) (world c)) as [w ok].
    destruct ok.
    + destruct H as (s & pre & post & Hpre & Hpost & H). exists s, pre, post. split_and!; [done|done|].
      unfold chainErrors in H. cbn [Keys with_span with_keys with_world] in H. rewrite bool_decide_true in H by set_solver. cbn [negb] in H.
      rewrite Hrec in H. cbn [req_span with_span with_keys] in H.
      assert ((Keys c ∪ {[k]}) ∖ {[k]} = Keys c) as E by set_solver. rewrite E in H.
      change (with_keys _ (Keys c)) with (with_span (with_world c w) s) in H.
      by destruct (downstream (with_span (with_world c w) s)) as [c1 calls].
    + rewrite H. unfold chainErrors. cbn [Keys with_world]. rewrite bool_decide_false by done. cbn [negb].
      f_equal. change (Keys c) with (Keys (with_world c w)). by apply with_keys_fresh.
Qed.

(** Appending what each option that is not nil adds. *)
Lemma fold_appended {A E} (add : A → list E) (acc : list E) (l : list (option A)) x :
  x ∈ foldl (λ acc o, match o with Some o => acc ++ add o | None => acc end) acc l ↔ x ∈ acc ∨ ∃ o, Some o ∈ l ∧ x ∈ add o.
Proof.
  revert acc. induction l as [|[o|] l IH]; intros acc; cbn [foldl].
  - split; [by left|]. intros [?|(o & H & _)]; [done|by apply elem_of_nil in H].
  - rewrite IH, elem_of_app. split.
    + intros [[?|?]|(o' & ? & ?)]; [by left|right; exists o; by split; [left|]|right; exists o'; by split; [right|]].
    + intros [?|(o' & [[= ->]|?]%elem_of_cons & ?)]; [by left; left|by left; right|right; by exists o'].
  - rewrite IH. split; (intros [?|(o & Hin & ?)]; [by left|right; exists o]); [by split; [right|]|].
    by apply elem_of_cons in Hin as [?|?].
Qed.
Definition option_filters (o : Option_ (Req := Req) (W := W) (OtelOption := OtelOption)) : list (filter_fn (Req := Req) (W := W)) :=
  match o with OtelOpt _ => [] | WithFilter fs => fs end.
Lemma options_filters options opts :
  filters (foldl (λ opts o, match o with Some o => applyGinOption opts o | None => opts end) opts options)
  = foldl (λ acc o, match o with Some o => acc ++ option_filters o | None => acc end) (filters opts) options.
Proof.
  revert opts. induction options as [|[[o|fs]|] options IH]; intros opts; cbn [foldl option_filters]; rewrite ?IH; cbn; by rewrite ?app_nil_r.
Qed.
Lemma run_filters_all (fs : list (filter_fn (Req := Req) (W := W))) (r : Req) (w : W) : (∀ f, f ∈ fs → ∀ v, (f r v).1 = v) →
  (run_filters fs r w).2 = true ↔ ∀ f, f ∈ fs → (f r w).2 = true.
Proof.
  induction fs as [|f fs IH]; intros Hp; cbn [run_filters]; [by split; [intros _ f H; apply elem_of_nil in H|]|].
  pose proof (Hp f (list_elem_of_here _ _) w) as Hw. destruct (f r w) as [w' ok] eqn:E. cbn in Hw. subst w'. destruct ok.
  - rewrite IH by (intros g Hg; apply Hp; by right). split; [|intros H g Hg; apply H; by right].
    intros H g [->|Hg]%elem_of_cons; [by rewrite E|by apply H].
  - split; [done|]. intros H. specialize (H f (list_elem_of_here _ _)). by rewrite E in H.
Qed.

(** What is skipped. With the filters of the options, each of which leaves
    what it looks at as it is, a request is traced exactly when no filter refuses
    it; the one of WithSkipPaths refuses exactly the default paths and those with
    one of its prefixes that is not empty. *)
Theorem skipped_exactly (options : list (option Option_)) (r : Req) (w : W)
    (Hpure : ∀ f, f ∈ filters (applyOptions (W := W) (OtelOption := OtelOption) options) → ∀ v, (f r v).1 = v) :
  ((run_filters (filters (applyOptions options)) r w).2 = true ↔
     ∀ fs f, Some (WithFilter fs) ∈ options → f ∈ fs → (f r w).2 = true)
  ∧ ∀ prefixes, (skip_filter Path (skip_prefixes prefixes) r w).2 = true ↔
     Path r ∉ DefaultSkipPaths ∧ ∀ l p, Some l ∈ prefixes → p ∈ l → p ≠ [] → HasPrefix (Path r) p = false.
Proof.
  split.
  - rewrite run_filters_all by done. unfold applyOptions. setoid_rewrite options_filters. setoid_rewrite fold_appended. split.
    + intros H fs f Hin Hf. apply H. right. by exists (WithFilter fs).
    + intros H f [Hn|([o|fs] & Hin & Hf)]; [by apply elem_of_nil in Hn|by apply elem_of_nil in Hf|by apply (H fs)].
  - intros prefixes. unfold skip_filter, skip_prefixes. cbn [snd].
    case_bool_decide as Hd; [split; [done|by intros [? _]]|]. rewrite negb_true_iff, <- not_true_iff_false, existsb_exists.
    pose proof (fold_appended (λ more : list bytes, more) [] prefixes) as Hp. cbn beta in Hp. split.
    + intros H. split; [done|]. intros l p Hl Hpl Hne. apply not_true_iff_false. intros Hpre. apply H. exists p. split; [|done].
      apply list_elem_of_In, list_elem_of_filter. split; [done|]. apply Hp. right. by exists l.
    + intros [_ H] (p & Hin & Hpre). apply list_elem_of_In, list_elem_of_filter in Hin as [Hne Hin].
      apply Hp in Hin as [Hin|(l & Hl & Hpl)]; [by apply elem_of_nil in Hin|]. by rewrite (H l p) in Hpre.
Qed.
End chain_spec.

(** * Samples *)
#[local] Instance sample_types : GinTypes :=
  {| ErrorTypeBind := 2 ^ 63; ErrorTypeRender := 2 ^ 62; ErrorTypePrivate := 1; ErrorTypePublic := 2; ErrorTypeAny := 2 ^ 64 - 1 |}.
#[local] Instance sample_types_laws : GinTypesLaws sample_types.
Proof. split. exists [63; 62; 0; 1]%N. split; [done|]. by apply (bool_decide_unpack (NoDup _)). Qed.
Lemma ginErrorTypeString_inj_witness :
  ginErrorTypeString (2 ^ 63 + 5) = #"bind|private|unknown:4" ∧ (2 ^ 63 + 5)%N = N.lor (2 ^ 63) 5.
Proof.
  split; [by vm_compute|]. apply (ginErrorTypeString_inj sample_types_laws). by vm_compute.
Defined.

(** An otelgin, a request to a path, and handlers that leave two errors. *)
Definition sample_otelgin : list unit → option (gctx → gctx * bool) → handler (Req := bytes) (W := unit) := λ _ f n c,
  let '(c', ok) := match f with Some f => f c | None => (c, true) end in
  if ok then let '(c1, calls) := n (with_span c' 7%positive) in (c1, [Other 0] ++ calls ++ [Other 1]) else n c'.
Lemma sample_otelgin_documented : otelgin_documented sample_otelgin.
Proof.
  intros opts f n c. assert (Ht : ∀ c0 : gctx, traced_by n c0 (let '(c1, calls) := n (with_span c0 7%positive) in (c1, [Other 0] ++ calls ++ [Other 1]))).
  { intros c0. exists 7%positive, [Other 0], [Other 1]. split; [by repeat constructor|]. split; [by repeat constructor|].
    by destruct (n (with_span c0 7%positive)). }
  destruct f as [f|]; cbn [sample_otelgin]; unfold sample_otelgin; [|apply Ht]. destruct (f c) as [c' ok]. destruct ok; [apply Ht|done].
Qed.
Definition sample_downstream : next (Req := bytes) (W := unit) := λ c,
  ({| Keys := Keys c; Errors := [{| Err := Some 3%positive; Type_ := 1 |}; {| Err := None; Type_ := 2 |}]; req_span := req_span c;
      status := 500; Request := Request c; world := world c |}, []).
Definition sample_gctx (path : bytes) : gctx (Req := bytes) (W := unit) :=
  {| Keys := ∅; Errors := []; req_span := 1%positive; status := 0; Request := path; world := tt |}.
Abbreviation sample_serve := (λ path, serve (Middleware (λ _, true) sample_otelgin 9 [Some (WithSkipPaths (λ r : bytes, r) [Some [ #"/internal/"]])])
  sample_downstream (sample_gctx path)).
Lemma errors_recorded_once_witness :
  (sample_serve #"/users").2 = [Other 0; RecordError 7%positive 3%positive #"private"; Other 1]
  ∧ sample_serve #"/internal/x" = sample_downstream (sample_gctx #"/internal/x").
Proof.
  split; [by vm_compute|].
  exact (errors_recorded_once (λ _, true) sample_otelgin sample_otelgin_documented 9
    [Some (WithSkipPaths (λ r : bytes, r) [Some [ #"/internal/"]])] sample_downstream (sample_gctx #"/internal/x") (not_elem_of_empty 9%positive)).
Defined.
