(* ===== verification/Minio.v ===== *)
(** minio/errors.go, options.go and client.go: the classification of errors and the
    span and duration of each operation. The client below is a parameter; errors
    are those of [RedactError] with what package errors answers about them; what an
    operation does with the tracer and the instrument is a list of calls. *)
From S2P Require Import Prelude Utf8 GoStrings GoCodec GoNum GoFields SampleLib RedactDecode RedactText RedactError GoUrl Attribute Semconv.

(** * Errors *)
Definition ErrorResponse : bytes := #"minio.ErrorResponse".
Definition CertificateVerificationError : bytes := #"*tls.CertificateVerificationError".
Definition RecordHeaderError : bytes := #"tls.RecordHeaderError".
Definition OpError : bytes := #"*net.OpError".

Section errors.
(** The Code and StatusCode fields of a minio.ErrorResponse. *)
Context `{U : GoUnicode} (σ : error_store) (ans : error_answers) (depth : nat) (Code : eref → bytes) (StatusCode : eref → Z).
Definition minioErrorResponse (err : option eref) : option eref := errors_As σ ans depth err ErrorResponse.
Definition s3ErrorCode (err : option eref) : bytes := match minioErrorResponse err with Some er => Code er | None => [] end.
Definition s3StatusCode (err : option eref) : Z := match minioErrorResponse err with Some er => StatusCode er | None => 0 end.
Definition errorType (err : option eref) : bytes :=
  match err with
  | None => []
  | Some r =>
    if errors_Is σ ans depth err DeadlineExceeded then #"context.DeadlineExceeded"
    else if errors_Is σ ans depth err Canceled then #"context.Canceled"
    else let code := s3ErrorCode err in if bool_decide (code = []) then type_name (σ r) else code
  end.
Definition as_any (r : eref) (types : list bytes) : bool := existsb (λ t, bool_decide (is_Some (errors_As σ ans depth (Some r) t))) types.
Definition lower_text (r : eref) : option bytes := ToLower <$> error_method (σ r).
Definition isTLSError (r : eref) : option bool :=
  if as_any r [CertificateVerificationError; RecordHeaderError] then Some true
  else
    let by_text := (λ lower, Contains lower #"tls:" || Contains lower #"certificate") <$> lower_text r in
    match inner ← errors_As σ ans depth (Some r) OpError; OpError_Err ans inner with
    | None => by_text
    | Some inner => match (λ lower, Contains lower #"tls") <$> lower_text inner with
                    | None => None
                    | Some true => Some true
                    | Some false => by_text
                    end
    end.
Definition isTransportError (r : eref) : bool := as_any r [OpError].
(** [None] is the panic of an error that cannot be rendered. *)
Definition minioErrorKind (err : option eref) : option bytes :=
  match err with
  | None => Some []
  | Some r =>
    if errors_Is σ ans depth err Canceled && negb (errors_Is σ ans depth err DeadlineExceeded) then Some #"client_canceled"
    else if errors_Is σ ans depth err DeadlineExceeded then Some #"client_timeout"
    else
      let code := s3ErrorCode err in
      if bool_decide (code ∈ [ #"NoSuchKey"; #"NoSuchBucket"]) then Some #"not_found"
      else if bool_decide (code ∈ [ #"AccessDenied"; #"InvalidAccessKeyId"; #"SignatureDoesNotMatch"]) then Some #"access_denied"
      else if bool_decide (code = #"PreconditionFailed") then Some #"precondition"
      else if bool_decide (code = #"SlowDown") then Some #"throttled"
      else if (s3StatusCode err =? 503)%Z then Some #"throttled"
      else tls ← isTLSError r;
           if (tls : bool) then Some #"transport"
           else if isTransportError r then Some #"transport"
           else if negb (bool_decide (code = [])) && (500 <=? s3StatusCode err)%Z then Some #"server_error"
           else Some #"unknown"
  end.

Definition minio_kinds : list bytes :=
  [ #"client_canceled"; #"client_timeout"; #"not_found"; #"access_denied"; #"precondition"; #"throttled"; #"transport"; #"server_error"; #"unknown"].
(** The texts the classification reads: the error's, and that of the error a
    network operation wraps. *)
Definition renderable (r : eref) : Prop :=
  is_Some (error_method (σ r))
  ∧ ∀ op inner, errors_As σ ans depth (Some r) OpError = Some op → OpError_Err ans op = Some inner → is_Some (error_method (σ inner)).
Lemma isTLSError_some r : renderable r → is_Some (isTLSError r).
Proof.
  intros [[text Ht] Hi]. unfold isTLSError, lower_text. rewrite Ht. destruct (as_any _ _); [by eexists|].
  destruct (errors_As σ ans depth (Some r) OpError) as [op|] eqn:Eop; cbn [mbind option_bind fmap option_fmap option_map]; [|by eexists].
  destruct (OpError_Err ans op) as [inner|] eqn:Ein; [|by eexists]. destruct (Hi op inner eq_refl Ein) as [t Hi']. rewrite Hi'.
  cbn [fmap option_fmap option_map]. destruct (Contains _ _); by eexists.
Qed.

(** A kind and what it says of the case it is found in. *)
Ltac kind_facts :=
  repeat match goal with
  | H : ?P |- ?P => exact H
  | H : ?P, H' : ¬ ?P |- _ => destruct (H' H)
  | |- _ ∧ _ => split
  | |- _ ↔ _ => split
  | |- _ ∈ minio_kinds => by apply (bool_decide_unpack (_ ∈ minio_kinds))
  | |- _ → _ => intros ?
  | H : _ ∧ _ |- _ => destruct H
  | H : _ ∈ _ :: _ |- _ => apply elem_of_cons in H as [H|H]
  | H : _ ∈ [] |- _ => by apply elem_of_nil in H
  | H : @eq (list ascii) _ _ |- _ => first [discriminate H|injection H as H]
  end; try first [reflexivity|discriminate|assumption|congruence
    |match goal with H : ?c = _, H' : ?c = _ |- _ => rewrite H in H'; discriminate H' end].

(** The classification of an error. Every error that can be rendered has a
    kind, one of nine; a timeout comes before a cancellation, both before what the
    server answered, and that before what the error looks like. An error for which
    the server answered with a code, and only such a one, can be not found, denied,
    a failed precondition or a server error. The type reported is a sentinel, the
    code of the server, or else the type of the error. *)
Theorem minio_classification (r : eref) (Hr : renderable r) :
  let code := s3ErrorCode (Some r) in
  let timeout := errors_Is σ ans depth (Some r) DeadlineExceeded in
  let canceled := errors_Is σ ans depth (Some r) Canceled in
  ∃ kind, minioErrorKind (Some r) = Some kind ∧ kind ∈ minio_kinds
  ∧ (kind = #"client_timeout" ↔ timeout = true)
  ∧ (kind = #"client_canceled" ↔ timeout = false ∧ canceled = true)
  ∧ (timeout = false → canceled = false →
      (kind = #"not_found" ↔ code ∈ [ #"NoSuchKey"; #"NoSuchBucket"])
      ∧ (kind = #"access_denied" ↔ code ∈ [ #"AccessDenied"; #"InvalidAccessKeyId"; #"SignatureDoesNotMatch"])
      ∧ (kind = #"precondition" ↔ code = #"PreconditionFailed")
      ∧ (kind = #"server_error" → code ≠ [] ∧ (500 ≤ s3StatusCode (Some r))%Z)
      ∧ errorType (Some r) = if bool_decide (code = []) then type_name (σ r) else code).
Proof.
  cbv zeta. destruct (isTLSError_some r Hr) as [tls Htls]. unfold minioErrorKind, errorType. rewrite Htls.
  set (code := s3ErrorCode (Some r)).
  destruct (errors_Is σ ans depth (Some r) DeadlineExceeded) eqn:Hd; cbn [negb]; [rewrite andb_false_r|rewrite andb_true_r];
    [exists #"client_timeout"; by kind_facts|].
  destruct (errors_Is σ ans depth (Some r) Canceled) eqn:Hc; [exists #"client_canceled"; by kind_facts|].
  case_bool_decide as H1; [exists #"not_found"; by kind_facts|].
  case_bool_decide as H2; [exists #"access_denied"; by kind_facts|].
  case_bool_decide as H3; [exists #"precondition"; by kind_facts|].
  case_bool_decide as H4; [exists #"throttled"; by kind_facts|].
  destruct (s3StatusCode (Some r) =? 503)%Z; [exists #"throttled"; by kind_facts|]. cbn [mbind option_bind].
  destruct tls; [exists #"transport"; by kind_facts|]. destruct (isTransportError r); [exists #"transport"; by kind_facts|].
  case_bool_decide as H5; cbn [negb]; [exists #"unknown"; by kind_facts|]. cbn [andb].
  destruct (Z.leb_spec 500 (s3StatusCode (Some r))); [exists #"server_error"; by kind_facts|exists #"unknown"; by kind_facts].
Qed.
End errors.

(** * Options *)
Record config := {
  httpChildSpans : bool; objectKeyAttribute : bool; awsS3CompatAliases : bool; spanNameFormatter : option (bytes → bytes → bytes → bytes);
}.
Inductive Option_ := WithHTTPChildSpans (enabled : bool) | WithObjectKeyAttribute (enabled : bool) | WithAWSS3CompatAttributes (enabled : bool)
  | WithSpanNameFormatter (f : option (bytes → bytes → bytes → bytes)).
Definition apply_option (c : config) (o : Option_) : config :=
  {| httpChildSpans := match o with WithHTTPChildSpans b => b | _ => httpChildSpans c end;
     objectKeyAttribute := match o with WithObjectKeyAttribute b => b | _ => objectKeyAttribute c end;
     awsS3CompatAliases := match o with WithAWSS3CompatAttributes b => b | _ => awsS3CompatAliases c end;
     spanNameFormatter := match o with WithSpanNameFormatter f => f | _ => spanNameFormatter c end |}.
Definition newConfig (opts : list (option Option_)) : config :=
  foldl (λ c o, match o with Some o => apply_option c o | None => c end)
    {| httpChildSpans := false; objectKeyAttribute := true; awsS3CompatAliases := false; spanNameFormatter := None |} opts.
Definition objectStoreSystemNameKey : bytes := #"object_store.system.name".
Definition objectStoreOperationNameKey : bytes := #"object_store.operation.name".
Definition objectStoreBucketNameKey : bytes := #"object_store.bucket.name".
Definition objectStoreObjectKeyKey : bytes := #"object_store.object.key".
Definition objectStoreObjectSizeKey : bytes := #"object_store.object.size".
Definition minioErrorKindKey : bytes := #"minio.error.kind".
Definition AWSS3BucketKey : bytes := #"aws.s3.bucket".
Definition AWSS3KeyKey : bytes := #"aws.s3.key".
Definition objectStoreSystemNameS3 : bytes := #"s3".
Definition defaultSpanName (operation bucket : bytes) : bytes :=
  if bool_decide (bucket = []) then objectStoreSystemNameS3 ++ #"." ++ operation
  else objectStoreSystemNameS3 ++ #"." ++ operation ++ #" " ++ bucket.

Definition splitHostPort (endpoint : bytes) (secure : bool) : bytes * Z :=
  if bool_decide (endpoint = []) then ([], 0%Z)
  else
    let defaultPort := if secure then 443%Z else 80%Z in
    match SplitHostPort endpoint with
    | None => (endpoint, defaultPort)
    | Some (host, portStr) => (host, default defaultPort (Atoi portStr))
    end.

(** * The client *)
Record Client := { cfg : config; serverAddress : bytes; serverPort : Z }.
(** New: [Options] are the fields it reads and sets; the driver's own errors are
    texts. What it calls the driver with, and the result. *)
Section new.
Context {Transport MC Options : Type} (opt_Transport : Options → option Transport) (Secure : Options → bool) (with_Transport : Options → Transport → Options).
Context (DefaultTransport : bool → bytes + Transport) (NewTransport : Transport → Transport) (miniogo_New : bytes → Options → bytes + MC).
Definition child_spans (localOpts : Options) : bytes + Options :=
  match opt_Transport localOpts with
  | Some base => inr (with_Transport localOpts (NewTransport base))
  | None => match DefaultTransport (Secure localOpts) with
            | inl err => inl ( #"minio new: build default transport: " ++ err)
            | inr base => inr (with_Transport localOpts (NewTransport base))
            end
  end.
Definition New (endpoint : bytes) (minioOpts : option Options) (opts : list (option Option_)) : list (bytes * Options) * (bytes + MC * Client) :=
  if bool_decide (endpoint = []) then ([], inl #"minio new: endpoint must not be empty")
  else match minioOpts with
  | None => ([], inl #"minio new: options must not be nil")
  | Some minioOpts =>
    let c := newConfig opts in
    match (if httpChildSpans c then child_spans minioOpts else inr minioOpts) with
    | inl err => ([], inl err)
    | inr localOpts =>
      ([(endpoint, localOpts)],
       match miniogo_New endpoint localOpts with
       | inl err => inl ( #"minio new: " ++ err)
       | inr mc => let '(host, port) := splitHostPort endpoint (Secure localOpts) in
                   inr (mc, {| cfg := c; serverAddress := host; serverPort := port |})
       end)
    end
  end.
End new.

(** * Operations *)
(** The context the driver gets: the caller's, or that of the span. *)
Inductive driver_ctx := CallerCtx | SpanCtx.
Inductive call :=
  | StartSpan (name : bytes) (kvs : list KeyValue)
  | Driver (operation : bytes) (ctx : driver_ctx)
  | SetAttributes (kvs : list KeyValue)
  | RecordError (e : eref)
  | SetStatus (description : bytes)
  | RecordDuration (nanoseconds : Z) (kvs : list KeyValue)
  | EndSpan
  | GoPanic.
Record op := { o_start : Z; operation : bytes; bucket : bytes }.

Section ops.
Context `{U : GoUnicode} (σ : error_store) (ans : error_answers) (depth : nat) (Code : eref → bytes) (StatusCode : eref → Z) (c : Client).
Definition server_kvs : list KeyValue :=
  (if bool_decide (serverAddress c = []) then [] else [(ServerAddressKey, StringValue (serverAddress c))])
  ++ (if (0 <? serverPort c)%Z then [(ServerPortKey, IntValue (serverPort c))] else []).
Definition begin_attrs (operation bucket key : bytes) (size : Z) : list KeyValue :=
  [(objectStoreSystemNameKey, StringValue objectStoreSystemNameS3); (objectStoreOperationNameKey, StringValue operation)]
  ++ (if bool_decide (bucket = []) then []
      else [(objectStoreBucketNameKey, StringValue bucket)] ++ if awsS3CompatAliases (cfg c) then [(AWSS3BucketKey, StringValue bucket)] else [])
  ++ (if negb (bool_decide (key = [])) && objectKeyAttribute (cfg c)
      then [(objectStoreObjectKeyKey, StringValue key)] ++ if awsS3CompatAliases (cfg c) then [(AWSS3KeyKey, StringValue key)] else [] else [])
  ++ (if (0 <=? size)%Z then [(objectStoreObjectSizeKey, IntValue size)] else [])
  ++ server_kvs.
Definition begin_ (operation_ bucket_ key : bytes) (size now : Z) : op * list call :=
  let name := defaultSpanName operation_ bucket_ in
  let name := match spanNameFormatter (cfg c) with
              | Some f => let custom := f operation_ bucket_ key in if bool_decide (custom = []) then name else custom
              | None => name
              end in
  ({| o_start := now; operation := operation_; bucket := bucket_ |}, [StartSpan name (begin_attrs operation_ bucket_ key size)]).
Definition metric_attrs (o : op) : list KeyValue :=
  [(objectStoreOperationNameKey, StringValue (operation o))]
  ++ (if bool_decide (bucket o = []) then [] else [(objectStoreBucketNameKey, StringValue (bucket o))]) ++ server_kvs.
Definition finish (o : op) (err : option eref) (now : Z) : list call :=
  let done_ labels := [RecordDuration (Sub now (o_start o)) (metric_attrs o ++ labels); EndSpan] in
  match err with
  | None => done_ []
  | Some r =>
    let errType := errorType σ ans depth Code err in
    match minioErrorKind σ ans depth Code StatusCode err with
    | None => [GoPanic]
    | Some kind =>
      [SetAttributes [(ErrorTypeKey, StringValue errType); (minioErrorKindKey, StringValue kind)]]
      ++ (let status := s3StatusCode σ ans depth StatusCode err in
          if (0 <? status)%Z then [SetAttributes [(HTTPResponseStatusCodeKey, IntValue status)]] else [])
      ++ match error_method (σ r) with
         | None => [GoPanic]
         | Some text => [RecordError r; SetStatus text] ++ done_ [(ErrorTypeKey, StringValue errType)]
         end
    end
  end.

(** The operations of the data plane; what the driver answers is its size, where
    it has one, and its error. *)
Definition size_attr (known : bool) (err : option eref) (size : Z) : list call :=
  match err with None => if known && (0 <=? size)%Z then [SetAttributes [(objectStoreObjectSizeKey, IntValue size)]] else [] | Some _ => [] end.
Definition PutObject (bucketName objectName : bytes) (objectSize info_Size : Z) (err : option eref) (now later : Z) : list call :=
  let '(o, calls) := begin_ #"PutObject" bucketName objectName objectSize now in
  calls ++ [Driver #"PutObject" SpanCtx] ++ size_attr (objectSize <? 0)%Z err info_Size ++ finish o err later.
Definition FPutObject (bucketName objectName : bytes) (info_Size : Z) (err : option eref) (now later : Z) : list call :=
  let '(o, calls) := begin_ #"FPutObject" bucketName objectName (-1) now in
  calls ++ [Driver #"FPutObject" SpanCtx] ++ size_attr true err info_Size ++ finish o err later.
Definition FGetObject (bucketName objectName : bytes) (err : option eref) (now later : Z) : list call :=
  let '(o, calls) := begin_ #"FGetObject" bucketName objectName (-1) now in
  calls ++ [Driver #"FGetObject" SpanCtx] ++ finish o err later.
Definition GetObject (bucketName objectName : bytes) (err : option eref) (now later : Z) : list call :=
  let '(o, calls) := begin_ #"GetObject" bucketName objectName (-1) now in
  calls ++ [Driver #"GetObject" CallerCtx] ++ finish o err later.
Definition StatObject (bucketName objectName : bytes) (info_Size : Z) (err : option eref) (now later : Z) : list call :=
  let '(o, calls) := begin_ #"StatObject" bucketName objectName (-1) now in
  calls ++ [Driver #"StatObject" SpanCtx] ++ size_attr true err info_Size ++ finish o err later.
Definition RemoveObject (bucketName objectName : bytes) (err : option eref) (now later : Z) : list call :=
  let '(o, calls) := begin_ #"RemoveObject" bucketName objectName (-1) now in
  calls ++ [Driver #"RemoveObject" SpanCtx] ++ finish o err later.
Definition CopyObject (dst_Bucket dst_Object : bytes) (err : option eref) (now later : Z) : list call :=
  let '(o, calls) := begin_ #"CopyObject" dst_Bucket dst_Object (-1) now in
  calls ++ [Driver #"CopyObject" SpanCtx] ++ finish o err later.

(** * What an operation does *)
(** The operations, with the bucket, the key and the size that is known of them:
    the size given, or the one the driver answers when it succeeds. *)
Definition answered (err : option eref) (size : Z) : Z := match err with None => size | Some _ => (-1)%Z end.
Inductive operation_of : bytes → bytes → bytes → Z → option eref → list call → Prop :=
  | of_put b k size info err t t' :
      operation_of #"PutObject" b k (if (size <? 0)%Z then answered err info else size) err (PutObject b k size info err t t')
  | of_fput b k info err t t' : operation_of #"FPutObject" b k (answered err info) err (FPutObject b k info err t t')
  | of_fget b k err t t' : operation_of #"FGetObject" b k (-1) err (FGetObject b k err t t')
  | of_get b k err t t' : operation_of #"GetObject" b k (-1) err (GetObject b k err t t')
  | of_stat b k info err t t' : operation_of #"StatObject" b k (answered err info) err (StatObject b k info err t t')
  | of_remove b k err t t' : operation_of #"RemoveObject" b k (-1) err (RemoveObject b k err t t')
  | of_copy b k err t t' : operation_of #"CopyObject" b k (-1) err (CopyObject b k err t t').

(** What is written on a span by calls. *)
Definition written (calls : list call) : list KeyValue :=
  calls ≫= λ c, match c with StartSpan _ kvs | SetAttributes kvs => kvs | _ => [] end.
Definition writes (c : call) : Prop := match c with SetAttributes _ | RecordError _ | SetStatus _ => True | _ => False end.
Definition label_keys : list bytes := [objectStoreOperationNameKey; objectStoreBucketNameKey; ServerAddressKey; ServerPortKey; ErrorTypeKey].
Definition renders (err : option eref) : Prop := ∀ r, err = Some r → renderable σ ans depth r.

Lemma server_kvs_keys : server_kvs.*1 ⊆ [ServerAddressKey; ServerPortKey].
Proof. unfold server_kvs. destruct (bool_decide _), (_ <? _)%Z; cbn [fmap list_fmap fst app]; set_solver. Qed.
Lemma minioErrorKind_some err : renders err → is_Some (minioErrorKind σ ans depth Code StatusCode err).
Proof.
  intros Hr. destruct err as [r|]; [|by eexists]. unfold minioErrorKind. destruct (isTLSError_some σ ans depth r (Hr r eq_refl)) as [tls ->].
  cbn [mbind option_bind]. repeat case_match; by eexists.
Qed.
Lemma metric_attrs_keys o labels : labels.*1 ⊆ [ErrorTypeKey] → (metric_attrs o ++ labels).*1 ⊆ label_keys.
Proof.
  intros Hl k. unfold metric_attrs, label_keys. rewrite !fmap_app, !elem_of_app. intros [[Hk|[Hk|Hk]]|Hk].
  - apply list_elem_of_singleton in Hk as ->. by left.
  - destruct (bool_decide (bucket o = [])); [by apply elem_of_nil in Hk|]. apply list_elem_of_singleton in Hk as ->. right; by left.
  - apply server_kvs_keys in Hk. do 2 right. apply elem_of_cons in Hk as [->|Hk]; [by left|]. apply list_elem_of_singleton in Hk as ->. right; by left.
  - apply Hl, list_elem_of_singleton in Hk as ->. by do 4 right; left.
Qed.

(** How an operation ends. *)
Lemma finish_shape o err later : renders err → ∃ mid labels,
  finish o err later = mid ++ [RecordDuration (Sub later (o_start o)) labels; EndSpan] ∧ Forall writes mid
  ∧ objectStoreObjectSizeKey ∉ (written mid).*1 ∧ labels.*1 ⊆ label_keys
  ∧ (∀ r, RecordError r ∈ mid ↔ err = Some r)
  ∧ value_of ErrorTypeKey labels = StringValue <$> ((λ _, errorType σ ans depth Code err) <$> err).
Proof.
  intros Hr. unfold finish. destruct err as [r|].
  - destruct (minioErrorKind_some (Some r) Hr) as [kind ->]. destruct (Hr r eq_refl) as [[text Ht] _]. rewrite Ht.
    set (errType := errorType σ ans depth Code (Some r)). set (status := s3StatusCode σ ans depth StatusCode (Some r)).
    exists ([SetAttributes [(ErrorTypeKey, StringValue errType); (minioErrorKindKey, StringValue kind)]]
      ++ (if (0 <? status)%Z then [SetAttributes [(HTTPResponseStatusCodeKey, IntValue status)]] else []) ++ [RecordError r; SetStatus text]),
      (metric_attrs o ++ [(ErrorTypeKey, StringValue errType)]).
    split; [rewrite <- !app_assoc; reflexivity|].
    split_and!.
    + apply Forall_app. split; [by repeat constructor|]. apply Forall_app. split; [destruct (_ <? _)%Z|]; by repeat constructor.
    + unfold written. rewrite !bind_app, !fmap_app, !not_elem_of_app. destruct (_ <? _)%Z; split_and!; by apply (bool_decide_unpack (_ ∉ _)).
    + apply metric_attrs_keys. cbn [fmap list_fmap fst]. done.
    + intros r'. rewrite !elem_of_app, !elem_of_cons, elem_of_nil. destruct (_ <? _)%Z; rewrite ?elem_of_cons, ?elem_of_nil; naive_solver.
    + rewrite value_of_app. cbn. unfold value_of. cbn. done.
  - exists [], (metric_attrs o ++ []). split; [reflexivity|].
    split_and!; [apply Forall_nil_2|change (objectStoreObjectSizeKey ∉ ([] : list bytes)); intros Hin; by apply elem_of_nil in Hin|apply metric_attrs_keys; intros k Hk; by apply elem_of_nil in Hk|intros r; split; [by intros ?%elem_of_nil|done]|].
    change (value_of ErrorTypeKey (metric_attrs o ++ []) = None). rewrite app_nil_r. apply value_of_None.
    unfold metric_attrs. rewrite !fmap_app, !not_elem_of_app. split_and!.
    + by apply (bool_decide_unpack (_ ∉ _)).
    + destruct (bool_decide (bucket o = [])); by apply (bool_decide_unpack (_ ∉ _)).
    + intros Hin%server_kvs_keys. by apply (bool_decide_unpack (_ ∉ [ServerAddressKey; ServerPortKey])) in Hin.
Qed.

Lemma value_skip key (l k : list KeyValue) : key ∉ l.*1 → value_of key (l ++ k) = value_of key k.
Proof. intros H%value_of_None. rewrite value_of_app, H. by destruct (value_of key k). Qed.
Lemma value_end key (l k : list KeyValue) : key ∉ k.*1 → value_of key (l ++ k) = value_of key l.
Proof. intros H%value_of_None. by rewrite value_of_app, H. Qed.
Lemma server_kvs_no key : key ≠ ServerAddressKey → key ≠ ServerPortKey → key ∉ server_kvs.*1.
Proof. intros H1 H2 Hin%server_kvs_keys. apply elem_of_cons in Hin as [?|?%list_elem_of_singleton]; done. Qed.
Lemma begin_size operation_ bucket_ key size :
  value_of objectStoreObjectSizeKey (begin_attrs operation_ bucket_ key size) = if (0 <=? size)%Z then Some (IntValue size) else None.
Proof.
  unfold begin_attrs. rewrite value_skip by by apply (bool_decide_unpack (_ ∉ _)).
  rewrite value_skip. 2: { destruct (bool_decide _), (awsS3CompatAliases (cfg c)); by apply (bool_decide_unpack (_ ∉ _)). }
  rewrite value_skip. 2: { destruct (negb _), (objectKeyAttribute (cfg c)), (awsS3CompatAliases (cfg c)); by apply (bool_decide_unpack (_ ∉ _)). }
  rewrite value_end by by apply server_kvs_no. by destruct (0 <=? size)%Z.
Qed.
Lemma begin_key operation_ bucket_ key size :
  objectStoreObjectKeyKey ∈ (begin_attrs operation_ bucket_ key size).*1 ↔ key ≠ [] ∧ objectKeyAttribute (cfg c) = true.
Proof.
  assert (Hv : value_of objectStoreObjectKeyKey (begin_attrs operation_ bucket_ key size)
    = if negb (bool_decide (key = [])) && objectKeyAttribute (cfg c) then Some (StringValue key) else None).
  { unfold begin_attrs. rewrite value_skip by by apply (bool_decide_unpack (_ ∉ _)).
    rewrite value_skip. 2: { destruct (bool_decide _), (awsS3CompatAliases (cfg c)); by apply (bool_decide_unpack (_ ∉ _)). }
    rewrite value_end. 2: { rewrite fmap_app, not_elem_of_app. split; [destruct (_ <=? _)%Z; by apply (bool_decide_unpack (_ ∉ _))|by apply server_kvs_no]. }
    by destruct (negb _), (objectKeyAttribute (cfg c)), (awsS3CompatAliases (cfg c)). }
  destruct (decide (objectStoreObjectKeyKey ∈ (begin_attrs operation_ bucket_ key size).*1)) as [Hin|Hni].
  - split; [intros _|done]. apply dec_stable. intros Hn. apply (proj1 (value_of_None _ _)) in Hin; [done|]. rewrite Hv.
    case_bool_decide; [done|]. destruct (objectKeyAttribute (cfg c)); [by destruct Hn|done].
  - split; [done|]. intros [Hk Ho]. exfalso. apply value_of_None in Hni. by rewrite Hv, bool_decide_false, Ho in Hni.
Qed.

(** The calls of an operation: its span and the driver, then what is written, then
    the one duration and the end. *)
Lemma operation_shape (name b k : bytes) (size bsize info : Z) (known : bool) (err : option eref) (t t' : Z) (dctx : driver_ctx) : renders err →
  size = (if (0 <=? bsize)%Z then bsize else if known then answered err info else (-1)%Z) → known = false ∨ (bsize < 0)%Z →
  ∃ spanName attrs labels,
    (begin_ name b k bsize t).2 ++ [Driver name dctx] ++ size_attr known err info ++ finish (begin_ name b k bsize t).1 err t'
    = [StartSpan spanName (begin_attrs name b k bsize); Driver name dctx] ++ attrs ++ [RecordDuration (Sub t' t) labels; EndSpan]
    ∧ Forall writes attrs ∧ labels.*1 ⊆ label_keys
    ∧ value_of objectStoreObjectSizeKey (begin_attrs name b k bsize ++ written attrs) = (if (0 <=? size)%Z then Some (IntValue size) else None)
    ∧ (∀ r, RecordError r ∈ attrs ↔ err = Some r)
    ∧ value_of ErrorTypeKey labels = StringValue <$> ((λ _, errorType σ ans depth Code err) <$> err).
Proof.
  intros Hr Hsize Hk. destruct (finish_shape (begin_ name b k bsize t).1 err t' Hr) as (mid & labels & -> & Hw & Hs & Hl & He & Ht).
  assert (Hsz : size_attr known err info = [] ∧ (size < 0 ∨ size = bsize)%Z ∨ size_attr known err info = [SetAttributes [(objectStoreObjectSizeKey, IntValue info)]] ∧ size = info ∧ (0 <= size)%Z).
  { unfold size_attr, answered in *. destruct err, known, (Z.leb_spec 0 bsize), (Z.leb_spec 0 info); cbn; subst size; try (destruct Hk; [done|lia]); first [left; split; [done|lia]|right; split; [done|lia]]. }
  eexists _, (size_attr known err info ++ mid), labels. split; [cbn [begin_ snd fst o_start]; rewrite <- !app_assoc; reflexivity|].
  split_and!.
  - apply Forall_app. split; [|exact Hw]. by destruct Hsz as [[-> _]|[-> _]]; repeat constructor.
  - exact Hl.
  - unfold written in *. rewrite bind_app, app_assoc, value_end by exact Hs. rewrite value_of_app, begin_size.
    destruct Hsz as [[-> Hc]|(-> & -> & Hc)]; cbn [mbind list_bind app].
    + change (value_of objectStoreObjectSizeKey []) with (@None attr_value). destruct (Z.leb_spec 0 bsize), (Z.leb_spec 0 size); destruct Hc as [Hc| ->]; try done; lia.
    + destruct (Z.leb_spec 0 info); [done|lia].
  - intros r. rewrite elem_of_app, He. split; [intros [Hin|?]; [|done]|by right]. destruct Hsz as [[Hz _]|[Hz _]]; rewrite Hz in Hin;
      [by apply elem_of_nil in Hin|by apply list_elem_of_singleton in Hin].
  - exact Ht.
Qed.

(** What an operation emits. Each has one span, around the one call of the
    driver, one duration just before the span ends, and between them only writes on
    the span. The driver gets the context of the span, but for GetObject, whose
    object outlives it. The span has the size that is known, the caller's or the one
    answered on success, and no other, and the object's key only where it was not
    turned off; a failure is recorded once, and its type labels the duration, whose
    labels are of a fixed set in which the key is not. *)
Theorem minio_operation (name b k : bytes) (size : Z) (err : option eref) (calls : list call)
    (Hop : operation_of name b k size err calls) (Hr : renders err) :
  ∃ spanName kvs attrs d labels,
    calls = [StartSpan spanName kvs; Driver name (if bool_decide (name = #"GetObject") then CallerCtx else SpanCtx)] ++ attrs
            ++ [RecordDuration d labels; EndSpan]
    ∧ Forall writes attrs ∧ labels.*1 ⊆ label_keys
    ∧ value_of objectStoreObjectSizeKey (kvs ++ written attrs) = (if (0 <=? size)%Z then Some (IntValue size) else None)
    ∧ (objectStoreObjectKeyKey ∈ kvs.*1 ↔ k ≠ [] ∧ objectKeyAttribute (cfg c) = true)
    ∧ (∀ r, RecordError r ∈ attrs ↔ err = Some r)
    ∧ value_of ErrorTypeKey labels = StringValue <$> ((λ _, errorType σ ans depth Code err) <$> err).
Proof.
  assert (Hgen : ∀ (bsize info : Z) (known : bool) (t t' : Z) (dctx : driver_ctx),
    size = (if (0 <=? bsize)%Z then bsize else if known then answered err info else (-1)%Z) → known = false ∨ (bsize < 0)%Z →
    dctx = (if bool_decide (name = #"GetObject") then CallerCtx else SpanCtx) →
    calls = (begin_ name b k bsize t).2 ++ [Driver name dctx] ++ size_attr known err info ++ finish (begin_ name b k bsize t).1 err t' →
    ∃ spanName kvs attrs d labels,
      calls = [StartSpan spanName kvs; Driver name (if bool_decide (name = #"GetObject") then CallerCtx else SpanCtx)] ++ attrs
              ++ [RecordDuration d labels; EndSpan]
      ∧ Forall writes attrs ∧ labels.*1 ⊆ label_keys
      ∧ value_of objectStoreObjectSizeKey (kvs ++ written attrs) = (if (0 <=? size)%Z then Some (IntValue size) else None)
      ∧ (objectStoreObjectKeyKey ∈ kvs.*1 ↔ k ≠ [] ∧ objectKeyAttribute (cfg c) = true)
      ∧ (∀ r, RecordError r ∈ attrs ↔ err = Some r)
      ∧ value_of ErrorTypeKey labels = StringValue <$> ((λ _, errorType σ ans depth Code err) <$> err)).
  { intros bsize info known t t' dctx Hs Hk -> ->.
    destruct (operation_shape name b k size bsize info known err t t' (if bool_decide (name = #"GetObject") then CallerCtx else SpanCtx) Hr Hs Hk)
      as (spanName & attrs & labels & E & H). exists spanName, (begin_attrs name b k bsize), attrs, (Sub t' t), labels.
    split; [exact E|]. destruct H as (H1 & H2 & H3 & H4 & H5). split_and!; try done; apply begin_key. }
  assert (Hnone : size_attr false err 0 = []) by by destruct err.
  destruct Hop as [b k osize info err t t'|b k info err t t'|b k err t t'|b k err t t'|b k info err t t'|b k err t t'|b k err t t'].
  - apply (Hgen osize info (osize <? 0)%Z t t' SpanCtx); [|by destruct (Z.ltb_spec osize 0); [right|left]|done|done].
    destruct (Z.ltb_spec osize 0), (Z.leb_spec 0 osize); try done; lia.
  - by apply (Hgen (-1)%Z info true t t' SpanCtx); [|right| |].
  - apply (Hgen (-1)%Z 0%Z false t t' SpanCtx); [done|by left|done|by rewrite Hnone].
  - apply (Hgen (-1)%Z 0%Z false t t' CallerCtx); [done|by left|done|by rewrite Hnone].
  - by apply (Hgen (-1)%Z info true t t' SpanCtx); [|right| |].
  - apply (Hgen (-1)%Z 0%Z false t t' SpanCtx); [done|by left|done|by rewrite Hnone].
  - apply (Hgen (-1)%Z 0%Z false t t' SpanCtx); [done|by left|done|by rewrite Hnone].
Qed.
End ops.

(** * Samples *)
Definition denied_error : error_value :=
  {| type_name := ErrorResponse; nil_pointer := false; url_error := None; error_method := Some #"Access Denied."; unwrap_methods := NoUnwrap |}.
Definition sample_answers : error_answers :=
  {| answers_is := λ _ _, false; answers_as := λ r t, if bool_decide (t = ErrorResponse) then Some r else None; OpError_Err := λ _, None |}.
Definition sample_Code (_ : eref) : bytes := #"AccessDenied".
Definition sample_client : Client := {| cfg := newConfig [Some (WithObjectKeyAttribute false)]; serverAddress := #"minio"; serverPort := 9000 |}.
#[local] Existing Instance ascii_unicode.
Lemma denied_renders : renderable (λ _, denied_error) sample_answers 4 1%positive.
Proof. split; [by eexists|]. intros op inner H. by vm_compute in H. Qed.

Lemma minio_classification_witness : ∃ kind, minioErrorKind (λ _, denied_error) sample_answers 4 sample_Code (λ _, 403%Z) (Some 1%positive) = Some kind
  ∧ kind = #"access_denied".
Proof.
  destruct (minio_classification (λ _, denied_error) sample_answers 4 sample_Code (λ _, 403%Z) 1%positive denied_renders) as (kind & Hk & _ & _ & _ & H).
  exists kind. split; [exact Hk|]. apply H; [by vm_compute|by vm_compute|]. by apply (bool_decide_unpack (_ ∈ _)).
Defined.

Lemma minio_operation_witness :
  let calls := StatObject (λ _, denied_error) sample_answers 4 sample_Code (λ _, 403%Z) sample_client #"media" #"a.png" 7 (Some 1%positive) 0 5 in
  length calls = 8 ∧ ∃ spanName kvs attrs d labels, calls = [StartSpan spanName kvs; Driver #"StatObject" SpanCtx] ++ attrs ++ [RecordDuration d labels; EndSpan]
    ∧ labels.*1 ⊆ label_keys ∧ value_of objectStoreObjectSizeKey (kvs ++ written attrs) = None.
Proof.
  split; [by vm_compute|].
  destruct (minio_operation (λ _, denied_error) sample_answers 4 sample_Code (λ _, 403%Z) sample_client #"StatObject" #"media" #"a.png" (-1) (Some 1%positive)
    (StatObject (λ _, denied_error) sample_answers 4 sample_Code (λ _, 403%Z) sample_client #"media" #"a.png" 7 (Some 1%positive) 0 5))
    as (spanName & kvs & attrs & d & labels & E & _ & Hl & Hs & _).
  - apply (of_stat _ _ _ _ _ _ #"media" #"a.png" 7 (Some 1%positive)).
  - intros r [= <-]. exact denied_renders.
  - exists spanName, kvs, attrs, d, labels. split_and!; [exact E|exact Hl|exact Hs].
Defined.
