(* ===== verification/MinioList.v ===== *)
(** minio/client.go: ListObjects. Its goroutine hands the entries of the driver's
    listing over an unbuffered channel, keeps the first error they carry, drains
    the listing when the context of the span is done while an entry is offered, and
    ends the span before it closes the channel. The goroutine, the driver and the
    caller are the parties of a step relation; the span is that of [Minio]. *)
From S2P Require Import Prelude Utf8 GoStrings GoCodec GoNum GoFields SampleLib RedactDecode RedactText RedactError GoUrl Attribute Semconv Minio.

Section listing.
(** [Info] is the driver's ObjectInfo, [Err] its error. *)
Context `{U : GoUnicode} (σ : error_store) (ans : error_answers) (depth : nat) (Code : eref → bytes) (StatusCode : eref → Z) (c : Client).
Context {Info : Type} (Err : Info → option eref) (bucketName : bytes) (start : Z).

(** Where the goroutine is: at the range over the listing, at the select with an
    entry, in drainListChannel, at finish, at the deferred close, or gone. *)
Inductive lister := Ranging | Offering (i : Info) | Draining | Finishing | Closing | Gone.
Record state := {
  listing : list Info; listing_closed : bool; ctx_Err : option eref;
  goroutine : lister; firstErr : option eref; out_closed : bool; panicked : bool;
  span : list call;
  (** What has happened: what the driver listed, what the loop and the drain took
      from it, and what the caller has. *)
  listed : list Info; ranged : list Info; drained : list Info; got : list Info;
}.
Definition opened : list call := (begin_ c #"ListObjects" bucketName [] (-1) start).2 ++ [Driver #"ListObjects" SpanCtx].
Definition closing_calls (err : option eref) (now : Z) : list call :=
  finish σ ans depth Code StatusCode c (begin_ c #"ListObjects" bucketName [] (-1) start).1 err now.
Definition ListObjects (ctx : option eref) : state :=
  {| listing := []; listing_closed := false; ctx_Err := ctx; goroutine := Ranging; firstErr := None; out_closed := false;
     panicked := false; span := opened; listed := []; ranged := []; drained := []; got := [] |}.

Definition moved (s : state) (g : lister) (rest : list Info) (err : option eref) (range drain read : list Info) : state :=
  {| listing := rest; listing_closed := listing_closed s; ctx_Err := ctx_Err s; goroutine := g; firstErr := err;
     out_closed := out_closed s; panicked := panicked s; span := span s; listed := listed s; ranged := range; drained := drain; got := read |}.
Definition keep_first (err new : option eref) : option eref := match err with None => new | Some _ => err end.

Inductive list_step : state → state → Prop :=
  | ls_take s i rest : goroutine s = Ranging → listing s = i :: rest →
      list_step s (moved s (Offering i) rest (keep_first (firstErr s) (Err i)) (ranged s ++ [i]) (drained s) (got s))
  | ls_ended s : goroutine s = Ranging → listing s = [] → listing_closed s = true →
      list_step s (moved s Finishing [] (firstErr s) (ranged s) (drained s) (got s))
  | ls_done s i e : goroutine s = Offering i → ctx_Err s = Some e →
      list_step s (moved s Draining (listing s) (firstErr s) (ranged s) (drained s) (got s))
  | ls_drain s i rest : goroutine s = Draining → listing s = i :: rest →
      list_step s (moved s Draining rest (firstErr s) (ranged s) (drained s ++ [i]) (got s))
  | ls_drained s : goroutine s = Draining → listing s = [] → listing_closed s = true →
      list_step s (moved s Ranging [] (keep_first (firstErr s) (ctx_Err s)) (ranged s) (drained s) (got s))
  | ls_finish s now : goroutine s = Finishing →
      list_step s
        {| listing := listing s; listing_closed := listing_closed s; ctx_Err := ctx_Err s; goroutine := Closing; firstErr := firstErr s;
           out_closed := out_closed s; panicked := panicked s; span := span s ++ closing_calls (firstErr s) now;
           listed := listed s; ranged := ranged s; drained := drained s; got := got s |}
  | ls_close s : goroutine s = Closing →
      list_step s
        {| listing := listing s; listing_closed := listing_closed s; ctx_Err := ctx_Err s; goroutine := Gone; firstErr := firstErr s;
           out_closed := true; panicked := panicked s || out_closed s; span := span s;
           listed := listed s; ranged := ranged s; drained := drained s; got := got s |}.
(** The caller receives the entry that is offered. *)
Inductive receiving : state → state → Prop :=
  | rc_take s i : goroutine s = Offering i →
      receiving s
        {| listing := listing s; listing_closed := listing_closed s; ctx_Err := ctx_Err s; goroutine := Ranging; firstErr := firstErr s;
           out_closed := out_closed s; panicked := panicked s || out_closed s; span := span s;
           listed := listed s; ranged := ranged s; drained := drained s; got := got s ++ [i] |}.
(** The driver lists an entry or ends; the context of the span ends, once. *)
Definition with_driver (s : state) (l : list Info) (closed : bool) (ctx : option eref) (all : list Info) : state :=
  {| listing := l; listing_closed := closed; ctx_Err := ctx; goroutine := goroutine s; firstErr := firstErr s;
     out_closed := out_closed s; panicked := panicked s; span := span s; listed := all; ranged := ranged s; drained := drained s; got := got s |}.
Inductive world : state → state → Prop :=
  | w_list s i : listing_closed s = false → world s (with_driver s (listing s ++ [i]) false (ctx_Err s) (listed s ++ [i]))
  | w_end s : world s (with_driver s (listing s) true (ctx_Err s) (listed s))
  | w_cancel s e : ctx_Err s = None → world s (with_driver s (listing s) (listing_closed s) (Some e) (listed s)).

Inductive party := Goroutine | Caller | World.
#[export] Instance party_eq_dec : EqDecision party.
Proof. solve_decision. Defined.
Definition step (p : party) : state → state → Prop :=
  match p with Goroutine => list_step | Caller => receiving | World => world end.
Inductive run : state → list party → state → Prop :=
  | run_nil s : run s [] s
  | run_step s p s1 ps s2 : step p s s1 → run s1 ps s2 → run s (p :: ps) s2.

(** * The invariant *)
(** The error of the first entry that has one. *)
Definition first_error (l : list Info) : option eref := head (omap Err l).
(** How the entries were dealt with: all were handed over, or the last one was
    offered when the context was done. *)
Definition handed (s : state) : Prop := got s = ranged s ∧ drained s = [] ∧ firstErr s = first_error (ranged s).
Definition given_up (s : state) : Prop := ∃ i e, ranged s = got s ++ [i] ∧ ctx_Err s = Some e
  ∧ firstErr s = Some (default e (first_error (ranged s))).
Definition ended (s : state) : Prop := listing s = [] ∧ listing_closed s = true.
Definition progress (s : state) : Prop :=
  match goroutine s with
  | Ranging => handed s ∨ ended s ∧ given_up s
  | Offering i => ranged s = got s ++ [i] ∧ drained s = [] ∧ firstErr s = first_error (ranged s)
  | Draining => (∃ i, ranged s = got s ++ [i]) ∧ is_Some (ctx_Err s) ∧ firstErr s = first_error (ranged s)
  | Finishing | Closing | Gone => ended s ∧ (handed s ∨ given_up s)
  end.
Definition is_over (g : lister) : bool := match g with Closing | Gone => true | _ => false end.
Record inv (s : state) : Prop := {
  inv_panic : panicked s = false;
  inv_closed : out_closed s = true ↔ goroutine s = Gone;
  inv_flow : listed s = ranged s ++ drained s ++ listing s;
  inv_span : if is_over (goroutine s) then ∃ now, span s = opened ++ closing_calls (firstErr s) now else span s = opened;
  inv_progress : progress s;
}.

Lemma ListObjects_inv ctx : inv (ListObjects ctx).
Proof. split; try done. by left. Qed.

Lemma first_error_snoc l i : first_error (l ++ [i]) = keep_first (first_error l) (Err i).
Proof.
  unfold first_error. rewrite omap_app. cbn. destruct (omap Err l) as [|e es]; [|done]. by destruct (Err i).
Qed.

Lemma list_step_inv s s' : inv s → list_step s s' → inv s'.
Proof.
  intros [Hp Hc Hf Hs Hg] Hstep. unfold progress in Hg.
  assert (Hopen : goroutine s ≠ Gone → out_closed s = false) by (intros H; destruct (out_closed s); [naive_solver|done]).
  destruct Hstep as [s i rest E Hl|s E Hl Hcl|s i e E He|s i rest E Hl|s E Hl Hcl|s now E|s E]; rewrite E in *; cbn in Hs.
  - split; try done; cbn; [rewrite Hopen by done; naive_solver|by rewrite Hf, Hl; destruct Hg as [(_ & -> & _)|[[? _] _]]; [rewrite <- app_assoc|congruence]|].
    destruct Hg as [(-> & Hd & ->)|[[? _] _]]; [|congruence]. by rewrite first_error_snoc.
  - split; try done; cbn; [rewrite Hopen by done; naive_solver|by rewrite Hf, Hl|].
    split; [done|]. destruct Hg as [Hg|[_ Hg]]; [by left|by right].
  - split; try done; cbn; [rewrite Hopen by done; naive_solver|]. destruct Hg as (Hr & _ & Hx). split_and!; [by exists i|by exists e|done].
  - split; try done; cbn. by rewrite Hf, Hl, <- app_assoc.
  - split; try done; cbn; [rewrite Hopen by done; naive_solver|by rewrite Hf, Hl|]. right. split; [done|].
    destruct Hg as ([i Hr] & [e He] & Hx). exists i, e. cbn. rewrite Hx, He. split_and!; [done|done|]. by destruct (first_error (ranged s)).
  - split; try done; cbn; [rewrite Hopen by done; naive_solver|]. exists now. by rewrite Hs.
  - split; try done; cbn. by rewrite Hp, Hopen.
Qed.
Lemma receiving_inv s s' : inv s → receiving s s' → inv s'.
Proof.
  intros [Hp Hc Hf Hs Hg] Hstep. unfold progress in Hg. destruct Hstep as [s i E]. rewrite E in *.
  assert (Hopen : out_closed s = false) by (destruct (out_closed s); naive_solver).
  split; try done; cbn; [by rewrite Hp, Hopen|by rewrite Hopen|]. left. destruct Hg as (Hr & Hd & Hx). by split_and!.
Qed.
Lemma world_progress s l closed ctx all : progress s → (ended s → ended (with_driver s l closed ctx all)) →
  (is_Some (ctx_Err s) → ctx = ctx_Err s) → progress (with_driver s l closed ctx all).
Proof.
  unfold progress. intros Hg He Hctx. change (goroutine (with_driver s l closed ctx all)) with (goroutine s).
  assert (Hgu : given_up s → given_up (with_driver s l closed ctx all)).
  { intros (i & e & Hr & Hc & Hf). exists i, e. split_and!; [done| |done]. cbn. rewrite <- Hc. apply Hctx. by exists e. }
  destruct (goroutine s); [destruct Hg as [Hg|[? ?]]; [by left|right; by split; [apply He|apply Hgu]]|done| |..].
  1: { destruct Hg as (Hi & Hc & Hf). split_and!; [done| |done]. cbn. by rewrite Hctx. }
  all: destruct Hg as [Hend Hg]; split; [by apply He|]; destruct Hg as [Hg|Hg]; [by left|right; by apply Hgu].
Qed.
Lemma world_inv s s' : inv s → world s s' → inv s'.
Proof.
  intros [Hp Hc Hf Hs Hg] Hstep. destruct Hstep as [s i Hcl|s|s e He]; (split; [done|done| |done|apply world_progress; [done|..]]).
  - cbn. by rewrite Hf, <- !app_assoc.
  - intros [_ ?]. congruence.
  - done.
  - done.
  - intros [? _]. by split.
  - done.
  - done.
  - intros [? ?]. by split.
  - rewrite He. by intros [? ?].
Qed.
Lemma listing_run_inv s ps s' : inv s → run s ps s' → inv s'.
Proof.
  intros Hi Hr. induction Hr as [|s p s1 ps s2 Hs _ IH]; [done|]. apply IH.
  destruct p; [by eapply list_step_inv|by eapply receiving_inv|by eapply world_inv].
Qed.
(** C22: what a listing reports. Whatever the interleaving of the driver, the caller, the
    goroutine and the context, the channel is closed once and nothing is sent on it
    afterwards, the caller has the entries in the order of the listing, and the span
    is open until the listing has ended. When the channel is closed the span has been
    ended, once, with one duration and labels of the fixed set; either the caller has
    every entry and the error recorded is the first of theirs, or the context was done
    while an entry was offered, and the error recorded is the first up to that entry,
    or else that of the context. *)
Theorem listing_reported (ctx : option eref) (ps : list party) (s : state)
    (Hrun : run (ListObjects ctx) ps s) (Hr : renders σ ans depth (firstErr s)) :
  panicked s = false
  ∧ (∃ rest, listed s = got s ++ rest)
  ∧ (listing_closed s = false → span s = opened)
  ∧ (out_closed s = true →
     (∃ mid d labels, span s = opened ++ mid ++ [RecordDuration d labels; EndSpan] ∧ Forall writes mid ∧ labels.*1 ⊆ label_keys
        ∧ (∀ r, RecordError r ∈ mid ↔ firstErr s = Some r))
     ∧ ((got s = listed s ∧ firstErr s = first_error (listed s))
        ∨ ∃ i rest e, listed s = got s ++ i :: rest ∧ ctx_Err s = Some e ∧ firstErr s = Some (default e (first_error (got s ++ [i]))))).
Proof.
  destruct (listing_run_inv _ _ _ (ListObjects_inv ctx) Hrun) as [Hp Hc Hf Hs Hg]. split_and!; [done| | |].
  - rewrite Hf. unfold progress, handed, given_up in Hg.
    assert (Hpre : ∃ more, ranged s = got s ++ more).
    { destruct (goroutine s); [destruct Hg as [[<- _]|[_ (i & e & -> & _)]]|destruct Hg as [-> _]|destruct Hg as [[i ->] _]|..];
        [by exists []; rewrite app_nil_r|by eexists..| | |]; destruct Hg as [_ [[<- _]|(i & e & -> & _)]];
        [by exists []; rewrite app_nil_r|by eexists|by exists []; rewrite app_nil_r|by eexists|by exists []; rewrite app_nil_r|by eexists]. }
    destruct Hpre as [more ->]. exists (more ++ drained s ++ listing s). by rewrite <- !app_assoc.
  - intros Hopen. unfold progress, ended in Hg. destruct (goroutine s); cbn in Hs; try done; destruct Hg as [[_ ?] _]; congruence.
  - intros Ho. apply Hc in Ho. unfold progress in Hg. rewrite Ho in Hg, Hs. cbn in Hs. destruct Hs as [now Hs]. destruct Hg as [[Hl _] Hg]. split.
    + destruct (finish_shape σ ans depth Code StatusCode c (begin_ c #"ListObjects" bucketName [] (-1) start).1 (firstErr s) now Hr)
        as (mid & labels & Hfin & Hw & _ & Hlb & Herr & _).
      exists mid, (Sub now start), labels. split_and!; [|done..]. rewrite Hs. unfold closing_calls. by rewrite Hfin.
    + rewrite Hl, app_nil_r in Hf. destruct Hg as [(Hgot & Hdr & Hx)|(i & e & Hrg & Hcx & Hx)].
      * left. rewrite Hf, Hdr, app_nil_r. by rewrite Hgot.
      * right. exists i, (drained s), e. rewrite Hf, Hx, Hrg, <- app_assoc. by split_and!.
Qed.

(** * Nothing is left behind *)
(** The steps the goroutine has left, its sends included, if nothing more is listed. *)
Definition steps_left (s : state) : nat :=
  3 * length (listing s)
  + match goroutine s with Offering _ => 5 | Draining => 4 | Ranging => 3 | Finishing => 2 | Closing => 1 | Gone => 0 end.
Definition steps_of (ps : list party) : nat := length (filter (λ p, p ≠ World) ps).
Lemma listing_step_decreases p s s' : step p s s' →
  match p with World => 0 | _ => 1 end + steps_left s' + 3 * length (listed s) ≤ steps_left s + 3 * length (listed s').
Proof.
  unfold steps_left. destruct p; cbn [step]; intros Hs.
  - destruct Hs as [s i rest E Hl|s E Hl Hcl|s i e E He|s i rest E Hl|s E Hl Hcl|s now E|s E]; cbn; rewrite ?E, ?Hl; cbn; lia.
  - destruct Hs as [s i E]. cbn. rewrite E. lia.
  - destruct Hs as [s i Hcl|s|s e He]; cbn; rewrite ?length_app; cbn; lia.
Qed.
Lemma listing_run_steps s ps s' : run s ps s' → steps_of ps + steps_left s' + 3 * length (listed s) ≤ steps_left s + 3 * length (listed s').
Proof.
  intros Hr. induction Hr as [s|s p s1 ps s2 Hs _ IH]; [by unfold steps_of|]. pose proof (listing_step_decreases p s s1 Hs) as H.
  unfold steps_of in *. rewrite filter_cons. destruct (decide (p ≠ World)) as [Hp|Hp], p; cbn [length]; try lia; by exfalso; auto.
Qed.

(** A listing leaves nothing behind. In any run the goroutine and the caller take at
    most three steps and three for each entry listed. The goroutine can always go on
    until it is gone, except for waiting for a driver that has not ended its listing,
    and, while the context lives, for the caller to take the entry it offers. *)
Theorem listing_terminates (ctx : option eref) (ps : list party) (s : state) (Hrun : run (ListObjects ctx) ps s) :
  steps_of ps ≤ 3 + 3 * length (listed s)
  ∧ (goroutine s = Gone ∨ (∃ s', list_step s s')
     ∨ ((goroutine s = Ranging ∨ goroutine s = Draining) ∧ listing s = [] ∧ listing_closed s = false)
     ∨ (∃ i, goroutine s = Offering i ∧ ctx_Err s = None ∧ ∃ s', receiving s s' ∧ got s' = got s ++ [i]))
  ∧ (goroutine s = Gone → out_closed s = true ∧ listing_closed s = true ∧ listing s = []).
Proof.
  pose proof (listing_run_inv _ _ _ (ListObjects_inv ctx) Hrun) as Hi. pose proof (listing_run_steps _ _ _ Hrun) as Hn. cbn in Hn. split; [lia|]. split.
  - destruct (goroutine s) as [|i| | | |] eqn:E.
    + right. destruct (listing s) as [|i rest] eqn:Hl; [|left; eexists; by eapply ls_take].
      destruct (listing_closed s) eqn:Hcl; [left; eexists; by apply ls_ended|right; left; by split; [left|]].
    + right. destruct (ctx_Err s) as [e|] eqn:He; [left; eexists; by eapply ls_done|]. right; right. exists i.
      split_and!; [done|done|]. eexists. split; [by apply rc_take|done].
    + right. destruct (listing s) as [|i rest] eqn:Hl; [|left; eexists; by eapply ls_drain].
      destruct (listing_closed s) eqn:Hcl; [left; eexists; by apply ls_drained|right; left; by split; [right|]].
    + right; left. eexists. by apply (ls_finish s 0%Z).
    + right; left. eexists. by apply ls_close.
    + by left.
  - destruct Hi as [_ Hc _ _ Hg]. intros Hgone. unfold progress in Hg. rewrite Hgone in Hg. destruct Hg as [[? ?] _]. split_and!; [by apply Hc|done|done].
Qed.

(** An abandoned listing, its context alive: the goroutine waits at the send. *)
Lemma abandoned_listing_waits s i : goroutine s = Offering i → ctx_Err s = None → ∀ s', ¬ list_step s s'.
Proof. intros Hg Hc s' Hs. destruct Hs; congruence. Qed.

#[local] Tactic Notation "list_by" uconstr(x) :=
  eapply run_step; [eapply x; reflexivity|]; cbn -[opened closing_calls keep_first].
(** Three entries: the first is received, the context ends while the second is offered,
    the third is drained. *)
Definition sample_list_parties : list party := [World; World; World; Goroutine; Caller; Goroutine; World; Goroutine; Goroutine; World; Goroutine; Goroutine; Goroutine; Goroutine].
Lemma sample_list_run i1 i2 i3 e : ∃ s, run (ListObjects None) sample_list_parties s
  ∧ got s = [i1] ∧ listed s = [i1; i2; i3] ∧ goroutine s = Gone ∧ out_closed s = true
  ∧ firstErr s = keep_first (keep_first (keep_first None (Err i1)) (Err i2)) (Some e).
Proof.
  eexists. split.
  - list_by (w_list _ i1). list_by (w_list _ i2). list_by (w_list _ i3). list_by ls_take. list_by rc_take. list_by ls_take. list_by (w_cancel _ e). list_by ls_done. 
    list_by ls_drain. list_by w_end. list_by ls_drained. list_by ls_ended. list_by (ls_finish _ 5%Z). list_by ls_close. apply run_nil.
  - done.
Qed.
End listing.

(** * Samples *)
#[local] Existing Instance ascii_unicode.
Lemma listing_reported_witness : ∃ (s : state (Info := option eref)) mid d labels, got s = [None] ∧ firstErr s = Some 1%positive
  ∧ span s = opened sample_client #"media" 0 ++ mid ++ [RecordDuration d labels; EndSpan].
Proof.
  destruct (sample_list_run (λ _, denied_error) sample_answers 4 sample_Code (λ _, 403%Z) sample_client (λ e : option eref, e) #"media" 0 None None (Some 2%positive) 1%positive) as (s & Hrun & Hg & Hl & _ & Ho & Hf). exists s.
  destruct (listing_reported (λ _, denied_error) sample_answers 4 sample_Code (λ _, 403%Z) sample_client (λ e : option eref, e) #"media" 0 None sample_list_parties s Hrun)
    as (_ & _ & _ & H).
  - intros r _. exact denied_renders.
  - destruct (H Ho) as [(mid & d & labels & Hs & _) _]. by exists mid, d, labels.
Defined.
Lemma listing_terminates_witness : ∃ s : state (Info := option eref), steps_of sample_list_parties ≤ 12 ∧ listing s = [] ∧ out_closed s = true.
Proof.
  destruct (sample_list_run (λ _, denied_error) sample_answers 4 sample_Code (λ _, 403%Z) sample_client (λ e : option eref, e) #"media" 0 None None (Some 2%positive) 1%positive) as (s & Hrun & Hg & Hl & Hgone & Ho & Hf). exists s.
  destruct (listing_terminates (λ _, denied_error) sample_answers 4 sample_Code (λ _, 403%Z) sample_client (λ e : option eref, e) #"media" 0 None sample_list_parties s Hrun)
    as (Hn & _ & Hend). rewrite Hl in Hn. split_and!; [exact Hn|by apply Hend|done].
Defined.
