(* ===== verification/Views.v ===== *)
(** internal/views, internal/metrics/metrics.go (defaultViews) and the views
    [o11y.Init] puts together: the histogram boundaries and the label keys of every
    instrument, by scope. A row of a table is the two arguments of sdkmetric.NewView;
    NewView and NewAllowKeysFilter are an interface. *)
From S2P Require Import Prelude Utf8 GoStrings Attribute Semconv MetricCap MetricRewrite MetricRules MetricViews.

(** * The scopes *)
Definition CassandraScope : bytes := #"github.com/flywindy/o11y/cassandra".
Definition ElasticsearchScope : bytes := #"github.com/flywindy/o11y/elasticsearch".
Definition MinioScope : bytes := #"github.com/flywindy/o11y/minio".
Definition MongoScope : bytes := #"github.com/flywindy/o11y/mongo".
Definition MongoContribScope : bytes := #"go.opentelemetry.io/contrib/instrumentation/go.mongodb.org/mongo-driver/v2/mongo/otelmongo".
Definition RedisScope : bytes := #"github.com/flywindy/o11y/redis".
Definition ObjectStoreOperationNameKey : bytes := #"object_store.operation.name".
Definition ObjectStoreBucketNameKey : bytes := #"object_store.bucket.name".

Section views.
Context {boundary value kept : Type}.
Abbreviation View := (@View boundary value kept).
Abbreviation Stream := (@Stream boundary value kept).
Abbreviation Aggregation := (@Aggregation boundary).

(** * NewView *)
(** What an instrument is asked for; what is not set matches anything. *)
Record criteria := { crit_Name : bytes; crit_Kind : option InstrumentKind; crit_Unit : bytes; crit_Scope : bytes }.
Definition unset_or {A} `{EqDecision A} (x : list A) (y : list A) : bool := bool_decide (x = []) || bool_decide (x = y).
Definition matches (c : criteria) (inst : Instrument) : bool :=
  unset_or (crit_Name c) (Name inst) && match crit_Kind c with Some k => bool_decide (k = Kind inst) | None => true end
  && unset_or (crit_Unit c) (Unit_ inst) && unset_or (crit_Scope c) (Scope inst).
(** A name without wildcards. *)
Definition plain (c : criteria) : bool :=
  negb (bool_decide (crit_Name c = [])) && bool_decide ("*"%char ∉ crit_Name c) && bool_decide ("?"%char ∉ crit_Name c).
Definition keep_or (x y : bytes) : bytes := if bool_decide (x = []) then y else x.
Definition masked (mask : Stream) (inst : Instrument) : Stream := {|
  StreamName := keep_or (StreamName mask) (Name inst); StreamDescription := keep_or (StreamDescription mask) (Description inst);
  StreamUnit := keep_or (StreamUnit mask) (Unit_ inst); StreamAggregation := StreamAggregation mask;
  AttributeFilter := AttributeFilter mask; ExemplarSelector := ExemplarSelector mask |}.

Class ViewApi := {
  NewView : criteria → Stream → View;
  NewAllowKeysFilter : list bytes → Filter;
  (** The boundaries a histogram may have; Init refuses any other. *)
  valid_boundaries : list boundary → bool;
}.
Definition valid_aggregation `{ViewApi} (agg : option Aggregation) : bool :=
  match agg with Some (AggregationExplicitBucketHistogram bounds _) => valid_boundaries bounds | _ => true end.
Class ViewApiLaws (A : ViewApi) := {
  NewView_spec c mask inst : plain c = true → valid_aggregation (StreamAggregation mask) = true →
    NewView c mask inst = if matches c inst then Some (masked mask inst) else None;
  NewAllowKeysFilter_spec keys kv : NewAllowKeysFilter keys kv = true ↔ kv.1 ∈ keys;
}.

(** A row: the criteria, and the aggregation, the keys allowed and the exemplar
    selector of the mask. *)
Record row := { on : criteria; aggregation : option Aggregation; allow : option (list bytes);
                exemplars : option (@ExemplarReservoirProviderSelector boundary value kept) }.
Definition mask_of `{ViewApi} (r : row) : Stream := {|
  StreamName := []; StreamDescription := []; StreamUnit := []; StreamAggregation := aggregation r;
  AttributeFilter := NewAllowKeysFilter <$> allow r; ExemplarSelector := exemplars r |}.
Definition registered `{ViewApi} (rows : list row) : list View := (λ r, NewView (on r) (mask_of r)) <$> rows.

(** * The tables *)
Section tables.
Context (histogramBuckets : list boundary).
Definition histogram : option Aggregation := Some (AggregationExplicitBucketHistogram histogramBuckets false).
(** sdkmetric.NewView(Instrument{Name, Scope}, Stream{Aggregation, AttributeFilter}). *)
Definition scoped (name scope : bytes) (agg : option Aggregation) (keys : list bytes) : row := {|
  on := {| crit_Name := name; crit_Kind := None; crit_Unit := []; crit_Scope := scope |};
  aggregation := agg; allow := Some keys; exemplars := None |}.
Definition dropped (name scope : bytes) : row := {|
  on := {| crit_Name := name; crit_Kind := None; crit_Unit := []; crit_Scope := scope |};
  aggregation := Some AggregationDrop; allow := None; exemplars := None |}.

Definition views_Cassandra : list row :=
  [scoped #"db.client.operation.duration" CassandraScope histogram
     [DBSystemNameKey; DBOperationNameKey; DBNamespaceKey; DBCollectionNameKey; ServerAddressKey; ServerPortKey; ErrorTypeKey];
   scoped #"db.client.connection.create_time" CassandraScope histogram
     [DBSystemNameKey; DBClientConnectionPoolNameKey; ServerAddressKey; ServerPortKey];
   scoped #"cassandra.query.attempts" CassandraScope None
     [DBSystemNameKey; DBOperationNameKey; DBNamespaceKey; DBCollectionNameKey; ServerAddressKey; ServerPortKey; ErrorTypeKey];
   scoped #"cassandra.connection.attempts" CassandraScope None
     [DBSystemNameKey; DBClientConnectionPoolNameKey; ServerAddressKey; ServerPortKey; ErrorTypeKey]].
Definition views_Elasticsearch : list row :=
  [scoped #"db.client.operation.duration" ElasticsearchScope histogram
     [DBSystemNameKey; DBOperationNameKey; DBCollectionNameKey; ServerAddressKey; ServerPortKey; ErrorTypeKey; DBResponseStatusCodeKey]].
Definition views_Minio : list row :=
  [scoped #"minio.client.operation.duration" MinioScope histogram
     [ObjectStoreOperationNameKey; ObjectStoreBucketNameKey; ServerAddressKey; ServerPortKey; ErrorTypeKey]].
Definition pool_keys : list bytes := [DBSystemNameKey; DBClientConnectionPoolNameKey; ServerAddressKey; ServerPortKey].
Definition pool_state_keys : list bytes :=
  [DBSystemNameKey; DBClientConnectionPoolNameKey; DBClientConnectionStateKey; ServerAddressKey; ServerPortKey].
Definition views_Mongo : list row :=
  [scoped #"db.client.operation.duration" MongoContribScope histogram
     [DBSystemNameKey; DBOperationNameKey; NetworkPeerAddressKey; NetworkPeerPortKey; ErrorTypeKey]]
  ++ [scoped #"db.client.connection.count" MongoScope None pool_state_keys;
      scoped #"db.client.connection.create_time" MongoScope histogram pool_keys]
  ++ ((λ name, scoped name MongoScope None pool_keys) <$>
        [ #"db.client.connection.idle.min"; #"db.client.connection.max"; #"db.client.connection.pending_requests"; #"db.client.connection.timeouts"])
  ++ ((λ name, dropped name MongoScope) <$>
        [ #"db.client.connection.idle.max"; #"db.client.connection.use_time"; #"db.client.connection.wait_time"]).
Definition views_Redis : list row :=
  [scoped #"db.client.operation.duration" RedisScope histogram [DBSystemNameKey; DBOperationNameKey; ServerAddressKey; ServerPortKey; ErrorTypeKey]]
  ++ [scoped #"db.client.connection.create_time" RedisScope histogram pool_keys;
      scoped #"db.client.connection.count" RedisScope None pool_state_keys]
  ++ ((λ name, scoped name RedisScope None pool_keys) <$>
        [ #"db.client.connection.idle.max"; #"db.client.connection.idle.min"; #"db.client.connection.max"; #"db.client.connection.timeouts"])
  ++ ((λ name, dropped name []) <$>
        [ #"db.client.connections.usage"; #"db.client.connections.idle.max"; #"db.client.connections.idle.min"; #"db.client.connections.max";
          #"db.client.connections.pending_requests"; #"db.client.connections.timeouts"; #"db.client.connections.hits";
          #"db.client.connections.misses"; #"db.client.connections.create_time"; #"db.client.connections.use_time";
          #"db.client.connections.wait_time"]).
(** rpc.go, and RPCMetricViews of rpcviews.go: a clone of a slice is the identity. *)
Definition views_RPC : list row :=
  (λ name, {| on := {| crit_Name := name; crit_Kind := Some InstrumentKindHistogram; crit_Unit := #"s"; crit_Scope := [] |};
              aggregation := histogram; allow := None; exemplars := None |})
  <$> [ #"rpc.server.call.duration"; #"rpc.client.call.duration"].
(** What Init gives InitMeter as ExtraViews. *)
Definition init_ExtraViews : list row :=
  views_Cassandra ++ views_Elasticsearch ++ views_Minio ++ views_Mongo ++ views_Redis ++ views_RPC.
End tables.

(** * defaultViews, and the views of a provider *)
Record Config := {
  DisableDefaultViews : bool; HistogramBuckets : list boundary; ExtraViews : list View;
  HistogramBucketOverrides : gmap bytes (list boundary); ExtraHTTPServerAttrKeys : list bytes;
}.
Definition serverKeys (extra : list bytes) : list bytes := [HTTPRequestMethodKey; HTTPRouteKey; HTTPResponseStatusCodeKey] ++ extra.
Definition default_rows `{MetricSdk boundary value kept} (buckets : list boundary) (extra : list bytes) : list row :=
  let http name keys := {| on := {| crit_Name := name; crit_Kind := None; crit_Unit := []; crit_Scope := [] |};
                           aggregation := histogram buckets; allow := Some keys; exemplars := Some dropFilteredAttrsExemplarSelector |} in
  [http #"http.server.request.duration" (serverKeys extra);
   http #"http.client.request.duration"
     [HTTPRequestMethodKey; HTTPRouteKey; HTTPResponseStatusCodeKey; ServerAddressKey; ServerPortKey; ErrorTypeKey]].
Definition defaultViews `{MetricSdk boundary value kept, ViewApi} (cfg : Config) : list View :=
  if DisableDefaultViews cfg then [] else registered (default_rows (HistogramBuckets cfg) (ExtraHTTPServerAttrKeys cfg)).
(** InitMeter: the views of the provider; initPrometheus guards them further. *)
Definition meter_views `{MetricSdk boundary value kept, ViewApi} (cfg : Config) : list View :=
  applyHistogramBucketOverrides (defaultViews cfg ++ ExtraViews cfg) (HistogramBucketOverrides cfg).
(** What Init configures. *)
Definition init_config `{ViewApi} (disable : bool) (buckets : list boundary) (overrides : gmap bytes (list boundary)) (extra : list bytes) : Config := {|
  DisableDefaultViews := disable; HistogramBuckets := buckets; ExtraViews := registered (init_ExtraViews buckets);
  HistogramBucketOverrides := overrides; ExtraHTTPServerAttrKeys := extra |}.
Definition init_rows `{MetricSdk boundary value kept} (disable : bool) (buckets : list boundary) (extra : list bytes) : list row :=
  (if disable then [] else default_rows buckets extra) ++ init_ExtraViews buckets.

(** * One stream for an instrument *)
(** Two criteria no instrument can meet both of: other names, or other scopes. *)
Definition apart (c d : criteria) : bool :=
  negb (bool_decide (crit_Name c = crit_Name d))
  || negb (bool_decide (crit_Scope c = []) || bool_decide (crit_Scope d = []) || bool_decide (crit_Scope c = crit_Scope d)).
Fixpoint pairwise (cs : list criteria) : bool := match cs with [] => true | c :: cs => forallb (apart c) cs && pairwise cs end.

Lemma matches_name c inst : plain c = true → matches c inst = true → crit_Name c = Name inst ∧ (crit_Scope c = [] ∨ crit_Scope c = Scope inst).
Proof.
  unfold plain, matches, unset_or. rewrite !andb_true_iff, !orb_true_iff, negb_true_iff, bool_decide_eq_false, !bool_decide_eq_true. naive_solver.
Qed.
Lemma apart_matches c d inst : plain c = true → plain d = true → apart c d = true → matches c inst = true → matches d inst = false.
Proof.
  intros Hc Hd Ha Hm. destruct (matches d inst) eqn:E; [|done]. apply (matches_name _ _ Hc) in Hm as [Hn Hs]. apply (matches_name _ _ Hd) in E as [Hn' Hs'].
  revert Ha. unfold apart. rewrite Hn, Hn', bool_decide_true by done. cbn [negb orb]. rewrite negb_true_iff, !orb_false_iff, !bool_decide_eq_false.
  intros [[H1 H2] H3]. naive_solver congruence.
Qed.
Lemma filter_none {X} (P : X → Prop) `{!∀ x, Decision (P x)} (l : list X) : Forall (λ x, ¬ P x) l → filter P l = [].
Proof. induction 1 as [|x l Hx _ IH]; [done|]. by rewrite filter_cons, decide_False. Qed.
Lemma pairwise_find rows inst : Forall (λ r, plain (on r) = true) rows → pairwise (on <$> rows) = true →
  filter (λ r, matches (on r) inst = true) rows = option_list (List.find (λ r, matches (on r) inst) rows).
Proof.
  induction rows as [|r rows IH]; [done|]. intros [Hr Hrs]%Forall_cons. cbn [pairwise fmap list_fmap List.find]. rewrite andb_true_iff. intros [Ha Hp].
  rewrite filter_cons. destruct (matches (on r) inst) eqn:E; [|rewrite decide_False by done; by apply IH]. rewrite decide_True by done. cbn. f_equal.
  apply filter_none, Forall_forall. intros x Hx Hm. rewrite Forall_forall in Hrs. rewrite forallb_forall in Ha.
  assert (apart (on r) (on x) = true) as Hax by (apply Ha, list_elem_of_In; by apply list_elem_of_fmap_2).
  rewrite (apart_matches (on r) (on x) inst Hr (Hrs x Hx) Hax E) in Hm. done.
Qed.
Lemma find_unique rows inst r : Forall (λ r, plain (on r) = true) rows → pairwise (on <$> rows) = true → r ∈ rows → matches (on r) inst = true →
  List.find (λ r, matches (on r) inst) rows = Some r.
Proof.
  intros Hp Hw Hin Hm. pose proof (pairwise_find rows inst Hp Hw) as Hf.
  assert (r ∈ filter (λ r, matches (on r) inst = true) rows) as Hr by by apply list_elem_of_filter. rewrite Hf in Hr.
  destruct (List.find _ rows); cbn in Hr; [apply list_elem_of_singleton in Hr; by subst|by apply elem_of_nil in Hr].
Qed.

Lemma omap_app_matched (vs ws : list View) inst : matched (vs ++ ws) inst = matched vs inst ++ matched ws inst.
Proof. unfold matched. by rewrite omap_app. Qed.
Section laws.
Context {A : ViewApi} (HA : ViewApiLaws A).
Lemma matched_registered rows inst : Forall (λ r, plain (on r) = true ∧ valid_aggregation (aggregation r) = true) rows →
  matched (registered rows) inst = (λ r, masked (mask_of r) inst) <$> filter (λ r, matches (on r) inst = true) rows.
Proof.
  unfold matched, registered. induction 1 as [|r rows [Hp Hv] _ IH]; [done|]. cbn [fmap list_fmap omap list_omap]. rewrite filter_cons.
  rewrite (NewView_spec (on r) (mask_of r) inst Hp Hv). destruct (matches (on r) inst); [rewrite decide_True by done|rewrite decide_False by done; exact IH].
  cbn [fmap list_fmap]. f_equal. exact IH.
Qed.
End laws.
End views.

(** * Properties *)
Section properties.
Context {boundary value kept : Type} `{S : @MetricSdk boundary value kept} (HS : MetricSdkLaws S) `{A : @ViewApi boundary value kept} (HA : ViewApiLaws A).

Lemma init_rows_plain disable buckets extra : Forall (λ r, plain (on r) = true) (init_rows (value := value) (kept := kept) disable buckets extra).
Proof.
  assert (H : forallb plain (on <$> init_rows (value := value) (kept := kept) disable buckets extra) = true) by (destruct disable; vm_compute; reflexivity).
  rewrite forallb_forall in H. apply Forall_forall. intros r Hr. apply H, list_elem_of_In. by apply list_elem_of_fmap_2.
Qed.
Lemma init_rows_ok disable buckets extra : valid_boundaries buckets = true →
  Forall (λ r, plain (on r) = true ∧ valid_aggregation (aggregation r) = true) (init_rows (value := value) (kept := kept) disable buckets extra).
Proof.
  intros Hb. apply Forall_and. split; [apply init_rows_plain|]. unfold init_rows, init_ExtraViews, views_Mongo, views_Redis. rewrite !Forall_app.
  split_and!; try (destruct disable); repeat (apply Forall_cons; split; [first [exact Hb|reflexivity]|]); apply Forall_nil_2.
Qed.
Lemma init_rows_apart disable buckets extra : pairwise (on <$> init_rows (value := value) (kept := kept) disable buckets extra) = true.
Proof. destruct disable; vm_compute; reflexivity. Qed.
Lemma meter_views_rows disable buckets overrides extra inst :
  matched (defaultViews (init_config disable buckets overrides extra) ++ ExtraViews (init_config disable buckets overrides extra)) inst
  = matched (registered (init_rows disable buckets extra)) inst.
Proof.
  f_equal. unfold init_rows, defaultViews. cbn [init_config DisableDefaultViews ExtraViews HistogramBuckets ExtraHTTPServerAttrKeys].
  unfold registered. destruct disable; [reflexivity|]. by rewrite fmap_app.
Qed.

(** The one stream of an instrument, before overrides and guards. *)
Definition own_stream (rows : list (@row boundary value kept)) (inst : Instrument) : Stream :=
  match List.find (λ r, matches (on r) inst) rows with Some r => masked (mask_of r) inst | None => default_stream inst end.

Lemma overridden_stream (configured : list View) (overrides : gmap bytes (list boundary)) (rows : list row) inst :
  Forall (λ r, plain (on r) = true ∧ valid_aggregation (aggregation r) = true) rows → pairwise (on <$> rows) = true →
  matched configured inst = matched (registered rows) inst →
  sdk_streams (applyHistogramBucketOverrides configured overrides) inst = [override_stream overrides inst (own_stream rows inst)].
Proof.
  intros Hok Hp Hm. destruct (bucket_overrides_exact S HS configured overrides inst) as [-> _].
  assert (Hplain : Forall (λ r, plain (on r) = true) rows) by (eapply Forall_impl; [exact Hok|]; by intros r [? _]).
  rewrite (matched_registered HA rows inst Hok), (pairwise_find rows inst Hplain Hp) in Hm. unfold matched in Hm. unfold own_stream.
  destruct (List.find _ rows) as [r|]; cbn [option_list fmap list_fmap] in Hm; [rewrite sdk_every_match; rewrite Hm|rewrite sdk_default]; done.
Qed.

(** C25: every instrument has one stream. With the views Init configures, whatever its
    options, no instrument of any name, kind, unit and scope is claimed by two views, so
    the SDK gives each exactly one stream: that of the one view that matches, or the
    default; with its boundaries overridden where a histogram is named in the overrides,
    and, on the Prometheus path, with the reserved keys filtered out. *)
Theorem one_stream_each (disable : bool) (buckets : list boundary) (overrides : gmap bytes (list boundary)) (extra : list bytes) (inst : Instrument)
    (Hb : valid_boundaries buckets = true) :
  let rows := init_rows disable buckets extra in
  let views := meter_views (init_config disable buckets overrides extra) in
  (∀ r, r ∈ rows → matches (on r) inst = true → own_stream rows inst = masked (mask_of r) inst)
  ∧ ((∀ r, r ∈ rows → matches (on r) inst = false) → own_stream rows inst = default_stream inst)
  ∧ sdk_streams views inst = [override_stream overrides inst (own_stream rows inst)]
  ∧ sdk_streams (guardReservedKeys views) inst = [guard_stream (override_stream overrides inst (own_stream rows inst))].
Proof.
  cbv zeta. set (rows := init_rows disable buckets extra). pose proof (init_rows_ok disable buckets extra Hb) as Hok. fold rows in Hok.
  assert (Hplain : Forall (λ r, plain (on r) = true) rows) by (eapply Forall_impl; [exact Hok|]; by intros r [? _]).
  pose proof (init_rows_apart disable buckets extra) as Hp. fold rows in Hp.
  assert (Hone : sdk_streams (meter_views (init_config disable buckets overrides extra)) inst = [override_stream overrides inst (own_stream rows inst)]).
  { apply (overridden_stream _ overrides rows inst); [exact Hok|exact Hp|]. apply meter_views_rows. }
  split_and!; [| |exact Hone|].
  - intros r Hr Hm. unfold own_stream. by rewrite (find_unique rows inst r).
  - intros Hn. unfold own_stream. destruct (List.find _ rows) as [r|] eqn:E; [|done]. apply List.find_some in E as [Hr%list_elem_of_In Hm].
    specialize (Hn r Hr). congruence.
  - destruct (guardReservedKeys_exact S HS (meter_views (init_config disable buckets overrides extra)) inst) as [-> _]. by rewrite Hone.
Qed.
End properties.

(** * Keys that need a cap *)
(** The keys with values a service does not choose, and the cap of each. *)
Definition open_keys : list bytes := [HTTPRouteKey; DBCollectionNameKey; NetworkPeerAddressKey].
Definition cap_of (c : MetricRules.Config) (key : bytes) : Z :=
  if bool_decide (key = HTTPRouteKey) then MaxUniqueRoutes c
  else if bool_decide (key = DBCollectionNameKey) then MaxUniqueCollections c else maxUniqueMongoPeers.
(** Where the views let one of them through: instrument, scope and key. *)
Definition admitted_open {boundary value kept : Type} (rows : list (@row boundary value kept)) : list (bytes * bytes * bytes) :=
  rows ≫= λ r, (λ k, (crit_Name (on r), crit_Scope (on r), k)) <$> filter (.∈ open_keys) (default [] (allow r)).
Definition rule_target (r : Rule) : bytes * bytes * bytes := (InstrumentName r, ScopeName r, Key r).

Lemma admitted_extra {boundary value kept : Type} `{@MetricSdk boundary value kept} disable (buckets : list boundary) extra :
  Forall (.∉ open_keys) extra → admitted_open (init_rows disable buckets extra) = admitted_open (init_rows disable buckets []).
Proof.
  intros He. assert (Hf : filter (.∈ open_keys) (serverKeys extra) = filter (.∈ open_keys) (serverKeys [])).
  { unfold serverKeys. rewrite app_nil_r, filter_app. by rewrite (filter_none _ extra He), app_nil_r. }
  destruct disable; [done|]. unfold admitted_open, init_rows, default_rows. cbn [app mbind list_bind allow on default]. cbn [from_option id]. by rewrite Hf.
Qed.
Definition ruled (c : MetricRules.Config) : list (bytes * bytes * bytes * Z) := (λ r, (rule_target r, RuleMax r)) <$> otlpCapRules c.

Definition route_targets : list (bytes * bytes * bytes) :=
  [( #"http.server.request.duration", [], HTTPRouteKey); ( #"http.client.request.duration", [], HTTPRouteKey)].
Definition table_targets : list (bytes * bytes * bytes) :=
  [( #"db.client.operation.duration", CassandraScope, DBCollectionNameKey); ( #"cassandra.query.attempts", CassandraScope, DBCollectionNameKey);
   ( #"db.client.operation.duration", ElasticsearchScope, DBCollectionNameKey)].
Definition peer_targets : list (bytes * bytes * bytes) := [( #"db.client.operation.duration", MongoContribScope, NetworkPeerAddressKey)].
Lemma admitted_targets {boundary value kept : Type} `{@MetricSdk boundary value kept} (buckets : list boundary) :
  admitted_open (init_rows false buckets []) = route_targets ++ table_targets ++ peer_targets.
Proof. by vm_compute. Qed.
Lemma ruled_targets c : ruled c = (if (0 <? MaxUniqueRoutes c)%Z then (., MaxUniqueRoutes c) <$> route_targets else [])
  ++ (if (0 <? MaxUniqueCollections c)%Z then (., MaxUniqueCollections c) <$> table_targets else []) ++ ((., maxUniqueMongoPeers) <$> peer_targets).
Proof. unfold ruled, otlpCapRules. rewrite !fmap_app. by destruct (0 <? MaxUniqueRoutes c)%Z, (0 <? MaxUniqueCollections c)%Z. Qed.
Lemma targets_cap c : Forall (λ t, cap_of c t.2 = MaxUniqueRoutes c) route_targets ∧ Forall (λ t, cap_of c t.2 = MaxUniqueCollections c) table_targets
  ∧ Forall (λ t, cap_of c t.2 = maxUniqueMongoPeers) peer_targets.
Proof. split_and!; repeat (apply Forall_cons; split; [reflexivity|]); apply Forall_nil_2. Qed.
Lemma elem_of_capped (on : bool) (cap : Z) (targets : list (bytes * bytes * bytes)) t k : (on = true ↔ (0 < cap)%Z) →
  (t, k) ∈ (if on then (., cap) <$> targets else []) ↔ t ∈ targets ∧ k = cap ∧ (0 < k)%Z.
Proof.
  intros Hon. destruct on.
  - rewrite list_elem_of_fmap. split; [intros (x & [= -> ->] & Hx); by split_and!; [| |apply Hon]|intros (Ht & -> & _); by exists t].
  - rewrite elem_of_nil. split; [done|]. intros (_ & -> & Hk). by apply Hon in Hk.
Qed.

(** What is capped is what the views let through. Of the keys whose values a service
    does not choose, the route, the table and the peer, every instrument on which a view
    of Init lets one through has an export rule for that instrument, scope and key, with
    the cap that is configured, and there is no other rule; as long as no such key is
    added to the server's attributes by option. *)
Theorem open_keys_capped {boundary value kept : Type} `{@MetricSdk boundary value kept} (buckets : list boundary) (extra : list bytes)
    (c : MetricRules.Config) (Hextra : Forall (.∉ open_keys) extra) :
  ∀ target cap, (target, cap) ∈ ruled c ↔ target ∈ admitted_open (init_rows false buckets extra) ∧ cap = cap_of c target.2 ∧ (0 < cap)%Z.
Proof.
  intros target cap. rewrite (admitted_extra false buckets extra Hextra), admitted_targets, ruled_targets.
  change ((., maxUniqueMongoPeers) <$> peer_targets) with (if (0 <? maxUniqueMongoPeers)%Z then (., maxUniqueMongoPeers) <$> peer_targets else []).
  rewrite !elem_of_app, !elem_of_capped by apply Z.ltb_lt. destruct (targets_cap c) as (H1 & H2 & H3). rewrite !Forall_forall in H1, H2, H3. split.
  - intros [(Ht & -> & Hk)|[(Ht & -> & Hk)|(Ht & -> & Hk)]]; [rewrite (H1 _ Ht)|rewrite (H2 _ Ht)|rewrite (H3 _ Ht)]; by auto.
  - intros ([Ht|[Ht|Ht]] & -> & Hk); [left|right; left|right; right]; [rewrite (H1 _ Ht) in *|rewrite (H2 _ Ht) in *|rewrite (H3 _ Ht) in *]; done.
Qed.

(** * Samples *)
(** Boundaries are sorted numbers; NewView does what it is documented to do. *)
Definition sorted_Z (l : list Z) : bool := bool_decide (StronglySorted Z.lt l).
#[export] Instance sample_view_api : @ViewApi Z Z unit := {|
  NewView c mask inst := if matches c inst then Some (masked mask inst) else None;
  NewAllowKeysFilter keys kv := bool_decide (kv.1 ∈ keys);
  valid_boundaries := sorted_Z;
|}.
#[export] Instance sample_view_laws : ViewApiLaws sample_view_api.
Proof. split; [done|]. intros keys kv. apply bool_decide_eq_true. Qed.
Definition sample_instrument : Instrument :=
  {| Name := #"db.client.operation.duration"; Description := []; Unit_ := #"s"; Kind := InstrumentKindHistogram; Scope := RedisScope |}.
Definition sample_overrides : gmap bytes (list Z) := {[ #"db.client.operation.duration" := [5; 50]%Z ]}.

Lemma one_stream_each_witness :
  sorted_Z [1; 10]%Z = true
  ∧ (StreamAggregation <$> sdk_streams (meter_views (init_config false [1; 10]%Z sample_overrides [])) sample_instrument)
    = [Some (AggregationExplicitBucketHistogram [5; 50]%Z false)].
Proof.
  split; [by vm_compute|].
  destruct (one_stream_each sample_sdk_laws sample_view_laws false [1; 10]%Z sample_overrides [] sample_instrument) as (_ & _ & -> & _); [by vm_compute|].
  by vm_compute.
Defined.
Lemma open_keys_capped_witness :
  let c := {| MaxUniqueRoutes := 100; MaxUniqueCollections := 20; CardinalityLimit := 0 |} in
  ( #"cassandra.query.attempts", CassandraScope, DBCollectionNameKey, 20%Z) ∈ ruled c
  ∧ ( #"db.client.operation.duration", RedisScope, DBCollectionNameKey, 20%Z) ∉ ruled c.
Proof.
  cbv zeta. assert (Hx : Forall (.∉ open_keys) [ #"tenant"]) by (apply Forall_singleton; by apply (bool_decide_unpack (_ ∉ _))).
  split.
  - apply (open_keys_capped (H := sample_sdk) [1; 10]%Z [ #"tenant"] _ Hx). split_and!; [by apply (bool_decide_unpack (_ ∈ _))|reflexivity|lia].
  - intros Hin. apply (open_keys_capped (H := sample_sdk) [1; 10]%Z [ #"tenant"] _ Hx) in Hin as [Hin _]. by apply (bool_decide_unpack (_ ∉ _)) in Hin.
Defined.
