(* ===== verification/Instruments.v ===== *)
(** The instruments of the integrations: cassandra/metrics.go, elasticsearch/metrics.go,
    newPoolMetrics of redis/metrics.go and of mongo/pool_metrics.go. A meter answers a
    request for an instrument with it, or with an error; a constructor asks for its
    instruments one after the other and gives up at the first that cannot be made. *)
From S2P Require Import Prelude Attribute Semconv MetricViews Views.

(** * Constructors over a meter *)
(** What a constructor asked for, and what came of it. *)
Definition asking (A : Type) : Type := list Instrument * (bytes + A).
Definition instrument_meter : Type := Instrument → option bytes.
Definition ask (meter : instrument_meter) (i : Instrument) (what : bytes) {A} (next : Instrument → asking A) : asking A :=
  match meter i with
  | Some err => ([i], inl (what ++ #": " ++ err))
  | None => let '(asked, r) := next i in (i :: asked, r)
  end.
Notation "'let?' x := m '(' i ')' 'else' what 'in' rest" := (ask m i what (λ x, rest))
  (at level 200, x name, m at level 9, i at level 99, what at level 99, rest at level 200,
   format "'let?'  x  :=  m '(' i ')'  'else'  what  'in' '//' rest") : go_scope.

Section requests.
Context (scope : bytes).
Definition request (kind : InstrumentKind) (name description unit_ : bytes) : Instrument :=
  {| Name := name; Description := description; Unit_ := unit_; Kind := kind; Scope := scope |}.
Definition Float64Histogram := request InstrumentKindHistogram.
Definition Int64Counter := request InstrumentKindCounter.
Definition Int64UpDownCounter := request InstrumentKindUpDownCounter.
Definition Observable := request InstrumentKindObservable.
End requests.

Definition operation_duration (scope : bytes) : Instrument :=
  Float64Histogram scope #"db.client.operation.duration" #"Duration of database client operations." #"s".
Definition create_time (scope : bytes) : Instrument :=
  Float64Histogram scope #"db.client.connection.create_time" #"The time it took to create a new connection." #"s".

(** The pool instruments; [make] is the kind of a meter's method. *)
Section pool.
Context (make : bytes → bytes → bytes → Instrument).
Definition connection_count : Instrument :=
  make #"db.client.connection.count" #"The number of connections that are currently in state described by the state attribute." #"{connection}".
Definition idle_max : Instrument := make #"db.client.connection.idle.max" #"The maximum number of idle open connections allowed." #"{connection}".
Definition idle_min : Instrument := make #"db.client.connection.idle.min" #"The minimum number of idle open connections allowed." #"{connection}".
Definition connection_max : Instrument := make #"db.client.connection.max" #"The maximum number of open connections allowed." #"{connection}".
Definition pending_requests : Instrument :=
  make #"db.client.connection.pending_requests" #"The number of pending requests for an open connection." #"{request}".
Definition connection_timeouts : Instrument :=
  make #"db.client.connection.timeouts"
    #"The number of connection timeouts that have occurred trying to obtain a connection from the pool." #"{timeout}".
End pool.
Definition query_attempts : Instrument :=
  Int64Counter CassandraScope #"cassandra.query.attempts"
    #"Number of Cassandra query attempts (one per driver attempt and per page, including retries and speculative executions)." #"{attempt}".
Definition connection_attempts : Instrument :=
  Int64Counter CassandraScope #"cassandra.connection.attempts" #"Number of Cassandra connection attempts observed by the driver." #"{attempt}".

(** cassandra/metrics.go *)
Record cassandra_instruments := { operationDuration : Instrument; attempts : Instrument; connectDuration : Instrument; connectCount : Instrument }.
Definition cassandra_newInstruments (meter : instrument_meter) : asking cassandra_instruments :=
  let? operationDuration := meter(operation_duration CassandraScope) else #"cassandra: create operation duration histogram" in
  let? attempts := meter(query_attempts) else #"cassandra: create attempts counter" in
  let? connectDuration := meter(create_time CassandraScope) else #"cassandra: create connection create_time histogram" in
  let? connectCount := meter(connection_attempts) else #"cassandra: create connection attempts counter" in
  ([], inr {| operationDuration := operationDuration; attempts := attempts; connectDuration := connectDuration; connectCount := connectCount |}).

(** elasticsearch/metrics.go *)
Definition elasticsearch_newInstruments (meter : instrument_meter) : asking Instrument :=
  let? operationDuration := meter(operation_duration ElasticsearchScope) else #"elasticsearch: create operation duration histogram" in
  ([], inr operationDuration).

(** redis/metrics.go: the instruments and those the callback observes. *)
Record redis_poolMetrics := { createTime : Instrument; observables : list Instrument }.
Definition redis_newPoolMetrics (meter : instrument_meter) : asking redis_poolMetrics :=
  let? count := meter(connection_count (Observable RedisScope)) else #"redis wrap: create connection count observable" in
  let? idleMax := meter(idle_max (Observable RedisScope)) else #"redis wrap: create idle max observable" in
  let? idleMin := meter(idle_min (Observable RedisScope)) else #"redis wrap: create idle min observable" in
  let? maxConns := meter(connection_max (Observable RedisScope)) else #"redis wrap: create max observable" in
  let? timeouts := meter(connection_timeouts (Observable RedisScope)) else #"redis wrap: create timeouts observable" in
  let? createTime := meter(create_time RedisScope) else #"redis wrap: create connection create_time histogram" in
  ([], inr {| createTime := createTime; observables := [count; idleMax; idleMin; maxConns; timeouts] |}).

(** mongo/pool_metrics.go *)
Record mongo_poolMetrics := { mongo_count : Instrument; mongo_idleMin : Instrument; mongo_max : Instrument; mongo_pending : Instrument;
                              mongo_timeouts : Instrument; mongo_createTime : Instrument }.
Definition mongo_newPoolMetrics (meter : instrument_meter) : asking mongo_poolMetrics :=
  let? count := meter(connection_count (Int64UpDownCounter MongoScope)) else #"create connection count up-down counter" in
  let? idleMin := meter(idle_min (Int64UpDownCounter MongoScope)) else #"create idle min up-down counter" in
  let? maxConns := meter(connection_max (Int64UpDownCounter MongoScope)) else #"create max up-down counter" in
  let? pending := meter(pending_requests (Int64UpDownCounter MongoScope)) else #"create pending requests up-down counter" in
  let? timeouts := meter(connection_timeouts (Int64Counter MongoScope)) else #"create timeouts counter" in
  let? createTime := meter(create_time MongoScope) else #"create connection create_time histogram" in
  ([], inr {| mongo_count := count; mongo_idleMin := idleMin; mongo_max := maxConns; mongo_pending := pending;
              mongo_timeouts := timeouts; mongo_createTime := createTime |}).

(** The two histograms that fall back to a no-op one: minio/client.go and
    resty/client.go go on with it when theirs cannot be made. *)
Definition minio_duration : Instrument :=
  Float64Histogram MinioScope #"minio.client.operation.duration" #"Duration of MinIO/S3 logical operations." #"s".
Definition resty_duration : Instrument :=
  Float64Histogram #"github.com/flywindy/o11y/resty" #"http.client.request.duration" #"Duration of outbound HTTP client requests." #"s".
(** The instrument, unless the one used records nothing. *)
Definition or_noop (meter : instrument_meter) (i : Instrument) : option Instrument := match meter i with Some _ => None | None => Some i end.

(** The error of a constructor. *)
Definition refused {A} (x : asking A) : option bytes := match x.2 with inl err => Some err | inr _ => None end.

(** * What a constructor does *)
(** It asks for the instruments of a table in order; with all of them it gives them, and
    it stops at the first that is refused, with an error that says which and why. *)
Definition constructs {A} (new : instrument_meter → asking A) (table : list Instrument) (all : A) : Prop :=
  ∀ meter,
    (Forall (λ i, meter i = None) table → new meter = (table, inr all))
    ∧ (∀ pre i post err, table = pre ++ i :: post → Forall (λ j, meter j = None) pre → meter i = Some err →
         ∃ what, what ≠ [] ∧ new meter = (pre ++ [i], inl (what ++ #": " ++ err))).

Lemma constructs_done {A} (a : A) : constructs (λ _, ([], inr a)) [] a.
Proof. intros meter. split; [done|]. by intros []. Qed.
Lemma constructs_ask {A} (new : instrument_meter → asking A) (i : Instrument) (what : bytes) (table : list Instrument) (all : A) :
  what ≠ [] → constructs new table all → constructs (λ meter, ask meter i what (λ _, new meter)) (i :: table) all.
Proof.
  intros Hw Hc meter. destruct (Hc meter) as [Hok Hfail]. split.
  - intros [Hi Ht]%Forall_cons. unfold ask. by rewrite Hi, (Hok Ht).
  - intros [|j pre] k post err Ht Hp Hk; cbn in Ht; injection Ht as -> Ht.
    + exists what. split; [done|]. unfold ask. by rewrite Hk.
    + apply Forall_cons in Hp as [Hj Hp]. destruct (Hfail pre k post err Ht Hp Hk) as (w & Hne & E). exists w. split; [done|]. unfold ask. by rewrite Hj, E.
Qed.

Ltac construct := repeat (apply constructs_ask; [done|]); apply constructs_done.

Definition cassandra_table : list Instrument := (cassandra_newInstruments (λ _, None)).1.
Definition elasticsearch_table : list Instrument := (elasticsearch_newInstruments (λ _, None)).1.
Definition redis_table : list Instrument := (redis_newPoolMetrics (λ _, None)).1.
Definition mongo_table : list Instrument := (mongo_newPoolMetrics (λ _, None)).1.

(** The instruments of the integrations. Each of the four constructors asks its meter
    for the instruments of its table, once and in order: with all of them it gives them,
    each under its own name, and it stops at the first one refused with an error that
    names it and quotes the reason, so no half-built set is used. The names of a table
    are distinct, and the callback of redis observes all of its instruments but the
    histogram, which the hook records. *)
Theorem instruments_made :
  (∃ all, constructs cassandra_newInstruments cassandra_table all
     ∧ cassandra_table = [operationDuration all; attempts all; connectDuration all; connectCount all])
  ∧ constructs elasticsearch_newInstruments elasticsearch_table (operation_duration ElasticsearchScope)
  ∧ (∃ all, constructs redis_newPoolMetrics redis_table all ∧ redis_table = observables all ++ [createTime all])
  ∧ (∃ all, constructs mongo_newPoolMetrics mongo_table all
       ∧ mongo_table = [mongo_count all; mongo_idleMin all; mongo_max all; mongo_pending all; mongo_timeouts all; mongo_createTime all])
  ∧ Forall (λ table, NoDup (Name <$> table)) [cassandra_table; elasticsearch_table; redis_table; mongo_table].
Proof.
  split_and!.
  - eexists (Build_cassandra_instruments _ _ _ _). split; [|reflexivity]. construct.
  - construct.
  - eexists (Build_redis_poolMetrics _ _). split; [construct|reflexivity].
  - eexists (Build_mongo_poolMetrics _ _ _ _ _ _). split; [construct|reflexivity].
  - repeat (apply Forall_cons; split; [apply (bool_decide_unpack (NoDup _)); vm_compute; reflexivity|]). apply Forall_nil_2.
Qed.
