(* ===== verification/Elasticsearch.v ===== *)
(** elasticsearch/client.go: the wrapper around the first-party instrumentation of
    the Elasticsearch client. Its callbacks share one responseState per request,
    which the context carries; what they do with the upstream instrumentation, the
    span and the histogram is a list of calls. The client and the upstream
    instrumentation are parameters; errors are those of [RedactError] with what
    package errors answers about them. *)
From S2P Require Import Prelude Instruments Utf8 GoStrings GoCodec GoNum GoFields SampleLib RedactDecode RedactText RedactError GoUrl Attribute Semconv.

(** * Options and construction *)
Record config := { captureSearchBody : bool; collectionMetricLabelDisabled : bool; typed : bool }.
Definition collectionMetricLabel (c : config) : bool := negb (collectionMetricLabelDisabled c).
Inductive Option_ := WithSearchBody (enabled : bool) | WithCollectionMetricLabel (enabled : bool).
Definition apply_option (c : config) (o : Option_) : config :=
  match o with
  | WithSearchBody b => {| captureSearchBody := b; collectionMetricLabelDisabled := collectionMetricLabelDisabled c; typed := typed c |}
  | WithCollectionMetricLabel b => {| captureSearchBody := captureSearchBody c; collectionMetricLabelDisabled := negb b; typed := typed c |}
  end.
Definition newConfig (opts : list (option Option_)) : config :=
  foldl (λ c o, match o with Some o => apply_option c o | None => c end)
    {| captureSearchBody := false; collectionMetricLabelDisabled := false; typed := false |} opts.

(** The wrapper, without the upstream instrumentation it embeds: whether it has
    its instruments, and its configuration. *)
Record instrumentation := { inst : bool; cfg : config }.

Section construct.
(** [Up] is the upstream instrumentation, built for a tracer provider; [Cl] a
    client of the driver, built from a Config by [elastic_New]; [Meter] a provider's
    meter for the scope of this package. *)
Context {TP MP Up Rest Cl : Type} (NewOpenTelemetryInstrumentation : TP → bool → Up).
Context (Meter : MP → instrument_meter).
Definition newInstruments (mp : MP) : option bytes := refused (elasticsearch_newInstruments (Meter mp)).
Record elastic_Config := { rest_of : Rest; Instrumentation : option (Up * option instrumentation) }.
Definition instrument (c : elastic_Config) (tp : option TP) (mp : option MP) (typed_ : bool) (opts : list (option Option_)) :
    bytes + elastic_Config :=
  match tp, mp with
  | None, _ => inl #"tracer provider must not be nil"
  | _, None => inl #"meter provider must not be nil"
  | Some tp, Some mp =>
    let o := newConfig opts in
    let o := {| captureSearchBody := captureSearchBody o; collectionMetricLabelDisabled := collectionMetricLabelDisabled o; typed := typed_ |} in
    match newInstruments mp with
    | Some err => inl err
    | None => inr {| rest_of := rest_of c;
                     Instrumentation := Some (NewOpenTelemetryInstrumentation tp (captureSearchBody o), Some {| inst := true; cfg := o |}) |}
    end
  end.
(** NewClient and NewTypedClient; [elastic_New] is elastic.NewClient of the one
    and elastic.NewTypedClient of the other. *)
Definition new_client (prefix : bytes) (typed_ : bool) (elastic_New : elastic_Config → bytes + Cl)
    (c : elastic_Config) (tp : option TP) (mp : option MP) (opts : list (option Option_)) : bytes + Cl :=
  match instrument c tp mp typed_ opts with
  | inl err => inl (prefix ++ err)
  | inr c' => match elastic_New c' with inl err => inl (prefix ++ err) | inr client => inr client end
  end.
Definition NewClient := new_client #"elasticsearch new client: " false.
Definition NewTypedClient := new_client #"elasticsearch new typed client: " true.

(** The last option that says something of each setting. *)
Definition body_of (o : option Option_) : option bool := match o with Some (WithSearchBody b) => Some b | _ => None end.
Definition label_of (o : option Option_) : option bool := match o with Some (WithCollectionMetricLabel b) => Some b | _ => None end.
Lemma newConfig_last opts : newConfig opts =
  {| captureSearchBody := default false (last (omap body_of opts)); collectionMetricLabelDisabled := negb (default true (last (omap label_of opts)));
     typed := false |}.
Proof.
  induction opts as [|o opts IH] using rev_ind; [done|]. unfold newConfig in *. rewrite foldl_app, IH. cbn.
  rewrite !omap_app, !last_app. by destruct o as [[b|b]|].
Qed.

(** A client is instrumented from the providers it is given, or not built. Without
    one of the providers, or when the instruments cannot be made, the driver is not
    called and the error says why; otherwise the driver gets the caller's configuration
    with the instrumentation replaced, whatever it was, by one on the given tracer
    provider, captures bodies only where the last option for them says so, and
    classifies failures as its kind of client reports them. *)
Theorem client_instrumented (is_typed : bool) (elastic_New : elastic_Config → bytes + Cl) (c : elastic_Config) (tp : option TP) (mp : option MP)
    (opts : list (option Option_)) :
  let prefix := if is_typed then #"elasticsearch new typed client: " else #"elasticsearch new client: " in
  let new := if is_typed then NewTypedClient else NewClient in
  match tp, mp with
  | Some tp, Some mp =>
    let capture := default false (last (omap body_of opts)) in
    match newInstruments mp with
    | Some err => new elastic_New c (Some tp) (Some mp) opts = inl (prefix ++ err)
    | None => ∃ g, inst g = true ∧ typed (cfg g) = is_typed ∧ captureSearchBody (cfg g) = capture
        ∧ collectionMetricLabel (cfg g) = default true (last (omap label_of opts))
        ∧ new elastic_New c (Some tp) (Some mp) opts
          = match elastic_New {| rest_of := rest_of c; Instrumentation := Some (NewOpenTelemetryInstrumentation tp capture, Some g) |} with
            | inl err => inl (prefix ++ err) | inr client => inr client end
    end
  | _, _ => ∃ why, new elastic_New c tp mp opts = inl (prefix ++ why)
      ∧ (tp = None → why = #"tracer provider must not be nil") ∧ (tp ≠ None → why = #"meter provider must not be nil")
  end.
Proof.
  cbv zeta. destruct tp as [tp|]; [|exists #"tracer provider must not be nil"; by destruct is_typed].
  destruct mp as [mp|]; [|exists #"meter provider must not be nil"; by destruct is_typed].
  destruct (newInstruments mp) as [err|] eqn:E.
  - destruct is_typed; unfold NewTypedClient, NewClient, new_client, instrument; by rewrite E.
  - exists {| inst := true; cfg := {| captureSearchBody := default false (last (omap body_of opts));
      collectionMetricLabelDisabled := negb (default true (last (omap label_of opts))); typed := is_typed |} |}.
    split_and!; try done; [unfold collectionMetricLabel; cbn; by rewrite negb_involutive|].
    destruct is_typed; unfold NewTypedClient, NewClient, new_client, instrument; rewrite E, newConfig_last; done.
Qed.
End construct.

(** * The rejected-status error of the typed API *)
(** typedStatusErrorPattern and its submatch. *)
Definition status_error_head : bytes := #"an error happened during the ".
Definition status_error_tail : bytes := #" query execution, status code: ".
Definition newline : ascii := "010"%char.
Fixpoint digits_suffix (s : bytes) : bytes * bytes :=
  match s with
  | [] => ([], [])
  | c :: s' => let '(front, digits) := digits_suffix s' in
               if bool_decide (front = []) && is_digit c then ([], c :: digits) else (c :: front, digits)
  end.
Definition strip_prefix (p s : bytes) : option bytes := if HasPrefix s p then Some (drop (length p) s) else None.
Definition strip_suffix (p s : bytes) : option bytes :=
  let n := length s - length p in if bool_decide (drop n s = p) then Some (take n s) else None.
Definition typedStatusErrorPattern (text : bytes) : option bytes :=
  let '(front, digits) := digits_suffix text in
  endpoint ← strip_prefix status_error_head front;
  endpoint ← strip_suffix status_error_tail endpoint;
  if bool_decide (digits = []) || bool_decide (endpoint = []) || byte_in endpoint newline then None else Some digits.

Lemma digits_suffix_app s : let '(front, digits) := digits_suffix s in s = front ++ digits ∧ Forall (λ c, is_digit c = true) digits.
Proof.
  induction s as [|c s IH]; [by split|]. cbn. destruct (digits_suffix s) as [front digits], IH as [-> IH].
  destruct (bool_decide (front = [])) eqn:E; cbn; [|by split]. apply bool_decide_eq_true in E as ->.
  destruct (is_digit c) eqn:Ed; [|by split]. split; [done|]. by constructor.
Qed.
Lemma digits_suffix_split front c digits : is_digit c = false → Forall (λ c, is_digit c = true) digits →
  digits_suffix (front ++ c :: digits) = (front ++ [c], digits).
Proof.
  intros Hc Hd. assert (Hall : digits_suffix digits = ([], digits)).
  { induction Hd as [|d digits Hd _ IH]; [done|]. cbn. by rewrite IH, Hd. }
  induction front as [|d front IH]; cbn; [by rewrite Hall, Hc|]. rewrite IH. by destruct front.
Qed.
Lemma strip_prefix_spec p s t : strip_prefix p s = Some t ↔ s = p ++ t.
Proof.
  unfold strip_prefix, HasPrefix. destruct (prefixb p s) eqn:E.
  - apply prefixb_spec in E as [u ->]. rewrite drop_app_length. split; [by intros [= ->]|by intros ->%(inj _)].
  - split; [done|]. intros ->. by rewrite prefixb_app in E.
Qed.
Lemma strip_suffix_spec p s t : strip_suffix p s = Some t ↔ s = t ++ p.
Proof.
  unfold strip_suffix. case_bool_decide as E.
  - split; [intros [= <-]|].
    + rewrite <- (take_drop (length s - length p) s) at 1. by rewrite E.
    + intros ->. rewrite length_app, Nat.add_sub. by rewrite take_app_length.
  - split; [done|]. intros ->. destruct E. rewrite length_app, Nat.add_sub. by rewrite drop_app_length.
Qed.

(** What the pattern matches: the generated message, of an endpoint that is not
    empty and has no line feed, and of digits. *)
Lemma typedStatusErrorPattern_spec text digits : typedStatusErrorPattern text = Some digits ↔
  ∃ endpoint, text = status_error_head ++ endpoint ++ status_error_tail ++ digits
    ∧ endpoint ≠ [] ∧ newline ∉ endpoint ∧ digits ≠ [] ∧ Forall (λ c, is_digit c = true) digits.
Proof.
  unfold typedStatusErrorPattern. split.
  - pose proof (digits_suffix_app text) as H. destruct (digits_suffix text) as [front d], H as [-> Hd]. intros H.
    destruct (strip_prefix status_error_head front) as [mid|] eqn:E1; [|done]. cbn [mbind option_bind] in H.
    destruct (strip_suffix status_error_tail mid) as [endpoint|] eqn:E2; [|done]. cbn [mbind option_bind] in H.
    apply strip_prefix_spec in E1 as ->. apply strip_suffix_spec in E2 as ->.
    case_bool_decide as Hd0; [done|]. case_bool_decide as He; [done|]. destruct (byte_in endpoint newline) eqn:Hn; [done|].
    injection H as <-. exists endpoint. rewrite <- !app_assoc. apply byte_in_false in Hn. by split_and!.
  - intros (endpoint & -> & He & Hn & Hd0 & Hd).
    assert (Ht : status_error_tail = #" query execution, status code:" ++ [" "%char]) by reflexivity.
    replace (status_error_head ++ endpoint ++ status_error_tail ++ digits)
      with ((status_error_head ++ endpoint ++ #" query execution, status code:") ++ " "%char :: digits)
      by (rewrite Ht; by rewrite <- !app_assoc).
    rewrite digits_suffix_split by done.
    replace ((status_error_head ++ endpoint ++ #" query execution, status code:") ++ [" "%char])
      with (status_error_head ++ endpoint ++ status_error_tail) by (rewrite Ht; by rewrite <- !app_assoc).
    rewrite (proj2 (strip_prefix_spec _ _ _) eq_refl). cbn [mbind option_bind].
    rewrite (proj2 (strip_suffix_spec _ _ _) eq_refl). cbn [mbind option_bind].
    rewrite !bool_decide_false by done. apply byte_in_false in Hn. by rewrite Hn.
Qed.

(** * The state of a request *)
Record serverAddr := { host : bytes; port : Z }.
(** [start] is [None] for the zero time. *)
Record responseState := {
  start : option Z; operation : bytes; index : bytes; server : serverAddr; statusCode : Z; errored : bool; err_ : option eref; esError : bool;
}.
Inductive call :=
  | UpStart (name : bytes)
  | UpRecordPathPart (pathPart value : bytes)
  | UpRecordRequestBody (endpoint query : bytes)
  | UpAfterRequest (system endpoint : bytes)
  | UpAfterResponse (status : option Z)
  | UpRecordError (err : option eref)
  | UpClose
  | SetName (name : bytes)
  | SetAttributes (kvs : list KeyValue)
  | SetStatus (description : bytes)
  | RecordDuration (nanoseconds : Z) (kvs : list KeyValue)
  (** A panic, or a loop without end: nothing of the callback follows. *)
  | Stuck.
Definition esSystem : bytes := #"elasticsearch".
Definition ElasticsearchError : bytes := #"*types.ElasticsearchError".

Section callbacks.
Set Default Proof Using "Type".
Context (σ : error_store) (ans : error_answers) (depth : nat) (StatusText : Z → bytes).

(** errors.Unwrap; [None] is a panic of the method. *)
Definition errors_Unwrap (r : eref) : option (option eref) := match unwrap_methods (σ r) with UnwrapOne next => next | _ => Some None end.
(** errorType's loop over the fmt wrappers; [None] when it does not return. *)
Fixpoint concrete_type (fuel : nat) (err : option eref) : option bytes :=
  match err with
  | None => Some #"_OTHER"
  | Some r => if HasPrefix (type_name (σ r)) #"*fmt." then
                match fuel with O => None | S fuel => errors_Unwrap r ≫= concrete_type fuel end
              else Some (type_name (σ r))
  end.
Definition errorType (err : option eref) : option bytes :=
  if errors_Is σ ans depth err DeadlineExceeded then Some #"context.DeadlineExceeded"
  else if errors_Is σ ans depth err Canceled then Some #"context.Canceled"
  else concrete_type depth err.

Definition isTypedResponseError (err : option eref) : bool := bool_decide (is_Some (errors_As σ ans depth err ElasticsearchError)).
(** [None] is a panic of the Error method. *)
Definition typedStatusError (err : option eref) (terminalStatus : Z) : option bool :=
  match err with
  | None => Some false
  | Some r =>
    if (terminalStatus =? 0)%Z then Some false
    else text ← error_method (σ r);
         Some (match typedStatusErrorPattern text with
               | None => false
               | Some digits => bool_decide (Atoi digits = Some terminalStatus)
               end)
  end.

(** Whether the error says that the typed endpoint rejected the response. *)
Definition rejected_response (g : instrumentation) (err : option eref) (status : Z) : option bool :=
  if isTypedResponseError err then Some true
  else if typed (cfg g) then typedStatusError err status else Some false.

Context (g : instrumentation).

(** ** Callbacks *)
Definition Start (name : bytes) (now : Z) : responseState * list call :=
  ({| start := Some now; operation := name; index := []; server := {| host := []; port := 0 |}; statusCode := 0;
      errored := false; err_ := None; esError := false |},
   [UpStart (esSystem ++ #"." ++ name)]).
(** [recording] is whether the span of the context records. *)
Definition RecordPathPart (recording : bool) (st : option responseState) (pathPart value : bytes) : option responseState * list call :=
  let up := [UpRecordPathPart pathPart value] in
  if negb (bool_decide (pathPart = #"index")) || bool_decide (value = []) then (st, up)
  else match st with
       | None => (st, up)
       | Some s =>
         if bool_decide (operation s = []) then (st, up)
         else (Some {| start := start s; operation := operation s; index := value; server := server s; statusCode := statusCode s;
                       errored := errored s; err_ := err_ s; esError := esError s |},
               up ++ if recording then [SetName (esSystem ++ #"." ++ operation s ++ #" " ++ value)] else [])
       end.
Definition RecordRequestBody (endpoint : bytes) (query : option bytes) : list call :=
  match query with None => [] | Some query => [UpRecordRequestBody endpoint query] end.
(** [url] is the request's, when the request and its URL are there. *)
Definition AfterRequest (st : option responseState) (url : option URL) (system endpoint : bytes) : option responseState * list call :=
  let up := [UpAfterRequest system endpoint] in
  match url, st with
  | Some u, Some s =>
    let port_ := match Atoi (url_Port u) with Some p => if (0 <? p)%Z then p else port (server s) | None => port (server s) end in
    (Some {| start := start s; operation := operation s; index := index s; server := {| host := url_Hostname u; port := port_ |};
             statusCode := statusCode s; errored := errored s; err_ := err_ s; esError := esError s |}, up)
  | _, _ => (st, up)
  end.
Definition AfterResponse (st : option responseState) (res : option Z) : option responseState * list call :=
  (match res, st with
   | Some code, Some s => Some {| start := start s; operation := operation s; index := index s; server := server s; statusCode := code;
                                  errored := errored s; err_ := err_ s; esError := esError s |}
   | _, _ => st
   end, [UpAfterResponse res]).
Definition RecordError (st : option responseState) (err : option eref) : option responseState * list call :=
  let up := [UpRecordError err] in
  match st with
  | None => (st, up)
  | Some s =>
    match rejected_response g err (statusCode s) with
    | None => (st, up ++ [Stuck])
    | Some true => (Some {| start := start s; operation := operation s; index := index s; server := server s; statusCode := statusCode s;
                            errored := errored s; err_ := err_ s; esError := true |}, up)
    | Some false => (Some {| start := start s; operation := operation s; index := index s; server := server s; statusCode := statusCode s;
                             errored := true; err_ := err; esError := esError s |}, up)
    end
  end.

(** ** Close *)
Definition httpFailed (s : responseState) : bool := if typed (cfg g) then esError s else (299 <? statusCode s)%Z.
Definition singleIndex (index : bytes) : bytes := if bool_decide (index = []) || Contains index #"," then [] else index.
Definition metricErrorType (s : responseState) : option bytes :=
  if errored s then errorType (err_ s)
  else if negb (statusCode s =? 0)%Z && httpFailed s then Some (dec_Z (statusCode s)) else Some [].
Definition text_attr (key value : bytes) : list KeyValue := if bool_decide (value = []) then [] else [(key, StringValue value)].
Definition metricAttrs (s : responseState) : option (list KeyValue) :=
  errType ← metricErrorType s;
  Some ([(DBSystemNameKey, StringValue esSystem)]
        ++ text_attr DBOperationNameKey (operation s)
        ++ (if collectionMetricLabel (cfg g) then text_attr DBCollectionNameKey (singleIndex (index s)) else [])
        ++ (if bool_decide (host (server s) = []) then []
            else [(ServerAddressKey, StringValue (host (server s)))]
                 ++ if (0 <? port (server s))%Z then [(ServerPortKey, IntValue (port (server s)))] else [])
        ++ text_attr ErrorTypeKey errType
        ++ (if negb (errored s) && negb (statusCode s =? 0)%Z && httpFailed s
            then [(DBResponseStatusCodeKey, StringValue (dec_Z (statusCode s)))] else [])).
(** [None] when it does not return. *)
Definition recordDuration (s : responseState) (now : Z) : option (list call) :=
  match inst g, start s with
  | true, Some t => kvs ← metricAttrs s; Some [RecordDuration (Sub now t) kvs]
  | _, _ => Some []
  end.
Definition Close (recording : bool) (st : option responseState) (now : Z) : list call :=
  match st with
  | None => [UpClose]
  | Some s =>
    match recordDuration s now with
    | None => [Stuck]
    | Some duration =>
      duration
      ++ (if negb (errored s) && negb (statusCode s =? 0)%Z && recording then
            [SetAttributes [(HTTPResponseStatusCodeKey, IntValue (statusCode s))]]
            ++ if httpFailed s then [SetStatus (StatusText (statusCode s))] else []
          else [])
      ++ [UpClose]
    end
  end.

(** ** A request *)
Inductive callback :=
  | OnPathPart (pathPart value : bytes)
  | OnRequestBody (endpoint : bytes) (query : option bytes)
  | OnAfterRequest (url : option URL) (system endpoint : bytes)
  | OnAfterResponse (res : option Z)
  | OnError (err : option eref).
Definition on (recording : bool) (st : option responseState) (cb : callback) : option responseState * list call :=
  match cb with
  | OnPathPart pathPart value => RecordPathPart recording st pathPart value
  | OnRequestBody endpoint query => (st, RecordRequestBody endpoint query)
  | OnAfterRequest url system endpoint => AfterRequest st url system endpoint
  | OnAfterResponse res => AfterResponse st res
  | OnError err => RecordError st err
  end.
Fixpoint callbacks (recording : bool) (st : option responseState) (cbs : list callback) : option responseState * list call :=
  match cbs with
  | [] => (st, [])
  | cb :: cbs =>
    let '(st, calls) := on recording st cb in
    let '(st, calls') := callbacks recording st cbs in (st, calls ++ calls')
  end.
(** A request, as the generated API calls the instrumentation: Start first, Close
    last and once, the other callbacks between. *)
Definition request (recording : bool) (name : bytes) (begin_ : Z) (cbs : list callback) (end_ : Z) : list call :=
  let '(st, opening) := Start name begin_ in
  let '(st, calls) := callbacks recording (Some st) cbs in
  opening ++ calls ++ Close recording st end_.

(** * What a request amounts to *)
Definition statuses (cbs : list callback) : list Z := omap (λ cb, match cb with OnAfterResponse res => res | _ => None end) cbs.
Definition indices (cbs : list callback) : list bytes :=
  omap (λ cb, match cb with OnPathPart part v => if bool_decide (part = #"index" ∧ v ≠ []) then Some v else None | _ => None end) cbs.
Definition hosts (cbs : list callback) : list bytes :=
  omap (λ cb, match cb with OnAfterRequest (Some u) _ _ => Some (url_Hostname u) | _ => None end) cbs.
(** The errors reported, each with whether it says, of the response that was there,
    that the endpoint rejected it. *)
Fixpoint judged (status : Z) (cbs : list callback) : list (option eref * bool) :=
  match cbs with
  | [] => []
  | OnAfterResponse (Some code) :: cbs => judged code cbs
  | OnError err :: cbs =>
    match rejected_response g err status with Some b => (err, b) :: judged status cbs | None => judged status cbs end
  | _ :: cbs => judged status cbs
  end.
Definition terminal (errs : list (option eref * bool)) : list (option eref) := omap (λ e, if e.2 : bool then None else Some e.1) errs.
Definition rejected (errs : list (option eref * bool)) : bool := existsb snd errs.
Definition answerable (err : option eref) : Prop := (∀ r, err = Some r → is_Some (error_method (σ r))) ∧ ∃ t, errorType err = Some t ∧ t ≠ [].
(** The calls that decide what the span and the histogram say. *)
Definition deciding (c : call) : bool :=
  match c with SetAttributes _ | SetStatus _ | RecordDuration _ _ | UpClose | Stuck => true | _ => false end.

Lemma rejected_response_some err status : answerable err → is_Some (rejected_response g err status).
Proof.
  intros [Hr _]. unfold rejected_response, typedStatusError. destruct (isTypedResponseError err); [by eexists|].
  destruct (typed (cfg g)); [|by eexists]. destruct err as [r|]; [|by eexists]. destruct (status =? 0)%Z; [by eexists|].
  destruct (Hr r eq_refl) as [text ->]. by eexists.
Qed.

(** What callbacks leave of a state. *)
Record after (s : responseState) (cbs : list callback) (s' : responseState) : Prop := {
  after_start : start s' = start s;
  after_operation : operation s' = operation s;
  after_index : index s' = if bool_decide (operation s = []) then index s else default (index s) (last (indices cbs));
  after_host : host (server s') = default (host (server s)) (last (hosts cbs));
  after_status : statusCode s' = default (statusCode s) (last (statuses cbs));
  after_errored : errored s' = errored s || negb (bool_decide (terminal (judged (statusCode s) cbs) = []));
  after_err : err_ s' = default (err_ s) (last (terminal (judged (statusCode s) cbs)));
  after_esError : esError s' = esError s || rejected (judged (statusCode s) cbs);
}.
Lemma default_last_app {A} (d : A) l l' : default d (last (l ++ l')) = default (default d (last l)) (last l').
Proof. rewrite last_app. by destruct (last l'). Qed.
Lemma some_app {A} (l l' : list A) :
  negb (bool_decide (l ++ l' = [])) = negb (bool_decide (l = [])) || negb (bool_decide (l' = [])).
Proof. by destruct l, l'. Qed.
Lemma judged_app status cbs cbs' : judged status (cbs ++ cbs') = judged status cbs ++ judged (default status (last (statuses cbs))) cbs'.
Proof.
  revert status. induction cbs as [|cb cbs IH]; intros status; [done|]. change (statuses (cb :: cbs)) with (statuses ([cb] ++ cbs)).
  unfold statuses at 1. rewrite omap_app, default_last_app. fold (statuses cbs).
  destruct cb as [| | |[code|]|err]; cbn; rewrite ?IH; try done. by destruct (rejected_response g err status).
Qed.
Lemma after_app s s1 s2 cbs cbs' : after s cbs s1 → after s1 cbs' s2 → after s (cbs ++ cbs') s2.
Proof.
  intros [A1 A2 A3 A4 A5 A6 A7 A8] [B1 B2 B3 B4 B5 B6 B7 B8].
  assert (Hj : judged (statusCode s) (cbs ++ cbs') = judged (statusCode s) cbs ++ judged (statusCode s1) cbs') by by rewrite judged_app, A5.
  split; rewrite ?Hj.
  - congruence.
  - congruence.
  - rewrite B3, A2, A3. unfold indices. rewrite omap_app, default_last_app. by repeat case_bool_decide.
  - rewrite B4, A4. unfold hosts. by rewrite omap_app, default_last_app.
  - rewrite B5, A5. unfold statuses. by rewrite omap_app, default_last_app.
  - rewrite B6, A6. unfold terminal. by rewrite omap_app, some_app, orb_assoc.
  - rewrite B7, A7. unfold terminal. by rewrite omap_app, default_last_app.
  - rewrite B8, A8. unfold rejected. by rewrite existsb_app, orb_assoc.
Qed.
Lemma after_nil s : after s [] s.
Proof. split; cbn; try done; [by case_bool_decide|by rewrite orb_false_r|by rewrite orb_false_r]. Qed.

Lemma after_quiet s cb : indices [cb] = [] → hosts [cb] = [] → statuses [cb] = [] → judged (statusCode s) [cb] = [] → after s [cb] s.
Proof. intros Hi Hh Hs Hj. split; rewrite ?Hi, ?Hh, ?Hs, ?Hj; cbn; try done; [by case_bool_decide|by rewrite orb_false_r|by rewrite orb_false_r]. Qed.

Lemma on_after recording cb s : (∀ err, cb = OnError err → answerable err) →
  ∃ s' calls, on recording (Some s) cb = (Some s', calls) ∧ Forall (λ c, deciding c = false) calls ∧ after s [cb] s'.
Proof.
  intros Hok. destruct cb as [part v|endpoint query|url system endpoint|res|err]; cbn [on].
  - unfold RecordPathPart. set (skip := negb (bool_decide (part = #"index")) || bool_decide (v = [])).
    assert (Hi : indices [OnPathPart part v] = if skip then [] else [v]).
    { unfold indices, skip. cbn. by repeat case_bool_decide; naive_solver. }
    destruct skip.
    { exists s, [UpRecordPathPart part v]. split_and!; [done|by repeat constructor|]. by apply after_quiet. }
    case_bool_decide as Ho.
    { exists s, [UpRecordPathPart part v]. split_and!; [done|by repeat constructor|]. split; cbn; rewrite ?Hi; try done; [by rewrite bool_decide_true|by rewrite orb_false_r|by rewrite orb_false_r]. }
    eexists _, _. split_and!; [reflexivity|destruct recording; by repeat constructor|].
    split; rewrite ?Hi; cbn; try done; [by rewrite bool_decide_false|by rewrite orb_false_r|by rewrite orb_false_r].
  - exists s, (RecordRequestBody endpoint query). split_and!; [done|by destruct query; repeat constructor|]. by apply after_quiet.
  - unfold AfterRequest. destruct url as [u|]; [|exists s, [UpAfterRequest system endpoint]; split_and!; [done|by repeat constructor|by apply after_quiet]].
    eexists _, _. split_and!; [reflexivity|by repeat constructor|].
    split; cbn; try done; [by case_bool_decide|by rewrite orb_false_r|by rewrite orb_false_r].
  - unfold AfterResponse. destruct res as [code|]; [|exists s, [UpAfterResponse None]; split_and!; [done|by repeat constructor|by apply after_quiet]].
    eexists _, _. split_and!; [reflexivity|by repeat constructor|].
    split; cbn; try done; [by case_bool_decide|by rewrite orb_false_r|by rewrite orb_false_r].
  - unfold RecordError. destruct (rejected_response_some err (statusCode s)) as [b Hb]; [by apply Hok|]. rewrite Hb.
    destruct b; eexists _, _; (split_and!; [reflexivity|by repeat constructor|]).
    + split; cbn; rewrite ?Hb; cbn; try done; [by case_bool_decide|by rewrite orb_false_r|by rewrite orb_true_r].
    + split; cbn; rewrite ?Hb; cbn; try done; [by case_bool_decide|by rewrite orb_true_r|by rewrite orb_false_r].
Qed.

Lemma callbacks_after recording cbs s : (∀ err, OnError err ∈ cbs → answerable err) →
  ∃ s' calls, callbacks recording (Some s) cbs = (Some s', calls) ∧ Forall (λ c, deciding c = false) calls ∧ after s cbs s'.
Proof.
  revert s. induction cbs as [|cb cbs IH]; intros s Hok; [exists s, []; split_and!; [done|constructor|apply after_nil]|].
  destruct (on_after recording cb s) as (s1 & calls1 & E1 & Q1 & A1); [intros err ->; apply Hok; by left|].
  destruct (IH s1) as (s2 & calls2 & E2 & Q2 & A2); [intros err H; apply Hok; by right|].
  exists s2, (calls1 ++ calls2). cbn [callbacks]. rewrite E1, E2. split_and!; [done|by apply Forall_app|]. by apply (after_app s s1 s2 [cb] cbs).
Qed.

Definition label_keys : list bytes :=
  [DBSystemNameKey; DBOperationNameKey; DBCollectionNameKey; ServerAddressKey; ServerPortKey; ErrorTypeKey; DBResponseStatusCodeKey].
Lemma es_text_attr_keys key value : (text_attr key value).*1 `sublist_of` [key].
Proof. unfold text_attr. case_bool_decide; cbn [fmap list_fmap fst]; [apply sublist_nil_l|done]. Qed.
Lemma value_text key value : value ≠ [] → value_of key (text_attr key value) = Some (StringValue value).
Proof. intros H. unfold text_attr. rewrite bool_decide_false by done. apply value_of_unique; [apply NoDup_singleton|by left]. Qed.

Lemma value_absent (key : bytes) (l : list KeyValue) (keys : list bytes) : l.*1 `sublist_of` keys → bool_decide (key ∈ keys) = false → value_of key l = None.
Proof. intros Hl Hk%bool_decide_eq_false. apply value_of_None. intros Hin. apply Hk. by eapply elem_of_sublist. Qed.
Lemma not_labelled (key : bytes) (l : list KeyValue) (keys : list bytes) v : l.*1 `sublist_of` keys → bool_decide (key ∈ keys) = false → (key, v) ∉ l.
Proof. intros Hl Hk Hin. apply (value_absent key l keys Hl), value_of_None in Hk. apply Hk. by apply (list_elem_of_fmap_2' fst _ (key, v)). Qed.

(** The labels of a sample. *)
Lemma metricAttrs_labels s t : metricErrorType s = Some t → ∃ labels, metricAttrs s = Some labels
  ∧ labels.*1 `sublist_of` label_keys
  ∧ (t = [] → value_of ErrorTypeKey labels = None) ∧ (t ≠ [] → value_of ErrorTypeKey labels = Some (StringValue t))
  ∧ value_of DBResponseStatusCodeKey labels
    = (if negb (errored s) && negb (statusCode s =? 0)%Z && httpFailed s then Some (StringValue (dec_Z (statusCode s))) else None)
  ∧ (∀ v, (DBCollectionNameKey, v) ∈ labels ↔
       v = StringValue (index s) ∧ index s ≠ [] ∧ Contains (index s) #"," = false ∧ collectionMetricLabel (cfg g) = true)
  ∧ value_of ServerAddressKey labels = (if bool_decide (host (server s) = []) then None else Some (StringValue (host (server s)))).
Proof.
  intros Ht. unfold metricAttrs. rewrite Ht. cbn [mbind option_bind]. eexists. split; [reflexivity|].
  set (A := [(DBSystemNameKey, StringValue esSystem)]). set (B := text_attr DBOperationNameKey (operation s)).
  set (C := if collectionMetricLabel (cfg g) then text_attr DBCollectionNameKey (singleIndex (index s)) else []).
  set (D := if bool_decide (host (server s) = []) then [] else _). set (E := text_attr ErrorTypeKey t).
  set (F := if negb (errored s) && _ && _ then [(DBResponseStatusCodeKey, _)] else []).
  assert (HA : A.*1 `sublist_of` [DBSystemNameKey]) by done.
  assert (HB : B.*1 `sublist_of` [DBOperationNameKey]) by apply es_text_attr_keys.
  assert (HC : C.*1 `sublist_of` [DBCollectionNameKey]) by (unfold C; destruct (collectionMetricLabel _); [apply es_text_attr_keys|apply sublist_nil_l]).
  assert (HD : D.*1 `sublist_of` [ServerAddressKey; ServerPortKey]).
  { unfold D. case_bool_decide; [apply sublist_nil_l|]. destruct (0 <? port (server s))%Z; cbn [fmap list_fmap fst app]; [done|].
    apply sublist_skip, sublist_nil_l. }
  assert (HE : E.*1 `sublist_of` [ErrorTypeKey]) by apply es_text_attr_keys.
  assert (HF : F.*1 `sublist_of` [DBResponseStatusCodeKey]) by (unfold F; destruct (_ && _); [done|apply sublist_nil_l]).
  assert (Hs : (A ++ B ++ C ++ D ++ E ++ F).*1 `sublist_of` label_keys).
  { rewrite !fmap_app. change label_keys with
      ([DBSystemNameKey] ++ [DBOperationNameKey] ++ [DBCollectionNameKey] ++ [ServerAddressKey; ServerPortKey] ++ [ErrorTypeKey] ++ [DBResponseStatusCodeKey]).
    by repeat apply sublist_app. }
  assert (Hn : NoDup label_keys) by by apply (bool_decide_unpack (NoDup label_keys)).
  assert (Hnd : NoDup (A ++ B ++ C ++ D ++ E ++ F).*1) by by eapply sublist_NoDup.
  assert (Hv : value_of ErrorTypeKey (A ++ B ++ C ++ D ++ E ++ F) = value_of ErrorTypeKey E).
  { rewrite !value_of_app, (value_absent ErrorTypeKey F _ HF eq_refl), (value_absent ErrorTypeKey D _ HD eq_refl), (value_absent ErrorTypeKey C _ HC eq_refl), (value_absent ErrorTypeKey B _ HB eq_refl),
      (value_absent ErrorTypeKey A _ HA eq_refl). by destruct (value_of ErrorTypeKey E). }
  split; [done|]. rewrite Hv. split_and!.
  - intros ->. done.
  - intros H. by apply value_text.
  - rewrite !value_of_app, (value_absent DBResponseStatusCodeKey E _ HE eq_refl), (value_absent DBResponseStatusCodeKey D _ HD eq_refl), (value_absent DBResponseStatusCodeKey C _ HC eq_refl), (value_absent DBResponseStatusCodeKey B _ HB eq_refl),
      (value_absent DBResponseStatusCodeKey A _ HA eq_refl). unfold F. by destruct (_ && _).
  - intros v. assert (Hc : (DBCollectionNameKey, v) ∈ A ++ B ++ C ++ D ++ E ++ F ↔ (DBCollectionNameKey, v) ∈ C).
    { rewrite !elem_of_app. pose proof (not_labelled DBCollectionNameKey A _ v HA eq_refl). pose proof (not_labelled DBCollectionNameKey B _ v HB eq_refl). pose proof (not_labelled DBCollectionNameKey D _ v HD eq_refl).
      pose proof (not_labelled DBCollectionNameKey E _ v HE eq_refl). pose proof (not_labelled DBCollectionNameKey F _ v HF eq_refl). naive_solver. }
    rewrite Hc. unfold C, text_attr, singleIndex. clear.
    destruct (collectionMetricLabel (cfg g)); [|split; [by intros ?%elem_of_nil|by intros (_ & _ & _ & ?)]].
    destruct (bool_decide (index s = [])) eqn:H1; [apply bool_decide_eq_true in H1|apply bool_decide_eq_false in H1]; cbn [orb].
    { rewrite bool_decide_true by done. split; [by intros ?%elem_of_nil|by intros (_ & ? & _)]. }
    destruct (Contains (index s) #","); [rewrite bool_decide_true by done; split; [by intros ?%elem_of_nil|by intros (_ & _ & ? & _)]|].
    rewrite bool_decide_false by done. rewrite list_elem_of_singleton. naive_solver.
  - rewrite !value_of_app, (value_absent ServerAddressKey F _ HF eq_refl), (value_absent ServerAddressKey E _ HE eq_refl),
      (value_absent ServerAddressKey C _ HC eq_refl), (value_absent ServerAddressKey B _ HB eq_refl), (value_absent ServerAddressKey A _ HA eq_refl).
    unfold D. case_bool_decide; [done|]. rewrite value_of_app. by destruct (0 <? port (server s))%Z.
Qed.

Lemma terminal_reported status cbs err : err ∈ terminal (judged status cbs) → OnError err ∈ cbs.
Proof.
  revert status. induction cbs as [|cb cbs IH]; intros status; [by intros ?%elem_of_nil|].
  destruct cb as [| | |[code|]|e]; cbn [judged]; try (intros H; right; by eapply IH).
  destruct (rejected_response g e status) as [[|]|]; cbn; try (intros H; right; by eapply IH).
  intros [->|H]%elem_of_cons; [by left|right; by eapply IH].
Qed.
Lemma last_Some_elem_of {A} (l : list A) x : last l = Some x → x ∈ l.
Proof. intros [l' ->]%last_Some. apply elem_of_app. right. by apply list_elem_of_singleton. Qed.
Lemma dec_Z_nonempty z : dec_Z z ≠ [].
Proof. unfold dec_Z. destruct (z <? 0)%Z; [done|]. by destruct (dec_cons (Z.to_N z)) as (c & s & -> & _). Qed.

(** The end of a request, from the state the callbacks left. *)
Lemma Close_shape recording s now t0 : inst g = true → start s = Some t0 → (∃ t, metricErrorType s = Some t) → ∃ labels,
  metricAttrs s = Some labels
  ∧ Close recording (Some s) now = [RecordDuration (Sub now t0) labels]
      ++ (if negb (errored s) && negb (statusCode s =? 0)%Z && recording then
            [SetAttributes [(HTTPResponseStatusCodeKey, IntValue (statusCode s))]]
            ++ if httpFailed s then [SetStatus (StatusText (statusCode s))] else []
          else []) ++ [UpClose].
Proof.
  intros Hi Hs [t Ht]. destruct (metricAttrs_labels s t Ht) as (labels & Hl & _). exists labels. split; [done|].
  unfold Close, recordDuration. by rewrite Hi, Hs, Hl.
Qed.

(** C26: a request, whatever callbacks come between Start and Close. One span is opened
    and closed, and one duration recorded, before it is closed. When an error was
    reported that is not the rejection of a response, the last such error is the type
    the sample has, and the span's status is left to the upstream: a status code of an
    earlier attempt is written nowhere. Otherwise the outcome is that of the last
    response: its code is on the span, and the span is failed, with the code as the
    type of the sample, exactly when the client reports the response as an error: above
    299, or, for the typed client, when the endpoint rejected it. *)
Theorem elasticsearch_request (recording : bool) (name : bytes) (t t' : Z) (cbs : list callback)
    (Hinst : inst g = true) (Hok : ∀ err, OnError err ∈ cbs → answerable err) :
  let errs := judged 0 cbs in
  let status := default 0%Z (last (statuses cbs)) in
  let failed := if typed (cfg g) then rejected errs else (299 <? status)%Z in
  ∃ calls labels ends,
    request recording name t cbs t' = UpStart (esSystem ++ #"." ++ name) :: calls ++ [RecordDuration (Sub t' t) labels] ++ ends ++ [UpClose]
    ∧ Forall (λ c, deciding c = false) calls ∧ labels.*1 ⊆ label_keys ∧ NoDup labels.*1
    ∧ match last (terminal errs) with
      | Some err => ends = [] ∧ value_of ErrorTypeKey labels = StringValue <$> errorType err ∧ value_of DBResponseStatusCodeKey labels = None
      | None =>
        let outcome := if negb (status =? 0)%Z && failed then Some (StringValue (dec_Z status)) else None in
        value_of ErrorTypeKey labels = outcome ∧ value_of DBResponseStatusCodeKey labels = outcome
        ∧ ends = if negb (status =? 0)%Z && recording then
                   SetAttributes [(HTTPResponseStatusCodeKey, IntValue status)] :: (if failed then [SetStatus (StatusText status)] else [])
                 else []
      end.
Proof.
  intros errs status failed. unfold request. destruct (Start name t) as [s0 opening] eqn:E0. injection E0 as E0 <-.
  destruct (callbacks_after recording cbs s0 Hok) as (s & calls & E & Hq & [A1 A2 A3 A4 A5 A6 A7 A8]). rewrite E. subst s0.
  cbn in A1, A5, A6, A7, A8. fold errs in A6, A7, A8. fold status in A5.
  assert (Hf : httpFailed s = failed) by (unfold httpFailed, failed; by rewrite A8, A5).
  assert (Hlast : last (terminal errs) = None → terminal errs = []) by apply last_None.
  assert (Ht : ∃ e, metricErrorType s = Some e ∧ e = match last (terminal errs) with
    | Some err => default [] (errorType err) | None => if negb (status =? 0)%Z && failed then dec_Z status else [] end
    ∧ (∀ err, last (terminal errs) = Some err → errorType err = Some e ∧ e ≠ [])).
  { unfold metricErrorType. rewrite A6, A7, A5, Hf. destruct (last (terminal errs)) as [err|] eqn:El.
    - assert (Hin : answerable err) by (apply Hok; by apply terminal_reported with 0%Z, last_Some_elem_of).
      destruct Hin as [_ (e & He & Hne)]. exists e. rewrite bool_decide_false by (intros H; by rewrite H in El). cbn. rewrite He.
      split_and!; [done|done|]. by intros err' [= <-].
    - rewrite bool_decide_true by by apply Hlast. cbn. destruct (negb (status =? 0)%Z && failed); eexists; split_and!; done. }
  destruct Ht as (e & Ht & He & Hte). destruct (Close_shape recording s t' t Hinst A1) as (labels & Hl & HC); [by exists e|].
  destruct (metricAttrs_labels s e Ht) as (labels' & Hl' & Hk & Hv0 & Hv & Hd & _). rewrite Hl in Hl'. injection Hl' as <-.
  exists calls, labels, (if negb (errored s) && negb (statusCode s =? 0)%Z && recording then
            [SetAttributes [(HTTPResponseStatusCodeKey, IntValue (statusCode s))]] ++ (if httpFailed s then [SetStatus (StatusText (statusCode s))] else [])
          else []).
  rewrite HC. split_and!; [reflexivity|done|by apply sublist_subseteq|eapply sublist_NoDup; [|exact Hk]; by apply (bool_decide_unpack (NoDup label_keys))|].
  rewrite A6, A5, Hf in *. destruct (last (terminal errs)) as [err|] eqn:El.
  - destruct (Hte err eq_refl) as [Hte1 Hte2]. rewrite bool_decide_false in * by (intros H; by rewrite H in El). cbn in *. rewrite Hte1.
    split_and!; [done|by apply Hv|done].
  - rewrite bool_decide_true in * by by apply Hlast. cbn in *. split_and!; [|by destruct (_ && _)|done].
    subst e. destruct (negb (status =? 0)%Z && failed); [|by apply Hv0]. apply Hv, dec_Z_nonempty.
Qed.

(** The names the span gets. *)
Definition names_given (calls : list call) : list bytes := omap (λ c, match c with SetName n => Some n | _ => None end) calls.
Lemma names_app l k : names_given (l ++ k) = names_given l ++ names_given k.
Proof. apply omap_app. Qed.
Lemma callbacks_names recording cbs s : (∀ err, OnError err ∈ cbs → answerable err) →
  names_given (callbacks recording (Some s) cbs).2
  = if recording && negb (bool_decide (operation s = [])) then (λ v, esSystem ++ #"." ++ operation s ++ #" " ++ v) <$> indices cbs else [].
Proof.
  revert s. induction cbs as [|cb cbs IH]; intros s Hok; [by destruct (_ && _)|].
  destruct (on_after recording cb s) as (s1 & calls1 & E1 & Q1 & A1); [intros err ->; apply Hok; by left|].
  specialize (IH s1 (λ err H, Hok err (list_elem_of_further _ _ _ H))). cbn [callbacks]. rewrite E1.
  destruct (callbacks recording (Some s1) cbs) as [s2 calls2]. cbn [snd] in *. unfold names_given in *. rewrite omap_app, IH, (after_operation _ _ _ A1).
  change (indices (cb :: cbs)) with (indices ([cb] ++ cbs)). unfold indices at 2. rewrite omap_app, fmap_app. fold (indices cbs). fold (indices [cb]).
  assert (Hone : omap (λ c, match c with SetName n => Some n | _ => None end) calls1
    = if recording && negb (bool_decide (operation s = [])) then (λ v, esSystem ++ #"." ++ operation s ++ #" " ++ v) <$> indices [cb] else []).
  { destruct cb as [part v|endpoint query|url system endpoint|res|err]; cbn [on] in E1.
    - unfold RecordPathPart in E1. unfold indices. cbn. revert E1. repeat case_bool_decide; cbn; destruct recording; intros [= <- <-]; naive_solver.
    - injection E1 as _ <-. by destruct query, recording, (bool_decide (operation s = [])).
    - unfold AfterRequest in E1. by destruct url; injection E1 as _ <-; destruct recording, (bool_decide (operation s = [])).
    - unfold AfterResponse in E1. injection E1 as _ <-. by destruct recording, (bool_decide (operation s = [])).
    - unfold RecordError in E1.
      by destruct (rejected_response g err (statusCode s)) as [[|]|]; injection E1 as _ <-; destruct recording, (bool_decide (operation s = [])). }
  rewrite Hone. by destruct recording, (bool_decide (operation s = [])).
Qed.

Lemma Close_names recording st now : names_given (Close recording st now) = [].
Proof.
  unfold Close, recordDuration. destruct st as [s|]; [|done]. destruct (inst g), (start s); cbn; try destruct (metricAttrs s); cbn; try done;
    by destruct (negb (errored s) && _ && recording); cbn; try destruct (httpFailed s).
Qed.
Lemma no_duration d labels (l : list call) : forallb (λ c, match c with RecordDuration _ _ => false | _ => true end) l = true →
  RecordDuration d labels ∉ l.
Proof. intros H Hin. rewrite forallb_forall in H. apply list_elem_of_In in Hin. by apply H in Hin. Qed.
Lemma Close_duration recording s now d labels : RecordDuration d labels ∈ Close recording (Some s) now → metricAttrs s = Some labels.
Proof.
  unfold Close, recordDuration.
  assert (Hrest : RecordDuration d labels ∉ (if negb (errored s) && negb (statusCode s =? 0)%Z && recording then
            [SetAttributes [(HTTPResponseStatusCodeKey, IntValue (statusCode s))]]
            ++ if httpFailed s then [SetStatus (StatusText (statusCode s))] else []
          else []) ++ [UpClose]).
  { apply no_duration. by destruct (negb (errored s) && _ && recording), (httpFailed s). }
  destruct (inst g), (start s); cbn [mbind option_bind]; try (intros H; by destruct (Hrest H)).
  destruct (metricAttrs s) as [kvs|]; cbn [mbind option_bind]; [|intros H%list_elem_of_singleton; done].
  intros [[= _ ->]%list_elem_of_singleton|H]%elem_of_app; [done|by destruct (Hrest H)].
Qed.
Lemma indices_nonempty cbs i : i ∈ indices cbs → i ≠ [].
Proof.
  unfold indices. intros (cb & _ & H)%list_elem_of_omap. destruct cb; try done. revert H. case_bool_decide; [|done]. naive_solver.
Qed.

(** What a request is named after. The span has the name of the endpoint, and,
    while it records, one name more for each index that is recorded, the last of which
    it ends with; the sample has an index only when one index was addressed, and when
    the label is not turned off, and has that of the last one recorded. The address it
    has is that of the node the last attempt went to. *)
Theorem elasticsearch_target (recording : bool) (name : bytes) (t t' : Z) (cbs : list callback) (d : Z) (labels : list KeyValue)
    (Hname : name ≠ []) (Hok : ∀ err, OnError err ∈ cbs → answerable err)
    (Hin : RecordDuration d labels ∈ request recording name t cbs t') :
  names_given (request recording name t cbs t') = (if recording then (λ v, esSystem ++ #"." ++ name ++ #" " ++ v) <$> indices cbs else [])
  ∧ (∀ v, (DBCollectionNameKey, v) ∈ labels ↔ ∃ i, last (indices cbs) = Some i ∧ v = StringValue i
           ∧ ","%char ∉ i ∧ collectionMetricLabel (cfg g) = true)
  ∧ value_of ServerAddressKey labels = (h ← last (hosts cbs); if bool_decide (h = []) then None else Some (StringValue h)).
Proof.
  unfold request in *. destruct (Start name t) as [s0 opening] eqn:E0. injection E0 as E0 <-.
  destruct (callbacks_after recording cbs s0 Hok) as (s & calls & E & Hq & [A1 A2 A3 A4 A5 A6 A7 A8]).
  pose proof (callbacks_names recording cbs s0 Hok) as Hn. rewrite E in *. cbn [snd] in Hn. subst s0. cbn in A1, A2, A3, A4, Hn.
  rewrite bool_decide_false in A3, Hn by done. cbn in A3, Hn. rewrite andb_true_r in Hn.
  assert (Hl : metricAttrs s = Some labels).
  { apply elem_of_app in Hin as [Hin|[Hin|Hin]%elem_of_app]; [by apply list_elem_of_singleton in Hin| |by apply Close_duration in Hin].
    eapply Forall_forall in Hq; [|exact Hin]. done. }
  destruct (metricErrorType s) as [e|] eqn:He; [|unfold metricAttrs in Hl; by rewrite He in Hl].
  destruct (metricAttrs_labels s e He) as (labels' & Hl' & _ & _ & _ & _ & Hc & Hh). rewrite Hl in Hl'. injection Hl' as <-. split_and!.
  - rewrite !names_app, Hn, (Close_names recording (Some s) t'). by rewrite app_nil_r.
  - intros v. rewrite Hc, A3. destruct (last (indices cbs)) as [i|] eqn:Ei; cbn; [|split; [by intros (_ & ? & _)|by intros (i & ? & _)]].
    assert (i ≠ []) by by apply (indices_nonempty cbs), last_Some_elem_of.
    assert (Hcomma : Contains i #"," = false ↔ ","%char ∉ i).
    { rewrite <- not_true_iff_false. split; intros H1 H2; apply H1.
      - apply list_elem_of_split in H2 as (l1 & l2 & ->). apply infixb_spec. by exists l1, l2.
      - apply infixb_spec in H2 as (l1 & l2 & ->). apply elem_of_app. right. by left. }
    rewrite Hcomma. naive_solver.
  - rewrite Hh, A4. by destruct (last (hosts cbs)) as [h|].
Qed.

(** The errors the typed API makes of a rejected status are told apart by their
    message: one is the report of a status exactly when it is the generated text with an
    endpoint and the decimal digits of that status; a message that quotes a status is the
    report of that one and of no other. *)
Theorem rejected_status_error (r : eref) (text : bytes) (status : Z) (Htext : error_method (σ r) = Some text) :
  (typedStatusError (Some r) status = Some true ↔
     status ≠ 0%Z ∧ ∃ endpoint digits, text = status_error_head ++ endpoint ++ status_error_tail ++ digits ∧ endpoint ≠ [] ∧ newline ∉ endpoint
       ∧ digits ≠ [] ∧ Forall (λ c, is_digit c = true) digits ∧ Atoi digits = Some status)
  ∧ (∀ endpoint n, text = status_error_head ++ endpoint ++ status_error_tail ++ dec n → endpoint ≠ [] → newline ∉ endpoint →
       (0 < Z.of_N n < 2 ^ 63)%Z → typedStatusError (Some r) status = Some (bool_decide (status = Z.of_N n))).
Proof.
  clear g StatusText depth ans. unfold typedStatusError. rewrite Htext. cbn [mbind option_bind]. split.
  - destruct (Z.eqb_spec status 0) as [->|Hs]; [split; [done|by intros [? _]]|]. destruct (typedStatusErrorPattern text) as [digits|] eqn:Ep.
    + pose proof Ep as (endpoint & Ht & H1 & H2 & H3 & H4)%typedStatusErrorPattern_spec. split.
      * intros [= Hb]. apply bool_decide_eq_true in Hb. split; [done|]. by exists endpoint, digits.
      * intros (_ & endpoint' & digits' & Ht' & H1' & H2' & H3' & H4' & Ha).
        assert (Ep' : typedStatusErrorPattern text = Some digits') by (apply typedStatusErrorPattern_spec; by exists endpoint').
        rewrite Ep in Ep'. injection Ep' as <-. by rewrite bool_decide_true.
    + split; [done|]. intros (_ & endpoint & digits & Ht & H1 & H2 & H3 & H4 & _). exfalso.
      assert (Ep' : typedStatusErrorPattern text = Some digits) by (apply typedStatusErrorPattern_spec; by exists endpoint). congruence.
  - intros endpoint n Ht H1 H2 Hn.
    assert (Ep : typedStatusErrorPattern text = Some (dec n)).
    { apply typedStatusErrorPattern_spec. exists endpoint. split_and!; [done..|by destruct (dec_cons n) as (c & l & -> & _)|apply dec_all]. }
    rewrite Ep, (Atoi_dec n) by lia. destruct (Z.eqb_spec status 0) as [->|Hs]; [by rewrite bool_decide_false by lia|].
    f_equal. apply bool_decide_ext. naive_solver.
Qed.

(** A chain of [n] wrappers of package fmt around a cause. *)
Inductive wraps : option eref → option eref → nat → Prop :=
  | wraps_cause e : (∀ r, e = Some r → HasPrefix (type_name (σ r)) #"*fmt." = false) → wraps e e 0
  | wraps_fmt r next cause n : HasPrefix (type_name (σ r)) #"*fmt." = true → errors_Unwrap r = Some next → wraps next cause n → wraps (Some r) cause (S n).
Lemma concrete_type_wraps e cause n fuel : wraps e cause n → n ≤ fuel →
  concrete_type fuel e = Some (match cause with Some r => type_name (σ r) | None => #"_OTHER" end).
Proof.
  intros Hw. revert fuel. induction Hw as [e He|r next cause n Hp Hu _ IH]; intros fuel Hn.
  - destruct e as [r|]; [|by destruct fuel]. destruct fuel; cbn [concrete_type]; by rewrite (He r eq_refl).
  - destruct fuel as [|fuel]; [lia|]. cbn [concrete_type]. rewrite Hp, Hu. cbn [mbind option_bind]. apply IH. lia.
Qed.
Lemma concrete_type_named fuel e t : concrete_type fuel e = Some t → t = #"_OTHER" ∨ HasPrefix t #"*fmt." = false.
Proof.
  revert e. induction fuel as [|fuel IH]; intros [r|] H; cbn [concrete_type] in H; try (injection H as <-; by left).
  - destruct (HasPrefix (type_name (σ r)) _) eqn:E; [done|]. injection H as <-. by right.
  - destruct (HasPrefix (type_name (σ r)) _) eqn:E; [|injection H as <-; by right]. destruct (errors_Unwrap r) as [next|]; [|done]. by apply (IH next).
Qed.

(** The type of an error that ended a request. The wrappers of package fmt, however
    many, are looked through: the type is that of what they wrap, or the one for an
    unknown error when they wrap nothing or several errors, and never that of a wrapper;
    a deadline, or else a cancellation, found anywhere in the error comes first. Looking
    through as many wrappers as there are ends. *)
Theorem error_type_of_cause (err cause : option eref) (n : nat) (Hw : wraps err cause n) (Hn : n ≤ depth) :
  ∃ t, errorType err = Some t
  ∧ (t = #"_OTHER" ∨ HasPrefix t #"*fmt." = false)
  ∧ (errors_Is σ ans depth err DeadlineExceeded = true → t = #"context.DeadlineExceeded")
  ∧ (errors_Is σ ans depth err DeadlineExceeded = false → errors_Is σ ans depth err Canceled = true → t = #"context.Canceled")
  ∧ (errors_Is σ ans depth err DeadlineExceeded = false → errors_Is σ ans depth err Canceled = false →
       t = match cause with Some r => type_name (σ r) | None => #"_OTHER" end).
Proof.
  unfold errorType. pose proof (concrete_type_wraps err cause n depth Hw Hn) as Hc.
  destruct (errors_Is σ ans depth err DeadlineExceeded); [eexists; split_and!; try done; by right|].
  destruct (errors_Is σ ans depth err Canceled); [eexists; split_and!; try done; by right|].
  rewrite Hc. eexists. split_and!; try done. by apply (concrete_type_named depth err).
Qed.
End callbacks.

(** * Samples *)
(** A search that is retried after a 503 and answered by a 404; and one whose
    transport fails under two wrappers after a 503. *)
Definition sample_errors (r : eref) : error_value :=
  match r with
  | 1%positive => {| type_name := #"*fmt.wrapError"; nil_pointer := false; url_error := None; error_method := Some #"perform: refused";
                     unwrap_methods := UnwrapOne (Some (Some 2%positive)) |}
  | 2%positive => {| type_name := #"*fmt.wrapError"; nil_pointer := false; url_error := None; error_method := Some #"refused";
                     unwrap_methods := UnwrapOne (Some (Some 3%positive)) |}
  | 3%positive => {| type_name := #"*net.OpError"; nil_pointer := false; url_error := None; error_method := Some #"refused"; unwrap_methods := NoUnwrap |}
  | _ => {| type_name := #"*fmt.wrapError"; nil_pointer := false; url_error := None;
            error_method := Some (status_error_head ++ #"Ping" ++ status_error_tail ++ #"500"); unwrap_methods := NoUnwrap |}
  end.
Definition no_answers : error_answers := {| answers_is := λ _ _, false; answers_as := λ _ _, None; OpError_Err := λ _, None |}.
Definition sample_status_text (z : Z) : bytes := if (z =? 404)%Z then #"Not Found" else [].
Definition low_level : instrumentation :=
  {| inst := true; cfg := {| captureSearchBody := false; collectionMetricLabelDisabled := false; typed := false |} |}.
Definition answered_404 : list callback := [OnPathPart #"index" #"books"; OnAfterResponse (Some 503%Z); OnAfterResponse (Some 404%Z)].
Definition refused : list callback := [OnPathPart #"index" #"books"; OnAfterResponse (Some 503%Z); OnError (Some 1%positive)].
Lemma sample_answerable : ∀ err, OnError err ∈ refused → answerable sample_errors no_answers 4 err.
Proof.
  intros err [|[|[H|H]%elem_of_cons]%elem_of_cons]%elem_of_cons; try done; [|by apply elem_of_nil in H].
  injection H as ->. split; [intros r [= <-]; by eexists|]. exists #"*net.OpError". by vm_compute.
Qed.

Lemma elasticsearch_request_witness : ∃ calls labels,
  request sample_errors no_answers 4 sample_status_text low_level true #"search" 0 refused 9
    = UpStart #"elasticsearch.search" :: calls ++ [RecordDuration (Sub 9 0) labels] ++ [UpClose]
  ∧ value_of ErrorTypeKey labels = Some (StringValue #"*net.OpError").
Proof.
  destruct (elasticsearch_request sample_errors no_answers 4 sample_status_text low_level true #"search" 0 9 refused eq_refl sample_answerable)
    as (calls & labels & ends & E & _ & _ & _ & Hend).
  exists calls, labels. cbv iota zeta beta delta [refused] in E, Hend.
  change (match Some (Some 1%positive) with Some err => ends = [] ∧ value_of ErrorTypeKey labels = StringValue <$> errorType sample_errors no_answers 4 err
    ∧ value_of DBResponseStatusCodeKey labels = None | None => False end) in Hend.
  destruct Hend as (-> & Ht & _). split; [exact E|]. etransitivity; [exact Ht|]. by vm_compute.
Defined.

Lemma elasticsearch_target_witness : ∀ d labels,
  RecordDuration d labels ∈ request sample_errors no_answers 4 sample_status_text low_level true #"search" 0 refused 9 →
  (DBCollectionNameKey, StringValue #"books") ∈ labels.
Proof.
  intros d labels Hin.
  destruct (elasticsearch_target sample_errors no_answers 4 sample_status_text low_level true #"search" 0 9 refused d labels) as (_ & Hc & _);
    [done|exact sample_answerable|exact Hin|].
  apply Hc. exists #"books". split_and!; [by vm_compute|done|by apply (bool_decide_unpack (_ ∉ _))|done].
Defined.

Lemma rejected_status_error_witness : ∀ st, typedStatusError sample_errors (Some 4%positive) st = Some (bool_decide (st = 500%Z)).
Proof.
  intros st. destruct (rejected_status_error sample_errors 4%positive (status_error_head ++ #"Ping" ++ status_error_tail ++ #"500") st eq_refl) as [_ H].
  apply (H #"Ping" 500%N); [done|done|by apply (bool_decide_unpack (_ ∉ _))|done].
Defined.

Lemma error_type_of_cause_witness : errorType sample_errors no_answers 4 (Some 1%positive) = Some #"*net.OpError".
Proof.
  destruct (error_type_of_cause sample_errors no_answers 4 (Some 1%positive) (Some 3%positive) 2) as (t & -> & _ & _ & _ & H).
  - do 2 (eapply wraps_fmt; [by vm_compute|reflexivity|]). apply wraps_cause. intros r [= <-]. by vm_compute.
  - lia.
  - f_equal. by apply H.
Defined.
