(* ===== verification/Profiling.v ===== *)
(** internal/profiling/profiling.go: the configuration the profiler is started with,
    its tags, and the adapter its log lines go through. The profiler, fmt.Sprintf and
    the environment are parameters. *)
From S2P Require Import Prelude Utf8 GoStrings GoCodec GoNum GoFields SampleLib RedactDecode RedactText RedactSecrets RedactHeaders Attribute Semconv Utf8Valid.

(** * Tags *)
Definition maxPyroscopeTagValueBytes : nat := 1024.
(** The loop over the rune boundaries: where the last one at or before the bound is. *)
Fixpoint last_boundary (rs : list (N * bytes)) (i lastBoundary : nat) : nat :=
  match rs with
  | [] => lastBoundary
  | (_, b) :: rs => if maxPyroscopeTagValueBytes <? i then lastBoundary else last_boundary rs (i + length b) i
  end.
(** tagWarnOnce is the flag; the warning, when one is logged, names the tag. *)
Definition truncatePyroscopeTagValue (tag value : bytes) (logger warned : bool) : bytes * bool * list bytes :=
  if length value <=? maxPyroscopeTagValueBytes then (value, warned, [])
  else (take (last_boundary (runes value) 0 0) value, logger || warned, if logger && negb warned then [tag] else []).

Definition ServiceNameKey : bytes := #"service.name".
Definition tag_mappings : list (bytes * bytes) :=
  [(ServiceNameKey, #"service_name"); ( #"service.namespace", #"service_namespace"); ( #"service.version", #"service_version");
   ( #"deployment.environment.name", #"service_env"); ( #"host.name", #"hostname"); ( #"k8s.pod.name", #"pod");
   ( #"k8s.namespace.name", #"k8s_namespace")].
(** One turn of the loop over the mappings. *)
Definition tag_step (set : list KeyValue) (logger : bool) (st : gmap bytes bytes * bool * list bytes) (mapping : bytes * bytes) :
    gmap bytes bytes * bool * list bytes :=
  let '(tags, warned, warnings) := st in
  match value_of mapping.1 set with
  | Some (StringValue s) =>
    let tagValue := TrimSpace s in
    if bool_decide (tagValue = []) then st
    else let '(value, warned, more) := truncatePyroscopeTagValue mapping.2 tagValue logger warned in
         (<[mapping.2 := value]> tags, warned, warnings ++ more)
  | _ => st
  end.
(** The Set of a Resource is its attributes, a key once; [None] is no Resource. *)
Definition profileTagsFromResource (res : option (list KeyValue)) (logger warned : bool) : option (gmap bytes bytes) * bool * list bytes :=
  match res with
  | None => (None, warned, [])
  | Some set => let '(tags, warned, warnings) := foldl (tag_step set logger) (∅, warned, []) tag_mappings in (Some tags, warned, warnings)
  end.

(** * What is kept out of the log *)
Section redaction.
Context `{L : GoLib}.
(** The value of PYROSCOPE_ADHOC_SERVER_ADDRESS. *)
Context (adhocServerAddress : bytes).

Definition profilingEndpoints (configured : bytes) : list bytes :=
  [configured] ++ if negb (bool_decide (adhocServerAddress = [])) && negb (bool_decide (adhocServerAddress = configured)) then [adhocServerAddress] else [].
(** The forms of the credential an address makes net/http send. *)
Definition basic_forms (addr : bytes) : list bytes :=
  let basic := BasicAuthHeader addr in
  if bool_decide (basic = []) then [] else HeaderValueForms basic ++ HeaderValueForms (TrimPrefix basic #"Basic ").
(** The headers are in the order a range over the map visits them. *)
Definition authHeaderSecrets (endpoint : bytes) (headers : list (bytes * bytes)) : list bytes :=
  let secrets := foldl (λ acc h, foldl dedup_step (foldl dedup_step acc (HeaderNameForms h.1)) (HeaderValueForms h.2)) [] headers in
  let secrets := foldl (λ acc addr, foldl dedup_step acc (basic_forms addr)) secrets [endpoint; adhocServerAddress] in
  sort_strings secrets.

Record Config := { ServiceName : bytes; Endpoint : bytes; AuthHeaders : list (bytes * bytes); Resource : option (list KeyValue); Logger : bool }.
Record pyroscopeSlogAdapter := { logger : bool; endpoints : list bytes; secrets : list bytes }.
Definition newPyroscopeSlogAdapter (cfg : Config) : pyroscopeSlogAdapter :=
  {| logger := Logger cfg; endpoints := profilingEndpoints (Endpoint cfg); secrets := authHeaderSecrets (Endpoint cfg) (AuthHeaders cfg) |}.

(** [Sprintf] renders a format with its arguments. *)
Context {Arg : Type} (Sprintf : bytes → list Arg → bytes).
Definition scrub (a : pyroscopeSlogAdapter) (format : bytes) (args : list Arg) : bytes :=
  Secrets (InText (Sprintf format args) (endpoints a)) (secrets a).
Inductive level := Info | Debug | Error.
Definition record_line (l : level) (a : pyroscopeSlogAdapter) (format : bytes) (args : list Arg) : list (level * bytes) :=
  if logger a then [(l, scrub a format args)] else [].
Definition Infof := record_line Info.
Definition Debugf := record_line Debug.
Definition Errorf := record_line Error.

(** * What the profiler is started with *)
Inductive ProfileType := ProfileCPU | ProfileAllocObjects | ProfileAllocSpace | ProfileInuseObjects | ProfileInuseSpace.
(** A nil map is [None]. *)
Definition cloneStringMap (m : list (bytes * bytes)) : option (gmap bytes bytes) := match m with [] => None | _ => Some (list_to_map m) end.
Record pyroscope_Config := {
  ApplicationName : bytes; ServerAddress : bytes; HTTPHeaders : option (gmap bytes bytes); Tags : option (gmap bytes bytes);
  ProfileTypes : list ProfileType; pyroscope_Logger : pyroscopeSlogAdapter;
}.
Definition start_config (cfg : Config) (warned : bool) : pyroscope_Config :=
  {| ApplicationName := ServiceName cfg; ServerAddress := Endpoint cfg; HTTPHeaders := cloneStringMap (AuthHeaders cfg);
     Tags := (profileTagsFromResource (Resource cfg) (Logger cfg) warned).1.1;
     ProfileTypes := [ProfileCPU; ProfileAllocObjects; ProfileAllocSpace; ProfileInuseObjects; ProfileInuseSpace];
     pyroscope_Logger := newPyroscopeSlogAdapter cfg |}.

(** * The secrets *)
Lemma elem_of_secrets endpoint headers x : x ∈ authHeaderSecrets endpoint headers ↔
  x ≠ [] ∧ ((∃ h, h ∈ headers ∧ (x ∈ HeaderNameForms h.1 ∨ x ∈ HeaderValueForms h.2)) ∨ x ∈ basic_forms endpoint ∨ x ∈ basic_forms adhocServerAddress).
Proof.
  unfold authHeaderSecrets. rewrite sort_strings_perm. cbn [foldl]. rewrite !dedup_fold.
  assert (H : ∀ acc, x ∈ foldl (λ acc h, foldl dedup_step (foldl dedup_step acc (HeaderNameForms h.1)) (HeaderValueForms h.2)) acc headers
    ↔ x ∈ acc ∨ x ≠ [] ∧ ∃ h, h ∈ headers ∧ (x ∈ HeaderNameForms h.1 ∨ x ∈ HeaderValueForms h.2)).
  { induction headers as [|h headers IH]; intros acc; cbn [foldl]; [setoid_rewrite elem_of_nil; naive_solver|].
    rewrite IH, !dedup_fold. setoid_rewrite elem_of_cons. naive_solver. }
  rewrite H, elem_of_nil. tauto.
Qed.
Lemma authHeaderSecrets_NoDup endpoint headers : NoDup (authHeaderSecrets endpoint headers).
Proof.
  unfold authHeaderSecrets. rewrite sort_strings_perm. cbn [foldl]. do 2 apply dedup_fold_NoDup.
  assert (H : ∀ acc, NoDup acc → NoDup (foldl (λ acc h, foldl dedup_step (foldl dedup_step acc (HeaderNameForms h.1)) (HeaderValueForms h.2)) acc headers)).
  { induction headers as [|h headers IH]; intros acc Hacc; cbn [foldl]; [done|]. by apply IH, dedup_fold_NoDup, dedup_fold_NoDup. }
  apply H, NoDup_nil_2.
Qed.

(** The list is the same whatever order the map is visited in. *)
Lemma authHeaderSecrets_order endpoint headers headers' : headers ≡ₚ headers' → authHeaderSecrets endpoint headers = authHeaderSecrets endpoint headers'.
Proof.
  intros Hp.
  assert (Hs : ∀ l, authHeaderSecrets endpoint l = sort_strings (authHeaderSecrets endpoint l)).
  { intros l. apply (StronglySorted_unique bytes_le); [apply sort_strings_sorted|apply sort_strings_sorted|]. by rewrite sort_strings_perm. }
  rewrite (Hs headers), (Hs headers'). apply sort_strings_set; [apply authHeaderSecrets_NoDup..|]. intros x.
  rewrite !elem_of_secrets. setoid_rewrite Hp. done.
Qed.

(** A credential of the configuration, as it is configured or sent: the name or the
    value of a header, or what an address makes net/http send. *)
Inductive profile_credential (cfg : Config) : bytes → Prop :=
  | pc_name name value s : (name, value) ∈ AuthHeaders cfg → s ∈ [name; HeaderWireName name] → profile_credential cfg s
  | pc_value name value s : (name, value) ∈ AuthHeaders cfg → s ∈ [value; HeaderWireValue value] → profile_credential cfg s
  | pc_url addr u info s : addr ∈ [Endpoint cfg; adhocServerAddress] → Contains addr #"@" = true → url_Parse addr = Some u → User u = Some info →
      s ∈ [BasicAuthValue (user_name info) (user_password info); EncodeBase64 (user_name info ++ #":" ++ user_password info)] → profile_credential cfg s.

Lemma credential_secret cfg s : profile_credential cfg s → s ≠ [] → s ∈ authHeaderSecrets (Endpoint cfg) (AuthHeaders cfg).
Proof.
  intros Hc Hs. apply elem_of_secrets. split; [done|].
  destruct Hc as [name value s Hin Hf|name value s Hin Hf|addr u info s Ha Hat Hp Hu Hf].
  - left. exists (name, value). split; [done|]. left. apply list_elem_of_bind. exists s. split; [apply Renderings_self|].
    apply elem_of_cons in Hf as [->|Hf]; [by left|]. apply list_elem_of_singleton in Hf as ->. right; by left.
  - left. exists (name, value). split; [done|]. right. apply (value_form_listed _ _ s); [|apply Renderings_self].
    apply elem_of_cons in Hf as [->|Hf]; [by left|]. apply list_elem_of_singleton in Hf as ->. right; by left.
  - right. assert (H : s ∈ basic_forms addr).
    { unfold basic_forms, BasicAuthHeader. rewrite Hat, Hp, Hu.
      assert (addr ≠ []) by (intros ->; by vm_compute in Hat). rewrite (bool_decide_false (addr = [])) by done. cbn [orb negb].
      rewrite bool_decide_false by by unfold BasicAuthValue. apply elem_of_app. apply elem_of_cons in Hf as [->|Hf].
      - left. apply HeaderValueForms_self.
      - apply list_elem_of_singleton in Hf as ->. right. unfold BasicAuthValue. rewrite TrimPrefix_app.
        apply HeaderValueForms_self. }
    apply elem_of_cons in Ha as [->|Ha]; [by left|]. apply list_elem_of_singleton in Ha as ->. by right.
Qed.

(** Nothing the profiler logs shows a credential it was configured with. Whatever
    it formats into a line, at whatever level, the record has no header value, no
    header name and no Authorization value derived from the endpoint or from the one
    that overrides it, as configured or as sent, in any reading of the text, when the
    value is long enough to be told from other text; or the text is given up. *)
Theorem profiling_line_redacted (Hlaws : GoLibLaws L) (cfg : Config) (l l' : level) (format : bytes) (args : list Arg) (text secret : bytes) (k : nat)
    (Hrec : (l', text) ∈ record_line l (newPyroscopeSlogAdapter cfg) format args) (Hc : profile_credential cfg secret)
    (Hlen : shortSecretLen ≤ length secret) (Hun : unlike_placeholder secret) :
  l' = l ∧ Logger cfg = true ∧ (text = redactedMessage ∨ ¬ infix secret (Nat.iter k decodeOnce text)).
Proof.
  unfold record_line in Hrec. cbn [logger newPyroscopeSlogAdapter] in Hrec. destruct (Logger cfg); [|by apply elem_of_nil in Hrec].
  apply list_elem_of_singleton in Hrec as [= -> ->]. split_and!; [done|done|]. unfold scrub. cbn [secrets newPyroscopeSlogAdapter].
  apply Secrets_removes; [done| |done|done]. apply credential_secret; [done|]. intros ->. cbn in Hlen. unfold shortSecretLen in Hlen. lia.
Qed.
End redaction.

(** * The tags *)
Lemma last_boundary_spec rs i last : last ≤ maxPyroscopeTagValueBytes →
  last_boundary rs i last ≤ maxPyroscopeTagValueBytes
  ∧ (last_boundary rs i last = last ∨ ∃ rs1 rs2, rs = rs1 ++ rs2 ∧ last_boundary rs i last = i + length (rs1 ≫= snd))
  ∧ (Forall (λ r, length r.2 ≤ 4) rs → maxPyroscopeTagValueBytes < i + length (rs ≫= snd) → i ≤ last + 4 →
     maxPyroscopeTagValueBytes - 3 ≤ last_boundary rs i last).
Proof.
  revert i last. induction rs as [|[r b] rs IH]; intros i last Hl; cbn [last_boundary].
  - split_and!; [done|by left|]. intros _ Hm Hi. assert (length (@nil (N * bytes) ≫= snd) = 0) as E by done. rewrite E in Hm. lia.
  - destruct (Nat.ltb_spec maxPyroscopeTagValueBytes i) as [Hi|Hi].
    + split_and!; [done|by left|]. lia.
    + destruct (IH (i + length b) i Hi) as (H1 & H2 & H3). split_and!; [done| |].
      * right. destruct H2 as [->|(rs1 & rs2 & -> & ->)]; [exists [], ((r, b) :: rs); cbn; by split; [|lia]|].
        exists ((r, b) :: rs1), rs2. split; [done|]. rewrite bind_cons, length_app. cbn. lia.
      * intros [Hb Hr]%Forall_cons. rewrite bind_cons, length_app. cbn [snd] in *. intros Hm _. apply H3; [done|lia|lia].
Qed.
Lemma runes_widths s : Forall (λ r, length r.2 ≤ 4) (runes s).
Proof.
  induction s as [|s Hs IH] using runes_ind; [by constructor|]. destruct s as [|c s]; [done|]. rewrite runes_cons. constructor; [|done].
  cbn [snd]. rewrite length_take. pose proof (rune_width_le4 (c :: s)). lia.
Qed.
Lemma rune_take s n : rune_ok s = true → rune_width s ≤ n → rune_ok (take n s) = true ∧ rune_width (take n s) = rune_width s.
Proof. intros Hok Hn. unfold rune_ok, rune_width. rewrite (decode_rune_take s n Hok Hn). by split. Qed.
Lemma take_runes_valid s rs1 rs2 : ValidString s = true → runes s = rs1 ++ rs2 → ValidString (take (length (rs1 ≫= snd)) s) = true.
Proof.
  revert rs1. induction s as [|s Hs IH] using runes_ind; intros rs1 Hv Hr; [by rewrite take_nil|].
  destruct rs1 as [|[r b] rs1]; [by rewrite take_0|]. rewrite ValidString_cons in Hv by done. apply andb_true_iff in Hv as [Hok Hv].
  destruct s as [|c s]; [done|]. pose proof (decode_rune_width (c :: s) Hs) as Hw. rewrite runes_cons in Hr. injection Hr as Er Eb Hr. specialize (IH rs1 Hv Hr).
  set (m := length (rs1 ≫= snd)) in *. rewrite bind_cons, length_app. fold m. cbn [snd]. rewrite <- Eb, length_take_le by lia.
  destruct (rune_take (c :: s) (rune_width (c :: s) + m) Hok ltac:(lia)) as [Ho Hwd].
  rewrite ValidString_cons by (destruct (rune_width (c :: s) + m) eqn:E; [lia|done]). rewrite Ho, Hwd. cbn [andb]. rewrite skipn_firstn_comm.
  replace (rune_width (c :: s) + m - rune_width (c :: s)) with m by lia. done.
Qed.

(** What a tag keeps of a value. *)
Definition tag_cut (value cut : bytes) : Prop :=
  cut `prefix_of` value ∧ length cut ≤ maxPyroscopeTagValueBytes
  ∧ (length value ≤ maxPyroscopeTagValueBytes → cut = value)
  ∧ (maxPyroscopeTagValueBytes < length value → maxPyroscopeTagValueBytes - 3 ≤ length cut)
  ∧ (ValidString value = true → ValidString cut = true).
Lemma truncate_cut tag value logger warned : tag_cut value (truncatePyroscopeTagValue tag value logger warned).1.1.
Proof.
  unfold truncatePyroscopeTagValue. destruct (Nat.leb_spec (length value) maxPyroscopeTagValueBytes) as [Hl|Hl]; cbn [fst].
  - split_and!; [done|done|done|lia|done].
  - destruct (last_boundary_spec (runes value) 0 0) as (H1 & H2 & H3); [lia|]. set (n := last_boundary (runes value) 0 0) in *.
    split_and!; [exists (drop n value); by rewrite take_drop|rewrite length_take; lia|lia| |].
    + intros _. rewrite length_take. assert (maxPyroscopeTagValueBytes - 3 ≤ n); [|lia]. apply H3; [apply runes_widths|by rewrite runes_concat|lia].
    + intros Hv. destruct H2 as [->|(rs1 & rs2 & E & ->)]; [by rewrite take_0|]. by apply (take_runes_valid value rs1 rs2).
Qed.
Lemma truncate_warns tag value logger warned : let '(_, w, warnings) := truncatePyroscopeTagValue tag value logger warned in
  warnings = [] ∧ w = warned ∨ warned = false ∧ w = true ∧ warnings = [tag] ∧ logger = true ∨ warnings = [] ∧ logger = true ∧ w = true.
Proof. unfold truncatePyroscopeTagValue. destruct (_ <=? _); [by left|]. destruct logger, warned; cbn; naive_solver. Qed.

(** The text an attribute gives a tag. *)
Definition tag_text (set : list KeyValue) (attr : bytes) : option bytes :=
  match value_of attr set with Some (StringValue s) => if bool_decide (TrimSpace s = []) then None else Some (TrimSpace s) | _ => None end.

Lemma tag_fold set logger ms tags warned warnings : NoDup ms.*2 → length warnings ≤ 1 → (warnings = [] ∨ warned = true) →
  let '(tags', warned', warnings') := foldl (tag_step set logger) (tags, warned, warnings) ms in
  (∀ attr tag, (attr, tag) ∈ ms → match tag_text set attr with
     | Some v => ∃ cut, tags' !! tag = Some cut ∧ tag_cut v cut | None => tags' !! tag = tags !! tag end)
  ∧ (∀ tag, tag ∉ ms.*2 → tags' !! tag = tags !! tag)
  ∧ length warnings' ≤ 1 ∧ (warnings' = [] ∨ warned' = true) ∧ (logger = false ∨ warned = true → warnings' = warnings).
Proof.
  revert tags warned warnings. induction ms as [|[attr tag] ms IH]; intros tags warned warnings Hn Hl Hw; cbn [foldl].
  - split_and!; [intros a t H; by apply elem_of_nil in H|done|done|done|done].
  - cbn in Hn. apply NoDup_cons in Hn as [Hni Hn]. destruct (tag_step set logger (tags, warned, warnings) (attr, tag)) as [[tags1 warned1] warnings1] eqn:E1.
    assert (Hstep : match tag_text set attr with Some v => ∃ cut, tags1 = <[tag := cut]> tags ∧ tag_cut v cut | None => tags1 = tags end
      ∧ length warnings1 ≤ 1 ∧ (warnings1 = [] ∨ warned1 = true) ∧ (logger = false ∨ warned = true → warnings1 = warnings)
      ∧ (warned = true → warned1 = true)).
    { unfold tag_step in E1. cbn [fst snd] in E1. unfold tag_text. destruct (value_of attr set) as [[s|z|b]|]; try (injection E1 as <- <- <-; by split_and!).
      case_bool_decide as Es; [injection E1 as <- <- <-; by split_and!|].
      pose proof (truncate_cut tag (TrimSpace s) logger warned) as Hcut. pose proof (truncate_warns tag (TrimSpace s) logger warned) as Hwn.
      destruct (truncatePyroscopeTagValue tag (TrimSpace s) logger warned) as [[v w] more]. injection E1 as <- <- <-. cbn in Hcut.
      split; [by exists v|]. destruct Hwn as [[-> ->]|[(-> & -> & -> & ->)|(-> & -> & ->)]]; rewrite ?app_nil_r.
      - by split_and!.
      - destruct Hw as [->|?]; [|done]. cbn. split_and!; [done|by right|by intros [?|?]|done].
      - split_and!; [done|by right|done|done]. }
    destruct Hstep as (Ht & Hl1 & Hw1 & Hq & Hmono). specialize (IH tags1 warned1 warnings1 Hn Hl1 Hw1).
    destruct (foldl (tag_step set logger) (tags1, warned1, warnings1) ms) as [[tags' warned'] warnings']. destruct IH as (IH1 & IH2 & IH3 & IH4 & IH5).
    split_and!.
    + intros a t [[= -> ->]|Hin]%elem_of_cons.
      * destruct (tag_text set attr) as [v|]; [destruct Ht as (cut & -> & Hcut)|subst tags1]; [exists cut; split; [|done]|];
          rewrite IH2 by done; [apply lookup_insert_eq|done].
      * specialize (IH1 a t Hin). assert (t ≠ tag) by (intros ->; apply Hni; by apply (list_elem_of_fmap_2' snd _ (a, tag))).
        destruct (tag_text set a); [done|]. rewrite IH1. destruct (tag_text set attr); [destruct Ht as (cut & -> & _); by rewrite lookup_insert_ne|by subst].
    + intros t Hnt. cbn in Hnt. apply not_elem_of_cons in Hnt as [Hne Hnt]. rewrite IH2 by done.
      destruct (tag_text set attr); [destruct Ht as (cut & -> & _); by rewrite lookup_insert_ne|by subst].
    + done.
    + done.
    + intros Hg. rewrite IH5, Hq; [done|done|]. destruct Hg as [?|?]; [by left|right; by apply Hmono].
Qed.

(** The tags of the profiler are exactly the identity the Resource has as text. Each
    of the seven attributes that is a string and not blank gives its tag, trimmed, whole
    up to 1024 bytes and otherwise cut between runes with at most three bytes lost to
    that; any other attribute gives none. One truncation at most is warned of, only with
    a logger, and none once one has been in the process. *)
Theorem profile_tags (set : list KeyValue) (logger warned : bool) :
  let '(tags, _, warnings) := profileTagsFromResource (Some set) logger warned in
  ∃ m, tags = Some m
  ∧ (∀ attr tag, (attr, tag) ∈ tag_mappings → match tag_text set attr with Some v => ∃ cut, m !! tag = Some cut ∧ tag_cut v cut | None => m !! tag = None end)
  ∧ dom m ⊆ list_to_set tag_mappings.*2
  ∧ length warnings ≤ 1 ∧ (logger = false ∨ warned = true → warnings = []).
Proof.
  unfold profileTagsFromResource. pose proof (tag_fold set logger tag_mappings ∅ warned []) as H.
  destruct (foldl (tag_step set logger) (∅, warned, []) tag_mappings) as [[m w] warnings].
  destruct H as (H1 & H2 & H3 & H4 & H5); [by apply (bool_decide_unpack (NoDup _))|cbn; lia|by left|]. exists m. split_and!; [done| | |done|done].
  - intros attr tag Hin. specialize (H1 attr tag Hin). by destruct (tag_text set attr).
  - intros t Ht. destruct (decide (t ∈ tag_mappings.*2)) as [Hin|Hni]; [by apply elem_of_list_to_set|]. apply elem_of_dom in Ht as [v Hv].
    by rewrite H2, lookup_empty in Hv.
Qed.

(** * Samples *)
Definition sample_config : Config :=
  {| ServiceName := #"shop"; Endpoint := #"http://u:p@pyroscope"; AuthHeaders := [( #"X-Scope", #"tok&en12")]; Resource := None; Logger := true |}.
Definition sample_Sprintf (format : bytes) (args : list bytes) : bytes := format ++ concat args.
Lemma profiling_line_redacted_witness : ∀ text,
  (Error, text) ∈ Errorf sample_Sprintf (newPyroscopeSlogAdapter [] sample_config) #"status 400: " [ #"tok&en12"] →
  text = redactedMessage ∨ ¬ infix #"tok&en12" (Nat.iter 3 decodeOnce text).
Proof.
  intros text Hin.
  assert (Hun : unlike_placeholder #"tok&en12").
  { split_and!; [done|by apply byte_in_false|by apply byte_in_false|]. intros H%infixb_spec. by vm_compute in H. }
  destruct (profiling_line_redacted [] sample_Sprintf sample_laws sample_config Error Error #"status 400: " [ #"tok&en12"] text #"tok&en12" 3 Hin)
    as (_ & _ & H); [|vm_compute; lia|exact Hun|exact H].
  apply (pc_value [] sample_config #"X-Scope" #"tok&en12"); by left.
Defined.
