(* ===== verification/ProfilerSlot.v ===== *)
(** internal/profiling/profiling.go: Start and the closer it returns. The profiler of
    a process is one: a flag under a mutex says that it is taken. A closer runs the
    profiler's Stop on a goroutine, which gives the slot back when Stop returns, and
    answers when the goroutine is through or its context is done. Calls of Start, of
    closers, the goroutines, the contexts and the profiler are interleaved; the part
    under the mutex is one step. *)
From S2P Require Import Prelude.

Section slot.
(** Errors of the profiler and of contexts. *)
Context {E : Type}.

(** Where the goroutine of a closer is: not started, in Stop, before the mutex, before
    the send, or through; and where the call of the closer is. *)
Inductive stopper := NotStarted | InStop | AtRelease (err : option E) | AtSend (err : option E) | Sent (err : option E).
Inductive closer := Uncalled | Selecting | Answered (err : option E).
(** A profiler that was started, with the context its closer was given. *)
Record session := { goroutine : stopper; call : closer; close_ctx : option E }.
Record state := { profilerStarted : bool; sessions : list session }.
Definition init : state := {| profilerStarted := false; sessions := [] |}.
Definition fresh : session := {| goroutine := NotStarted; call := Uncalled; close_ctx := None |}.

(** Start: [ctx] is ctx.Err(), [started] what pyroscopeStart answers. *)
Inductive start_answer := Started | ErrAlreadyStarted | StartErr (err : E).
Definition Start (ctx started : option E) (s : state) : state * start_answer :=
  match ctx with
  | Some e => (s, StartErr e)
  | None =>
    if profilerStarted s then (s, ErrAlreadyStarted)
    else match started with
         | Some e => (s, StartErr e)
         | None => ({| profilerStarted := true; sessions := sessions s ++ [fresh] |}, Started)
         end
  end.

Definition with_session (s : state) (i : nat) (flag : bool) (x : session) : state :=
  {| profilerStarted := flag; sessions := <[i := x]> (sessions s) |}.
(** The closer's answer when the goroutine is through: a context that is done wins. *)
Definition answer_of (ctx err : option E) : option E := match ctx with Some e => Some e | None => err end.

(** The steps of session [i]. The closer is called once, as Shutdown does. *)
Inductive closing (i : nat) : state → state → Prop :=
  | cl_call s x : sessions s !! i = Some x → call x = Uncalled →
      closing i s (with_session s i (profilerStarted s) {| goroutine := InStop; call := Selecting; close_ctx := close_ctx x |})
  | cl_stopped s x err : sessions s !! i = Some x → goroutine x = InStop →
      closing i s (with_session s i (profilerStarted s) {| goroutine := AtRelease err; call := call x; close_ctx := close_ctx x |})
  | cl_release s x err : sessions s !! i = Some x → goroutine x = AtRelease err →
      closing i s (with_session s i false {| goroutine := AtSend err; call := call x; close_ctx := close_ctx x |})
  | cl_send s x err : sessions s !! i = Some x → goroutine x = AtSend err →
      closing i s (with_session s i (profilerStarted s) {| goroutine := Sent err; call := call x; close_ctx := close_ctx x |})
  | cl_ctx s x e : sessions s !! i = Some x → close_ctx x = None →
      closing i s (with_session s i (profilerStarted s) {| goroutine := goroutine x; call := call x; close_ctx := Some e |})
  | cl_done s x err : sessions s !! i = Some x → call x = Selecting → goroutine x = Sent err →
      closing i s (with_session s i (profilerStarted s) {| goroutine := goroutine x; call := Answered (answer_of (close_ctx x) err); close_ctx := close_ctx x |})
  | cl_expired s x e : sessions s !! i = Some x → call x = Selecting → close_ctx x = Some e →
      closing i s (with_session s i (profilerStarted s) {| goroutine := goroutine x; call := Answered (Some e); close_ctx := close_ctx x |}).

Inductive party := Starter | Session (i : nat).
Definition step (p : party) (s s' : state) : Prop :=
  match p with Starter => ∃ ctx started, s' = (Start ctx started s).1 | Session i => closing i s s' end.
Inductive run : state → list party → state → Prop :=
  | run_nil s : run s [] s
  | run_step s p s1 ps s2 : step p s s1 → run s1 ps s2 → run s (p :: ps) s2.

(** * The invariant *)
(** A session that has the slot, and one whose profiler has not stopped. *)
Definition holds (x : session) : bool := match goroutine x with NotStarted | InStop | AtRelease _ => true | _ => false end.
Definition running (x : session) : bool := match goroutine x with NotStarted | InStop => true | _ => false end.
Definition session_ok (x : session) : Prop :=
  match call x with
  | Uncalled => goroutine x = NotStarted
  | Selecting => goroutine x ≠ NotStarted
  | Answered r => goroutine x ≠ NotStarted ∧ (goroutine x = Sent r ∨ ∃ e, close_ctx x = Some e ∧ r = Some e)
  end.
Record inv (s : state) : Prop := {
  inv_flag : profilerStarted s = true → ∃ i x, sessions s !! i = Some x ∧ holds x = true ∧ ∀ j y, sessions s !! j = Some y → holds y = true → j = i;
  inv_free : profilerStarted s = false → Forall (λ x, holds x = false) (sessions s);
  inv_sessions : Forall session_ok (sessions s);
}.

Lemma Start_inv ctx started s : inv s → inv (Start ctx started s).1.
Proof.
  intros Hi. unfold Start. destruct ctx; [done|]. destruct (profilerStarted s) eqn:Ep; [done|].
  destruct started; [done|]. cbn [fst]. destruct Hi as [_ Hn Ho]. specialize (Hn Ep). split; [|done|by apply Forall_app_2, Forall_singleton].
  intros _. exists (length (sessions s)), fresh. cbn. split_and!; [by apply list_lookup_middle|done|].
  intros j y [Hj|[Hle Hj]]%lookup_app_Some Hh; [eapply Forall_lookup_1 in Hn; [|exact Hj]; congruence|].
  apply list_lookup_singleton_Some in Hj as [Hj _]. lia.
Qed.

(** A step of a session that keeps the slot where it is. *)
Lemma with_session_inv s i x y : inv s → sessions s !! i = Some x → holds y = holds x → session_ok y → inv (with_session s i (profilerStarted s) y).
Proof.
  intros [Hf Hn Ho] Hx Hh Hy. pose proof (lookup_lt_Some _ _ _ Hx) as Hlt.
  assert (Hsame : ∀ j z, <[i:=y]> (sessions s) !! j = Some z → ∃ z', sessions s !! j = Some z' ∧ holds z' = holds z).
  { intros j z Hj. destruct (decide (j = i)) as [->|Hne].
    - rewrite list_lookup_insert_eq in Hj by done. injection Hj as <-. by exists x.
    - rewrite list_lookup_insert_ne in Hj by done. by exists z. }
  split; cbn.
  - intros Et. destruct (Hf Et) as (k & z & Hk & Hz & Hu).
    assert (Hu' : ∀ j w, <[i:=y]> (sessions s) !! j = Some w → holds w = true → j = k).
    { intros j w Hj Hw. destruct (Hsame j w Hj) as (w' & Hj' & Hw'). apply (Hu j w' Hj'). congruence. }
    destruct (decide (k = i)) as [->|Hne].
    + exists i, y. rewrite Hx in Hk. injection Hk as ->. split_and!; [by apply list_lookup_insert_eq|congruence|done].
    + exists k, z. split_and!; [by rewrite list_lookup_insert_ne|done|done].
  - intros Ef. apply Forall_lookup. intros j z Hj. destruct (Hsame j z Hj) as (z' & Hj' & <-). specialize (Hn Ef). by eapply Forall_lookup_1 in Hn.
  - by apply Forall_insert.
Qed.

Lemma closing_inv i s s' : inv s → closing i s s' → inv s'.
Proof.
  intros Hi Hs.
  assert (Hok : ∀ x, sessions s !! i = Some x → session_ok x) by (intros x Hx; destruct Hi as [_ _ Ho]; by eapply Forall_lookup_1 in Ho).
  destruct Hs as [s x Hx Hc|s x err Hx Hg|s x err Hx Hg|s x err Hx Hg|s x e Hx Hc|s x err Hx Hc Hg|s x e Hx Hc He];
    specialize (Hok x Hx); unfold session_ok in Hok.
  - rewrite Hc in Hok. apply (with_session_inv s i x); [done|done|unfold holds; cbn; by rewrite Hok|done].
  - apply (with_session_inv s i x); [done|done|unfold holds; cbn; by rewrite Hg|]. unfold session_ok. cbn. destruct (call x); naive_solver congruence.
  - destruct Hi as [Hf Hn Ho]. pose proof (lookup_lt_Some _ _ _ Hx) as Hlt. assert (Hh : holds x = true) by (unfold holds; by rewrite Hg).
    destruct (profilerStarted s) eqn:Es; [|specialize (Hn eq_refl); eapply Forall_lookup_1 in Hn; [|exact Hx]; congruence].
    destruct (Hf eq_refl) as (k & z & Hk & Hz & Hu). assert (k = i) as -> by (symmetry; by apply (Hu i x)). split; cbn; [done| |].
    + intros _. apply Forall_lookup. intros j y Hj. destruct (decide (j = i)) as [->|Hne].
      * rewrite list_lookup_insert_eq in Hj by done. by injection Hj as <-.
      * rewrite list_lookup_insert_ne in Hj by done. destruct (holds y) eqn:Hy; [|done]. by destruct (Hne (Hu j y Hj Hy)).
    + apply Forall_insert; [done|]. unfold session_ok. cbn. destruct (call x); naive_solver congruence.
  - apply (with_session_inv s i x); [done|done|unfold holds; cbn; by rewrite Hg|]. unfold session_ok. cbn. destruct (call x); naive_solver congruence.
  - apply (with_session_inv s i x); [done|done|done|]. unfold session_ok. cbn. destruct (call x); naive_solver congruence.
  - apply (with_session_inv s i x); [done|done|done|]. unfold session_ok. cbn. rewrite Hg. split; [done|]. unfold answer_of. destruct (close_ctx x); naive_solver.
  - rewrite Hc in Hok. apply (with_session_inv s i x); [done|done|done|]. unfold session_ok. cbn. split; [done|]. right. by exists e.
Qed.
Lemma slot_run_inv s ps s' : inv s → run s ps s' → inv s'.
Proof.
  intros Hi Hr. induction Hr as [|s p s1 ps s2 Hs _ IH]; [done|]. apply IH. destruct p; [|by eapply closing_inv].
  destruct Hs as (ctx & started & ->). by apply Start_inv.
Qed.
Lemma init_inv : inv init.
Proof. by split. Qed.
Lemma free_iff s : inv s → (profilerStarted s = true ↔ ∃ i x, sessions s !! i = Some x ∧ holds x = true).
Proof.
  intros [Hf Hn _]. split; [intros Hs; destruct (Hf Hs) as (i & x & ? & ? & _); by exists i, x|]. intros (i & x & Hx & Hh).
  destruct (profilerStarted s); [done|]. specialize (Hn eq_refl). eapply Forall_lookup_1 in Hn; [|exact Hx]. congruence.
Qed.

(** C28: the profiler's slot. Under any calls of Start and of closers, with contexts that
    end whenever they do, at most one session has the slot, and a profiler that runs has
    it; Start is refused exactly while one has it, and starts a profiler only when none
    runs. A closer that has answered answers what Stop did, and then the slot has been
    given back, or that its own context is done; when it answers with its context done,
    it answers that, whatever Stop did. *)
Theorem profiler_slot (ps : list party) (s : state) (Hrun : run init ps s) :
  (∀ i j x y, sessions s !! i = Some x → sessions s !! j = Some y → holds x = true → holds y = true → i = j)
  ∧ (∀ x, running x = true → holds x = true)
  ∧ (∀ started, (Start None started s).2 = ErrAlreadyStarted ↔ ∃ i x, sessions s !! i = Some x ∧ holds x = true)
  ∧ (∀ ctx started, (Start ctx started s).2 = Started → Forall (λ x, running x = false) (sessions s))
  ∧ (∀ i x r, sessions s !! i = Some x → call x = Answered r → (goroutine x = Sent r ∧ holds x = false) ∨ ∃ e, close_ctx x = Some e ∧ r = Some e)
  ∧ (∀ i x s' x' e r, sessions s !! i = Some x → closing i s s' → sessions s' !! i = Some x' →
       call x = Selecting → close_ctx x = Some e → call x' = Answered r → r = Some e).
Proof.
  pose proof (slot_run_inv _ _ _ init_inv Hrun) as Hi. pose proof (free_iff s Hi) as Hfree. destruct Hi as [Hf Hn Ho].
  assert (Hrun' : ∀ x, running x = true → holds x = true) by (intros x; unfold running, holds; by destruct (goroutine x)).
  split_and!; [|done| | | |].
  - intros i j x y Hx Hy Hhx Hhy. destruct (Hf (proj2 Hfree (ex_intro _ i (ex_intro _ x (conj Hx Hhx))))) as (k & z & _ & _ & Hu).
    by rewrite (Hu i x Hx Hhx), (Hu j y Hy Hhy).
  - intros started. rewrite <- Hfree. unfold Start. destruct (profilerStarted s); [done|]. by destruct started.
  - intros ctx started Hs. assert (profilerStarted s = false) as Ef by (unfold Start in Hs; destruct ctx; [done|]; by destruct (profilerStarted s)).
    specialize (Hn Ef). eapply Forall_impl; [exact Hn|]. intros x Hx. destruct (running x) eqn:Er; [|done]. apply Hrun' in Er. congruence.
  - intros i x r Hx Hc. eapply Forall_lookup_1 in Ho; [|exact Hx]. unfold session_ok in Ho. rewrite Hc in Ho.
    destruct Ho as [_ [Hg|He]]; [left|by right]. unfold holds. by rewrite Hg.
  - intros i x s' x' e r Hx Hs Hx' Hc He Ha. assert (Hlt : i < length (sessions s)) by by eapply lookup_lt_Some.
    destruct Hs as [s y Hy|s y err Hy|s y err Hy|s y err Hy|s y e' Hy|s y err Hy|s y e' Hy]; cbn in Hx'; rewrite list_lookup_insert_eq in Hx' by done;
      injection Hx' as <-; rewrite Hx in Hy; injection Hy as <-; cbn in Ha; rewrite ?He in Ha; cbn in Ha; congruence.
Qed.

(** * The slot comes back *)
Definition session_left (x : session) : nat :=
  match call x with Uncalled => 5 | _ => match goroutine x with NotStarted => 4 | InStop => 3 | AtRelease _ => 2 | AtSend _ => 1 | Sent _ => 0 end
                                         + match call x with Selecting => 1 | _ => 0 end end
  + match close_ctx x with None => 1 | Some _ => 0 end.
Definition left_ (s : state) : nat := sum_list_with session_left (sessions s).
Definition session_steps (ps : list party) : nat := sum_list_with (λ p, match p with Starter => 0 | Session _ => 1 end) ps.

Lemma sum_list_insert (l : list session) i x y : l !! i = Some x →
  sum_list_with session_left (<[i := y]> l) + session_left x = sum_list_with session_left l + session_left y.
Proof.
  intros Hi. pose proof (take_drop_middle l i x Hi) as Hl. rewrite insert_take_drop by (by eapply lookup_lt_Some).
  rewrite <- Hl at 3. rewrite !sum_list_with_app. cbn. lia.
Qed.
Lemma closing_decreases i s s' : inv s → closing i s s' → S (left_ s') ≤ left_ s ∧ length (sessions s') = length (sessions s).
Proof.
  intros [_ _ Ho] Hs. unfold left_. destruct Hs as [s x Hx Hc|s x err Hx Hg|s x err Hx Hg|s x err Hx Hg|s x e Hx Hc|s x err Hx Hc Hg|s x e Hx Hc He];
    (split; [|cbn; by rewrite length_insert]); cbn [sessions with_session];
    match goal with |- context [<[i := ?y]> _] =>
      pose proof (sum_list_insert (sessions s) i x y Hx) as H; revert H; generalize (sum_list_with session_left (<[i := y]> (sessions s))) end;
    generalize (sum_list_with session_left (sessions s)); intros total total' H;
    eapply Forall_lookup_1 in Ho; try exact Hx; unfold session_ok in Ho; unfold session_left in H; cbn in H; rewrite ?Hc, ?Hg, ?He in H;
    destruct (call x) eqn:Ec; try congruence; try rewrite Ho in Hg; try (destruct (goroutine x) eqn:Eg); cbn in H; try lia; try congruence;
    try (destruct Ho; congruence).
Qed.
Lemma Start_adds ctx started s : left_ (Start ctx started s).1 + 6 * length (sessions s) = left_ s + 6 * length (sessions (Start ctx started s).1).
Proof.
  unfold Start, left_. destruct ctx; [done|]. destruct (profilerStarted s); [done|]. destruct started; [done|].
  cbn [fst sessions]. rewrite length_app, sum_list_with_app. cbn. lia.
Qed.
Lemma slot_run_steps s ps s' : inv s → run s ps s' → session_steps ps + left_ s' + 6 * length (sessions s) ≤ left_ s + 6 * length (sessions s').
Proof.
  intros Hi Hr. induction Hr as [s|s p s1 ps s2 Hs _ IH]; [cbn; lia|]. destruct p as [|i]; cbn [step] in Hs.
  - destruct Hs as (ctx & started & ->). specialize (IH (Start_inv ctx started s Hi)). pose proof (Start_adds ctx started s). change (session_steps (Starter :: ps)) with (session_steps ps). lia.
  - specialize (IH (closing_inv i s s1 Hi Hs)). destruct (closing_decreases i s s1 Hi Hs) as [H1 H2].
    change (session_steps (Session i :: ps)) with (S (session_steps ps)). lia.
Qed.

(** The slot comes back and no closer hangs. In any run a session takes at most six
    steps. A closer that was called can answer as soon as its context is done or its
    goroutine is through, and the goroutine waits for nothing but the profiler's Stop;
    once the goroutines of all the sessions are through, whatever Stop reported, Start
    starts a profiler again. *)
Theorem slot_comes_back (ps : list party) (s : state) (Hrun : run init ps s) :
  session_steps ps ≤ 6 * length (sessions s)
  ∧ (∀ i x, sessions s !! i = Some x → call x ≠ Uncalled → goroutine x = InStop ∨ (∃ err, goroutine x = Sent err) ∨ ∃ s', closing i s s')
  ∧ (∀ i x, sessions s !! i = Some x → call x = Selecting → is_Some (close_ctx x) ∨ (∃ err, goroutine x = Sent err) →
       ∃ s' x' r, closing i s s' ∧ sessions s' !! i = Some x' ∧ call x' = Answered r)
  ∧ (Forall (λ x, ∃ err, goroutine x = Sent err) (sessions s) → (Start None None s).2 = Started).
Proof.
  pose proof (slot_run_inv _ _ _ init_inv Hrun) as Hi. pose proof (slot_run_steps _ _ _ init_inv Hrun) as Hn. cbn in Hn. split_and!; [lia| | |].
  - intros i x Hx Hc. destruct Hi as [_ _ Ho]. eapply Forall_lookup_1 in Ho; [|exact Hx]. unfold session_ok in Ho.
    destruct (goroutine x) eqn:Eg; [by destruct (call x) as [| |r]; [|destruct Ho|destruct Ho as [? _]]|by left|right; right; eexists; by eapply cl_release|
      right; right; eexists; by eapply cl_send|right; left; by eexists].
  - intros i x Hx Hc Hw. assert (Hlt : i < length (sessions s)) by by eapply lookup_lt_Some. destruct Hw as [[e He]|[err Hg]].
    + eexists _, _, _. split_and!; [by eapply cl_expired|by apply list_lookup_insert_eq|reflexivity].
    + eexists _, _, _. split_and!; [by eapply cl_done|by apply list_lookup_insert_eq|reflexivity].
  - intros Hall. unfold Start. destruct (profilerStarted s) eqn:Es; [|done]. apply (free_iff s Hi) in Es as (i & x & Hx & Hh).
    eapply Forall_lookup_1 in Hall as [err Hg]; [|exact Hx]. unfold holds in Hh. by rewrite Hg in Hh.
Qed.
End slot.

(** * Samples *)
Tactic Notation "slot_by" uconstr(c) := eapply (run_step _ (Session 0)); [eapply c; reflexivity|]; cbn.
(** A session whose context ends while Stop runs; the slot comes back, and another
    profiler is started. *)
Definition slot_parties : list party := [Starter; Session 0; Session 0; Session 0; Session 0; Session 0; Session 0; Starter].
Lemma slot_run : ∃ s : state (E := bytes), run init slot_parties s ∧ length (sessions s) = 2
  ∧ sessions s !! 0 = Some {| goroutine := Sent None; call := Answered (Some #"deadline"); close_ctx := Some #"deadline" |}
  ∧ sessions s !! 1 = Some fresh.
Proof.
  eexists. split.
  - eapply (run_step _ Starter); [by exists None, None|]. cbn. slot_by cl_call. slot_by (cl_ctx _ _ _ #"deadline"). slot_by cl_expired.
    slot_by (cl_stopped _ _ _ None). slot_by cl_release. slot_by cl_send. eapply (run_step _ Starter); [by exists None, None|]. apply run_nil.
  - by vm_compute.
Qed.
Lemma profiler_slot_witness : ∃ s : state (E := bytes), run init slot_parties s ∧ (Start None None s).2 = ErrAlreadyStarted.
Proof.
  destruct slot_run as (s & Hr & _ & _ & H1). exists s. split; [exact Hr|].
  destruct (profiler_slot slot_parties s Hr) as (_ & _ & H & _). apply H. by exists 1, fresh.
Defined.
Lemma slot_comes_back_witness : ∃ s : state (E := bytes), run init slot_parties s ∧ session_steps slot_parties ≤ 12.
Proof.
  destruct slot_run as (s & Hr & Hl & _). exists s. split; [exact Hr|].
  destruct (slot_comes_back slot_parties s Hr) as [H _]. rewrite Hl in H. exact H.
Defined.
