(* ===== verification/RestyWrap.v ===== *)
(** resty/client.go: Wrap, and the table of wrapped clients. Wrapping runs
    concurrently with other calls of Wrap and with the garbage collector. A call is
    a thread that takes one step up to the mutex of the entry it found and one under
    it; between steps other threads run, clients are made and collected, and
    addresses are used again. *)
From S2P Require Import Prelude.

(** * The table, the clients and the threads *)
(** The hooks of [RestyHook], as they are registered on a client. *)
Inductive hook := OnBeforeRequest | OnSuccess | RetryHook | OnError | OnPanic.
Definition install : list hook := [OnBeforeRequest; OnSuccess; RetryHook; OnError; OnPanic].
(** An entry: its address, which client its weak reference is to, whether it is done;
    the cleanup is armed where it is. *)
Record wrapEntry := { e_key : N; e_ref : N; e_done : bool }.
Record client := { c_key : N; c_hooks : list hook }.
Inductive thread :=
  | WrapStart (c : N)               (* at the head of Wrap's loop *)
  | WrapLock (c : N) (i : nat)      (* at the mutex of the entry it found *)
  | CleanupStart (key ref : N)      (* cleanupWrappedClient, queued by the collector *)
  | CleanupLock (key ref : N) (i : nat).
#[export] Instance thread_eq_dec : EqDecision thread.
Proof. solve_decision. Defined.
Record world := {
  alive : gmap N client; next_client : N;
  wrappedClients : gmap N nat;      (* the sync.Map: an entry for an address *)
  entries : list wrapEntry;         (* every entry ever stored *)
  running : list thread;
}.
Definition with_table (w : world) (m : gmap N nat) (es : list wrapEntry) : world :=
  {| alive := alive w; next_client := next_client w; wrappedClients := m; entries := es; running := running w |}.
Definition with_running (w : world) (ts : list thread) : world :=
  {| alive := alive w; next_client := next_client w; wrappedClients := wrappedClients w; entries := entries w; running := ts |}.
Definition CompareAndDelete (m : gmap N nat) (key : N) (i : nat) : gmap N nat := if bool_decide (m !! key = Some i) then delete key m else m.

(** What a step of a function leaves, and the thread it goes on as, unless it returns. *)
Definition outcome : Type := world * option thread.
(** Wrap: LoadOrStore at the head of the loop, and what follows under the mutex. *)
Definition Wrap_lookup (w : world) (c : N) : outcome :=
  match alive w !! c with
  | None => (w, None)
  | Some g =>
    match wrappedClients w !! c_key g with
    | Some i => (w, Some (WrapLock c i))
    | None => let i := length (entries w) in
              (with_table w (<[c_key g := i]> (wrappedClients w)) (entries w ++ [{| e_key := c_key g; e_ref := c; e_done := false |}]), Some (WrapLock c i))
    end
  end.
Definition Wrap_commit (w : world) (c : N) (g : client) (i : nat) (e : wrapEntry) : world :=
  {| alive := <[c := {| c_key := c_key g; c_hooks := c_hooks g ++ install |}]> (alive w); next_client := next_client w;
     wrappedClients := wrappedClients w; entries := <[i := {| e_key := e_key e; e_ref := e_ref e; e_done := true |}]> (entries w);
     running := running w |}.
Definition Wrap_locked (w : world) (c : N) (i : nat) : outcome :=
  match alive w !! c, entries w !! i with
  | Some g, Some e =>
    if negb (bool_decide (wrappedClients w !! c_key g = Some i)) then (w, Some (WrapStart c))
    else if negb (bool_decide (e_ref e = c)) then (with_table w (CompareAndDelete (wrappedClients w) (c_key g) i) (entries w), Some (WrapStart c))
    else if e_done e then (w, None)
    else (Wrap_commit w c g i e, None)
  | _, _ => (w, None)
  end.
(** cleanupWrappedClient, up to the mutex and from there on. *)
Definition cleanup_lookup (w : world) (key ref : N) : outcome :=
  match wrappedClients w !! key with Some i => (w, Some (CleanupLock key ref i)) | None => (w, None) end.
Definition cleanup_locked (w : world) (key ref : N) (i : nat) : outcome :=
  match entries w !! i with
  | Some e =>
    if bool_decide (e_ref e = ref) && bool_decide (alive w !! e_ref e = None)
    then (with_table w (CompareAndDelete (wrappedClients w) key i) (entries w), None) else (w, None)
  | None => (w, None)
  end.
Definition run (w : world) (t : thread) : outcome :=
  match t with
  | WrapStart c => Wrap_lookup w c
  | WrapLock c i => Wrap_locked w c i
  | CleanupStart key ref => cleanup_lookup w key ref
  | CleanupLock key ref i => cleanup_locked w key ref i
  end.

(** A thread keeps its client reachable; a cleanup does not. *)
Definition client_of (t : thread) : option N := match t with WrapStart c | WrapLock c _ => Some c | _ => None end.
(** The cleanups the collector queues for a client. *)
Definition queued (w : world) (c : N) : list thread :=
  (λ e, CleanupStart (e_key e) (e_ref e)) <$> filter (λ e, e_ref e = c ∧ e_done e = true) (entries w).
Inductive step (w : world) : world → Prop :=
  | step_make key : (∀ c g, alive w !! c = Some g → c_key g ≠ key) →
      step w {| alive := <[next_client w := {| c_key := key; c_hooks := [] |}]> (alive w); next_client := (next_client w + 1)%N;
                wrappedClients := wrappedClients w; entries := entries w; running := running w |}
  | step_collect c : is_Some (alive w !! c) → (∀ t, t ∈ running w → client_of t ≠ Some c) →
      step w {| alive := delete c (alive w); next_client := next_client w; wrappedClients := wrappedClients w; entries := entries w;
                running := queued w c ++ running w |}
  | step_wrap c : is_Some (alive w !! c) → step w (with_running w (WrapStart c :: running w))
  | step_run pre t post w' r : running w = pre ++ t :: post → run w t = (w', r) →
      step w (with_running w' (pre ++ match r with Some t' => [t'] | None => [] end ++ post)).
Definition empty_world : world := {| alive := ∅; next_client := 0; wrappedClients := ∅; entries := []; running := [] |}.

(** * The invariant *)
Record wf (w : world) : Prop := {
  wf_keys : ∀ c c' g g', alive w !! c = Some g → alive w !! c' = Some g' → c_key g = c_key g' → c = c';
  wf_alive : ∀ c g, alive w !! c = Some g → (c < next_client w)%N;
  wf_refs : ∀ i e, entries w !! i = Some e → (e_ref e < next_client w)%N;
  (** An entry of a client that is alive is at its address, and says whether the hooks
      are on it. *)
  wf_entry : ∀ i e g, entries w !! i = Some e → alive w !! e_ref e = Some g →
    c_key g = e_key e ∧ wrappedClients w !! e_key e = Some i ∧ c_hooks g = if e_done e then install else [];
  wf_bare : ∀ c g, alive w !! c = Some g → (∀ i e, entries w !! i = Some e → e_ref e ≠ c) → c_hooks g = [];
  wf_table : ∀ k i, wrappedClients w !! k = Some i → ∃ e, entries w !! i = Some e ∧ e_key e = k;
  (** An entry that is not done has its Wrap running; one left by a client that is gone,
      its cleanup. *)
  wf_undone : ∀ i e, entries w !! i = Some e → e_done e = false → WrapLock (e_ref e) i ∈ running w;
  wf_left : ∀ k i e, wrappedClients w !! k = Some i → entries w !! i = Some e → e_done e = true → alive w !! e_ref e = None →
    CleanupStart k (e_ref e) ∈ running w ∨ CleanupLock k (e_ref e) i ∈ running w;
  wf_users : ∀ t c, t ∈ running w → client_of t = Some c → is_Some (alive w !! c);
  wf_found : ∀ t i, t ∈ running w → (∃ c, t = WrapLock c i) ∨ (∃ k r, t = CleanupLock k r i) → is_Some (entries w !! i);
}.

Lemma empty_wf : wf empty_world.
Proof. split; cbn; try done; intros; try by rewrite lookup_empty in *. all: by apply elem_of_nil in H. Qed.

Lemma CompareAndDelete_lookup m key i k j : CompareAndDelete m key i !! k = Some j ↔ m !! k = Some j ∧ ¬ (k = key ∧ j = i).
Proof.
  unfold CompareAndDelete. case_bool_decide as E.
  - rewrite lookup_delete_Some. split; [intros [? ?]; split; [done|naive_solver]|intros [Hk Hn]; split; [|done]].
    intros ->. rewrite E in Hk. injection Hk as ->. by apply Hn.
  - split; [intros H; split; [done|intros [-> ->]; done]|by intros [? _]].
Qed.

(** The threads after a step of one of them. *)
Definition next_threads (pre post : list thread) (r : option thread) : list thread := pre ++ match r with Some t' => [t'] | None => [] end ++ post.
Lemma elem_of_next pre post r t : t ∈ next_threads pre post r ↔ r = Some t ∨ t ∈ pre ++ post.
Proof. unfold next_threads. rewrite !elem_of_app. destruct r as [t'|]; [rewrite list_elem_of_singleton|rewrite elem_of_nil]; naive_solver. Qed.
Lemma elem_of_others pre (t0 : thread) post t : t ∈ pre ++ t0 :: post ↔ t = t0 ∨ t ∈ pre ++ post.
Proof. rewrite !elem_of_app, elem_of_cons. naive_solver. Qed.

(** A step that leaves the clients, the table and the entries as they are. *)
Lemma keep_wf w pre t post r : wf w → running w = pre ++ t :: post →
  (∀ i e, t = WrapLock (e_ref e) i → entries w !! i = Some e → e_done e = true) →
  (∀ k i e, (t = CleanupStart k (e_ref e) ∧ r ≠ Some (CleanupLock k (e_ref e) i) ∨ t = CleanupLock k (e_ref e) i) →
     wrappedClients w !! k = Some i → entries w !! i = Some e → is_Some (alive w !! e_ref e)) →
  (∀ t' c, r = Some t' → client_of t' = Some c → is_Some (alive w !! c)) →
  (∀ t' i, r = Some t' → (∃ c, t' = WrapLock c i) ∨ (∃ k x, t' = CleanupLock k x i) → is_Some (entries w !! i)) →
  wf (with_running w (next_threads pre post r)).
Proof.
  intros [H1 H2 H3 H4 H5 H6 H7 H8 H9 H10] Hr Hu Hc Hl Hf. split; try done; cbn.
  - intros i e Hi Hd. apply elem_of_next. right. specialize (H7 i e Hi Hd). rewrite Hr in H7. apply elem_of_others in H7 as [<-|?]; [|done].
    specialize (Hu i e eq_refl Hi). congruence.
  - intros k i e Hk Hi Hd Ha. rewrite !elem_of_next. specialize (H8 k i e Hk Hi Hd Ha). rewrite Hr, !elem_of_others in H8.
    destruct H8 as [[E|?]|[E|?]]; [|by left; right| |by right; right].
    + destruct (decide (r = Some (CleanupLock k (e_ref e) i))) as [->|Hne]; [by right; left|].
      destruct (Hc k i e) as [g Hg]; [by left|done|done|congruence].
    + destruct (Hc k i e) as [g Hg]; [by right|done|done|congruence].
  - intros t' c [E|Hin]%elem_of_next Hcl; [by apply (Hl t')|]. apply (H9 t'); [|done]. rewrite Hr. apply elem_of_others. by right.
  - intros t' i [E|Hin]%elem_of_next Hcl; [by apply (Hf t')|]. apply (H10 t'); [|done]. rewrite Hr. apply elem_of_others. by right.
Qed.

(** The part of Wrap up to the mutex. *)
Lemma Wrap_lookup_wf w pre c post w' r : wf w → running w = pre ++ WrapStart c :: post → Wrap_lookup w c = (w', r) →
  wf (with_running w' (next_threads pre post r)).
Proof.
  intros Hw Hr E. pose proof Hw as [H1 H2 H3 H4 H5 H6 H7 H8 H9 H10].
  destruct (H9 (WrapStart c) c) as [g Hg]; [rewrite Hr; apply elem_of_others; by left|done|].
  unfold Wrap_lookup in E. rewrite Hg in E. destruct (wrappedClients w !! c_key g) as [i|] eqn:Et.
  - injection E as <- <-. destruct (H6 _ _ Et) as (e & Hi & _). apply (keep_wf w pre (WrapStart c) post); try done.
    + intros k j e' [[? _]|?]; done.
    + intros t' c' [= <-] [= <-]. by exists g.
    + intros t' j [= <-] [[c' [= -> <-]]|(k & x & ?)]; [by exists e|done].
  - injection E as <- <-. set (i := length (entries w)). set (e := {| e_key := c_key g; e_ref := c; e_done := false |}).
    assert (Hnew : (entries w ++ [e]) !! i = Some e) by by apply list_lookup_middle.
    assert (Hlk : ∀ j e', (entries w ++ [e]) !! j = Some e' → entries w !! j = Some e' ∨ j = i ∧ e' = e).
    { intros j e' [Hj|[Hle Hj]]%lookup_app_Some; [by left|right]. apply list_lookup_singleton_Some in Hj as [? ->]. split; [|done]. unfold i. lia. }
    assert (Hbare : ∀ j e', entries w !! j = Some e' → e_ref e' ≠ c).
    { intros j e' Hj Hc. destruct (H4 j e' g Hj) as (Hk & Ht & _); [by rewrite Hc|]. rewrite <- Hk in Ht. congruence. }
    split; cbn; [done|done| | | | | | | |].
    + intros j e' [Hj|[-> ->]]%Hlk; [by apply (H3 j)|]. by apply (H2 c g).
    + intros j e' g' [Hj|[-> ->]]%Hlk Ha.
      * destruct (H4 j e' g' Hj Ha) as (Hk & Ht & Hh). split_and!; [done| |done]. rewrite lookup_insert_ne; [done|]. intros Ek. congruence.
      * cbn in Ha. rewrite Hg in Ha. injection Ha as <-. split_and!; [done|by rewrite lookup_insert_eq|]. by apply (H5 c g).
    + intros c' g' Ha Hn. apply (H5 c' g' Ha). intros j e' Hj. apply (Hn j). by apply lookup_app_l_Some.
    + intros k j [[<- <-]|[Hne Hk]]%lookup_insert_Some; [by exists e|]. destruct (H6 k j Hk) as (e' & He & Hek). exists e'. split; [by apply lookup_app_l_Some|done].
    + intros j e' [Hj|[-> ->]]%Hlk Hd; apply elem_of_next; [right|by left].
      specialize (H7 j e' Hj Hd). rewrite Hr in H7. by apply elem_of_others in H7 as [?|?].
    + intros k j e' [[<- <-]|[Hne Hk]]%lookup_insert_Some Hj Hd Ha; [rewrite Hnew in Hj; by injection Hj as <-|].
      apply Hlk in Hj as [Hj|[-> ->]]; [|done]. rewrite !elem_of_next. specialize (H8 k j e' Hk Hj Hd Ha). rewrite Hr, !elem_of_others in H8.
      destruct H8 as [[?|?]|[?|?]]; [done|by left; right|done|by right; right].
    + intros t' c' [[= <-]|Hin]%elem_of_next Hcl; [injection Hcl as <-; by exists g|]. apply (H9 t'); [|done]. rewrite Hr. apply elem_of_others. by right.
    + intros t' j [[= <-]|Hin]%elem_of_next Hcl.
      * destruct Hcl as [[c' [= _ <-]]|(k & x & ?)]; [by exists e|done].
      * destruct (H10 t' j) as [e' He]; [rewrite Hr; apply elem_of_others; by right|done|]. exists e'. by apply lookup_app_l_Some.
Qed.

(** A removal of the entry of a client that is gone. *)
Lemma remove_wf w pre t post r key i0 e0 : wf w → running w = pre ++ t :: post → entries w !! i0 = Some e0 → alive w !! e_ref e0 = None →
  (∀ i e, t = WrapLock (e_ref e) i → entries w !! i = Some e → e_done e = true) →
  (∀ k x, t ≠ CleanupStart k x) → (∀ k x i, t = CleanupLock k x i → k = key ∧ i = i0) →
  (r = None ∨ ∃ c, r = Some (WrapStart c) ∧ is_Some (alive w !! c)) →
  wf (with_running (with_table w (CompareAndDelete (wrappedClients w) key i0) (entries w)) (next_threads pre post r)).
Proof.
  intros [H1 H2 H3 H4 H5 H6 H7 H8 H9 H10] Hr He0 Ha0 Hu Hcs Hcl Hres. split; cbn; [done|done|done| |done| | | | |].
  - intros i e g Hi Ha. destruct (H4 i e g Hi Ha) as (Hk & Ht & Hh). split_and!; [done| |done]. apply CompareAndDelete_lookup. split; [done|].
    intros [_ ->]. rewrite He0 in Hi. injection Hi as ->. congruence.
  - intros k i [Hk _]%CompareAndDelete_lookup. by apply H6.
  - intros i e Hi Hd. apply elem_of_next. right. specialize (H7 i e Hi Hd). rewrite Hr in H7. apply elem_of_others in H7 as [<-|?]; [|done].
    specialize (Hu i e eq_refl Hi). congruence.
  - intros k i e [Hk Hn]%CompareAndDelete_lookup Hi Hd Ha. rewrite !elem_of_next. specialize (H8 k i e Hk Hi Hd Ha). rewrite Hr, !elem_of_others in H8.
    destruct H8 as [[E|?]|[E|?]]; [by destruct (Hcs k (e_ref e))|by left; right| |by right; right].
    destruct (Hcl k (e_ref e) i) as [-> ->]; [done|]. by destruct Hn.
  - intros t' c [E|Hin]%elem_of_next Hc.
    + destruct Hres as [->|(c' & -> & Hc')]; [done|]. injection E as <-. by injection Hc as <-.
    + apply (H9 t'); [|done]. rewrite Hr. apply elem_of_others. by right.
  - intros t' i [E|Hin]%elem_of_next Hc.
    + destruct Hres as [->|(c' & -> & _)]; [done|]. injection E as <-. destruct Hc as [[? ?]|(? & ? & ?)]; done.
    + apply (H10 t'); [|done]. rewrite Hr. apply elem_of_others. by right.
Qed.

(** What Wrap finds under the mutex. *)
Lemma locked_cases w c i : wf w → WrapLock c i ∈ running w → ∃ g e, alive w !! c = Some g ∧ entries w !! i = Some e
  ∧ (e_ref e = c → wrappedClients w !! c_key g = Some i ∧ c_hooks g = if e_done e then install else [])
  ∧ (e_ref e ≠ c → wrappedClients w !! c_key g = Some i → alive w !! e_ref e = None).
Proof.
  intros [H1 H2 H3 H4 H5 H6 H7 H8 H9 H10] Hin. destruct (H9 _ c Hin eq_refl) as [g Hg]. destruct (H10 _ i Hin) as [e He]; [left; by exists c|].
  exists g, e. split_and!; [done|done| |].
  - intros <-. destruct (H4 i e g He Hg) as (Hk & Ht & Hh). by rewrite Hk.
  - intros Hne Ht. destruct (alive w !! e_ref e) as [g'|] eqn:Ea; [|done]. destruct Hne. destruct (H4 i e g' He Ea) as (Hk & _ & _).
    destruct (H6 _ _ Ht) as (e' & He' & Hek). rewrite He in He'. injection He' as <-. apply (H1 _ _ g' g Ea Hg). congruence.
Qed.

Lemma Wrap_locked_wf w pre c i post w' r : wf w → running w = pre ++ WrapLock c i :: post → Wrap_locked w c i = (w', r) →
  wf (with_running w' (next_threads pre post r)).
Proof.
  intros Hw Hr E. assert (Hin : WrapLock c i ∈ running w) by (rewrite Hr; apply elem_of_others; by left).
  destruct (locked_cases w c i Hw Hin) as (g & e & Hg & He & Hown & Hother). unfold Wrap_locked in E. rewrite Hg, He in E.
  assert (Hloop : ∀ i' e', WrapLock c i = WrapLock (e_ref e') i' → entries w !! i' = Some e' → e_ref e ≠ c → e_done e' = true).
  { intros i' e' [= -> <-] He' Hne. rewrite He in He'. by injection He' as <-. }
  destruct (decide (e_ref e = c)) as [Hc|Hc].
  - destruct (Hown Hc) as [Ht Hh]. rewrite Ht, !bool_decide_true in E by done. cbn [negb] in E. destruct (e_done e) eqn:Ed.
    + injection E as <- <-. apply (keep_wf w pre (WrapLock c i) post); try done; [|by intros k j e' [[? _]|?]].
      intros i' e' [= _ ->] He'. rewrite He in He'. by injection He' as <-.
    + injection E as <- <-. pose proof Hw as [H1 H2 H3 H4 H5 H6 H7 H8 H9 H10]. set (e' := {| e_key := e_key e; e_ref := e_ref e; e_done := true |}).
      set (g' := {| c_key := c_key g; c_hooks := c_hooks g ++ install |}).
      assert (Hlt : i < length (entries w)) by by eapply lookup_lt_Some.
      assert (Hlk : ∀ j x, <[i:=e']> (entries w) !! j = Some x → (j = i ∧ x = e') ∨ (j ≠ i ∧ entries w !! j = Some x)).
      { intros j x Hj. destruct (decide (j = i)) as [->|Hne]; [left|right].
        - rewrite list_lookup_insert_eq in Hj by done. by injection Hj as <-.
        - by rewrite list_lookup_insert_ne in Hj. }
      assert (Hal : ∀ d x, <[c:=g']> (alive w) !! d = Some x → ∃ y, alive w !! d = Some y ∧ c_key x = c_key y).
      { intros d x [[<- <-]|[_ Hd]]%lookup_insert_Some; [by exists g|by exists x]. }
      assert (Hdead : ∀ d, <[c:=g']> (alive w) !! d = None → alive w !! d = None) by (intros d [Hd _]%lookup_insert_None; done).
      split; cbn; fold e' g'.
      * intros d d' x x' (y & Hy & ->)%Hal (y' & Hy' & ->)%Hal. by apply H1.
      * intros d x (y & Hy & _)%Hal. by apply (H2 d y).
      * intros j x [[-> ->]|[_ Hj]]%Hlk; [by apply (H3 i e)|by apply (H3 j)].
      * intros j x y [[-> ->]|[Hne Hj]]%Hlk Ha.
        -- cbn in Ha. rewrite Hc, lookup_insert_eq in Ha. injection Ha as <-. destruct (H4 i e g He) as (Hk & Ht' & _); [by rewrite Hc|].
           cbn. rewrite Hh. by split_and!.
        -- destruct (decide (e_ref x = c)) as [Ex|Ex].
           ++ destruct (H4 j x g Hj) as (Hk & Ht' & _); [by rewrite Ex|]. rewrite <- Hk, Ht in Ht'. injection Ht' as ->. done.
           ++ rewrite lookup_insert_ne in Ha by done. by apply H4.
      * intros d x Hd Hn. destruct (decide (d = c)) as [->|Hdc].
        -- destruct (Hn i e'); [by apply list_lookup_insert_eq|done].
        -- rewrite lookup_insert_ne in Hd by done. apply (H5 d x Hd). intros j y Hj. destruct (decide (j = i)) as [->|Hne].
           ++ rewrite He in Hj. injection Hj as <-. by rewrite Hc.
           ++ apply (Hn j). by rewrite list_lookup_insert_ne.
      * intros k j Hk. destruct (H6 k j Hk) as (x & Hx & Hxk). destruct (decide (j = i)) as [->|Hne].
        -- exists e'. split; [by apply list_lookup_insert_eq|]. rewrite He in Hx. by injection Hx as <-.
        -- exists x. split; [by rewrite list_lookup_insert_ne|done].
      * intros j x [[-> ->]|[Hne Hj]]%Hlk Hd; [done|]. apply elem_of_next. right. specialize (H7 j x Hj Hd). rewrite Hr in H7.
        apply elem_of_others in H7 as [[= _ ?]|?]; done.
      * intros k j x Hk [[-> ->]|[Hne Hj]]%Hlk Hd Ha%Hdead; [cbn in Ha; rewrite Hc in Ha; congruence|]. rewrite !elem_of_next.
        specialize (H8 k j x Hk Hj Hd Ha). rewrite Hr, !elem_of_others in H8. destruct H8 as [[?|?]|[?|?]]; [done|by left; right|done|by right; right].
      * intros t' d [?|Ht']%elem_of_next Hd; [done|]. destruct (decide (d = c)) as [->|Hdc]; [by rewrite lookup_insert_eq|].
        rewrite lookup_insert_ne by done. apply (H9 t'); [|done]. rewrite Hr. apply elem_of_others. by right.
      * intros t' j [?|Ht']%elem_of_next Hd; [done|]. destruct (H10 t' j) as [x Hx]; [rewrite Hr; apply elem_of_others; by right|done|].
        apply lookup_lt_is_Some. rewrite length_insert. by eapply lookup_lt_Some.
  - destruct (bool_decide (wrappedClients w !! c_key g = Some i)) eqn:Et; cbn [negb] in E.
    + apply bool_decide_eq_true in Et. rewrite bool_decide_false in E by done. injection E as <- <-.
      apply (remove_wf w pre (WrapLock c i) post _ (c_key g) i e); try done; [by apply Hother|by intros; eapply Hloop|].
      right. exists c. by split; [|exists g].
    + injection E as <- <-. apply (keep_wf w pre (WrapLock c i) post); try done.
      * by intros; eapply Hloop.
      * by intros k j e' [[? _]|?].
      * intros t' c' [= <-] [= <-]. by exists g.
      * intros t' j [= <-] [[? ?]|(? & ? & ?)]; done.
Qed.

Lemma cleanup_lookup_wf w pre key ref post w' r : wf w → running w = pre ++ CleanupStart key ref :: post → cleanup_lookup w key ref = (w', r) →
  wf (with_running w' (next_threads pre post r)).
Proof.
  intros Hw Hr E. unfold cleanup_lookup in E.
  assert (w' = w ∧ r = CleanupLock key ref <$> wrappedClients w !! key) as [-> ->] by (destruct (wrappedClients w !! key); by injection E as <- <-).
  apply (keep_wf w pre (CleanupStart key ref) post); try done.
  - intros k i e [[[= <- ->] Hne]|?] Hk; [|done]. rewrite Hk in Hne. done.
  - intros t' c. destruct (wrappedClients w !! key); [|done]. by intros [= <-].
  - intros t' i. destruct (wrappedClients w !! key) as [j|] eqn:Ej; [|done]. intros [= <-] [[? ?]|(k & x & [= _ _ <-])]; [done|].
    destruct (wf_table w Hw key j Ej) as (e & He & _). by exists e.
Qed.
Lemma cleanup_locked_wf w pre key ref i post w' r : wf w → running w = pre ++ CleanupLock key ref i :: post → cleanup_locked w key ref i = (w', r) →
  wf (with_running w' (next_threads pre post r)).
Proof.
  intros Hw Hr E. destruct (wf_found w Hw (CleanupLock key ref i) i) as [e He]; [rewrite Hr; apply elem_of_others; by left|right; by exists key, ref|].
  unfold cleanup_locked in E. rewrite He in E. destruct (bool_decide (e_ref e = ref) && bool_decide (alive w !! e_ref e = None)) eqn:Eb; injection E as <- <-.
  - apply andb_prop in Eb as [_ Ha%bool_decide_eq_true]. apply (remove_wf w pre (CleanupLock key ref i) post None key i e); try done; [|by left].
    by intros k x j [= -> _ ->].
  - apply (keep_wf w pre (CleanupLock key ref i) post); try done. intros k j x [[? _]|[= -> -> ->]] Hk Hx; [done|]. rewrite He in Hx. injection Hx as <-.
    rewrite bool_decide_true in Eb by done. cbn [andb] in Eb. apply bool_decide_eq_false in Eb. by apply not_eq_None_Some in Eb.
Qed.

Lemma step_wf w w' : wf w → step w w' → wf w'.
Proof.
  intros Hw Hs. destruct Hs as [key Hfresh|c Hc Hno|c Hc|pre t post w' r Hr E].
  - destruct Hw as [H1 H2 H3 H4 H5 H6 H7 H8 H9 H10]. set (n := next_client w). set (g0 := {| c_key := key; c_hooks := [] |}).
    assert (Hn : alive w !! n = None) by (destruct (alive w !! n) as [g|] eqn:En; [apply H2 in En; unfold n in En; lia|done]).
    assert (Hold : ∀ i e, entries w !! i = Some e → e_ref e ≠ n) by (intros i e Hi%H3; unfold n; lia).
    split; cbn; fold n g0; try done.
    + intros c c' g g' [[<- <-]|[Hne Hg]]%lookup_insert_Some [[<- <-]|[Hne' Hg']]%lookup_insert_Some Hk; [done| | |by apply (H1 c c' g g')].
      * by destruct (Hfresh c' g' Hg').
      * by destruct (Hfresh c g Hg).
    + intros c g [[<- <-]|[Hne Hg]]%lookup_insert_Some; [lia|]. apply H2 in Hg. lia.
    + intros i e Hi%H3. lia.
    + intros i e g Hi Ha. rewrite lookup_insert_ne in Ha by (intros Hx; by apply (Hold i e Hi)). by apply H4.
    + intros c g [[<- <-]|[Hne Hg]]%lookup_insert_Some Hb; [done|]. by apply (H5 c g).
    + intros k i e Hk Hi Hd Ha. rewrite lookup_insert_ne in Ha by (intros Hx; by apply (Hold i e Hi)). by apply H8.
    + intros t c Ht Hc. destruct (H9 t c Ht Hc) as [g Hg]. destruct (decide (c = n)) as [->|Hne]; [by rewrite lookup_insert_eq|].
      rewrite lookup_insert_ne by done. by exists g.
  - destruct Hw as [H1 H2 H3 H4 H5 H6 H7 H8 H9 H10]. split; cbn; try done.
    + intros d d' g g' [_ Hg]%lookup_delete_Some [_ Hg']%lookup_delete_Some. by apply H1.
    + intros d g [_ Hg]%lookup_delete_Some. by apply (H2 d g).
    + intros i e g Hi [_ Ha]%lookup_delete_Some. by apply H4.
    + intros d g [_ Hg]%lookup_delete_Some. by apply H5.
    + intros i e Hi Hd. apply elem_of_app. right. by apply H7.
    + intros k i e Hk Hi Hd Ha. destruct (decide (e_ref e = c)) as [Ec|Ec].
      * left. apply elem_of_app. left. destruct (H6 k i Hk) as (e' & He' & <-). rewrite Hi in He'. injection He' as <-.
        apply (list_elem_of_fmap_2' (λ e, CleanupStart (e_key e) (e_ref e)) _ e); [|done]. apply list_elem_of_filter. split; [done|].
        by apply list_elem_of_lookup_2 in Hi.
      * rewrite lookup_delete_ne in Ha by done. destruct (H8 k i e Hk Hi Hd Ha); [left|right]; apply elem_of_app; by right.
    + intros t d [Hq|Ht]%elem_of_app Hd.
      * apply list_elem_of_fmap in Hq as (e & -> & _). done.
      * rewrite lookup_delete_ne by (intros <-; by destruct (Hno t Ht)). by apply (H9 t).
    + intros t i [Hq|Ht]%elem_of_app Hd; [|by apply (H10 t)]. apply list_elem_of_fmap in Hq as (e & -> & _). destruct Hd as [[? ?]|(? & ? & ?)]; done.
  - destruct Hw as [H1 H2 H3 H4 H5 H6 H7 H8 H9 H10]. split; cbn; try done.
    + intros i e Hi Hd. right. by apply H7.
    + intros k i e Hk Hi Hd Ha. destruct (H8 k i e Hk Hi Hd Ha); [left|right]; by right.
    + intros t d [->|Ht]%elem_of_cons Hd; [by injection Hd as <-|by apply (H9 t)].
    + intros t i [->|Ht]%elem_of_cons Hd; [destruct Hd as [[? ?]|(? & ? & ?)]; done|by apply (H10 t)].
  - fold (next_threads pre post r). destruct t as [c|c i|key ref|key ref i]; cbn [run] in E;
      [by eapply Wrap_lookup_wf|by eapply Wrap_locked_wf|by eapply cleanup_lookup_wf|by eapply cleanup_locked_wf].
Qed.
Lemma reachable_wf w : rtc step empty_world w → wf w.
Proof.
  intros Hr. assert (H : ∀ w0, rtc step w0 w → wf w0 → wf w); [|by eapply H, empty_wf]. clear. intros w0 Hr. induction Hr; [done|]. intros Hw. by eapply IHHr, step_wf.
Qed.


(** A call of Wrap with no other thread in its way. *)
Fixpoint settle (fuel : nat) (w : world) (t : thread) : option world :=
  match fuel with
  | O => None
  | S fuel => let '(w, r) := run w t in match r with Some t => settle fuel w t | None => Some w end
  end.

Lemma settle_found n w w1 c i w' : run w (WrapStart c) = (w1, Some (WrapLock c i)) → run w1 (WrapLock c i) = (w', None) →
  settle (2 + n) w (WrapStart c) = Some w'.
Proof. intros H1 H2. cbn [settle Nat.add]. rewrite H1. cbn [settle]. by rewrite H2. Qed.
Lemma locked_new w c g i e : alive w !! c = Some g → entries w !! i = Some e → wrappedClients w !! c_key g = Some i → e_ref e = c → e_done e = false →
  run w (WrapLock c i) = (Wrap_commit w c g i e, None).
Proof. intros Hg He Ht Hc Hd. unfold run, Wrap_locked. rewrite Hg, He, Ht, !bool_decide_true by done. cbn [negb]. by rewrite Hd. Qed.

(** Wrap returns. From any state that can be reached, a call that is not disturbed
    comes back within two rounds of its loop with its client wrapped: the entry of a
    client that is gone, at the same address, costs one round. *)
Theorem resty_wrap_returns (w : world) (c : N) (g : client) (Hw : rtc step empty_world w) (Hg : alive w !! c = Some g) :
  ∃ w' g', settle 4 w (WrapStart c) = Some w' ∧ alive w' !! c = Some g' ∧ c_hooks g' = install.
Proof.
  apply reachable_wf in Hw as Hwf.
  assert (Hfresh : ∀ v, alive v !! c = Some g → wrappedClients v !! c_key g = None → c_hooks g = [] →
    ∃ w' g', settle 2 v (WrapStart c) = Some w' ∧ alive w' !! c = Some g' ∧ c_hooks g' = install).
  { intros v Hv Ht Hh. set (i := length (entries v)). set (e := {| e_key := c_key g; e_ref := c; e_done := false |}).
    set (v1 := with_table v (<[c_key g := i]> (wrappedClients v)) (entries v ++ [e])). exists (Wrap_commit v1 c g i e), {| c_key := c_key g; c_hooks := install |}.
    split_and!; [|cbn; by rewrite lookup_insert_eq, Hh|done]. apply (settle_found 0 v v1 c i); [unfold run, Wrap_lookup; by rewrite Hv, Ht|].
    apply (locked_new v1 c g i e); [done|by apply list_lookup_middle|by apply lookup_insert_eq|done|done]. }
  assert (Hmore : ∀ n v, (∃ w' g', settle 2 v (WrapStart c) = Some w' ∧ alive w' !! c = Some g' ∧ c_hooks g' = install) →
    ∃ w' g', settle (2 + n) v (WrapStart c) = Some w' ∧ alive w' !! c = Some g' ∧ c_hooks g' = install).
  { intros n v (w' & g' & Hs & H). exists w', g'. split; [|done]. cbn [settle Nat.add] in *. destruct (run v (WrapStart c)) as [v1 [t1|]]; [|done].
    destruct (run v1 t1) as [v2 [t2|]]; done. }
  destruct (wrappedClients w !! c_key g) as [i|] eqn:Et.
  - destruct (wf_table w Hwf _ _ Et) as (e & He & Hek). destruct (decide (e_ref e = c)) as [Hc|Hc].
    + destruct (wf_entry w Hwf i e g He) as (_ & _ & Hh); [by rewrite Hc|]. apply (Hmore 2).
      assert (Hstart : run w (WrapStart c) = (w, Some (WrapLock c i))) by (unfold run, Wrap_lookup; by rewrite Hg, Et).
      destruct (e_done e) eqn:Ed.
      * exists w, g. split_and!; [|done|done]. apply (settle_found 0 w w c i); [done|]. unfold run, Wrap_locked. rewrite Hg, He, Et, !bool_decide_true by done.
        cbn [negb]. by rewrite Ed.
      * exists (Wrap_commit w c g i e), {| c_key := c_key g; c_hooks := install |}. split_and!; [|cbn; by rewrite lookup_insert_eq, Hh|done].
        apply (settle_found 0 w w c i); [done|]. by apply locked_new.
    + assert (Hdead : ∀ j x, entries w !! j = Some x → e_ref x ≠ c).
      { intros j x Hj Hx. destruct (wf_entry w Hwf j x g Hj) as (Hk & Ht & _); [by rewrite Hx|]. rewrite <- Hk, Et in Ht. injection Ht as <-.
        rewrite He in Hj. by injection Hj as ->. }
      set (v := with_table w (CompareAndDelete (wrappedClients w) (c_key g) i) (entries w)).
      assert (Hloop : settle 4 w (WrapStart c) = settle 2 v (WrapStart c)).
      { cbn [settle]. unfold run at 1, Wrap_lookup. rewrite Hg, Et. unfold run at 1, Wrap_locked.
        rewrite Hg, He, Et, bool_decide_true by done. cbn [negb]. by rewrite bool_decide_false by done. }
      rewrite Hloop. apply Hfresh; [done| |by apply (wf_bare w Hwf c g)]. cbn. unfold CompareAndDelete. rewrite bool_decide_true by done. by rewrite lookup_delete_eq.
  - apply (Hmore 2), Hfresh; [done|done|]. apply (wf_bare w Hwf c g Hg). intros j x Hj Hx. destruct (wf_entry w Hwf j x g Hj) as (Hk & Ht & _); [by rewrite Hx|].
    rewrite <- Hk in Ht. congruence.
Qed.

(** * Samples *)
Lemma fresh_by (m : gmap N client) key : bool_decide (map_Forall (λ (_ : N) g, c_key g ≠ key) m) = true → ∀ c g, m !! c = Some g → c_key g ≠ key.
Proof. intros H%bool_decide_eq_true c g Hg. by apply (H c g). Qed.
(** Two clients one after the other at address 7: the first is wrapped and collected,
    and its cleanup has not run when the second is made. *)
Lemma sample_reuse : ∃ w, rtc step empty_world w ∧ alive w !! 1%N = Some {| c_key := 7; c_hooks := [] |} ∧ wrappedClients w !! 7%N = Some 0
  ∧ running w = [CleanupStart 7 0].
Proof.
  eexists. split_and!.
  - eapply rtc_l; [apply (step_make _ 7), fresh_by; by vm_compute|].
    eapply rtc_l; [apply (step_wrap _ 0); by eexists|]. cbn.
    eapply rtc_l; [eapply (step_run _ [] (WrapStart 0) []); [reflexivity|vm_compute; reflexivity]|]. cbn.
    eapply rtc_l; [eapply (step_run _ [] (WrapLock 0 0) []); [reflexivity|vm_compute; reflexivity]|]. cbn.
    eapply rtc_l; [apply (step_collect _ 0); [by eexists|intros t H; by apply elem_of_nil in H]|]. cbn.
    eapply rtc_l; [apply (step_make _ 7), fresh_by; by vm_compute|]. cbn. apply rtc_refl.
  - by vm_compute.
  - by vm_compute.
  - by vm_compute.
Qed.
Lemma resty_wrap_returns_witness : ∃ w w' g', rtc step empty_world w ∧ wrappedClients w !! 7%N = Some 0
  ∧ settle 4 w (WrapStart 1) = Some w' ∧ alive w' !! 1%N = Some g' ∧ c_hooks g' = install.
Proof.
  destruct sample_reuse as (w & Hw & Hg & Ht & _). destruct (resty_wrap_returns w 1%N _ Hw Hg) as (w' & g' & H1 & H2 & H3).
  exists w, w', g'. by split_and!.
Defined.
