(* ===== verification/MongoClient.v ===== *)
(** mongo/client.go: the options, Instrument, Connect, the command monitor and the
    composition of monitors. Events are objects the driver owns, so a monitor gets a
    reference into a heap. The driver, otelmongo and BSON are parameters; the pool
    monitor's handler is that of [MongoPool]. *)
From S2P Require Import Prelude Instruments Utf8 GoStrings GoNum MongoAddress.

(** * Options *)
Record config := { poolName : bytes }.
Inductive Option_ := WithPoolName (name : bytes).
Definition apply_option (c : config) (o : Option_) : config := match o with WithPoolName name => {| poolName := TrimSpace name |} end.
Definition newConfig (opts : list (option Option_)) : config :=
  foldl (λ c o, match o with Some o => apply_option c o | None => c end) {| poolName := [] |} opts.

(** * Monitors *)
Section monitors.
(** [B] is what an event has besides its connection identifier, [O] what else a
    handler may look at and change. *)
Context {Ctx B O : Type}.
Record event := { ConnectionID : bytes; body : B }.
Record world := { heap : gmap positive event; other : O }.
(** A callback; an event may be nil. *)
Definition handler := Ctx → option positive → world → world.
Record CommandMonitor := { Started : option handler; Succeeded : option handler; Failed : option handler }.

Definition normalized (h : handler) : handler := λ ctx r w,
  match r ≫= (heap w !!.) with
  | Some ev =>
    let id := normalizeConnectionID (ConnectionID ev) in
    if bool_decide (id = ConnectionID ev) then h ctx r w
    else let p := fresh (dom (heap w)) in
         h ctx (Some p) {| heap := <[p := {| ConnectionID := id; body := body ev |}]> (heap w); other := other w |}
  | None => h ctx r w
  end.
Definition withNormalizedConnectionIDs (inner : option CommandMonitor) : option CommandMonitor :=
  match inner with
  | None => None
  | Some m => Some {| Started := normalized <$> Started m; Succeeded := normalized <$> Succeeded m; Failed := normalized <$> Failed m |}
  end.
Definition both (first second : option handler) : handler := λ ctx r w,
  let w := match first with Some h => h ctx r w | None => w end in
  match second with Some h => h ctx r w | None => w end.
Definition composeCommandMonitors (first second : option CommandMonitor) : option CommandMonitor :=
  match first, second with
  | None, _ => second
  | _, None => first
  | Some m, Some n => Some {| Started := Some (both (Started m) (Started n)); Succeeded := Some (both (Succeeded m) (Succeeded n));
                              Failed := Some (both (Failed m) (Failed n)) |}
  end.

(** Pool events are handled the same way, by one callback. *)
Context {PoolEvent V : Type}.
Definition pool_handler := option PoolEvent → V → V.
Record PoolMonitor := { Event : option pool_handler }.
Definition composePoolMonitors (first second : option PoolMonitor) : option PoolMonitor :=
  match first, second with
  | None, _ => second
  | _, None => first
  | Some m, Some n => Some {| Event := Some (λ evt v,
      let v := match Event m with Some h => h evt v | None => v end in
      match Event n with Some h => h evt v | None => v end) |}
  end.

(** * Span names *)
Section names.
(** A command event's name and document; what BSON answers about its first element. *)
Context {Cmd Elt Val : Type} (CommandName : B → bytes) (Command : B → Cmd).
Context (IndexErr : Cmd → option Elt) (KeyErr : Elt → option bytes) (ValueErr : Elt → option Val) (StringValue : Val → option bytes).
Definition mongoSystemName : bytes := #"mongodb".
Definition commandCollection (evt : event) : bytes :=
  match IndexErr (Command (body evt)) with
  | None => []
  | Some elt =>
    match KeyErr elt with
    | None => []
    | Some key =>
      if negb (bool_decide (key = CommandName (body evt))) then []
      else match ValueErr elt ≫= StringValue with Some s => s | None => [] end
    end
  end.
Definition spanName (evt : option event) : bytes :=
  match evt with
  | None => mongoSystemName
  | Some e =>
    let collection := commandCollection e in
    if negb (bool_decide (collection = [])) then mongoSystemName ++ #"." ++ CommandName (body e) ++ #" " ++ collection
    else mongoSystemName ++ #"." ++ CommandName (body e)
  end.

(** A command's span is named after the operation, and after the collection when the
    command has one: its document begins with the command's own name, with the name of a
    collection, a string that is not empty, as the value. In any other case, an unreadable
    document included, the span has no target. *)
Theorem mongo_span_name (e : event) :
  (∀ elt collection, IndexErr (Command (body e)) = Some elt → KeyErr elt = Some (CommandName (body e)) → ValueErr elt ≫= StringValue = Some collection →
     collection ≠ [] → spanName (Some e) = mongoSystemName ++ #"." ++ CommandName (body e) ++ #" " ++ collection)
  ∧ ((¬ ∃ elt collection, IndexErr (Command (body e)) = Some elt ∧ KeyErr elt = Some (CommandName (body e)) ∧ ValueErr elt ≫= StringValue = Some collection
        ∧ collection ≠ []) → spanName (Some e) = mongoSystemName ++ #"." ++ CommandName (body e)).
Proof.
  unfold spanName, commandCollection. split.
  - intros elt collection -> -> -> Hne. rewrite (bool_decide_true (CommandName (body e) = CommandName (body e))) by done. cbn [negb]. by rewrite bool_decide_false.
  - intros Hn. assert (Hnil : ∀ x : bytes, x = [] → (if negb (bool_decide (x = [])) then mongoSystemName ++ #"." ++ CommandName (body e) ++ #" " ++ x
      else mongoSystemName ++ #"." ++ CommandName (body e)) = mongoSystemName ++ #"." ++ CommandName (body e)) by (intros x ->; done).
    apply Hnil. destruct (IndexErr (Command (body e))) as [elt|] eqn:E1; [|done]. destruct (KeyErr elt) as [key|] eqn:E2; [|done].
    case_bool_decide as Hk; cbn [negb]; [|done]. subst key. destruct (ValueErr elt ≫= StringValue) as [s|] eqn:E3; [|done].
    destruct (decide (s = [])) as [Hs|Hs]; [done|]. destruct Hn. by exists elt, s.
Qed.
End names.

(** * Instrument and Connect *)
Section client.
(** [opts] is what the options have besides their monitors; [Meter] is a
    provider's meter for the scope of this package, [tracker] the handler of a pool
    tracker with its name, and [seq] is the process's sequence number. *)
Context {TP MP Prop_ Opts Cl : Type} (noop_tp : TP) (noop_mp : MP).
Context (otelmongo_NewMonitor : TP → MP → CommandMonitor) (Meter : MP → instrument_meter) (tracker : MP → bytes → pool_handler).
Definition newPoolMetrics (mp : MP) : option bytes := refused (mongo_newPoolMetrics (Meter mp)).
Record ClientOptions := { Hosts : list bytes; Monitor : option CommandMonitor; PoolMonitor_ : option PoolMonitor; rest : Opts }.
Definition NewMonitor (tp : option TP) (mp : option MP) : option CommandMonitor :=
  withNormalizedConnectionIDs (Some (otelmongo_NewMonitor (default noop_tp tp) (default noop_mp mp))).
(** newPoolMonitor: the monitor, and the sequence number afterwards. *)
Definition newPoolMonitor (opts : ClientOptions) (mp : MP) (name : bytes) (seq : N) : bytes + (PoolMonitor * N) :=
  match newPoolMetrics mp with
  | Some err => inl (#"create MongoDB pool metrics: " ++ err)
  | None => let '(name, seq) := defaultPoolName (Hosts opts) name seq in inr ({| Event := Some (tracker mp name) |}, seq)
  end.
Definition Instrument (opts : option ClientOptions) (tp : option TP) (mp : option MP) (prop : option Prop_) (options : list (option Option_)) (seq : N) :
    bytes + (ClientOptions * N) :=
  match opts, tp, mp, prop with
  | None, _, _, _ => inl #"client options must not be nil"
  | _, None, _, _ => inl #"tracer provider must not be nil"
  | _, _, None, _ => inl #"meter provider must not be nil"
  | _, _, _, None => inl #"propagator must not be nil"
  | Some opts, Some tp, Some mp, Some _ =>
    match newPoolMonitor opts mp (poolName (newConfig options)) seq with
    | inl err => inl err
    | inr (poolMonitor, seq) =>
      inr ({| Hosts := Hosts opts; Monitor := composeCommandMonitors (Monitor opts) (NewMonitor (Some tp) (Some mp));
              PoolMonitor_ := composePoolMonitors (PoolMonitor_ opts) (Some poolMonitor); rest := rest opts |}, seq)
    end
  end.

(** Connect: [ctx] is nil, or its error; [ApplyURI] reads the address and
    [drivermongo_Connect] makes the client. *)
Inductive connect_call := DriverConnect (opts : ClientOptions) | Cleanup.
Context (ApplyURI : bytes → ClientOptions) (drivermongo_Connect : ClientOptions → bytes + Cl).
Definition Connect (ctx : option (option bytes)) (uri : bytes) (tp : option TP) (mp : option MP) (prop : option Prop_) (options : list (option Option_))
    (seq : N) : (bytes + Cl) * list connect_call :=
  match ctx with
  | None => (inl #"mongo connect: context must not be nil", [])
  | Some (Some err) => (inl (#"mongo connect: context already canceled: " ++ err), [])
  | Some None =>
    if bool_decide (uri = []) then (inl #"mongo connect: uri must not be empty", [])
    else match Instrument (Some (ApplyURI uri)) tp mp prop options seq with
         | inl err => (inl (#"mongo connect: " ++ err), [])
         | inr (opts, _) =>
           match drivermongo_Connect opts with
           | inl err => (inl (#"mongo connect: " ++ err), [DriverConnect opts; Cleanup])
           | inr client => (inr client, [DriverConnect opts])
           end
         end
  end.

(** * What a client's monitors do *)
Definition deliver (h : option handler) (ctx : Ctx) (p : positive) (w : world) : world := match h with Some h => h ctx (Some p) w | None => w end.
Definition deliver_pool (m : option PoolMonitor) (evt : option PoolEvent) (v : V) : V :=
  match m ≫= Event with Some h => h evt v | None => v end.
(** The three kinds of command events. *)
Inductive kind : (CommandMonitor → option handler) → Prop := kind_started : kind Started | kind_succeeded : kind Succeeded | kind_failed : kind Failed.

Lemma normalized_event h ctx p w ev : heap w !! p = Some ev → ∃ p' w', normalized h ctx (Some p) w = h ctx (Some p') w'
  ∧ heap w' !! p' = Some {| ConnectionID := normalizeConnectionID (ConnectionID ev); body := body ev |}
  ∧ other w' = other w ∧ ∀ q, q ∈ dom (heap w) → heap w' !! q = heap w !! q.
Proof.
  intros Hp. unfold normalized. cbn [mbind option_bind]. rewrite Hp. case_bool_decide as E.
  - exists p, w. split_and!; [done| |done|done]. rewrite E. by destruct ev.
  - eexists _, _. split_and!; [reflexivity|cbn; by rewrite lookup_insert_eq|done|]. intros q Hq. cbn. rewrite lookup_insert_ne; [done|].
    intros <-. by apply (is_fresh (dom (heap w))).
Qed.
Lemma composed_kind k m n : kind k → k <$> composeCommandMonitors m n = match m, n with
  | None, _ => k <$> n | _, None => k <$> m | Some m, Some n => Some (Some (both (k m) (k n))) end.
Proof. intros []; by destruct m, n. Qed.

(** C30: the monitors of an instrumented client. A command event reaches the application's
    own callback first, as the driver made it; then otelmongo's, with the counter taken
    off the connection identifier and everything else the same, on a copy where that
    changes it: no event the driver or the application holds is written to. Pool events
    reach the application's monitor and then one tracker, under the name that was set or
    a new one. Nothing is instrumented without all of the options, the providers and the
    propagator, and then, as when the instruments cannot be made, an error says so. *)
Theorem mongo_instrumented (opts : option ClientOptions) (tp : option TP) (mp : option MP) (prop : option Prop_) (options : list (option Option_)) (seq : N) :
  match Instrument opts tp mp prop options seq with
  | inl err => err ≠ [] ∧ (opts = None ∨ tp = None ∨ mp = None ∨ prop = None ∨ ∃ m, mp = Some m ∧ newPoolMetrics m ≠ None)
  | inr (opts', seq') => ∃ o t m name, opts = Some o ∧ tp = Some t ∧ mp = Some m ∧ (name, seq') = defaultPoolName (Hosts o) (poolName (newConfig options)) seq
    ∧ Hosts opts' = Hosts o ∧ rest opts' = rest o
    ∧ (∀ k ctx p w, kind k → ∃ m', Monitor opts' = Some m'
         ∧ let w1 := deliver (Monitor o ≫= k) ctx p w in
           match k (otelmongo_NewMonitor t m) with
           | None => deliver (k m') ctx p w = w1
           | Some h => ∀ ev, heap w1 !! p = Some ev → ∃ p' w2, deliver (k m') ctx p w = h ctx (Some p') w2
               ∧ heap w2 !! p' = Some {| ConnectionID := normalizeConnectionID (ConnectionID ev); body := body ev |}
               ∧ other w2 = other w1 ∧ ∀ q, q ∈ dom (heap w1) → heap w2 !! q = heap w1 !! q
           end)
    ∧ (∀ evt v, deliver_pool (PoolMonitor_ opts') evt v = tracker m name evt (deliver_pool (PoolMonitor_ o) evt v))
  end.
Proof.
  unfold Instrument. destruct opts as [o|]; [|by split; [|left]]. destruct tp as [t|]; [|by split; [|right; left]].
  destruct mp as [m|]; [|by split; [|right; right; left]]. destruct prop as [pr|]; [|by split; [|do 3 right; left]].
  unfold newPoolMonitor. destruct (newPoolMetrics m) as [err|] eqn:Em; [split; [done|do 4 right; exists m; by rewrite Em]|].
  destruct (defaultPoolName (Hosts o) (poolName (newConfig options)) seq) as [name seq'] eqn:En. exists o, t, m, name. split_and!; try done; cbn [Monitor PoolMonitor_].
  - intros k ctx p w Hk. unfold NewMonitor. cbn [default from_option withNormalizedConnectionIDs].
    set (n := {| Started := normalized <$> Started (otelmongo_NewMonitor t m); Succeeded := normalized <$> Succeeded (otelmongo_NewMonitor t m);
                 Failed := normalized <$> Failed (otelmongo_NewMonitor t m) |}).
    assert (Hn : k n = normalized <$> k (otelmongo_NewMonitor t m)) by by destruct Hk.
    pose proof (composed_kind k (Monitor o) (Some n) Hk) as Hc.
    assert (Hdel : ∃ m', composeCommandMonitors (Monitor o) (Some n) = Some m' ∧ deliver (k m') ctx p w
      = deliver (k n) ctx p (deliver (Monitor o ≫= k) ctx p w)).
    { destruct (Monitor o) as [a|]; cbn [composeCommandMonitors] in *.
      - set (m' := {| Started := Some (both (Started a) (Started n)); Succeeded := Some (both (Succeeded a) (Succeeded n));
                      Failed := Some (both (Failed a) (Failed n)) |}). exists m'. split; [done|].
        assert (k m' = Some (both (k a) (k n))) as -> by (injection Hc as Hc; exact Hc). cbn [mbind option_bind]. unfold deliver, both. by destruct (k a), (k n).
      - exists n. split; [done|]. done. }
    destruct Hdel as (m' & Hm' & Hdel). exists m'. split; [done|]. cbv zeta. rewrite Hdel, Hn.
    destruct (k (otelmongo_NewMonitor t m)) as [h|]; [|done]. intros ev Hev. cbn [deliver fmap option_fmap option_map]. by apply normalized_event.
  - intros evt v. unfold deliver_pool. destruct (PoolMonitor_ o) as [[a]|]; cbn; [by destruct a|done].
Qed.

(** Connect makes one client or leaves nothing behind. It answers a client exactly when
    the context lives, the address is not empty, the options could be instrumented and the
    driver connected; the driver is called once, with the instrumented options, and the
    pool metrics are cleaned up exactly when it failed. *)
Theorem mongo_connect (ctx : option (option bytes)) (uri : bytes) (tp : option TP) (mp : option MP) (prop : option Prop_) (options : list (option Option_)) (seq : N) :
  let '(answer, calls) := Connect ctx uri tp mp prop options seq in
  match answer with
  | inr client => ∃ opts seq', ctx = Some None ∧ uri ≠ [] ∧ Instrument (Some (ApplyURI uri)) tp mp prop options seq = inr (opts, seq')
      ∧ drivermongo_Connect opts = inr client ∧ calls = [DriverConnect opts]
  | inl err => (∃ why, err = #"mongo connect: " ++ why)
      ∧ (calls = [] ∧ (ctx ≠ Some None ∨ uri = [] ∨ ∃ why, Instrument (Some (ApplyURI uri)) tp mp prop options seq = inl why)
         ∨ ∃ opts seq' why, Instrument (Some (ApplyURI uri)) tp mp prop options seq = inr (opts, seq') ∧ drivermongo_Connect opts = inl why
             ∧ calls = [DriverConnect opts; Cleanup])
  end.
Proof.
  unfold Connect. destruct ctx as [[err|]|].
  - split; [by exists ( #"context already canceled: " ++ err)|]. left. split; [done|by left].
  - case_bool_decide as Hu; [split; [by exists #"uri must not be empty"|]; left; split; [done|by right; left]|].
    destruct (Instrument (Some (ApplyURI uri)) tp mp prop options seq) as [err|[opts seq']] eqn:Ei.
    { split; [by exists err|]. left. split; [done|]. right; right. by exists err. }
    destruct (drivermongo_Connect opts) as [err|client] eqn:Ec.
    + split; [by exists err|]. right. by exists opts, seq', err.
    + by exists opts, seq'.
  - split; [by exists #"context must not be nil"|]. left. split; [done|by left].
Qed.
End client.
End monitors.
