(* ===== verification/ViewLabels.v ===== *)
(** What the integrations record and what the views of Init let through: the labels of
    [Cassandra], [Elasticsearch], [Minio], [RedisHook] and [MongoPool] on the
    instruments of [Instruments], under the views of [Views]. *)
From S2P Require Import Prelude Utf8 GoStrings GoNum GoFields Utf8Valid GoUrl RedactError Attribute PromLabel Semconv MongoAddress MongoPool CassandraCql.
From S2P Require Import Cassandra RedisHook Minio Elasticsearch MetricCap MetricRewrite MetricRules MetricViews Views Instruments.

(** * The labels of a mongo pool *)
Definition same_options (s s' : poolState) : Prop := poolAddOpt s' = poolAddOpt s ∧ usedAddOpt s' = usedAddOpt s ∧ idleAddOpt s' = idleAddOpt s.
(** The labels an emission may have. *)
Definition labels_ok (s : poolState) (e : emission) : Prop :=
  MongoPool.labels e = poolAddOpt s ∧ MongoPool.on e ≠ ConnectionCount
  ∨ (MongoPool.labels e = usedAddOpt s ∨ MongoPool.labels e = idleAddOpt s) ∧ MongoPool.on e = ConnectionCount.
Lemma Add_ok s i d : i ≠ ConnectionCount → Forall (labels_ok s) (Add i d (poolAddOpt s)).
Proof. intros Hi. apply Forall_singleton. by left. Qed.
Lemma count_used_ok s d : Forall (labels_ok s) (addConnectionCount d (usedAddOpt s)).
Proof. unfold addConnectionCount. destruct (d =? 0)%Z; [done|]. apply Forall_singleton. right. by split; [left|]. Qed.
Lemma count_idle_ok s d : Forall (labels_ok s) (addConnectionCount d (idleAddOpt s)).
Proof. unfold addConnectionCount. destruct (d =? 0)%Z; [done|]. apply Forall_singleton. right. by split; [right|]. Qed.
Create HintDb pool_labels.
#[export] Hint Resolve Add_ok count_used_ok count_idle_ok Forall_nil_2 : pool_labels.
#[export] Hint Extern 1 (_ ≠ ConnectionCount) => done : pool_labels.

Definition step_ok (s : poolState) (r : poolState * list emission) : Prop := same_options s r.1 ∧ Forall (labels_ok s) r.2.
Ltac step_cases := repeat case_match; simplify_eq; (split; [done|]); cbn [fst snd]; rewrite ?Forall_app; split_and?; eauto with pool_labels.
Lemma setOptions_step s opts : step_ok s (setOptions s opts).
Proof. unfold setOptions. step_cases. Qed.
Lemma decrementPending_step s : step_ok s (decrementPending s).
Proof. unfold decrementPending. step_cases. Qed.
Lemma checkOutConnection_step s id : step_ok s (checkOutConnection s id).
Proof. unfold checkOutConnection. step_cases. Qed.
Lemma checkInConnection_step s id : step_ok s (checkInConnection s id).
Proof. unfold checkInConnection. step_cases. Qed.
Lemma closeConnection_step s id : step_ok s (closeConnection s id).
Proof. unfold closeConnection. step_cases. Qed.
Lemma closePool_labels s : Forall (labels_ok s) (closePool s).
Proof. unfold closePool. repeat case_match; rewrite ?Forall_app; split_and?; eauto with pool_labels. Qed.
Lemma labels_ok_same s s' e : same_options s s' → labels_ok s' e → labels_ok s e.
Proof. unfold same_options, labels_ok. intros (-> & -> & ->). done. Qed.
Lemma step_then s s1 ems1 s2 ems2 : step_ok s (s1, ems1) → step_ok s1 (s2, ems2) → step_ok s (s2, ems1 ++ ems2).
Proof.
  intros [Hs1 H1] [Hs2 H2]. cbn in *. split; cbn.
  - unfold same_options in *. naive_solver congruence.
  - apply Forall_app. split; [done|]. eapply Forall_impl; [exact H2|]. intros e. by apply labels_ok_same.
Qed.
Lemma handle_event_step s evt : step_ok s (handle_event s evt).1.
Proof.
  unfold handle_event. destruct (Type_ evt).
  - apply (setOptions_step (set_counters s (livePools s + 1) (pending s))).
  - apply setOptions_step.
  - split; [done|]. apply count_idle_ok.
  - apply closeConnection_step.
  - split; [done|]. by apply Add_ok.
  - pose proof (decrementPending_step s) as H1. destruct (decrementPending s) as [s1 ems1].
    pose proof (checkOutConnection_step s1 (ConnectionID evt)) as H2. destruct (checkOutConnection s1 _) as [s2 ems2]. by eapply step_then.
  - pose proof (decrementPending_step s) as H1. destruct (decrementPending s) as [s1 ems1]. apply (step_then s s1 ems1 s1); [done|].
    split; [done|]. cbn. destruct (ReasonTimedOut evt); [by apply Add_ok|done].
  - apply checkInConnection_step.
  - by split.
  - unfold poolClosed. cbn. split; [done|]. cbn. destruct (_ =? 0)%Z; [apply (closePool_labels (set_counters s _ (pending s)))|done].
  - by split.
Qed.

(** The labels a tracker of that name puts on a server's measurements; a state keeps
    those it was made with. *)
Definition server_labels (name addr : bytes) : list KeyValue := tracker_attrs (newTracker name) addr.
Definition labelled_as (name : bytes) (s : poolState) : Prop :=
  ∃ addr, poolAddOpt s = server_labels name addr ∧ usedAddOpt s = server_labels name addr ++ [MongoPool.DBClientConnectionStateUsed]
    ∧ idleAddOpt s = server_labels name addr ++ [MongoPool.DBClientConnectionStateIdle].
Definition tracker_ok (name : bytes) (t : poolTracker) : Prop := MongoPool.poolName t = name ∧ map_Forall (λ _ s, labelled_as name s) (pools t).
Definition made_labels (name : bytes) (e : emission) : Prop :=
  ∃ addr, MongoPool.labels e = server_labels name addr ∧ MongoPool.on e ≠ ConnectionCount
    ∨ MongoPool.labels e ∈ [server_labels name addr ++ [MongoPool.DBClientConnectionStateUsed]; server_labels name addr ++ [MongoPool.DBClientConnectionStateIdle]]
      ∧ MongoPool.on e = ConnectionCount.
Lemma labels_made name s e : labelled_as name s → labels_ok s e → made_labels name e.
Proof.
  intros (addr & H1 & H2 & H3). unfold labels_ok. rewrite H1, H2, H3. intros [H|[H ?]]; exists addr; [by left|right]. split; [|done].
  destruct H as [->| ->]; [by left|by right; left].
Qed.
Lemma labelled_same name s s' : same_options s s' → labelled_as name s → labelled_as name s'.
Proof. intros (H1 & H2 & H3). unfold labelled_as. by rewrite H1, H2, H3. Qed.
Lemma handle_labels name t evt : tracker_ok name t →
  let '(t', ems) := handle t evt in tracker_ok name t' ∧ Forall (made_labels name) ems.
Proof.
  intros [Hn Ht]. unfold handle. destruct evt as [e|]; [|done]. destruct (disabled t); [done|].
  assert (Hs : labelled_as name (state t (Address e))).
  { unfold state. destruct (pools t !! poolKey (Address e)) as [s|] eqn:Es; [by apply (Ht _ s Es)|]. exists (Address e).
    unfold server_labels, tracker_attrs. cbn. by rewrite Hn. }
  pose proof (handle_event_step (state t (Address e)) e) as [Hsame Hems]. destruct (handle_event (state t (Address e)) e) as [[s ems] dropped]. cbn in Hsame, Hems.
  pose proof (labelled_same _ _ _ Hsame Hs) as Hs'. split.
  - split; [done|]. cbn. destruct dropped; [by apply map_Forall_delete|by apply map_Forall_insert_2].
  - apply Forall_app. split; [eapply Forall_impl; [exact Hems|]; intros x; by apply labels_made|].
    destruct (Type_ e); try apply Forall_nil_2. apply Forall_singleton, (labels_made name s); [done|]. by left.
Qed.
Lemma run_labels name es t : tracker_ok name t → Forall (λ x, made_labels name x.2) (MongoPool.run t es).2.
Proof.
  revert t. induction es as [|e es IH]; intros t Ht; [by apply Forall_nil_2|]. cbn [MongoPool.run]. pose proof (handle_labels name t (Some e) Ht) as H.
  destruct (handle t (Some e)) as [t1 ems]. destruct H as [Ht1 Hems]. specialize (IH t1 Ht1). destruct (MongoPool.run t1 es) as [t2 trace].
  cbn. apply Forall_app. split; [|done]. by apply Forall_fmap.
Qed.
Lemma server_labels_keys name addr : (server_labels name addr).*1 ⊆ pool_keys.
Proof.
  unfold server_labels, tracker_attrs. rewrite !fmap_app. intros k. rewrite !elem_of_app. intros [Hk|[Hk|Hk]].
  - apply elem_of_cons in Hk as [->|Hk]; [by left|]. apply list_elem_of_singleton in Hk as ->. right; by left.
  - case_bool_decide; [by apply elem_of_nil in Hk|]. apply list_elem_of_singleton in Hk as ->. do 2 right; by left.
  - destruct (0 <? _)%Z; [|by apply elem_of_nil in Hk]. apply list_elem_of_singleton in Hk as ->. do 3 right; by left.
Qed.

(** * What is recorded *)
Definition redis_observable (i : pool_instrument) : Instrument :=
  match i with
  | PoolCount => connection_count (Observable RedisScope)
  | PoolIdleMax => idle_max (Observable RedisScope)
  | PoolIdleMin => idle_min (Observable RedisScope)
  | PoolMax => connection_max (Observable RedisScope)
  | PoolTimeouts => connection_timeouts (Observable RedisScope)
  end.
Definition mongo_instrument (i : MongoPool.instrument) : Instrument :=
  match i with
  | ConnectionCount => connection_count (Int64UpDownCounter MongoScope)
  | IdleMin => idle_min (Int64UpDownCounter MongoScope)
  | ConnectionMax => connection_max (Int64UpDownCounter MongoScope)
  | PendingRequests => pending_requests (Int64UpDownCounter MongoScope)
  | MongoPool.Timeouts => connection_timeouts (Int64Counter MongoScope)
  | CreateTime => create_time MongoScope
  end.

Section recorded.
Context `{L : GoUnicode, U : GoUpper} (σ : error_store) (ans : error_answers) (depth : nat).
(** An instrument and the labels of a measurement an integration makes on it. *)
Inductive records : Instrument → list KeyValue → Prop :=
  | rec_cassandra_duration o name tgt srv start end_ err kvs d labels : Cassandra.OperationDuration d labels ∈ Cassandra.record o name tgt srv start end_ err kvs →
      records (operation_duration CassandraScope) labels
  | rec_cassandra_attempts o q labels : Cassandra.QueryAttempts labels ∈ ObserveQuery o q → records query_attempts labels
  | rec_cassandra_created o c d labels : Cassandra.ConnectDuration d labels ∈ ObserveConnect o c → records (create_time CassandraScope) labels
  | rec_cassandra_connects o c labels : Cassandra.ConnectCount labels ∈ ObserveConnect o c → records connection_attempts labels
  | rec_elasticsearch g s now calls d labels : Elasticsearch.recordDuration σ ans depth g s now = Some calls → Elasticsearch.RecordDuration d labels ∈ calls →
      records (operation_duration ElasticsearchScope) labels
  | rec_minio Code StatusCode c o err now d labels : Minio.RecordDuration d labels ∈ Minio.finish σ ans depth Code StatusCode c o err now →
      records minio_duration labels
  | rec_redis h d0 operation err d labels : RedisHook.RecordDuration d labels ∈ RedisHook.finish h d0 operation err → records (operation_duration RedisScope) labels
  | rec_redis_created c addr db pool off err start end_ d labels : RecordCreate d labels ∈ (DialHook (newRedisHook c addr db pool) off err start end_).2 →
      records (create_time RedisScope) labels
  | rec_redis_pool stats opt pool i v labels : (i, v, labels) ∈ observeClient stats opt pool → records (redis_observable i) labels
  | rec_mongo name events key e : (key, e) ∈ (MongoPool.run (newTracker name) events).2 → records (mongo_instrument (MongoPool.on e)) (MongoPool.labels e).

(** The keys of the labels, per instrument. *)
Definition recorded_keys : list (Instrument * list bytes) :=
  [(operation_duration CassandraScope, Cassandra.metric_keys); (query_attempts, Cassandra.metric_keys);
   (create_time CassandraScope, pool_keys); (connection_attempts, pool_keys ++ [ErrorTypeKey]);
   (operation_duration ElasticsearchScope, Elasticsearch.label_keys); (minio_duration, Minio.label_keys);
   (operation_duration RedisScope, RedisHook.metric_keys); (create_time RedisScope, pool_keys)]
  ++ ((λ i, (redis_observable i, match i with PoolCount => pool_state_keys | _ => pool_keys end))
        <$> [PoolCount; PoolIdleMax; PoolIdleMin; PoolMax; PoolTimeouts])
  ++ ((λ i, (mongo_instrument i, match i with ConnectionCount => pool_state_keys | _ => pool_keys end))
        <$> [ConnectionCount; IdleMin; ConnectionMax; PendingRequests; MongoPool.Timeouts; CreateTime]).

Lemma among (keys more : list bytes) : forallb (λ k, bool_decide (k ∈ more)) keys = true → keys ⊆ more.
Proof. intros H k Hk. rewrite forallb_forall in H. apply (bool_decide_eq_true (k ∈ more)), H. by apply list_elem_of_In. Qed.
Lemma poolAttrs_keys pool addr : (poolAttrs pool addr).*1 ⊆ pool_keys.
Proof. unfold poolAttrs. destruct (0 <? _)%Z; apply among; by vm_compute. Qed.
Lemma with_state_keys (kvs : list KeyValue) (st : KeyValue) : kvs.*1 ⊆ pool_keys → st.1 = DBClientConnectionStateKey → (kvs ++ [st]).*1 ⊆ pool_state_keys.
Proof.
  intros Hk Hs k. rewrite fmap_app, elem_of_app. intros [Hin|Hin].
  - apply Hk in Hin. revert k Hin. change (pool_keys ⊆ pool_state_keys). apply among. by vm_compute.
  - apply list_elem_of_singleton in Hin as ->. rewrite Hs. right; right; by left.
Qed.
Lemma connect_keys o c : (connect_attrs o c).*1 ⊆ pool_keys ++ (if c_Err c then [ErrorTypeKey] else []).
Proof.
  unfold connect_attrs. rewrite appendServerAttrs_app, !fmap_app. intros k. rewrite !elem_of_app. intros [[Hk|Hk]|Hk].
  - left. revert k Hk. change ([DBSystemNameKey; DBClientConnectionPoolNameKey] ⊆ pool_keys). apply among. by vm_compute.
  - left. eapply elem_of_sublist in Hk; [|apply server_attrs_keys]. revert k Hk. change (server_keys ⊆ pool_keys). apply among. by vm_compute.
  - right. by destruct (c_Err c).
Qed.
Lemma elastic_keys g s labels : Elasticsearch.metricAttrs σ ans depth g s = Some labels → labels.*1 ⊆ Elasticsearch.label_keys.
Proof.
  intros E. destruct (Elasticsearch.metricErrorType σ ans depth g s) as [t|] eqn:Et; [|by (unfold Elasticsearch.metricAttrs in E; rewrite Et in E)].
  destruct (metricAttrs_labels σ ans depth g s t Et) as (labels' & E' & Hs & _). rewrite E in E'. injection E' as ->. by apply sublist_subseteq.
Qed.
Lemma minio_keys Code StatusCode c o err now d labels : Minio.RecordDuration d labels ∈ Minio.finish σ ans depth Code StatusCode c o err now → labels.*1 ⊆ Minio.label_keys.
Proof.
  unfold Minio.finish. cbv zeta. destruct err as [r|].
  - destruct (minioErrorKind _ _ _ _ _ _) as [kind|]; [|by intros Hin%list_elem_of_singleton]. rewrite !elem_of_app. intros [Hin|[Hin|Hin]].
    + apply list_elem_of_singleton in Hin. done.
    + destruct (_ <? _)%Z; [by apply list_elem_of_singleton in Hin|by apply elem_of_nil in Hin].
    + destruct (error_method (σ r)); [|by apply list_elem_of_singleton in Hin]. cbn [app] in Hin. rewrite !elem_of_cons, elem_of_nil in Hin. destruct_or?; try done.
      injection Hin as -> ->. by apply metric_attrs_keys.
  - rewrite !elem_of_cons, elem_of_nil. intros Hin. destruct_or?; try done. injection Hin as -> ->. apply metric_attrs_keys. apply among. by vm_compute.
Qed.

Lemma observed_keys stats opt pool i v labels : (i, v, labels) ∈ observeClient stats opt pool →
  labels.*1 ⊆ match i with PoolCount => pool_state_keys | _ => pool_keys end.
Proof.
  pose proof (poolAttrs_keys pool (opt_Addr opt)) as Hk. revert Hk. unfold observeClient. destruct (connectionCounts stats) as [used idle].
  generalize (poolAttrs pool (opt_Addr opt)). intros kvs Hk.
  destruct (maxIdleConnections opt), (maxConnections opt); cbn [app]; rewrite !elem_of_cons, ?elem_of_nil; intros Hin; destruct_or?; try done;
    injection Hin as -> -> ->; first [exact Hk|by apply with_state_keys].
Qed.
Lemma mongo_keys name events key e : (key, e) ∈ (MongoPool.run (newTracker name) events).2 →
  (MongoPool.labels e).*1 ⊆ match MongoPool.on e with ConnectionCount => pool_state_keys | _ => pool_keys end.
Proof.
  intros Hin. assert (H : tracker_ok name (newTracker name)) by by split; [|apply map_Forall_empty].
  pose proof (run_labels name events _ H) as Hl. rewrite Forall_forall in Hl. destruct (Hl _ Hin) as (addr & [[He Hn]|[He Hn]]); cbn [snd] in He, Hn.
  - rewrite He. pose proof (server_labels_keys name addr). by destruct (MongoPool.on e).
  - rewrite Hn. rewrite !elem_of_cons, elem_of_nil in He. destruct He as [->|[->|[]]]; apply with_state_keys; first [apply server_labels_keys|done].
Qed.

(** An entry of the table, by its place. *)
Lemma nth_recorded n inst keys : recorded_keys !! n = Some (inst, keys) → (inst, keys) ∈ recorded_keys.
Proof. apply list_elem_of_lookup_2. Qed.
Lemma records_keys inst labels : records inst labels → ∃ keys, (inst, keys) ∈ recorded_keys ∧ labels.*1 ⊆ keys.
Proof.
  intros [o name tgt srv start end_ err kvs d l Hin|o q l Hin|o c d l Hin|o c l Hin|g s now calls d l Hc Hin|Code StatusCode c o err now d l Hin
         |h d0 operation err d l Hin|c addr db pool off err start end_ d l Hin|stats opt pool i v l Hin|name events key e Hin].
  - eexists. split; [by apply (nth_recorded 0)|]. unfold Cassandra.record in Hin. rewrite !elem_of_cons, elem_of_nil in Hin. destruct_or?; try done.
    injection Hin as -> ->. apply sublist_subseteq, Cassandra.metricAttrs_keys.
  - eexists. split; [by apply (nth_recorded 1)|]. unfold ObserveQuery, Cassandra.record in Hin. cbn [app] in Hin.
    rewrite !elem_of_cons, elem_of_nil in Hin. destruct_or?; try done. injection Hin as ->. apply sublist_subseteq, Cassandra.metricAttrs_keys.
  - eexists. split; [by apply (nth_recorded 2)|]. unfold ObserveConnect in Hin. pose proof (connect_keys o c) as Hk.
    destruct (c_Err c); rewrite !elem_of_cons, ?elem_of_nil in Hin; destruct_or?; try done. injection Hin as -> ->. by rewrite app_nil_r in Hk.
  - eexists. split; [by apply (nth_recorded 3)|]. unfold ObserveConnect in Hin. pose proof (connect_keys o c) as Hk.
    assert (l = connect_attrs o c) as -> by (destruct (c_Err c); rewrite !elem_of_cons, ?elem_of_nil in Hin; destruct_or?; try done; by injection Hin).
    destruct (c_Err c); [done|]. rewrite app_nil_r in Hk. intros k ?%Hk. apply elem_of_app. by left.
  - eexists. split; [by apply (nth_recorded 4)|]. unfold Elasticsearch.recordDuration in Hc. destruct (Elasticsearch.inst g), (Elasticsearch.start s);
      try (injection Hc as <-; by apply elem_of_nil in Hin). destruct (Elasticsearch.metricAttrs σ ans depth g s) as [kvs|] eqn:E; [|done].
    injection Hc as <-. apply list_elem_of_singleton in Hin. injection Hin as -> ->. by eapply elastic_keys.
  - eexists. split; [by apply (nth_recorded 5)|]. by eapply minio_keys.
  - eexists. split; [by apply (nth_recorded 6)|]. destruct (finish_facts h d0 operation err) as (_ & Hd & _ & _).
    assert (Hl : (d, l) ∈ durations (RedisHook.finish h d0 operation err)) by (apply list_elem_of_bind; exists (RedisHook.RecordDuration d l); split; [by left|done]).
    rewrite Hd in Hl. apply list_elem_of_singleton in Hl. injection Hl as -> ->. apply sublist_subseteq, labels_keys.
  - eexists. split; [by apply (nth_recorded 7)|]. unfold DialHook in Hin. destruct off; cbn [snd] in Hin; [by apply list_elem_of_singleton in Hin|].
    destruct err; rewrite !elem_of_cons, ?elem_of_nil in Hin; destruct_or?; try done. injection Hin as -> ->. apply poolAttrs_keys.
  - eexists. split; [|by apply (observed_keys stats opt pool i v l)]. apply elem_of_app. right. apply elem_of_app. left.
    apply list_elem_of_fmap. exists i. split; [done|]. destruct i; rewrite !elem_of_cons; tauto.
  - eexists. split; [|by apply (mongo_keys name events key)]. apply elem_of_app. right. apply elem_of_app. right.
    apply list_elem_of_fmap. exists (MongoPool.on e). split; [done|]. destruct (MongoPool.on e); rewrite !elem_of_cons; tauto.
Qed.
Lemma recorded_free : Forall (λ p, Forall (λ k, IsReservedAttributeKey k = false) p.2) recorded_keys.
Proof. repeat (apply Forall_cons; split; [repeat (apply Forall_cons; split; [vm_compute; reflexivity|]); apply Forall_nil_2|]); apply Forall_nil_2. Qed.
End recorded.

(** * What is exported *)
Section exported.
Context `{L : GoUnicode, U : GoUpper} (σ : error_store) (ans : error_answers) (depth : nat).
Context {boundary value kept : Type} `{S : @MetricSdk boundary value kept} (HS : MetricSdkLaws S) `{A : @ViewApi boundary value kept} (HA : ViewApiLaws A).
(** The stream of an instrument with the boundaries of the configuration, if it is a
    histogram, and these label keys. *)
Definition bounded_stream (buckets : list boundary) (inst : Instrument) (keys : list bytes) : @Stream boundary value kept := {|
  StreamName := Name inst; StreamDescription := Description inst; StreamUnit := Unit_ inst;
  StreamAggregation := if bool_decide (Kind inst = InstrumentKindHistogram) then histogram buckets else None;
  AttributeFilter := Some (NewAllowKeysFilter keys); ExemplarSelector := None |}.
Lemma recorded_streams disable buckets extra :
  Forall (λ p, own_stream (init_rows disable buckets extra) p.1 = bounded_stream buckets p.1 p.2) recorded_keys.
Proof. destruct disable; repeat (apply Forall_cons; split; [vm_compute; reflexivity|]); apply Forall_nil_2. Qed.

(** C24: the labels the integrations record are those their views let through. For every
    measurement of the cassandra, elasticsearch, minio, redis and mongo packages, the
    views of Init give its instrument one stream, with the configured boundaries if it is
    a histogram, and a filter of exactly the keys that package may use; every label of the
    measurement passes it, on the Prometheus path through the guard of reserved keys as
    well. So no view drops a label of the SDK's own, and no other label gets in. *)
Theorem labels_exported (disable : bool) (buckets : list boundary) (overrides : gmap bytes (list boundary)) (extra : list bytes)
    (inst : Instrument) (labels : list KeyValue) (Hb : valid_boundaries buckets = true) (Hr : records σ ans depth inst labels) :
  let views := meter_views (init_config disable buckets overrides extra) in
  ∃ keys, (inst, keys) ∈ recorded_keys
    ∧ (let s := override_stream overrides inst (bounded_stream buckets inst keys) in
       sdk_streams views inst = [s] ∧ sdk_streams (guardReservedKeys views) inst = [guard_stream s]
       ∧ AttributeFilter s = Some (NewAllowKeysFilter keys)
       ∧ ∃ guarded, AttributeFilter (guard_stream s) = Some guarded
           ∧ Forall (λ kv, NewAllowKeysFilter keys kv = true ∧ guarded kv = true) labels
           ∧ ∀ kv, guarded kv = true → kv.1 ∈ keys).
Proof.
  cbv zeta. destruct (records_keys σ ans depth inst labels Hr) as (keys & Hin & Hk). exists keys. split; [done|].
  pose proof (recorded_streams disable buckets extra) as Hs. rewrite Forall_forall in Hs. specialize (Hs _ Hin). cbn [fst snd] in Hs.
  pose proof recorded_free as Hfree. rewrite Forall_forall in Hfree. specialize (Hfree _ Hin). cbn [snd] in Hfree. rewrite Forall_forall in Hfree.
  assert (Hone : sdk_streams (meter_views (init_config disable buckets overrides extra)) inst = [override_stream overrides inst (bounded_stream buckets inst keys)]).
  { rewrite <- Hs. apply (overridden_stream HS HA); [by apply init_rows_ok|apply init_rows_apart|apply meter_views_rows]. }
  assert (Hf : AttributeFilter (override_stream overrides inst (bounded_stream buckets inst keys)) = Some (NewAllowKeysFilter keys))
    by (unfold override_stream; by destruct (override_buckets overrides inst)).
  split_and!; [done| |done|].
  - destruct (guardReservedKeys_exact S HS (meter_views (init_config disable buckets overrides extra)) inst) as [-> _]. by rewrite Hone.
  - eexists. split; [reflexivity|]. rewrite Hf. unfold composeFilters, notReserved. split.
    + apply Forall_forall. intros kv Hkv. assert (Hkey : kv.1 ∈ keys) by (apply Hk; by apply list_elem_of_fmap_2).
      assert (Hp : NewAllowKeysFilter keys kv = true) by by apply NewAllowKeysFilter_spec. split; [done|]. by rewrite Hp, (Hfree _ Hkey).
    + intros kv [Hp _]%andb_prop. by apply NewAllowKeysFilter_spec in Hp.
Qed.
End exported.

(** * A sample: an observation of redis, on an SDK that does as documented *)
Definition sample_pool_labels : list KeyValue := poolAttrs #"redis-cache" #"cache:6379".
Definition sample_pool_stats : PoolStats := {| TotalConns := 3; IdleConns := 1; RedisHook.Timeouts := 0 |}.
Definition sample_pool_options : RedisHook.PoolOptions := {| opt_Network := #"tcp"; opt_Addr := #"cache:6379"; MaxActiveConns := 0; MaxIdleConns := 0; MinIdleConns := 2 |}.
Lemma labels_exported_witness :
  sorted_Z [1; 10]%Z = true ∧ (PoolIdleMin, 2%Z, sample_pool_labels) ∈ observeClient sample_pool_stats sample_pool_options #"redis-cache"
  ∧ ∃ keys, (idle_min (Observable RedisScope), keys) ∈ recorded_keys
      ∧ Forall (λ kv, kv.1 ∈ keys) sample_pool_labels ∧ length sample_pool_labels = 4.
Proof.
  assert (Hb : sorted_Z [1; 10]%Z = true) by by vm_compute.
  assert (Hin : (PoolIdleMin, 2%Z, sample_pool_labels) ∈ observeClient sample_pool_stats sample_pool_options #"redis-cache") by (right; right; by left).
  split; [exact Hb|]. split; [exact Hin|].
  destruct (labels_exported (L := ascii_unicode) (U := ascii_upper) sample_errors no_answers 0 sample_sdk_laws sample_view_laws false [1; 10]%Z ∅ [] _ sample_pool_labels Hb
    (rec_redis_pool (L := ascii_unicode) (U := ascii_upper) sample_errors no_answers 0 _ _ _ PoolIdleMin _ _ Hin)) as (keys & Hk & _ & _ & _ & guarded & _ & Hf & Hg).
  exists keys. split; [exact Hk|]. split; [|by vm_compute]. eapply Forall_impl; [exact Hf|]. intros kv [_ Hp]. by apply Hg.
Defined.
