(* ===== verification/Providers.v ===== *)
(** The providers Init builds: InitTracer (internal/trace/trace.go), InitLogger
    (internal/log/provider.go) and InitMeter (internal/metrics/metrics.go, with
    resourceexporter.go and scrapelog.go). What they are given by the OTLP exporters, the
    SDK, the Prometheus client and the network is a parameter; what they open, and close
    when they fail, is a list of calls. *)
From S2P Require Import Prelude Utf8 GoStrings GoCodec GoNum Attribute ExportStats Repeat ResourceKeys Options Resource.
From S2P Require Import MetricCap MetricRewrite MetricRules MetricViews Views.

(** * Endpoints and headers of an exporter *)
Inductive otlp_option :=
  | WithEndpointURL (url : bytes) | WithEncodingProtobuf | WithURLPath (path : bytes) | WithHeaders (headers : list (bytes * bytes)).
Section endpoints.
Context `{L : GoLib}.
(** The default path of a signal, for a bare endpoint; the exporters would send to "/". *)
Definition bare_path (endpoint path : bytes) : list otlp_option :=
  match url_Parse endpoint with Some u => if bool_decide (Path u = []) then [WithURLPath path] else [] | None => [] end.
Definition with_headers (headers : list (bytes * bytes)) : list otlp_option := if bool_decide (headers = []) then [] else [WithHeaders headers].
Definition trace_options (endpoint : bytes) (headers : list (bytes * bytes)) : list otlp_option :=
  [WithEndpointURL endpoint; WithEncodingProtobuf] ++ bare_path endpoint #"/v1/traces" ++ with_headers headers.
Definition metric_options (endpoint : bytes) (headers : list (bytes * bytes)) : list otlp_option :=
  [WithEndpointURL endpoint] ++ bare_path endpoint #"/v1/metrics" ++ with_headers headers.
Definition set_Path (u : URL) (p : bytes) : URL := {|
  Scheme := Scheme u; Opaque := Opaque u; User := User u; Host := Host u; Path := p; RawPath := RawPath u;
  OmitHost := OmitHost u; ForceQuery := ForceQuery u; RawQuery := RawQuery u; Fragment := Fragment u; RawFragment := RawFragment u |}.
Definition logEndpointURL (endpoint : bytes) : option bytes :=
  match url_Parse endpoint with
  | None => None
  | Some u => let p := TrimRight (Path u) #"/" in Some (url_String (set_Path u (if bool_decide (p = []) then #"/v1/logs" else p)))
  end.
End endpoints.

(** * InitTracer and InitLogger *)
Inductive pcall := CreateExporter (opts : list otlp_option) | CreateProvider | ShutdownExporter | ShutdownProvider
  | StartRuntime | Listen | Serve | CloseListener | ShutdownServer | RegisterFailures.
Section signals.
Context `{L : GoLib} {R Sampler Processor : Type}.
(** A TracerProvider's options, in order: what it batches to counts failures where
    there is a recorder. *)
Inductive tracer_option :=
  | WithResource (res : R) | WithSampler (s : Sampler) | WithSpanProcessor (p : Processor) | WithBatcher (counted : bool).
Definition tracer_options (res : R) (sampler : option Sampler) (processors : list (option Processor)) (failures : bool) : list tracer_option :=
  [WithResource res] ++ match sampler with Some s => [WithSampler s] | None => [] end
  ++ (WithSpanProcessor <$> omap id processors) ++ [WithBatcher failures].
(** [new_exporter] is the error of creating the exporter, if any. *)
Definition InitTracer (endpoint : bytes) (headers : list (bytes * bytes)) (res : R) (sampler : option Sampler) (failures : bool)
    (processors : list (option Processor)) (new_exporter : list otlp_option → option bytes) : list pcall * (bytes + list tracer_option) :=
  let opts := trace_options endpoint headers in
  match new_exporter opts with
  | Some err => ([], inl (#"failed to create OTLP trace exporter: " ++ err))
  | None => ([CreateExporter opts; CreateProvider], inr (tracer_options res sampler processors failures))
  end.
Definition InitLogger (endpoint : bytes) (headers : list (bytes * bytes)) (new_exporter : list otlp_option → option bytes) : list pcall * option bytes :=
  match logEndpointURL endpoint with
  | None => ([], Some #"invalid OTLP endpoint: it is not a valid URL")
  | Some url =>
    let opts := [WithEndpointURL url] ++ with_headers headers in
    match new_exporter opts with
    | Some err => ([], Some (#"failed to create OTLP log exporter: " ++ err))
    | None => ([CreateExporter opts; CreateProvider], None)
    end
  end.
End signals.

(** * The exporter of the metrics *)
Section pipeline.
Context `{S : AttributeSets} {F E T M : Type} `{NumF : !Number F} {R : Type}.
Abbreviation ScopeMetrics := (@ScopeMetrics F E T M).
(** A batch: the Resource it is exported with, and the metrics. *)
Definition batch : Type := R * list ScopeMetrics.
(** What the exporters keep, and what went out. *)
Record xstate := { limiter : Limiter; recorder : option Recorder; sent : list batch }.
Definition exporter : Type := batch → xstate → xstate * option bytes.
(** The OTLP exporter; [answer] is the collector's. *)
Definition otlp (answer : batch → option bytes) : exporter := λ rm st,
  ({| limiter := limiter st; recorder := recorder st; sent := sent st ++ [rm] |}, answer rm).
Definition MetricExporter (inner : exporter) : exporter := λ rm st,
  let '(st, err) := inner rm st in
  ({| limiter := limiter st; recorder := (λ r, (Export_ r SignalMetrics err).1) <$> recorder st; sent := sent st |}, err).
Definition NewExporter (inner : exporter) : exporter := λ rm st,
  let '(l, sms) := Rewrite (limiter st) rm.2 in inner (rm.1, sms) {| limiter := l; recorder := recorder st; sent := sent st |}.
Definition withGuardedResource (inner : exporter) (res : R) : exporter := λ rm st, inner (res, rm.2) st.
(** initOTLP, from the inside out; [failures] is whether there is a recorder. *)
Definition cappedExporter (c : MetricRules.Config) (failures : bool) (res : R) (answer : batch → option bytes) : exporter :=
  let e := otlp answer in
  let e := if failures then MetricExporter e else e in
  let e := if bool_decide (otlpCapRules c = []) then e else NewExporter e in
  withGuardedResource e res.
Definition fresh_exports (c : MetricRules.Config) (failures : bool) : xstate :=
  {| limiter := NewLimiter (otlpCapRules c); recorder := if failures then Some (wrap_exporter zero_recorder SignalMetrics) else None; sent := [] |}.
Fixpoint export_all (e : exporter) (batches : list batch) (st : xstate) : xstate * list (option bytes) :=
  match batches with
  | [] => (st, [])
  | rm :: batches => let '(st, err) := e rm st in let '(st, errs) := export_all e batches st in (st, err :: errs)
  end.

Lemma capped_step c failures res answer rm st :
  cappedExporter c failures res answer rm st
  = let '(l, sms) := if bool_decide (otlpCapRules c = []) then (limiter st, rm.2) else Rewrite (limiter st) rm.2 in
    let err := answer (res, sms) in
    ({| limiter := l; recorder := if failures : bool then (λ r, (Export_ r SignalMetrics err).1) <$> recorder st else recorder st;
        sent := sent st ++ [(res, sms)] |}, err).
Proof.
  unfold cappedExporter, withGuardedResource. case_bool_decide; [by destruct failures|]. unfold NewExporter. cbn [fst snd].
  destruct (Rewrite (limiter st) rm.2) as [l sms]. by destruct failures.
Qed.
Lemma rules_not_empty c : otlpCapRules c ≠ [].
Proof. unfold otlpCapRules. intros H. apply app_eq_nil in H as [_ H]. apply app_eq_nil in H as [_ H]. done. Qed.

(** The exports of a run, from any state. *)
Lemma export_all_spec c failures res answer batches st :
  let '(st', errs) := export_all (cappedExporter c failures res answer) batches st in
  let '(l, out) := Exports (limiter st) (snd <$> batches) in
  limiter st' = l ∧ sent st' = sent st ++ ((res,.) <$> out) ∧ errs = answer <$> ((res,.) <$> out)
  ∧ recorder st' = if failures : bool then (λ r, foldl stats_step r (Exported SignalMetrics <$> errs)) <$> recorder st else recorder st.
Proof.
  revert st. induction batches as [|rm batches IH]; intros st.
  { cbn. rewrite app_nil_r. split_and!; try done. destruct failures; [|done]. by destruct (recorder st). }
  cbn [export_all fmap list_fmap Exports]. rewrite capped_step, bool_decide_false by apply rules_not_empty.
  destruct (Rewrite (limiter st) rm.2) as [l sms]. cbv beta iota zeta. set (err := answer (res, sms)).
  set (st1 := {| limiter := l; recorder := _; sent := _ |}). specialize (IH st1).
  destruct (export_all (cappedExporter c failures res answer) batches st1) as [st' errs]. change (limiter st1) with l in IH. destruct (Exports l (snd <$> batches)) as [l' out].
  destruct IH as (IH1 & IH2 & IH3 & IH4). split_and!; [done| | |].
  - rewrite IH2. subst st1. cbn [sent fmap list_fmap]. by rewrite <- app_assoc.
  - cbn [fmap list_fmap]. by rewrite IH3.
  - rewrite IH4. subst st1. cbn [recorder]. destruct failures; [|done]. by destruct (recorder st).
Qed.

Lemma Exports_length (l : Limiter) (bs : list (list ScopeMetrics)) : length (Exports l bs).2 = length bs.
Proof.
  revert l. induction bs as [|b bs IH]; intros l; [done|]. cbn [Exports]. destruct (Rewrite l b) as [l1 b1]. specialize (IH l1).
  destruct (Exports l1 bs). cbn in *. by rewrite IH.
Qed.
Lemma failures_errs (errs : list (option bytes)) : failures SignalMetrics (Exported SignalMetrics <$> errs) = length (filter is_Some errs).
Proof.
  unfold failures. induction errs as [|[err|] errs IH]; [done| |]; cbn [fmap list_fmap]; rewrite !filter_cons.
  - rewrite decide_True by by exists err. rewrite (decide_True (P := is_Some (Some err))) by by eexists. cbn [length]. f_equal. exact IH.
  - rewrite decide_False by by intros [? [=]]. rewrite (decide_False (P := is_Some None)) by by intros [? [=]]. exact IH.
Qed.

(** C23: what the OTLP exporter of the metrics sends. For any batches and any collector,
    every batch is sent once, in order, with the Resource the SDK built in place of the
    provider's, and with the metrics the cap rules of the configuration leave, by one
    limiter over all the batches; each export answers what the collector did to what was
    sent, and the recorder, where there is one, counts the failures, modulo 2^64. *)
Theorem otlp_metrics_sent (c : MetricRules.Config) (failures : bool) (res : R) (answer : batch → option bytes) (batches : list batch) :
  let '(st, errs) := export_all (cappedExporter c failures res answer) batches (fresh_exports c failures) in
  sent st = (res,.) <$> (Exports (NewLimiter (otlpCapRules c)) (snd <$> batches)).2
  ∧ errs = answer <$> sent st ∧ length (sent st) = length batches
  ∧ (is_Some (recorder st) ↔ failures = true)
  ∧ ∀ r, recorder st = Some r → Active r SignalMetrics = true ∧ eq64 (Failures r SignalMetrics) (Z.of_nat (length (filter is_Some errs))).
Proof.
  pose proof (export_all_spec c failures res answer batches (fresh_exports c failures)) as H.
  destruct (export_all _ batches _) as [st errs]. cbn [limiter fresh_exports sent recorder app] in H.
  pose proof (Exports_length (NewLimiter (otlpCapRules c)) (snd <$> batches)) as Hl. destruct (Exports _ (snd <$> batches)) as [l out]. cbn [snd] in *.
  destruct H as (_ & -> & He & Hr). split_and!; [done|done|by rewrite length_fmap, Hl, length_fmap| |].
  - rewrite Hr. destruct failures; cbn; [by split; [|intros _; eexists]|split; [by intros [? ?]|done]].
  - intros r Er. rewrite Hr in Er. destruct failures; [|done]. injection Er as <-.
    destruct (fold_stats (Exported SignalMetrics <$> errs) (wrap_exporter zero_recorder SignalMetrics) SignalMetrics) as [Hc Ha]; [do 2 right; by left|].
    rewrite failures_errs in Hc. split; [by apply Ha; left|exact Hc].
Qed.
End pipeline.

(** * InitMeter *)
Section meter.
Context `{L : GoLib} {boundary value kept : Type} `{Sdk : @MetricSdk boundary value kept} `{A : @ViewApi boundary value kept}.
(** The configuration, besides the views and the caps. *)
Record MeterConfig := {
  views_config : @Views.Config boundary value kept; cap_config : MetricRules.Config;
  MetricsOTLPEndpoint : bytes; OTLPHeaders : list (bytes * bytes); MetricsAddr : bytes;
  RuntimeMetrics : bool; ExportFailures : bool; Exemplars : bool;
}.
(** What the calls that may fail answer: the error, if any. *)
Record answers := {
  a_prometheus : option bytes; a_targetInfo : option bytes; a_register : option bytes; a_otlp : list otlp_option → option bytes;
  a_runtime : option bytes; a_listen : option bytes; a_failures : option bytes;
}.
(** A meter provider: its views, and its cardinality limit. *)
Record meter_provider := { provider_views : list (@View boundary value kept); cardinality_limit : Z }.
Definition meterProviderOptions (views : list View) (cfg : MeterConfig) : meter_provider :=
  {| provider_views := views;
     cardinality_limit := cardinalityLimitBudget (MaxUniqueRoutes (cap_config cfg)) (MaxUniqueCollections (cap_config cfg)) (CardinalityLimit (cap_config cfg)) |}.
(** The closer of a provider: the scrape server's Shutdown, or none. *)
Definition built_meter : Type := list pcall * (bytes + (meter_provider * option pcall)).

(** The runtime metrics, after which [next] runs; a failure shuts the provider down. *)
Definition start_runtime (cfg : MeterConfig) (a : answers) (next : built_meter) : built_meter :=
  if RuntimeMetrics cfg then
    match a_runtime a with
    | Some err => ([StartRuntime; ShutdownProvider], inl (#"metrics: start runtime metrics: " ++ err))
    | None => let '(calls, r) := next in (StartRuntime :: calls, r)
    end
  else next.
Definition initPrometheus (cfg : MeterConfig) (a : answers) (views : list View) : built_meter :=
  match a_prometheus a with
  | Some err => ([], inl (#"metrics: create prometheus exporter: " ++ err))
  | None =>
    match a_targetInfo a with
    | Some err => ([], inl err)
    | None =>
      match a_register a with
      | Some err => ([], inl (#"metrics: register target_info: " ++ err))
      | None =>
        let '(calls, r) := start_runtime cfg a
          match a_listen a with
          | Some err => ([ShutdownProvider], inl (#"metrics: listen on " ++ MetricsAddr cfg ++ #": " ++ err))
          | None => ([Listen; Serve], inr (meterProviderOptions (guardReservedKeys views) cfg, Some ShutdownServer))
          end in
        (CreateProvider :: calls, r)
      end
    end
  end.
Definition initOTLP (cfg : MeterConfig) (a : answers) (views : list View) : built_meter :=
  let opts := metric_options (MetricsOTLPEndpoint cfg) (OTLPHeaders cfg) in
  match a_otlp a opts with
  | Some err => ([], inl (#"metrics: create OTLP exporter: " ++ err))
  | None => let '(calls, r) := start_runtime cfg a ([], inr (meterProviderOptions views cfg, None)) in
            ([CreateExporter opts; CreateProvider] ++ calls, r)
  end.
(** [res] is the error of resolving the Resource. *)
Definition InitMeter (res : option bytes) (cfg : MeterConfig) (a : answers) : built_meter :=
  match res with
  | Some err => ([], inl err)
  | None =>
    let views := meter_views (views_config cfg) in
    let '(calls, r) := if negb (bool_decide (MetricsOTLPEndpoint cfg = [])) then initOTLP cfg a views else initPrometheus cfg a views in
    match r with
    | inl err => (calls, inl err)
    | inr (provider, closer) =>
      if ExportFailures cfg then
        match a_failures a with
        | Some err => (calls ++ [RegisterFailures] ++ option_list closer ++ [ShutdownProvider],
                       inl (#"metrics: register export failure counter: " ++ err))
        | None => (calls ++ [RegisterFailures], inr (provider, closer))
        end
      else (calls, inr (provider, closer))
    end
  end.

(** What is open after calls: the exporter, the provider, which owns the exporter its
    reader has, and the server, which owns its listener. *)
Inductive opened := OpenExporter | OpenProvider | OpenListener | OpenServer.
#[export] Instance opened_eq_dec : EqDecision opened.
Proof. solve_decision. Defined.
Definition shut (x : opened) (open : list opened) : list opened := filter (λ y, y ≠ x) open.
Definition after (open : list opened) (c : pcall) : list opened :=
  match c with
  | CreateExporter _ => OpenExporter :: open
  | CreateProvider => OpenProvider :: shut OpenExporter open
  | Listen => OpenListener :: open
  | Serve => OpenServer :: shut OpenListener open
  | ShutdownExporter => shut OpenExporter open
  | ShutdownProvider => shut OpenProvider open
  | CloseListener => shut OpenListener open
  | ShutdownServer => shut OpenServer open
  | StartRuntime | RegisterFailures => open
  end.
Definition left_open (calls : list pcall) : list opened := foldl after [] calls.

(** InitMeter leaks nothing. However its calls fail, an error leaves no exporter,
    provider, listener or server open, and says which step failed; on success one
    provider is left, with the views and the limit of the configuration, and on the pull
    path the scrape server, whose shutdown is the closer, the reserved keys being guarded
    on this path only; the push path has no closer. *)
Theorem meter_init_no_leak (res : option bytes) (cfg : MeterConfig) (a : answers) :
  let pull := bool_decide (MetricsOTLPEndpoint cfg = []) in
  match InitMeter res cfg a with
  | (calls, inl err) => left_open calls = [] ∧ (err ≠ [] ∨ res = Some err ∨ a_targetInfo a = Some err)
  | (calls, inr (provider, closer)) =>
    left_open calls = (if pull then [OpenServer; OpenProvider] else [OpenProvider])
    ∧ closer = (if pull then Some ShutdownServer else None)
    ∧ provider_views provider = (let views := meter_views (views_config cfg) in if pull then guardReservedKeys views else views)
    ∧ cardinality_limit provider = cardinalityLimitBudget (MaxUniqueRoutes (cap_config cfg)) (MaxUniqueCollections (cap_config cfg)) (CardinalityLimit (cap_config cfg))
    ∧ count_occ (λ x y : bool, decide (x = y)) ((λ c, match c with CreateProvider => true | _ => false end) <$> calls) true = 1
  end.
Proof.
  unfold InitMeter. destruct res as [err|]; [by split; [|right; left]|]. cbv zeta. destruct (bool_decide (MetricsOTLPEndpoint cfg = [])); cbn [negb].
  - unfold initPrometheus. destruct (a_prometheus a); [by split; [|left]|]. destruct (a_targetInfo a) eqn:Et; [by split; [|right; right]|].
    destruct (a_register a); [by split; [|left]|]. unfold start_runtime.
    destruct (RuntimeMetrics cfg), (a_runtime a), (a_listen a), (ExportFailures cfg), (a_failures a); by (split_and!; try done; left).
  - unfold initOTLP. destruct (a_otlp a _); [by split; [|left]|]. unfold start_runtime.
    destruct (RuntimeMetrics cfg), (a_runtime a), (ExportFailures cfg), (a_failures a); by (split_and!; try done; left).
Qed.
End meter.

(** * scrapelog.go *)
Definition scrapeErrorRepeatWindow : Z := 5 * 60 * 10 ^ 9.
Definition maxTrackedScrapeErrors : Z := 32.
Definition newScrapeErrorLogger : Suppressor := NewSuppressor scrapeErrorRepeatWindow maxTrackedScrapeErrors.
(** The attributes of the one record Println writes; [printed] is what fmt.Sprintln
    gives, with its newline. *)
Definition scrape_record (msg : bytes) : list (bytes * bytes) := [( #"error", msg); ( #"repeat_suppressed_for", #"5m0s")].
Definition Println (s : Suppressor) (printed : bytes) (now : Z) (visit : gmap bytes Z → list (bytes * Z)) : list (list (bytes * bytes)) * Suppressor :=
  let msg := take (length printed - 1) printed in
  let '(suppressed, s) := SuppressedAt s {| msg := msg; Repeat.now := now; visit := visit |} in
  (if suppressed : bool then [] else [scrape_record msg], s).
Fixpoint scrape_all (s : Suppressor) (calls : list call) : list (list (list (bytes * bytes))) :=
  match calls with
  | [] => []
  | c :: calls => let '(records, s) := Println s (msg c ++ [ascii_of_nat 10]) (now c) (visit c) in records :: scrape_all s calls
  end.
Lemma scrape_all_run s calls : scrape_all s calls = zip_with (λ (c : call) (suppressed : bool), if suppressed then [] else [scrape_record (msg c)]) calls (run s calls).1.
Proof.
  revert s. induction calls as [|c calls IH]; intros s; [done|]. cbn [scrape_all run]. unfold Println.
  assert (take (length (msg c ++ [ascii_of_nat 10]) - 1) (msg c ++ [ascii_of_nat 10]) = msg c) as ->.
  { rewrite length_app. cbn [length]. replace (length (msg c) + 1 - 1) with (length (msg c)) by lia. apply take_app_length. }
  destruct c as [m t v]. cbn [msg now visit]. destruct (SuppressedAt s _) as [b s1]. specialize (IH s1). rewrite IH. by destruct (run s1 calls).
Qed.

(** Errors of a scrape reach the log: of every error promhttp reports, its record is
    written, or one with the same text was less than five minutes ago. *)
Theorem scrape_errors_logged (calls : list call) (Hc : Forall call_ok calls) :
  ∀ i c, calls !! i = Some c →
    scrape_all newScrapeErrorLogger calls !! i = Some [scrape_record (msg c)]
    ∨ scrape_all newScrapeErrorLogger calls !! i = Some []
      ∧ ∃ j c', j < i ∧ calls !! j = Some c' ∧ msg c' = msg c ∧ (Sub (now c) (now c') < scrapeErrorRepeatWindow)%Z
          ∧ scrape_all newScrapeErrorLogger calls !! j = Some [scrape_record (msg c)].
Proof.
  intros i c Hi. pose proof (suppressor_sound scrapeErrorRepeatWindow maxTrackedScrapeErrors calls Hc) as H.
  assert (Hlen : length (run newScrapeErrorLogger calls).1 = length calls).
  { generalize newScrapeErrorLogger. clear. induction calls as [|c calls IH]; intros s; [done|]. cbn [run].
    destruct (SuppressedAt s c) as [b s1]. specialize (IH s1). destruct (run s1 calls). cbn in *. by rewrite IH. }
  rewrite scrape_all_run. fold newScrapeErrorLogger in H. destruct (run newScrapeErrorLogger calls) as [bs s]. cbn [fst] in *. destruct H as [_ H].
  assert (Hb : is_Some (bs !! i)) by (apply lookup_lt_is_Some; rewrite Hlen; by eapply lookup_lt_Some). destruct Hb as [b Hb].
  set (shown := λ (c : call) (suppressed : bool), if suppressed then ([] : list (list (bytes * bytes))) else [scrape_record (msg c)]).
  assert (Hat : ∀ j c' b', calls !! j = Some c' → bs !! j = Some b' → zip_with shown calls bs !! j = Some (shown c' b')).
  { intros j c' b' Hj Hb'. by rewrite lookup_zip_with, Hj, Hb'. }
  rewrite (Hat i c b Hi Hb). destruct b; [right|by left]. split; [done|].
  destruct (H i c Hi Hb) as (t & (j & c' & Hj & Hcj & Hbj & Hm & <-) & Hlt). exists j, c'. split_and!; [done|done|done|done|].
  rewrite (Hat j c' false Hcj Hbj). unfold shown. by rewrite Hm.
Qed.

(** * The Resource of a provider built on its own *)
Section standalone.
Context `{R : ResourceApi, P : GoPrint}.
Record ResourceConfig := { ServiceName : bytes; ServiceVersion : bytes; Environment : bytes; Namespace : bytes }.
Definition standalone_identity (cfg : ResourceConfig) : list resource_option :=
  [WithAttributes [( #"service.name", StringValue (ServiceName cfg)); ( #"service.namespace", StringValue (Namespace cfg))]]
  ++ (if bool_decide (ServiceVersion cfg = []) then [] else [WithAttributes [( #"service.version", StringValue (ServiceVersion cfg))]])
  ++ (if bool_decide (Environment cfg = []) then [] else [WithAttributes [( #"deployment.environment.name", StringValue (Environment cfg))]]).
(** [given] is Config.Resource; the Resource, or an error, with the warnings. *)
Definition resolveResource (given : option (list KeyValue)) (env : env_resource) (cfg : ResourceConfig) : (bytes + list KeyValue) * list bytes :=
  match given with
  | Some res => (inr res, [])
  | None =>
    if bool_decide (Namespace cfg = []) then (inl #"metrics: Namespace is required", [])
    else
      let '(envAttrs, _, envWarnings) := EnvResourceAttributes env [] in
      let opts := [WithAttributes envAttrs; WithTelemetrySDK; WithProcessPID; WithProcessExecutableName; WithProcessRuntimeName; WithProcessRuntimeVersion; WithHost]
        ++ standalone_identity cfg in
      match resource_New opts with
      | (_, NewFailed err) => (inl (#"metrics: create resource: " ++ err), envWarnings)
      | (res, _) => (inr res, envWarnings)
      end
  end.
Context (HR : ResourceLaws R).

(** A Resource built on its own has the service's identity as configured, whatever the
    environment and the detectors say: the name and the namespace, and the version and
    the environment that are set. *)
Theorem standalone_resource (env : env_resource) (cfg : ResourceConfig) (res : list KeyValue) (warnings : list bytes)
    (Hres : resolveResource None env cfg = (inr res, warnings)) :
  Namespace cfg ≠ [] ∧ NoDup res.*1
  ∧ ( #"service.name", StringValue (ServiceName cfg)) ∈ res ∧ ( #"service.namespace", StringValue (Namespace cfg)) ∈ res
  ∧ (ServiceVersion cfg ≠ [] → ( #"service.version", StringValue (ServiceVersion cfg)) ∈ res)
  ∧ (Environment cfg ≠ [] → ( #"deployment.environment.name", StringValue (Environment cfg)) ∈ res).
Proof.
  unfold resolveResource in Hres. case_bool_decide as Hn; [done|]. destruct (EnvResourceAttributes env []) as [[envAttrs dropped] envWarnings].
  set (opts := [WithAttributes envAttrs; WithTelemetrySDK; WithProcessPID; WithProcessExecutableName; WithProcessRuntimeName; WithProcessRuntimeVersion; WithHost]
    ++ standalone_identity cfg) in Hres.
  assert (Hnew : resource_New opts = (res, NewOk) ∨ resource_New opts = (res, NewPartial)).
  { destruct (resource_New opts) as [r [| |err]]; [left|right|done]; by injection Hres as -> _. }
  destruct (new_attributes opts res Hnew) as [Hd Hin]. assert (Hown : ∀ k v, k ≠ [] → (k, v) ∈ standalone_identity cfg ≫= contribution → (k, v) ∈ res).
  { intros k v Hk Hkv. apply Hin. split; [done|]. unfold opts. rewrite bind_app, last_value_app. rewrite (last_value_unique _ k v); [done| |done].
    unfold standalone_identity. destruct (bool_decide (ServiceVersion cfg = [])), (bool_decide (Environment cfg = []));
      apply (bool_decide_unpack (NoDup _)); vm_compute; reflexivity. }
  unfold standalone_identity in Hown. rewrite bind_app in Hown. split_and!; [done|done|..].
  - apply Hown; [done|]. by left.
  - apply Hown; [done|]. right; by left.
  - intros Hv. apply Hown; [done|]. rewrite (bool_decide_false _ Hv). right; right; by left.
  - intros Hv. apply Hown; [done|]. rewrite (bool_decide_false _ Hv), bind_app. apply elem_of_app. right. apply elem_of_app. right. by left.
Qed.
End standalone.
