(* ===== verification/Obsctx.v ===== *)
(** obsctx/obsctx.go: contexts for work that outlives its request, and the goroutine
    [Go] runs it on. Contexts are those of Go's package context: a tree of values, of
    cancellations and of deadlines. *)
From S2P Require Import Prelude.

(** * Contexts *)
Section contexts.
Context {V : Type}.
(** A request's context is a base with its values and, for a server, a cancellation of
    its own; what is derived from it is named by a number that is used once. *)
Inductive context :=
  | Base (id : N) (values : bytes → option V)
  | WithValue (parent : context) (key : bytes) (v : V)
  | WithCancel (parent : context) (id : N)
  | WithoutCancel (parent : context)
  | WithDeadline (parent : context) (id : N) (deadline : Z).
Inductive ctx_error := Canceled | DeadlineExceeded.

Fixpoint Value (c : context) (key : bytes) : option V :=
  match c with
  | Base _ values => values key
  | WithValue p k v => if bool_decide (k = key) then Some v else Value p key
  | WithCancel p _ | WithoutCancel p | WithDeadline p _ _ => Value p key
  end.
(** Err, when the cancellations in [gone] have been called and the time is [now]. *)
Fixpoint Err (gone : gset N) (now : Z) (c : context) : option ctx_error :=
  match c with
  | Base id _ => if decide (id ∈ gone) then Some Canceled else None
  | WithValue p _ _ => Err gone now p
  | WithCancel p id => if decide (id ∈ gone) then Some Canceled else Err gone now p
  | WithoutCancel _ => None
  | WithDeadline p id d =>
    if decide (id ∈ gone) then Some Canceled else if (d <=? now)%Z then Some DeadlineExceeded else Err gone now p
  end.
Fixpoint Deadline (c : context) : option Z :=
  match c with
  | Base _ _ | WithoutCancel _ => None
  | WithValue p _ _ | WithCancel p _ => Deadline p
  | WithDeadline p _ d => Some (match Deadline p with Some d' => Z.min d d' | None => d end)
  end.
(** context.WithTimeout at a time. *)
Definition WithTimeout (p : context) (id : N) (now timeout : Z) : context := WithDeadline p id (now + timeout).

(** * obsctx.go *)
Definition Detach (ctx : context) : context := WithoutCancel ctx.
Definition DetachWithTimeout (ctx : context) (id : N) (now timeout : Z) : context := WithTimeout (Detach ctx) id now timeout.

(** How fn ends, and the goroutine of Go: the deferred calls run last first, whether or
    not it panics, and a panic nothing recovers crashes the process. *)
Inductive ending := Returns | Panics (value : bytes).
Inductive gcall := RunFn (ctx : context) | LogPanic (ctx : context) (value : bytes) | Cancel (id : N) | Crash.
Inductive deferred := DeferCancel (id : N) | DeferRecover (ctx : context).
Fixpoint unwind (stack : list deferred) (e : ending) : list gcall :=
  match stack with
  | [] => match e with Panics _ => [Crash] | Returns => [] end
  | DeferCancel id :: stack => Cancel id :: unwind stack e
  | DeferRecover ctx :: stack => match e with Panics v => LogPanic ctx v :: unwind stack Returns | Returns => unwind stack Returns end
  end.
Definition go_body (ctx : context) (id : N) (e : ending) : list gcall :=
  RunFn ctx :: unwind (reverse [DeferCancel id; DeferRecover ctx]) e.
(** Go: what it starts. No goroutine is started without a function; [fn] is how it ends. *)
Definition Go (reqCtx : context) (id : N) (now timeout : Z) (fn : option ending) : list gcall :=
  match fn with
  | None => []
  | Some e => go_body (DetachWithTimeout reqCtx id now timeout) id e
  end.

(** * Properties *)
(** Work started by Go is not cut short by its request. Whatever is cancelled around
    it, and whatever the request's own deadline, its context has the request's values and
    ends at its own time: not before the timeout it was given has passed and the work is
    still running, and at the latest then. The work runs once, with that context; a panic
    of it is logged, before the context is cancelled, and does not crash the process; and
    the context is cancelled exactly once, last. *)
Theorem detached_work (reqCtx : context) (id : N) (start timeout : Z) (fn : option ending) :
  let ctx := DetachWithTimeout reqCtx id start timeout in
  (∀ key, Value ctx key = Value reqCtx key)
  ∧ Deadline ctx = Some (start + timeout)%Z
  ∧ (∀ gone now, id ∉ gone → Err gone now ctx = if (start + timeout <=? now)%Z then Some DeadlineExceeded else None)
  ∧ (∀ gone now, Err gone now (Detach reqCtx) = None)
  ∧ match fn with
    | None => Go reqCtx id start timeout fn = []
    | Some e => Go reqCtx id start timeout fn = [RunFn ctx] ++ match e with Panics v => [LogPanic ctx v] | Returns => [] end ++ [Cancel id]
    end
  ∧ Crash ∉ Go reqCtx id start timeout fn.
Proof.
  cbv zeta. split_and!; [done|done| |done| |].
  - intros gone now Hid. cbn. by rewrite decide_False.
  - by destruct fn as [[|v]|].
  - assert (Hgo : ∀ calls : list gcall, Forall (λ c, c ≠ Crash) calls → Crash ∉ calls).
    { intros calls H Hin. rewrite Forall_forall in H. by destruct (H _ Hin). }
    apply Hgo. destruct fn as [[|v]|]; vm_compute; repeat (apply Forall_cons; split; [done|]); apply Forall_nil_2.
Qed.
End contexts.
