(* ===== verification/HttpServer.v ===== *)
(** http/: the options of NewServerHandler and NewTransport, and the name of a server
    span. otelhttp applies its options in order, each to a configuration; the handler
    and the transport it builds are parameters. *)
From S2P Require Import Prelude GoStrings.

Section http.
Context {TP MP Prop_ Filter Formatter AttrsFn : Type}.
(** otelhttp's options, as the facade passes them on. *)
Inductive Option_ :=
  | WithTracerProvider (tp : TP) | WithMeterProvider (mp : MP) | WithPropagators (p : Prop_) | WithSpanNameFormatter (f : Formatter)
  | WithPublicEndpoint | WithFilter (f : Filter) | WithMetricAttributesFn (f : AttrsFn).
(** What a request says of itself: its method, and the pattern that matched it. *)
Record Request := { Method : bytes; Pattern : bytes }.
Definition defaultServerSpanName (r : Request) : bytes :=
  if bool_decide (Pattern r = []) then Method r
  else if Contains (Pattern r) #" " then Pattern r
  else Method r ++ #" " ++ Pattern r.

Definition defaultServerOperation : bytes := #"http.server".
(** [default_name] is defaultServerSpanName as a formatter; [NewHandler] and
    [otelhttp_NewTransport] are otelhttp's. *)
Context {H RT : Type} (default_name : Formatter) (NewHandler : H → bytes → list Option_ → H).
Definition server_options (tp : TP) (mp : MP) (prop : Prop_) (opts : list Option_) : list Option_ :=
  [WithTracerProvider tp; WithMeterProvider mp; WithPropagators prop; WithSpanNameFormatter default_name] ++ opts.
Definition NewServerHandler (next : H) (tp : TP) (mp : MP) (prop : Prop_) (opts : list Option_) : H :=
  NewHandler next defaultServerOperation (server_options tp mp prop opts).
Context (DefaultTransport : RT) (otelhttp_NewTransport : RT → list Option_ → RT).
Definition transport_options (tp : TP) (mp : MP) (prop : Prop_) (opts : list Option_) : list Option_ :=
  [WithTracerProvider tp; WithMeterProvider mp; WithPropagators prop] ++ opts.
Definition NewTransport (base : option RT) (tp : TP) (mp : MP) (prop : Prop_) (opts : list Option_) : RT :=
  otelhttp_NewTransport (default DefaultTransport base) (transport_options tp mp prop opts).

(** The configuration options leave: of a setting the last value, of the filters all. *)
Record applied := { c_tp : option TP; c_mp : option MP; c_prop : option Prop_; c_name : option Formatter; c_public : bool;
                    c_filters : list Filter; c_attrs : option AttrsFn }.
Definition nothing : applied := {| c_tp := None; c_mp := None; c_prop := None; c_name := None; c_public := false; c_filters := []; c_attrs := None |}.
Definition apply_option (c : applied) (o : Option_) : applied :=
  {| c_tp := match o with WithTracerProvider x => Some x | _ => c_tp c end; c_mp := match o with WithMeterProvider x => Some x | _ => c_mp c end;
     c_prop := match o with WithPropagators x => Some x | _ => c_prop c end; c_name := match o with WithSpanNameFormatter x => Some x | _ => c_name c end;
     c_public := match o with WithPublicEndpoint => true | _ => c_public c end;
     c_filters := match o with WithFilter f => c_filters c ++ [f] | _ => c_filters c end;
     c_attrs := match o with WithMetricAttributesFn f => Some f | _ => c_attrs c end |}.
Definition applied_options (opts : list Option_) : applied := foldl apply_option nothing opts.

(** The options the facade exports. *)
Definition exported (o : Option_) : bool :=
  match o with WithTracerProvider _ | WithMeterProvider _ | WithPropagators _ => false | _ => true end.
Lemma keeps_providers c opts : Forall (λ o, exported o = true) opts →
  let c' := foldl apply_option c opts in c_tp c' = c_tp c ∧ c_mp c' = c_mp c ∧ c_prop c' = c_prop c ∧ (is_Some (c_name c) → is_Some (c_name c')).
Proof.
  cbv zeta. revert c. induction opts as [|o opts IH]; intros c; [done|]. intros [Ho Hos]%Forall_cons. cbn [foldl].
  destruct (IH (apply_option c o) Hos) as (-> & -> & -> & Hn). split_and!; try (by destruct o). intros Hc. apply Hn. by destruct o; cbn.
Qed.

(** The facade never leaves otelhttp to the process's globals: whatever options of its own
    an application adds, the handler and the transport have the providers and the
    propagator they were made with, and the handler names its spans. A span's name is the
    method and the pattern that matched, never a path of the request. *)
Theorem http_instrumented (tp : TP) (mp : MP) (prop : Prop_) (opts : list Option_) (Ho : Forall (λ o, exported o = true) opts) :
  (let c := applied_options (server_options tp mp prop opts) in
   c_tp c = Some tp ∧ c_mp c = Some mp ∧ c_prop c = Some prop ∧ is_Some (c_name c)
   ∧ (opts = [] → c_name c = Some default_name))
  ∧ (let c := applied_options (transport_options tp mp prop opts) in c_tp c = Some tp ∧ c_mp c = Some mp ∧ c_prop c = Some prop)
  ∧ ∀ r, defaultServerSpanName r = Method r ∧ Pattern r = []
      ∨ defaultServerSpanName r = Pattern r ∧ Contains (Pattern r) #" " = true
      ∨ defaultServerSpanName r = Method r ++ #" " ++ Pattern r ∧ Contains (Pattern r) #" " = false ∧ Pattern r ≠ [].
Proof.
  cbv zeta. unfold applied_options, server_options, transport_options. rewrite !foldl_app.
  destruct (keeps_providers (foldl apply_option nothing [WithTracerProvider tp; WithMeterProvider mp; WithPropagators prop; WithSpanNameFormatter default_name]) opts Ho)
    as (-> & -> & -> & Hn).
  destruct (keeps_providers (foldl apply_option nothing [WithTracerProvider tp; WithMeterProvider mp; WithPropagators prop]) opts Ho) as (-> & -> & -> & _).
  split_and!; try done; [apply Hn; by eexists|by intros ->|].
  intros r. unfold defaultServerSpanName. case_bool_decide; [by left|]. destruct (Contains (Pattern r) _); [right; by left|by do 2 right].
Qed.
End http.
Lemma http_instrumented_witness :
  let opts := [WithPublicEndpoint; WithFilter 7%N; WithSpanNameFormatter 9%N] : list (@Option_ N N N N N N) in
  c_name (applied_options (server_options 8%N 1%N 2%N 3%N opts)) = Some 9%N ∧ c_tp (applied_options (server_options 8%N 1%N 2%N 3%N opts)) = Some 1%N.
Proof.
  split; [reflexivity|]. apply (http_instrumented 8%N 1%N 2%N 3%N). repeat constructor.
Defined.
