(* ===== verification/InitSdk.v ===== *)
(** o11y.go: Init as a whole. The configuration is checked, the Resource built, and the
    environment and the endpoints are checked, before any exporter exists; then the
    tracer, the meter and the logger are built, each where its pillar is on, the startup
    records are logged and the profiler is started; what was built is closed when a later
    step fails. The exporters, the SDK, the network and the profiler are parameters, as in
    [Providers]. *)
From S2P Require Import Prelude Utf8 GoStrings GoCodec GoNum Attribute RedactDecode RedactText RedactSecrets ResourceKeys Baggage.
From S2P Require Import MetricViews MetricRules Shutdown Options Resource InitConfig Endpoint EnvChecks Diagnostics Views Providers.
From S2P Require ProfilerSlot SampleLib.

Abbreviation Config := Options.Config.

(** * What Init does, and gives *)
Inductive pillar := Trace | Metrics | Log.
Definition same (p q : pillar) : bool := match p, q with Trace, Trace | Metrics, Metrics | Log, Log => true | _, _ => false end.
Inductive log_level := InfoLevel | WarnLevel.
(** The value of an attribute: a text, or a list of keys. *)
Inductive field := Text (s : bytes) | KeyList (ks : list bytes).
Record log_record := { level : log_level; message : bytes; fields : list (bytes * field) }.
(** The components Shutdown closes, and the calls in order: those of a pillar's
    provider, the records of the new logger, and the closing of components. *)
Inductive component := Profiler | Tracer | Logs | ScrapeServer | Meter.
#[export] Instance component_eq_dec : EqDecision component.
Proof. solve_decision. Defined.
Inductive icall := Provider (p : pillar) (c : pcall) | Logged (r : log_record) | Close (c : component).

Record FeatureToggles := { T_Trace : bool; T_Metrics : bool; T_Log : bool; T_Profiling : bool }.
Inductive public_tracer := NoopTracer | SdkTracer | PyroscopeTracer.
Inductive public_meter := NoopMeter | SdkMeter | ScopeGuardedMeter.
(** The logger: whether it writes to the collector besides stdout, and whether it adds the
    baggage; what its handlers do is in [LogHandlers]. *)
Record logger_kind := { to_collector : bool; adds_baggage : bool }.

Section init.
Context `{L : GoLib, Rs : ResourceApi, B : BaggageApi, Fs : GoFiles} {value kept : Type}.
Context `{Sdk : @MetricSdk float64 value kept} `{A : @ViewApi float64 value kept} (format_float : float64 → bytes).

(** What an SDK holds, besides its propagator, which is always the same, and the state
    Shutdown and ForceFlush share, which is in [Lifecycle]. *)
Record SDK := {
  Logger : logger_kind; Toggles : FeatureToggles;
  tracerProviderInternal : option (list (@tracer_option (list KeyValue) Sampler Whitelist)); tracerProviderPublic : public_tracer;
  meterProviderInternal : option (@meter_provider float64 value kept); meterProviderPublic : public_meter;
  shutdowns : list component; flushSignals : list component; flushMetrics : option component;
  errorHandler : otelErrorHandler; sdk_diagnosticEndpoints : list bytes; sdk_diagnosticSecrets : list bytes;
}.

(** ** Up to the first exporter *)
Definition Init_config (Getenv : bytes → bytes) (env : env_resource) (opts : list (option Option)) :
    bytes + (Config * list KeyValue * list KeyValue * Whitelist) :=
  match Init_checks format_float (configure Getenv opts) with
  | inl err => inl err
  | inr cfg =>
    match buildResource env cfg with
    | (_, inl err) => inl err
    | (cfg, inr (res, providerRes)) =>
      match configureBaggageWhitelist cfg res with
      | (_, inl err) => inl err
      | (cfg, inr whitelist) =>
        let cfg := appendBaggageWarnings cfg whitelist in
        match validateOTLPExporterEnv Getenv cfg with
        | Some err => inl err
        | None =>
          let cfg := resolveOTLPEndpoints Getenv cfg in
          match validateConfiguredEndpoints cfg with
          | Some err => inl err
          | None =>
            match validateConfiguredHeaders cfg with
            | Some err => inl err
            | None => inr (cfg, res, providerRes, whitelist)
            end
          end
        end
      end
    end
  end.

(** ** The providers *)
Record outside := { new_trace_exporter : list otlp_option → option bytes; new_log_exporter : list otlp_option → option bytes; meter_answers : answers;
                    ctx_error : option bytes; pyroscope_error : option bytes }.
Definition headers_of (cfg : Config) : list (bytes * bytes) := map_to_list (otlpHeaders cfg).
Definition materializes (w : Whitelist) : bool := 0 <? length (attributes w).
Definition init_tracer (cfg : Config) (providerRes : list KeyValue) (w : Whitelist) (o : outside) :=
  InitTracer (url (trace (resolvedOTLP cfg))) (headers_of cfg) providerRes (sampler cfg) true
    (if materializes w then [Some w] else []) (new_trace_exporter o).
Definition init_meter_config (cfg : Config) : @MeterConfig float64 value kept := {|
  views_config := init_config (disableDefaultViews cfg) (histogramBuckets cfg) (histogramBucketOverrides cfg) (extraHTTPServerAttrKeys cfg);
  cap_config := {| MaxUniqueRoutes := maxUniqueRoutes cfg; MaxUniqueCollections := maxUniqueCollections cfg; CardinalityLimit := cardinalityLimit cfg |};
  MetricsOTLPEndpoint := metricsOTLPEndpoint cfg; OTLPHeaders := headers_of cfg; MetricsAddr := metricsAddr cfg;
  RuntimeMetrics := runtimeMetrics cfg; ExportFailures := true; Exemplars := Options.exemplars cfg |}.
Definition init_meter (cfg : Config) (o : outside) := InitMeter None (init_meter_config cfg) (meter_answers o).
Definition init_logger (cfg : Config) (o : outside) := InitLogger (url (log (resolvedOTLP cfg))) (headers_of cfg) (new_log_exporter o).

(** ** The startup records *)
Definition warning (msg : bytes) (fs : list (bytes * field)) : log_record := {| level := WarnLevel; message := msg; fields := fs |}.
Definition toggle (name : bytes) : bytes * field := ( #"toggle", Text name).
Definition profiling_records (cfg : Config) : list log_record :=
  if negb (profilingEnabled cfg) && negb (bool_decide (profilingEndpoint cfg = [])) then
    [warning #"profiling pillar disabled; Pyroscope endpoint ignored"
       [toggle #"O11Y_PROFILING_ENABLED"; ( #"endpoint", Text (RedactURL (profilingEndpoint cfg)))]]
  else if profilingEnabled cfg && bool_decide (profilingEndpoint cfg = []) then
    [warning #"profiling pillar enabled but no Pyroscope endpoint set; profiler not started"
       [toggle #"O11Y_PROFILING_ENABLED"; ( #"option", Text #"WithProfilingEndpoint")]]
  else [].
Definition startup_records (cfg : Config) (w : Whitelist) : list log_record :=
  ((λ m, warning m []) <$> initWarnings cfg)
  ++ (if materializes w then [{| level := InfoLevel; message := #"baggage attribute materialization configured"; fields := [( #"keys", KeyList (Keys w))] |}] else [])
  ++ (if traceEnabled cfg then [] else [warning #"trace pillar disabled; using no-op TracerProvider" [toggle #"O11Y_TRACE_ENABLED"]])
  ++ (if metricsEnabled cfg then [] else [warning #"metrics pillar disabled; Prometheus server not started" [toggle #"O11Y_METRICS_ENABLED"]])
  ++ (if logEnabled cfg then [] else [warning #"log pillar disabled; OTLP log export skipped (stdout only)" [toggle #"O11Y_LOG_ENABLED"]])
  ++ profiling_records cfg.
Definition profilingStartFailureText (Getenv : bytes → bytes) (cfg : Config) (err : bytes) : bytes :=
  Secrets (InText err [profilingEndpoint cfg]) (diagnosticSecrets Getenv cfg).
Definition start_failure (Getenv : bytes → bytes) (cfg : Config) (err : bytes) : log_record :=
  warning #"profiling disabled after Pyroscope start failure"
    [( #"endpoint", Text (RedactURL (profilingEndpoint cfg))); ( #"error", Text (profilingStartFailureText Getenv cfg err))].
Definition ErrAlreadyStarted : bytes := #"profiling is already active in this process".

(** ** Init *)
Definition when (on_ : bool) (c : component) : option component := if on_ then Some c else None.
Definition closes (cs : list (option component)) : list icall := Close <$> closeAll cs.
Definition finished (Getenv : bytes → bytes) (cfg : Config) (w : Whitelist) (tracer : option (list tracer_option)) (meter : option (meter_provider * option pcall))
    (profiling : bool) : SDK :=
  let tp := when (traceEnabled cfg) Tracer in
  let mp := when (metricsEnabled cfg) Meter in
  let lp := when (logEnabled cfg) Logs in
  let server := when (bool_decide (is_Some (meter ≫= snd))) ScrapeServer in
  let push := negb (bool_decide (metricsOTLPEndpoint cfg = [])) in {|
    Logger := {| to_collector := logEnabled cfg; adds_baggage := materializes w |};
    Toggles := {| T_Trace := traceEnabled cfg; T_Metrics := metricsEnabled cfg; T_Log := logEnabled cfg; T_Profiling := profiling |};
    tracerProviderInternal := tracer;
    tracerProviderPublic := match tracer with None => NoopTracer | Some _ => if profiling then PyroscopeTracer else SdkTracer end;
    meterProviderInternal := fst <$> meter;
    meterProviderPublic := match meter with None => NoopMeter | Some _ => if push then SdkMeter else ScopeGuardedMeter end;
    shutdowns := shutdownSequence (when profiling Profiler) tp lp server mp;
    flushSignals := nonNil [tp; lp];
    flushMetrics := if bool_decide (is_Some meter) && push then Some Meter else None;
    errorHandler := init_handler Getenv cfg; sdk_diagnosticEndpoints := diagnosticEndpoints cfg; sdk_diagnosticSecrets := diagnosticSecrets Getenv cfg |}.

(** The profiler, last: an error when another one runs in the process, a warning when it
    does not start. *)
Definition start_profiler (Getenv : bytes → bytes) (cfg : Config) (o : outside) (slot : ProfilerSlot.state (E := bytes)) :
    list icall * (bytes + bool) * ProfilerSlot.state (E := bytes) :=
  if profilingEnabled cfg && negb (bool_decide (profilingEndpoint cfg = [])) then
    match ProfilerSlot.Start (ctx_error o) (pyroscope_error o) slot with
    | (slot, ProfilerSlot.ErrAlreadyStarted) => ([], inl ErrAlreadyStarted, slot)
    | (slot, ProfilerSlot.StartErr err) => ([Logged (start_failure Getenv cfg err)], inr false, slot)
    | (slot, ProfilerSlot.Started) => ([], inr true, slot)
    end
  else ([], inr false, slot).
Definition Init (Getenv : bytes → bytes) (env : env_resource) (opts : list (option Option)) (o : outside) (slot : ProfilerSlot.state (E := bytes)) :
    list icall * (bytes + SDK) * ProfilerSlot.state (E := bytes) :=
  match Init_config Getenv env opts with
  | inl err => ([], inl err, slot)
  | inr (cfg, res, providerRes, w) =>
    let '(c1, tracer) := if traceEnabled cfg then init_tracer cfg providerRes w o else ([], inr []) in
    let c1 := Provider Trace <$> c1 in
    let tp := when (traceEnabled cfg) Tracer in
    match tracer with
    | inl err => (c1, inl err, slot)
    | inr tracer_opts =>
      let '(c2, meter) :=
        if metricsEnabled cfg then let '(c2, r) := init_meter cfg o in (c2, match r with inl err => inl err | inr m => inr (Some m) end) else ([], inr None) in
      let c12 := c1 ++ (Provider Metrics <$> c2) in
      match meter with
      | inl err => (c12 ++ closes [tp], inl err, slot)
      | inr meter =>
        let server := when (bool_decide (is_Some (meter ≫= snd))) ScrapeServer in
        let mp := when (metricsEnabled cfg) Meter in
        let '(c3, logger) := if logEnabled cfg then init_logger cfg o else ([], None) in
        let c123 := c12 ++ (Provider Log <$> c3) in
        match logger with
        | Some err => (c123 ++ closes [server; mp; tp], inl err, slot)
        | None =>
          let lp := when (logEnabled cfg) Logs in
          let c4 := c123 ++ (Logged <$> startup_records cfg w) in
          match start_profiler Getenv cfg o slot with
          | (c5, inl err, slot) => (c4 ++ c5 ++ closes [server; mp; lp; tp], inl err, slot)
          | (c5, inr profiling, slot) =>
            (c4 ++ c5, inr (finished Getenv cfg w (if traceEnabled cfg then Some tracer_opts else None) meter profiling), slot)
          end
        end
      end
    end
  end.

(** * What is open, by pillar *)
Definition pillar_of (c : component) : option (pillar * pcall) :=
  match c with
  | Profiler => None
  | Tracer => Some (Trace, ShutdownProvider) | Logs => Some (Log, ShutdownProvider)
  | ScrapeServer => Some (Metrics, ShutdownServer) | Meter => Some (Metrics, ShutdownProvider)
  end.
Definition touches (c : icall) : option (pillar * pcall) :=
  match c with Provider p k => Some (p, k) | Close c => pillar_of c | Logged _ => None end.
Definition pillar_calls (p : pillar) (calls : list icall) : list pcall :=
  omap (λ c, t ← touches c; if same t.1 p then Some t.2 else None) calls.
(** What is open of a pillar's after calls. *)
Definition still_open (calls : list icall) (p : pillar) : list opened := left_open (pillar_calls p calls).
Definition pillar_on (cfg : Config) (p : pillar) : bool :=
  match p with Trace => traceEnabled cfg | Metrics => metricsEnabled cfg | Log => logEnabled cfg end.
Definition in_use (cfg : Config) (p : pillar) : list opened :=
  if pillar_on cfg p then
    match p with Metrics => if bool_decide (metricsOTLPEndpoint cfg = []) then [OpenServer; OpenProvider] else [OpenProvider] | _ => [OpenProvider] end
  else [].

Lemma pillar_calls_app p c1 c2 : pillar_calls p (c1 ++ c2) = pillar_calls p c1 ++ pillar_calls p c2.
Proof. apply omap_app. Qed.
Lemma pillar_calls_own p q cs : pillar_calls p (Provider q <$> cs) = if same q p then cs else [].
Proof.
  induction cs as [|c cs IH]; [by destruct (same q p)|]. unfold pillar_calls in *. cbn [fmap list_fmap omap list_omap touches]. cbn [mbind option_bind fst snd].
  rewrite IH. by destruct (same q p).
Qed.
Lemma pillar_calls_logged p rs : pillar_calls p (Logged <$> rs) = [].
Proof. by induction rs. Qed.
Lemma left_open_app c1 c2 : left_open (c1 ++ c2) = foldl after (left_open c1) c2.
Proof. apply foldl_app. Qed.

(** What the three providers leave open. *)
Lemma init_tracer_open cfg pr w o c r : init_tracer cfg pr w o = (c, r) → left_open c = match r with inl _ => [] | inr _ => [OpenProvider] end.
Proof. unfold init_tracer, InitTracer. cbv zeta. destruct (new_trace_exporter o _); by intros [= <- <-]. Qed.
Lemma init_logger_open cfg o c r : init_logger cfg o = (c, r) → left_open c = match r with Some _ => [] | None => [OpenProvider] end.
Proof.
  unfold init_logger, InitLogger. destruct (logEndpointURL _); [|by intros [= <- <-]]. cbv zeta.
  destruct (new_log_exporter o _); by intros [= <- <-].
Qed.
Definition pull (cfg : Config) : bool := bool_decide (metricsOTLPEndpoint cfg = []).
(** The views and the limit of the meter provider. *)
Definition configured_meter (cfg : Config) (m : @meter_provider float64 value kept) : Prop :=
  (let views := meter_views (views_config (init_meter_config cfg)) in provider_views m = if pull cfg then guardReservedKeys views else views)
  ∧ cardinality_limit m = cardinalityLimitBudget (maxUniqueRoutes cfg) (maxUniqueCollections cfg) (cardinalityLimit cfg).
Lemma init_meter_open cfg o c r : init_meter cfg o = (c, r) →
  match r with
  | inl _ => left_open c = []
  | inr (m, closer) => left_open c = (if pull cfg then [OpenServer; OpenProvider] else [OpenProvider])
      ∧ closer = (if pull cfg then Some ShutdownServer else None) ∧ configured_meter cfg m
  end.
Proof.
  intros E. pose proof (meter_init_no_leak None (init_meter_config cfg) (meter_answers o)) as H. unfold init_meter in E. rewrite E in H. clear E.
  destruct r as [err|[m closer]]; [apply H|]. cbv zeta in H. unfold configured_meter. destruct H as (? & ? & ? & ? & _). by split_and!.
Qed.
Lemma start_profiler_spec Getenv cfg o slot :
  let '(calls, r, slot') := start_profiler Getenv cfg o slot in
  (match r with
   | inr true => slot' ≠ slot ∧ calls = [] ∧ profilingEnabled cfg = true
   | inr false => slot' = slot ∧ (calls = [] ∨ ∃ err, calls = [Logged (start_failure Getenv cfg err)])
   | inl _ => slot' = slot ∧ calls = [] ∧ ProfilerSlot.profilerStarted slot = true
   end).
Proof.
  unfold start_profiler, ProfilerSlot.Start. destruct (profilingEnabled cfg) eqn:E; cbn [andb]; [|by split; [|left]].
  destruct (negb _); [|by split; [|left]]. destruct (ctx_error o) as [e|]; [split; [done|right; by exists e]|].
  destruct (ProfilerSlot.profilerStarted slot) eqn:E1; [done|].
  destruct (pyroscope_error o) as [e|]; [split; [done|right; by exists e]|]. split; [|done].
  intros Heq. rewrite <- Heq in E1. done.
Qed.

(** A pillar that is off has no calls. *)
Ltac pillars_off := repeat match goal with O : false = false → _ = [] |- _ => specialize (O eq_refl); rewrite ?O in * end; try done.

(** What is open after the calls of the three providers and what follows. *)
Ltac open_by_pillar p :=
  unfold still_open; rewrite ?pillar_calls_app, ?pillar_calls_own, ?pillar_calls_logged;
  destruct p; cbn [same app];
  rewrite ?app_nil_r, ?app_nil_l, ?left_open_app.

(** The meter that was built: what it left open, its closer and its provider. *)
Definition meter_ok (cfg : Config) (c : list pcall) (meter : option (@meter_provider float64 value kept * option pcall)) : Prop :=
  match meter with
  | None => metricsEnabled cfg = false ∧ left_open c = []
  | Some (m, closer) => metricsEnabled cfg = true ∧ left_open c = (if pull cfg then [OpenServer; OpenProvider] else [OpenProvider])
      ∧ closer = (if pull cfg then Some ShutdownServer else None) ∧ configured_meter cfg m
  end.
Lemma meter_ok_server cfg c meter : meter_ok cfg c meter → bool_decide (is_Some (meter ≫= snd)) = metricsEnabled cfg && pull cfg.
Proof.
  destruct meter as [[m closer]|]; [|by intros [-> _]]. intros (-> & _ & -> & _). cbn. by destruct (pull cfg).
Qed.
Lemma meter_ok_open cfg c meter : meter_ok cfg c meter → left_open c = in_use cfg Metrics.
Proof.
  unfold in_use. cbn [pillar_on]. destruct meter as [[m closer]|]; [by intros (-> & -> & _)|by intros [-> ->]].
Qed.
(** Shutdown's components. *)
Lemma shutdowns_spec (profiling tr lg server me : bool) :
  let l := nonNil [when profiling Profiler; when tr Tracer; when lg Logs; when server ScrapeServer; when me Meter] in
  NoDup l ∧ (Profiler ∈ l ↔ profiling = true)
  ∧ ∀ p, pillar_calls p (Close <$> l)
         = match p with
           | Trace => if tr then [ShutdownProvider] else []
           | Metrics => (if server then [ShutdownServer] else []) ++ if me then [ShutdownProvider] else []
           | Log => if lg then [ShutdownProvider] else []
           end.
Proof.
  cbv zeta. split_and!.
  - destruct profiling, tr, lg, server, me; by apply (bool_decide_unpack (NoDup _)).
  - rewrite <- (bool_decide_eq_true (Profiler ∈ _)). by destruct profiling, tr, lg, server, me.
  - intros []; by destruct profiling, tr, lg, server, me.
Qed.
(** The SDK that is given out. *)
Lemma finished_spec Getenv cfg w c tracer_opts meter profiling : meter_ok cfg c meter →
  let sdk := finished Getenv cfg w (if traceEnabled cfg then Some tracer_opts else None) meter profiling in
  shutdowns sdk = nonNil [when profiling Profiler; when (traceEnabled cfg) Tracer; when (logEnabled cfg) Logs;
                          when (metricsEnabled cfg && pull cfg) ScrapeServer; when (metricsEnabled cfg) Meter]
  ∧ T_Profiling (Toggles sdk) = profiling
  ∧ (tracerProviderPublic sdk = NoopTracer ↔ traceEnabled cfg = false)
  ∧ (tracerProviderPublic sdk = PyroscopeTracer ↔ traceEnabled cfg = true ∧ profiling = true)
  ∧ match meterProviderInternal sdk with Some m => metricsEnabled cfg = true ∧ configured_meter cfg m | None => metricsEnabled cfg = false end
  ∧ meterProviderPublic sdk = (if metricsEnabled cfg then if pull cfg then ScopeGuardedMeter else SdkMeter else NoopMeter)
  ∧ flushSignals sdk = (if traceEnabled cfg then [Tracer] else []) ++ (if logEnabled cfg then [Logs] else [])
  ∧ flushMetrics sdk = (if metricsEnabled cfg && negb (pull cfg) then Some Meter else None).
Proof.
  intros Hm. cbv zeta. unfold finished. cbn [shutdowns Toggles T_Profiling tracerProviderPublic meterProviderInternal meterProviderPublic flushSignals flushMetrics].
  rewrite (meter_ok_server _ _ _ Hm). fold (pull cfg). split_and!; [done|done| | | | |by destruct (traceEnabled cfg), (logEnabled cfg)|].
  - destruct (traceEnabled cfg), profiling; naive_solver.
  - destruct (traceEnabled cfg), profiling; naive_solver.
  - destruct meter as [[m closer]|]; [by destruct Hm as (-> & _ & _ & ?)|by destruct Hm].
  - destruct meter as [[m closer]|]; destruct Hm as [-> _]; [|done]. by destruct (pull cfg).
  - destruct meter as [[m closer]|]; destruct Hm as [-> _]; [|done]. by destruct (pull cfg).
Qed.

(** The three providers in turn: what each left open, and that a pillar that is off did nothing. *)
Lemma trace_part cfg pr w o c r :
  (if traceEnabled cfg then init_tracer cfg pr w o else ([], inr [])) = (c, r) →
  left_open c = match r with inl _ => [] | inr _ => if traceEnabled cfg then [OpenProvider] else [] end ∧ (traceEnabled cfg = false → c = []).
Proof. destruct (traceEnabled cfg); [intros E; split; [by apply init_tracer_open in E|done]|by intros [= <- <-]]. Qed.
Lemma meter_part cfg o c r :
  (if metricsEnabled cfg then let '(c2, r) := init_meter cfg o in (c2, match r with inl err => inl err | inr m => inr (Some m) end) else ([], inr None)) = (c, r) →
  match r with inl _ => left_open c = [] | inr meter => meter_ok cfg c meter end ∧ (metricsEnabled cfg = false → c = []).
Proof.
  unfold meter_ok. destruct (metricsEnabled cfg); [|by intros [= <- <-]]. destruct (init_meter cfg o) as [c0 r0] eqn:E. apply init_meter_open in E.
  destruct r0 as [err|[m closer]]; intros [= <- <-]; (split; [|done]); [done|]. split; [done|apply E].
Qed.
Lemma log_part cfg o c r :
  (if logEnabled cfg then init_logger cfg o else ([], None)) = (c, r) →
  left_open c = match r with Some _ => [] | None => if logEnabled cfg then [OpenProvider] else [] end ∧ (logEnabled cfg = false → c = []).
Proof. destruct (logEnabled cfg); [intros E; split; [by apply init_logger_open in E|done]|by intros [= <- <-]]. Qed.

(** C7: Init as a whole. With an error nothing is open, of any pillar, and the process's
    profiler is as it was. With none, the configuration was checked; every pillar that is on
    has its provider, on the pull path with the scrape server, and no other has anything;
    Shutdown's components are distinct and close all of it, the profiler among them exactly
    when this call took it; the tracer and the meter given out are no-ops exactly where the
    pillar is off, with the profiler's wrapper and the guard of scope attributes where they
    belong; and traces and logs are flushed, metrics on the push path only. No exporter is
    made, nor anything else of a pillar done, before the configuration is checked, or for a
    pillar that is off. *)
Theorem init_composed (Getenv : bytes → bytes) (env : env_resource) (opts : list (option Option)) (o : outside) (slot : ProfilerSlot.state (E := bytes)) :
  let '(calls, r, slot') := Init Getenv env opts o slot in
  match r with
  | inl err => (∀ p, still_open calls p = []) ∧ slot' = slot
  | inr sdk => ∃ cfg res providerRes w, Init_config Getenv env opts = inr (cfg, res, providerRes, w)
    ∧ (∀ p, still_open calls p = in_use cfg p)
    ∧ NoDup (shutdowns sdk) ∧ (∀ p, still_open (calls ++ (Close <$> shutdowns sdk)) p = [])
    ∧ (Profiler ∈ shutdowns sdk ↔ slot' ≠ slot) ∧ (T_Profiling (Toggles sdk) = true ↔ slot' ≠ slot)
    ∧ (tracerProviderPublic sdk = NoopTracer ↔ traceEnabled cfg = false)
    ∧ (tracerProviderPublic sdk = PyroscopeTracer ↔ traceEnabled cfg = true ∧ slot' ≠ slot)
    ∧ match meterProviderInternal sdk with Some m => metricsEnabled cfg = true ∧ configured_meter cfg m | None => metricsEnabled cfg = false end
    ∧ meterProviderPublic sdk = (if metricsEnabled cfg then if pull cfg then ScopeGuardedMeter else SdkMeter else NoopMeter)
    ∧ flushSignals sdk = (if traceEnabled cfg then [Tracer] else []) ++ (if logEnabled cfg then [Logs] else [])
    ∧ flushMetrics sdk = (if metricsEnabled cfg && negb (pull cfg) then Some Meter else None)
    ∧ errorHandler sdk = init_handler Getenv cfg ∧ sdk_diagnosticSecrets sdk = diagnosticSecrets Getenv cfg
    ∧ Logger sdk = {| to_collector := logEnabled cfg; adds_baggage := bool_decide (Keys w ≠ []) |}
  end
  ∧ ∀ p, pillar_calls p calls ≠ [] → ∃ cfg res providerRes w, Init_config Getenv env opts = inr (cfg, res, providerRes, w) ∧ pillar_on cfg p = true.
Proof.
  unfold Init. destruct (Init_config Getenv env opts) as [err|[[[cfg res] pr] w]]; [by split|].
  destruct (if traceEnabled cfg then _ else _) as [c1 tracer] eqn:E1. cbv zeta. apply trace_part in E1 as [H1 O1].
  destruct tracer as [err|tracer_opts].
  { split; [split; [|done]; intros p; open_by_pillar p; done|].
    intros p Hp. exists cfg, res, pr, w. split; [done|]. rewrite pillar_calls_own in Hp. destruct p; cbn [same] in Hp; [|done|done]. cbn [pillar_on].
    by destruct (traceEnabled cfg); [|rewrite O1 in Hp]. }
  destruct (if metricsEnabled cfg then _ else _) as [c2 meter] eqn:E2. apply meter_part in E2 as [H2 O2].
  destruct meter as [err|meter].
  { split; [split; [|done]; intros p; open_by_pillar p; rewrite ?H1, ?H2; by destruct (traceEnabled cfg)|].
    intros p. rewrite !pillar_calls_app, !pillar_calls_own. intros Hp. exists cfg, res, pr, w. split; [done|].
    destruct p; cbn [same pillar_on] in *; destruct (traceEnabled cfg), (metricsEnabled cfg); pillars_off. }
  pose proof (meter_ok_server _ _ _ H2) as Hs. pose proof (meter_ok_open _ _ _ H2) as H2'.
  destruct (if logEnabled cfg then _ else _) as [c3 logger] eqn:E3. apply log_part in E3 as [H3 O3].
  rewrite Hs. destruct logger as [err|].
  { split; [split; [|done]; intros p; open_by_pillar p; rewrite ?H1, ?H2', ?H3; unfold in_use; cbn [pillar_on]; fold (pull cfg);
      by destruct (traceEnabled cfg), (metricsEnabled cfg), (pull cfg)|].
    intros p. rewrite !pillar_calls_app, !pillar_calls_own. intros Hp. exists cfg, res, pr, w. split; [done|].
    destruct p; cbn [same pillar_on] in *; destruct (traceEnabled cfg), (metricsEnabled cfg), (logEnabled cfg), (pull cfg); pillars_off. }
  pose proof (start_profiler_spec Getenv cfg o slot) as H4. destruct (start_profiler Getenv cfg o slot) as [[c5 profiling] slot'].
  destruct profiling as [err|profiling].
  { destruct H4 as (-> & -> & _).
    split; [split; [|done]; intros p; open_by_pillar p; rewrite ?H1, ?H2', ?H3; unfold in_use; cbn [pillar_on]; fold (pull cfg);
      by destruct (traceEnabled cfg), (metricsEnabled cfg), (logEnabled cfg), (pull cfg)|].
    intros p. rewrite !pillar_calls_app, !pillar_calls_own, pillar_calls_logged. intros Hp. exists cfg, res, pr, w. split; [done|].
    destruct p; cbn [same pillar_on] in *; destruct (traceEnabled cfg), (metricsEnabled cfg), (logEnabled cfg), (pull cfg); pillars_off. }
  assert (Hslot : profiling = true ↔ slot' ≠ slot) by (destruct profiling; naive_solver).
  assert (H5 : ∀ p, pillar_calls p c5 = []) by (intros p; destruct profiling; [by destruct H4 as (_ & -> & _)|by destruct H4 as (_ & [->|[? ->]])]).
  destruct (finished_spec Getenv cfg w c2 tracer_opts meter profiling H2) as (Fshut & Ft & F).
  destruct (shutdowns_spec profiling (traceEnabled cfg) (logEnabled cfg) (metricsEnabled cfg && pull cfg) (metricsEnabled cfg)) as (Hnd & Hprof & Hclose).
  split.
  - exists cfg, res, pr, w. split; [done|]. rewrite Fshut, Ft, <- !Hslot. split_and!; try apply F; try done.
    + intros p. open_by_pillar p; rewrite ?H5, ?H1, ?H2', ?H3; done.
    + intros p. open_by_pillar p; rewrite ?Hclose, ?H5, ?H1, ?H2', ?H3; unfold in_use; cbn [pillar_on]; fold (pull cfg);
        by destruct (traceEnabled cfg), (metricsEnabled cfg), (logEnabled cfg), (pull cfg).
    + cbn [Logger finished]. f_equal. unfold materializes, Keys. by destruct (attributes w).
  - intros p. rewrite !pillar_calls_app, !pillar_calls_own, pillar_calls_logged, H5. intros Hp. exists cfg, res, pr, w. split; [done|].
    destruct p; cbn [same pillar_on] in *; destruct (traceEnabled cfg), (metricsEnabled cfg), (logEnabled cfg), (pull cfg); pillars_off.
Qed.

(** ** The records of Init *)
Lemma not_provider p (cs : list pcall) rec : Logged rec ∉ Provider p <$> cs.
Proof. rewrite list_elem_of_fmap. by intros (? & ? & _). Qed.
Lemma not_closes cs rec : Logged rec ∉ closes cs.
Proof. unfold closes. rewrite list_elem_of_fmap. by intros (? & ? & _). Qed.
Lemma logged_in (rs : list log_record) rec : Logged rec ∈ Logged <$> rs → rec ∈ rs.
Proof. rewrite list_elem_of_fmap. by intros (? & [= ->] & ?). Qed.
Lemma init_logged Getenv env opts o slot :
  let '(calls, _, _) := Init Getenv env opts o slot in
  ∀ rec, Logged rec ∈ calls → ∃ cfg res providerRes w, Init_config Getenv env opts = inr (cfg, res, providerRes, w)
    ∧ (rec ∈ startup_records cfg w ∨ ∃ err, rec = start_failure Getenv cfg err).
Proof.
  unfold Init. destruct (Init_config Getenv env opts) as [err|[[[cfg res] pr] w]]; [by intros rec ?%elem_of_nil|].
  destruct (if traceEnabled cfg then _ else _) as [c1 [err|tracer]]; [by intros rec ?%not_provider|]. cbv zeta.
  destruct (if metricsEnabled cfg then _ else _) as [c2 [err|meter]].
  { intros rec. rewrite !elem_of_app. intros [[[]%not_provider|[]%not_provider]|[]%not_closes]. }
  destruct (if logEnabled cfg then _ else _) as [c3 [err|]].
  { intros rec. rewrite !elem_of_app. intros [[[[]%not_provider|[]%not_provider]|[]%not_provider]|[]%not_closes]. }
  pose proof (start_profiler_spec Getenv cfg o slot) as H. destruct (start_profiler Getenv cfg o slot) as [[c5 [err|b]] slot'].
  - destruct H as (_ & -> & _). intros rec. rewrite !elem_of_app.
    intros [[[[[]%not_provider|[]%not_provider]|[]%not_provider]|Hin%logged_in]|[[]%elem_of_nil|[]%not_closes]]. eauto 10.
  - intros rec. rewrite !elem_of_app.
    intros [[[[[]%not_provider|[]%not_provider]|[]%not_provider]|Hin%logged_in]|Hin]; [eauto 10|]. exists cfg, res, pr, w. split; [done|right].
    destruct b; [by destruct H as (_ & -> & _); apply elem_of_nil in Hin|]. destruct H as (_ & [->|[err ->]]); [by apply elem_of_nil in Hin|].
    apply list_elem_of_singleton in Hin as [= ->]. by exists err.
Qed.
Definition toggles_named : list bytes :=
  [ #"O11Y_TRACE_ENABLED"; #"O11Y_METRICS_ENABLED"; #"O11Y_LOG_ENABLED"; #"O11Y_PROFILING_ENABLED"; #"WithProfilingEndpoint"].
Lemma toggle_field name toggle_name t : (name, Text t) = toggle toggle_name → toggle_name ∈ toggles_named → name ∈ [ #"toggle"; #"option"] ∧ t ∈ toggles_named.
Proof. intros [= -> ->] Hin. split; [left|done]. Qed.
Lemma startup_record_field cfg w rec name t : rec ∈ startup_records cfg w → (name, Text t) ∈ fields rec →
  (name ∈ [ #"toggle"; #"option"] ∧ t ∈ toggles_named) ∨ name = #"endpoint" ∧ t = RedactURL (profilingEndpoint cfg).
Proof.
  assert (Ht : ∀ off msg n, rec ∈ (if off : bool then [] else [warning msg [toggle n]]) → (name, Text t) ∈ fields rec → n ∈ toggles_named →
    (name ∈ [ #"toggle"; #"option"] ∧ t ∈ toggles_named)).
  { intros [] msg n; [by intros ?%elem_of_nil|]. intros ->%list_elem_of_singleton Hf%list_elem_of_singleton Hn. by eapply toggle_field. }
  assert (Hn : ∀ n, bool_decide (n ∈ toggles_named) = true → n ∈ toggles_named) by (intros n; by rewrite bool_decide_eq_true).
  unfold startup_records. rewrite !elem_of_app, list_elem_of_fmap.
  intros [(m & -> & _)|[Hin|[Hin|[Hin|[Hin|Hin]]]]] Hf; [by apply elem_of_nil in Hf| | | | |].
  - destruct (materializes w); [|by apply elem_of_nil in Hin]. apply list_elem_of_singleton in Hin as ->. by apply list_elem_of_singleton in Hf as [=].
  - left. eapply Ht; [exact Hin|done|by apply Hn].
  - left. eapply Ht; [exact Hin|done|by apply Hn].
  - left. eapply Ht; [exact Hin|done|by apply Hn].
  - unfold profiling_records in Hin. destruct (negb (profilingEnabled cfg) && _).
    + apply list_elem_of_singleton in Hin as ->. apply elem_of_cons in Hf as [Hf|[= -> ->]%list_elem_of_singleton]; [left|by right].
      eapply toggle_field; [done|by apply Hn].
    + destruct (profilingEnabled cfg && _); [|by apply elem_of_nil in Hin]. apply list_elem_of_singleton in Hin as ->. left.
      apply elem_of_cons in Hf as [Hf|[= -> ->]%list_elem_of_singleton]; [eapply toggle_field; [done|by apply Hn]|].
      split; [right; left|by apply Hn].
Qed.

(** The texts the startup records carry besides their messages: the names of toggles and
    options, the redacted profiling endpoint, and the text of a failure to start the
    profiler, in which no secret of the configuration can be read. *)
Theorem startup_fields (Hlaws : GoLibLaws L) (Getenv : bytes → bytes) (env : env_resource) (opts : list (option Option)) (o : outside) (slot : ProfilerSlot.state (E := bytes)) :
  let '(calls, _, _) := Init Getenv env opts o slot in
  ∀ rec name t, Logged rec ∈ calls → (name, Text t) ∈ fields rec →
  ∃ cfg res providerRes w, Init_config Getenv env opts = inr (cfg, res, providerRes, w)
  ∧ ((name ∈ [ #"toggle"; #"option"] ∧ t ∈ toggles_named)
     ∨ name = #"endpoint" ∧ t = RedactURL (profilingEndpoint cfg)
     ∨ name = #"error" ∧ ∀ s k, secret_source Getenv cfg s → shortSecretLen ≤ length s → unlike_placeholder s →
         t = redactedMessage ∨ ¬ infix s (Nat.iter k decodeOnce t)).
Proof.
  pose proof (init_logged Getenv env opts o slot) as H. destruct (Init Getenv env opts o slot) as [[calls r] slot'].
  intros rec name t (cfg & res & pr & w & Hc & Hrec)%H Hf. exists cfg, res, pr, w. split; [done|].
  destruct Hrec as [Hrec|[err ->]]; [destruct (startup_record_field _ _ _ _ _ Hrec Hf); tauto|]. right.
  apply elem_of_cons in Hf as [[= -> ->]|Hf%list_elem_of_singleton]; [by left|]. injection Hf as -> ->. right. split; [done|].
  intros s k Hs Hlen Hun. apply (redaction_removes Hlaws [profilingEndpoint cfg]); [|done|done]. apply diagnosticSecrets_spec.
  split; [intros ->; unfold shortSecretLen in Hlen; cbn in Hlen; lia|done].
Qed.
End init.

(** * A service that starts *)
#[local] Existing Instance SampleLib.sample_lib.
#[local] Existing Instance sample_resource_api.
#[local] Existing Instance sample_baggage.
#[local] Existing Instance sample_files.
#[local] Instance float_sdk : @MetricSdk float64 Z unit := {|
  sdk_streams views inst := match omap (λ v : View, v inst) views with [] => [default_stream inst] | streams => streams end;
  DefaultExemplarReservoirProviderSelector _ _ := {| Offer _ _ := tt |};
|}.
#[local] Instance float_views : @ViewApi float64 Z unit := {|
  NewView c mask inst := if Views.matches c inst then Some (masked mask inst) else None;
  NewAllowKeysFilter keys kv := bool_decide (kv.1 ∈ keys);
  valid_boundaries _ := true;
|}.
Definition all_succeed (profiler_error : option bytes) : outside := {|
  new_trace_exporter _ := None; new_log_exporter _ := None; ctx_error := None; pyroscope_error := profiler_error;
  meter_answers := {| a_prometheus := None; a_targetInfo := None; a_register := None; a_otlp _ := None; a_runtime := None; a_listen := None; a_failures := None |} |}.
Definition service_options : list (option Option) :=
  [Some (WithServiceName #"svc"); Some (WithServiceVersion #"1.0.0"); Some (WithServiceNamespace #"team"); Some (WithEnvironment #"prod");
   Some (WithProfilingEnabled true); Some (WithProfilingEndpoint #"http://profiles:4040")].
Example a_service_starts :
  match Init (λ _, []) (λ _, []) (EnvAttributes []) service_options (all_succeed None) ProfilerSlot.init with
  | (calls, inr sdk, slot) =>
    shutdowns sdk = [Profiler; Tracer; Logs; ScrapeServer; Meter] ∧ still_open calls Metrics = [OpenServer; OpenProvider]
    ∧ tracerProviderPublic sdk = PyroscopeTracer ∧ ProfilerSlot.profilerStarted slot = true
  | _ => False
  end.
Proof. vm_compute. done. Qed.
