(* ===== verification/TargetInfo.v ===== *)
(** internal/metrics/targetinfo.go: the target_info collector InitMeter registers on the
    pull path. What prometheus.NewDesc and NewConstMetric refuse is an interface. *)
From S2P Require Import Prelude Utf8 GoStrings Utf8Valid Attribute PromLabel ResourceKeys.

(** client_golang's NewConstMetric, for a family name, its help, label names and values:
    the error, if any. *)
Class PromApi := { NewConstMetric : bytes → bytes → list bytes → list bytes → option bytes }.
(** It accepts distinct label names of the data model, without the internal prefix, with
    as many values, each of them valid UTF-8. *)
Class PromLaws (P : PromApi) := {
  NewConstMetric_accepts name help keys values :
    valid_label name → NoDup keys → Forall (λ l, valid_label l ∧ prefixb #"__" l = false) keys →
    length keys = length values → Forall (λ v, ValidString v = true) values → NewConstMetric name help keys values = None;
}.

Section collector.
Context `{P : PromApi} (value_String : attr_value → bytes).
Definition targetInfoName : bytes := #"target_info".
Definition targetInfoHelp : bytes := #"Target metadata".
(** A collector: the labels of its one sample, whose value is 1. *)
Record targetInfoCollector := { label_names : list bytes; label_values : list bytes }.
Definition newTargetInfoCollector (res : option (list KeyValue)) : bytes + targetInfoCollector :=
  let '(keys, values) := targetInfoLabels value_String res in
  match NewConstMetric targetInfoName targetInfoHelp keys values with
  | Some err => inl (#"metrics: build target_info: " ++ err)
  | None => inr {| label_names := keys; label_values := values |}
  end.

(** Values come from the attributes. *)
Lemma target_values (Q : bytes → Prop) attrs keys values :
  Forall (λ kv : KeyValue, Q (value_String kv.2)) attrs → Forall Q values →
  Forall Q (foldl (target_step value_String) (keys, values) attrs).2.
Proof.
  intros Ha. revert keys values. induction Ha as [|kv attrs Hkv _ IH]; intros keys values Hv; [done|].
  cbn [foldl]. unfold target_step at 2. cbv beta iota zeta. destruct (_ || _); [by apply IH|]. case_bool_decide; [by apply IH|].
  apply IH, Forall_app. split; [done|by apply Forall_singleton].
Qed.

(** The collector is made for every Resource whose values are valid UTF-8, whatever its
    keys are, and InitMeter does not fail on account of it; it shows each label once, and
    every attribute whose label it may show. *)
Theorem target_info_made `{!PromLaws P} (attrs : list KeyValue) (Hv : Forall (λ kv : KeyValue, ValidString (value_String kv.2) = true) attrs) :
  ∃ c, newTargetInfoCollector (Some attrs) = inr c
  ∧ NoDup (label_names c) ∧ length (label_names c) = length (label_values c)
  ∧ ∀ kv, kv ∈ attrs → target_label (label kv) → hasAlphanumeric kv.1 = true → label kv ∈ label_names c.
Proof.
  pose proof (targetInfoLabels_spec value_String attrs) as H. pose proof (target_values (λ v, ValidString v = true) attrs [] [] Hv ltac:(constructor)) as Hval.
  unfold newTargetInfoCollector. cbn [targetInfoLabels] in *. destruct (foldl _ _ attrs) as [keys values]. destruct H as (Hnd & Hlen & Hl & Hall).
  rewrite NewConstMetric_accepts; [by eexists|by apply (bool_decide_unpack _)|done|by apply Forall_forall|done|done].
Qed.
End collector.
