(* ===== verification/UserAttributes.v ===== *)
(** attributes.go: the acting user and the application's own values, on a span, in a log
    record and in the baggage. *)
From S2P Require Import Prelude Utf8 GoStrings GoCodec GoNum SampleLib Attribute SlogAttr Baggage.

Definition UserNameSpanAttribute (name : bytes) : KeyValue := (UserNameKey, StringValue name).
Definition UserNameLogAttr (name : bytes) : sattr := (UserNameKey, VString name).
(** SetUser: what is set on the span of the context. *)
Definition SetUser (name : bytes) : list KeyValue := if bool_decide (name = []) then [] else [UserNameSpanAttribute name].
Definition UserName (name : bytes) : sattr := if bool_decide (name = []) then zero_attr else UserNameLogAttr name.

Section baggage.
Context `{B : BaggageApi, P : GoPrint}.
Definition ContextWithBaggageValue (ctx : Ctx) (key value : bytes) : Ctx * option bytes := ContextWithValue ctx key value.
Definition ContextWithoutBaggageValues (ctx : Ctx) (keys : list bytes) : Ctx := ContextWithoutValues ctx keys.

Context `{!BaggageLaws B}.
Definition user_whitelist : Whitelist := NewWhitelist [UserNameKey].
Lemma user_attributes ctx : SpanAttributesFromContext user_whitelist ctx = option_list (from_member (FromContext ctx) UserNameKey).
Proof.
  destruct (SpanAttributesFromContext_spec _ [UserNameKey] ctx) as [H _]. etrans; [exact H|]. change (Keys (NewWhitelist [UserNameKey])) with [UserNameKey].
  cbn [omap list_omap]. by destruct (from_member _ _).
Qed.
Lemma user_log_attributes ctx : SpanAttributesFromContext user_whitelist ctx = (λ kv, (kv.1, StringValue kv.2)) <$> LogAttrsFromContext user_whitelist ctx.
Proof. by destruct (SpanAttributesFromContext_spec _ [UserNameKey] ctx). Qed.

(** One user, three ways. A context that was given a user makes spans and records carry
    what SetUser and UserName put there by hand, where the service opted in, until the
    value is removed; an empty name does nothing, any of the three ways. *)
Theorem user_three_ways (ctx ctx' : Ctx) (name : bytes) :
  (SetUser [] = [] ∧ UserName [] = zero_attr ∧ ContextWithUser ctx [] = (ctx, None))
  ∧ match ContextWithUser ctx name with
    | (ctx', None) => name ≠ [] →
        SpanAttributesFromContext user_whitelist ctx' = SetUser name
        ∧ (λ kv, (kv.1, VString kv.2)) <$> LogAttrsFromContext user_whitelist ctx' = [UserName name]
        ∧ SpanAttributesFromContext user_whitelist (ContextWithoutBaggageValues ctx' [UserNameKey]) = []
    | (ctx', Some err) => ctx' = ctx
    end.
Proof.
  split; [done|]. unfold ContextWithUser, SetUser, UserName. case_bool_decide as Hn; [done|].
  pose proof (contextWithValue_spec _ ctx UserNameKey name) as H. destruct (contextWithValue ctx UserNameKey name) as [c [err|]]; [done|].
  intros _. destruct H as [[? _]|(_ & Hlen & _ & _ & Hm & _)]; [done|].
  assert (Hs : SpanAttributesFromContext user_whitelist c = [UserNameSpanAttribute name]).
  { rewrite user_attributes. unfold from_member, usable. rewrite Hm. cbn [fst snd].
    by rewrite (bool_decide_false (name = [])), (proj2 (Nat.ltb_ge _ _) Hlen) by done. }
  split; [done|]. split.
  - rewrite user_log_attributes in Hs. destruct (LogAttrsFromContext user_whitelist c) as [|[k v] [|]]; [done| |done]. by injection Hs as -> ->.
  - rewrite user_attributes. unfold from_member, usable, ContextWithoutBaggageValues.
    destruct (ContextWithoutValues_spec _ c [UserNameKey]) as (-> & _); [done|by left].
Qed.
End baggage.
