(* ===== verification/CassandraSession.v ===== *)
(** cassandra/session.go: NewSession, and the observers a session reports to. The driver
    is a parameter: CreateSession copies the cluster's configuration into the session it
    makes. An observer is what it does to the world; [emit] is what the SDK's telemetry
    does to it. *)
From S2P Require Import Prelude Utf8 GoStrings GoNum GoFields Attribute Semconv CassandraCql Cassandra Views Instruments.

Section session.
Context `{U : GoUpper} {TP MP Rest W : Type} (Meter : MP → instrument_meter) (emit : list telemetry → W → W).

Abbreviation QueryObserver_ := (ObservedQuery → W → W).
Abbreviation ConnectObserver_ := (ObservedConnect → W → W).
Record ClusterConfig := {
  Hosts : list bytes; ClusterPort : Z; ClusterKeyspace : bytes;
  QueryObserver : option QueryObserver_; ConnectObserver : option ConnectObserver_; rest : Rest;
}.
Definition with_observers (c : ClusterConfig) (q : option QueryObserver_) (o : option ConnectObserver_) : ClusterConfig := {|
  Hosts := Hosts c; ClusterPort := ClusterPort c; ClusterKeyspace := ClusterKeyspace c;
  QueryObserver := q; ConnectObserver := o; rest := rest c |}.

Definition sdk_query (obs : observer) : QueryObserver_ := λ q, emit (ObserveQuery obs q).
Definition sdk_connect (obs : observer) : ConnectObserver_ := λ c, emit (ObserveConnect obs c).
Definition chainQueryObserver (existing : option QueryObserver_) (sdk : QueryObserver_) : QueryObserver_ :=
  match existing with None => sdk | Some existing => λ q w, sdk q (existing q w) end.
Definition chainConnectObserver (existing : option ConnectObserver_) (sdk : ConnectObserver_) : ConnectObserver_ :=
  match existing with None => sdk | Some existing => λ c w, sdk c (existing c w) end.

(** newObserver, with its instruments. *)
Definition newObserver (cluster : ClusterConfig) (mp : MP) (opts : list (option Option_)) : bytes + observer :=
  match refused (cassandra_newInstruments (Meter mp)) with
  | Some err => inl err
  | None => inr (Cassandra.newObserver (Hosts cluster) (ClusterPort cluster) (ClusterKeyspace cluster) opts)
  end.

(** The sessions: the registry, and the observer that has each number. *)
Record sessions := { reg : registry; observers : gmap nat observer }.
Definition register (s : sessions) (session : address) (obs : observer) : sessions :=
  {| reg := registerSession (reg s) session; observers := <[made (reg s) := obs]> (observers s) |}.
Definition observer_of (s : sessions) (session : address) : option observer := lookupObserver (reg s) session ≫= λ n, observers s !! n.

(** What CreateSession was called with, the error or the session, the cluster as it is
    left, and the sessions. *)
Definition NewSession (CreateSession : ClusterConfig → bytes + address) (cluster : option ClusterConfig) (tp : option TP) (mp : option MP)
    (opts : list (option Option_)) (s : sessions) : list ClusterConfig * (bytes + address) * option ClusterConfig * sessions :=
  match cluster, tp, mp with
  | None, _, _ => ([], inl #"cassandra: cluster config must not be nil", cluster, s)
  | Some _, None, _ => ([], inl #"cassandra: tracer provider must not be nil", cluster, s)
  | Some _, Some _, None => ([], inl #"cassandra: meter provider must not be nil", cluster, s)
  | Some c, Some _, Some mp =>
    match newObserver c mp opts with
    | inl err => ([], inl err, cluster, s)
    | inr obs =>
      let origQuery := QueryObserver c in
      let origConnect := ConnectObserver c in
      let c := with_observers c (Some (chainQueryObserver origQuery (sdk_query obs))) (Some (chainConnectObserver origConnect (sdk_connect obs))) in
      let created := CreateSession c in
      let restored := with_observers c origQuery origConnect in
      match created with
      | inl err => ([c], inl err, Some restored, s)
      | inr session => ([c], inr session, Some restored, register s session obs)
      end
    end
  end.

(** What an observer that may not be there does. *)
Definition observe_ {A} (o : option (A → W → W)) (a : A) (w : W) : W := match o with Some f => f a w | None => w end.

(** A session and its observers. The caller's configuration is what it was when
    NewSession returns, however it returns, so sessions made of it again do not stack
    observers. The driver is called at most once, with a configuration that differs in the
    observers only: every query and every attempt to connect is reported to the caller's
    own observer first, if there is one, then once to the SDK's, which is the one the batch
    entry points find for the session. With an error nothing is registered. *)
Theorem session_observed (CreateSession : ClusterConfig → bytes + address) (cluster : option ClusterConfig) (tp : option TP) (mp : option MP)
    (opts : list (option Option_)) (s : sessions) :
  let '(created, r, cluster', s') := NewSession CreateSession cluster tp mp opts s in
  cluster' = cluster
  ∧ Forall (λ c, ∃ c0 obs, cluster = Some c0 ∧ Hosts c = Hosts c0 ∧ ClusterPort c = ClusterPort c0 ∧ ClusterKeyspace c = ClusterKeyspace c0 ∧ rest c = rest c0
      ∧ (∀ q w, observe_ (QueryObserver c) q w = emit (ObserveQuery obs q) (observe_ (QueryObserver c0) q w))
      ∧ (∀ o w, observe_ (ConnectObserver c) o w = emit (ObserveConnect obs o) (observe_ (ConnectObserver c0) o w))
      ∧ ∀ session, r = inr session → observer_of s' session = Some obs) created
  ∧ match r with
    | inl err => s' = s ∧ (created = [] ∨ ∃ c, created = [c] ∧ CreateSession c = inl err)
    | inr session => ∃ c, created = [c] ∧ CreateSession c = inr session
        ∧ ∀ other, other ≠ session → lookupObserver (reg s') other = lookupObserver (reg s) other
    end.
Proof.
  unfold NewSession. destruct cluster as [c|]; [|split_and!; [done|done|done|by left]].
  destruct tp; [|split_and!; [done|done|done|by left]]. destruct mp as [mp|]; [|split_and!; [done|done|done|by left]].
  destruct (newObserver c mp opts) as [err|obs]; [split_and!; [done|done|done|by left]|]. cbv zeta.
  assert (Hc : with_observers (with_observers c (Some (chainQueryObserver (QueryObserver c) (sdk_query obs)))
                 (Some (chainConnectObserver (ConnectObserver c) (sdk_connect obs)))) (QueryObserver c) (ConnectObserver c) = c) by by destruct c.
  rewrite Hc. destruct (CreateSession _) as [err|session] eqn:E.
  - split; [done|]. split; [|split; [done|right; by eexists]]. apply Forall_singleton. exists c, obs.
    split_and!; try done; intros; cbn; [by destruct (QueryObserver c)|by destruct (ConnectObserver c)].
  - split; [done|]. split.
    + apply Forall_singleton. exists c, obs. split_and!; try done; [intros; cbn; by destruct (QueryObserver c)|intros; cbn; by destruct (ConnectObserver c)|].
      intros ? [= <-]. unfold observer_of, lookupObserver. cbn. rewrite lookup_insert_eq. cbn. by rewrite lookup_insert_eq.
    + eexists. split_and!; [done|done|]. intros other Ho. unfold lookupObserver. cbn. by rewrite lookup_insert_ne.
Qed.
End session.
